(* ===== verification/_CoqProject ===== *)
-Q . S2P
Prelude.v
Bytes.v
Text.v
Disk.v
Wal.v
MemTable.v
SSTable.v
Heap.v
Merge.v
Metrics.v
Float64.v
Engine.v
EngineMetrics.v
Compaction.v
Recovery.v
Durable.v
Crash.v
EngineSpec.v
LsmTheorems.v
Persister.v
Raft.v
RaftNode.v
Cluster.v
ClusterInv.v
ClusterSafety.v
ClusterViews.v
ClusterLive.v
ClusterReplicate.v
ClusterCommit.v
ClusterAgree.v
ClusterChosen.v
Agreement.v
ClusterRuns.v
RaftTheorems.v
AgreementTheorems.v
Store.v
StoreSpec.v
StoreLsm.v
StoreTheorems.v
ReplicaTheorems.v
Api.v
ApiTheorems.v
Labgob.v
Labrpc.v
LabrpcSpec.v
Main.v
NetTheorems.v
Process.v
ProcessSim.v
ProcessStep.v
ProcessLives.v
ProcessTheorems.v
