(* ===== verification/Prelude.v ===== *)
(** * raft-lsm-kv: a verification library

    The program is a replicated key-value store: an HTTP gateway ([internal/api])
    in front of stores ([internal/store]), one per node; a store submits commands
    to Raft ([internal/raft]) and applies the committed ones to an LSM storage
    engine ([internal/lsm]) with a write-ahead log ([internal/wal]); the nodes call
    each other over an in-process network ([internal/raft/labrpc]).  [cmd/kvnode]
    starts three nodes in one process.

    ** Files: the storage engine

    - [Bytes], [Text]: byte strings, comparison, fixed-width integers, and the
      formatting and parsing of the standard library that file names and the
      manifest use.
    - [Disk]: files, system calls that may fail or be killed half-way, the monad
      [IO], and the logic [wp E m Q C F]: from the files [F], under every fault
      schedule that [E] allows, [m] does not panic, ends in [Q], and is killed only
      in [C].
    - [Wal] ([wal.go]), [MemTable] ([memtable.go]), [SSTable] ([sstable_format.go],
      [sstable_writer.go], [sstable_reader.go], [compaction_iterator.go]), [Heap]
      ([container/heap]), [Merge] ([compaction_merge.go], [compaction_builder.go];
      generic in the class [Iterator], which table files implement), [Metrics],
      [Float64], [EngineMetrics] ([metrics.go], float64 by [SpecFloat]).
    - [Engine] ([kvstore.go], the flush of [kvstore_compaction.go]), [Compaction],
      [Recovery] ([kvstore_compaction.go] and [NewDBWithOptions]).
    - [Durable], [Crash]: what a disk holds ([durable]), and what a kill inside an
      operation leaves. [EngineSpec]: commands (writes, reads, and turns of the
      goroutines that flush, pre-allocate a log and compact) and the refinement of a
      finite map by those that do not compact.
    - [LsmTheorems]: the engine refines a finite map through crashes and restarts, as
      long as nothing is compacted; round trips of the log, the table files and the
      manifest; the merge; what compaction keeps and what it breaks; what a torn table
      file and a failed append do.

    ** Files: Raft

    - [Persister], [Raft] ([persister.go], [raft.go]): one node; each critical
      section is a function of the node's state and of what it reads from outside
      ([Env]: time, randomness, the outcome of every write of the state file); [None]
      is a panic. [RaftNode]: what each section does.
    - [Cluster]: the nodes and the calls in flight as a transition system with
      crashes and restarts. In [step] a section gets through its writes of the state
      file or its node crashes between two of them; [fstep] adds crashes inside a
      write and the panics of a failing write that the gateway recovers. [ClusterInv], [ClusterSafety]: its invariant.
      [ClusterViews]: what terms, votes and leaders do along a run. [ClusterLive]:
      no enabled handler panics, and the messages of the apply loop.
      [ClusterReplicate]: rounds of AppendEntries bring a log to the leader's.
    - [ClusterCommit], [ClusterAgree], [ClusterChosen]: the invariant of commitment, as
      histories of what every node has stored, and that every event of a run with
      fresh elections keeps it.  An election is fresh when the new leader has
      [matchIndex] at zero; the code does not see to that, and it is sure only until
      a node wins its second election since its start.  [Agreement]: one history for
      all nodes, committed entries in the logs of later leaders, the apply loop.
    - [ClusterRuns]: a codec that satisfies the laws, and runs of three nodes that
      the kernel evaluates.
    - [RaftTheorems]: election safety, log matching, votes and stable storage,
      restarts, replication, the handlers; two runs in which a stale [matchIndex]
      breaks the agreement of the committed entries, and one in which a torn state
      file does.
      [AgreementTheorems]: state machine safety, leader completeness and no panic in
      the runs with fresh elections.

    ** Files: the store, the gateway and the process

    - [Store] ([store.go]): the apply loop and the client calls as goroutines, over
      the interfaces [EngineApi] and [RaftApi]. [StoreSpec]: the laws [EngineLaws]
      and the invariant. [StoreLsm]: the storage engine with compaction off and the
      finite map satisfy the laws. [StoreTheorems]: answers are linearized, a restart replays the log,
      the apply loop never blocks, channels do not leak, wake-ups can be lost.
      [ReplicaTheorems]: cluster and stores together; the stores of all nodes hold
      first parts of one history and answer from it.
    - [Api] ([server.go]), [ApiTheorems]: the requests of the gateway over any
      stores, and its report.
    - [Labgob] ([labgob.go]): encoders and decoders with their checks of types and
      values. [Labrpc]
      ([labrpc.go]): the network and the life of a request; [LabrpcSpec]: a request
      runs at most once, which is what [Cluster] assumes of calls, and a call
      without faults succeeds.
    - [Main] ([cmd/kvnode/main.go]): the start of the process, which puts stores,
      Raft objects and network together. [NetTheorems]: the properties of these
      three files.
    - [Process]: the running process as one transition system: the sections of the
      three Raft objects, the goroutines that call other nodes ([raft.go]) and the
      requests in the network ([labrpc.go]) are interleaved, a kill ends them all, and
      [main] starts the next process on the files. A kill may come between two writes
      of a state file or inside one, and a write may fail: this ends the process, or is
      recovered when it happens in a request of the gateway. [ProcessSim] (goroutines and
      requests stand for the calls of [Cluster]), [ProcessStep] (each step),
      [ProcessLives] (kills and starts): the process refines the cluster.
      [ProcessTheorems]: the refinement, with and without these faults; [main] starts
      again after every kill; and, when the writes of the state files succeed and the
      kills come between them: no step ends the process, but the apply loop after a
      stale election; one leader per term and, with fresh elections, one history for
      all stores, in all its lives together.

    ** Conventions

    A Go [int] is a [Z], [uint64] arithmetic goes through [u64]; a slice is a list;
    indexing that panics is [None]. A function that Go runs under a mutex is one
    step; background goroutines are steps of their own. Loops whose recursion is
    not structural take fuel, and the fuel is computed from the input: the length
    of the bytes to parse, the number of pairs to merge, the length of the log, the
    number of types that are not checked yet.

    ** Bounds

    The refinement of the engine carries a budget: keys are not empty, the bytes
    written since the last start-up stay below 2^32-1 (the lengths of the formats),
    and file identifiers stay below 10^6 (six digits in the names).

    ** What the safety theorems assume

    - Raft keeps its state in one file that [Save] truncates before it writes. The
      safety of Raft is proved for the runs in which no crash comes inside such a write
      and no write fails ([Cluster.run], [later false]); [torn_state_two_leaders] shows
      that one such crash is enough to lose it.
    - A new leader does not reset [matchIndex]. Agreement is proved for fresh elections;
      [stale_match_diverges] is a run without them.
    - A compaction of the engine changes the map that it stores ([compaction_reads]).
      The refinement of the finite map, and with it the laws that the stores rely on,
      are proved with compaction off or without a turn of its goroutine; [main] turns it
      on unless [ENABLE_COMPACTION] says otherwise.

    ** Not modelled

    Mutexes inside one critical section, the operating system's page cache
    ([Sync] has no effect on the model: what was written is there after a kill of
    the process), the limits of memory (a length read from a corrupted table file for
    which [make] panics is a failed read), printing, the timing of tickers and sleeps, the web framework
    (routing and the binding of JSON), [encoding/gob] (an interface with a round
    trip law) and [reflect] (its answers are data), and the client programs under
    [tests/].  [Process] starts when [main] has registered all services: what a call
    that comes earlier does is in [NetTheorems]. *)
From stdpp Require Export prelude list sorting.

Declare Scope go_scope.
Delimit Scope go_scope with go.

(** ** Go slices indexed by [int]

    A Go index is a signed integer; reading outside [0 .. len-1] panics, which
    the models represent by [None]. *)

Definition zlen {A} (l : list A) : Z := Z.of_nat (length l).

Definition znth {A} (l : list A) (i : Z) : option A :=
  if (i <? 0)%Z then None else l !! Z.to_nat i.

(** [l[:n]] and [l[n:]], defined for [0 <= n <= len l]. *)
Definition zslice_to {A} (l : list A) (n : Z) : option (list A) :=
  if (n <? 0)%Z || (zlen l <? n)%Z then None else Some (take (Z.to_nat n) l).

Definition zslice_from {A} (l : list A) (n : Z) : option (list A) :=
  if (n <? 0)%Z || (zlen l <? n)%Z then None else Some (drop (Z.to_nat n) l).

(** [l[i] = x]: [None] when Go panics. *)
Definition zupdate {A} (l : list A) (i : Z) (x : A) : option (list A) :=
  if (i <? 0)%Z || (zlen l <=? i)%Z then None else Some (<[Z.to_nat i := x]> l).

Notation "l .[ i ]" := (znth l i) (at level 1, left associativity, format "l .[ i ]") : go_scope.

Create HintDb go discriminated.

(** ** Tactics of the development *)

(** Case analysis on every [match]/[if] of the goal, with simplification. *)
Ltac case_all := repeat (case_match; simplify_eq/=); try done.

(** Turn boolean comparisons of the context and goal into propositions. *)
Ltac bool_to_prop :=
  repeat match goal with
  | H : _ && _ = true |- _ => apply andb_true_iff in H as [? ?]
  | H : _ || _ = false |- _ => apply orb_false_iff in H as [? ?]
  | H : negb _ = true |- _ => apply negb_true_iff in H
  | H : negb _ = false |- _ => apply negb_false_iff in H
  | H : (_ <? _)%Z = true |- _ => apply Z.ltb_lt in H
  | H : (_ <? _)%Z = false |- _ => apply Z.ltb_ge in H
  | H : (_ <=? _)%Z = true |- _ => apply Z.leb_le in H
  | H : (_ <=? _)%Z = false |- _ => apply Z.leb_gt in H
  | H : (_ =? _)%Z = true |- _ => apply Z.eqb_eq in H
  | H : (_ =? _)%Z = false |- _ => apply Z.eqb_neq in H
  | H : (_ <? _)%nat = true |- _ => apply Nat.ltb_lt in H
  | H : (_ <? _)%nat = false |- _ => apply Nat.ltb_ge in H
  | H : (_ <=? _)%nat = true |- _ => apply Nat.leb_le in H
  | H : (_ <=? _)%nat = false |- _ => apply Nat.leb_gt in H
  | H : (_ =? _)%nat = true |- _ => apply Nat.eqb_eq in H
  | H : (_ =? _)%nat = false |- _ => apply Nat.eqb_neq in H
  end.

(** Split a guard of the code and keep its meaning as a proposition. *)
Ltac guard_case := case_match; bool_to_prop; try lia.

(** ** Slices *)

Section Slices.
Context {A : Type}.
Implicit Types (l : list A) (i n : Z).

Lemma zlen_nonneg l : (0 <= zlen l)%Z.
Proof. unfold zlen; lia. Qed.

Lemma zlen_app l1 l2 : zlen (l1 ++ l2) = (zlen l1 + zlen l2)%Z.
Proof. unfold zlen. rewrite length_app. lia. Qed.

Lemma zlen_cons x l : zlen (x :: l) = (zlen l + 1)%Z.
Proof. unfold zlen; simpl; lia. Qed.

Lemma znth_Some l i x :
  znth l i = Some x <-> (0 <= i)%Z /\ l !! Z.to_nat i = Some x.
Proof. unfold znth. guard_case; intuition (lia || done). Qed.

Lemma znth_lt_Some l i x : znth l i = Some x -> (0 <= i < zlen l)%Z.
Proof.
  rewrite znth_Some. intros [? Hl%lookup_lt_Some]. unfold zlen. lia.
Qed.

Lemma znth_is_Some l i : (0 <= i < zlen l)%Z -> is_Some (znth l i).
Proof.
  unfold zlen, znth. intros ?. guard_case. apply lookup_lt_is_Some_2. lia.
Qed.

Lemma zlen_pos l : l <> [] -> (1 <= zlen l)%Z.
Proof. destruct l; [done|]. unfold zlen; simpl; lia. Qed.

Lemma znth_last l : l <> [] -> is_Some (znth l (zlen l - 1)).
Proof. intros Hl%zlen_pos. apply znth_is_Some. lia. Qed.

Lemma znth_of_nat l (k : nat) : znth l (Z.of_nat k) = l !! k.
Proof. unfold znth. guard_case. by rewrite Nat2Z.id. Qed.

Lemma zslice_to_Some l n : (0 <= n <= zlen l)%Z -> zslice_to l n = Some (take (Z.to_nat n) l).
Proof.
  intros ?. unfold zslice_to.
  destruct (n <? 0)%Z eqn:?, (zlen l <? n)%Z eqn:?; bool_to_prop; simpl; done || lia.
Qed.

Lemma zslice_from_Some l n : (0 <= n <= zlen l)%Z -> zslice_from l n = Some (drop (Z.to_nat n) l).
Proof.
  intros ?. unfold zslice_from.
  destruct (n <? 0)%Z eqn:?, (zlen l <? n)%Z eqn:?; bool_to_prop; simpl; done || lia.
Qed.

Lemma zslice_to_inv l n l' :
  zslice_to l n = Some l' -> (0 <= n <= zlen l)%Z /\ l' = take (Z.to_nat n) l.
Proof.
  unfold zslice_to. destruct (n <? 0)%Z eqn:?, (zlen l <? n)%Z eqn:?;
    simpl; intros; simplify_eq; bool_to_prop; split; lia || done.
Qed.

Lemma zslice_from_inv l n l' :
  zslice_from l n = Some l' -> (0 <= n <= zlen l)%Z /\ l' = drop (Z.to_nat n) l.
Proof.
  unfold zslice_from. destruct (n <? 0)%Z eqn:?, (zlen l <? n)%Z eqn:?;
    simpl; intros; simplify_eq; bool_to_prop; split; lia || done.
Qed.

Lemma zupdate_inv l i x l' :
  zupdate l i x = Some l' -> (0 <= i < zlen l)%Z /\ l' = <[Z.to_nat i := x]> l.
Proof.
  unfold zupdate. destruct (i <? 0)%Z eqn:?, (zlen l <=? i)%Z eqn:?;
    simpl; intros; simplify_eq; bool_to_prop; split; lia || done.
Qed.

Lemma zupdate_Some l i x : (0 <= i < zlen l)%Z -> zupdate l i x = Some (<[Z.to_nat i := x]> l).
Proof.
  intros ?. unfold zupdate.
  destruct (i <? 0)%Z eqn:?, (zlen l <=? i)%Z eqn:?; bool_to_prop; simpl; done || lia.
Qed.
End Slices.

#[export] Hint Resolve zlen_nonneg : go.

Lemma mjoin_cons {A} (l : list A) (ls : list (list A)) : mjoin (l :: ls) = l ++ mjoin ls.
Proof. done. Qed.

(** ** [sort.Search]

    The library's binary search, with the loop's midpoint [(i + j) / 2].  The
    interval [j - i] shrinks at every turn, so [n] turns are always enough. *)

Fixpoint search_loop (fuel : nat) (f : nat -> bool) (i j : nat) : nat :=
  match fuel with
  | O => i
  | S fuel =>
      if (i <? j)%nat then
        let h := ((i + j) / 2)%nat in
        if f h then search_loop fuel f i h else search_loop fuel f (S h) j
      else i
  end.

Definition sort_Search (n : nat) (f : nat -> bool) : nat := search_loop n f 0 n.

Section Search.
Variable f : nat -> bool.
Hypothesis Hmono : forall a b, (a <= b)%nat -> f a = true -> f b = true.

Lemma search_loop_spec fuel i j :
  (j - i <= fuel)%nat -> (i <= j)%nat ->
  (forall k, (k < i)%nat -> f k = false) ->
  let r := search_loop fuel f i j in
  (i <= r <= j)%nat /\ (forall k, (k < r)%nat -> f k = false) /\
  (forall k, (r <= k < j)%nat -> f k = true).
Proof.
  revert i j. induction fuel as [|fuel IH]; intros i j Hf Hij Hlo; cbn [search_loop].
  { repeat split; intros; auto; lia. }
  destruct (i <? j)%nat eqn:Hlt; bool_to_prop; [|repeat split; intros; auto; lia].
  assert (Hh : (i <= (i + j) / 2 < j)%nat).
  { split; [apply Nat.div_le_lower_bound; lia|apply Nat.Div0.div_lt_upper_bound; lia]. }
  generalize dependent ((i + j) / 2)%nat. intros h Hh; cbv zeta.
  destruct (f h) eqn:Hfh.
  - destruct (IH i h) as (? & ? & Hup); [lia|lia|done|].
    repeat split; auto; try lia.
    intros k ?. destruct (decide (k < h)%nat); [apply Hup; lia|apply (Hmono h); [lia|done]].
  - destruct (IH (S h) j) as (? & ? & Hup); [lia|lia| |repeat split; auto; lia].
    intros k ?. apply not_true_is_false. intros Hk.
    rewrite (Hmono k h) in Hfh; [done|lia|done].
Qed.

(** For a monotone predicate, [sort.Search] returns the least index of
    [0..n-1] where it holds, and [n] when there is none. *)
Lemma sort_Search_spec n :
  (sort_Search n f <= n)%nat /\
  (forall k, (k < sort_Search n f)%nat -> f k = false) /\
  (forall k, (sort_Search n f <= k < n)%nat -> f k = true).
Proof.
  unfold sort_Search.
  destruct (search_loop_spec n 0 n) as (? & ? & ?); [lia|lia|intros; lia|].
  repeat split; done || lia.
Qed.
End Search.


(** ** Filters *)

Section Filters.
Context {A : Type} (P : A -> Prop) `{forall x, Decision (P x)}.

Lemma filter_all l : Forall P l -> filter P l = l.
Proof. induction 1 as [|x l Hx _ IH]; [done|]. by rewrite filter_cons_True, IH. Qed.

Lemma filter_none l : Forall (fun x => ~ P x) l -> filter P l = [].
Proof. induction 1 as [|x l Hx _ IH]; [done|]. by rewrite filter_cons_False. Qed.
End Filters.
