(* ===== verification/Bytes.v ===== *)
(** * Byte strings and fixed-width integers

    Go strings and byte slices are both lists of bytes.  The file holds
    [bytes.Compare] with its order, and the fixed-width integer codecs of
    [encoding/binary]. *)
From stdpp Require Export strings countable.
From Stdlib Require Import Strings.Byte.
From coqutil Require Word.LittleEndianList.
From S2P Require Export Prelude.

Abbreviation bytes := (list Byte.byte).

#[export] Instance byte_eq_dec : EqDecision Byte.byte := Byte.byte_eq_dec.

#[export] Instance byte_countable : Countable Byte.byte.
Proof. exact (inj_countable Byte.to_N Byte.of_N Byte.of_to_N). Defined.

(** Go string literals. *)
Definition lit (s : string) : bytes := String.list_byte_of_string s.
Arguments lit s%_string.

(** ** [bytes.Compare] and [bytes.Equal] *)

Definition bcmp (a b : Byte.byte) : comparison := N.compare (Byte.to_N a) (Byte.to_N b).

Fixpoint Compare (a b : bytes) : comparison :=
  match a, b with
  | [], [] => Eq
  | [], _ :: _ => Lt
  | _ :: _, [] => Gt
  | x :: a, y :: b =>
      match bcmp x y with Eq => Compare a b | c => c end
  end.

Definition Equal (a b : bytes) : bool := bool_decide (a = b).

(** [bytes.Compare(a, b) >= 0], [< 0], [> 0] *)
Definition cmp_ge (a b : bytes) : bool := match Compare a b with Lt => false | _ => true end.
Definition cmp_lt (a b : bytes) : bool := match Compare a b with Lt => true | _ => false end.
Definition cmp_gt (a b : bytes) : bool := match Compare a b with Gt => true | _ => false end.

Definition blt (a b : bytes) : Prop := Compare a b = Lt.

#[export] Instance blt_dec a b : Decision (blt a b).
Proof. unfold blt, Decision. decide equality. Defined.

Lemma bcmp_eq a b : bcmp a b = Eq <-> a = b.
Proof.
  unfold bcmp. rewrite N.compare_eq_iff. split; [|by intros ->].
  intros H. apply (f_equal Byte.of_N) in H. rewrite !Byte.of_to_N in H. congruence.
Qed.

Lemma Compare_refl a : Compare a a = Eq.
Proof. induction a as [|x a IH]; simpl; [done|]. by rewrite (proj2 (bcmp_eq x x) eq_refl). Qed.

Lemma Compare_eq a b : Compare a b = Eq <-> a = b.
Proof.
  split; [|intros ->; apply Compare_refl].
  revert b. induction a as [|x a IH]; intros [|y b]; simpl; try done.
  destruct (bcmp x y) eqn:Hxy; try done. apply bcmp_eq in Hxy as ->.
  intros ?. f_equal. by apply IH.
Qed.

Lemma Compare_antisym a b : Compare b a = CompOpp (Compare a b).
Proof.
  revert b. induction a as [|x a IH]; intros [|y b]; simpl; try done.
  unfold bcmp. rewrite (N.compare_antisym (Byte.to_N x)).
  destruct (N.compare (Byte.to_N x) _); simpl; auto.
Qed.

Lemma blt_trans a b c : blt a b -> blt b c -> blt a c.
Proof.
  unfold blt. revert b c. induction a as [|x a IH]; intros [|y b] [|z c]; simpl; try done.
  destruct (bcmp x y) eqn:Hxy; try done.
  - apply bcmp_eq in Hxy as ->. destruct (bcmp y z) eqn:Hyz; try done. apply IH.
  - intros _. destruct (bcmp y z) eqn:Hyz; try done.
    + apply bcmp_eq in Hyz as <-. by rewrite Hxy.
    + intros _. unfold bcmp in *. rewrite N.compare_lt_iff in Hxy, Hyz.
      by rewrite (proj2 (N.compare_lt_iff _ _)) by lia.
Qed.

#[export] Instance blt_strict : StrictOrder blt.
Proof.
  split; [|exact blt_trans].
  intros a H. unfold blt in H. by rewrite Compare_refl in H.
Qed.

#[export] Instance blt_trichotomy : Trichotomy blt.
Proof.
  intros a b. unfold blt. destruct (Compare a b) eqn:H.
  - right; left. by apply Compare_eq.
  - by left.
  - right; right. by rewrite Compare_antisym, H.
Qed.

Lemma blt_irrefl a : ~ blt a a.
Proof. apply irreflexivity, _. Qed.

Lemma blt_ne a b : blt a b -> a <> b.
Proof. intros H ->. by apply blt_irrefl in H. Qed.

Lemma cmp_lt_true a b : cmp_lt a b = true <-> blt a b.
Proof. unfold cmp_lt, blt. by destruct (Compare a b). Qed.

Lemma cmp_gt_true a b : cmp_gt a b = true <-> blt b a.
Proof. unfold cmp_gt, blt. rewrite (Compare_antisym a b). by destruct (Compare a b). Qed.

Lemma cmp_ge_true a b : cmp_ge a b = true <-> ~ blt a b.
Proof. unfold cmp_ge, blt. by destruct (Compare a b). Qed.

Lemma cmp_ge_false a b : cmp_ge a b = false <-> blt a b.
Proof. unfold cmp_ge, blt. by destruct (Compare a b). Qed.

Lemma Equal_true a b : Equal a b = true <-> a = b.
Proof. unfold Equal. by rewrite bool_decide_eq_true. Qed.

Lemma Equal_false a b : Equal a b = false <-> a <> b.
Proof. unfold Equal. by rewrite bool_decide_eq_false. Qed.

Lemma not_blt a b : ~ blt a b -> a = b \/ blt b a.
Proof. destruct (trichotomy blt a b) as [?|[?|?]]; auto; done. Qed.

(** ** Machine-width unsigned integers *)

Definition u32 (z : Z) : Z := (z mod 2 ^ 32)%Z.
Definition u64 (z : Z) : Z := (z mod 2 ^ 64)%Z.

Lemma u32_small z : (0 <= z < 2 ^ 32)%Z -> u32 z = z.
Proof. apply Z.mod_small. Qed.

Lemma u64_small z : (0 <= z < 2 ^ 64)%Z -> u64 z = z.
Proof. apply Z.mod_small. Qed.

(** [binary.LittleEndian] and [binary.BigEndian] over four and eight bytes. *)
Definition PutUint32LE (v : Z) : bytes := LittleEndianList.le_split 4 v.
Definition PutUint64LE (v : Z) : bytes := LittleEndianList.le_split 8 v.
Definition PutUint32BE (v : Z) : bytes := rev (LittleEndianList.le_split 4 v).
Definition UintLE (b : bytes) : Z := LittleEndianList.le_combine b.
Definition UintBE (b : bytes) : Z := LittleEndianList.le_combine (rev b).

Arguments PutUint32LE : simpl never.
Arguments PutUint64LE : simpl never.
Arguments PutUint32BE : simpl never.
Arguments UintLE : simpl never.
Arguments UintBE : simpl never.

Lemma length_PutUint32LE v : length (PutUint32LE v) = 4%nat.
Proof. apply LittleEndianList.length_le_split. Qed.
Lemma length_PutUint64LE v : length (PutUint64LE v) = 8%nat.
Proof. apply LittleEndianList.length_le_split. Qed.
Lemma length_PutUint32BE v : length (PutUint32BE v) = 4%nat.
Proof. unfold PutUint32BE. rewrite length_rev. apply LittleEndianList.length_le_split. Qed.

Lemma UintLE_Put32 v : UintLE (PutUint32LE v) = u32 v.
Proof. apply (LittleEndianList.le_combine_split 4). Qed.
Lemma UintLE_Put64 v : UintLE (PutUint64LE v) = u64 v.
Proof. apply (LittleEndianList.le_combine_split 8). Qed.
Lemma UintBE_Put32 v : UintBE (PutUint32BE v) = u32 v.
Proof.
  unfold UintBE, PutUint32BE. rewrite rev_involutive.
  apply (LittleEndianList.le_combine_split 4).
Qed.

Create Rewrite HintDb bytes.

#[export] Hint Rewrite length_PutUint32LE length_PutUint64LE length_PutUint32BE
  UintLE_Put32 UintLE_Put64 UintBE_Put32 : bytes.

Lemma UintLE_bound b : (0 <= UintLE b < 2 ^ (8 * zlen b))%Z.
Proof. apply LittleEndianList.le_combine_bound. Qed.

(** The codec's fixed-size writes never look at more than the low bits. *)
Lemma PutUint32LE_u32 v : PutUint32LE (u32 v) = PutUint32LE v.
Proof. symmetry. apply (LittleEndianList.le_split_mod v 4). Qed.
