(* ===== verification/Text.v ===== *)
(** * Text: decimal numbers, file names, lines

    The functions of [strconv], [fmt], [strings] and [path/filepath] that the
    engine applies to file names ("%06d.sst", "%06dwal.log") and to the lines of
    the manifest. *)
From S2P Require Export Bytes.

Definition digit (d : Z) : Byte.byte :=
  match Byte.of_N (Z.to_N (48 + d)) with Some b => b | None => Byte.x30 end.

Definition digit_val (b : Byte.byte) : option Z :=
  let n := Z.of_N (Byte.to_N b) in
  if (48 <=? n)%Z && (n <=? 57)%Z then Some (n - 48)%Z else None.

(** [strconv.FormatUint(n, 10)]; twenty digits hold every [uint64]. *)
Fixpoint format_digits (fuel : nat) (n : Z) : bytes :=
  match fuel with
  | O => []
  | S fuel =>
      if (n <? 10)%Z then [digit n] else format_digits fuel (n / 10) ++ [digit (n mod 10)]
  end.

Definition FormatUint (n : Z) : bytes := format_digits 20 n.

(** [fmt.Sprintf("%06d", n)] *)
Definition Sprintf06d (n : Z) : bytes :=
  let s := FormatUint n in replicate (6 - length s) (digit 0) ++ s.

(** The value of a run of digits, read left to right. *)
Fixpoint digits_value (acc : Z) (s : bytes) : option Z :=
  match s with
  | [] => Some acc
  | c :: s =>
      match digit_val c with
      | Some d => digits_value (acc * 10 + d) s
      | None => None
      end
  end.

(** [strconv.ParseUint(s, 10, 64)]; [None] for a syntax or a range error. *)
Definition ParseUint (s : bytes) : option Z :=
  match s with
  | [] => None
  | _ =>
      match digits_value 0 s with
      | Some n => if (n <? 2 ^ 64)%Z then Some n else None
      | None => None
      end
  end.

(** The longest prefix of digits. *)
Fixpoint span_digits (s : bytes) : bytes :=
  match s with
  | [] => []
  | c :: s => match digit_val c with Some _ => c :: span_digits s | None => [] end
  end.

(** [fmt.Sscanf(name, "%06d...", &id)]: the width 6 bounds the number of digits
    read.  [id] is assigned before the literal rest of the format is compared, and
    the callers ignore the error, so it keeps its zero value only when no digit is
    read. *)
Definition Sscanf06d (name : bytes) : Z :=
  match ParseUint (span_digits (take 6 name)) with Some id => id | None => 0%Z end.

(** [filepath.Ext]: the suffix from the last dot, empty when there is none. *)
Fixpoint ext_rev (r acc : bytes) : bytes :=
  match r with
  | [] => []
  | c :: r =>
      if decide (c = Byte.x2f) then []
      else if decide (c = Byte.x2e) then c :: acc else ext_rev r (c :: acc)
  end.

Definition Ext (name : bytes) : bytes := ext_rev (rev name) [].

(** [strings.Split(s, sep)] for a one-byte separator. *)
Fixpoint Split (sep : Byte.byte) (s : bytes) : list bytes :=
  match s with
  | [] => [[]]
  | c :: s =>
      if decide (c = sep) then [] :: Split sep s
      else match Split sep s with
           | [] => [[c]]
           | w :: ws => (c :: w) :: ws
           end
  end.

(** [strings.Join(ws, sep)] for a one-byte separator. *)
Fixpoint Join (sep : Byte.byte) (ws : list bytes) : bytes :=
  match ws with
  | [] => []
  | [w] => w
  | w :: ws => w ++ sep :: Join sep ws
  end.

(** [strings.TrimSpace] on ASCII text. *)
Definition is_space (c : Byte.byte) : bool :=
  match c with
  | Byte.x20 | Byte.x09 | Byte.x0a | Byte.x0b | Byte.x0c | Byte.x0d => true
  | _ => false
  end.

Fixpoint trim_left (s : bytes) : bytes :=
  match s with
  | [] => []
  | c :: r => if is_space c then trim_left r else s
  end.

Definition TrimSpace (s : bytes) : bytes := rev (trim_left (rev (trim_left s))).

Example Sprintf06d_42 : Sprintf06d 42 = lit "000042".
Proof. reflexivity. Qed.
Example Sscanf06d_name : Sscanf06d (lit "000042wal.log") = 42%Z.
Proof. reflexivity. Qed.
Example Ext_name : Ext (lit "000042wal.log") = lit ".log".
Proof. reflexivity. Qed.
Example Split_line : Split Byte.x2c (lit "1,22,3") = [lit "1"; lit "22"; lit "3"].
Proof. reflexivity. Qed.

(** ** Digits *)

Lemma digit_val_digit d : (0 <= d < 10)%Z -> digit_val (digit d) = Some d.
Proof.
  intros Hd.
  assert (d = 0 \/ d = 1 \/ d = 2 \/ d = 3 \/ d = 4 \/ d = 5 \/ d = 6 \/ d = 7 \/ d = 8 \/ d = 9)%Z
    as Hcases by lia.
  repeat destruct Hcases as [->|Hcases]; try reflexivity. by subst.
Qed.

Definition is_digit (c : Byte.byte) : Prop := is_Some (digit_val c).

Lemma is_digit_digit d : (0 <= d < 10)%Z -> is_digit (digit d).
Proof. intros H. exists d. by apply digit_val_digit. Qed.

Lemma digits_value_app acc s t :
  digits_value acc (s ++ t) =
  match digits_value acc s with Some a => digits_value a t | None => None end.
Proof.
  revert acc. induction s as [|c s IH]; intros acc; simpl; [done|]. by destruct (digit_val c).
Qed.

Lemma digits_value_zeros k acc s :
  digits_value acc (replicate k (digit 0) ++ s) = digits_value (acc * 10 ^ Z.of_nat k) s.
Proof.
  revert acc. induction k as [|k IH]; intros acc; [by rewrite Z.mul_1_r|].
  rewrite replicate_S. cbn [app digits_value]. rewrite digit_val_digit by lia.
  rewrite IH. f_equal. rewrite Nat2Z.inj_succ, Z.pow_succ_r by lia. lia.
Qed.

Section FormatDigits.
Lemma format_digits_Forall fuel n : (0 <= n)%Z -> Forall is_digit (format_digits fuel n).
Proof.
  revert n. induction fuel as [|fuel IH]; intros n Hn; simpl; [done|].
  destruct (n <? 10)%Z eqn:H; bool_to_prop.
  - constructor; [|done]. apply is_digit_digit. lia.
  - apply Forall_app. split; [apply IH, Z.div_pos; lia|].
    constructor; [|done]. apply is_digit_digit, Z.mod_pos_bound. lia.
Qed.

Lemma format_digits_value fuel n :
  (0 <= n < 10 ^ Z.of_nat fuel)%Z -> digits_value 0 (format_digits fuel n) = Some n.
Proof.
  revert n. induction fuel as [|fuel IH]; intros n Hn; simpl.
  { simpl in Hn. f_equal. lia. }
  destruct (n <? 10)%Z eqn:H; bool_to_prop; simpl.
  - rewrite digit_val_digit by lia. f_equal.
  - rewrite Nat2Z.inj_succ, Z.pow_succ_r in Hn by lia.
    rewrite digits_value_app, IH.
    2:{ split; [apply Z.div_pos; lia|apply Z.div_lt_upper_bound; lia]. }
    simpl. rewrite digit_val_digit by (apply Z.mod_pos_bound; lia).
    f_equal. rewrite (Z.mul_comm _ 10). symmetry. apply Z.div_mod. lia.
Qed.

Lemma format_digits_length fuel k n :
  (0 <= n < 10 ^ Z.of_nat k)%Z -> (0 < k)%nat -> (length (format_digits fuel n) <= k)%nat.
Proof.
  revert k n. induction fuel as [|fuel IH]; intros k n Hn Hk; simpl; [lia|].
  destruct (n <? 10)%Z eqn:H; bool_to_prop; simpl; [lia|].
  rewrite length_app. simpl.
  destruct k as [|[|k]]; [lia|simpl in Hn; lia|].
  enough (length (format_digits fuel (n / 10)) <= S k)%nat by lia.
  apply IH; [|lia]. rewrite Nat2Z.inj_succ, Z.pow_succ_r in Hn by lia.
  split; [apply Z.div_pos; lia|apply Z.div_lt_upper_bound; lia].
Qed.

Lemma format_digits_nonempty fuel n : (0 < fuel)%nat -> format_digits fuel n <> [].
Proof.
  destruct fuel; [lia|]. intros _. simpl. destruct (n <? 10)%Z; [done|].
  intros [_ ?]%app_nil. done.
Qed.
End FormatDigits.

(** ** Round trips *)

Definition is_u64 (n : Z) : Prop := (0 <= n < 2 ^ 64)%Z.

Lemma FormatUint_value n : is_u64 n -> digits_value 0 (FormatUint n) = Some n.
Proof. intros H. apply format_digits_value. unfold is_u64 in H. simpl. lia. Qed.

Lemma FormatUint_digits n : is_u64 n -> Forall is_digit (FormatUint n).
Proof. intros H. apply format_digits_Forall. unfold is_u64 in H. lia. Qed.

Lemma FormatUint_nonempty n : FormatUint n <> [].
Proof. apply format_digits_nonempty. lia. Qed.

Lemma ParseUint_value s n :
  s <> [] -> digits_value 0 s = Some n -> is_u64 n -> ParseUint s = Some n.
Proof.
  unfold is_u64. intros Hs Hv Hn. unfold ParseUint. destruct s; [done|]. rewrite Hv.
  by rewrite (proj2 (Z.ltb_lt n (2 ^ 64))) by lia.
Qed.

Lemma ParseUint_FormatUint n : is_u64 n -> ParseUint (FormatUint n) = Some n.
Proof. intros H. apply ParseUint_value; auto using FormatUint_nonempty, FormatUint_value. Qed.

Lemma FormatUint_inj m n : is_u64 m -> is_u64 n -> FormatUint m = FormatUint n -> m = n.
Proof.
  intros Hm Hn H. apply ParseUint_FormatUint in Hm, Hn. congruence.
Qed.

Lemma Sprintf06d_digits n : is_u64 n -> Forall is_digit (Sprintf06d n).
Proof.
  intros H. unfold Sprintf06d. apply Forall_app. split; [|by apply FormatUint_digits].
  apply Forall_replicate. by apply is_digit_digit.
Qed.

Lemma Sprintf06d_value n : is_u64 n -> digits_value 0 (Sprintf06d n) = Some n.
Proof. intros H. unfold Sprintf06d. rewrite digits_value_zeros, Z.mul_0_l. by apply FormatUint_value. Qed.

Lemma Sprintf06d_length n : (0 <= n < 10 ^ 6)%Z -> length (Sprintf06d n) = 6%nat.
Proof.
  intros H. unfold Sprintf06d. rewrite length_app, length_replicate.
  assert (length (FormatUint n) <= 6)%nat by (apply format_digits_length; simpl; lia). lia.
Qed.

Lemma span_digits_all s : Forall is_digit s -> span_digits s = s.
Proof. induction 1 as [|c s [d Hd] _ IH]; simpl; [done|]. by rewrite Hd, IH. Qed.

(** The file number of a name is read back as it was printed, up to six digits. *)
Lemma Sscanf06d_Sprintf06d n suffix :
  (0 <= n < 10 ^ 6)%Z -> Sscanf06d (Sprintf06d n ++ suffix) = n.
Proof.
  intros H. assert (is_u64 n) as Hu by (unfold is_u64; lia).
  unfold Sscanf06d. rewrite take_app_length' by (by rewrite Sprintf06d_length).
  rewrite span_digits_all by (by apply Sprintf06d_digits).
  rewrite (ParseUint_value _ n); auto using Sprintf06d_value.
  intros Hnil. apply (f_equal length) in Hnil. by rewrite Sprintf06d_length in Hnil.
Qed.

Lemma Sprintf06d_inj m n : is_u64 m -> is_u64 n -> Sprintf06d m = Sprintf06d n -> m = n.
Proof.
  intros Hm%Sprintf06d_value Hn%Sprintf06d_value H. rewrite H in Hm. congruence.
Qed.

(** ** Extensions *)

Lemma ext_rev_app r acc ext :
  Forall (fun c => c <> Byte.x2e /\ c <> Byte.x2f) ext ->
  ext_rev (rev ext ++ Byte.x2e :: r) acc = Byte.x2e :: ext ++ acc.
Proof.
  intros H. revert acc. induction ext as [|c ext IH] using rev_ind; intros acc; simpl.
  { reflexivity. }
  apply Forall_app in H as [Hext [[Hd Hs] _]%Forall_cons]. rewrite rev_app_distr. simpl.
  rewrite !decide_False by done. rewrite IH by done. by rewrite <- app_assoc.
Qed.

Lemma Ext_app base ext :
  Forall (fun c => c <> Byte.x2e /\ c <> Byte.x2f) ext -> Ext (base ++ Byte.x2e :: ext) = Byte.x2e :: ext.
Proof.
  intros H. unfold Ext. rewrite rev_app_distr. simpl. rewrite <- app_assoc. simpl.
  rewrite ext_rev_app by done. by rewrite app_nil_r.
Qed.

(** ** Lines and fields *)

Lemma Split_nonempty sep s : Split sep s <> [].
Proof.
  destruct s as [|c s]; simpl; [done|]. destruct (decide (c = sep)); [done|]. by destruct (Split sep s).
Qed.

Lemma Split_no_sep sep w : sep ∉ w -> Split sep w = [w].
Proof.
  induction w as [|c w IH]; simpl; [done|]. intros [Hc Hw]%not_elem_of_cons.
  rewrite decide_False by congruence. by rewrite IH.
Qed.

Lemma Split_app sep w s : sep ∉ w -> Split sep (w ++ sep :: s) = w :: Split sep s.
Proof.
  induction w as [|c w IH]; simpl; [intros _; by rewrite decide_True|].
  intros [Hc Hw]%not_elem_of_cons. rewrite decide_False by congruence. by rewrite IH.
Qed.

Lemma Split_Join sep ws :
  ws <> [] -> Forall (fun w => sep ∉ w) ws -> Split sep (Join sep ws) = ws.
Proof.
  induction ws as [|w ws IH]; [done|]. intros _ [Hw Hws]%Forall_cons.
  destruct ws as [|w' ws]; [by apply Split_no_sep|].
  cbn [Join]. rewrite Split_app by done. f_equal. by apply IH.
Qed.

(** Splitting a text that ends with the separator: the lines before, the last
    line, and an empty field. *)
Lemma Split_app_gen sep s t :
  Split sep (s ++ sep :: t) = Split sep s ++ Split sep t.
Proof.
  induction s as [|c s IH]; simpl; [by rewrite decide_True|].
  destruct (decide (c = sep)); [by rewrite IH|]. rewrite IH.
  destruct (Split sep s) eqn:H; [by apply Split_nonempty in H|done].
Qed.

Lemma is_digit_not_space c : is_digit c -> is_space c = false.
Proof. intros [d H]. by destruct c. Qed.

Lemma is_digit_ne c b : is_digit c -> digit_val b = None -> c <> b.
Proof. intros [d H] Hb ->. congruence. Qed.

Lemma trim_left_id s : (match s with [] => True | c :: _ => is_space c = false end) -> trim_left s = s.
Proof. destruct s as [|c s]; simpl; [done|]. by intros ->. Qed.

Lemma TrimSpace_id s :
  Forall (fun c => is_space c = false) s -> TrimSpace s = s.
Proof.
  intros H. unfold TrimSpace. rewrite (trim_left_id s) by (by destruct H).
  apply Forall_rev in H. rewrite trim_left_id by (by destruct H). apply rev_involutive.
Qed.
