(* ===== verification/Disk.v ===== *)
(** * The disk and the effects of the storage engine

    The engine runs over a file system with two directories and one manifest
    file.  Its code is written in a state monad over the disk in which every
    system call is a fault point: a schedule of faults decides whether the call
    succeeds, fails after part of its effect, or is the point where the process is
    killed.  [wp] is the program logic used for this code, with a postcondition
    and a crash condition. *)
From stdpp Require Export gmap.
From S2P Require Export Text.

(** The paths below [rootDir/data]: [sst/<name>], [wal/<name>], [manifest.log]. *)
Inductive path :=
  | SstFile (name : bytes)
  | WalFile (name : bytes)
  | ManifestFile.

#[export] Instance path_eq_dec : EqDecision path.
Proof. solve_decision. Defined.

#[export] Instance path_countable : Countable path.
Proof.
  refine (inj_countable'
    (fun p => match p with
              | SstFile n => inl (inl n) | WalFile n => inl (inr n) | ManifestFile => inr tt
              end)
    (fun x => match x with
              | inl (inl n) => SstFile n | inl (inr n) => WalFile n | inr _ => ManifestFile
              end) _).
  by intros [].
Defined.

Abbreviation files := (gmap path bytes).

(** Go errors: the input/output errors the engine meets, and [fmt.Errorf]. *)
Inductive error :=
  | EIO
  | ENotExist
  | EInvalid
  | EEOF
  | EUnexpectedEOF
  | EMsg (msg : bytes).

#[export] Instance error_eq_dec : EqDecision error.
Proof. solve_decision. Defined.

(** A value or an error, the Go pair [(v, err)]. *)
Definition result (A : Type) : Type := A + error.

(** The next system call succeeds, fails after [n] units of its effect, or is
    interrupted by the end of the process after [n] units. *)
Inductive fault := FOk | FErr (n : nat) | FCrash (n : nat).

Record Disk := mkDisk { disk_files : files; disk_faults : list fault }.

Inductive outcome (A : Type) :=
  | Done (a : A)
  | Panic
  | Crashed.
Arguments Done {A} _.
Arguments Panic {A}.
Arguments Crashed {A}.

Definition IO (A : Type) : Type := Disk -> outcome A * Disk.

#[export] Instance IO_ret : MRet IO := fun A a d => (Done a, d).

#[export] Instance IO_bind : MBind IO := fun A B k m d =>
  match m d with
  | (Done a, d') => k a d'
  | (Panic, d') => (Panic, d')
  | (Crashed, d') => (Crashed, d')
  end.

Definition panic {A} : IO A := fun d => (Panic, d).

(** A fault point: [full] is the effect of success, [partial n] what is done when
    the call stops after [n] units. *)
Definition syscall (full : files -> files) (partial : nat -> files -> files) : IO (option error) :=
  fun d =>
    match disk_faults d with
    | [] => (Done None, mkDisk (full (disk_files d)) [])
    | FOk :: fs => (Done None, mkDisk (full (disk_files d)) fs)
    | FErr n :: fs => (Done (Some EIO), mkDisk (partial n (disk_files d)) fs)
    | FCrash n :: fs => (Crashed, mkDisk (partial n (disk_files d)) fs)
    end.

(** Effects that happen at once. *)
Definition atomic_effect (f : files -> files) (n : nat) (F : files) : files :=
  match n with O => F | S _ => f F end.

(** [os.Create]: the file exists and is empty. *)
Definition os_Create (p : path) : IO (option error) :=
  let f := fun F => <[p := []]> F in syscall f (atomic_effect f).

(** [os.OpenFile] with [O_CREATE|O_APPEND]: the content is kept. *)
Definition os_OpenAppend (p : path) : IO (option error) :=
  let f := fun F : files => match F !! p with Some _ => F | None => <[p := []]> F end in
  syscall f (atomic_effect f).

(** [file.Write] at the end of the file; a failing write leaves a prefix. *)
Definition append_data (p : path) (data : bytes) (F : files) : files :=
  <[p := default [] (F !! p) ++ data]> F.

Definition file_Write (p : path) (data : bytes) : IO (option error) :=
  syscall (append_data p data) (fun n => append_data p (take n data)).

(** [file.Sync]: every write reaches the file when it is made, so only its
    error matters. *)
Definition file_Sync (p : path) : IO (option error) := syscall id (fun _ => id).

Definition file_Close (p : path) : IO (option error) := syscall id (fun _ => id).

(** [os.Remove], with the [!os.IsNotExist(err)] test of its callers: removing an
    absent file is not an error. *)
Definition os_Remove (p : path) : IO (option error) :=
  syscall (delete p) (atomic_effect (delete p)).

(** Opening a file and reading its whole content. *)
Definition os_ReadFile (p : path) : IO (result bytes) := fun d =>
  match disk_faults d with
  | FErr _ :: fs => (Done (inr EIO), mkDisk (disk_files d) fs)
  | FCrash _ :: fs => (Crashed, mkDisk (disk_files d) fs)
  | fs => (Done (match disk_files d !! p with Some c => inl c | None => inr ENotExist end),
           mkDisk (disk_files d) (tail fs))
  end.

(** [os.ReadDir]: the names, in increasing order. *)
Definition name_le (a b : bytes) : Prop := ~ blt b a.

#[export] Instance name_le_dec : RelDecision name_le.
Proof. intros a b. unfold name_le. apply _. Defined.

Definition dir_names (sel : path -> option bytes) (F : files) : list bytes :=
  merge_sort name_le (omap sel (map_to_list F).*1).

Definition sst_name (p : path) : option bytes := match p with SstFile n => Some n | _ => None end.
Definition wal_name (p : path) : option bytes := match p with WalFile n => Some n | _ => None end.

Definition os_ReadDir (sel : path -> option bytes) : IO (result (list bytes)) := fun d =>
  match disk_faults d with
  | FErr _ :: fs => (Done (inr EIO), mkDisk (disk_files d) fs)
  | FCrash _ :: fs => (Crashed, mkDisk (disk_files d) fs)
  | fs => (Done (inl (dir_names sel (disk_files d))), mkDisk (disk_files d) (tail fs))
  end.

(** ** Readers

    An [io.Reader] over a byte string: [io.ReadFull] into a buffer of [n] bytes. *)
Inductive read_full :=
  | ReadOk (data rest : bytes)
  | ReadEOF
  | ReadShort.

Definition ReadFull (n : Z) (r : bytes) : read_full :=
  if (n <=? zlen r)%Z then ReadOk (take (Z.to_nat n) r) (drop (Z.to_nat n) r)
  else match r with [] => ReadEOF | _ => ReadShort end.

Lemma ReadFull_app data rest n :
  n = zlen data -> ReadFull n (data ++ rest) = ReadOk data rest.
Proof.
  intros ->. unfold ReadFull. rewrite zlen_app.
  rewrite (proj2 (Z.leb_le _ _)) by (pose proof (zlen_nonneg rest); lia).
  unfold zlen. rewrite Nat2Z.id. by rewrite take_app_length, drop_app_length.
Qed.

Lemma ReadFull_short n r : (zlen r < n)%Z ->
  ReadFull n r = match r with [] => ReadEOF | _ => ReadShort end.
Proof. intros H. unfold ReadFull. by rewrite (proj2 (Z.leb_gt _ _)). Qed.

(** ** The program logic

    [wp E m Q C F]: from the files [F], under every schedule of faults allowed by
    [E], [m] never panics, ends in [Q], and is only killed in [C]. *)
Section Logic.
Context (E : fault -> Prop).

Definition wp {A} (m : IO A) (Q : A -> files -> Prop) (C : files -> Prop) (F : files) : Prop :=
  forall fs, Forall E fs ->
  match m (mkDisk F fs) with
  | (Done a, d) => Q a (disk_files d) /\ Forall E (disk_faults d)
  | (Panic, _) => False
  | (Crashed, d) => C (disk_files d)
  end.

Lemma wp_ret {A} (a : A) Q C F : Q a F -> wp (mret a) Q C F.
Proof. intros ? fs ?. done. Qed.

Lemma wp_mono {A} (m : IO A) (Q Q' : A -> files -> Prop) (C C' : files -> Prop) F :
  wp m Q C F -> (forall a G, Q a G -> Q' a G) -> (forall G, C G -> C' G) -> wp m Q' C' F.
Proof.
  intros H HQ HC fs Hfs. specialize (H fs Hfs).
  destruct (m (mkDisk F fs)) as [[a| |] d]; naive_solver.
Qed.

Lemma wp_bind {A B} (m : IO A) (k : A -> IO B) Q C F :
  wp m (fun a G => wp (k a) Q C G) C F -> wp (m ≫= k) Q C F.
Proof.
  intros H fs Hfs. specialize (H fs Hfs). unfold mbind, IO_bind.
  destruct (m (mkDisk F fs)) as [[a| |] [G gs]]; simpl in *; try done.
  destruct H as [H ?]. by apply H.
Qed.

Lemma wp_syscall full partial (Q : option error -> files -> Prop) (C : files -> Prop) F :
  Q None (full F) ->
  (forall n, E (FErr n) -> Q (Some EIO) (partial n F)) ->
  (forall n, E (FCrash n) -> C (partial n F)) ->
  wp (syscall full partial) Q C F.
Proof.
  intros Hok Herr Hcrash fs Hfs. unfold syscall; simpl.
  destruct Hfs as [|f fs Hf Hfs]; [done|]. destruct f; simpl; auto.
Qed.

Lemma wp_ReadFile p (Q : result bytes -> files -> Prop) (C : files -> Prop) F :
  Q (match F !! p with Some c => inl c | None => inr ENotExist end) F ->
  (forall n, E (FErr n) -> Q (inr EIO) F) ->
  (forall n, E (FCrash n) -> C F) ->
  wp (os_ReadFile p) Q C F.
Proof.
  intros Hok Herr Hcrash fs Hfs. unfold os_ReadFile; simpl.
  destruct Hfs as [|f fs Hf Hfs]; [done|]. destruct f; simpl; eauto.
Qed.

Lemma wp_ReadDir sel (Q : result (list bytes) -> files -> Prop) (C : files -> Prop) F :
  Q (inl (dir_names sel F)) F ->
  (forall n, E (FErr n) -> Q (inr EIO) F) ->
  (forall n, E (FCrash n) -> C F) ->
  wp (os_ReadDir sel) Q C F.
Proof.
  intros Hok Herr Hcrash fs Hfs. unfold os_ReadDir; simpl.
  destruct Hfs as [|f fs Hf Hfs]; [done|]. destruct f; simpl; eauto.
Qed.
End Logic.

(** What holds of every result of [m], whatever the disk and its faults. *)
Definition returns {A} (P : A -> Prop) (m : IO A) : Prop :=
  forall d, match m d with (Done a, _) => P a | _ => True end.

Lemma returns_ret {A} (P : A -> Prop) a : P a -> returns P (mret a).
Proof. by intros ? d. Qed.

Lemma returns_panic {A} (P : A -> Prop) : returns P panic.
Proof. done. Qed.

Lemma returns_mono {A} (P Q : A -> Prop) (m : IO A) : returns P m -> (forall a, P a -> Q a) -> returns Q m.
Proof. intros Hm Hq d. specialize (Hm d). destruct (m d) as [[a| |] d']; auto. Qed.

Lemma returns_bind {A B} (P : A -> Prop) (Q : B -> Prop) (m : IO A) (k : A -> IO B) :
  returns P m -> (forall a, P a -> returns Q (k a)) -> returns Q (m ≫= k).
Proof.
  intros Hm Hk d. specialize (Hm d). unfold mbind, IO_bind. destruct (m d) as [[a| |] d']; try done. by apply Hk.
Qed.

Lemma returns_ret_bind {A B} (Q : B -> Prop) (a : A) (k : A -> IO B) : returns Q (k a) -> returns Q (mret a ≫= k).
Proof. done. Qed.

Lemma returns_assoc {A B C} (Q : C -> Prop) (m : IO A) (f : A -> IO B) (g : B -> IO C) :
  returns Q (m ≫= fun a => f a ≫= g) -> returns Q ((m ≫= f) ≫= g).
Proof.
  intros Hm d. specialize (Hm d). unfold mbind, IO_bind in *. by destruct (m d) as [[a| |] d'].
Qed.

Lemma returns_after {A B} (Q : B -> Prop) (m : IO A) (k : A -> IO B) : (forall a, returns Q (k a)) -> returns Q (m ≫= k).
Proof. intros Hk. apply (returns_bind (fun _ => True)); [|auto]. intros d. by destruct (m d) as [[] ?]. Qed.

Lemma wp_returns {A} E (m : IO A) (P : A -> Prop) Q C F : returns P m -> wp E m Q C F -> wp E m (fun a G => P a /\ Q a G) C F.
Proof.
  intros Hp Hw fs Hfs. specialize (Hp (mkDisk F fs)). specialize (Hw fs Hfs). destruct (m (mkDisk F fs)) as [[a| |] d]; naive_solver.
Qed.

(** Follows the structure of an operation; what is left are its results. *)
Ltac returns_steps :=
  repeat (cbv beta zeta; match goal with
          | |- returns _ (mret _) => apply returns_ret
          | |- returns _ panic => apply returns_panic
          | |- returns _ (mret _ ≫= _) => apply returns_ret_bind
          | |- returns _ ((_ ≫= _) ≫= _) => apply returns_assoc
          | |- returns _ ((match ?x with _ => _ end) ≫= _) => destruct x eqn:?
          | |- returns _ (match ?x with _ => _ end) => destruct x eqn:?
          | |- returns _ (_ ≫= _) => apply returns_after; intros
          end).

(** No faults, faults of every kind, and process kills only. *)
Definition no_fault (f : fault) : Prop := f = FOk.
Definition any_fault (f : fault) : Prop := True.
Definition only_crash (f : fault) : Prop := match f with FErr _ => False | _ => True end.

(** Some system call can fail; the process can be killed. *)
Definition can_err (E : fault -> Prop) : Prop := exists n, E (FErr n).
Definition can_crash (E : fault -> Prop) : Prop := exists n, E (FCrash n).

(** What [wp] says of a run without faults. *)
Lemma wp_no_fault {A} (m : IO A) Q F :
  wp no_fault m Q (fun _ => False) F ->
  exists a d, m (mkDisk F []) = (Done a, d) /\ Q a (disk_files d).
Proof.
  intros H. specialize (H [] (Forall_nil_2 _)).
  destruct (m (mkDisk F [])) as [[a| |] d]; try done. exists a, d. naive_solver.
Qed.

Lemma no_fault_err n (P : Prop) : no_fault (FErr n) -> P.
Proof. done. Qed.
Lemma no_fault_crash n (P : Prop) : no_fault (FCrash n) -> P.
Proof. done. Qed.


(** Discharges the failing and crashing branches of a run without faults. *)
Lemma no_fault_can_err : ~ can_err no_fault.
Proof. by intros [n ?]. Qed.
Lemma no_fault_can_crash : ~ can_crash no_fault.
Proof. by intros [n ?]. Qed.

Ltac no_faults :=
  intros;
  match goal with
  | H : no_fault _ |- _ => discriminate H
  | H : can_err no_fault |- _ => destruct (no_fault_can_err H)
  | H : can_crash no_fault |- _ => destruct (no_fault_can_crash H)
  end.

Lemma only_crash_can_err : ~ can_err only_crash.
Proof. by intros [n ?]. Qed.
