(* ===== verification/Wal.v ===== *)
(** * The write-ahead log (internal/wal/wal.go)

    A record is [op(1) keyLen(4, BE) key] and, for a put, [valLen(4, BE) val].
    [AppendPut] and [AppendDelete] append one record and sync; [Replay] decodes
    the file from its start and calls back once per complete record. *)
From S2P Require Export Disk.

Definition OpPut : Byte.byte := Byte.x00.
Definition OpDelete : Byte.byte := Byte.x01.

(** [file] is nil once the log was deleted. *)
Record WAL := mkWAL { wal_file : option bytes }.

Definition OpenWAL (name : bytes) : IO (result WAL) :=
  err ← os_OpenAppend (WalFile name);
  match err with
  | Some e => mret (inr e)
  | None => mret (inl (mkWAL (Some name)))
  end.

(** The buffers that [AppendPut] and [AppendDelete] write. *)
Definition put_buf (key val : bytes) : bytes :=
  [OpPut] ++ PutUint32BE (u32 (zlen key)) ++ key ++ PutUint32BE (u32 (zlen val)) ++ val.

Definition delete_buf (key : bytes) : bytes :=
  [OpDelete] ++ PutUint32BE (u32 (zlen key)) ++ key.

(** Write the buffer, then sync; a log whose file is nil refuses the write. *)
Definition append_buf (w : WAL) (buf : bytes) : IO (option error) :=
  match wal_file w with
  | None => mret (Some EInvalid)
  | Some name =>
      err ← file_Write (WalFile name) buf;
      match err with
      | Some e => mret (Some e)
      | None => file_Sync (WalFile name)
      end
  end.

Definition AppendPut (w : WAL) (key val : bytes) : IO (option error) := append_buf w (put_buf key val).
Definition AppendDelete (w : WAL) (key : bytes) : IO (option error) := append_buf w (delete_buf key).

(** [Close] syncs and closes; the error of the sync is dropped. *)
Definition Close (w : WAL) : IO (option error) :=
  match wal_file w with
  | None => mret None
  | Some name => _ ← file_Sync (WalFile name); file_Close (WalFile name)
  end.

(** [Delete] syncs, closes and removes the file; the handle is nil from the
    close on. *)
Definition Delete (w : WAL) : IO (option error * WAL) :=
  match wal_file w with
  | None => mret (None, w)
  | Some name =>
      err ← file_Sync (WalFile name);
      match err with
      | Some e => mret (Some e, w)
      | None =>
          err ← file_Close (WalFile name);
          match err with
          | Some e => mret (Some e, w)
          | None =>
              err ← os_Remove (WalFile name);
              mret (err, mkWAL None)
          end
      end
  end.

(** [Clear] truncates the file. *)
Definition Clear (w : WAL) : IO (option error) :=
  match wal_file w with
  | None => mret (Some EInvalid)
  | Some name =>
      let f := fun F : files => <[WalFile name := []]> F in
      err ← syscall f (atomic_effect f);
      match err with
      | Some e => mret (Some e)
      | None => file_Sync (WalFile name)
      end
  end.

(** [binary.Read] of a big-endian [uint32]. *)
Definition read_u32 (r : bytes) : (Z * bytes) + error :=
  match ReadFull 4 r with
  | ReadOk b rest => inl (UintBE b, rest)
  | ReadEOF => inr EEOF
  | ReadShort => inr EUnexpectedEOF
  end.

(** [io.ReadFull] of [n] bytes. *)
Definition read_n (n : Z) (r : bytes) : (bytes * bytes) + error :=
  match ReadFull n r with
  | ReadOk b rest => inl (b, rest)
  | ReadEOF => inr EEOF
  | ReadShort => inr EUnexpectedEOF
  end.

Section Replay.
Context {S : Type} (onPut : bytes -> bytes -> S -> S) (onDelete : bytes -> S -> S).

(** The loop of [Replay]. An end of file where a record or a length field
    starts ends the loop without an error ([break]); an end of file elsewhere
    is returned. *)
Fixpoint replay_loop (fuel : nat) (r : bytes) (s : S) : S * option error :=
  match fuel with
  | O => (s, None)
  | Datatypes.S fuel =>
      match r with
      | [] => (s, None)
      | op :: r =>
          match read_u32 r with
          | inr EEOF => (s, None)
          | inr e => (s, Some e)
          | inl (klen, r) =>
              match read_n klen r with
              | inr e => (s, Some e)
              | inl (key, r) =>
                  if decide (op = OpPut) then
                    match read_u32 r with
                    | inr EEOF => (s, None)
                    | inr e => (s, Some e)
                    | inl (vlen, r) =>
                        match read_n vlen r with
                        | inr e => (s, Some e)
                        | inl (val, r) => replay_loop fuel r (onPut key val s)
                        end
                    end
                  else if decide (op = OpDelete) then replay_loop fuel r (onDelete key s)
                  else (s, Some (EMsg (lit "unknown wal op")))
              end
          end
      end
  end.

(** Every turn consumes at least the operation byte. *)
Definition Replay (content : bytes) (s : S) : S * option error :=
  replay_loop (length content) content s.
End Replay.

(** ** Operations and their records *)

Inductive wal_op :=
  | WPut (key val : bytes)
  | WDelete (key : bytes).

Definition encode_op (o : wal_op) : bytes :=
  match o with WPut k v => put_buf k v | WDelete k => delete_buf k end.

Definition encode_ops (ops : list wal_op) : bytes := mjoin (encode_op <$> ops).

(** Lengths fit the [uint32] fields. *)
Definition op_fits (o : wal_op) : Prop :=
  match o with
  | WPut k v => (zlen k < 2 ^ 32)%Z /\ (zlen v < 2 ^ 32)%Z
  | WDelete k => (zlen k < 2 ^ 32)%Z
  end.

Section ReplayLemmas.
Context {S : Type} (onPut : bytes -> bytes -> S -> S) (onDelete : bytes -> S -> S).

Definition call_back (s : S) (o : wal_op) : S :=
  match o with WPut k v => onPut k v s | WDelete k => onDelete k s end.

Lemma read_u32_app v r :
  (0 <= v < 2 ^ 32)%Z -> read_u32 (PutUint32BE v ++ r) = inl (v, r).
Proof.
  intros Hv. unfold read_u32. rewrite ReadFull_app.
  - by rewrite UintBE_Put32, u32_small.
  - unfold zlen. by rewrite length_PutUint32BE.
Qed.

Lemma read_n_app d r n : n = zlen d -> read_n n (d ++ r) = inl (d, r).
Proof. intros ->. unfold read_n. by rewrite ReadFull_app. Qed.

Lemma u32_zlen (l : bytes) : (zlen l < 2 ^ 32)%Z -> u32 (zlen l) = zlen l.
Proof. intros H. apply u32_small. pose proof (zlen_nonneg l). lia. Qed.

(** One turn of the loop decodes one record. *)
Lemma replay_loop_record fuel o rest s :
  op_fits o ->
  replay_loop onPut onDelete (Datatypes.S fuel) (encode_op o ++ rest) s =
  replay_loop onPut onDelete fuel rest (call_back s o).
Proof.
  destruct o as [k v|k]; cbn [encode_op op_fits call_back].
  - intros [Hk Hv]. pose proof (zlen_nonneg k). pose proof (zlen_nonneg v).
    unfold put_buf. rewrite !u32_zlen, <- !app_assoc by done.
    cbn [app replay_loop].
    by rewrite read_u32_app, read_n_app, read_u32_app, read_n_app by (done || lia).
  - intros Hk. pose proof (zlen_nonneg k).
    unfold delete_buf. rewrite u32_zlen, <- !app_assoc by done.
    cbn [app replay_loop]. by rewrite read_u32_app, read_n_app by (done || lia).
Qed.

Lemma encode_op_length o : (1 <= length (encode_op o))%nat.
Proof. destruct o; unfold encode_op, put_buf, delete_buf; rewrite length_app; simpl; lia. Qed.

Lemma encode_ops_cons o ops : encode_ops (o :: ops) = encode_op o ++ encode_ops ops.
Proof. done. Qed.

Lemma encode_ops_app ops1 ops2 : encode_ops (ops1 ++ ops2) = encode_ops ops1 ++ encode_ops ops2.
Proof. unfold encode_ops. by rewrite fmap_app, join_app. Qed.

Lemma encode_ops_length ops : (length ops <= length (encode_ops ops))%nat.
Proof.
  induction ops as [|o ops IH]; [done|].
  rewrite encode_ops_cons, length_app. pose proof (encode_op_length o). simpl. lia.
Qed.

Lemma replay_loop_records fuel ops rest s :
  Forall op_fits ops ->
  replay_loop onPut onDelete (length ops + fuel) (encode_ops ops ++ rest) s =
  replay_loop onPut onDelete fuel rest (foldl call_back s ops).
Proof.
  intros H. revert s. induction H as [|o ops Ho _ IH]; intros s; [done|].
  rewrite encode_ops_cons, <- app_assoc. cbn [length Nat.add foldl].
  by rewrite replay_loop_record.
Qed.

(** Reading a field from a prefix of a record: the field is there in full, or
    the read fails. *)
Lemma read_n_prefix d tl p q :
  d ++ tl = p ++ q ->
  (exists p', p = d ++ p' /\ tl = p' ++ q) \/
  (exists e, read_n (zlen d) p = inr e).
Proof.
  intros [(k & -> & Hq)|(k & -> & ->)]%app_eq_inv; [|left; by exists k].
  destruct k as [|c k]; [left; exists []; by rewrite !app_nil_r|right].
  unfold read_n. rewrite ReadFull_short by (rewrite zlen_app, zlen_cons; pose proof (zlen_nonneg k); lia).
  destruct p; eauto.
Qed.

Lemma read_u32_prefix v tl p q :
  PutUint32BE v ++ tl = p ++ q -> (0 <= v < 2 ^ 32)%Z ->
  (exists p', p = PutUint32BE v ++ p' /\ tl = p' ++ q) \/
  (exists e, read_u32 p = inr e).
Proof.
  intros [H|[e He]]%read_n_prefix Hv; [by left|right].
  unfold read_u32, read_n in *. unfold zlen in He. rewrite length_PutUint32BE in He.
  change (Z.of_nat 4) with 4%Z in He. destruct (ReadFull 4 p); eauto. done.
Qed.

(** A strict prefix of a record calls nobody back, and the loop stops there. *)
Lemma replay_loop_torn fuel o p q s :
  op_fits o -> encode_op o = p ++ q -> q <> [] ->
  fst (replay_loop onPut onDelete fuel p s) = s.
Proof.
  intros Ho Heq Hq. destruct fuel as [|fuel]; [done|]. destruct p as [|op p]; [done|].
  cbn [replay_loop].
  destruct o as [k v|k]; cbn [encode_op op_fits] in *; unfold put_buf, delete_buf in Heq.
  - destruct Ho as [Hk Hv]. pose proof (zlen_nonneg k). pose proof (zlen_nonneg v).
    rewrite !u32_zlen in Heq by done. cbn [app] in Heq. injection Heq as <- Heq.
    apply read_u32_prefix in Heq as [(p1 & -> & Heq)|[e ->]]; [|by destruct e|lia].
    rewrite read_u32_app by lia.
    apply read_n_prefix in Heq as [(p2 & -> & Heq)|[e ->]]; [|done].
    rewrite read_n_app, decide_True by done.
    apply read_u32_prefix in Heq as [(p3 & -> & Heq)|[e ->]]; [|by destruct e|lia].
    rewrite read_u32_app by lia.
    rewrite <- (app_nil_r v) in Heq at 1.
    apply read_n_prefix in Heq as [(p4 & -> & Heq)|[e He]]; [|by rewrite He].
    symmetry in Heq. apply app_nil in Heq as [-> ->]. done.
  - pose proof (zlen_nonneg k). rewrite u32_zlen in Heq by done.
    cbn [app] in Heq. injection Heq as <- Heq.
    apply read_u32_prefix in Heq as [(p1 & -> & Heq)|[e ->]]; [|by destruct e|lia].
    rewrite read_u32_app by lia.
    rewrite <- (app_nil_r k) in Heq at 1.
    apply read_n_prefix in Heq as [(p4 & -> & Heq)|[e He]]; [|by rewrite He].
    symmetry in Heq. apply app_nil in Heq as [-> ->]. done.
Qed.

Lemma Replay_ops ops rest s :
  Forall op_fits ops ->
  exists fuel, Replay onPut onDelete (encode_ops ops ++ rest) s =
    replay_loop onPut onDelete (length rest + fuel) rest (foldl call_back s ops).
Proof.
  intros H. unfold Replay. rewrite length_app.
  exists (length (encode_ops ops) - length ops)%nat.
  pose proof (encode_ops_length ops).
  replace (length (encode_ops ops) + length rest)%nat with
    (length ops + (length rest + (length (encode_ops ops) - length ops)))%nat by lia.
  by apply replay_loop_records.
Qed.
(** Reading consumes; so the loop does not depend on spare fuel. *)
(** A record that breaks off inside its value takes the bytes behind it for the rest of
    the value, and ends the replay when they are too few. *)
Lemma replay_swallows fuel k v n rest s :
  op_fits (WPut k v) -> (9 + length k <= n)%nat -> (n + length rest < length (put_buf k v))%nat ->
  fst (replay_loop onPut onDelete fuel (take n (put_buf k v) ++ rest) s) = s.
Proof.
  intros [Hk Hv] Hn Hlen.
  set (header := [OpPut] ++ PutUint32BE (u32 (zlen k)) ++ k ++ PutUint32BE (u32 (zlen v))).
  assert (Hh : length header = (9 + length k)%nat) by (unfold header; rewrite !length_app, !length_PutUint32BE; simpl; lia).
  assert (Hbuf : put_buf k v = header ++ v) by (unfold put_buf, header; by rewrite <- !app_assoc).
  rewrite Hbuf, length_app in Hlen. set (j := (n - length header)%nat).
  set (pad := replicate (length v - j - length rest) Byte.x00). set (v' := take j v ++ rest ++ pad).
  assert (Hv' : length v' = length v).
  { unfold v', pad. rewrite !length_app, length_take, length_replicate. lia. }
  assert (Hz : zlen v' = zlen v) by (unfold zlen; by rewrite Hv').
  apply (replay_loop_torn fuel (WPut k v') _ pad).
  - split; [done|]. by rewrite Hz.
  - cbn [encode_op]. rewrite Hbuf, take_app_ge by lia. unfold put_buf. rewrite Hz. unfold header, v'. by rewrite <- !app_assoc.
  - intros Hp%(f_equal length). unfold pad in Hp. rewrite length_replicate in Hp. simpl in Hp. lia.
Qed.

Lemma read_n_length n r d r' : read_n n r = inl (d, r') -> (length r' <= length r)%nat.
Proof.
  unfold read_n, ReadFull. destruct (n <=? zlen r)%Z; [|by destruct r]. intros [= _ <-]. rewrite length_drop. lia.
Qed.

Lemma read_u32_length r v r' : read_u32 r = inl (v, r') -> (length r' <= length r)%nat.
Proof.
  unfold read_u32, ReadFull. destruct (4 <=? zlen r)%Z; [|by destruct r].
  intros [= _ <-]. rewrite length_drop. lia.
Qed.

Lemma replay_loop_spare f1 f2 r s :
  (length r <= f1)%nat -> (length r <= f2)%nat ->
  replay_loop onPut onDelete f1 r s = replay_loop onPut onDelete f2 r s.
Proof.
  revert f2 r s. induction f1 as [|f1 IH]; intros [|f2] [|op r] s H1 H2; try done; try (simpl in *; lia).
  cbn [replay_loop length] in *.
  destruct (read_u32 r) as [[klen r1]|e] eqn:E1; [|done]. apply read_u32_length in E1.
  destruct (read_n klen r1) as [[key r2]|e] eqn:E2; [|done]. apply read_n_length in E2.
  case_decide; [|case_decide; [apply IH; lia|done]].
  destruct (read_u32 r2) as [[vlen r3]|e] eqn:E3; [|done]. apply read_u32_length in E3.
  destruct (read_n vlen r3) as [[val r4]|e] eqn:E4; [|done]. apply read_n_length in E4. apply IH; lia.
Qed.

Lemma replay_loop_fuel fuel content s :
  (length content <= fuel)%nat ->
  replay_loop onPut onDelete fuel content s = Replay onPut onDelete content s.
Proof. intros Hf. by apply replay_loop_spare. Qed.
End ReplayLemmas.

Lemma Replay_swallowed {S} (onPut : bytes -> bytes -> S -> S) (onDelete : bytes -> S -> S) ops k v n rest s :
  Forall op_fits ops -> op_fits (WPut k v) -> (9 + length k <= n)%nat -> (n + length rest < length (put_buf k v))%nat ->
  fst (Replay onPut onDelete (encode_ops ops ++ take n (put_buf k v) ++ rest) s) = foldl (call_back onPut onDelete) s ops.
Proof.
  intros Hops Hfit Hn Hlen. destruct (Replay_ops onPut onDelete ops (take n (put_buf k v) ++ rest) s Hops) as [fuel ->].
  by apply replay_swallows.
Qed.

(** ** Properties *)

(** The state rebuilt by a replay depends only on the records in order. *)
Lemma Replay_roundtrip {S} (onPut : bytes -> bytes -> S -> S) (onDelete : bytes -> S -> S) ops s :
  Forall op_fits ops ->
  Replay onPut onDelete (encode_ops ops) s = (foldl (call_back onPut onDelete) s ops, None).
Proof.
  intros H. rewrite <- (app_nil_r (encode_ops ops)).
  destruct (Replay_ops onPut onDelete ops [] s H) as [fuel ->]. by destruct fuel.
Qed.

(** A prefix of the log is whole records followed by a strict prefix of the next. *)
Lemma encode_ops_prefix ops p :
  p `prefix_of` encode_ops ops ->
  exists n torn, p = encode_ops (take n ops) ++ torn /\ (n <= length ops)%nat /\
    (torn = [] \/ exists o q, ops !! n = Some o /\ encode_op o = torn ++ q /\ q <> []).
Proof.
  revert p. induction ops as [|o ops IH]; intros p [q Hpq].
  { symmetry in Hpq. apply app_nil in Hpq as [-> ->]. exists 0%nat, []. auto. }
  rewrite encode_ops_cons in Hpq. apply app_eq_inv in Hpq as [(k & Hp & Hk)|(k & -> & Hk)].
  - destruct k as [|c k].
    + exists 1%nat, []. rewrite app_nil_r in Hp. simpl.
      rewrite take_0, !encode_ops_cons, !app_nil_r. split_and!; [done|lia|by left].
    + exists 0%nat, p. simpl. split_and!; [done|lia|]. right. eauto.
  - destruct (IH k) as (n & torn & -> & ? & Ht); [by exists q|].
    exists (S n), torn. simpl. rewrite encode_ops_cons, app_assoc.
    split_and!; [done|lia|done].
Qed.

(** A log cut at any byte: exactly the operations whose record is complete are
    replayed. *)
Lemma Replay_torn {S} (onPut : bytes -> bytes -> S -> S) (onDelete : bytes -> S -> S) ops p s :
  Forall op_fits ops -> p `prefix_of` encode_ops ops ->
  exists n, (n <= length ops)%nat /\ encode_ops (take n ops) `prefix_of` p /\
    (forall m, (m <= length ops)%nat -> encode_ops (take m ops) `prefix_of` p -> (m <= n)%nat) /\
    fst (Replay onPut onDelete p s) = foldl (call_back onPut onDelete) s (take n ops).
Proof.
  intros Hfit Hp. destruct (encode_ops_prefix ops p Hp) as (n & torn & -> & Hn & Ht).
  exists n. split_and!; [done|by exists torn| |].
  - intros m Hm [k Hk]. apply dec_stable. intros Hlt. destruct Ht as [->|(o & q & Ho & Heq & Hq)].
    + apply (f_equal length) in Hk. rewrite app_nil_r, length_app in Hk.
      replace m with (n + (m - n))%nat in Hk by lia.
      rewrite <- take_take_drop, encode_ops_app, length_app in Hk.
      pose proof (encode_ops_length (take (m - n) (drop n ops))).
      rewrite length_take, length_drop in *. lia.
    + replace m with (n + (m - n))%nat in Hk by lia.
      rewrite <- take_take_drop, encode_ops_app in Hk.
      destruct (m - n)%nat as [|j] eqn:?; [lia|].
      rewrite (drop_S _ _ _ Ho) in Hk. cbn [take] in Hk. rewrite encode_ops_cons in Hk.
      rewrite Heq, <- !app_assoc in Hk. apply app_inv_head in Hk.
      apply (f_equal length) in Hk. rewrite !length_app in Hk.
      destruct q; [done|simpl in Hk; lia].
  - destruct (Replay_ops onPut onDelete (take n ops) torn s) as [fuel ->]; [by apply Forall_take|].
    destruct Ht as [->|(o & q & Ho & Heq & Hq)]; [by destruct fuel|].
    eapply replay_loop_torn; [|done..]. by eapply Forall_lookup_1.
Qed.
