(* ===== verification/MemTable.v ===== *)
(** * The in-memory table (internal/lsm/memtable.go)

    A slice of pairs kept in increasing key order, searched with [sort.Search].
    A nil value is a tombstone.  The abstraction [mem_map] is a finite map from
    keys to values or tombstones. *)
From S2P Require Export Disk.

(** [Value] is a Go byte slice: [None] is nil (a tombstone), [Some v] is not nil. *)
Record KVPair := mkKV { Key : bytes; Value : option bytes }.

Record MemTable := mkMem { pairs : list KVPair; size : Z }.

Definition NewMemTable : MemTable := mkMem [] 0.

(** Go's [len] of a possibly nil slice. *)
Definition vlen (v : option bytes) : Z := match v with Some v => zlen v | None => 0%Z end.

(** The predicate [bytes.Compare(m.pairs[i].Key, key) >= 0] given to [sort.Search]. *)
Definition key_ge (ps : list KVPair) (key : bytes) (i : nat) : bool :=
  match ps !! i with Some p => cmp_ge (Key p) key | None => true end.

Definition search_key (ps : list KVPair) (key : bytes) : nat :=
  sort_Search (length ps) (key_ge ps key).

(** [append] an empty pair, shift the tail with [copy], store the pair at [idx]. *)
Definition insert_at (ps : list KVPair) (idx : nat) (p : KVPair) : list KVPair :=
  take idx ps ++ p :: drop idx ps.

Definition Put (m : MemTable) (key : bytes) (val : option bytes) : MemTable :=
  let idx := search_key (pairs m) key in
  match pairs m !! idx with
  | Some p =>
      if Equal (Key p) key then
        mkMem (<[idx := mkKV (Key p) val]> (pairs m)) (size m + (vlen val - vlen (Value p)))
      else mkMem (insert_at (pairs m) idx (mkKV key val)) (size m + (zlen key + vlen val))
  | None => mkMem (insert_at (pairs m) idx (mkKV key val)) (size m + (zlen key + vlen val))
  end.

(** [(value, found)] *)
Definition Get (m : MemTable) (key : bytes) : option (option bytes) :=
  match pairs m !! search_key (pairs m) key with
  | Some p => if Equal (Key p) key then Some (Value p) else None
  | None => None
  end.

(** ** Sorted runs of pairs *)

Definition pair_lt (p q : KVPair) : Prop := blt (Key p) (Key q).

(** Strictly increasing keys: the order of a memory table and of a table file. *)
Definition run_sorted (ps : list KVPair) : Prop := StronglySorted pair_lt ps.

(** The reference lookup in a run: the first pair with this key. *)
Fixpoint run_lookup (ps : list KVPair) (key : bytes) : option (option bytes) :=
  match ps with
  | [] => None
  | p :: ps => if decide (Key p = key) then Some (Value p) else run_lookup ps key
  end.

(** The run as a finite map. *)
Fixpoint run_map (ps : list KVPair) : gmap bytes (option bytes) :=
  match ps with [] => ∅ | p :: ps => <[Key p := Value p]> (run_map ps) end.

Definition mem_map (m : MemTable) : gmap bytes (option bytes) := run_map (pairs m).

(** The size counter is the sum of the key and value lengths. *)
Definition pair_size (p : KVPair) : Z := (zlen (Key p) + vlen (Value p))%Z.
Definition run_size (ps : list KVPair) : Z := foldr (fun p s => (pair_size p + s)%Z) 0%Z ps.

Record mem_wf (m : MemTable) : Prop := {
  mem_sorted : run_sorted (pairs m);
  mem_size : size m = run_size (pairs m)
}.

#[export] Instance KVPair_eq_dec : EqDecision KVPair.
Proof. solve_decision. Defined.

(** ** Lookup in a run *)

Lemma run_lookup_map ps key : run_map ps !! key = run_lookup ps key.
Proof.
  induction ps as [|p ps IH]; simpl; [done|].
  case_decide; [subst; apply lookup_insert_eq|by rewrite lookup_insert_ne].
Qed.

Lemma run_lookup_app ps qs key :
  run_lookup (ps ++ qs) key =
  match run_lookup ps key with Some v => Some v | None => run_lookup qs key end.
Proof. induction ps as [|p ps IH]; simpl; [done|]. by case_decide. Qed.

Lemma run_lookup_None ps key : run_lookup ps key = None <-> Forall (fun p => Key p <> key) ps.
Proof.
  induction ps as [|p ps IH]; simpl; [done|]. rewrite Forall_cons, <- IH.
  case_decide; naive_solver.
Qed.

Lemma run_lookup_elem ps key v :
  run_lookup ps key = Some v -> mkKV key v ∈ ps.
Proof.
  induction ps as [|p ps IH]; simpl; [done|]. case_decide as H.
  - intros [= <-]. rewrite <- H. destruct p. by left.
  - intros ?. right. by apply IH.
Qed.

Lemma run_lookup_sorted ps p :
  run_sorted ps -> p ∈ ps -> run_lookup ps (Key p) = Some (Value p).
Proof.
  intros Hs Hp. induction Hs as [|q ps Hs IH Hall]; [by apply not_elem_of_nil in Hp|].
  apply elem_of_cons in Hp as [<-|Hp]; simpl; [by rewrite decide_True|].
  rewrite decide_False; [by apply IH|].
  intros H. rewrite Forall_forall in Hall. apply (blt_ne (Key q) (Key p)); [|done].
  by apply Hall.
Qed.

Lemma run_sorted_app ps qs :
  run_sorted (ps ++ qs) <->
  run_sorted ps /\ run_sorted qs /\ (forall p q, p ∈ ps -> q ∈ qs -> pair_lt p q).
Proof.
  unfold run_sorted. induction ps as [|x ps IH]; simpl.
  { split; [|naive_solver]. intros ?. split_and!; [constructor|done|]. set_solver. }
  split.
  - intros [Hs Hall]%StronglySorted_inv. apply IH in Hs as (? & ? & Hpq).
    rewrite Forall_forall in Hall.
    split_and!; [|done|].
    + constructor; [done|]. apply Forall_forall. intros. apply Hall. set_solver.
    + intros p q [->|Hp]%elem_of_cons Hq; [apply Hall; set_solver|by apply Hpq].
  - intros ([Hs Hall]%StronglySorted_inv & Hq & Hpq). constructor.
    + apply IH. split_and!; [done|done|]. intros p q ??. apply Hpq; [by right|done].
    + rewrite Forall_forall in Hall |- *. intros q [?|?]%elem_of_app; [by apply Hall|].
      apply Hpq; [by left|done].
Qed.

Lemma run_sorted_cons p ps :
  run_sorted (p :: ps) <-> run_sorted ps /\ Forall (pair_lt p) ps.
Proof.
  split; [apply StronglySorted_inv|]. intros []. by constructor.
Qed.

(** The predicate searched is monotone on a sorted run. *)
Lemma key_ge_mono ps key a b :
  run_sorted ps -> (a <= b)%nat -> key_ge ps key a = true -> key_ge ps key b = true.
Proof.
  intros Hs Hab. unfold key_ge.
  destruct (ps !! b) as [q|] eqn:Hb; [|done].
  destruct (ps !! a) as [p|] eqn:Ha.
  2:{ apply lookup_ge_None in Ha. apply lookup_lt_Some in Hb. lia. }
  rewrite !cmp_ge_true. intros Hge Hlt. apply Hge.
  destruct (decide (a = b)) as [->|Hne]; [by simplify_eq|].
  eapply blt_trans; [|exact Hlt].
  rewrite <- (take_drop (S a) ps) in Hs. apply run_sorted_app in Hs as (_ & _ & Hpq).
  apply (Hpq p q).
  - apply list_elem_of_lookup. exists a. rewrite lookup_take_lt by lia. done.
  - apply list_elem_of_lookup. exists (b - S a)%nat. rewrite lookup_drop. by replace (S a + (b - S a))%nat with b by lia.
Qed.

(** What the binary search returns: the run splits into smaller keys and keys
    not smaller. *)
Lemma search_key_spec ps key :
  run_sorted ps ->
  let idx := search_key ps key in
  (idx <= length ps)%nat /\
  Forall (fun p => blt (Key p) key) (take idx ps) /\
  Forall (fun p => ~ blt (Key p) key) (drop idx ps).
Proof.
  intros Hs. unfold search_key.
  destruct (sort_Search_spec (key_ge ps key) (fun a b => key_ge_mono ps key a b Hs) (length ps))
    as (Hle & Hlo & Hhi).
  generalize dependent (sort_Search (length ps) (key_ge ps key)). intros idx Hle Hlo Hhi.
  split_and!; [done| |].
  - apply Forall_lookup_2. intros i p Hp.
    pose proof (lookup_lt_Some _ _ _ Hp) as Hi. rewrite length_take in Hi.
    rewrite lookup_take_lt in Hp by lia.
    specialize (Hlo i ltac:(lia)). unfold key_ge in Hlo. rewrite Hp in Hlo.
    by apply cmp_ge_false.
  - apply Forall_lookup_2. intros i p Hp. rewrite lookup_drop in Hp.
    pose proof (lookup_lt_Some _ _ _ Hp).
    specialize (Hhi (idx + i)%nat ltac:(lia)).
    unfold key_ge in Hhi. rewrite Hp in Hhi. by apply cmp_ge_true.
Qed.

(** The split at the searched index, in the form the operations use. *)
Lemma search_key_split ps key :
  run_sorted ps ->
  exists lo hi, ps = lo ++ hi /\ search_key ps key = length lo /\
    Forall (fun p => blt (Key p) key) lo /\
    Forall (fun p => blt key (Key p)) (match hi with
      | p :: hi' => if Equal (Key p) key then hi' else hi | [] => [] end).
Proof.
  intros Hs. destruct (search_key_spec ps key Hs) as (Hle & Hlo & Hhi).
  exists (take (search_key ps key) ps), (drop (search_key ps key) ps).
  split_and!; [by rewrite take_drop|rewrite length_take; lia|done|].
  rewrite <- (take_drop (search_key ps key) ps) in Hs. apply run_sorted_app in Hs as (_ & Hs & _).
  destruct (drop (search_key ps key) ps) as [|p hi]; [done|].
  apply run_sorted_cons in Hs as [Hs Hlt].
  apply Forall_cons in Hhi as [Hp Hhi].
  assert (Forall (fun q => blt key (Key q)) hi).
  { rewrite Forall_forall in Hlt, Hhi |- *. intros q Hq.
    destruct (not_blt (Key p) key Hp) as [<-|]; [by apply Hlt|].
    eapply blt_trans; [done|by apply Hlt]. }
  destruct (Equal (Key p) key) eqn:Heq; [done|]. constructor; [|done].
  apply Equal_false in Heq. by destruct (not_blt (Key p) key Hp).
Qed.

Section Operations.
Context (ps : list KVPair) (key : bytes) (Hs : run_sorted ps).

Lemma run_lookup_split lo hi :
  Forall (fun p => blt (Key p) key) lo ->
  run_lookup (lo ++ hi) key = run_lookup hi key.
Proof.
  intros Hlo. rewrite run_lookup_app. rewrite (proj2 (run_lookup_None lo key)); [done|].
  eapply Forall_impl; [exact Hlo|]. intros p ?. by apply blt_ne.
Qed.

Lemma run_lookup_above hi : Forall (fun p => blt key (Key p)) hi -> run_lookup hi key = None.
Proof.
  intros H. apply run_lookup_None. eapply Forall_impl; [exact H|].
  intros p Hp Heq. by apply (blt_ne key (Key p)).
Qed.

Lemma run_sorted_insert lo hi v :
  ps = lo ++ hi -> Forall (fun p => blt (Key p) key) lo ->
  Forall (fun p => blt key (Key p)) hi ->
  run_sorted (lo ++ mkKV key v :: hi).
Proof using Hs.
  intros -> Hlo Hhi. apply run_sorted_app in Hs as (Hslo & Hshi & Hpq).
  rewrite Forall_forall in Hlo. apply run_sorted_app. split_and!; [done| |].
  - by apply run_sorted_cons.
  - intros p q Hp [->|Hq]%elem_of_cons; [by apply Hlo|by apply Hpq].
Qed.

Lemma run_sorted_update lo p hi v :
  ps = lo ++ p :: hi -> Key p = key -> run_sorted (lo ++ mkKV key v :: hi).
Proof using Hs.
  intros -> <-. apply run_sorted_app in Hs as (Hslo & Hshi & Hpq).
  apply run_sorted_cons in Hshi as [Hshi Hall].
  apply run_sorted_app. split_and!; [done| |].
  - by apply run_sorted_cons.
  - intros p' q Hp [->|Hq]%elem_of_cons; [by apply (Hpq p' p); [|left]|by apply Hpq; [|right]].
Qed.
End Operations.

Lemma run_map_insert lo hi key v :
  Forall (fun p => Key p <> key) lo ->
  run_map (lo ++ mkKV key v :: hi) = <[key := v]> (run_map (lo ++ hi)).
Proof.
  induction 1 as [|p lo Hp _ IH]; simpl; [done|]. by rewrite IH, insert_insert_ne.
Qed.

Lemma run_size_app ps qs : run_size (ps ++ qs) = (run_size ps + run_size qs)%Z.
Proof. induction ps as [|p ps IH]; simpl; [done|]. rewrite IH. lia. Qed.

(** The two outcomes of [Put], seen on the split run. *)
Lemma Put_cases m key v :
  run_sorted (pairs m) ->
  exists lo hi,
    Forall (fun p => blt (Key p) key) lo /\ Forall (fun p => blt key (Key p)) hi /\
    pairs (Put m key v) = lo ++ mkKV key v :: hi /\
    ((exists p, Key p = key /\ pairs m = lo ++ p :: hi /\
        size (Put m key v) = (size m + (vlen v - vlen (Value p)))%Z) \/
     (pairs m = lo ++ hi /\ size (Put m key v) = (size m + (zlen key + vlen v))%Z)).
Proof.
  intros Hs. destruct (search_key_split (pairs m) key Hs) as (lo & hi & Heq & Hidx & Hlo & Hhi).
  unfold Put. rewrite Hidx, Heq, lookup_app_r, Nat.sub_diag by lia.
  destruct hi as [|p hi]; simpl.
  { exists lo, []. unfold insert_at. rewrite app_nil_r, drop_all, take_ge by lia. eauto 10. }
  destruct (Equal (Key p) key) eqn:Hp; simpl.
  - apply Equal_true in Hp as <-. exists lo, hi. rewrite insert_app_r_alt, Nat.sub_diag by lia.
    split_and!; eauto 10.
  - exists lo, (p :: hi). unfold insert_at.
    rewrite take_app_length, drop_app_length. eauto 10.
Qed.

Lemma below_ne key lo : Forall (fun p => blt (Key p) key) lo -> Forall (fun p => Key p <> key) lo.
Proof. intros H. eapply Forall_impl; [exact H|]. intros p ?. by apply blt_ne. Qed.

(** [Put] keeps the table sorted with a correct size counter. *)
Lemma Put_wf m key v : mem_wf m -> mem_wf (Put m key v).
Proof.
  intros [Hs Hsz]. destruct (Put_cases m key v Hs) as (lo & hi & Hlo & Hhi & Hp & Hcase).
  destruct Hcase as [(p & Hk & Hm & Hsize)|[Hm Hsize]].
  - split; [rewrite Hp; by eapply run_sorted_update|].
    rewrite Hsize, Hsz, Hp, Hm, !run_size_app. simpl. unfold pair_size; simpl. subst key. lia.
  - split; [rewrite Hp; by eapply run_sorted_insert|].
    rewrite Hsize, Hsz, Hp, Hm, !run_size_app. simpl. unfold pair_size; simpl. lia.
Qed.

(** [Put] is insertion in the abstract map. *)
Lemma Put_map m key v : run_sorted (pairs m) -> mem_map (Put m key v) = <[key := v]> (mem_map m).
Proof.
  intros Hs. destruct (Put_cases m key v Hs) as (lo & hi & Hlo & Hhi & Hp & Hcase).
  unfold mem_map. rewrite Hp, run_map_insert by (by apply below_ne).
  destruct Hcase as [(p & Hk & -> & _)|[-> _]]; [|done].
  destruct p as [k0 v0]; simpl in Hk; subst k0.
  rewrite run_map_insert by (by apply below_ne). by rewrite insert_insert_eq.
Qed.

(** [Get] is lookup in the abstract map. *)
Lemma Get_map m key : run_sorted (pairs m) -> Get m key = mem_map m !! key.
Proof.
  intros Hs. unfold mem_map. rewrite run_lookup_map.
  destruct (search_key_split (pairs m) key Hs) as (lo & hi & Heq & Hidx & Hlo & Hhi).
  unfold Get. rewrite Hidx, Heq, lookup_app_r, Nat.sub_diag, run_lookup_split by (done || lia).
  destruct hi as [|p hi]; simpl; [done|].
  destruct (Equal (Key p) key) eqn:Hp.
  - apply Equal_true in Hp. by rewrite decide_True.
  - pose proof Hp as Hne%Equal_false. rewrite decide_False by done.
    rewrite run_lookup_above; [done|]. by apply Forall_cons in Hhi as [_ ?].
Qed.

Lemma NewMemTable_wf : mem_wf NewMemTable.
Proof. split; [constructor|done]. Qed.

#[export] Hint Resolve NewMemTable_wf Put_wf mem_sorted : go.


(** What holds of every pair and of the new one holds after a [Put]. *)
Lemma Put_Forall (P : KVPair -> Prop) m key v :
  run_sorted (pairs m) -> Forall P (pairs m) -> P (mkKV key v) -> Forall P (pairs (Put m key v)).
Proof.
  intros Hs Hall Hp. destruct (Put_cases m key v Hs) as (lo & hi & _ & _ & -> & Hcase).
  destruct Hcase as [(p & _ & Heq & _)|[Heq _]]; rewrite Heq in Hall;
    apply Forall_app in Hall as [Hlo Hhi]; apply Forall_app; (split; [done|constructor; [done|]]); [|done].
  by apply Forall_cons in Hhi as [_ ?].
Qed.

Lemma vlen_nonneg v : (0 <= vlen v)%Z.
Proof. destruct v; simpl; [apply zlen_nonneg|done]. Qed.

Lemma run_size_nonneg ps : (0 <= run_size ps)%Z.
Proof.
  induction ps as [|q ps IH]; simpl; [done|]. unfold pair_size.
  pose proof (zlen_nonneg (Key q)). pose proof (vlen_nonneg (Value q)). lia.
Qed.

(** A table with non-empty keys is empty exactly when its size is zero. *)
Lemma size_zero m : mem_wf m -> Forall (fun p => Key p <> []) (pairs m) ->
  (0 <? size m)%Z = false -> pairs m = [].
Proof.
  intros [_ Hsz] Hk Hz. bool_to_prop. rewrite Hsz in Hz. destruct (pairs m) as [|p ps]; [done|].
  apply Forall_cons in Hk as [Hp _]. simpl in Hz. unfold pair_size in Hz.
  pose proof (run_size_nonneg ps). pose proof (vlen_nonneg (Value p)).
  assert (0 < zlen (Key p))%Z; [|lia].
  destruct (Key p) as [|c k]; [done|]. rewrite zlen_cons. pose proof (zlen_nonneg k). lia.
Qed.
