(* ===== verification/SSTable.v ===== *)
(** * Table files (internal/lsm/sstable_format.go, sstable_writer.go,
    sstable_reader.go, compaction_iterator.go and the file decoding of
    loadSSTables)

    A table file is a sequence of data blocks, an index block with one entry per
    data block, and a 24-byte footer. *)
From S2P Require Export MemTable.

Definition FooterSize : Z := 24.
Definition SSTableMagicNumber : Z := 0x12345678ABCDEF00.
Definition TombstoneLen : Z := 0xFFFFFFFF.

Record BlockHandle := mkHandle { Offset : Z; Size : Z }.

Record IndexEntry := mkEntry { MaxKey : bytes; Handle : BlockHandle }.

Record SSTableMeta := mkMeta {
  FileID : Z;
  MinKey : bytes;
  MetaMaxKey : bytes;
  MetaSize : Z;
  Index : list IndexEntry
}.

Definition sst_filename (id : Z) : bytes := Sprintf06d id ++ lit ".sst".
Definition sst_path (id : Z) : path := SstFile (sst_filename id).

(** ** Writer *)

(** The bytes appended to the data buffer for one pair. *)
Definition data_record (p : KVPair) : bytes :=
  PutUint32LE (u32 (zlen (Key p))) ++ Key p ++
  match Value p with
  | None => PutUint32LE TombstoneLen
  | Some v => PutUint32LE (u32 (zlen v)) ++ v
  end.

(** The variables of the writing loop. *)
Record writer := mkWriter {
  writtenBytes : Z;
  dataBuf : bytes;
  windex : list IndexEntry;
  currentOffset : Z
}.

(** The loop over the pairs: buffer a record; when the buffer holds a block, or
    at the last pair, write the block and index it. *)
Fixpoint write_pairs (file : path) (ps : list KVPair) (w : writer) : IO (writer * option error) :=
  match ps with
  | [] => mret (w, None)
  | p :: rest =>
      let buf := dataBuf w ++ data_record p in
      if (4096 <=? zlen buf)%Z || match rest with [] => true | _ => false end then
        err ← file_Write file buf;
        match err with
        | Some e => mret (mkWriter (writtenBytes w) buf (windex w) (currentOffset w), Some e)
        | None =>
            write_pairs file rest
              (mkWriter (u64 (writtenBytes w + zlen buf)) []
                 (windex w ++ [mkEntry (Key p) (mkHandle (currentOffset w) (zlen buf))])
                 (u64 (currentOffset w + zlen buf)))
        end
      else write_pairs file rest (mkWriter (writtenBytes w) buf (windex w) (currentOffset w))
  end.

Definition index_record (e : IndexEntry) : bytes :=
  PutUint32LE (u32 (zlen (MaxKey e))) ++ MaxKey e ++
  PutUint64LE (Offset (Handle e)) ++ PutUint64LE (Size (Handle e)).

Definition index_block (index : list IndexEntry) : bytes := mjoin (index_record <$> index).

Definition footer_bytes (indexOffset indexSize : Z) : bytes :=
  PutUint64LE indexOffset ++ PutUint64LE indexSize ++ PutUint64LE SSTableMagicNumber.

(** The body of [writeSSTable] once the file is open. *)
Definition writeSSTable_body (file : path) (ps : list KVPair) : IO (Z * list IndexEntry * option error) :=
  r ← write_pairs file ps (mkWriter 0 [] [] 0);
  let w := fst r in
  match snd r with
  | Some e => mret (writtenBytes w, windex w, Some e)
  | None =>
      let indexBuf := index_block (windex w) in
      err ← file_Write file indexBuf;
      match err with
      | Some e => mret (writtenBytes w, windex w, Some e)
      | None =>
          let written := u64 (writtenBytes w + zlen indexBuf) in
          let footerBuf := footer_bytes (currentOffset w) (zlen indexBuf) in
          err ← file_Write file footerBuf;
          match err with
          | Some e => mret (written, windex w, Some e)
          | None =>
              let written := u64 (written + zlen footerBuf) in
              err ← file_Sync file;
              mret (written, windex w, err)
          end
      end
  end.

Definition writeSSTable (file : path) (ps : list KVPair) : IO (Z * list IndexEntry * option error) :=
  err ← os_Create file;
  match err with
  | Some e => mret (0%Z, [], Some e)
  | None => r ← writeSSTable_body file ps; _ ← file_Close file; mret r
  end.

Definition writeSSTableFromMem (file : path) (imm : MemTable) := writeSSTable file (pairs imm).
Definition writeSSTableFromPairs (file : path) (ps : list KVPair) := writeSSTable file ps.

(** ** Reader *)

(** [file.ReadAt] of a whole buffer: [None] when it returns an error.  Memory is not
    limited here: a corrupted length for which [make] panics fails as a read past the end
    of the file. *)
Definition ReadAt (content : bytes) (off len : Z) : option bytes :=
  if (2 ^ 63 <=? off)%Z then None
  else if (len =? 0)%Z then Some []
  else if (off + len <=? zlen content)%Z then Some (take (Z.to_nat len) (drop (Z.to_nat off) content))
  else None.

(** One data record: [None] when the input ends before the record does. *)
Definition read_record (r : bytes) : option (bytes * option bytes * bytes) :=
  match ReadFull 4 r with
  | ReadOk b r =>
      match ReadFull (UintLE b) r with
      | ReadOk key r =>
          match ReadFull 4 r with
          | ReadOk b r =>
              let valLen := UintLE b in
              if (valLen =? TombstoneLen)%Z then Some (key, None, r)
              else match ReadFull valLen r with
                   | ReadOk val r => Some (key, Some val, r)
                   | _ => None
                   end
          | _ => None
          end
      | _ => None
      end
  | _ => None
  end.

(** The linear scan of a block; every record takes at least eight bytes. *)
Fixpoint scan_block (fuel : nat) (r : bytes) (target : bytes) : option (option bytes) :=
  match fuel with
  | O => None
  | S fuel =>
      match r with
      | [] => None
      | _ =>
          match read_record r with
          | None => None
          | Some (key, val, r) =>
              if Equal key target then Some val else scan_block fuel r target
          end
      end
  end.

Definition index_ge (index : list IndexEntry) (target : bytes) (i : nat) : bool :=
  match index !! i with Some e => cmp_ge (MaxKey e) target | None => true end.

(** [(value, found)] as an option; every error is "not found". *)
Definition readValFromSSTable (meta : SSTableMeta) (target : bytes) : IO (option (option bytes)) :=
  let idx := sort_Search (length (Index meta)) (index_ge (Index meta) target) in
  match Index meta !! idx with
  | None => mret None
  | Some e =>
      r ← os_ReadFile (sst_path (FileID meta));
      match r with
      | inr _ => mret None
      | inl content =>
          match ReadAt content (Offset (Handle e)) (Size (Handle e)) with
          | None => mret None
          | Some blockData => mret (scan_block (length blockData) blockData target)
          end
      end
  end.

(** ** Iterator over the data area of a file *)

Record SSTableIterator := mkIter {
  it_key : bytes;
  it_value : option bytes;
  it_valid : bool;
  it_reader : bytes
}.

Definition iter_Next (it : SSTableIterator) : SSTableIterator :=
  match read_record (it_reader it) with
  | Some (k, v, r) => mkIter k v true r
  | None => mkIter (it_key it) (it_value it) false []
  end.

Definition iter_Close (it : SSTableIterator) : SSTableIterator :=
  mkIter (it_key it) (it_value it) false [].

(** [io.LimitReader(file, dataEndOffset)] *)
Definition data_end (index : list IndexEntry) : Z :=
  match last index with Some e => u64 (Offset (Handle e) + Size (Handle e)) | None => 0%Z end.

Definition limit_reader (content : bytes) (n : Z) : bytes :=
  if (2 ^ 63 <=? n)%Z then [] else if (zlen content <=? n)%Z then content else take (Z.to_nat n) content.

Definition NewSSTableIterator (meta : SSTableMeta) : IO (result SSTableIterator) :=
  r ← os_ReadFile (sst_path (FileID meta));
  match r with
  | inr e => mret (inr e)
  | inl content =>
      mret (inl (iter_Next (mkIter [] None false (limit_reader content (data_end (Index meta))))))
  end.

(** ** Loading a file at start-up (the loop body of [loadSSTables]) *)

(** The index block, up to the first incomplete entry. *)
Fixpoint parse_index (fuel : nat) (r : bytes) : list IndexEntry :=
  match fuel with
  | O => []
  | S fuel =>
      match ReadFull 4 r with
      | ReadOk b r =>
          match ReadFull (UintLE b) r with
          | ReadOk key r =>
              match ReadFull 8 r with
              | ReadOk o r =>
                  match ReadFull 8 r with
                  | ReadOk s r => mkEntry key (mkHandle (UintLE o) (UintLE s)) :: parse_index fuel r
                  | _ => []
                  end
              | _ => []
              end
          | _ => []
          end
      | _ => []
      end
  end.

(** A file is skipped, aborts the whole load, or yields its metadata. *)
Inductive load_result :=
  | LoadSkip
  | LoadErr (e : error)
  | LoadOk (meta : SSTableMeta).

Definition load_file (fileID : Z) (content : bytes) : load_result :=
  let fileSize := zlen content in
  if (fileSize <? FooterSize)%Z then LoadSkip
  else
    let footerBuf := drop (Z.to_nat (fileSize - FooterSize)) content in
    let magic := UintLE (take 8 (drop 16 footerBuf)) in
    if negb (magic =? SSTableMagicNumber)%Z then LoadErr (EMsg (lit "bad magic number"))
    else
      let indexOffset := UintLE (take 8 footerBuf) in
      let indexSize := UintLE (take 8 (drop 8 footerBuf)) in
      match ReadAt content indexOffset indexSize with
      | None => LoadErr EEOF
      | Some indexBuf =>
          let index := parse_index (length indexBuf) indexBuf in
          match last index with
          | None => LoadSkip
          | Some lastEntry =>
              match ReadFull 4 content with
              | ReadOk b r =>
                  match ReadFull (UintLE b) r with
                  | ReadOk minKey _ => LoadOk (mkMeta fileID minKey (MaxKey lastEntry) fileSize index)
                  | ReadEOF => LoadErr EEOF
                  | ReadShort => LoadErr EUnexpectedEOF
                  end
              | _ => LoadOk (mkMeta fileID [] (MaxKey lastEntry) fileSize index)
              end
          end
      end.

(** ** The layout of a table file *)

Definition records (ps : list KVPair) : bytes := mjoin (data_record <$> ps).

(** The runs of pairs that share a data block, [cur] being the open block. *)
Fixpoint split_blocks (cur ps : list KVPair) : list (list KVPair) :=
  match ps with
  | [] => []
  | p :: rest =>
      let cur := cur ++ [p] in
      if (4096 <=? zlen (records cur))%Z || match rest with [] => true | _ => false end then
        cur :: split_blocks [] rest
      else split_blocks cur rest
  end.

Definition last_key (b : list KVPair) : bytes :=
  match last b with Some p => Key p | None => [] end.

Fixpoint blocks_index (off : Z) (bs : list (list KVPair)) : list IndexEntry :=
  match bs with
  | [] => []
  | b :: bs =>
      mkEntry (last_key b) (mkHandle off (zlen (records b))) ::
      blocks_index (off + zlen (records b)) bs
  end.

Definition sst_index (ps : list KVPair) : list IndexEntry := blocks_index 0 (split_blocks [] ps).

Definition sst_bytes (ps : list KVPair) : bytes :=
  records ps ++ index_block (sst_index ps) ++
  footer_bytes (zlen (records ps)) (zlen (index_block (sst_index ps))).

(** Lengths fit the fields: [uint32] lengths, no value as long as the tombstone
    mark, and a file smaller than [2^63] bytes. *)
Definition pair_fits (p : KVPair) : Prop :=
  (zlen (Key p) < 2 ^ 32)%Z /\ (vlen (Value p) < TombstoneLen)%Z.

Record table_fits (ps : list KVPair) : Prop := {
  fits_pairs : Forall pair_fits ps;
  fits_file : (zlen (sst_bytes ps) < 2 ^ 63)%Z
}.

Arguments records : simpl never.
Arguments index_block : simpl never.

Lemma records_cons p ps : records (p :: ps) = data_record p ++ records ps.
Proof. done. Qed.

Lemma records_app ps qs : records (ps ++ qs) = records ps ++ records qs.
Proof. unfold records. by rewrite fmap_app, join_app. Qed.

Lemma records_single p : records [p] = data_record p.
Proof. unfold records. simpl. by rewrite app_nil_r. Qed.

Lemma records_join bs : records (mjoin bs) = mjoin (records <$> bs).
Proof.
  induction bs as [|b bs IH]; [done|].
  by rewrite fmap_cons, !mjoin_cons, records_app, <- IH.
Qed.

Lemma split_blocks_join cur ps : ps <> [] -> mjoin (split_blocks cur ps) = cur ++ ps.
Proof.
  revert cur. induction ps as [|p ps IH]; intros cur Hne; [done|]. cbn [split_blocks].
  destruct ps as [|q ps].
  { rewrite orb_true_r. simpl. by rewrite app_nil_r. }
  rewrite orb_false_r. destruct (4096 <=? _)%Z.
  - rewrite mjoin_cons, IH by done. simpl. by rewrite <- app_assoc.
  - rewrite IH by done. by rewrite <- app_assoc.
Qed.

Lemma split_blocks_nil_join ps : mjoin (split_blocks [] ps) = ps.
Proof. destruct ps; [done|]. by rewrite split_blocks_join. Qed.

Lemma split_blocks_nonempty cur ps : Forall (fun b => b <> []) (split_blocks cur ps).
Proof.
  revert cur. induction ps as [|p ps IH]; intros cur; simpl; [done|].
  case_match; [|apply IH]. constructor; [|apply IH]. by destruct cur.
Qed.

Lemma blocks_index_app off bs1 bs2 :
  blocks_index off (bs1 ++ bs2) =
  blocks_index off bs1 ++ blocks_index (off + zlen (records (mjoin bs1))) bs2.
Proof.
  revert off. induction bs1 as [|b bs1 IH]; intros off; simpl.
  { by rewrite Z.add_0_r. }
  f_equal. rewrite IH. do 2 f_equal. rewrite records_app, zlen_app. lia.
Qed.

Lemma blocks_index_length off bs : length (blocks_index off bs) = length bs.
Proof. revert off. induction bs; intros; simpl; auto. Qed.

Lemma blocks_index_lookup off bs i b :
  bs !! i = Some b ->
  blocks_index off bs !! i =
  Some (mkEntry (last_key b)
    (mkHandle (off + zlen (records (mjoin (take i bs)))) (zlen (records b)))).
Proof.
  revert off i. induction bs as [|b' bs IH]; intros off [|i]; simpl; [done..| |].
  - intros [= ->]. do 3 f_equal. by rewrite Z.add_0_r.
  - intros H. rewrite (IH _ _ H). do 3 f_equal. simpl. rewrite records_app, zlen_app. lia.
Qed.

(** *** What the writer writes *)

Section Writer.
Context (E : fault -> Prop) (file : path).

(** The file holds a prefix of [c], after [base]. *)
Definition torn_file (F : files) (base c : bytes) (G : files) : Prop :=
  exists d, d `prefix_of` c /\ G = <[file := base ++ d]> F.

Lemma append_data_insert F base c : append_data file c (<[file := base]> F) = <[file := base ++ c]> F.
Proof. unfold append_data. by rewrite lookup_insert_eq, insert_insert_eq. Qed.

(** One [file.Write] of [c] to a file that holds [base], followed by [k]. *)
Lemma wp_Write {B} (k : option error -> IO B) F base c Q C :
  wp E (k None) Q C (<[file := base ++ c]> F) ->
  (forall G, can_err E -> torn_file F base c G -> wp E (k (Some EIO)) Q C G) ->
  (forall G, can_crash E -> torn_file F base c G -> C G) ->
  wp E (file_Write file c ≫= k) Q C (<[file := base]> F).
Proof.
  intros Hok Herr Hcrash. apply wp_bind, wp_syscall.
  - by rewrite append_data_insert.
  - intros n Hn. rewrite append_data_insert. apply Herr; [by eexists|].
    eexists. split; [|done]. apply prefix_take.
  - intros n Hn. rewrite append_data_insert. apply Hcrash; [by eexists|].
    eexists. split; [|done]. apply prefix_take.
Qed.

Lemma torn_file_app F base c c' G : torn_file F base c G -> torn_file F base (c ++ c') G.
Proof. intros (d & ? & ->). exists d. split; [by apply prefix_app_r|done]. Qed.

Lemma torn_file_base F base b c G : torn_file F (base ++ b) c G -> torn_file F base (b ++ c) G.
Proof. intros (d & ? & ->). exists (b ++ d). split; [by apply prefix_app|by rewrite app_assoc]. Qed.

Lemma torn_file_full F base c : torn_file F base c (<[file := base ++ c]> F).
Proof. by exists c. Qed.

Lemma torn_file_none F base c : torn_file F base c (<[file := base]> F).
Proof. exists []. split; [apply prefix_nil|by rewrite app_nil_r]. Qed.

Lemma write_pairs_wp F ps base cur off idx :
  (0 <= off)%Z -> (off + zlen (records (cur ++ ps)) < 2 ^ 63)%Z ->
  (ps = [] -> cur = []) ->
  wp E (write_pairs file ps (mkWriter off (records cur) idx off))
    (fun r G =>
       (snd r = None /\ G = <[file := base ++ records (cur ++ ps)]> F /\
        fst r = mkWriter (off + zlen (records (cur ++ ps))) []
                  (idx ++ blocks_index off (split_blocks cur ps))
                  (off + zlen (records (cur ++ ps)))) \/
       (exists e, snd r = Some e) /\ torn_file F base (records (cur ++ ps)) G /\ can_err E)
    (fun G => torn_file F base (records (cur ++ ps)) G /\ can_crash E)
    (<[file := base]> F).
Proof.
  revert base cur off idx. induction ps as [|p ps IH]; intros base cur off idx Hoff Hlen Hcur.
  - rewrite Hcur by done. apply wp_ret. left. simpl. unfold records; simpl.
    rewrite !app_nil_r, Z.add_0_r. done.
  - cbn [write_pairs dataBuf writtenBytes windex currentOffset split_blocks].
    rewrite <- records_single, <- records_app.
    assert (Hsplit : cur ++ p :: ps = (cur ++ [p]) ++ ps) by (by rewrite <- app_assoc).
    rewrite Hsplit in *.
    destruct (_ || _) eqn:Hblock.
    + rewrite records_app, zlen_app in Hlen.
      pose proof (zlen_nonneg (records (cur ++ [p]))). pose proof (zlen_nonneg (records ps)).
      rewrite (records_app (cur ++ [p]) ps). apply wp_Write.
      * rewrite u64_small by lia.
        eapply wp_mono; [apply (IH (base ++ records (cur ++ [p])) []); simpl; [lia|lia|done]|..].
        -- intros r G [(? & -> & ->)|(? & ? & ?)]; [left|right].
           ++ split_and!; [done|by rewrite app_assoc|]. simpl.
              rewrite zlen_app, <- app_assoc, Z.add_assoc.
              assert (last_key (cur ++ [p]) = Key p) as Hlk by (unfold last_key; by rewrite last_snoc).
              by rewrite <- Hlk.
           ++ split_and!; [done|by apply torn_file_base|done].
        -- intros G [? ?]. split; [by apply torn_file_base|done].
      * intros G ? ?. apply wp_ret. right. split_and!; [by eexists|by apply torn_file_app|done].
      * intros G ? ?. split; [by apply torn_file_app|done].
    + apply orb_false_iff in Hblock as [_ Hps]. apply IH; [done|done|]. by destruct ps.
Qed.
End Writer.

Lemma length_data_record p : (8 <= length (data_record p))%nat.
Proof.
  unfold data_record. rewrite !length_app, length_PutUint32LE.
  destruct (Value p); rewrite ?length_app, length_PutUint32LE; lia.
Qed.

Lemma zlen_footer a b : zlen (footer_bytes a b) = 24%Z.
Proof. unfold footer_bytes, zlen. by rewrite !length_app, !length_PutUint64LE. Qed.

Lemma zlen_sst_bytes ps :
  zlen (sst_bytes ps) = (zlen (records ps) + zlen (index_block (sst_index ps)) + 24)%Z.
Proof. unfold sst_bytes. rewrite !zlen_app, zlen_footer. lia. Qed.

(** A table file that is not complete: absent, or a prefix of the full layout. *)
Definition torn_table (file : path) (ps : list KVPair) (F G : files) : Prop :=
  G = F \/ exists d, d `prefix_of` sst_bytes ps /\ G = <[file := d]> F.

(** [writeSSTable], under any schedule of faults: it returns no error exactly
    with the full layout on disk; otherwise the file is torn, and so it is if the
    process dies. No other file is touched. *)
Lemma writeSSTable_wp E file ps F :
  (zlen (sst_bytes ps) < 2 ^ 63)%Z ->
  wp E (writeSSTable file ps)
    (fun r G =>
       (snd r = None /\ G = <[file := sst_bytes ps]> F /\
        fst r = (zlen (sst_bytes ps), sst_index ps)) \/
       ((exists e, snd r = Some e) /\ torn_table file ps F G /\ can_err E))
    (fun G => torn_table file ps F G /\ can_crash E) F.
Proof.
  intros Hlen. rewrite zlen_sst_bytes in Hlen.
  pose proof (zlen_nonneg (records ps)). pose proof (zlen_nonneg (index_block (sst_index ps))).
  assert (Htorn : forall c G, c `prefix_of` sst_bytes ps ->
    torn_file file F [] c G -> torn_table file ps F G).
  { intros c G Hc (d & Hd & ->). right. exists d. split; [by etransitivity|done]. }
  assert (Hfull : sst_bytes ps `prefix_of` sst_bytes ps) by done.
  assert (Hrec : records ps `prefix_of` sst_bytes ps) by (by eexists).
  assert (Hidx : records ps ++ index_block (sst_index ps) `prefix_of` sst_bytes ps).
  { eexists. unfold sst_bytes. by rewrite app_assoc. }
  assert (Hnil : torn_table file ps F (<[file := []]> F)).
  { right. exists []. split; [apply prefix_nil|done]. }
  assert (Hcreate : forall n, torn_table file ps F (atomic_effect (fun G => <[file := []]> G) n F)).
  { intros [|n]; [by left|done]. }
  assert (Hall : torn_table file ps F (<[file := sst_bytes ps]> F)).
  { right. by exists (sst_bytes ps). }
  assert (Hidx' : forall G, torn_file file F ([] ++ records ps) (index_block (sst_index ps)) G -> torn_table file ps F G).
  { intros G HG. eapply Htorn; [exact Hidx|]. by apply (torn_file_base file F [] _). }
  unfold writeSSTable. apply wp_bind, wp_syscall.
  2:{ intros n Hn. apply wp_ret. right. split_and!; [by eexists|done|by exists n]. }
  2:{ intros n Hn. split; [done|by exists n]. }
  apply wp_bind.
  enough (wp E (writeSSTable_body file ps)
    (fun r G =>
       (snd r = None /\ G = <[file := sst_bytes ps]> F /\
        fst r = (zlen (sst_bytes ps), sst_index ps)) \/
       ((exists e, snd r = Some e) /\ torn_table file ps F G /\ can_err E))
    (fun G => torn_table file ps F G /\ can_crash E) (<[file := []]> F)) as Hbody.
  { eapply wp_mono; [exact Hbody| |done]. intros r G HQ.
    apply wp_bind, wp_syscall; [by apply wp_ret|intros; by apply wp_ret|].
    intros n Hn. split; [|by exists n]. by destruct HQ as [(_ & -> & _)|(_ & ? & _)]. }
  unfold writeSSTable_body. apply wp_bind.
  eapply wp_mono.
  { apply (write_pairs_wp E file F ps [] [] 0 []); simpl; [lia|lia|done]. }
  2:{ intros G [Ht ?]. split; [by eapply (Htorn (records ps))|done]. }
  intros [w err] G. simpl. intros [(-> & -> & ->)|([e ->] & Ht & ?)].
  2:{ apply wp_ret. right. split_and!; [by eexists|by eapply (Htorn (records ps))|done]. }
  cbn [fst snd windex writtenBytes currentOffset]. rewrite Z.add_0_l. fold (sst_index ps).
  apply wp_Write; [|intros G ? Ht; apply wp_ret; right; split_and!; [by eexists|by apply Hidx'|done]
                   |intros G ? Ht; split; [by apply Hidx'|done]].
  assert (Hfoot : forall G, torn_file file F (([] ++ records ps) ++ index_block (sst_index ps))
    (footer_bytes (zlen (records ps)) (zlen (index_block (sst_index ps)))) G -> torn_table file ps F G).
  { intros G HG. eapply Htorn; [exact Hfull|]. unfold sst_bytes. rewrite app_assoc.
    by apply (torn_file_base file F [] _). }
  rewrite u64_small by lia.
  apply wp_Write; [|intros G ? Ht; apply wp_ret; right; split_and!; [by eexists|by apply Hfoot|done]
                   |intros G ? Ht; split; [by apply Hfoot|done]].
  rewrite zlen_footer, u64_small by lia.
  rewrite <- app_assoc. fold (sst_bytes ps).
  apply wp_bind, wp_syscall.
  - apply wp_ret. left. rewrite zlen_sst_bytes. done.
  - intros n Hn. apply wp_ret. right. split_and!; [by eexists|done|by exists n].
  - intros n Hn. split; [done|by exists n].
Qed.

Lemma writeSSTable_no_fault file ps F :
  (zlen (sst_bytes ps) < 2 ^ 63)%Z ->
  wp no_fault (writeSSTable file ps)
    (fun r G => r = (zlen (sst_bytes ps), sst_index ps, None) /\ G = <[file := sst_bytes ps]> F)
    (fun _ => False) F.
Proof.
  intros H. eapply wp_mono; [by apply writeSSTable_wp| |intros G [_ ?]; no_faults].
  intros [[size index] err] G. simpl. intros [(-> & -> & [= -> ->])|(_ & _ & ?)]; [done|no_faults].
Qed.

(** ** Decoding what was written *)

Lemma zlen_PutUint32LE v : zlen (PutUint32LE v) = 4%Z.
Proof. unfold zlen. by rewrite length_PutUint32LE. Qed.
Lemma zlen_PutUint64LE v : zlen (PutUint64LE v) = 8%Z.
Proof. unfold zlen. by rewrite length_PutUint64LE. Qed.

Lemma read_record_app p rest :
  pair_fits p -> read_record (data_record p ++ rest) = Some (Key p, Value p, rest).
Proof.
  intros [Hk Hv]. pose proof (zlen_nonneg (Key p)). unfold read_record, data_record.
  rewrite <- !app_assoc, ReadFull_app by (by rewrite zlen_PutUint32LE).
  rewrite UintLE_Put32, !u32_small, ReadFull_app by (rewrite ?u32_small; lia).
  destruct (Value p) as [v|]; simpl in Hv.
  - pose proof (zlen_nonneg v). unfold TombstoneLen in *.
    rewrite <- !app_assoc, ReadFull_app by (by rewrite zlen_PutUint32LE).
    rewrite UintLE_Put32, !u32_small by (rewrite ?u32_small; lia).
    rewrite (proj2 (Z.eqb_neq _ _)) by lia. by rewrite ReadFull_app.
  - rewrite ReadFull_app by (by rewrite zlen_PutUint32LE). rewrite UintLE_Put32. done.
Qed.

Lemma scan_block_records fuel ps target :
  Forall pair_fits ps -> (length ps <= fuel)%nat ->
  scan_block fuel (records ps) target = run_lookup ps target.
Proof.
  intros H. revert fuel. induction H as [|p ps Hp _ IH]; intros fuel Hf; simpl.
  { by destruct fuel. }
  destruct fuel as [|fuel]; simpl in Hf; [lia|]. cbn [scan_block].
  rewrite records_cons.
  pose proof (length_data_record p). destruct (data_record p ++ records ps) eqn:Heq.
  { apply (f_equal length) in Heq. rewrite length_app in Heq. simpl in Heq. lia. }
  rewrite <- Heq, read_record_app by done.
  destruct (Equal (Key p) target) eqn:Hk.
  - apply Equal_true in Hk. by rewrite decide_True.
  - apply Equal_false in Hk. rewrite decide_False by done. apply IH. lia.
Qed.

Lemma records_length ps : (length ps <= length (records ps))%nat.
Proof.
  induction ps as [|p ps IH]; [done|].
  rewrite records_cons, length_app. pose proof (length_data_record p). simpl length at 1. lia.
Qed.

(** *** The block a key is searched in *)

Lemma last_key_elem (b : list KVPair) p : last b = Some p -> p ∈ b.
Proof. intros H. apply last_Some in H as [l ->]. set_solver. Qed.

(** In a sorted run cut in blocks, the first block whose largest key is not
    below the target decides the lookup. *)
Lemma blocks_lookup (bs : list (list KVPair)) target i :
  run_sorted (mjoin bs) -> Forall (fun b => b <> []) bs ->
  (forall j b, (j < i)%nat -> bs !! j = Some b -> blt (last_key b) target) ->
  (forall b, bs !! i = Some b -> ~ blt (last_key b) target) ->
  run_lookup (mjoin bs) target =
  match bs !! i with Some b => run_lookup b target | None => None end.
Proof.
  revert i. induction bs as [|b bs IH]; intros i Hs Hne Hlo Hhi; [by destruct i|].
  apply Forall_cons in Hne as [Hb Hne]. rewrite mjoin_cons in Hs |- *.
  pose proof Hs as (Hsb & Hsbs & Hpq)%run_sorted_app.
  rewrite run_lookup_app.
  destruct (last b) as [p|] eqn:Hlast; [|by apply last_None in Hlast].
  assert (Hlk : last_key b = Key p) by (unfold last_key; by rewrite Hlast).
  apply last_Some in Hlast as [b' ->].
  destruct i as [|i]; simpl.
  - specialize (Hhi _ eq_refl). rewrite Hlk in Hhi.
    enough (run_lookup (mjoin bs) target = None) as -> by (by case_match).
    apply run_lookup_None, Forall_forall. intros q Hq Heq. apply Hhi.
    specialize (Hpq p q ltac:(set_solver) Hq). unfold pair_lt in Hpq. by rewrite Heq in Hpq.
  - assert (run_lookup (b' ++ [p]) target = None) as ->.
    { apply run_lookup_None, Forall_forall. intros q Hq Heq.
      specialize (Hlo 0%nat _ ltac:(lia) eq_refl). rewrite Hlk, <- Heq in Hlo.
      apply run_sorted_app in Hsb as (_ & _ & Hlt).
      apply elem_of_app in Hq as [Hq|Hq].
      - apply (blt_irrefl (Key p)). eapply blt_trans; [exact Hlo|]. apply Hlt; [done|by left].
      - apply list_elem_of_singleton in Hq as ->. by apply blt_irrefl in Hlo. }
    apply IH; [done|done| |by apply Hhi].
    intros j c ??. apply (Hlo (S j) c); [lia|done].
Qed.

Lemma last_key_sorted (bs : list (list KVPair)) i j b c :
  run_sorted (mjoin bs) -> Forall (fun b => b <> []) bs ->
  bs !! i = Some b -> bs !! j = Some c -> (i < j)%nat -> blt (last_key b) (last_key c).
Proof.
  revert i j. induction bs as [|a bs IH]; intros i j Hs Hne Hi Hj Hij; [done|].
  apply Forall_cons in Hne as [Ha Hne]. rewrite mjoin_cons in Hs.
  apply run_sorted_app in Hs as (_ & Hs & Hpq).
  destruct j as [|j]; [lia|]. destruct i as [|i]; simpl in *; [|by eapply (IH i j); eauto; lia].
  simplify_eq. unfold last_key at 1 2.
  destruct (last b) eqn:Hb; [|by apply last_None in Hb].
  assert (c <> []) as Hc by exact (Forall_lookup_1 _ _ _ _ Hne Hj).
  destruct (last c) as [q|] eqn:Hlc; [|by apply last_None in Hlc].
  apply Hpq; [by apply last_key_elem|].
  apply last_key_elem in Hlc. apply list_elem_of_join. eexists. split; [done|].
  by eapply list_elem_of_lookup_2.
Qed.

(** The index of a sorted run is searched at the right block. *)
Lemma index_search ps target :
  run_sorted ps ->
  let i := sort_Search (length (sst_index ps)) (index_ge (sst_index ps) target) in
  (forall j b, (j < i)%nat -> split_blocks [] ps !! j = Some b -> blt (last_key b) target) /\
  (forall b, split_blocks [] ps !! i = Some b -> ~ blt (last_key b) target).
Proof.
  intros Hs i.
  assert (Hbs : run_sorted (mjoin (split_blocks [] ps))) by (by rewrite split_blocks_nil_join).
  pose proof (split_blocks_nonempty [] ps) as Hne.
  assert (Hge : forall j b, split_blocks [] ps !! j = Some b ->
    index_ge (sst_index ps) target j = cmp_ge (last_key b) target).
  { intros j b Hb. unfold index_ge, sst_index. by rewrite (blocks_index_lookup _ _ _ _ Hb). }
  assert (Hlen : length (sst_index ps) = length (split_blocks [] ps)) by apply blocks_index_length.
  destruct (sort_Search_spec (index_ge (sst_index ps) target)) with (n := length (sst_index ps))
    as (Hle & Hlo & Hhi).
  { intros a b Hab Ha.
    destruct (split_blocks [] ps !! b) as [cb|] eqn:Hb.
    2:{ unfold index_ge. rewrite lookup_ge_None_2; [done|]. apply lookup_ge_None in Hb. lia. }
    destruct (split_blocks [] ps !! a) as [ca|] eqn:Hca.
    2:{ apply lookup_ge_None in Hca. apply lookup_lt_Some in Hb. lia. }
    rewrite (Hge _ _ Hca) in Ha. rewrite (Hge _ _ Hb).
    apply cmp_ge_true in Ha. apply cmp_ge_true. intros Hlt. apply Ha.
    destruct (decide (a = b)) as [->|]; [by simplify_eq|].
    eapply blt_trans; [|exact Hlt]. eapply last_key_sorted; [exact Hbs|done..|lia]. }
  fold i in Hle, Hlo, Hhi. split.
  - intros j b Hj Hb. specialize (Hlo j Hj). rewrite (Hge _ _ Hb) in Hlo. by apply cmp_ge_false.
  - intros b Hb. apply cmp_ge_true. rewrite <- (Hge _ _ Hb). apply Hhi.
    split; [done|]. rewrite Hlen. by eapply lookup_lt_Some.
Qed.

(** Reading a block back by its handle. *)
Lemma ReadAt_block ps i b e :
  (zlen (sst_bytes ps) < 2 ^ 63)%Z ->
  split_blocks [] ps !! i = Some b -> sst_index ps !! i = Some e ->
  ReadAt (sst_bytes ps) (Offset (Handle e)) (Size (Handle e)) = Some (records b).
Proof.
  intros Hlen Hb He. unfold sst_index in He. rewrite (blocks_index_lookup _ _ _ _ Hb) in He.
  injection He as <-. cbn [Handle Offset Size]. rewrite Z.add_0_l.
  set (pre := records (mjoin (take i (split_blocks [] ps)))).
  assert (exists post, sst_bytes ps = pre ++ records b ++ post) as [post Heq].
  { eexists. unfold sst_bytes, pre. rewrite <- (split_blocks_nil_join ps) at 1.
    rewrite <- (take_drop_middle _ _ _ Hb) at 1.
    rewrite join_app, mjoin_cons, !records_app, <- !app_assoc. done. }
  rewrite Heq in *. rewrite !zlen_app in Hlen.
  pose proof (zlen_nonneg pre). pose proof (zlen_nonneg post). pose proof (zlen_nonneg (records b)).
  unfold ReadAt. rewrite (proj2 (Z.leb_gt _ _)) by lia.
  destruct (zlen (records b) =? 0)%Z eqn:Hz; bool_to_prop.
  - f_equal. symmetry. apply nil_length_inv. unfold zlen in Hz. lia.
  - rewrite (proj2 (Z.leb_le _ _)) by (rewrite !zlen_app; lia).
    unfold zlen. by rewrite !Nat2Z.id, drop_app_length, take_app_length.
Qed.

(** A key looked up in the file of a sorted run. *)
Lemma read_table_pure ps meta target :
  run_sorted ps -> table_fits ps -> Index meta = sst_index ps ->
  forall E F Q C,
  F !! sst_path (FileID meta) = Some (sst_bytes ps) ->
  Q (run_lookup ps target) F ->
  (forall n, E (FErr n) -> Q None F) -> (forall n, E (FCrash n) -> C F) ->
  wp E (readValFromSSTable meta target) Q C F.
Proof.
  intros Hs [Hfit Hlen] Hidx E F Q C HF HQ Herr Hcrash.
  destruct (index_search ps target Hs) as [Hlo Hhi].
  assert (Hl : length (sst_index ps) = length (split_blocks [] ps)) by apply blocks_index_length.
  pose proof (blocks_lookup (split_blocks [] ps) target
    (sort_Search (length (sst_index ps)) (index_ge (sst_index ps) target))) as Hlook.
  rewrite split_blocks_nil_join in Hlook.
  specialize (Hlook Hs (split_blocks_nonempty [] ps) Hlo Hhi).
  unfold readValFromSSTable. rewrite Hidx.
  set (i := sort_Search _ _) in *.
  destruct (sst_index ps !! i) as [e|] eqn:He.
  - destruct (split_blocks [] ps !! i) as [b|] eqn:Hb.
    2:{ apply lookup_ge_None in Hb. apply lookup_lt_Some in He. lia. }
    apply wp_bind, wp_ReadFile; [|intros; apply wp_ret; eauto|eauto].
    rewrite HF, (ReadAt_block ps i b e) by done. apply wp_ret.
    rewrite scan_block_records; [by rewrite <- Hlook| |apply records_length].
    assert (Hsub : forall p, p ∈ b -> p ∈ ps).
    { intros p Hp. rewrite <- (split_blocks_nil_join ps). apply list_elem_of_join.
      eexists. split; [done|]. by eapply list_elem_of_lookup_2. }
    rewrite Forall_forall in Hfit |- *. auto.
  - apply wp_ret. apply lookup_ge_None in He.
    rewrite lookup_ge_None_2 in Hlook by lia. by rewrite <- Hlook.
Qed.

(** *** Loading a complete file *)

Definition entry_fits (e : IndexEntry) : Prop :=
  (zlen (MaxKey e) < 2 ^ 32)%Z /\ is_u64 (Offset (Handle e)) /\ is_u64 (Size (Handle e)).

Lemma index_record_length e : (20 <= length (index_record e))%nat.
Proof. unfold index_record. rewrite !length_app, length_PutUint32LE, !length_PutUint64LE. lia. Qed.

Lemma index_block_cons e idx : index_block (e :: idx) = index_record e ++ index_block idx.
Proof. done. Qed.

Lemma index_block_length idx : (length idx <= length (index_block idx))%nat.
Proof.
  induction idx as [|e idx IH]; [done|].
  rewrite index_block_cons, length_app. pose proof (index_record_length e). simpl length at 1. lia.
Qed.

Lemma parse_index_block fuel idx :
  Forall entry_fits idx -> (length idx <= fuel)%nat -> parse_index fuel (index_block idx) = idx.
Proof.
  intros H. revert fuel. induction H as [|e idx He _ IH]; intros fuel Hf; [by destruct fuel|].
  destruct fuel as [|fuel]; simpl in Hf; [lia|]. cbn [parse_index].
  destruct e as [mk [o s]]. destruct He as (Hk & Ho & Hsz). simpl in *. pose proof (zlen_nonneg mk).
  rewrite index_block_cons. unfold index_record at 1; cbn [MaxKey Handle Offset Size].
  rewrite <- !app_assoc, ReadFull_app by (by rewrite zlen_PutUint32LE).
  rewrite UintLE_Put32, !u32_small, ReadFull_app by (rewrite ?u32_small; lia).
  rewrite ReadFull_app by (by rewrite zlen_PutUint64LE).
  rewrite ReadFull_app by (by rewrite zlen_PutUint64LE).
  rewrite !UintLE_Put64, !u64_small by done. by rewrite IH by lia.
Qed.

Lemma sst_index_fits ps : table_fits ps -> Forall entry_fits (sst_index ps).
Proof.
  intros [Hfit Hlen]. rewrite zlen_sst_bytes in Hlen.
  pose proof (zlen_nonneg (index_block (sst_index ps))).
  apply Forall_lookup_2. intros i e He.
  assert (Hi : (i < length (split_blocks [] ps))%nat).
  { apply lookup_lt_Some in He. unfold sst_index in He. by rewrite blocks_index_length in He. }
  apply lookup_lt_is_Some in Hi as [b Hb].
  unfold sst_index in He. rewrite (blocks_index_lookup _ _ _ _ Hb) in He. injection He as <-.
  assert (Heq : records ps = records (mjoin (take i (split_blocks [] ps))) ++ records b ++
                       records (mjoin (drop (S i) (split_blocks [] ps)))).
  { rewrite <- (split_blocks_nil_join ps) at 1. rewrite <- (take_drop_middle _ _ _ Hb) at 1.
    by rewrite join_app, mjoin_cons, !records_app. }
  rewrite Heq, !zlen_app in Hlen.
  pose proof (zlen_nonneg (records (mjoin (take i (split_blocks [] ps))))).
  pose proof (zlen_nonneg (records b)).
  pose proof (zlen_nonneg (records (mjoin (drop (S i) (split_blocks [] ps))))).
  unfold entry_fits, is_u64; cbn [MaxKey Handle Offset Size]. split_and!; try lia.
  unfold last_key. destruct (last b) as [p|] eqn:Hl; [|done].
  rewrite Forall_forall in Hfit. apply Hfit. rewrite <- (split_blocks_nil_join ps).
  apply list_elem_of_join. exists b. split; [by apply last_key_elem|by eapply list_elem_of_lookup_2].
Qed.

Lemma last_join (bs : list (list KVPair)) b :
  last bs = Some b -> b <> [] -> last (mjoin bs) = last b.
Proof.
  intros [l ->]%last_Some Hb. rewrite join_app, mjoin_cons. simpl. rewrite app_nil_r.
  rewrite last_app. destruct (last b) eqn:H; [done|]. by apply last_None in H.
Qed.

Lemma last_blocks_index off bs :
  last (blocks_index off bs) =
  match last bs with
  | Some b => Some (mkEntry (last_key b)
      (mkHandle (off + zlen (records (mjoin (take (pred (length bs)) bs)))) (zlen (records b))))
  | None => None
  end.
Proof.
  rewrite !last_lookup, blocks_index_length.
  destruct (bs !! pred (length bs)) as [b|] eqn:Hb.
  - by apply blocks_index_lookup.
  - apply lookup_ge_None in Hb. apply lookup_ge_None_2. by rewrite blocks_index_length.
Qed.

(** The last index entry: the largest key, and the end of the data area. *)
Lemma sst_index_last ps :
  ps <> [] -> exists e, last (sst_index ps) = Some e /\ MaxKey e = last_key ps /\
    (Offset (Handle e) + Size (Handle e))%Z = zlen (records ps).
Proof.
  intros Hps. unfold sst_index. rewrite last_blocks_index.
  destruct (last (split_blocks [] ps)) as [b|] eqn:Hb.
  2:{ apply last_None in Hb. destruct Hps. by rewrite <- (split_blocks_nil_join ps), Hb. }
  eexists. split; [done|]. cbn [MaxKey Handle Offset Size].
  assert (b <> []) as Hne.
  { pose proof (split_blocks_nonempty [] ps) as H. rewrite Forall_forall in H. apply H.
    rewrite last_lookup in Hb. by eapply list_elem_of_lookup_2. }
  split.
  - unfold last_key at 2. rewrite <- (split_blocks_nil_join ps) at 1.
    by rewrite (last_join _ b).
  - pose proof Hb as [l Hl]%last_Some. rewrite Hl at 2. rewrite Hl.
    rewrite length_app. simpl. rewrite Nat.add_1_r. simpl. rewrite take_app_length.
    rewrite <- (split_blocks_nil_join ps), Hl, join_app, mjoin_cons. simpl.
    rewrite app_nil_r, records_app, zlen_app. lia.
Qed.

Definition table_meta (id : Z) (ps : list KVPair) : SSTableMeta :=
  mkMeta id (match ps with p :: _ => Key p | [] => [] end) (last_key ps)
    (zlen (sst_bytes ps)) (sst_index ps).

Lemma take_app_exact {A} (l k : list A) n : n = length l -> take n (l ++ k) = l.
Proof. intros ->. apply take_app_length. Qed.
Lemma drop_app_exact {A} (l k : list A) n : n = length l -> drop n (l ++ k) = k.
Proof. intros ->. apply drop_app_length. Qed.

(** The metadata rebuilt from a complete file is the one its writer installed. *)
Lemma load_file_sst_bytes id ps :
  ps <> [] -> table_fits ps -> load_file id (sst_bytes ps) = LoadOk (table_meta id ps).
Proof.
  intros Hps Hfits. pose proof Hfits as [Hfit Hlen].
  pose proof (sst_index_fits ps Hfits) as Hidxf.
  destruct (sst_index_last ps Hps) as (e & Hlast & Hmax & _).
  pose proof (zlen_sst_bytes ps) as Hz.
  pose proof (zlen_nonneg (records ps)). pose proof (zlen_nonneg (index_block (sst_index ps))).
  unfold load_file. rewrite (proj2 (Z.ltb_ge _ _)) by (unfold FooterSize; lia).
  assert (Hdrop : drop (Z.to_nat (zlen (sst_bytes ps) - FooterSize)) (sst_bytes ps) =
    footer_bytes (zlen (records ps)) (zlen (index_block (sst_index ps)))).
  { unfold sst_bytes at 2. rewrite app_assoc. apply drop_app_exact.
    rewrite length_app. unfold zlen, FooterSize in *. lia. }
  rewrite Hdrop. unfold footer_bytes.
  rewrite (take_app_exact (PutUint64LE (zlen (records ps)))) by (by rewrite length_PutUint64LE).
  rewrite (drop_app_exact (PutUint64LE (zlen (records ps))) _ 8) by (by rewrite length_PutUint64LE).
  rewrite (take_app_exact (PutUint64LE (zlen (index_block (sst_index ps)))))
    by (by rewrite length_PutUint64LE).
  rewrite (app_assoc (PutUint64LE (zlen (records ps)))), drop_app_exact
    by (by rewrite length_app, !length_PutUint64LE).
  rewrite (firstn_all2 (PutUint64LE SSTableMagicNumber)) by (by rewrite length_PutUint64LE).
  rewrite !UintLE_Put64, !u64_small by (unfold SSTableMagicNumber; lia).
  rewrite Z.eqb_refl. cbn [negb].
  assert (HRA : ReadAt (sst_bytes ps) (zlen (records ps)) (zlen (index_block (sst_index ps))) =
    Some (index_block (sst_index ps))).
  { unfold ReadAt. rewrite (proj2 (Z.leb_gt _ _)) by lia.
    destruct (_ =? 0)%Z eqn:H0'; bool_to_prop.
    - f_equal. symmetry. apply nil_length_inv. unfold zlen in H0'. lia.
    - rewrite (proj2 (Z.leb_le _ _)) by lia. unfold sst_bytes, zlen. rewrite !Nat2Z.id.
      by rewrite drop_app_length, take_app_length. }
  rewrite HRA, parse_index_block by (done || apply index_block_length). rewrite Hlast.
  destruct ps as [|p ps]; [done|].
  assert (Hp : pair_fits p) by (by apply Forall_cons in Hfit as [? _]).
  destruct Hp as [Hk _]. pose proof (zlen_nonneg (Key p)).
  unfold sst_bytes at 1. rewrite records_cons. unfold data_record at 1.
  rewrite <- !app_assoc, ReadFull_app by (by rewrite zlen_PutUint32LE).
  rewrite UintLE_Put32, !u32_small, ReadFull_app by (rewrite ?u32_small; lia).
  unfold table_meta. by rewrite <- Hmax.
Qed.

(** A file that is long enough for a footer and does not end in the magic number is
    refused. *)
Lemma load_file_refused id content :
  (FooterSize <= zlen content)%Z -> UintLE (drop (length content - 8) content) <> SSTableMagicNumber ->
  exists e, load_file id content = LoadErr e.
Proof.
  intros Hlen Hmagic. unfold load_file. rewrite (proj2 (Z.ltb_ge _ _)) by lia. rewrite drop_drop, firstn_all2.
  - replace (Z.to_nat (zlen content - FooterSize) + 16)%nat with (length content - 8)%nat by (unfold zlen, FooterSize in *; lia).
    rewrite (proj2 (Z.eqb_neq _ _) Hmagic). by eexists.
  - rewrite length_drop. unfold zlen, FooterSize in *. lia.
Qed.

(** *** Iterating over a complete file *)

(** An iterator positioned in a run: invalid at the end, and otherwise holding
    the first pair with the records of the others ahead. *)
Definition iter_at (it : SSTableIterator) (ps : list KVPair) : Prop :=
  match ps with
  | [] => it_valid it = false
  | p :: ps => it = mkIter (Key p) (Value p) true (records ps)
  end.

Lemma iter_Next_records it ps :
  Forall pair_fits ps -> it_reader it = records ps -> iter_at (iter_Next it) ps.
Proof.
  intros H Hr. unfold iter_Next. rewrite Hr. destruct H as [|p ps Hp Hps]; [done|].
  rewrite records_cons, read_record_app by done. done.
Qed.

Lemma NewSSTableIterator_wp E id ps F (Q : result SSTableIterator -> files -> Prop) C :
  ps <> [] -> table_fits ps -> F !! sst_path id = Some (sst_bytes ps) ->
  (forall it, iter_at it ps -> Q (inl it) F) ->
  (forall n, E (FErr n) -> Q (inr EIO) F) -> (forall n, E (FCrash n) -> C F) ->
  wp E (NewSSTableIterator (table_meta id ps)) Q C F.
Proof.
  intros Hps [Hfit Hlen] HF HQ Herr Hcrash. unfold NewSSTableIterator.
  apply wp_bind, wp_ReadFile; [|intros; apply wp_ret; eauto|eauto].
  cbn [FileID table_meta]. rewrite HF. apply wp_ret, HQ.
  apply iter_Next_records; [done|]. cbn [it_reader Index table_meta].
  pose proof (zlen_sst_bytes ps) as Hz. pose proof (zlen_nonneg (index_block (sst_index ps))).
  pose proof (zlen_nonneg (records ps)).
  destruct (sst_index_last ps Hps) as (e & Hlast & _ & Hend).
  unfold data_end. rewrite Hlast, Hend, u64_small by lia.
  unfold limit_reader. rewrite (proj2 (Z.leb_gt _ _)) by lia.
  rewrite (proj2 (Z.leb_gt _ _)) by lia.
  unfold sst_bytes, zlen. rewrite Nat2Z.id. apply take_app_length.
Qed.


(** *** The size of a table file

    Every pair costs its record and at most one index entry, so the file is no
    longer than [24 + run_weight ps]. *)
Definition pair_weight (p : KVPair) : Z := (28 + 2 * zlen (Key p) + vlen (Value p))%Z.
Definition run_weight (ps : list KVPair) : Z := foldr (fun p s => (pair_weight p + s)%Z) 0%Z ps.

Lemma run_weight_app ps qs : run_weight (ps ++ qs) = (run_weight ps + run_weight qs)%Z.
Proof. induction ps as [|p ps IH]; simpl; [done|]. rewrite IH. lia. Qed.

Lemma run_weight_nonneg ps : (0 <= run_weight ps)%Z.
Proof.
  induction ps as [|p ps IH]; simpl; [done|]. unfold pair_weight.
  pose proof (zlen_nonneg (Key p)). pose proof (vlen_nonneg (Value p)). lia.
Qed.

Lemma zlen_data_record p : (zlen (data_record p) = 8 + zlen (Key p) + vlen (Value p))%Z.
Proof.
  unfold data_record. rewrite !zlen_app. destruct (Value p); cbn [vlen];
    rewrite ?zlen_app, !zlen_PutUint32LE; lia.
Qed.

Lemma zlen_records_weight ps :
  (zlen (records ps) + foldr (fun p s => 20 + zlen (Key p) + s) 0 ps = run_weight ps)%Z.
Proof.
  induction ps as [|p ps IH]; [done|]. rewrite records_cons, zlen_app, zlen_data_record.
  change (run_weight (p :: ps)) with (pair_weight p + run_weight ps)%Z.
  cbn [foldr]. unfold pair_weight. lia.
Qed.

(** A run whose weights are bounded fits in the index of its file. *)
Lemma index_block_weight off (bs : list (list KVPair)) :
  Forall (fun b => b <> []) bs ->
  (zlen (index_block (blocks_index off bs)) <=
   foldr (fun p s => 20 + zlen (Key p) + s) 0 (mjoin bs))%Z.
Proof.
  assert (Hge : forall (b : list KVPair) c, (c <= foldr (fun p s => 20 + zlen (Key p) + s) c b)%Z).
  { intros b c. induction b as [|p b IH]; simpl; [done|]. pose proof (zlen_nonneg (Key p)). lia. }
  intros H. revert off. induction H as [|b bs Hb _ IH]; intros off; [done|].
  cbn [blocks_index]. rewrite index_block_cons, mjoin_cons, zlen_app, foldr_app.
  specialize (IH (off + zlen (records b))%Z).
  destruct b as [|q b _] using rev_ind; [done|]. unfold last_key. rewrite last_snoc, foldr_app.
  cbn [foldr]. unfold index_record; cbn [MaxKey Handle Offset Size].
  rewrite !zlen_app, zlen_PutUint32LE, !zlen_PutUint64LE.
  etrans; [|apply Hge]. lia.
Qed.

Lemma sst_bytes_weight ps : (zlen (sst_bytes ps) <= 24 + run_weight ps)%Z.
Proof.
  rewrite zlen_sst_bytes, <- zlen_records_weight.
  pose proof (index_block_weight 0 _ (split_blocks_nonempty [] ps)) as H.
  rewrite split_blocks_nil_join in H. fold (sst_index ps) in H. lia.
Qed.

Lemma run_weight_perm (ps qs : list KVPair) : ps ≡ₚ qs -> run_weight ps = run_weight qs.
Proof. induction 1; simpl; lia. Qed.

Lemma run_weight_submseteq (ps qs : list KVPair) : ps ⊆+ qs -> (run_weight ps <= run_weight qs)%Z.
Proof.
  intros [k ->%run_weight_perm]%submseteq_Permutation. rewrite run_weight_app.
  pose proof (run_weight_nonneg k). lia.
Qed.
