(* ===== verification/Heap.v ===== *)
(** * [container/heap]

    The library's binary heap over a slice, as the merge uses it
    (internal/lsm/compaction_merge.go gives [Less], [Swap], [Push] and [Pop]):
    [up] and [down] with the index arithmetic of the library, and the facts the
    merge needs: contents are kept and [Pop] yields a least element. *)
From S2P Require Export Prelude.

Section Heap.
Context {A : Type} (less : A -> A -> bool).

Definition less_at (l : list A) (i j : nat) : bool :=
  match l !! i, l !! j with Some x, Some y => less x y | _, _ => false end.

Definition swap (l : list A) (i j : nat) : list A :=
  match l !! i, l !! j with Some x, Some y => <[j := x]> (<[i := y]> l) | _, _ => l end.

Fixpoint up (fuel : nat) (l : list A) (j : nat) : list A :=
  match fuel with
  | O => l
  | S fuel =>
      let i := ((j - 1) / 2)%nat in
      if (i =? j)%nat || negb (less_at l j i) then l else up fuel (swap l i j) i
  end.

Fixpoint down (fuel : nat) (l : list A) (i n : nat) : list A :=
  match fuel with
  | O => l
  | S fuel =>
      let j1 := (2 * i + 1)%nat in
      if (n <=? j1)%nat then l
      else
        let j := if (j1 + 1 <? n)%nat && less_at l (j1 + 1) j1 then (j1 + 1)%nat else j1 in
        if negb (less_at l j i) then l else down fuel (swap l i j) j n
  end.

(** [heap.Push]: append, then [up] from the last index. *)
Definition heap_Push (l : list A) (x : A) : list A :=
  up (S (length l)) (l ++ [x]) (length l).

(** [heap.Pop]: swap the root with the last element, [down] from the root over
    the others, remove the last element. *)
Definition heap_Pop (l : list A) : option (A * list A) :=
  let n := (length l - 1)%nat in
  let l := down (length l) (swap l 0 n) 0 n in
  match l !! n with Some x => Some (x, take n l) | None => None end.

(** ** Contents *)

Lemma swap_Permutation l i j : swap l i j ≡ₚ l.
Proof.
  unfold swap. destruct (l !! i) as [x|] eqn:Hi; [|done].
  destruct (l !! j) as [y|] eqn:Hj; [|done]. by apply Permutation_insert_swap.
Qed.

Lemma length_swap l i j : length (swap l i j) = length l.
Proof. apply Permutation_length, swap_Permutation. Qed.

Lemma up_Permutation fuel l j : up fuel l j ≡ₚ l.
Proof.
  revert l j. induction fuel as [|fuel IH]; intros l j; cbn [up]; [done|].
  case_match; [done|]. by rewrite IH, swap_Permutation.
Qed.

Lemma down_Permutation fuel l i n : down fuel l i n ≡ₚ l.
Proof.
  revert l i. induction fuel as [|fuel IH]; intros l i; cbn [down]; [done|].
  case_match; [done|]. cbv zeta.
  set (j := if _ && _ then _ else _). clearbody j.
  destruct (negb _); [done|]. by rewrite IH, swap_Permutation.
Qed.

Lemma heap_Push_Permutation l x : heap_Push l x ≡ₚ x :: l.
Proof. unfold heap_Push. rewrite up_Permutation. by rewrite Permutation_app_comm. Qed.

Lemma lookup_swap l i j k x y :
  l !! i = Some x -> l !! j = Some y ->
  swap l i j !! k = if decide (k = j) then Some x else if decide (k = i) then Some y else l !! k.
Proof.
  intros Hi Hj. unfold swap. rewrite Hi, Hj.
  apply lookup_lt_Some in Hi, Hj.
  rewrite list_lookup_insert, length_insert, list_lookup_insert.
  repeat case_decide; try done; naive_solver lia.
Qed.

(** ** Order *)

Definition hle (x y : A) : Prop := less y x = false.

Hypothesis hle_trans : forall x y z, hle x y -> hle y z -> hle x z.
Hypothesis less_hle : forall x y, less x y = true -> hle x y.

Lemma hle_refl x : hle x x.
Proof using less_hle.
  unfold hle. destruct (less x x) eqn:H; [|done].
  apply less_hle in H as H'. unfold hle in H'. congruence.
Qed.

Definition parent (c : nat) : nat := ((c - 1) / 2)%nat.

(** The heap order between every index below [n] and its parent, apart from the
    pairs that [P] excludes. *)
Definition heap_but (P : nat -> Prop) (l : list A) (n : nat) : Prop :=
  forall c x y, (0 < c < n)%nat -> ~ P c ->
    l !! parent c = Some x -> l !! c = Some y -> hle x y.

Definition is_heap (l : list A) : Prop := heap_but (fun _ => False) l (length l).

Lemma up_heap fuel l j :
  (j < fuel)%nat -> (j < length l)%nat ->
  heap_but (fun c => c = j) l (length l) ->
  (forall c x y, (0 < c)%nat -> (0 < j)%nat -> parent c = j ->
     l !! parent j = Some x -> l !! c = Some y -> hle x y) ->
  is_heap (up fuel l j).
Proof using hle_trans less_hle.
  revert l j. induction fuel as [|fuel IH]; intros l j Hf Hj Hheap Hgrand; [lia|].
  cbn [up]. fold (parent j).
  assert (Hpj : (0 < j -> parent j < j)%nat) by (unfold parent; intros; apply Nat.Div0.div_lt_upper_bound; lia).
  destruct (lookup_lt_is_Some_2 l j Hj) as [y Hy].
  destruct (decide (j = 0)) as [->|Hj0].
  { change (parent 0) with 0%nat. simpl. intros c x' y' Hc _ ? ?. eapply Hheap; eauto. lia. }
  destruct (lookup_lt_is_Some_2 l (parent j)) as [x Hx]; [lia|].
  unfold less_at. rewrite Hx, Hy.
  destruct ((parent j =? j)%nat || negb (less y x)) eqn:Hstop.
  - apply orb_true_iff in Hstop as [?|Hstop]; bool_to_prop; [lia|].
    intros c x' y' Hc _ Hx' Hy'.
    destruct (decide (c = j)) as [->|]; [by simplify_eq|by eapply Hheap].
  - apply orb_false_iff in Hstop as [_ Hless%negb_false_iff].
    assert (Hyx : hle y x) by auto.
    assert (Hlk : forall k, swap l (parent j) j !! k =
      if decide (k = j) then Some x else if decide (k = parent j) then Some y else l !! k)
      by (intros; by apply lookup_swap).
    apply IH; rewrite ?length_swap; [lia|lia| |].
    + intros c x' y' Hc Hcj. rewrite !Hlk.
      destruct (decide (c = j)) as [->|Hcj'].
      { rewrite decide_False, decide_True by lia. intros; by simplify_eq. }
      rewrite (decide_False (P := c = parent j)) by done.
      destruct (decide (parent c = j)) as [Hpc|].
      { intros [= <-] Hc'. by eapply Hgrand; [| |exact Hpc|..]; eauto; lia. }
      destruct (decide (parent c = parent j)) as [Hpc|].
      { intros [= <-] Hc'. apply (hle_trans _ x); [done|]. eapply (Hheap c); eauto. by rewrite Hpc. }
      intros. eapply Hheap; eauto.
    + intros c x' y' Hc Hpj0 Hpc. rewrite !Hlk.
      assert (parent (parent j) < parent j)%nat by (unfold parent at 1; apply Nat.Div0.div_lt_upper_bound; lia).
      rewrite !(decide_False (P := parent (parent j) = _)) by lia.
      intros Hx'. assert (hle x' x) by (eapply (Hheap (parent j)); eauto; lia).
      destruct (decide (c = j)) as [->|]; [by intros; simplify_eq|].
      destruct (decide (c = parent j)) as [->|]; [lia|]. intros Hc'.
      apply (hle_trans _ x); [done|]. eapply (Hheap c); eauto; [|by rewrite Hpc].
      apply lookup_lt_Some in Hc'. lia.
Qed.

Lemma down_heap fuel l i n :
  (n <= i + fuel)%nat -> (n <= length l)%nat ->
  heap_but (fun c => parent c = i) l n ->
  (forall c x y, (0 < c < n)%nat -> (0 < i)%nat -> parent c = i ->
     l !! parent i = Some x -> l !! c = Some y -> hle x y) ->
  heap_but (fun _ => False) (down fuel l i n) n /\
  (forall k, (n <= k)%nat -> down fuel l i n !! k = l !! k).
Proof using hle_trans less_hle.
  revert l i. induction fuel as [|fuel IH]; intros l i Hf Hn Hheap Hgrand; cbn [down].
  { split; [|done]. intros c x y Hc _. apply Hheap; [lia|].
    unfold parent. intros Hpc. assert (c - 1 < 2 * i)%nat by lia.
    assert ((c - 1) / 2 < i)%nat by (apply Nat.Div0.div_lt_upper_bound; lia). lia. }
  assert (Hchild : forall c, (0 < c)%nat -> parent c = i -> c = (2 * i + 1)%nat \/ c = (2 * i + 2)%nat).
  { unfold parent. intros c Hc Hpc. pose proof (Nat.div_mod_eq (c - 1) 2).
    pose proof (Nat.mod_upper_bound (c - 1) 2). lia. }
  assert (Hp1 : parent (2 * i + 1) = i).
  { unfold parent. replace (2 * i + 1 - 1)%nat with (i * 2)%nat by lia. by apply Nat.div_mul. }
  assert (Hp2 : parent (2 * i + 2) = i).
  { unfold parent. replace (2 * i + 2 - 1)%nat with (1 + i * 2)%nat by lia.
    rewrite Nat.div_add by lia. done. }
  destruct (n <=? 2 * i + 1)%nat eqn:Hj1; bool_to_prop.
  { split; [|done]. intros c x y Hc _. apply Hheap; [lia|].
    intros Hpc. apply Hchild in Hpc; lia. }
  cbv zeta. replace (2 * i + 1 + 1)%nat with (2 * i + 2)%nat by lia.
  destruct (lookup_lt_is_Some_2 l i) as [x Hx]; [lia|].
  (* the smaller child *)
  set (j := if (2 * i + 2 <? n)%nat && less_at l (2 * i + 2) (2 * i + 1)
            then (2 * i + 2)%nat else (2 * i + 1)%nat).
  assert (Hj : (i < j < n)%nat /\ parent j = i /\
    (forall c y z, (0 < c < n)%nat -> parent c = i -> l !! j = Some y -> l !! c = Some z -> hle y z)).
  { unfold j. destruct (2 * i + 2 <? n)%nat eqn:Hj2; bool_to_prop; cbn [andb].
    - destruct (lookup_lt_is_Some_2 l (2 * i + 1)) as [y1 Hy1]; [lia|].
      destruct (lookup_lt_is_Some_2 l (2 * i + 2)) as [y2 Hy2]; [lia|].
      unfold less_at. rewrite Hy1, Hy2.
      destruct (less y2 y1) eqn:Hless; split_and!; try lia; try done;
        intros c y z Hc Hpc ? ?; (destruct (Hchild c) as [-> | ->]; [lia|done|..]);
        simplify_eq; auto using hle_refl.
    - split_and!; try lia; try done. intros c y z Hc Hpc ? ?.
      destruct (Hchild c) as [-> | ->]; [lia|done| |lia]. simplify_eq. apply hle_refl. }
  destruct Hj as (Hj & Hpj & Hmin). clearbody j.
  destruct (lookup_lt_is_Some_2 l j) as [y Hy]; [lia|].
  unfold less_at. rewrite Hx, Hy. destruct (less y x) eqn:Hless; cbn [negb].
  2:{ split; [|done]. intros c x' z Hc _ Hx' Hz.
      destruct (decide (parent c = i)) as [Hpc|]; [|by eapply Hheap].
      rewrite Hpc in Hx'. simplify_eq. apply (hle_trans _ y); [done|]. by eapply Hmin. }
  assert (Hyx : hle y x) by auto.
  assert (Hlk : forall k, swap l i j !! k =
    if decide (k = j) then Some x else if decide (k = i) then Some y else l !! k)
    by (intros; by apply lookup_swap).
  destruct (IH (swap l i j) j) as [Hh Hk]; rewrite ?length_swap; [lia|lia| | |].
  - intros c x' z Hc Hpc. rewrite !Hlk.
    destruct (decide (c = j)) as [->|Hcj].
    { rewrite Hpj, decide_False, decide_True by lia. intros; by simplify_eq. }
    rewrite (decide_False (P := parent c = j)) by done.
    destruct (decide (parent c = i)) as [Hpi|Hpi].
    { rewrite (decide_False (P := c = i)).
      - intros [= <-] Hz. by eapply Hmin.
      - intros ->. apply Hchild in Hpi; lia. }
    destruct (decide (c = i)) as [->|].
    { intros Hx' [= <-]. eapply (Hgrand j); eauto; lia. }
    intros. by eapply Hheap.
  - intros c x' z Hc _ Hpc. rewrite !Hlk, Hpj.
    rewrite (decide_False (P := i = j)), (decide_True (P := i = i)) by (done || lia).
    assert (parent c < c)%nat by (unfold parent; apply Nat.Div0.div_lt_upper_bound; lia).
    rewrite (decide_False (P := c = j)), (decide_False (P := c = i)) by lia.
    intros [= <-] Hz. eapply (Hheap c); eauto; [lia|]. by rewrite Hpc.
  - split; [done|]. intros k Hkn. rewrite Hk, Hlk by done. by rewrite !decide_False by lia.
Qed.

(** ** The operations *)

Lemma heap_Push_heap l x : is_heap l -> is_heap (heap_Push l x).
Proof using hle_trans less_hle.
  intros Hl. unfold heap_Push. apply up_heap; rewrite ?length_app; simpl; try lia.
  - intros c x' y' Hc Hne. rewrite !lookup_app_l.
    + apply Hl; [lia|tauto].
    + lia.
    + unfold parent. apply Nat.Div0.div_lt_upper_bound. lia.
  - intros c x' y' Hc Hl0 Hpc _ Hy. apply lookup_lt_Some in Hy. rewrite length_app in Hy. simpl in Hy.
    assert (parent c < c)%nat by (unfold parent; apply Nat.Div0.div_lt_upper_bound; lia). lia.
Qed.

Lemma heap_root_least l x : is_heap l -> l !! 0 = Some x -> Forall (hle x) l.
Proof using hle_trans less_hle.
  intros Hl Hx. apply Forall_lookup_2. intros i. induction i as [i IH] using lt_wf_ind. intros y Hy.
  destruct (decide (i = 0)%nat) as [->|]; [simplify_eq; apply hle_refl|].
  assert (parent i < i)%nat by (unfold parent; apply Nat.Div0.div_lt_upper_bound; lia).
  apply lookup_lt_Some in Hy as Hlt. destruct (lookup_lt_is_Some_2 l (parent i)) as [z Hz]; [lia|].
  apply (hle_trans _ z); [by eapply (IH (parent i))|]. eapply (Hl i); eauto. lia.
Qed.

(** [Pop] on a nonempty heap: a least element and a heap of the others. *)
Lemma heap_Pop_spec l :
  is_heap l -> l <> [] ->
  exists x l', heap_Pop l = Some (x, l') /\ l ≡ₚ x :: l' /\ is_heap l' /\ Forall (hle x) l.
Proof using hle_trans less_hle.
  intros Hl Hne. unfold heap_Pop.
  assert (0 < length l)%nat by (destruct l; [done|simpl; lia]).
  set (n := (length l - 1)%nat).
  destruct (lookup_lt_is_Some_2 l 0) as [x Hx]; [lia|].
  destruct (lookup_lt_is_Some_2 l n) as [y Hy]; [unfold n; lia|].
  assert (Hlk : forall k, swap l 0 n !! k =
    if decide (k = n) then Some x else if decide (k = 0)%nat then Some y else l !! k)
    by (intros; by apply lookup_swap).
  destruct (down_heap (length l) (swap l 0 n) 0 n) as [Hh Hk];
    rewrite ?length_swap; [unfold n; lia|unfold n; lia| |intros; lia|].
  { intros c x' z Hc Hpc. rewrite !Hlk.
    assert (parent c < c)%nat by (unfold parent; apply Nat.Div0.div_lt_upper_bound; lia).
    rewrite !decide_False by lia. apply Hl; [unfold n in *; lia|tauto]. }
  assert (Hdn : down (length l) (swap l 0 n) 0 n !! n = Some x).
  { rewrite Hk, Hlk by done. by rewrite decide_True. }
  assert (Hperm : down (length l) (swap l 0 n) 0 n ≡ₚ l)
    by (by rewrite down_Permutation, swap_Permutation).
  set (d := down (length l) (swap l 0 n) 0 n) in *. clearbody d.
  assert (Hd : d = take n d ++ [x]).
  { rewrite <- (take_drop_middle _ _ _ Hdn) at 1. f_equal. rewrite drop_ge; [done|].
    rewrite (Permutation_length Hperm). unfold n. lia. }
  rewrite Hdn. eexists x, _. split; [done|]. split_and!.
  - rewrite <- Hperm, Hd at 1. by rewrite Permutation_app_comm.
  - intros c x' z Hc _. rewrite length_take in Hc.
    assert (parent c < c)%nat by (unfold parent; apply Nat.Div0.div_lt_upper_bound; lia).
    rewrite !lookup_take_lt by lia. apply Hh; [lia|tauto].
  - by apply heap_root_least.
Qed.
End Heap.
