(* ===== verification/Merge.v ===== *)
(** * The compaction merge (internal/lsm/compaction_iterator.go,
    compaction_builder.go, compaction_merge.go)

    A k-way merge of iterators through a heap, with a builder that keeps one entry
    per key. The merge is written against the interface [Iterator]; its theorem
    characterises the output by lookups in the input runs. *)
From S2P Require Export SSTable Heap.

(** ** The interface of an iterator

    [Remaining] bounds the number of times [Next] can still leave the iterator
    valid; it is the fuel of the merge loop. *)
Class Iterator (I : Type) := {
  Next : I -> I;
  Valid : I -> bool;
  IterKey : I -> bytes;
  IterValue : I -> option bytes;
  IterClose : I -> I;
  Remaining : I -> nat
}.

(** What an iterator promises: [enumerates it ps] says that [it] stands on the
    first pair of [ps] and will yield the others in order. *)
Class IteratorLaws (I : Type) `{Iterator I} := {
  enumerates : I -> list KVPair -> Prop;
  enumerates_nil it : enumerates it [] -> Valid it = false;
  enumerates_cons it p ps : enumerates it (p :: ps) ->
    Valid it = true /\ IterKey it = Key p /\ IterValue it = Value p /\ enumerates (Next it) ps;
  enumerates_remaining it ps : enumerates it ps -> (length ps <= Remaining it)%nat
}.

(** The iterator over a table file implements the interface. *)
#[export] Instance sst_iterator : Iterator SSTableIterator := {
  Next := iter_Next;
  Valid := it_valid;
  IterKey := it_key;
  IterValue := it_value;
  IterClose := iter_Close;
  Remaining it := S (length (it_reader it))
}.

#[export] Instance sst_iterator_laws : IteratorLaws SSTableIterator.
Proof.
  refine {| enumerates it ps := Forall pair_fits ps /\ iter_at it ps |}.
  - by intros it [_ ?].
  - intros it p ps [[_ Hps]%Forall_cons ->]. cbn. split_and!; auto. by apply iter_Next_records.
  - intros it ps [_ Hit]. destruct ps as [|p ps]; cbn in *; [lia|]. subst. cbn.
    pose proof (records_length ps). lia.
Defined.

(** ** The builder *)

(** [append([]byte(nil), v...)]: the copy of a nil or an empty slice is nil. *)
Definition copy_bytes (v : option bytes) : option bytes :=
  match v with Some [] => None | v => v end.

Definition NewSSTableBuilder : list KVPair := [].

Definition Append (b : list KVPair) (key : bytes) (value : option bytes) : list KVPair :=
  match last b with
  | Some p =>
      if Equal (Key p) key then take (length b - 1) b ++ [mkKV (Key p) (copy_bytes value)]
      else b ++ [mkKV key (copy_bytes value)]
  | None => b ++ [mkKV key (copy_bytes value)]
  end.

(** ** The merge *)

Record mergeItem (I : Type) := mkItem { iter : I; fileID : Z }.
Arguments mkItem {I} _ _.
Arguments iter {I} _.
Arguments fileID {I} _.

Section Merge.
Context {I : Type} `{Iterator I}.

(** Smaller keys first; among equal keys, the larger [fileID] first. *)
Definition Less (a b : mergeItem I) : bool :=
  match Compare (IterKey (iter a)) (IterKey (iter b)) with
  | Lt => true
  | Gt => false
  | Eq => (fileID b <? fileID a)%Z
  end.

(** The valid iterators are pushed with their position, from 1, as [fileID]. *)
Fixpoint push_iters (idx : Z) (its : list (option I)) (h : list (mergeItem I)) : list (mergeItem I) :=
  match its with
  | [] => h
  | Some it :: its =>
      if Valid it then push_iters (idx + 1) its (heap_Push Less h (mkItem it (u64 (idx + 1))))
      else push_iters (idx + 1) its h
  | None :: its => push_iters (idx + 1) its h
  end.

Fixpoint merge_loop (fuel : nat) (h : list (mergeItem I)) (lastKey : bytes) (b : list KVPair) : list KVPair :=
  match fuel with
  | O => b
  | S fuel =>
      match heap_Pop Less h with
      | None => b
      | Some (item, h) =>
          let k := IterKey (iter item) in
          let v := copy_bytes (IterValue (iter item)) in
          let emit := match lastKey with [] => true | _ => negb (Equal lastKey k) end in
          let b' := if emit then Append b k v else b in
          let lastKey' := if emit then k else lastKey in
          let it := Next (iter item) in
          let h' := if Valid it then heap_Push Less h (mkItem it (fileID item)) else h in
          merge_loop fuel h' lastKey' b'
      end
  end.

Definition merge_fuel (its : list (option I)) : nat :=
  S (sum_list_with (fun o => match o with Some it => Remaining it | None => O end) its).

Definition doMerge (its : list (option I)) : list KVPair :=
  merge_loop (merge_fuel its) (push_iters 0 its []) [] NewSSTableBuilder.
End Merge.

(** ** The heap order *)

Section Order.
Context {I : Type} `{Iterator I}.

Lemma Less_hle (a b : mergeItem I) : Less a b = true -> hle Less a b.
Proof.
  unfold hle, Less. rewrite (Compare_antisym (IterKey (iter a))).
  destruct (Compare (IterKey (iter a)) _); simpl; try done.
  intros H1. apply Z.ltb_lt in H1. apply Z.ltb_ge. lia.
Qed.

Lemma hle_spec (a b : mergeItem I) :
  hle Less a b <-> blt (IterKey (iter a)) (IterKey (iter b)) \/
    IterKey (iter a) = IterKey (iter b) /\ (fileID b <= fileID a)%Z.
Proof.
  unfold hle, Less, blt. rewrite (Compare_antisym (IterKey (iter a)) (IterKey (iter b))).
  destruct (Compare (IterKey (iter a)) (IterKey (iter b))) eqn:Hc; simpl.
  - apply Compare_eq in Hc. rewrite Z.ltb_ge. naive_solver.
  - naive_solver.
  - split; [done|]. intros [?|[Heq _]]; [done|]. rewrite Heq, Compare_refl in Hc. done.
Qed.

Lemma hle_trans_Less (a b c : mergeItem I) : hle Less a b -> hle Less b c -> hle Less a c.
Proof.
  rewrite !hle_spec. intros [H1|[-> ?]] [H2|[H2 ?]].
  - left. by eapply blt_trans.
  - left. by rewrite <- H2.
  - by left.
  - right. split; [done|lia].
Qed.
End Order.

(** ** Lookup in a list of runs, oldest first *)

(** The newest run that has the key decides. *)
Fixpoint newest (rs : list (list KVPair)) (key : bytes) : option (option bytes) :=
  match rs with
  | [] => None
  | ps :: rs => match newest rs key with Some v => Some v | None => run_lookup ps key end
  end.

(** The oldest run that has the key decides. *)
Fixpoint oldest (rs : list (list KVPair)) (key : bytes) : option (option bytes) :=
  match rs with
  | [] => None
  | ps :: rs => match run_lookup ps key with Some v => Some v | None => oldest rs key end
  end.

(** The merge prefers the newest version of every key, except that the last
    version seen of the empty key, the oldest one, overwrites the others. *)
Definition merge_spec (rs : list (list KVPair)) (key : bytes) : option (option bytes) :=
  copy_bytes <$> (if decide (key = []) then oldest rs key else newest rs key).

(** ** The builder's entries *)

Lemma run_sorted_last_le b p :
  run_sorted b -> p ∈ b -> Key p = last_key b \/ blt (Key p) (last_key b).
Proof.
  intros Hs Hp. destruct b as [|q b _] using rev_ind; [by apply not_elem_of_nil in Hp|].
  unfold last_key. rewrite last_snoc. apply run_sorted_app in Hs as (_ & _ & Hlt).
  apply elem_of_app in Hp as [Hp| ->%list_elem_of_singleton]; [right|by left].
  apply Hlt; [done|by left].
Qed.

(** Appending a key not below the last one: the entry is the last, and replaces
    the last when the keys are equal. *)
Lemma Append_spec b k v :
  run_sorted b -> (b <> [] -> ~ blt k (last_key b)) ->
  run_sorted (Append b k v) /\ last_key (Append b k v) = k /\ Append b k v <> [] /\
  forall key, run_lookup (Append b k v) key =
    if decide (key = k) then Some (copy_bytes v) else run_lookup b key.
Proof.
  intros Hs Hlast. unfold Append.
  destruct b as [|q b _] using rev_ind; simpl.
  { split_and!; [by repeat constructor|done|done|]. intros key. simpl.
    destruct (decide (k = key)), (decide (key = k)); congruence. }
  rewrite last_snoc. unfold last_key in Hlast. rewrite last_snoc in Hlast.
  specialize (Hlast ltac:(by destruct b)).
  pose proof Hs as (Hsb & _ & Hlt)%run_sorted_app.
  destruct (Equal (Key q) k) eqn:Hq.
  - apply Equal_true in Hq as <-.
    rewrite length_app; simpl. rewrite Nat.add_sub, take_app_length.
    split_and!; [by apply (run_sorted_update _ _ Hs b q [])|unfold last_key; by rewrite last_snoc|by destruct b|].
    intros key. rewrite !run_lookup_app. simpl.
    repeat case_decide; subst; try done; try (by case_match).
    rewrite (proj2 (run_lookup_None b (Key q))); [done|].
    apply Forall_forall. intros p Hp. apply blt_ne, Hlt; [done|by left].
  - apply Equal_false in Hq.
    assert (Hqk : blt (Key q) k) by (by destruct (not_blt k (Key q) Hlast)).
    assert (Hall : forall p, p ∈ b ++ [q] -> blt (Key p) k).
    { intros p Hp. destruct (run_sorted_last_le _ p Hs Hp) as [Heq|Hlt'];
        unfold last_key in *; rewrite last_snoc in *; [by rewrite Heq|by eapply blt_trans]. }
    split_and!; [|unfold last_key; by rewrite last_snoc|by destruct b|].
    + apply run_sorted_app. split_and!; [done|by repeat constructor|].
      intros p p' Hp ->%list_elem_of_singleton. by apply Hall.
    + intros key. rewrite (run_lookup_app (b ++ [q])). simpl. case_decide; subst.
      * rewrite decide_True, (proj2 (run_lookup_None (b ++ [q]) key)); [done| |done].
        apply Forall_forall. intros p Hp. by apply blt_ne, Hall.
      * rewrite (decide_False (P := key = k)) by congruence. by case_match.
Qed.

(** ** Removing the popped head of a run *)

Section Pop.
Context (rs : list (list KVPair)) (i : nat) (p : KVPair) (tl : list KVPair).
Context (Hi : rs !! i = Some (p :: tl)).

Lemma newest_pop_ne key : key <> Key p -> newest (<[i := tl]> rs) key = newest rs key.
Proof using Hi.
  revert i Hi. induction rs as [|ps rs' IH]; intros [|j] Hj Hne; simpl in *; [done..| |].
  - simplify_eq. simpl. by rewrite decide_False by congruence.
  - by rewrite IH.
Qed.

Lemma oldest_pop_ne key : key <> Key p -> oldest (<[i := tl]> rs) key = oldest rs key.
Proof using Hi.
  revert i Hi. induction rs as [|ps rs' IH]; intros [|j] Hj Hne; simpl in *; [done..| |].
  - simplify_eq. simpl. by rewrite decide_False by congruence.
  - by rewrite IH.
Qed.

End Pop.

Lemma none_lookup rs key :
  (forall j ps, rs !! j = Some ps -> run_lookup ps key = None) ->
  newest rs key = None /\ oldest rs key = None.
Proof.
  induction rs as [|ps rs IH]; intros Hn; simpl; [done|].
  destruct IH as [-> ->]; [intros j qs Hj; by apply (Hn (S j))|]. by rewrite (Hn 0%nat ps).
Qed.

(** When no run after the popped one has its key, the popped value is the newest
    version, and the oldest one unless another run still has the key. *)
Lemma pop_lookup rs i p tl :
  rs !! i = Some (p :: tl) -> run_lookup tl (Key p) = None ->
  (forall j ps, rs !! j = Some ps -> run_lookup ps (Key p) <> None -> (j <= i)%nat) ->
  newest rs (Key p) = Some (Value p) /\
  oldest rs (Key p) =
    match oldest (<[i := tl]> rs) (Key p) with Some v => Some v | None => Some (Value p) end.
Proof.
  intros Hi Htl. revert i Hi. induction rs as [|ps rs IH]; intros [|j] Hj Hm; simpl in *; [done..| |].
  - simplify_eq. simpl. rewrite decide_True, Htl by done.
    destruct (none_lookup rs (Key p)) as [-> ->]; [|done].
    intros j ps Hps. destruct (run_lookup ps (Key p)) eqn:H; [|done].
    specialize (Hm (S j) ps Hps). rewrite H in Hm. specialize (Hm ltac:(done)). lia.
  - destruct (IH j Hj) as [-> ->].
    { intros j' ps' ??. apply le_S_n. by apply (Hm (S j') ps'). }
    split; [done|]. by destruct (run_lookup ps (Key p)).
Qed.

(** ** The loop *)

Section Loop.
Context {I : Type} `{Iterator I, !IteratorLaws I}.

(** The heap holds one iterator per run that is not exhausted; its [fileID] is
    the position of the run. *)
Record pending (h : list (mergeItem I)) (rs : list (list KVPair)) : Prop := {
  pending_run item : item ∈ h -> exists i p ps,
    rs !! i = Some (p :: ps) /\ fileID item = Z.of_nat (S i) /\ enumerates (iter item) (p :: ps);
  pending_item i p ps : rs !! i = Some (p :: ps) ->
    exists item, item ∈ h /\ fileID item = Z.of_nat (S i);
  pending_nodup : NoDup (fileID <$> h)
}.

Definition total (rs : list (list KVPair)) : nat := sum_list_with length rs.

Lemma total_pop rs i p tl : rs !! i = Some (p :: tl) -> total rs = S (total (<[i := tl]> rs)).
Proof.
  unfold total. revert i. induction rs as [|ps rs IH]; intros [|i] Hi; simpl in *; [done..| |].
  - by simplify_eq.
  - rewrite (IH i) by done. lia.
Qed.

#[export] Instance pending_proper : Proper (Permutation ==> eq ==> iff) pending.
Proof.
  intros h h' Hh rs ? <-. split; intros [H1 H2 H3]; split.
  all: try (intros item Hitem; apply H1; by rewrite ?Hh, <- ?Hh in * ).
  all: try (intros i p ps Hi; destruct (H2 i p ps Hi) as (item & ? & ?); exists item; by rewrite ?Hh, <- ?Hh in * ).
  all: by rewrite ?Hh, <- ?Hh in *.
Qed.

(** After a pop, the run moves on and its iterator is pushed while valid. *)
Lemma pending_pop item h rs i p tl :
  pending (item :: h) rs ->
  rs !! i = Some (p :: tl) -> fileID item = Z.of_nat (S i) -> enumerates (iter item) (p :: tl) ->
  let it := Next (iter item) in
  pending (if Valid it then mkItem it (fileID item) :: h else h) (<[i := tl]> rs).
Proof.
  intros [H1 H2 H3] Hi Hid Hen it. rewrite fmap_cons in H3. apply NoDup_cons in H3 as [Hnin Hnd].
  apply enumerates_cons in Hen as (_ & _ & _ & Hnext). fold it in Hnext.
  assert (Hother : forall item', item' ∈ h -> exists j q qs, j <> i /\
    rs !! j = Some (q :: qs) /\ fileID item' = Z.of_nat (S j) /\ enumerates (iter item') (q :: qs)).
  { intros item' Hin. destruct (H1 item') as (j & q & qs & ? & Hj & ?); [by right|].
    exists j, q, qs. split_and!; try done. intros ->. apply Hnin, list_elem_of_fmap.
    exists item'. split; [congruence|done]. }
  assert (Hvalid : if Valid it then exists q qs, tl = q :: qs else tl = []).
  { destruct tl as [|q qs]; [by rewrite (enumerates_nil it Hnext)|].
    apply enumerates_cons in Hnext as (-> & _). eauto. }
  split.
  - intros item' Hin.
    assert (item' ∈ h \/ item' = mkItem it (fileID item) /\ Valid it = true) as [Hin'|[-> Hv]].
    { destruct (Valid it); [|by left]. apply elem_of_cons in Hin as [->|]; auto. }
    + destruct (Hother _ Hin') as (j & q & qs & Hne & Hj & ? & ?).
      exists j, q, qs. by rewrite list_lookup_insert_ne.
    + rewrite Hv in Hvalid. destruct Hvalid as (q & qs & ->). exists i, q, qs.
      rewrite list_lookup_insert_eq by (by eapply lookup_lt_Some). done.
  - intros j q qs Hj. destruct (decide (i = j)) as [<-|Hne].
    + rewrite list_lookup_insert_eq in Hj by (by eapply lookup_lt_Some). simplify_eq.
      destruct (Valid it); [|done]. exists (mkItem it (fileID item)). split; [by left|done].
    + rewrite list_lookup_insert_ne in Hj by done.
      destruct (H2 j q qs Hj) as (item' & Hin & Hj'). apply elem_of_cons in Hin as [->|Hin].
      { rewrite Hid in Hj'. lia. }
      exists item'. split; [|done]. destruct (Valid it); [by right|done].
  - destruct (Valid it); [|done]. rewrite fmap_cons. by apply NoDup_cons.
Qed.

(** What the builder will hold for a key once the pending runs are merged. *)
Definition merged (b : list KVPair) (rs : list (list KVPair)) (key : bytes) : option (option bytes) :=
  if decide (key = []) then
    match oldest rs key with Some v => Some (copy_bytes v) | None => run_lookup b key end
  else
    match run_lookup b key with Some v => Some v | None => copy_bytes <$> newest rs key end.

(** The builder is sorted, [lastKey] is its last key, and no pending key is
    below it. *)
Record builder_inv (b : list KVPair) (lastKey : bytes) (rs : list (list KVPair)) : Prop := {
  builder_sorted : run_sorted b;
  builder_last : lastKey = last_key b;
  builder_below ps q : b <> [] -> ps ∈ rs -> q ∈ ps -> ~ blt (Key q) lastKey
}.

(** The popped pair is least: no pending key is below it, and no later run has
    its key. *)
Lemma pop_least item h h' rs i p tl :
  pending h rs -> Forall run_sorted rs ->
  Forall (hle Less item) h -> h ≡ₚ item :: h' ->
  rs !! i = Some (p :: tl) -> fileID item = Z.of_nat (S i) -> IterKey (iter item) = Key p ->
  (forall ps q, ps ∈ rs -> q ∈ ps -> ~ blt (Key q) (Key p)) /\
  (forall j ps, rs !! j = Some ps -> run_lookup ps (Key p) <> None -> (j <= i)%nat).
Proof.
  intros [H1 H2 H3] Hs Hle Hperm Hi Hid Hkey. rewrite Forall_forall in Hle.
  assert (Hhead : forall j q qs, rs !! j = Some (q :: qs) ->
    blt (Key p) (Key q) \/ Key p = Key q /\ (j <= i)%nat).
  { intros j q qs Hj. destruct (H2 j q qs Hj) as (item' & Hin & Hj').
    specialize (Hle item' Hin). rewrite hle_spec, Hkey in Hle.
    destruct (H1 item' Hin) as (j' & q' & qs' & Hjj & Hj'' & Hen).
    assert (j' = j) as -> by lia. simplify_eq.
    apply enumerates_cons in Hen as (_ & Hk & _). rewrite Hk in Hle.
    destruct Hle as [?|[? ?]]; [by left|right]. split; [done|lia]. }
  assert (Hrun : forall j ps q, rs !! j = Some ps -> q ∈ ps ->
    blt (Key p) (Key q) \/ Key p = Key q /\ (j <= i)%nat).
  { intros j ps q Hj Hq. destruct ps as [|q0 qs]; [by apply not_elem_of_nil in Hq|].
    specialize (Hhead j q0 qs Hj). apply elem_of_cons in Hq as [->|Hq]; [done|].
    assert (run_sorted (q0 :: qs)) as [_ Hall]%run_sorted_cons
      by (by apply (Forall_lookup_1 _ _ _ _ Hs Hj)).
    rewrite Forall_forall in Hall. specialize (Hall q Hq). unfold pair_lt in Hall.
    left. destruct Hhead as [?|[-> _]]; [by eapply blt_trans|done]. }
  split.
  - intros ps q [j Hj]%list_elem_of_lookup Hq Hlt.
    destruct (Hrun j ps q Hj Hq) as [Hlt'|[Heq _]].
    + by apply (blt_irrefl (Key p)), (blt_trans _ (Key q)).
    + rewrite Heq in Hlt. by apply blt_irrefl in Hlt.
  - intros j ps Hj Hl. destruct (run_lookup ps (Key p)) as [v|] eqn:Hv; [|done].
    apply run_lookup_elem in Hv. destruct (Hrun j ps _ Hj Hv) as [Hlt|[_ ?]]; [|done].
    by apply blt_irrefl in Hlt.
Qed.

(** One turn on the builder's side. *)
Lemma builder_turn b lastKey rs i p tl :
  builder_inv b lastKey rs -> Forall run_sorted rs -> rs !! i = Some (p :: tl) ->
  (forall ps q, ps ∈ rs -> q ∈ ps -> ~ blt (Key q) (Key p)) ->
  (forall j ps, rs !! j = Some ps -> run_lookup ps (Key p) <> None -> (j <= i)%nat) ->
  let emit := match lastKey with [] => true | _ => negb (Equal lastKey (Key p)) end in
  let b' := if emit then Append b (Key p) (copy_bytes (Value p)) else b in
  let lastKey' := if emit then Key p else lastKey in
  builder_inv b' lastKey' (<[i := tl]> rs) /\
  forall key, merged b' (<[i := tl]> rs) key = merged b rs key.
Proof.
  intros [Hs Hl Hb] Hrs Hi Hleast Hmax emit b' lastKey'.
  assert (Hp : p ∈ p :: tl) by (by left).
  assert (Hin : p :: tl ∈ rs) by (by eapply list_elem_of_lookup_2).
  assert (Hsub : forall ps q, ps ∈ <[i := tl]> rs -> q ∈ ps -> exists ps', ps' ∈ rs /\ q ∈ ps').
  { intros ps q [j Hj]%list_elem_of_lookup Hq. destruct (decide (i = j)) as [<-|].
    - rewrite list_lookup_insert_eq in Hj by (by eapply lookup_lt_Some). simplify_eq.
      exists (p :: ps). split; [done|by right].
    - rewrite list_lookup_insert_ne in Hj by done. exists ps. split; [by eapply list_elem_of_lookup_2|done]. }
  assert (Htl : run_lookup tl (Key p) = None).
  { assert (run_sorted (p :: tl)) as [_ Hall]%run_sorted_cons by (by apply (Forall_lookup_1 _ _ _ _ Hrs Hi)).
    apply (run_lookup_above (Key p)). done. }
  destruct (pop_lookup rs i p tl Hi Htl Hmax) as [Hnew Hold].
  pose proof (newest_pop_ne rs i p tl Hi) as Hnne. pose proof (oldest_pop_ne rs i p tl Hi) as Hone.
  assert (Hcc : forall v, copy_bytes (copy_bytes v) = copy_bytes v) by (intros [[]|]; done).
  destruct emit eqn:Hemit; unfold b', lastKey'; clear b' lastKey'.
  - assert (Hlast : b <> [] -> ~ blt (Key p) (last_key b)).
    { rewrite <- Hl. intros Hne. by apply (Hb (p :: tl)). }
    destruct (Append_spec b (Key p) (copy_bytes (Value p)) Hs Hlast) as (Hs' & Hl' & Hne' & Hlk).
    split; [split; [done|by rewrite Hl'|]|].
    { intros ps q _ Hps Hq. destruct (Hsub ps q Hps Hq) as (ps' & ? & ?). by eapply Hleast. }
    intros key. unfold merged. rewrite Hlk, Hcc. destruct (decide (key = [])) as [->|Hk0].
    + destruct (decide ([] = Key p)) as [Hk|Hk].
      * rewrite <- Hk in Hold. rewrite Hold. by destruct (oldest (<[i := tl]> rs) []).
      * by rewrite Hone.
    + destruct (decide (key = Key p)) as [->|Hk]; [|by rewrite Hnne].
      rewrite Hnew. simpl.
      enough (run_lookup b (Key p) = None) as -> by done.
      apply run_lookup_None, Forall_forall. intros q Hq Heq.
      assert (Hne : b <> []) by (by intros ->; apply not_elem_of_nil in Hq).
      assert (Key p = last_key b) as Hkl.
      { destruct (run_sorted_last_le b q Hs Hq) as [?|Hlt]; [congruence|].
        rewrite Heq in Hlt. by destruct (Hlast Hne). }
      assert (Hlp : lastKey = Key p) by congruence. unfold emit in Hemit. rewrite Hlp in Hemit.
      destruct (Key p) as [|c kp]; [done|].
      by rewrite (proj2 (Equal_true (c :: kp) _) eq_refl) in Hemit.
  - unfold emit in Hemit. destruct lastKey as [|c lk] eqn:Hlk0; [done|]. rewrite <- Hlk0 in *.
    apply negb_false_iff, Equal_true in Hemit.
    assert (Hne : b <> []) by (intros ->; subst; done).
    split.
    + split; [done|done|]. intros ps q _ Hps Hq.
      destruct (Hsub ps q Hps Hq) as (ps' & ? & ?). by eapply Hb.
    + intros key. unfold merged. destruct (decide (key = [])) as [->|Hk0].
      * rewrite Hone; [done|]. rewrite <- Hemit, Hlk0. done.
      * destruct (decide (key = Key p)) as [->|Hk]; [|by rewrite Hnne].
        destruct (last b) as [q|] eqn:Hlq; [|by apply last_None in Hlq].
        assert (Key q = Key p) as Hqp by (rewrite <- Hemit, Hl; unfold last_key; by rewrite Hlq).
        apply last_key_elem in Hlq. apply (run_lookup_sorted b q Hs) in Hlq.
        rewrite Hqp in Hlq. by rewrite Hlq.
Qed.
Lemma pending_empty h rs : pending h rs -> (h = [] <-> total rs = 0%nat).
Proof.
  intros [H1 H2 _]. split.
  - intros ->. assert (Hall : forall i ps, rs !! i = Some ps -> ps = []).
    { intros i [|p ps] Hi; [done|]. destruct (H2 i p ps Hi) as (? & Hin & _).
      by apply not_elem_of_nil in Hin. }
    clear H1 H2. unfold total. induction rs as [|ps rs IH]; simpl; [done|].
    rewrite (Hall 0%nat ps), IH; [done| |done]. intros i. apply (Hall (S i)).
  - intros Ht. destruct h as [|item h]; [done|].
    destruct (H1 item) as (i & p & ps & Hi & _); [by left|].
    by rewrite (total_pop rs i p ps Hi) in Ht.
Qed.

Lemma merge_loop_spec fuel h rs lastKey b :
  is_heap Less h -> pending h rs -> Forall run_sorted rs -> (total rs < fuel)%nat ->
  builder_inv b lastKey rs ->
  let out := merge_loop fuel h lastKey b in
  run_sorted out /\ forall key, run_lookup out key = merged b rs key.
Proof.
  revert h rs lastKey b. induction fuel as [|fuel IH]; intros h rs lastKey b Hh Hp Hs Hf Hb; [lia|].
  cbn [merge_loop]. destruct (decide (h = [])) as [->|Hne].
  { simpl. split; [apply Hb|]. apply pending_empty in Hp as [Hp _]. specialize (Hp eq_refl).
    intros key. unfold merged. destruct (none_lookup rs key) as [-> ->].
    - intros j ps Hj. destruct ps as [|p ps]; [done|]. by rewrite (total_pop rs j p ps Hj) in Hp.
    - case_decide; [done|]. by case_match. }
  destruct (heap_Pop_spec Less hle_trans_Less Less_hle h Hh Hne) as (item & h' & -> & Hperm & Hh' & Hle).
  destruct (pending_run _ _ Hp item) as (i & p & tl & Hi & Hid & Hen); [rewrite Hperm; by left|].
  pose proof Hen as (_ & Hkey & Hval & _)%enumerates_cons.
  destruct (pop_least item h h' rs i p tl Hp Hs Hle Hperm Hi Hid Hkey) as [Hleast Hmax].
  destruct (builder_turn b lastKey rs i p tl Hb Hs Hi Hleast Hmax) as [Hb' Hm].
  rewrite Hkey, Hval. cbv zeta in Hb', Hm |- *.
  rewrite Hperm in Hp. pose proof (pending_pop item h' rs i p tl Hp Hi Hid Hen) as Hp'.
  cbv zeta in Hp'.
  edestruct (IH (if Valid (Next (iter item)) then heap_Push Less h' (mkItem (Next (iter item)) (fileID item)) else h')
    (<[i := tl]> rs)) as [Hso Hlk].
  - destruct (Valid _); [by apply (heap_Push_heap Less hle_trans_Less Less_hle)|done].
  - destruct (Valid _); [by rewrite heap_Push_Permutation|done].
  - apply Forall_insert; [done|].
    pose proof (Forall_lookup_1 _ _ _ _ Hs Hi) as Hpt. by apply run_sorted_cons in Hpt as [? _].
  - rewrite (total_pop rs i p tl Hi) in Hf. lia.
  - exact Hb'.
  - split; [exact Hso|]. intros key. rewrite Hlk. apply Hm.
Qed.

(** *** Building the heap *)

(** [None] and exhausted iterators are not pushed. *)
Definition run_of (o : option I) (ps : list KVPair) : Prop :=
  match o with None => ps = [] | Some it => enumerates it ps end.

Lemma push_iters_spec its rs done_ h :
  is_heap Less h -> pending h done_ -> Forall2 run_of its rs ->
  (Z.of_nat (length done_ + length its) < 2 ^ 64)%Z ->
  let h' := push_iters (Z.of_nat (length done_)) its h in
  is_heap Less h' /\ pending h' (done_ ++ rs).
Proof.
  intros Hh Hp Hits. revert done_ h Hh Hp.
  induction Hits as [|o ps its rs Ho _ IH]; intros done_ h Hh Hp Hlen.
  { rewrite app_nil_r. done. }
  assert (Hsnoc : forall ps' h', is_heap Less h' -> pending h' (done_ ++ [ps']) ->
    let h'' := push_iters (Z.of_nat (length done_) + 1) its h' in
    is_heap Less h'' /\ pending h'' (done_ ++ ps' :: rs)).
  { intros ps' h' Hh' Hp'. specialize (IH (done_ ++ [ps']) h' Hh' Hp').
    rewrite length_app, <- app_assoc in IH. simpl in *.
    replace (Z.of_nat (length done_ + 1)) with (Z.of_nat (length done_) + 1)%Z in IH by lia.
    apply IH. lia. }
  assert (Hnil : pending h (done_ ++ [[]])).
  { destruct Hp as [H1 H2 H3]. split; [| |done].
    - intros item Hin. destruct (H1 item Hin) as (i & p & qs & Hi & ?). exists i, p, qs.
      by rewrite (lookup_app_l_Some _ _ _ _ Hi).
    - intros i p qs Hi. apply (H2 i p qs). apply lookup_app_Some in Hi as [?|[_ Hi]]; [done|].
      destruct (i - length done_)%nat; done. }
  cbn [push_iters]. destruct o as [it|]; simpl in Ho; [|by subst; apply Hsnoc].
  destruct ps as [|p ps].
  { rewrite (enumerates_nil it Ho). by apply Hsnoc. }
  pose proof Ho as (Hv & _)%enumerates_cons. rewrite Hv.
  simpl in Hlen. rewrite u64_small by lia.
  apply Hsnoc; [by apply (heap_Push_heap Less hle_trans_Less Less_hle)|].
  rewrite heap_Push_Permutation. destruct Hp as [H1 H2 H3].
  assert (Hids : forall item, item ∈ h -> (fileID item <= Z.of_nat (length done_))%Z).
  { intros item Hin. destruct (H1 item Hin) as (i & q & qs & Hi & -> & _).
    apply lookup_lt_Some in Hi. lia. }
  split.
  - intros item [->|Hin]%elem_of_cons.
    + exists (length done_), p, ps. rewrite lookup_app_r, Nat.sub_diag by done. simpl. split_and!; [done|lia|done].
    + destruct (H1 item Hin) as (i & q & qs & Hi & ?). exists i, q, qs.
      by rewrite (lookup_app_l_Some _ _ _ _ Hi).
  - intros i q qs Hi. apply lookup_app_Some in Hi as [Hi|[Hge Hi]].
    + destruct (H2 i q qs Hi) as (item & ? & ?). exists item. split; [by right|done].
    + destruct (i - length done_)%nat as [|j] eqn:Hij; [|done].
      eexists. split; [by left|]. simpl. lia.
  - rewrite fmap_cons. apply NoDup_cons. split; [|done]. simpl.
    intros (item & Heq & Hin)%list_elem_of_fmap. specialize (Hids item Hin). lia.
Qed.

Lemma merge_fuel_total its rs : Forall2 run_of its rs -> (total rs < merge_fuel its)%nat.
Proof.
  unfold merge_fuel, total. induction 1 as [|o ps its rs Ho _ IH]; simpl; [lia|].
  destruct o as [it|]; simpl in Ho; [apply enumerates_remaining in Ho|subst; simpl]; lia.
Qed.

(** The merge of sorted runs: a sorted run with the newest version of each key,
    up to the normalisation of values and the treatment of the empty key. *)
Lemma doMerge_spec its rs :
  Forall2 run_of its rs -> Forall run_sorted rs -> (Z.of_nat (length its) < 2 ^ 64)%Z ->
  run_sorted (doMerge its) /\ forall key, run_lookup (doMerge its) key = merge_spec rs key.
Proof.
  intros Hits Hs Hlen. destruct (push_iters_spec its rs [] []) as [Hh Hp]; auto.
  { intros c x y Hc. simpl in Hc. lia. }
  { split; [by intros item ?%not_elem_of_nil|done|constructor]. }
  destruct (merge_loop_spec (merge_fuel its) (push_iters 0 its []) rs [] [])
    as [Hso Hlk]; auto using merge_fuel_total.
  { split; [constructor|done|done]. }
  split; [done|]. intros key. unfold doMerge. rewrite Hlk. unfold merged, merge_spec.
  case_decide; [by destruct (oldest rs key)|done].
Qed.
End Loop.
