(* ===== verification/Metrics.v ===== *)
(** * Engine counters (internal/lsm/metrics.go)

    Atomic 64-bit counters. [updateAtomicMax] is a compare-and-swap loop; with
    the counter read and swapped in one step it is a maximum. *)
From S2P Require Export Bytes.

Record dbMetrics := mkMetrics {
  getTotal : Z;
  getSSTableFilesTouchedTotal : Z;
  getSSTableFilesTouchedMax : Z;
  compactionTotal : Z;
  compactionInputFilesTotal : Z;
  compactionOutputFilesTotal : Z;
  compactionTotalNS : Z;
  compactionMaxNS : Z;
  compactionLastNS : Z;
  compactionFailedTotal : Z
}.

Definition zeroMetrics : dbMetrics := mkMetrics 0 0 0 0 0 0 0 0 0 0.

(** [atomic.Uint64.Add] wraps around. *)
Definition atomic_add (c d : Z) : Z := u64 (c + d).

Definition updateAtomicMax (counter value : Z) : Z :=
  if (value <=? counter)%Z then counter else value.

Definition recordGetSSTableTouches (m : dbMetrics) (touched : Z) : dbMetrics :=
  mkMetrics (atomic_add (getTotal m) 1)
    (atomic_add (getSSTableFilesTouchedTotal m) (u64 touched))
    (updateAtomicMax (getSSTableFilesTouchedMax m) (u64 touched))
    (compactionTotal m) (compactionInputFilesTotal m) (compactionOutputFilesTotal m)
    (compactionTotalNS m) (compactionMaxNS m) (compactionLastNS m) (compactionFailedTotal m).

Definition recordCompaction (m : dbMetrics) (inputFiles outputFiles elapsed : Z) (failed : bool) : dbMetrics :=
  if failed then
    mkMetrics (getTotal m) (getSSTableFilesTouchedTotal m) (getSSTableFilesTouchedMax m)
      (compactionTotal m) (compactionInputFilesTotal m) (compactionOutputFilesTotal m)
      (compactionTotalNS m) (compactionMaxNS m) (compactionLastNS m)
      (atomic_add (compactionFailedTotal m) 1)
  else
    let elapsedNS := u64 elapsed in
    mkMetrics (getTotal m) (getSSTableFilesTouchedTotal m) (getSSTableFilesTouchedMax m)
      (atomic_add (compactionTotal m) 1)
      (atomic_add (compactionInputFilesTotal m) (u64 inputFiles))
      (atomic_add (compactionOutputFilesTotal m) (u64 outputFiles))
      (atomic_add (compactionTotalNS m) elapsedNS)
      (updateAtomicMax (compactionMaxNS m) elapsedNS)
      elapsedNS
      (compactionFailedTotal m).
