(* ===== verification/Float64.v ===== *)
(** * Go's float64

    IEEE 754 double precision with rounding to nearest even, by the executable
    specification of the Standard Library.  The program uses it in its reports
    only. *)
From Stdlib Require Export Floats.SpecFloat.
From S2P Require Export Bytes.

Abbreviation float64 := spec_float.

Definition f64_prec : Z := 53.
Definition f64_emax : Z := 1024.

(** Conversion of an integer. *)
Definition f64 (n : Z) : float64 := binary_normalize f64_prec f64_emax n 0 false.

Definition f64_add (x y : float64) : float64 := SFadd f64_prec f64_emax x y.
Definition f64_div (x y : float64) : float64 := SFdiv f64_prec f64_emax x y.

(** [x > y], false on NaN. *)
Definition f64_gt (x y : float64) : bool := SFltb y x.

(** [float64(time.Millisecond)], in nanoseconds. *)
Definition f64_ms : float64 := f64 1000000.

Example f64_1500us : f64_div (f64 1500000) f64_ms = f64_div (f64 3) (f64 2).
Proof. vm_compute. reflexivity. Qed.
