(* ===== verification/Engine.v ===== *)
(** * The storage engine: state, writes, reads and flushes
    (internal/lsm/kvstore.go and the flush half of kvstore_compaction.go)

    The engine's state is threaded through its operations; a background goroutine
    that an operation starts ([go db.flush(...)]) is returned to the caller as a
    task, to be run whenever the scheduler likes. *)
From S2P Require Export Wal Merge Metrics.

Record DB := mkDB {
  memTable : MemTable;
  immTable : option MemTable;
  sstables : list SSTableMeta;
  nextFileID : Z;
  wal : option WAL;
  nextwal : option WAL;
  walNotify : bool;
  walFileID : Z;
  compactionThreshold : Z;
  compactionInterval : Z;
  enableCompaction : bool;
  metrics : dbMetrics
}.

(** Field updates. *)
Definition set_mem db m := mkDB m (immTable db) (sstables db) (nextFileID db) (wal db) (nextwal db)
  (walNotify db) (walFileID db) (compactionThreshold db) (compactionInterval db) (enableCompaction db) (metrics db).
Definition set_imm db i := mkDB (memTable db) i (sstables db) (nextFileID db) (wal db) (nextwal db)
  (walNotify db) (walFileID db) (compactionThreshold db) (compactionInterval db) (enableCompaction db) (metrics db).
Definition set_sst db s := mkDB (memTable db) (immTable db) s (nextFileID db) (wal db) (nextwal db)
  (walNotify db) (walFileID db) (compactionThreshold db) (compactionInterval db) (enableCompaction db) (metrics db).
Definition set_nextID db n := mkDB (memTable db) (immTable db) (sstables db) n (wal db) (nextwal db)
  (walNotify db) (walFileID db) (compactionThreshold db) (compactionInterval db) (enableCompaction db) (metrics db).
Definition set_wals db w n := mkDB (memTable db) (immTable db) (sstables db) (nextFileID db) w n
  (walNotify db) (walFileID db) (compactionThreshold db) (compactionInterval db) (enableCompaction db) (metrics db).
Definition set_notify db b := mkDB (memTable db) (immTable db) (sstables db) (nextFileID db) (wal db) (nextwal db)
  b (walFileID db) (compactionThreshold db) (compactionInterval db) (enableCompaction db) (metrics db).
Definition set_walID db n := mkDB (memTable db) (immTable db) (sstables db) (nextFileID db) (wal db) (nextwal db)
  (walNotify db) n (compactionThreshold db) (compactionInterval db) (enableCompaction db) (metrics db).
Definition set_interval db n := mkDB (memTable db) (immTable db) (sstables db) (nextFileID db) (wal db) (nextwal db)
  (walNotify db) (walFileID db) (compactionThreshold db) n (enableCompaction db) (metrics db).
Definition set_metrics db m := mkDB (memTable db) (immTable db) (sstables db) (nextFileID db) (wal db) (nextwal db)
  (walNotify db) (walFileID db) (compactionThreshold db) (compactionInterval db) (enableCompaction db) m.

Definition wal_filename (id : Z) : bytes := Sprintf06d id ++ lit "wal.log".

(** A flush goroutine: the table to write and the log to delete afterwards. *)
Record flush_task := mkFlush { flush_imm : option MemTable; flush_wal : option WAL }.

(** ** Writes *)

(** [checkAndFlush]: when the table is full, no flush is running and the next log
    is ready, freeze the table, switch the log, ask for a new log (a send that
    never blocks), and start a flush. *)
Definition checkAndFlush (db : DB) : DB * option flush_task :=
  if (4096 <=? MemTable.size (memTable db))%Z then
    match immTable db, nextwal db with
    | Some _, _ => (db, None)
    | None, None => (db, None)
    | None, Some next =>
        let oldWal := wal db in
        let db := set_mem (set_imm db (Some (memTable db))) NewMemTable in
        let db := set_notify (set_wals db (Some next) None) true in
        (db, Some (mkFlush (immTable db) oldWal))
    end
  else (db, None).

(** [Put] and [Delete]: log first, then the table; a nil log dereference panics. *)
Definition Put (db : DB) (key val : bytes) : IO (option error * DB * option flush_task) :=
  match wal db with
  | None => panic
  | Some w =>
      err ← AppendPut w key val;
      match err with
      | Some e => mret (Some e, db, None)
      | None =>
          let '(db, task) := checkAndFlush (set_mem db (MemTable.Put (memTable db) key (Some val))) in
          mret (None, db, task)
      end
  end.

Definition Delete (db : DB) (key : bytes) : IO (option error * DB * option flush_task) :=
  match wal db with
  | None => panic
  | Some w =>
      err ← AppendDelete w key;
      match err with
      | Some e => mret (Some e, db, None)
      | None =>
          let '(db, task) := checkAndFlush (set_mem db (MemTable.Put (memTable db) key None)) in
          mret (None, db, task)
      end
  end.

Definition Len (db : DB) : Z := zlen (pairs (memTable db)).

(** One turn of [walPreAllocator] after it received the notification. An error
    is printed and the turn is over. *)
Definition walPreAllocator_turn (db : DB) : IO DB :=
  let db := set_notify db false in
  r ← OpenWAL (wal_filename (walFileID db));
  match r with
  | inr _ => mret db
  | inl w => mret (set_walID (set_wals db (wal db) (Some w)) (u64 (walFileID db + 1)))
  end.

(** ** Reads *)

(** A value as the caller sees it: a tombstone is "not found". *)
Definition visible (v : option (option bytes)) : option bytes :=
  match v with Some (Some v) => Some v | _ => None end.

(** The file list, newest first; files whose key range excludes the key are not
    opened. Returns the number of files opened and the version found. *)
Fixpoint get_sstables (metas : list SSTableMeta) (key : bytes) (touched : Z) : IO (Z * option (option bytes)) :=
  match metas with
  | [] => mret (touched, None)
  | meta :: metas =>
      if cmp_lt key (MinKey meta) || cmp_gt key (MetaMaxKey meta) then get_sstables metas key touched
      else
        r ← readValFromSSTable meta key;
        match r with
        | Some v => mret ((touched + 1)%Z, Some v)
        | None => get_sstables metas key (touched + 1)
        end
  end.

(** What [Get] reads under the read lock: a version, or the list of files. *)
Definition get_locked (db : DB) (key : bytes) : option (option bytes) + list SSTableMeta :=
  match MemTable.Get (memTable db) key with
  | Some v => inl (Some v)
  | None =>
      match immTable db with
      | Some imm =>
          match MemTable.Get imm key with
          | Some v => inl (Some v)
          | None => inr (sstables db)
          end
      | None => inr (sstables db)
      end
  end.

Definition Get (db : DB) (key : bytes) : IO (option bytes * DB) :=
  match get_locked db key with
  | inl v => mret (visible v, set_metrics db (recordGetSSTableTouches (metrics db) 0))
  | inr snapshot =>
      r ← get_sstables (reverse snapshot) key 0;
      mret (visible (snd r), set_metrics db (recordGetSSTableTouches (metrics db) (fst r)))
  end.

(** ** Flush *)

Definition reserveNextFileID (db : DB) : Z * DB :=
  (nextFileID db, set_nextID db (u64 (nextFileID db + 1))).

(** The line [persistManifest] appends: the file identifiers, comma-separated. *)
Definition manifest_line (snapshot : list SSTableMeta) : bytes :=
  Text.Join Byte.x2c ((fun m => FormatUint (FileID m)) <$> snapshot) ++ [Byte.x0a].

Definition persistManifest (snapshot : list SSTableMeta) : IO (option error) :=
  err ← os_OpenAppend ManifestFile;
  match err with
  | Some e => mret (Some e)
  | None =>
      err ← file_Write ManifestFile (manifest_line snapshot);
      match err with
      | Some e => mret (Some e)
      | None => file_Sync ManifestFile
      end
  end.

(** The part of [installFlushedTable] under the lock. *)
Definition install_locked (db : DB) (meta : SSTableMeta) : DB :=
  set_imm (set_sst db (sstables db ++ [meta])) None.

(** Its errors are only printed; the old log is deleted in any case. *)
Definition installFlushedTable (db : DB) (meta : SSTableMeta) (oldWal : option WAL) : IO DB :=
  let db := install_locked db meta in
  _ ← persistManifest (sstables db);
  match oldWal with
  | None => mret db
  | Some w => _ ← Wal.Delete w; mret db
  end.

Definition flush (db : DB) (imm : option MemTable) (oldWal : option WAL) : IO DB :=
  match imm with
  | None => mret db
  | Some imm =>
      match pairs imm, last (pairs imm) with
      | first :: _, Some lst =>
          let '(fileID, db) := reserveNextFileID db in
          r ← writeSSTableFromMem (sst_path fileID) imm;
          match r with
          | (_, _, Some _) => mret db
          | (size, index, None) =>
              installFlushedTable db (mkMeta fileID (Key first) (Key lst) size index) oldWal
          end
      | _, _ => mret db
      end
  end.

Definition run_task (db : DB) (t : option flush_task) : IO DB :=
  match t with
  | None => mret db
  | Some t => flush db (flush_imm t) (flush_wal t)
  end.


(** ** The contents of the engine

    A table is a file identifier with its run.  [table_on F t] says that the file
    of [t] holds exactly the run; [version] is what the engine knows about a key:
    the memory table first, then the frozen table, then the files from the newest
    to the oldest. *)
Abbreviation table := (Z * list KVPair)%type.

Definition meta_of (t : table) : SSTableMeta := table_meta t.1 t.2.

Record run_ok (ps : list KVPair) : Prop := {
  ok_nonempty : ps <> [];
  ok_sorted : run_sorted ps;
  ok_fits : table_fits ps
}.

Record table_on (F : files) (t : table) : Prop := {
  on_run : run_ok t.2;
  on_file : F !! sst_path t.1 = Some (sst_bytes t.2)
}.

Definition imm_lookup (i : option MemTable) (key : bytes) : option (option bytes) :=
  match i with Some m => mem_map m !! key | None => None end.

Definition version (db : DB) (tabs : list table) (key : bytes) : option (option bytes) :=
  match mem_map (memTable db) !! key with
  | Some v => Some v
  | None =>
      match imm_lookup (immTable db) key with
      | Some v => Some v
      | None => newest tabs.*2 key
      end
  end.

Definition imm_wf (i : option MemTable) : Prop :=
  match i with Some m => mem_wf m /\ pairs m <> [] | None => True end.

Record db_inv (db : DB) (F : files) (tabs : list table) : Prop := {
  inv_mem : mem_wf (memTable db);
  inv_imm : imm_wf (immTable db);
  inv_sst : sstables db = meta_of <$> tabs;
  inv_tabs : Forall (table_on F) tabs;
  inv_ids : Forall (fun t => 0 <= t.1 < nextFileID db)%Z tabs;
  inv_nodup : NoDup tabs.*1;
  inv_next : is_u64 (nextFileID db)
}.

(** *** Reads *)

Lemma newest_app rs ps key :
  newest (rs ++ [ps]) key =
  match run_lookup ps key with Some v => Some v | None => newest rs key end.
Proof.
  induction rs as [|qs rs IH]; simpl; [by destruct (run_lookup ps key)|].
  rewrite IH. by destruct (run_lookup ps key).
Qed.

(** Keys outside the range recorded in the metadata are not in the run. *)
Lemma run_lookup_range ps key :
  run_sorted ps ->
  cmp_lt key (match ps with p :: _ => Key p | [] => [] end) || cmp_gt key (last_key ps) = true ->
  run_lookup ps key = None.
Proof.
  intros Hs [H%cmp_lt_true|H%cmp_gt_true]%orb_true_iff; apply run_lookup_None.
  - destruct ps as [|p ps]; [done|]. apply run_sorted_cons in Hs as [_ Hall].
    constructor; [intros <-; by apply (blt_irrefl (Key p))|].
    eapply Forall_impl; [exact Hall|]. intros q Hq <-.
    apply (blt_irrefl (Key p)). by eapply blt_trans.
  - apply Forall_forall. intros q Hq <-. apply (blt_irrefl (Key q)).
    destruct (run_sorted_last_le ps q Hs Hq) as [Heq|Hlt]; [by rewrite <- Heq in H|by eapply blt_trans].
Qed.

(** The files that a search for [key] opens: from the newest to the oldest those whose
    key range covers it, up to the first that holds it. *)
Fixpoint up_to_first {A} (P : A -> bool) (l : list A) : list A :=
  match l with
  | [] => []
  | x :: l => x :: (if P x then [] else up_to_first P l)
  end.

Definition covers (key : bytes) (ps : list KVPair) : bool :=
  negb (cmp_lt key (match ps with p :: _ => Key p | [] => [] end)) && negb (cmp_gt key (last_key ps)).

Definition holds (key : bytes) (ps : list KVPair) : bool :=
  match run_lookup ps key with Some _ => true | None => false end.

Definition opened (key : bytes) (tabs : list table) : list (list KVPair) :=
  up_to_first (holds key) (filter (fun ps => covers key ps = true) (reverse tabs.*2)).

(** How many files a read opens; none when a table in memory has the key. *)
Definition files_touched (db : DB) (tabs : list table) (key : bytes) : Z :=
  match mem_map (memTable db) !! key, imm_lookup (immTable db) key with
  | None, None => zlen (opened key tabs)
  | _, _ => 0
  end.

Lemma opened_snoc key tabs id ps :
  opened key (tabs ++ [(id, ps)]) =
  if covers key ps then ps :: (if holds key ps then [] else opened key tabs) else opened key tabs.
Proof.
  unfold opened. rewrite fmap_app, reverse_app. change (reverse [(id, ps)].*2) with [ps]. cbn [app].
  rewrite filter_cons. by destruct (covers key ps); case_decide.
Qed.

Lemma get_sstables_wp E F tabs key n :
  ~ can_err E -> Forall (table_on F) tabs ->
  wp E (get_sstables (reverse (meta_of <$> tabs)) key n)
    (fun r G => G = F /\ fst r = (n + zlen (opened key tabs))%Z /\ snd r = newest tabs.*2 key)
    (fun G => G = F /\ can_crash E) F.
Proof.
  intros HE H. revert n. induction tabs as [|[id ps] tabs IH] using rev_ind; intros n.
  { apply wp_ret. split_and!; [done|unfold zlen; simpl; lia|done]. }
  apply Forall_app in H as [H Ht]. apply Forall_singleton in Ht as [[Hne Hs Hfit] HF]. cbn [fst snd] in Hne, Hs, Hfit, HF.
  rewrite opened_snoc, !fmap_app, reverse_app. change (reverse (meta_of <$> [(id, ps)])) with [meta_of (id, ps)].
  change ([(id, ps)].*2) with [ps]. rewrite newest_app. cbn [app get_sstables].
  unfold covers. rewrite <- negb_orb. cbn [meta_of MinKey MetaMaxKey fst snd].
  destruct (cmp_lt key _ || cmp_gt key _) eqn:Hr; cbn [negb].
  - rewrite run_lookup_range by done. by apply IH.
  - apply wp_bind. apply (read_table_pure ps); [done..| | |].
    2:{ intros k Hk. destruct HE. by exists k. }
    2:{ intros k Hk. split; [done|by exists k]. }
    unfold holds. destruct (run_lookup ps key) as [v|].
    + apply wp_ret. by split_and!.
    + eapply wp_mono; [by apply IH| |done]. intros r G (? & -> & ?). rewrite zlen_cons. split_and!; [done|lia|done].
Qed.

(** [Get] when no call fails: the visible version, from files that stay as they
    are; the number of opened files goes to the metrics. *)
Lemma Get_wp E db F tabs key :
  ~ can_err E -> db_inv db F tabs ->
  wp E (Get db key)
    (fun r G => G = F /\ fst r = visible (version db tabs key) /\
       snd r = set_metrics db (recordGetSSTableTouches (metrics db) (files_touched db tabs key)))
    (fun G => G = F /\ can_crash E) F.
Proof.
  intros HE []. unfold Get, get_locked, version, files_touched.
  rewrite Get_map by (by apply mem_sorted). destruct (mem_map (memTable db) !! key) as [v|]; [by apply wp_ret|].
  assert (Hfiles : wp E (r ← get_sstables (reverse (sstables db)) key 0;
      mret (visible (snd r), set_metrics db (recordGetSSTableTouches (metrics db) (fst r))))
    (fun r G => G = F /\ fst r = visible (newest tabs.*2 key) /\
       snd r = set_metrics db (recordGetSSTableTouches (metrics db) (zlen (opened key tabs)))) (fun G => G = F /\ can_crash E) F).
  { rewrite inv_sst0. apply wp_bind. eapply wp_mono; [by apply get_sstables_wp| |done].
    intros [n v] G (-> & Hn & Hv). simpl in Hn, Hv. subst n v. by apply wp_ret. }
  destruct (immTable db) as [imm|]; simpl; [|exact Hfiles].
  destruct inv_imm0 as [Himm _]. rewrite Get_map by (by apply mem_sorted).
  destruct (mem_map imm !! key) as [v|]; [|exact Hfiles]. by apply wp_ret.
Qed.

(** *** Writes *)

Definition op_key (o : wal_op) : bytes := match o with WPut k _ => k | WDelete k => k end.
Definition op_val (o : wal_op) : option bytes := match o with WPut _ v => Some v | WDelete _ => None end.

(** [Put] or [Delete], as one operation. *)
Definition write (db : DB) (o : wal_op) : IO (option error * DB * option flush_task) :=
  match o with WPut k v => Put db k v | WDelete k => Delete db k end.

Lemma write_unfold db o : write db o =
  match wal db with
  | None => panic
  | Some w =>
      err ← append_buf w (encode_op o);
      match err with
      | Some e => mret (Some e, db, None)
      | None =>
          let '(db, task) := checkAndFlush (set_mem db (MemTable.Put (memTable db) (op_key o) (op_val o))) in
          mret (None, db, task)
      end
  end.
Proof. by destruct o. Qed.

Lemma append_buf_wp E name buf c F :
  F !! WalFile name = Some c ->
  wp E (append_buf (mkWAL (Some name)) buf)
    (fun r G => (r = None /\ G = <[WalFile name := c ++ buf]> F) \/
       ((exists e, r = Some e) /\ torn_file (WalFile name) F c buf G /\ can_err E))
    (torn_file (WalFile name) F c buf) F.
Proof.
  intros HF. rewrite <- (insert_id F _ _ HF) at 2. unfold append_buf; cbn [wal_file].
  apply wp_Write.
  - assert (torn_file (WalFile name) F c buf (<[WalFile name := c ++ buf]> F)) by (by exists buf).
    apply wp_syscall; [by left|intros n Hn; right|done]. split_and!; [by eexists|done|by exists n].
  - intros G He HG. apply wp_ret. right. split_and!; [by eexists|done|done].
  - by intros G _ HG.
Qed.

(** A write logs the operation and then applies it; when the log refuses it, the
    engine is unchanged and the log holds a part of the record. *)
Lemma write_wp E db o name c F :
  wal db = Some (mkWAL (Some name)) -> F !! WalFile name = Some c ->
  wp E (write db o)
    (fun r G =>
       (G = <[WalFile name := c ++ encode_op o]> F /\
        r = (let '(db', task) := checkAndFlush (set_mem db (MemTable.Put (memTable db) (op_key o) (op_val o))) in
             (None, db', task))) \/
       ((exists e, r = (Some e, db, None)) /\ torn_file (WalFile name) F c (encode_op o) G /\ can_err E))
    (torn_file (WalFile name) F c (encode_op o)) F.
Proof.
  intros Hw HF. rewrite write_unfold, Hw. apply wp_bind.
  eapply wp_mono; [by apply append_buf_wp| |done].
  intros r G [[-> ->]|([e ->] & HG & He)].
  - destruct (checkAndFlush _) as [db' task] eqn:Hc. apply wp_ret. by left.
  - apply wp_ret. right. eauto.
Qed.

(** What [checkAndFlush] does: nothing, or the switch of tables and logs. *)
Lemma checkAndFlush_cases db :
  (checkAndFlush db = (db, None) /\
   ((MemTable.size (memTable db) < 4096)%Z \/ immTable db <> None \/ nextwal db = None)) \/
  (exists next, (4096 <= MemTable.size (memTable db))%Z /\ immTable db = None /\
     nextwal db = Some next /\
     checkAndFlush db =
       (set_notify (set_wals (set_mem (set_imm db (Some (memTable db))) NewMemTable) (Some next) None) true,
        Some (mkFlush (Some (memTable db)) (wal db)))).
Proof.
  unfold checkAndFlush. destruct (4096 <=? _)%Z eqn:H; bool_to_prop; [|left; auto].
  destruct (immTable db) eqn:Hi; [left; naive_solver|].
  destruct (nextwal db) eqn:Hn; [|left; auto]. right. eauto 10.
Qed.

Lemma checkAndFlush_version db tabs key : version (fst (checkAndFlush db)) tabs key = version db tabs key.
Proof.
  destruct (checkAndFlush_cases db) as [[-> _]|(next & _ & Hi & _ & ->)]; [done|].
  unfold version, imm_lookup. simpl. rewrite Hi. unfold mem_map at 1. simpl.
  by rewrite lookup_empty.
Qed.

Lemma checkAndFlush_inv db F tabs : db_inv db F tabs -> db_inv (fst (checkAndFlush db)) F tabs.
Proof.
  intros Hinv. destruct (checkAndFlush_cases db) as [[-> _]|(next & Hs & Hi & _ & ->)]; [done|].
  destruct Hinv. split; simpl; auto with go. split; [done|]. intros Hnil.
  destruct inv_mem0 as [_ Hsz]. rewrite Hnil in Hsz. simpl in Hsz. lia.
Qed.

Lemma set_mem_inv db F tabs m : db_inv db F tabs -> mem_wf m -> db_inv (set_mem db m) F tabs.
Proof. intros [] ?. by split. Qed.

(** Files that are not tables do not matter. *)
Lemma table_on_insert F t p c : table_on F t -> p <> sst_path t.1 -> table_on (<[p := c]> F) t.
Proof. intros [] ?. split; [done|]. by rewrite lookup_insert_ne. Qed.

Lemma table_on_agree F G t : table_on F t -> G !! sst_path t.1 = F !! sst_path t.1 -> table_on G t.
Proof. intros [] H. split; [done|]. by rewrite H. Qed.

Lemma inv_agree db F G tabs :
  db_inv db F tabs -> (forall id, G !! sst_path id = F !! sst_path id) -> db_inv db G tabs.
Proof.
  intros [] H. split; try done. eapply Forall_impl; [exact inv_tabs0|]. intros t ?. by eapply table_on_agree.
Qed.

(** The version of a key after an operation. *)
Definition op_version (o : wal_op) (f : bytes -> option (option bytes)) (key : bytes) : option (option bytes) :=
  if decide (key = op_key o) then Some (op_val o) else f key.

Lemma set_mem_version db tabs o key :
  mem_wf (memTable db) ->
  version (set_mem db (MemTable.Put (memTable db) (op_key o) (op_val o))) tabs key =
  op_version o (version db tabs) key.
Proof.
  intros Hwf. unfold version, op_version. simpl. rewrite Put_map by (by apply mem_sorted).
  case_decide as H; [subst; by rewrite lookup_insert_eq|by rewrite lookup_insert_ne].
Qed.

(** *** Flushes *)

(** A line that may have been appended in part to the manifest. *)
Definition torn_manifest (F : files) (line : bytes) (G : files) : Prop :=
  G = F \/ torn_file ManifestFile F (default [] (F !! ManifestFile)) line G.

Definition manifest_appended (F : files) (line : bytes) : files :=
  <[ManifestFile := default [] (F !! ManifestFile) ++ line]> F.

(** Opening for append creates the manifest when it is absent. *)
Lemma open_manifest (F : files) :
  (match F !! ManifestFile with Some _ => F | None => <[ManifestFile := []]> F end)
  = <[ManifestFile := default [] (F !! ManifestFile)]> F.
Proof. destruct (F !! ManifestFile) eqn:H; simpl; [by rewrite insert_id|done]. Qed.

Lemma persistManifest_wp E snap F :
  wp E (persistManifest snap)
    (fun r G => (r = None /\ G = manifest_appended F (manifest_line snap)) \/
       ((exists e, r = Some e) /\ torn_manifest F (manifest_line snap) G /\ can_err E))
    (torn_manifest F (manifest_line snap)) F.
Proof.
  set (c := default [] (F !! ManifestFile)).
  assert (Hbase : torn_manifest F (manifest_line snap) (<[ManifestFile := c]> F)).
  { right. exists []. split; [apply prefix_nil|by rewrite app_nil_r]. }
  unfold persistManifest. apply wp_bind, wp_syscall; rewrite ?open_manifest.
  - apply wp_Write.
    + assert (Hfull : torn_manifest F (manifest_line snap) (<[ManifestFile := c ++ manifest_line snap]> F))
        by (right; by exists (manifest_line snap)).
      apply wp_syscall; [by left|intros n Hn; right|done]. split_and!; [by eexists|done|by exists n].
    + intros G He HG. apply wp_ret. right. split_and!; [by eexists|by right|done].
    + intros G _ HG. by right.
  - intros n Hn. apply wp_ret. right. split_and!; [by eexists| |by exists n].
    destruct n; simpl; [by left|by rewrite open_manifest].
  - intros n _. destruct n; simpl; [by left|by rewrite open_manifest].
Qed.

Lemma persistManifest_no_fault snap F :
  wp no_fault (persistManifest snap)
    (fun r G => r = None /\ G = manifest_appended F (manifest_line snap)) (fun _ => False) F.
Proof.
  unfold persistManifest. apply wp_bind, wp_syscall; [|no_faults..]. rewrite open_manifest.
  apply wp_bind, wp_syscall; [|no_faults..]. rewrite append_data_insert.
  by apply wp_syscall; [|no_faults..].
Qed.

(** Deleting a log: it is gone, or, when a call failed, still there in full. *)
Lemma wal_Delete_wp E w F :
  wp E (Wal.Delete w)
    (fun _ G => G = match wal_file w with Some name => delete (WalFile name) F | None => F end \/
       ((G = F \/ exists name, wal_file w = Some name /\ G = delete (WalFile name) F) /\ can_err E))
    (fun G => G = F \/ exists name, wal_file w = Some name /\ G = delete (WalFile name) F) F.
Proof.
  unfold Wal.Delete. destruct (wal_file w) as [name|]; [|apply wp_ret; by left].
  assert (Hd : forall n, atomic_effect (delete (WalFile name)) n F = F \/
    exists name', Some name = Some name' /\ atomic_effect (delete (WalFile name)) n F = delete (WalFile name') F).
  { intros [|n]; [by left|right; by exists name]. }
  apply wp_bind, wp_syscall; [|intros n Hn; apply wp_ret; right; split; [by left|by exists n]|intros; by left].
  apply wp_bind, wp_syscall; [|intros n Hn; apply wp_ret; right; split; [by left|by exists n]|intros; by left].
  apply wp_bind, wp_syscall; [apply wp_ret; by left| |done].
  intros n Hn. apply wp_ret. right. split; [done|by exists n].
Qed.

Lemma wal_Delete_no_fault name F :
  wp no_fault (Wal.Delete (mkWAL (Some name)))
    (fun r G => r = (None, mkWAL None) /\ G = delete (WalFile name) F) (fun _ => False) F.
Proof.
  unfold Wal.Delete; cbn [wal_file].
  do 3 (apply wp_bind, wp_syscall; [|no_faults..]). by apply wp_ret.
Qed.

(** A run that becomes the next file of the engine. *)
Lemma tables_on_new F id ps tabs :
  Forall (table_on F) tabs -> Forall (fun t => 0 <= t.1 < id)%Z tabs -> is_u64 id -> run_ok ps ->
  Forall (table_on (<[sst_path id := sst_bytes ps]> F)) (tabs ++ [(id, ps)]).
Proof.
  intros Ht Hids Hid Hok. apply Forall_app. split.
  - rewrite Forall_forall in Ht, Hids |- *. intros t Hin. apply table_on_insert; [by apply Ht|].
    specialize (Hids t Hin). intros [= Heq]. apply app_inv_tail in Heq.
    unfold is_u64 in *. apply Sprintf06d_inj in Heq; unfold is_u64; lia.
  - apply Forall_singleton. split; [done|]. by rewrite lookup_insert_eq.
Qed.

(** The metadata that [flush] computes from the first and last pair. *)
Lemma flush_meta id (ps : list KVPair) first lst rest :
  ps = first :: rest -> last ps = Some lst ->
  mkMeta id (Key first) (Key lst) (zlen (sst_bytes ps)) (sst_index ps) = table_meta id ps.
Proof. intros -> Hl. unfold table_meta, last_key. by rewrite Hl. Qed.

(** The engine once the flush has installed the table of [ps]. *)
Definition flushed (db : DB) (ps : list KVPair) : DB :=
  install_locked (set_nextID db (u64 (nextFileID db + 1))) (table_meta (nextFileID db) ps).

(** The three stages of the disk during a flush, the last two under faults. *)
Definition flush_table (db : DB) (ps : list KVPair) (F : files) : files :=
  <[sst_path (nextFileID db) := sst_bytes ps]> F.

Definition flush_line (db : DB) (ps : list KVPair) : bytes :=
  manifest_line (sstables db ++ [table_meta (nextFileID db) ps]).

Definition log_deleted (oldWal : option WAL) (F G : files) : Prop :=
  G = F \/ exists w name, oldWal = Some w /\ wal_file w = Some name /\ G = delete (WalFile name) F.

(** The log removed by a flush that had no fault. *)
Definition log_removed (oldWal : option WAL) (F : files) : files :=
  match oldWal with
  | Some w => match wal_file w with Some name => delete (WalFile name) F | None => F end
  | None => F
  end.

Definition manifest_after (E : fault -> Prop) (F : files) (line : bytes) (G : files) : Prop :=
  G = manifest_appended F line \/ (torn_manifest F line G /\ can_err E).

(** [flush] under every schedule of faults.  Either the table could not be
    written, and only the file number is consumed; or the table is complete on
    disk and in the engine, whatever happens to the manifest and the old log. *)
Lemma flush_wp E db imm oldWal F :
  pairs imm <> [] -> (zlen (sst_bytes (pairs imm)) < 2 ^ 63)%Z ->
  wp E (flush db (Some imm) oldWal)
    (fun db' G =>
       (db' = set_nextID db (u64 (nextFileID db + 1)) /\
        torn_table (sst_path (nextFileID db)) (pairs imm) F G /\ can_err E) \/
       (db' = flushed db (pairs imm) /\
        exists G1, manifest_after E (flush_table db (pairs imm) F) (flush_line db (pairs imm)) G1 /\
          (G = log_removed oldWal G1 \/ (log_deleted oldWal G1 G /\ can_err E))))
    (fun G =>
       torn_table (sst_path (nextFileID db)) (pairs imm) F G \/
       torn_manifest (flush_table db (pairs imm) F) (flush_line db (pairs imm)) G \/
       exists G1, manifest_after E (flush_table db (pairs imm) F) (flush_line db (pairs imm)) G1 /\
          log_deleted oldWal G1 G) F.
Proof.
  intros Hne Hlen. unfold flush. destruct (pairs imm) as [|first rest] eqn:Hps; [done|].
  destruct (last (first :: rest)) as [lst|] eqn:Hl; [|by apply last_None in Hl].
  cbn [reserveNextFileID]. apply wp_bind. unfold writeSSTableFromMem. rewrite Hps.
  eapply wp_mono; [by apply writeSSTable_wp| |intros G [HG _]; by left].
  intros [[size index] err] G. cbn [fst snd]. intros [(-> & -> & [= -> ->])|([e ->] & HG & He)].
  2:{ apply wp_ret. left. done. }
  rewrite (flush_meta _ (first :: rest) _ _ rest) by done. unfold installFlushedTable.
  fold (flush_table db (first :: rest) F) (flushed db (first :: rest)). apply wp_bind.
  eapply wp_mono; [apply persistManifest_wp| |intros G HG; right; by left].
  intros r G Hr.
  assert (HG : manifest_after E (flush_table db (first :: rest) F) (flush_line db (first :: rest)) G).
  { destruct Hr as [[_ ->]|(_ & Hr & He)]; [by left|by right]. }
  destruct oldWal as [w|].
  - apply wp_bind. eapply wp_mono; [apply wal_Delete_wp| |].
    + intros r' G' HG'. apply wp_ret. right. split; [done|]. exists G. split; [done|].
      destruct HG' as [->|[[->|(name & ? & ->)] He]]; [by left|right|right]; (split; [|done]);
        [by left|right; eauto].
    + intros G' HG'. right. right. exists G. split; [done|].
      destruct HG' as [->|(name & ? & ->)]; [by left|right; eauto].
  - apply wp_ret. right. split; [done|]. exists G. split; [done|by left].
Qed.

(** The installed table takes the place of the frozen one. *)
Lemma flushed_inv db F tabs imm :
  db_inv db F tabs -> immTable db = Some imm -> table_fits (pairs imm) ->
  (nextFileID db + 1 < 2 ^ 64)%Z ->
  db_inv (flushed db (pairs imm)) (flush_table db (pairs imm) F) (tabs ++ [(nextFileID db, pairs imm)]).
Proof.
  intros [] Hi Hfit Hid. rewrite Hi in inv_imm0. destruct inv_imm0 as [[Hs _] Hne].
  assert (Hu : u64 (nextFileID db + 1) = (nextFileID db + 1)%Z)
    by (apply u64_small; unfold is_u64 in *; lia).
  split; simpl; try done.
  - by rewrite inv_sst0, fmap_app.
  - by apply tables_on_new.
  - rewrite Hu. apply Forall_app. split; [|apply Forall_singleton; simpl; unfold is_u64 in *; lia].
    eapply Forall_impl; [exact inv_ids0|]. intros t Ht. simpl in *. lia.
  - rewrite fmap_app. apply NoDup_app. split_and!; [done| |apply NoDup_singleton].
    intros x (t & Hx & Ht)%list_elem_of_fmap Hx2%list_elem_of_singleton. simpl in *.
    rewrite Forall_forall in inv_ids0. specialize (inv_ids0 t Ht). lia.
  - rewrite Hu. unfold is_u64 in *. lia.
Qed.

Lemma flushed_version db tabs imm key :
  immTable db = Some imm ->
  version (flushed db (pairs imm)) (tabs ++ [(nextFileID db, pairs imm)]) key = version db tabs key.
Proof.
  intros Hi. unfold version. rewrite Hi. simpl. unfold mem_map at 3. rewrite run_lookup_map.
  destruct (mem_map (memTable db) !! key); [done|].
  rewrite fmap_app. change ([(nextFileID db, pairs imm)].*2) with [pairs imm].
  rewrite newest_app. by destruct (run_lookup (pairs imm) key).
Qed.

Lemma flush_no_fault db imm oldWal F :
  pairs imm <> [] -> (zlen (sst_bytes (pairs imm)) < 2 ^ 63)%Z ->
  wp no_fault (flush db (Some imm) oldWal)
    (fun db' G => db' = flushed db (pairs imm) /\
       G = log_removed oldWal (manifest_appended (flush_table db (pairs imm) F) (flush_line db (pairs imm))))
    (fun _ => False) F.
Proof.
  intros Hne Hlen. unfold flush. destruct (pairs imm) as [|first rest] eqn:Hps; [done|].
  destruct (last (first :: rest)) as [lst|] eqn:Hl; [|by apply last_None in Hl].
  cbn [reserveNextFileID]. apply wp_bind. unfold writeSSTableFromMem. rewrite Hps.
  eapply wp_mono; [by apply writeSSTable_no_fault| |done].
  intros r G [-> ->]. rewrite (flush_meta _ (first :: rest) _ _ rest) by done. unfold installFlushedTable.
  fold (flush_table db (first :: rest) F) (flushed db (first :: rest)). apply wp_bind.
  eapply wp_mono; [apply persistManifest_no_fault| |done]. intros r G [_ ->].
  destruct oldWal as [[[name|]]|]; [|by repeat apply wp_ret|by apply wp_ret].
  apply wp_bind. eapply wp_mono; [apply wal_Delete_no_fault| |done].
  intros r' G [_ ->]. by apply wp_ret.
Qed.
