(* ===== verification/EngineMetrics.v ===== *)
(** * The engine's report (internal/lsm/metrics.go) *)
From S2P Require Export Engine Float64.

Definition nsToMS (ns : Z) : float64 := f64_div (f64 ns) f64_ms.

Record LsmMetrics := mkLsmMetrics {
  CompactionEnabled : bool;
  GetTotal : Z;
  GetSSTableFilesTouchedTotal : Z;
  GetSSTableFilesTouchedAvg : float64;
  GetSSTableFilesTouchedMax : Z;
  CompactionTotal : Z;
  CompactionInputFilesTotal : Z;
  CompactionOutputFilesTotal : Z;
  CompactionTotalMS : float64;
  CompactionMaxMS : float64;
  CompactionLastMS : float64;
  CompactionFailedTotal : Z;
  SSTableCount : Z
}.

(** [touched / gets], zero before the first read. *)
Definition touched_avg (gets touched : Z) : float64 :=
  if (0 <? gets)%Z then f64_div (f64 touched) (f64 gets) else f64 0.

(** [DB.DebugMetrics] *)
Definition DebugMetrics (db : DB) : LsmMetrics :=
  let m := metrics db in
  mkLsmMetrics (enableCompaction db) (getTotal m) (getSSTableFilesTouchedTotal m)
    (touched_avg (getTotal m) (getSSTableFilesTouchedTotal m)) (getSSTableFilesTouchedMax m)
    (compactionTotal m) (compactionInputFilesTotal m) (compactionOutputFilesTotal m)
    (nsToMS (compactionTotalNS m)) (nsToMS (compactionMaxNS m)) (nsToMS (compactionLastNS m))
    (compactionFailedTotal m) (zlen (sstables db)).

Definition noMetrics : LsmMetrics := mkLsmMetrics false 0 0 (f64 0) 0 0 0 0 (f64 0) (f64 0) (f64 0) 0 0.
