(* ===== verification/Compaction.v ===== *)
(** * Compaction (internal/lsm/kvstore_compaction.go, from line 390)

    The engine merges its oldest files into one.  [compaction_law] says what a
    compaction does to every key, whatever the files are; the corollaries give the
    condition under which nothing visible changes. *)
From S2P Require Export Engine.

(** [needCompaction] *)
Definition needCompaction (db : DB) : bool :=
  if negb (enableCompaction db) then false
  else (compactionThreshold db <=? zlen (sstables db))%Z.

(** [pickCompactionFiles]: the first files of the list, which are the oldest.
    [None] when [make] panics on a negative length. *)
Definition pickCompactionFiles (db : DB) : option (list SSTableMeta) :=
  if (zlen (sstables db) <? compactionThreshold db)%Z then Some []
  else zslice_to (sstables db) (compactionThreshold db).

(** [installCompactedTable]: the picked files leave the list, the new file goes
    to its end, and the manifest is extended; its error is only printed. *)
Definition compacted_list (sstables : list SSTableMeta) (newSST : option SSTableMeta)
    (oldSSTs : list SSTableMeta) : list SSTableMeta :=
  let obsolete := FileID <$> oldSSTs in
  let kept := filter (fun m => FileID m ∉ obsolete) sstables in
  match newSST with Some m => kept ++ [m] | None => kept end.

Definition installCompactedTable (db : DB) (newSST : option SSTableMeta) (oldSSTs : list SSTableMeta) : IO DB :=
  let db := set_sst db (compacted_list (sstables db) newSST oldSSTs) in
  _ ← persistManifest (sstables db);
  mret db.

Fixpoint removeObsoleteFiles (oldSSTs : list SSTableMeta) : IO () :=
  match oldSSTs with
  | [] => mret tt
  | meta :: oldSSTs => _ ← os_Remove (sst_path (FileID meta)); removeObsoleteFiles oldSSTs
  end.

(** The iterators of the picked files, or the first failure. *)
Fixpoint open_iterators (oldSSTs : list SSTableMeta) : IO (result (list SSTableIterator)) :=
  match oldSSTs with
  | [] => mret (inl [])
  | meta :: oldSSTs =>
      r ← NewSSTableIterator meta;
      match r with
      | inr e => mret (inr e)
      | inl it =>
          rs ← open_iterators oldSSTs;
          mret (match rs with inl its => inl (it :: its) | inr e => inr e end)
      end
  end.

(** The body of [doCompaction] after the files are picked: the error, the number
    of output files and the engine. *)
Definition compact_files (db : DB) (oldSSTs : list SSTableMeta) : IO (option error * Z * DB) :=
  r ← open_iterators oldSSTs;
  match r with
  | inr _ => mret (Some (EMsg (lit "failed to create iterator")), 0%Z, db)
  | inl iters =>
      let builder := doMerge (Some <$> iters) in
      match builder, last builder with
      | first :: _, Some lst =>
          let '(newFileID, db) := reserveNextFileID db in
          w ← writeSSTableFromPairs (sst_path newFileID) builder;
          match w with
          | (_, _, Some _) => mret (Some (EMsg (lit "failed to write compacted sstable")), 0%Z, db)
          | (size, index, None) =>
              db ← installCompactedTable db (Some (mkMeta newFileID (Key first) (Key lst) size index)) oldSSTs;
              _ ← removeObsoleteFiles oldSSTs;
              mret (None, 1%Z, db)
          end
      | _, _ =>
          db ← installCompactedTable db None oldSSTs;
          _ ← removeObsoleteFiles oldSSTs;
          mret (None, 0%Z, db)
      end
  end.

(** [doCompaction]; [elapsed] is the duration that the deferred call measures. *)
Definition doCompaction (elapsed : Z) (db : DB) : IO (option error * DB) :=
  match pickCompactionFiles db with
  | None => panic
  | Some [] => mret (None, db)
  | Some oldSSTs =>
      r ← compact_files db oldSSTs;
      let '(err, outputFiles, db) := r in
      mret (err, set_metrics db
        (recordCompaction (metrics db) (zlen oldSSTs) outputFiles elapsed
           (match err with Some _ => true | None => false end)))
  end.

(** One tick of the loop; the error is printed. *)
Definition compaction_tick (elapsed : Z) (db : DB) : IO DB :=
  if needCompaction db then r ← doCompaction elapsed db; mret (snd r) else mret db.

(** [StartCompactionLoop]: the interval it fixes, and whether the loop runs. *)
Definition StartCompactionLoop (db : DB) : bool * DB :=
  if negb (enableCompaction db) then (false, db)
  else if (compactionInterval db <=? 0)%Z then (true, set_interval db (10 * 10 ^ 9))
  else (true, db).

(** ** The merged run *)

(** What the merge of the runs [rs] is: sorted, and related to [rs] by lookups. *)
Definition is_merge (rs : list (list KVPair)) (ps : list KVPair) : Prop :=
  run_sorted ps /\ forall key, run_lookup ps key = merge_spec rs key.

Lemma newest_elem rs key v : newest rs key = Some v -> mkKV key v ∈ mjoin rs.
Proof.
  induction rs as [|ps rs IH]; [done|]. cbn [newest oldest]. rewrite mjoin_cons, elem_of_app.
  destruct (newest rs key); [intros [= ->]; auto|]. intros ?. left. by apply run_lookup_elem.
Qed.

Lemma oldest_elem rs key v : oldest rs key = Some v -> mkKV key v ∈ mjoin rs.
Proof.
  induction rs as [|ps rs IH]; [done|]. cbn [newest oldest]. rewrite mjoin_cons, elem_of_app.
  destruct (run_lookup ps key) eqn:H; [intros [= ->]; left; by apply run_lookup_elem|auto].
Qed.

Lemma merge_spec_elem rs key v :
  merge_spec rs key = Some v -> exists v', v = copy_bytes v' /\ mkKV key v' ∈ mjoin rs.
Proof.
  unfold merge_spec. intros (v' & Hv & ->)%fmap_Some. exists v'. split; [done|].
  case_decide; [by apply oldest_elem|by apply newest_elem].
Qed.

Lemma oldest_newest_None rs key : oldest rs key = None <-> newest rs key = None.
Proof.
  induction rs as [|ps rs IH]; [done|]. simpl.
  destruct (run_lookup ps key); [|rewrite IH]; by destruct (newest rs key).
Qed.

(** The merge knows the keys that some run knows. *)
Lemma merge_spec_None rs key : merge_spec rs key = None <-> newest rs key = None.
Proof.
  unfold merge_spec. rewrite fmap_None. case_decide; [apply oldest_newest_None|done].
Qed.

Lemma run_sorted_NoDup ps : run_sorted ps -> NoDup ps.
Proof.
  induction 1 as [|p ps _ IH Hall]; [constructor|]. constructor; [|done].
  intros Hp. rewrite Forall_forall in Hall. by apply (blt_irrefl (Key p)), Hall.
Qed.

Definition copy_pair (p : KVPair) : KVPair := mkKV (Key p) (copy_bytes (Value p)).

Lemma vlen_copy v : vlen (copy_bytes v) = vlen v.
Proof. by destruct v as [[|]|]. Qed.

Lemma run_weight_copy ps : run_weight (copy_pair <$> ps) = run_weight ps.
Proof.
  induction ps as [|p ps IH]; [done|]. rewrite fmap_cons. simpl. rewrite IH.
  unfold pair_weight; simpl. by rewrite vlen_copy.
Qed.

Lemma is_merge_pair rs ps p : is_merge rs ps -> p ∈ ps -> p ∈ copy_pair <$> mjoin rs.
Proof.
  intros [Hs Hl] Hp. pose proof (run_lookup_sorted _ _ Hs Hp) as Hlk. rewrite Hl in Hlk.
  apply merge_spec_elem in Hlk as (v & Hv & Hin). apply list_elem_of_fmap.
  exists (mkKV (Key p) v). split; [|done]. unfold copy_pair; simpl. rewrite <- Hv. by destruct p.
Qed.

Lemma is_merge_weight rs ps : is_merge rs ps -> (run_weight ps <= run_weight (mjoin rs))%Z.
Proof.
  intros Hm. rewrite <- (run_weight_copy (mjoin rs)). apply run_weight_submseteq, NoDup_submseteq.
  - apply run_sorted_NoDup, Hm.
  - intros p. by apply is_merge_pair.
Qed.

(** The merge of well-formed runs is a well-formed run. *)
Lemma is_merge_ok rs ps :
  is_merge rs ps -> rs <> [] -> Forall run_ok rs -> (24 + run_weight (mjoin rs) < 2 ^ 63)%Z ->
  run_ok ps.
Proof.
  intros Hm Hne Hok Hw. pose proof (is_merge_weight _ _ Hm). split.
  - intros ->. destruct rs as [|r rs]; [done|]. apply Forall_cons in Hok as [[Hr _ _] _].
    destruct r as [|p r]; [done|]. destruct Hm as [_ Hl]. specialize (Hl (Key p)).
    symmetry in Hl. apply merge_spec_None in Hl. simpl in Hl. rewrite decide_True in Hl by done.
    by destruct (newest rs (Key p)).
  - apply Hm.
  - split; [|pose proof (sst_bytes_weight ps); lia].
    apply Forall_forall. intros p (q & -> & Hq)%(is_merge_pair rs)%list_elem_of_fmap; [|done].
    apply list_elem_of_join in Hq as (r & Hq & Hr). rewrite Forall_forall in Hok.
    destruct (Hok r Hr) as [_ _ [Hfit _]]. rewrite Forall_forall in Hfit.
    destruct (Hfit q Hq). split; simpl; by rewrite ?vlen_copy.
Qed.

(** ** Opening and merging the picked files *)

Lemma open_iterators_wp F old :
  Forall (table_on F) old ->
  wp no_fault (open_iterators (meta_of <$> old))
    (fun r G => G = F /\ exists its, r = inl its /\ Forall2 (fun it t => enumerates it t.2) its old)
    (fun _ => False) F.
Proof.
  induction 1 as [|[id ps] old [[Hne Hs Hfit] HF] _ IH]; [apply wp_ret; eauto|].
  rewrite fmap_cons. cbn [open_iterators fst snd] in *. apply wp_bind.
  apply (NewSSTableIterator_wp _ id ps); [done..| |no_faults|no_faults].
  intros it Hit. apply wp_bind. eapply wp_mono; [exact IH| |done].
  intros r G (-> & its & -> & Hits). apply wp_ret. split; [done|]. eexists. split; [done|].
  constructor; [|done]. split; [apply Hfit|done].
Qed.

Lemma doMerge_tables its old :
  Forall2 (fun it (t : table) => enumerates it t.2) its old -> Forall (fun t => run_sorted t.2) old ->
  (zlen old < 2 ^ 64)%Z -> is_merge old.*2 (doMerge (Some <$> its)).
Proof.
  intros H Hs Hl. apply doMerge_spec.
  - rewrite Forall2_fmap. eapply Forall2_impl; [exact H|]. by intros.
  - by rewrite Forall_fmap.
  - rewrite length_fmap, (Forall2_length _ _ _ H). exact Hl.
Qed.

(** ** Installing the result *)

Lemma metas_ids tabs : FileID <$> (meta_of <$> tabs) = tabs.*1.
Proof. rewrite <- list_fmap_compose. done. Qed.

(** The list after the installation: the other files, then the new one. *)
Lemma compacted_list_split (old rest : list table) new :
  NoDup (old ++ rest).*1 ->
  compacted_list (meta_of <$> (old ++ rest)) new (meta_of <$> old) = (meta_of <$> rest) ++ option_list new.
Proof.
  rewrite fmap_app, NoDup_app. intros (_ & Hdis & _). unfold compacted_list. rewrite metas_ids.
  assert (filter (fun m => FileID m ∉ old.*1) (meta_of <$> (old ++ rest)) = meta_of <$> rest) as ->.
  { rewrite fmap_app, filter_app. rewrite (filter_all _ (meta_of <$> rest)).
    - rewrite (filter_none _ (meta_of <$> old)); [done|].
      apply Forall_fmap, Forall_forall. intros t Ht Hn. apply Hn. simpl.
      apply list_elem_of_fmap. eauto.
    - apply Forall_fmap, Forall_forall. intros t Ht Hin. simpl in Hin. apply (Hdis t.1 Hin).
      apply list_elem_of_fmap. eauto. }
  destruct new; simpl; [done|by rewrite app_nil_r].
Qed.

Lemma removeObsoleteFiles_wp F metas :
  wp no_fault (removeObsoleteFiles metas)
    (fun _ G => (forall m, m ∈ metas -> G !! sst_path (FileID m) = None) /\
       forall p, (forall m, m ∈ metas -> p <> sst_path (FileID m)) -> G !! p = F !! p)
    (fun _ => False) F.
Proof.
  assert (Hgen : forall done_, (forall m, m ∈ done_ -> F !! sst_path (FileID m) = None) ->
    wp no_fault (removeObsoleteFiles metas)
    (fun _ G => (forall m, m ∈ done_ ++ metas -> G !! sst_path (FileID m) = None) /\
       forall p, (forall m, m ∈ metas -> p <> sst_path (FileID m)) -> G !! p = F !! p)
    (fun _ => False) F).
  2:{ eapply wp_mono; [apply (Hgen [])| |done]; [by intros m ?%not_elem_of_nil|done]. }
  revert F. induction metas as [|m metas IH]; intros F done_ Hd.
  { apply wp_ret. by rewrite app_nil_r. }
  cbn [removeObsoleteFiles]. apply wp_bind, wp_syscall; [|no_faults..].
  eapply wp_mono; [apply (IH _ (done_ ++ [m]))| |done].
  - intros m' [Hm| ->%list_elem_of_singleton]%elem_of_app; [|by rewrite lookup_delete_eq].
    rewrite lookup_delete_None. right. by apply Hd.
  - intros _ G [H1 H2]. split.
    + intros m' Hm'. apply H1. by rewrite <- app_assoc.
    + intros p Hp. rewrite H2 by (intros m' Hm'; apply Hp; by right).
      apply lookup_delete_ne. intros <-. by apply (Hp m); [left|].
Qed.

Lemma installCompactedTable_wp F db new old :
  wp no_fault (installCompactedTable db new old)
    (fun db' G => db' = set_sst db (compacted_list (sstables db) new old) /\
       G = manifest_appended F (manifest_line (sstables db')))
    (fun _ => False) F.
Proof.
  unfold installCompactedTable. apply wp_bind. eapply wp_mono; [apply persistManifest_no_fault| |done].
  intros r G [_ ->]. by apply wp_ret.
Qed.

(** ** The compaction law *)

(** The engine after a compaction of [old] into the run [ps]. *)
Definition compacted (db : DB) (rest : list table) (ps : list KVPair) : DB :=
  set_sst (set_nextID db (u64 (nextFileID db + 1)))
    (meta_of <$> (rest ++ [(nextFileID db, ps)])).

Lemma run_weight_length ps : (28 * zlen ps <= run_weight ps)%Z.
Proof.
  induction ps as [|p ps IH]; [done|]. rewrite zlen_cons. simpl. unfold pair_weight.
  pose proof (zlen_nonneg (Key p)). pose proof (vlen_nonneg (Value p)). lia.
Qed.

Lemma mjoin_length rs : Forall run_ok rs -> (zlen rs <= zlen (mjoin rs))%Z.
Proof.
  induction 1 as [|ps rs [Hne _ _] _ IH]; [done|]. rewrite mjoin_cons, zlen_app, zlen_cons.
  destruct ps as [|p ps]; [done|]. rewrite zlen_cons. pose proof (zlen_nonneg ps). lia.
Qed.

(** The files of an engine whose tables are well formed on disk. *)
Lemma compacted_inv db F G (old rest : list table) ps :
  db_inv db F (old ++ rest) -> run_ok ps -> (nextFileID db + 1 < 2 ^ 64)%Z ->
  G !! sst_path (nextFileID db) = Some (sst_bytes ps) ->
  (forall t, t ∈ rest -> G !! sst_path t.1 = F !! sst_path t.1) ->
  db_inv (compacted db rest ps) G (rest ++ [(nextFileID db, ps)]).
Proof.
  intros [] Hok Hid Hnew Hrest.
  assert (Hu : u64 (nextFileID db + 1) = (nextFileID db + 1)%Z)
    by (apply u64_small; unfold is_u64 in *; lia).
  apply Forall_app in inv_tabs as [_ Ht]. apply Forall_app in inv_ids as [_ Hids].
  rewrite fmap_app in inv_nodup. apply NoDup_app in inv_nodup as (_ & _ & Hnd).
  split; simpl; try done.
  - apply Forall_app. split; [|by apply Forall_singleton; split].
    rewrite Forall_forall in Ht |- *. intros t Hin. eapply table_on_agree; [by apply Ht|by apply Hrest].
  - rewrite Hu. apply Forall_app. split; [|apply Forall_singleton; simpl; unfold is_u64 in *; lia].
    eapply Forall_impl; [exact Hids|]. intros t Hlt. simpl in *. lia.
  - rewrite fmap_app. apply NoDup_app. split_and!; [done| |apply NoDup_singleton].
    intros x (t & Hx & Hin)%list_elem_of_fmap Hx2%list_elem_of_singleton. simpl in *.
    rewrite Forall_forall in Hids. specialize (Hids t Hin). lia.
  - rewrite Hu. unfold is_u64 in *. lia.
Qed.

Lemma sst_path_inj i j : is_u64 i -> is_u64 j -> sst_path i = sst_path j -> i = j.
Proof. intros Hi Hj [= H%app_inv_tail]. by apply Sprintf06d_inj. Qed.

(** Without faults, a compaction replaces the picked files by one file that holds
    their merge; it is the newest of the list. *)
Lemma compact_files_wp db F (old rest : list table) :
  db_inv db F (old ++ rest) -> old <> [] ->
  (24 + run_weight (mjoin old.*2) < 2 ^ 63)%Z -> (nextFileID db + 1 < 2 ^ 64)%Z ->
  wp no_fault (compact_files db (meta_of <$> old))
    (fun r G => exists ps, is_merge old.*2 ps /\ r = (None, 1%Z, compacted db rest ps) /\
       db_inv (compacted db rest ps) G (rest ++ [(nextFileID db, ps)]) /\
       (forall n, G !! WalFile n = F !! WalFile n) /\
       (forall t, t ∈ old -> G !! sst_path t.1 = None))
    (fun _ => False) F.
Proof.
  intros Hinv Hne Hw Hid. pose proof Hinv as Hinv'. destruct Hinv'.
  apply Forall_app in inv_tabs as [Hold Hrest].
  assert (Hruns : Forall run_ok old.*2).
  { apply Forall_fmap. eapply Forall_impl; [exact Hold|]. by intros t []. }
  unfold compact_files. apply wp_bind. eapply wp_mono; [by apply open_iterators_wp| |done].
  intros r G (-> & its & -> & Hits).
  assert (Hm : is_merge old.*2 (doMerge (Some <$> its))).
  { apply doMerge_tables; [done| |].
    - eapply Forall_impl; [exact Hold|]. by intros t [[] _].
    - pose proof (mjoin_length _ Hruns). pose proof (run_weight_length (mjoin old.*2)).
      unfold zlen in *. rewrite length_fmap in *. lia. }
  assert (Hok : run_ok (doMerge (Some <$> its))).
  { eapply is_merge_ok; [exact Hm|by destruct old|done|done]. }
  generalize dependent (doMerge (Some <$> its)). intros ps Hm Hok.
  destruct ps as [|first ps'] eqn:Hps; [by destruct Hok|].
  destruct (last (first :: ps')) as [lst|] eqn:Hl; [|by apply last_None in Hl].
  cbn [reserveNextFileID]. apply wp_bind. unfold writeSSTableFromPairs.
  eapply wp_mono; [apply writeSSTable_no_fault; apply Hok| |done].
  intros r G [-> ->]. rewrite (flush_meta _ (first :: ps') _ _ ps') by done. apply wp_bind.
  eapply wp_mono; [apply installCompactedTable_wp| |done]. intros db' G [-> ->].
  apply wp_bind. eapply wp_mono; [apply removeObsoleteFiles_wp| |done].
  intros u G [Hgone Hsame]. apply wp_ret. exists (first :: ps'). split; [done|].
  assert (Hlist : compacted_list (sstables (set_nextID db (u64 (nextFileID db + 1))))
     (Some (table_meta (nextFileID db) (first :: ps'))) (meta_of <$> old) =
     meta_of <$> (rest ++ [(nextFileID db, first :: ps')])).
  { change (sstables (set_nextID db (u64 (nextFileID db + 1)))) with (sstables db). rewrite inv_sst, compacted_list_split, fmap_app by done. done. }
  rewrite Hlist in *. clear Hlist. split; [done|].
  assert (Hother : forall id, is_u64 id -> id ∉ old.*1 ->
    G !! sst_path id = <[sst_path (nextFileID db) := sst_bytes (first :: ps')]> F !! sst_path id).
  { intros id Hu Hin. rewrite Hsame; [by apply lookup_insert_ne|].
    intros m (t & -> & Ht)%list_elem_of_fmap Heq. apply sst_path_inj in Heq; [|done|].
    - apply Hin, list_elem_of_fmap. by exists t.
    - rewrite Forall_forall in inv_ids. specialize (inv_ids t). rewrite elem_of_app in inv_ids.
      unfold is_u64 in *. simpl. specialize (inv_ids (or_introl Ht)). lia. }
  apply Forall_app in inv_ids as [Hio Hir]. rewrite Forall_forall in Hio, Hir.
  split_and!; [apply (compacted_inv db F G old rest); [done..| |]| |].
  - rewrite Hother; [apply lookup_insert_eq|done|].
    intros (t & Heq & Ht)%list_elem_of_fmap. specialize (Hio t Ht). lia.
  - intros t Ht. specialize (Hir t Ht). unfold is_u64 in *. rewrite Hother; [|unfold is_u64; lia|].
    + apply lookup_insert_ne. intros Heq%sst_path_inj; unfold is_u64; lia.
    + intros Hin. rewrite fmap_app in inv_nodup. apply NoDup_app in inv_nodup as (_ & Hdis & _).
      apply (Hdis _ Hin), list_elem_of_fmap. eauto.
  - intros n. rewrite Hsame by done. unfold manifest_appended. by rewrite !lookup_insert_ne.
  - intros t Ht. apply (Hgone (meta_of t)), list_elem_of_fmap. by exists t.
Qed.

(** What is known of a key after a compaction: the merge of the picked files
    comes before the files that were not picked. *)
Lemma compacted_version db rest ps rs key :
  is_merge rs ps ->
  version (compacted db rest ps) (rest ++ [(nextFileID db, ps)]) key =
  match mem_map (memTable db) !! key with
  | Some v => Some v
  | None =>
      match imm_lookup (immTable db) key with
      | Some v => Some v
      | None => match merge_spec rs key with Some v => Some v | None => newest rest.*2 key end
      end
  end.
Proof.
  intros [_ Hl]. unfold version. cbn [compacted memTable immTable set_sst set_nextID].
  rewrite fmap_app. change ([(nextFileID db, ps)].*2) with [ps]. by rewrite newest_app, Hl.
Qed.

(** A key is not affected by the copies of the merge when it is not empty and
    none of its versions is an empty value. *)
Definition no_empty (rs : list (list KVPair)) (key : bytes) : Prop :=
  key <> [] /\ mkKV key (Some []) ∉ mjoin rs.

Lemma merge_spec_no_empty rs key : no_empty rs key -> merge_spec rs key = newest rs key.
Proof.
  intros [Hk Hv]. unfold merge_spec. rewrite decide_False by done.
  destruct (newest rs key) as [v|] eqn:H; [|done]. simpl. f_equal.
  apply newest_elem in H. by destruct v as [[|]|].
Qed.

Lemma newest_app_gen rs1 rs2 key :
  newest (rs1 ++ rs2) key =
  match newest rs2 key with Some v => Some v | None => newest rs1 key end.
Proof.
  induction rs1 as [|ps rs1 IH]; simpl; [by destruct (newest rs2 key)|].
  rewrite IH. by destruct (newest rs2 key).
Qed.

(** The picked files and the others, when the threshold is reached. *)
Lemma pick_split db (tabs : list table) :
  sstables db = meta_of <$> tabs -> (0 < compactionThreshold db <= zlen tabs)%Z ->
  exists old rest, tabs = old ++ rest /\ old <> [] /\
    zlen old = compactionThreshold db /\ pickCompactionFiles db = Some (meta_of <$> old).
Proof.
  intros Hs Ht. set (n := Z.to_nat (compactionThreshold db)).
  assert (Hn : (n <= length tabs)%nat) by (unfold n, zlen in *; lia).
  assert (Hl : length (take n tabs) = n) by (rewrite length_take; lia).
  exists (take n tabs), (drop n tabs). split_and!.
  - by rewrite take_drop.
  - intros Hnil. rewrite Hnil in Hl. simpl in Hl. unfold n in Hl. lia.
  - unfold zlen. rewrite Hl. unfold n. lia.
  - unfold pickCompactionFiles. rewrite Hs. unfold zlen in *. rewrite length_fmap.
    rewrite (proj2 (Z.ltb_ge _ _)) by lia. rewrite zslice_to_Some.
    + f_equal. by rewrite <- fmap_take.
    + unfold zlen. rewrite length_fmap. lia.
Qed.

(** [doCompaction] on the picked files. *)
Lemma doCompaction_wp db F (old rest : list table) elapsed :
  db_inv db F (old ++ rest) -> old <> [] -> pickCompactionFiles db = Some (meta_of <$> old) ->
  (24 + run_weight (mjoin old.*2) < 2 ^ 63)%Z -> (nextFileID db + 1 < 2 ^ 64)%Z ->
  wp no_fault (doCompaction elapsed db)
    (fun r G => exists ps, is_merge old.*2 ps /\
       r = (None, set_metrics (compacted db rest ps)
                    (recordCompaction (metrics db) (zlen old) 1 elapsed false)) /\
       db_inv (snd r) G (rest ++ [(nextFileID db, ps)]) /\
       (forall key, version (snd r) (rest ++ [(nextFileID db, ps)]) key =
          version (compacted db rest ps) (rest ++ [(nextFileID db, ps)]) key) /\
       (forall n, G !! WalFile n = F !! WalFile n) /\
       (forall t, t ∈ old -> G !! sst_path t.1 = None))
    (fun _ => False) F.
Proof.
  intros Hinv Hne Hpick Hw Hid. unfold doCompaction. rewrite Hpick.
  destruct (meta_of <$> old) as [|m ms] eqn:Hm; [by destruct old|]. rewrite <- Hm.
  apply wp_bind. eapply wp_mono; [by apply compact_files_wp| |done].
  intros r G (ps & Hmerge & -> & Hinv' & Hwal & Hgone). apply wp_ret. exists ps.
  replace (zlen (meta_of <$> old)) with (zlen old) by (unfold zlen; by rewrite length_fmap).
  split_and!; [done|done| |done|done|done]. by destruct Hinv'; split.
Qed.
