(* ===== verification/Recovery.v ===== *)
(** * Start-up and recovery
    (internal/lsm/kvstore.go, [NewDBWithOptions] and [removeAllOldWalFiles];
    internal/lsm/kvstore_compaction.go, lines 115-388)

    At start-up the engine loads the table files, orders them by the last line of
    the manifest, replays every log into the memory table, writes that table to a
    new file, and removes the logs. *)
From S2P Require Export Compaction.

(** ** Table files *)

Definition bumpNextFileID (db : DB) (fileID : Z) : DB :=
  if (nextFileID db <=? fileID)%Z then set_nextID db (u64 (fileID + 1)) else db.

(** The loop of [loadSSTables] over the directory. *)
Fixpoint load_loop (names : list bytes) (db : DB) (metas : list SSTableMeta) :
    IO (DB * result (list SSTableMeta)) :=
  match names with
  | [] => mret (db, inl metas)
  | name :: names =>
      if decide (Ext name = lit ".sst") then
        let fileID := Sscanf06d name in
        r ← os_ReadFile (SstFile name);
        match r with
        | inr e => mret (db, inr e)
        | inl content =>
            match load_file fileID content with
            | LoadSkip => load_loop names db metas
            | LoadErr e => mret (db, inr e)
            | LoadOk meta => load_loop names (bumpNextFileID db fileID) (metas ++ [meta])
            end
        end
      else load_loop names db metas
  end.

Definition id_le (a b : SSTableMeta) : Prop := (FileID a <= FileID b)%Z.

#[export] Instance id_le_dec : RelDecision id_le.
Proof. intros a b. unfold id_le. apply _. Defined.

(** The last line that is not blank. *)
Definition last_line (data : bytes) : bytes :=
  default [] (head (filter (fun l => l <> []) (TrimSpace <$> reverse (Split Byte.x0a data)))).

(** The identifiers of a line; what is not a number is skipped. *)
Definition line_ids (line : bytes) : list Z :=
  omap (fun s => let s := TrimSpace s in match s with [] => None | _ => ParseUint s end)
    (Split Byte.x2c line).

(** The map [metaByID]: with equal identifiers the last file stays. *)
Definition metaByID (metas : list SSTableMeta) : gmap Z SSTableMeta :=
  foldl (fun m meta => <[FileID meta := meta]> m) ∅ metas.

(** [applyManifestOrder] on the content of the manifest: the files of the line in
    its order, then the others. *)
Definition manifest_order (data : bytes) (metas : list SSTableMeta) : list SSTableMeta :=
  match last_line data with
  | [] => metas
  | line =>
      let ordered := omap (fun id => metaByID metas !! id) (line_ids line) in
      ordered ++ filter (fun m => FileID m ∉ FileID <$> ordered) metas
  end.

Definition applyManifestOrder (metas : list SSTableMeta) : IO (result (list SSTableMeta)) :=
  r ← os_ReadFile ManifestFile;
  match r with
  | inr ENotExist => mret (inl metas)
  | inr e => mret (inr e)
  | inl data => mret (inl (manifest_order data metas))
  end.

Definition loadSSTables (db : DB) : IO (DB * option error) :=
  r ← os_ReadDir sst_name;
  match r with
  | inr e => mret (db, Some e)
  | inl names =>
      r ← load_loop names db [];
      match r with
      | (db, inr e) => mret (db, Some e)
      | (db, inl metas) =>
          r ← applyManifestOrder (merge_sort id_le metas);
          match r with
          | inr e => mret (db, Some e)
          | inl reordered => mret (set_sst db reordered, None)
          end
      end
  end.

(** ** Logs *)

Definition mem_onPut (key val : bytes) (m : MemTable) : MemTable := MemTable.Put m key (Some val).
Definition mem_onDelete (key : bytes) (m : MemTable) : MemTable := MemTable.Put m key None.

(** The replay loop of [RecoverFromWAL]; errors are printed and the loop goes on. *)
Fixpoint replay_logs (ids : list Z) (m : MemTable) : IO MemTable :=
  match ids with
  | [] => mret m
  | id :: ids =>
      r ← OpenWAL (wal_filename id);
      match r with
      | inr _ => replay_logs ids m
      | inl w =>
          r ← os_ReadFile (WalFile (wal_filename id));
          let m := match r with
                   | inl content => fst (Replay mem_onPut mem_onDelete content m)
                   | inr _ => m
                   end in
          _ ← Wal.Close w;
          replay_logs ids m
      end
  end.

Definition RecoverFromWAL (db : DB) : IO (DB * option error) :=
  r ← os_ReadDir wal_name;
  match r with
  | inr e => mret (db, Some e)
  | inl names =>
      let walIDs := merge_sort Z.le (Sscanf06d <$> filter (fun n => Ext n = lit ".log") names) in
      m ← replay_logs walIDs (memTable db);
      mret (set_walID (set_mem db m)
              (match last walIDs with Some id => u64 (id + 1) | None => 1 end), None)
  end.

Fixpoint remove_logs (names : list bytes) : IO () :=
  match names with
  | [] => mret tt
  | name :: names =>
      if decide (Ext name = lit ".log") then _ ← os_Remove (WalFile name); remove_logs names
      else remove_logs names
  end.

Definition removeAllOldWalFiles : IO (option error) :=
  r ← os_ReadDir wal_name;
  match r with
  | inr _ => mret (Some (EMsg (lit "failed to read wal directory")))
  | inl names => _ ← remove_logs names; mret None
  end.

(** ** [NewDBWithOptions] *)

Definition initial_DB (EnableCompaction : bool) : DB :=
  mkDB NewMemTable None [] 1 None None false 1 4 (10 * 10 ^ 9) EnableCompaction zeroMetrics.

Definition NewDBWithOptions (EnableCompaction : bool) : IO DB :=
  r ← loadSSTables (initial_DB EnableCompaction);
  let db := fst r in
  r ← RecoverFromWAL db;
  let db := fst r in
  db ← (if (0 <? MemTable.size (memTable db))%Z then
          let db := set_mem (set_imm db (Some (memTable db))) NewMemTable in
          flush db (immTable db) None
        else mret db);
  _ ← removeAllOldWalFiles;
  r ← OpenWAL (wal_filename (walFileID db));
  let db := set_wals db (match r with inl w => Some w | inr _ => None end) (nextwal db) in
  let db := set_walID db (u64 (walFileID db + 1)) in
  let db := snd (StartCompactionLoop db) in
  mret (set_notify db true).

Definition NewDB : IO DB := NewDBWithOptions true.

(** ** The manifest read back

    Appending a line for [listed] and loading the files of [listed ++ extra]
    gives back exactly this order, when the manifest ends with a complete line
    and the extra files, those the line does not mention, have increasing
    identifiers. *)

(** Nothing was cut in the middle of a line. *)
Definition manifest_complete (data : bytes) : Prop := data = [] \/ exists d, data = d ++ [Byte.x0a].

Lemma manifest_line_complete data metas : manifest_complete (data ++ manifest_line metas).
Proof. right. unfold manifest_line. eexists. by rewrite app_assoc. Qed.

Lemma last_line_append data line :
  manifest_complete data -> Byte.x0a ∉ line -> TrimSpace line = line -> line <> [] ->
  last_line (data ++ line ++ [Byte.x0a]) = line.
Proof.
  intros Hc Hn Htrim Hne.
  assert (exists pre, Split Byte.x0a (data ++ line ++ [Byte.x0a]) = pre ++ [line] ++ [[]]) as [pre Hpre].
  { change (line ++ [Byte.x0a]) with (line ++ Byte.x0a :: []).
    destruct Hc as [->|[d ->]].
    - exists []. simpl. rewrite Split_app_gen, Split_no_sep by done. done.
    - exists (Split Byte.x0a d). rewrite <- app_assoc. simpl.
      rewrite Split_app_gen, Split_app_gen, (Split_no_sep _ line) by done. done. }
  unfold last_line. rewrite Hpre, !reverse_app. cbn [reverse rev_append app].
  change (reverse [line]) with [line]. change (reverse [[]]) with [@nil Byte.byte].
  cbn [app fmap list_fmap]. rewrite filter_cons_False by (intros H; by apply H).
  rewrite Htrim, filter_cons_True by done. done.
Qed.

(** *** The identifiers of a line *)

Definition ids_line (ids : list Z) : bytes := Text.Join Byte.x2c (FormatUint <$> ids).

Lemma FormatUint_no c id : is_u64 id -> digit_val c = None -> c ∉ FormatUint id.
Proof.
  intros Hid Hc Hin. pose proof (FormatUint_digits id Hid) as Hd. rewrite Forall_forall in Hd.
  by apply (is_digit_ne c c (Hd c Hin)).
Qed.

Lemma TrimSpace_FormatUint id : is_u64 id -> TrimSpace (FormatUint id) = FormatUint id.
Proof.
  intros Hid. apply TrimSpace_id. eapply Forall_impl; [by apply FormatUint_digits|].
  apply is_digit_not_space.
Qed.

Lemma line_ids_Join ids : ids <> [] -> Forall is_u64 ids -> line_ids (ids_line ids) = ids.
Proof.
  intros Hne H. unfold line_ids, ids_line. rewrite Split_Join.
  - clear Hne. induction H as [|id ids Hid _ IH]; [done|].
    change (FormatUint <$> id :: ids) with (FormatUint id :: (FormatUint <$> ids)).
    cbn [omap list_omap]. rewrite TrimSpace_FormatUint by done.
    destruct (FormatUint id) eqn:He; [by apply FormatUint_nonempty in He|].
    rewrite <- He, ParseUint_FormatUint by done. f_equal. exact IH.
  - by destruct ids.
  - apply Forall_fmap. eapply Forall_impl; [exact H|]. intros id Hid. by apply FormatUint_no.
Qed.

Lemma Join_Forall (P : Byte.byte -> Prop) sep ws :
  P sep -> Forall (Forall P) ws -> Forall P (Text.Join sep ws).
Proof.
  intros Hsep H. induction H as [|w ws Hw Hws IH]; [constructor|].
  destruct ws as [|w' ws]; [done|]. cbn [Text.Join]. apply Forall_app. split; [done|]. by constructor.
Qed.

Lemma ids_line_chars ids :
  Forall is_u64 ids -> Forall (fun c => is_space c = false) (ids_line ids).
Proof.
  intros H. apply Join_Forall; [done|]. apply Forall_fmap. eapply Forall_impl; [exact H|].
  intros id Hid. eapply Forall_impl; [by apply FormatUint_digits|]. apply is_digit_not_space.
Qed.

Lemma ids_line_nonempty ids : ids <> [] -> ids_line ids <> [].
Proof.
  destruct ids as [|id ids]; [done|]. intros _. unfold ids_line. rewrite fmap_cons.
  destruct (FormatUint <$> ids) as [|w ws]; simpl; [apply FormatUint_nonempty|].
  intros [H _]%app_nil. by apply FormatUint_nonempty in H.
Qed.

Lemma manifest_line_ids metas : manifest_line metas = ids_line (FileID <$> metas) ++ [Byte.x0a].
Proof. unfold manifest_line, ids_line. by rewrite <- list_fmap_compose. Qed.

Lemma last_line_manifest data metas :
  manifest_complete data -> metas <> [] -> Forall (fun m => is_u64 (FileID m)) metas ->
  last_line (data ++ manifest_line metas) = ids_line (FileID <$> metas).
Proof.
  intros Hc Hne Hu. rewrite manifest_line_ids.
  assert (H : Forall (fun c => is_space c = false) (ids_line (FileID <$> metas)))
    by (apply ids_line_chars; by apply Forall_fmap).
  apply last_line_append; [done| |by apply TrimSpace_id|apply ids_line_nonempty; by destruct metas].
  intros Hin. rewrite Forall_forall in H. by apply H in Hin.
Qed.

(** *** The order of the files *)

Lemma metaByID_gen (metas : list SSTableMeta) (m0 : gmap Z SSTableMeta) id :
  NoDup (FileID <$> metas) ->
  foldl (fun m meta => <[FileID meta := meta]> m) m0 metas !! id =
  match list_find (fun m => FileID m = id) metas with Some (_, meta) => Some meta | None => m0 !! id end.
Proof.
  revert m0. induction metas as [|meta metas IH]; intros m0; [done|].
  rewrite fmap_cons. intros [Hnin Hnd]%NoDup_cons. cbn [foldl list_find]. rewrite IH by done.
  case_decide as Heq.
  - destruct (list_find (fun m => FileID m = id) metas) as [[i m']|] eqn:Hf.
    + apply list_find_Some in Hf as (Hi & Hid & _). destruct Hnin. rewrite Heq, <- Hid.
      apply list_elem_of_fmap. exists m'. split; [done|]. by eapply list_elem_of_lookup_2.
    + rewrite <- Heq. apply lookup_insert_eq.
  - destruct (list_find (fun m => FileID m = id) metas) as [[i m']|]; [done|].
    by rewrite lookup_insert_ne.
Qed.

Lemma metaByID_elem metas meta :
  NoDup (FileID <$> metas) -> meta ∈ metas -> metaByID metas !! FileID meta = Some meta.
Proof.
  intros Hnd Hin. unfold metaByID. rewrite metaByID_gen by done.
  destruct (list_find (fun m => FileID m = FileID meta) metas) as [[i m']|] eqn:Hf.
  - apply list_find_Some in Hf as (Hi & Hid & _). f_equal.
    apply list_elem_of_lookup in Hin as [j Hj].
    assert (i = j) as ->; [|congruence].
    apply (NoDup_lookup _ i j (FileID meta) Hnd); rewrite list_lookup_fmap; [rewrite Hi|rewrite Hj]; simpl; congruence.
  - apply list_find_None in Hf. rewrite Forall_forall in Hf. by destruct (Hf meta Hin).
Qed.

Lemma omap_metaByID metas listed :
  NoDup (FileID <$> metas) -> listed ⊆ metas ->
  omap (fun id => metaByID metas !! id) (FileID <$> listed) = listed.
Proof.
  intros Hnd. induction listed as [|m listed IH]; intros Hsub; [done|].
  rewrite fmap_cons. cbn [omap list_omap]. rewrite metaByID_elem; [|done|apply Hsub; by left].
  f_equal. apply IH. intros x Hx. apply Hsub. by right.
Qed.

#[export] Instance id_le_trans : Transitive id_le.
Proof. intros a b c. unfold id_le. lia. Qed.
#[export] Instance id_le_total : Total id_le.
Proof. intros a b. unfold id_le. lia. Qed.

Lemma filter_StronglySorted {A} (R : A -> A -> Prop) (P : A -> Prop) `{forall x, Decision (P x)} l :
  StronglySorted R l -> StronglySorted R (filter P l).
Proof.
  induction 1 as [|x l _ IH Hall]; [constructor|]. rewrite filter_cons. case_decide; [|done].
  constructor; [done|]. rewrite Forall_forall in Hall |- *.
  intros y [_ Hy]%list_elem_of_filter. by apply Hall.
Qed.

Lemma filter_Permutation {A} (P : A -> Prop) `{forall x, Decision (P x)} (l k : list A) :
  l ≡ₚ k -> filter P l ≡ₚ filter P k.
Proof. intros Hp. by rewrite Hp. Qed.

(** The sorted list of the files is determined by the set of files. *)
Lemma sorted_metas_unique (l k : list SSTableMeta) :
  NoDup (FileID <$> k) -> StronglySorted id_le l -> StronglySorted id_le k -> l ≡ₚ k -> l = k.
Proof.
  intros Hnd Hl Hk Hp. apply (StronglySorted_unique_strong id_le); [|done..].
  intros x y Hx Hy Hxy Hyx. unfold id_le in *. assert (Heq : FileID x = FileID y) by lia.
  rewrite Hp in Hx. apply list_elem_of_lookup in Hx as [i Hi]. apply list_elem_of_lookup in Hy as [j Hj].
  assert (i = j) as ->; [|congruence].
  apply (NoDup_lookup _ i j (FileID y) Hnd); rewrite list_lookup_fmap; [rewrite Hi|rewrite Hj]; simpl; congruence.
Qed.

(** The round trip. *)
Lemma manifest_order_append data listed extra metas :
  manifest_complete data -> listed <> [] ->
  Forall (fun m => is_u64 (FileID m)) listed ->
  NoDup (FileID <$> (listed ++ extra)) -> StronglySorted id_le extra -> metas ≡ₚ listed ++ extra ->
  manifest_order (data ++ manifest_line listed) (merge_sort id_le metas) = listed ++ extra.
Proof.
  intros Hc Hne Hu Hnd Hs Hp. unfold manifest_order.
  rewrite last_line_manifest by done.
  assert (Hids : FileID <$> listed <> []) by (by destruct listed).
  destruct (ids_line (FileID <$> listed)) eqn:Hl; [by apply ids_line_nonempty in Hl|].
  rewrite <- Hl, line_ids_Join; [|done|by apply Forall_fmap]. clear Hl.
  assert (Hperm : merge_sort id_le metas ≡ₚ listed ++ extra) by (by rewrite merge_sort_Permutation).
  assert (Hnd' : NoDup (FileID <$> merge_sort id_le metas)) by (by rewrite Hperm).
  rewrite omap_metaByID; [|done|intros x Hx; rewrite Hperm; set_solver]. f_equal.
  rewrite fmap_app in Hnd. apply NoDup_app in Hnd as (_ & Hdis & Hnde).
  apply sorted_metas_unique; [done|apply filter_StronglySorted; apply (StronglySorted_merge_sort id_le)|done|].
  rewrite (filter_Permutation _ _ _ Hperm), filter_app, filter_none, filter_all; [done| |].
  - apply Forall_forall. intros m Hm Hin. apply (Hdis _ Hin). apply list_elem_of_fmap. eauto.
  - apply Forall_forall. intros m Hm Hn. apply Hn, list_elem_of_fmap. eauto.
Qed.
