(* ===== verification/Durable.v ===== *)
(** * Durable states and what start-up recovers from them

    [durable F tabs logs] describes a disk: the table files with their logical
    order, and the logs with their operations and a possibly torn last record.
    [NewDB_wp] states what [NewDBWithOptions] makes of such a disk. *)
From S2P Require Export Recovery.

(** ** Directories *)

#[export] Instance name_le_total : Total name_le.
Proof.
  intros a b. unfold name_le. destruct (decide (blt b a)) as [H|H]; [right|by left].
  intros H'. apply (blt_irrefl a). by eapply blt_trans.
Qed.

Lemma dir_names_Permutation sel F : dir_names sel F ≡ₚ omap sel (map_to_list F).*1.
Proof. apply merge_sort_Permutation. Qed.

Lemma elem_of_dir_names sel F name :
  name ∈ dir_names sel F <-> exists p, sel p = Some name /\ is_Some (F !! p).
Proof.
  rewrite dir_names_Permutation, list_elem_of_omap. split.
  - intros (p & ([q c] & -> & Hin)%list_elem_of_fmap & Hs). exists q. split; [done|].
    apply elem_of_map_to_list in Hin. eauto.
  - intros (p & Hs & [c Hc]). exists p. split; [|done]. apply list_elem_of_fmap.
    exists (p, c). split; [done|]. by apply elem_of_map_to_list.
Qed.

Lemma NoDup_omap_inj {A B} (f : A -> option B) (l : list A) :
  (forall x y z, f x = Some z -> f y = Some z -> x = y) -> NoDup l -> NoDup (omap f l).
Proof.
  intros Hf. induction 1 as [|x l Hx _ IH]; [constructor|]. cbn [omap list_omap].
  destruct (f x) as [z|] eqn:Hz; [|done]. constructor; [|done].
  intros (y & Hy & Hfy)%list_elem_of_omap. by rewrite (Hf x y z Hz Hfy) in Hx.
Qed.

Lemma dir_names_NoDup sel F :
  (forall p q n, sel p = Some n -> sel q = Some n -> p = q) -> NoDup (dir_names sel F).
Proof.
  intros Hs. rewrite dir_names_Permutation. apply NoDup_omap_inj; [done|]. apply NoDup_fst_map_to_list.
Qed.

Lemma sst_name_inj p q n : sst_name p = Some n -> sst_name q = Some n -> p = q.
Proof. destruct p, q; simpl; congruence. Qed.
Lemma wal_name_inj p q n : wal_name p = Some n -> wal_name q = Some n -> p = q.
Proof. destruct p, q; simpl; congruence. Qed.

Lemma elem_of_sst_names F name : name ∈ dir_names sst_name F <-> is_Some (F !! SstFile name).
Proof.
  rewrite elem_of_dir_names. split; [intros (p & Hs & H); by destruct p; simplify_eq/=|].
  intros H. by exists (SstFile name).
Qed.

Lemma elem_of_wal_names F name : name ∈ dir_names wal_name F <-> is_Some (F !! WalFile name).
Proof.
  rewrite elem_of_dir_names. split; [intros (p & Hs & H); by destruct p; simplify_eq/=|].
  intros H. by exists (WalFile name).
Qed.

Lemma Ext_sst id : Ext (sst_filename id) = lit ".sst".
Proof. apply (Ext_app (Sprintf06d id) (lit "sst")). by repeat constructor. Qed.

Lemma Ext_wal id : Ext (wal_filename id) = lit ".log".
Proof.
  unfold wal_filename. change (lit "wal.log") with (lit "wal" ++ Byte.x2e :: lit "log").
  rewrite app_assoc. apply (Ext_app _ (lit "log")). by repeat constructor.
Qed.

Lemma sst_filename_inj i j : is_u64 i -> is_u64 j -> sst_filename i = sst_filename j -> i = j.
Proof. intros Hi Hj H%app_inv_tail. by apply Sprintf06d_inj. Qed.

Lemma wal_filename_inj i j : is_u64 i -> is_u64 j -> wal_filename i = wal_filename j -> i = j.
Proof. intros Hi Hj H%app_inv_tail. by apply Sprintf06d_inj. Qed.

(** Identifiers that six digits can hold. *)
Definition id6 (i : Z) : Prop := (0 <= i < 10 ^ 6)%Z.

Lemma id6_u64 i : id6 i -> is_u64 i.
Proof. unfold id6, is_u64. lia. Qed.

#[export] Hint Resolve id6_u64 : go.

(** ** Durable disks *)

Record log := mkLog { log_id : Z; log_ops : list wal_op; log_torn : bytes }.

Definition log_bytes (l : log) : bytes := encode_ops (log_ops l) ++ log_torn l.

(** The tail of a log: nothing, or a strict prefix of a record. *)
Definition torn_tail (t : bytes) : Prop :=
  t = [] \/ exists o q, op_fits o /\ encode_op o = t ++ q /\ q <> [].

Record log_ok (l : log) : Prop := {
  log_id6 : id6 (log_id l);
  log_fits : Forall op_fits (log_ops l);
  log_tail : torn_tail (log_torn l)
}.

(** The order in which the files are loaded. *)
Definition load_order (F : files) (metas : list SSTableMeta) : list SSTableMeta :=
  match F !! ManifestFile with
  | None => merge_sort id_le metas
  | Some data => manifest_order data (merge_sort id_le metas)
  end.

Record durable (F : files) (tabs : list table) (logs : list log) : Prop := {
  dur_tabs : Forall (table_on F) tabs;
  dur_id6 : Forall (fun t => id6 t.1) tabs;
  dur_nodup : NoDup tabs.*1;
  dur_files : forall name c, F !! SstFile name = Some c -> Ext name = lit ".sst" ->
    (exists t, t ∈ tabs /\ name = sst_filename t.1) \/ (zlen c < FooterSize)%Z;
  dur_order : load_order F (meta_of <$> tabs) = meta_of <$> tabs;
  dur_line : forall data id, F !! ManifestFile = Some data -> id ∈ line_ids (last_line data) -> id ∈ tabs.*1;
  dur_logs : Forall log_ok logs;
  dur_sorted : StronglySorted Z.lt (log_id <$> logs);
  dur_on : Forall (fun l => F !! WalFile (wal_filename (log_id l)) = Some (log_bytes l)) logs;
  dur_only : forall name, is_Some (F !! WalFile name) -> Ext name = lit ".log" ->
    exists l, l ∈ logs /\ name = wal_filename (log_id l)
}.

(** The operations of the logs, in order, as a map. *)
Definition apply_op (m : gmap bytes (option bytes)) (o : wal_op) := <[op_key o := op_val o]> m.
Definition all_ops (logs : list log) : list wal_op := mjoin (log_ops <$> logs).
Definition ops_map (ops : list wal_op) : gmap bytes (option bytes) := foldl apply_op ∅ ops.

(** What the disk knows about a key. *)
Definition disk_version (tabs : list table) (logs : list log) (key : bytes) : option (option bytes) :=
  match ops_map (all_ops logs) !! key with
  | Some v => Some v
  | None => newest tabs.*2 key
  end.

(** ** Loading the tables *)

Lemma meta_of_id t : FileID (meta_of t) = t.1.
Proof. done. Qed.

(** A complete file of a well-formed run loads as its metadata. *)
Lemma load_table F t :
  table_on F t -> load_file t.1 (sst_bytes t.2) = LoadOk (meta_of t).
Proof. intros [[Hne Hs Hfit] _]. by apply load_file_sst_bytes. Qed.

Definition bump_all (db : DB) (metas : list SSTableMeta) : DB :=
  foldl (fun db m => bumpNextFileID db (FileID m)) db metas.

(** The table with this file name. *)
Definition table_named (tabs : list table) (name : bytes) : option table :=
  snd <$> list_find (fun t => name = sst_filename t.1) tabs.

Lemma table_named_Some tabs name t :
  table_named tabs name = Some t -> t ∈ tabs /\ name = sst_filename t.1.
Proof.
  intros ([i t'] & (Hi & Hn & _)%list_find_Some & ->)%fmap_Some.
  split; [by eapply list_elem_of_lookup_2|done].
Qed.

Lemma NoDup_ids_inj (tabs : list table) t t' :
  NoDup tabs.*1 -> t ∈ tabs -> t' ∈ tabs -> t.1 = t'.1 -> t = t'.
Proof.
  intros Hnd [i Hi]%list_elem_of_lookup [j Hj]%list_elem_of_lookup Heq.
  assert (i = j) as ->; [|congruence].
  apply (NoDup_lookup _ i j t.1 Hnd); rewrite list_lookup_fmap; [by rewrite Hi|rewrite Hj]; simpl; congruence.
Qed.

Lemma table_named_elem tabs t :
  Forall (fun t => id6 t.1) tabs -> NoDup tabs.*1 -> t ∈ tabs ->
  table_named tabs (sst_filename t.1) = Some t.
Proof.
  intros Hid Hnd Ht. rewrite Forall_forall in Hid. unfold table_named.
  destruct (list_find _ tabs) as [[i t']|] eqn:Hf; simpl.
  - apply list_find_Some in Hf as (Hi & Hn & _). apply list_elem_of_lookup_2 in Hi.
    apply sst_filename_inj in Hn; auto with go. f_equal. by eapply NoDup_ids_inj.
  - apply list_find_None in Hf. rewrite Forall_forall in Hf. by destruct (Hf t Ht).
Qed.

Lemma named_Permutation F tabs logs :
  durable F tabs logs -> omap (table_named tabs) (dir_names sst_name F) ≡ₚ tabs.
Proof.
  intros []. apply NoDup_Permutation.
  - apply NoDup_omap_inj; [|apply dir_names_NoDup, sst_name_inj].
    intros x y t [_ ->]%table_named_Some [_ ->]%table_named_Some. done.
  - by eapply NoDup_fmap_1.
  - intros t. rewrite list_elem_of_omap. split.
    + by intros (name & _ & [? _]%table_named_Some).
    + intros Ht. exists (sst_filename t.1). split; [|by apply table_named_elem].
      rewrite elem_of_sst_names. rewrite Forall_forall in dur_tabs0.
      destruct (dur_tabs0 t Ht) as [_ Hf]. eauto.
Qed.

Lemma load_loop_wp F tabs logs names db metas :
  durable F tabs logs -> (forall name, name ∈ names -> is_Some (F !! SstFile name)) ->
  wp no_fault (load_loop names db metas)
    (fun r G => G = F /\
       r = (bump_all db (meta_of <$> omap (table_named tabs) names),
            inl (metas ++ (meta_of <$> omap (table_named tabs) names))))
    (fun _ => False) F.
Proof.
  intros Hdur. pose proof Hdur as Hdur'. destruct Hdur'.
  revert db metas. induction names as [|name names IH]; intros db metas Hin.
  { apply wp_ret. by rewrite app_nil_r. }
  destruct (Hin name) as [c Hc]; [by left|].
  assert (Hin' : forall name, name ∈ names -> is_Some (F !! SstFile name))
    by (intros n Hn; apply Hin; by right).
  cbn [load_loop omap list_omap]. destruct (table_named tabs name) as [t|] eqn:Ht.
  - apply table_named_Some in Ht as [Ht ->]. rewrite Ext_sst, decide_True by done.
    rewrite Forall_forall in dur_tabs0, dur_id7.
    apply wp_bind, wp_ReadFile; [|no_faults..].
    fold (sst_path t.1). rewrite (on_file _ _ (dur_tabs0 t Ht)).
    assert (Sscanf06d (sst_filename t.1) = t.1) as -> by (by apply Sscanf06d_Sprintf06d, dur_id7).
    rewrite (load_table F) by auto. eapply wp_mono; [by apply IH| |done].
    intros r G [-> ->]. split; [done|]. rewrite <- app_assoc. done.
  - case_decide as Hext.
    + apply wp_bind, wp_ReadFile; [|no_faults..]. rewrite Hc.
      destruct (dur_files0 name c Hc Hext) as [(t & Hin1 & ->)|Hsmall].
      { by rewrite table_named_elem in Ht. }
      unfold load_file. rewrite (proj2 (Z.ltb_lt _ _) Hsmall). by apply IH.
    + by apply IH.
Qed.

Lemma bump_all_spec db metas :
  Forall (fun m => id6 (FileID m)) metas -> (0 <= nextFileID db)%Z ->
  exists next, bump_all db metas = set_nextID db next /\
    (nextFileID db <= next)%Z /\ (next = nextFileID db \/ exists m, m ∈ metas /\ next = FileID m + 1)%Z /\
    Forall (fun m => FileID m < next)%Z metas.
Proof.
  intros H. revert db. induction H as [|m metas Hm _ IH]; intros db Hdb.
  { exists (nextFileID db). split_and!; [by destruct db|lia|by left|constructor]. }
  unfold bump_all. cbn [foldl]. fold (bump_all (bumpNextFileID db (FileID m)) metas).
  unfold id6 in Hm. unfold bumpNextFileID. destruct (nextFileID db <=? FileID m)%Z eqn:Hle; bool_to_prop.
  - rewrite u64_small by lia.
    destruct (IH (set_nextID db (FileID m + 1))) as (next & -> & Hn & Hmax & Hall); simpl in *; [lia|].
    exists next. split_and!; [done|lia| |constructor; [lia|done]].
    right. destruct Hmax as [->|(m' & Hm' & ->)]; eexists; (split; [|done]); [by left|by right].
  - destruct (IH db) as (next & -> & Hn & Hmax & Hall); [done|].
    exists next. split_and!; [done|lia| |constructor; [lia|done]].
    destruct Hmax as [->|(m' & Hm' & ->)]; [by left|right]. exists m'. split; [by right|done].
Qed.

Lemma loadSSTables_wp F tabs logs db :
  durable F tabs logs -> (0 <= nextFileID db)%Z ->
  wp no_fault (loadSSTables db)
    (fun r G => G = F /\ exists next,
       r = (set_sst (set_nextID db next) (meta_of <$> tabs), None) /\
       (nextFileID db <= next)%Z /\ (next = nextFileID db \/ exists t, t ∈ tabs /\ next = t.1 + 1)%Z /\
       Forall (fun t => t.1 < next)%Z tabs)
    (fun _ => False) F.
Proof.
  intros Hdur Hdb. pose proof (named_Permutation _ _ _ Hdur) as Hp.
  pose proof Hdur as Hdur'. destruct Hdur'.
  unfold loadSSTables. apply wp_bind, wp_ReadDir; [|no_faults..].
  apply wp_bind. eapply wp_mono; [eapply load_loop_wp; [done|]| |done].
  { intros name. by rewrite elem_of_sst_names. }
  generalize dependent (omap (table_named tabs) (dir_names sst_name F)). intros loaded Hp.
  intros r G [-> ->]. rewrite app_nil_l.
  assert (Hpm : meta_of <$> loaded ≡ₚ meta_of <$> tabs) by (by rewrite Hp).
  destruct (bump_all_spec db (meta_of <$> loaded)) as (next & -> & Hn & Hmax & Hlt); [|done|].
  { rewrite Hpm. by apply Forall_fmap. }
  assert (Hsort : merge_sort id_le (meta_of <$> loaded) = merge_sort id_le (meta_of <$> tabs)).
  { apply sorted_metas_unique; try apply (StronglySorted_merge_sort id_le).
    - by rewrite merge_sort_Permutation, metas_ids.
    - by rewrite !merge_sort_Permutation. }
  rewrite Hsort. clear Hsort. unfold load_order in dur_order0.
  apply wp_bind, wp_bind, wp_ReadFile; [|no_faults..].
  rewrite Hpm in Hlt. apply Forall_fmap in Hlt.
  assert (Hmax' : (next = nextFileID db \/ exists t, t ∈ tabs /\ next = t.1 + 1)%Z).
  { destruct Hmax as [->|(m & Hm & ->)]; [by left|right]. rewrite Hpm in Hm.
    apply list_elem_of_fmap in Hm as (t & -> & Ht). by exists t. }
  destruct (F !! ManifestFile) as [data|]; repeat apply wp_ret; rewrite dur_order0; (split; [done|]);
    exists next; (split_and!; [done|lia|done|done]).
Qed.

(** ** Replaying the logs *)

Definition mem_after (ops : list wal_op) (m : MemTable) : MemTable :=
  foldl (call_back mem_onPut mem_onDelete) m ops.

Lemma call_back_Put m o : call_back mem_onPut mem_onDelete m o = MemTable.Put m (op_key o) (op_val o).
Proof. by destruct o. Qed.

Lemma mem_after_app ops1 ops2 m : mem_after (ops1 ++ ops2) m = mem_after ops2 (mem_after ops1 m).
Proof. apply foldl_app. Qed.

Lemma mem_after_wf ops m : mem_wf m -> mem_wf (mem_after ops m).
Proof.
  revert m. induction ops as [|o ops IH]; intros m Hm; [done|]. simpl. apply IH.
  rewrite call_back_Put. by apply Put_wf.
Qed.

Lemma mem_after_map ops m : mem_wf m -> mem_map (mem_after ops m) = foldl apply_op (mem_map m) ops.
Proof.
  revert m. induction ops as [|o ops IH]; intros m Hm; [done|]. simpl.
  rewrite call_back_Put, IH by (by apply Put_wf). by rewrite Put_map by (by apply mem_sorted).
Qed.

(** Replaying a log with a torn tail applies its complete operations. *)
Lemma Replay_log l m :
  log_ok l -> fst (Replay mem_onPut mem_onDelete (log_bytes l) m) = mem_after (log_ops l) m.
Proof.
  intros [_ Hfit Htail]. unfold log_bytes.
  destruct (Replay_ops mem_onPut mem_onDelete (log_ops l) (log_torn l) m Hfit) as [fuel ->].
  destruct Htail as [->|(o & q & Ho & Heq & Hq)]; [by destruct fuel|].
  by apply (replay_loop_torn _ _ _ o _ q).
Qed.

Lemma OpenWAL_existing name c F Q C :
  F !! WalFile name = Some c -> Q (inl (mkWAL (Some name))) F -> wp no_fault (OpenWAL name) Q C F.
Proof.
  intros HF HQ. unfold OpenWAL. apply wp_bind, wp_syscall; [|no_faults..].
  rewrite HF. by apply wp_ret.
Qed.

Lemma replay_logs_wp F logs m :
  Forall log_ok logs ->
  Forall (fun l => F !! WalFile (wal_filename (log_id l)) = Some (log_bytes l)) logs ->
  wp no_fault (replay_logs (log_id <$> logs) m)
    (fun m' G => G = F /\ m' = mem_after (all_ops logs) m) (fun _ => False) F.
Proof.
  intros Hok Hon. revert m. induction Hok as [|l logs Hl _ IH]; intros m; [by apply wp_ret|].
  apply Forall_cons in Hon as [Hf Hon]. rewrite fmap_cons. cbn [replay_logs].
  apply wp_bind. eapply OpenWAL_existing; [done|].
  apply wp_bind, wp_ReadFile; [|no_faults..]. rewrite Hf, Replay_log by done.
  apply wp_bind. unfold Wal.Close; cbn [wal_file].
  apply wp_bind, wp_syscall; [|no_faults..]. apply wp_syscall; [|no_faults..].
  eapply wp_mono; [by apply IH| |done]. intros m' G [-> ->]. split; [done|].
  unfold all_ops. rewrite fmap_cons. change (mjoin (log_ops l :: (log_ops <$> logs)))
    with (log_ops l ++ mjoin (log_ops <$> logs)). by rewrite mem_after_app.
Qed.

(** The identifiers read from the directory are those of the logs, sorted. *)
Lemma wal_ids_sorted F tabs logs :
  durable F tabs logs ->
  merge_sort Z.le (Sscanf06d <$> filter (fun n => Ext n = lit ".log") (dir_names wal_name F)) =
  log_id <$> logs.
Proof.
  intros []. rewrite Forall_forall in dur_logs0, dur_on0.
  assert (Hnd : NoDup (log_id <$> logs)).
  { clear -dur_sorted0. induction dur_sorted0 as [|i ids _ IH Hall]; [constructor|].
    constructor; [|done]. intros Hin. rewrite Forall_forall in Hall. specialize (Hall i Hin). lia. }
  assert (Hp : filter (fun n => Ext n = lit ".log") (dir_names wal_name F) ≡ₚ
               (fun l => wal_filename (log_id l)) <$> logs).
  { apply NoDup_Permutation.
    - apply NoDup_filter, dir_names_NoDup, wal_name_inj.
    - change (fun l => wal_filename (log_id l)) with (wal_filename ∘ log_id).
      rewrite list_fmap_compose. apply NoDup_fmap_2_strong; [|done].
      intros i j (l & -> & Hl)%list_elem_of_fmap (l' & -> & Hl')%list_elem_of_fmap.
      apply wal_filename_inj; apply id6_u64, dur_logs0; done.
    - intros n. rewrite list_elem_of_filter, elem_of_wal_names, list_elem_of_fmap. split.
      + intros [Hext Hn]. destruct (dur_only0 n Hn Hext) as (l & Hl & ->). eauto.
      + intros (l & -> & Hl). split; [apply Ext_wal|]. rewrite dur_on0 by done. eauto. }
  apply (StronglySorted_unique Z.le).
  - apply (StronglySorted_merge_sort Z.le).
  - clear -dur_sorted0. induction dur_sorted0 as [|i ids _ IH Hall]; constructor; [done|].
    eapply Forall_impl; [exact Hall|]. intros j Hj. lia.
  - rewrite merge_sort_Permutation, Hp, <- list_fmap_compose.
    apply reflexive_eq. apply list_fmap_ext. intros i l Hl. simpl.
    apply Sscanf06d_Sprintf06d, dur_logs0. by eapply list_elem_of_lookup_2.
Qed.

Lemma RecoverFromWAL_wp F tabs logs db :
  durable F tabs logs ->
  wp no_fault (RecoverFromWAL db)
    (fun r G => G = F /\
       r = (set_walID (set_mem db (mem_after (all_ops logs) (memTable db)))
              (match last logs with Some l => log_id l + 1 | None => 1 end)%Z, None))
    (fun _ => False) F.
Proof.
  intros Hdur. pose proof Hdur as [_ _ _ _ _ _ Hok _ Hon _].
  unfold RecoverFromWAL. apply wp_bind, wp_ReadDir; [|no_faults..].
  rewrite (wal_ids_sorted _ _ _ Hdur). apply wp_bind.
  eapply wp_mono; [by apply replay_logs_wp| |done]. intros m G [-> ->]. apply wp_ret.
  split; [done|]. rewrite fmap_last. destruct (last logs) as [l|] eqn:Hl; [|done].
  simpl. rewrite u64_small; [done|].
  apply last_Some in Hl as [ls ->]. apply Forall_app in Hok as [_ [[Hid _ _] _]%Forall_cons].
  unfold id6 in Hid. lia.
Qed.

(** ** The size of the recovered table *)

Definition op_weight (o : wal_op) : Z := (28 + 2 * zlen (op_key o) + vlen (op_val o))%Z.
Definition ops_weight (ops : list wal_op) : Z := foldr (fun o s => (op_weight o + s)%Z) 0%Z ops.

Lemma Put_weight m key v :
  run_sorted (pairs m) ->
  (run_weight (pairs (MemTable.Put m key v)) <= run_weight (pairs m) + (28 + 2 * zlen key + vlen v))%Z.
Proof.
  intros Hs. destruct (Put_cases m key v Hs) as (lo & hi & _ & _ & -> & Hcase).
  destruct Hcase as [(p & _ & -> & _)|[-> _]]; rewrite !run_weight_app; simpl;
    unfold pair_weight; simpl; [|lia].
  pose proof (zlen_nonneg (Key p)). pose proof (vlen_nonneg (Value p)). lia.
Qed.

Lemma mem_after_weight ops m :
  mem_wf m -> (run_weight (pairs (mem_after ops m)) <= run_weight (pairs m) + ops_weight ops)%Z.
Proof.
  revert m. induction ops as [|o ops IH]; intros m Hm; [simpl; lia|].
  simpl. rewrite call_back_Put. specialize (IH _ (Put_wf m (op_key o) (op_val o) Hm)).
  pose proof (Put_weight m (op_key o) (op_val o) (mem_sorted _ Hm)). unfold op_weight. lia.
Qed.

Lemma mem_after_Forall (P : KVPair -> Prop) ops m :
  mem_wf m -> Forall P (pairs m) -> Forall (fun o => P (mkKV (op_key o) (op_val o))) ops ->
  Forall P (pairs (mem_after ops m)).
Proof.
  intros Hm HP Hops. revert m Hm HP. induction Hops as [|o ops Ho _ IH]; intros m Hm HP; [done|].
  simpl. rewrite call_back_Put. apply IH; [by apply Put_wf|].
  apply Put_Forall; [by apply mem_sorted|done|done].
Qed.

(** A run whose weight is below the tombstone mark can be written. *)
Lemma weight_fits ps : (24 + run_weight ps < TombstoneLen)%Z -> table_fits ps.
Proof.
  intros H. split; [|pose proof (sst_bytes_weight ps); unfold TombstoneLen in *; lia].
  assert (Hall : forall qs, (run_weight qs < TombstoneLen)%Z -> Forall pair_fits qs).
  2:{ apply Hall. lia. }
  induction qs as [|p qs IH]; intros Hq; [constructor|].
  change (run_weight (p :: qs)) with (pair_weight p + run_weight qs)%Z in Hq.
  unfold pair_weight in Hq. pose proof (zlen_nonneg (Key p)). pose proof (vlen_nonneg (Value p)).
  pose proof (run_weight_nonneg qs). constructor; [|apply IH; lia].
  split; unfold TombstoneLen in *; lia.
Qed.

Lemma ops_map_app ops1 ops2 key :
  ops_map (ops1 ++ ops2) !! key =
  match ops_map ops2 !! key with Some v => Some v | None => ops_map ops1 !! key end.
Proof.
  unfold ops_map. rewrite foldl_app. generalize (foldl apply_op ∅ ops1). intros m.
  induction ops2 as [|o ops2 IH] using rev_ind; [done|].
  rewrite !foldl_app. cbn [foldl]. unfold apply_op at 1 3.
  destruct (decide (op_key o = key)) as [<-|Hne]; [by rewrite !lookup_insert_eq|].
  by rewrite !lookup_insert_ne.
Qed.

Lemma mem_after_ops_map ops : mem_map (mem_after ops NewMemTable) = ops_map ops.
Proof. rewrite mem_after_map by auto with go. done. Qed.

(** ** Removing the logs *)

Lemma remove_logs_wp F names :
  wp no_fault (remove_logs names)
    (fun _ G =>
       (forall n, n ∈ names -> Ext n = lit ".log" -> G !! WalFile n = None) /\
       (forall p, (forall n, n ∈ names -> Ext n = lit ".log" -> p <> WalFile n) -> G !! p = F !! p) /\
       (forall p, F !! p = None -> G !! p = None))
    (fun _ => False) F.
Proof.
  revert F. induction names as [|n names IH]; intros F.
  { apply wp_ret. split_and!; [by intros n ?%not_elem_of_nil|done|done]. }
  cbn [remove_logs]. case_decide as He.
  - apply wp_bind, wp_syscall; [|no_faults..]. eapply wp_mono; [apply IH| |done].
    intros _ G (H1 & H2 & H3). split_and!.
    + intros m [->|Hm]%elem_of_cons Hem; [|by apply H1]. apply H3, lookup_delete_eq.
    + intros p Hp. rewrite H2 by (intros m Hm; apply Hp; by right).
      apply lookup_delete_ne. intros <-. by apply (Hp n); [left|done|].
    + intros p Hp. apply H3. rewrite lookup_delete_None. by right.
  - eapply wp_mono; [apply IH| |done]. intros _ G (H1 & H2 & H3). split_and!; [| |done].
    + intros m [->|Hm]%elem_of_cons Hem; [done|by apply H1].
    + intros p Hp. apply H2. intros m Hm. apply Hp. by right.
Qed.

Lemma removeAllOldWalFiles_wp F :
  wp no_fault removeAllOldWalFiles
    (fun _ G =>
       (forall n, Ext n = lit ".log" -> G !! WalFile n = None) /\
       (forall p, (forall n, Ext n = lit ".log" -> p <> WalFile n) -> G !! p = F !! p))
    (fun _ => False) F.
Proof.
  unfold removeAllOldWalFiles. apply wp_bind, wp_ReadDir; [|no_faults..].
  apply wp_bind. eapply wp_mono; [apply remove_logs_wp| |done].
  intros u G (H1 & H2 & H3). apply wp_ret. split.
  - intros n He. destruct (decide (n ∈ dir_names wal_name F)) as [Hin|Hin]; [by apply H1|].
    apply H3. rewrite elem_of_wal_names in Hin. destruct (F !! WalFile n) eqn:Hf; [|done].
    destruct Hin. eauto.
  - intros p Hp. apply H2. intros n _. apply Hp.
Qed.

(** ** The invariant of a running engine

    The memory table is the content of the current log; the frozen table, if any,
    that of the log before it; the log prepared in advance is empty. *)
Definition opt_list {A} (o : option A) : list A := match o with Some x => [x] | None => [] end.

Definition live_logs (old : option log) (cur : log) (next : option log) : list log :=
  opt_list old ++ cur :: opt_list next.

Definition log_wal (l : log) : WAL := mkWAL (Some (wal_filename (log_id l))).

Record live (db : DB) (F : files) (tabs : list table) (old : option log) (cur : log) (next : option log) : Prop := {
  live_inv : db_inv db F tabs;
  live_dur : durable F tabs (live_logs old cur next);
  live_wal : wal db = Some (log_wal cur);
  live_cur : log_torn cur = [];
  live_mem : mem_map (memTable db) = ops_map (log_ops cur);
  live_old : match old, immTable db with
             | Some l, Some imm => log_torn l = [] /\ mem_map imm = ops_map (log_ops l)
             | None, None => True
             | _, _ => False
             end;
  live_next : nextwal db = log_wal <$> next;
  live_empty : match next with Some l => log_ops l = [] /\ log_torn l = [] | None => True end;
  live_walID : Forall (fun l => log_id l < walFileID db)%Z (live_logs old cur next);
  live_manifest : manifest_complete (default [] (F !! ManifestFile))
}.

Lemma all_ops_app l1 l2 : all_ops (l1 ++ l2) = all_ops l1 ++ all_ops l2.
Proof. unfold all_ops. by rewrite fmap_app, join_app. Qed.

(** In memory and on disk, the same versions. *)
Lemma live_version db F tabs old cur next key :
  live db F tabs old cur next ->
  version db tabs key = disk_version tabs (live_logs old cur next) key.
Proof.
  intros []. unfold version, disk_version, live_logs. rewrite all_ops_app, ops_map_app.
  assert (all_ops (cur :: opt_list next) = log_ops cur) as ->.
  { unfold all_ops. destruct next as [l|]; simpl; [|by rewrite app_nil_r].
    destruct live_empty0 as [-> _]. by rewrite !app_nil_r. }
  rewrite live_mem0. destruct (ops_map (log_ops cur) !! key); [done|].
  destruct old as [l|], (immTable db) as [imm|]; simpl; try done.
  destruct live_old0 as [_ ->]. unfold all_ops; simpl. by rewrite app_nil_r.
Qed.

(** ** How a durable disk evolves *)

(** Other logs over the same tables. *)
Lemma durable_logs F G tabs logs logs' :
  durable F tabs logs ->
  (forall n, G !! SstFile n = F !! SstFile n) -> G !! ManifestFile = F !! ManifestFile ->
  Forall log_ok logs' -> StronglySorted Z.lt (log_id <$> logs') ->
  Forall (fun l => G !! WalFile (wal_filename (log_id l)) = Some (log_bytes l)) logs' ->
  (forall name, is_Some (G !! WalFile name) -> Ext name = lit ".log" ->
    exists l, l ∈ logs' /\ name = wal_filename (log_id l)) ->
  durable G tabs logs'.
Proof.
  intros [] Hs Hm Hok Hsort Hon Honly. split; try done.
  - eapply Forall_impl; [exact dur_tabs0|]. intros t Ht. eapply table_on_agree; [done|apply Hs].
  - intros name c. rewrite Hs. apply dur_files0.
  - unfold load_order in *. by rewrite Hm.
  - rewrite Hm. exact dur_line0.
Qed.

Lemma manifest_appended_lookup F line :
  manifest_appended F line !! ManifestFile = Some (default [] (F !! ManifestFile) ++ line).
Proof. apply lookup_insert_eq. Qed.

Lemma manifest_appended_ne F line p : p <> ManifestFile -> manifest_appended F line !! p = F !! p.
Proof. intros. by apply lookup_insert_ne. Qed.

(** A file that the manifest does not mention comes last. *)
Lemma manifest_order_extra data metas new :
  FileID new ∉ line_ids (last_line data) ->
  manifest_order data (metas ++ [new]) = manifest_order data metas ++ [new].
Proof.
  intros Hnew. unfold manifest_order. destruct (last_line data) as [|c line]; [done|].
  assert (Hord : omap (fun id => metaByID (metas ++ [new]) !! id) (line_ids (c :: line)) =
                 omap (fun id => metaByID metas !! id) (line_ids (c :: line))).
  { induction (line_ids (c :: line)) as [|id ids IH]; [done|].
    apply not_elem_of_cons in Hnew as [Hne Hnew]. cbn [omap list_omap]. rewrite IH by done.
    unfold metaByID at 1. rewrite foldl_app. cbn [foldl].
    rewrite lookup_insert_ne by done. done. }
  rewrite Hord, filter_app, (filter_all _ [new]), app_assoc; [done|]. apply Forall_singleton.
  intros (m & Heq & (id & Hin & Hm)%list_elem_of_omap)%list_elem_of_fmap.
  assert (FileID m = id); [|congruence].
  clear -Hm. unfold metaByID in Hm. revert Hm. induction metas as [|x metas IH] using rev_ind; [done|].
  rewrite foldl_app. cbn [foldl]. intros [[? ->]|[? ?]]%lookup_insert_Some; auto.
Qed.

(** A complete file with a new identifier, not in the manifest yet, is the newest. *)
Lemma load_order_extra F G (tabs : list table) logs id ps :
  durable F tabs logs -> G !! ManifestFile = F !! ManifestFile ->
  Forall (fun t => t.1 < id)%Z tabs ->
  load_order G (meta_of <$> (tabs ++ [(id, ps)])) = meta_of <$> (tabs ++ [(id, ps)]).
Proof.
  intros [] Hm Hlt. unfold load_order in *. rewrite Hm. rewrite Forall_forall in Hlt.
  set (new := meta_of (id, ps)).
  assert (Hfresh : id ∉ tabs.*1).
  { intros (t & -> & Ht)%list_elem_of_fmap. specialize (Hlt t Ht). lia. }
  assert (Hsort : merge_sort id_le (meta_of <$> (tabs ++ [(id, ps)])) =
                  merge_sort id_le (meta_of <$> tabs) ++ [new]).
  { rewrite fmap_app. change (meta_of <$> [(id, ps)]) with [new]. apply sorted_metas_unique.
    - rewrite fmap_app, merge_sort_Permutation, metas_ids. apply NoDup_app. split_and!; [done| |apply NoDup_singleton].
      by intros x Hx ->%list_elem_of_singleton.
    - apply (StronglySorted_merge_sort id_le).
    - apply StronglySorted_app_2; [|apply (StronglySorted_merge_sort id_le)|by repeat constructor].
      intros a b Ha ->%list_elem_of_singleton. rewrite merge_sort_Permutation in Ha.
      apply list_elem_of_fmap in Ha as (t & -> & Ht). specialize (Hlt t Ht). unfold id_le. simpl. lia.
    - by rewrite !merge_sort_Permutation. }
  rewrite Hsort, fmap_app. change (meta_of <$> [(id, ps)]) with [new].
  destruct (F !! ManifestFile) as [data|] eqn:Hd; [|by rewrite dur_order0].
  rewrite manifest_order_extra, dur_order0; [done|].
  intros Hin. by apply Hfresh, (dur_line0 data).
Qed.

(** The file of a flush or of a compaction is complete. *)
Lemma durable_table F tabs logs id ps :
  durable F tabs logs -> run_ok ps -> id6 id -> Forall (fun t => t.1 < id)%Z tabs ->
  durable (<[sst_path id := sst_bytes ps]> F) (tabs ++ [(id, ps)]) logs.
Proof.
  intros Hdur Hok Hid Hlt. pose proof Hdur as Hdur'. destruct Hdur'. split.
  - apply tables_on_new; auto with go. rewrite Forall_forall in Hlt, dur_id7 |- *.
    intros t Ht. specialize (Hlt t Ht). specialize (dur_id7 t Ht). unfold id6 in *. lia.
  - apply Forall_app. by rewrite Forall_singleton.
  - rewrite fmap_app. apply NoDup_app. split_and!; [done| |apply NoDup_singleton].
    intros x (t & -> & Ht)%list_elem_of_fmap Hx%list_elem_of_singleton.
    rewrite Forall_forall in Hlt. specialize (Hlt t Ht). simpl in Hx. lia.
  - intros name c [[Hn <-]|[Hn Hc]]%lookup_insert_Some Hext.
    + left. exists (id, ps). split; [set_solver|]. by injection Hn.
    + destruct (dur_files0 name c Hc Hext) as [(t & Ht & ->)|?]; [left|by right].
      exists t. split; [set_solver|done].
  - eapply load_order_extra; [done|by apply lookup_insert_ne|done].
  - intros data i. rewrite lookup_insert_ne by done. intros Hd Hi.
    rewrite fmap_app. apply elem_of_app. left. by eapply dur_line0.
  - done.
  - done.
  - eapply Forall_impl; [exact dur_on0|]. intros l Hl. simpl in *. by rewrite lookup_insert_ne.
  - intros name. rewrite lookup_insert_ne by done. apply dur_only0.
Qed.

Lemma ids_u64 tabs : Forall (fun t : table => id6 t.1) tabs -> Forall is_u64 tabs.*1.
Proof. intros H. apply Forall_fmap. eapply Forall_impl; [exact H|]. intros t. apply id6_u64. Qed.

(** The manifest lists all the files. *)
Lemma durable_manifest F tabs logs :
  durable F tabs logs -> tabs <> [] -> manifest_complete (default [] (F !! ManifestFile)) ->
  durable (manifest_appended F (manifest_line (meta_of <$> tabs))) tabs logs.
Proof.
  intros Hdur Hne Hc. pose proof Hdur as Hdur'. destruct Hdur'.
  assert (Hu : Forall (fun m => is_u64 (FileID m)) (meta_of <$> tabs)).
  { apply Forall_fmap. eapply Forall_impl; [exact dur_id7|]. intros t. apply id6_u64. }
  assert (Hne' : meta_of <$> tabs <> []) by (by destruct tabs).
  split; try done.
  - eapply Forall_impl; [exact dur_tabs0|]. intros t Ht. eapply table_on_agree; [done|].
    by apply manifest_appended_ne.
  - intros name c. rewrite manifest_appended_ne by done. apply dur_files0.
  - unfold load_order. rewrite manifest_appended_lookup.
    rewrite <- (app_nil_r (meta_of <$> tabs)) at 3.
    rewrite (manifest_order_append _ _ []); try done;
      [by rewrite app_nil_r, metas_ids|constructor|by rewrite app_nil_r].
  - intros data i. rewrite manifest_appended_lookup. intros [= <-].
    rewrite last_line_manifest by done. rewrite metas_ids, line_ids_Join; [done|by destruct tabs|].
    by apply ids_u64.
  - eapply Forall_impl; [exact dur_on0|]. intros l Hl. simpl in *. by rewrite manifest_appended_ne.
  - intros name. rewrite manifest_appended_ne by done. apply dur_only0.
Qed.

(** The oldest log is removed. *)
Lemma durable_drop_log F tabs l logs :
  durable F tabs (l :: logs) -> durable (delete (WalFile (wal_filename (log_id l))) F) tabs logs.
Proof.
  intros Hdur. pose proof Hdur as Hdur'. destruct Hdur'.
  apply Forall_cons in dur_logs0 as [Hl Hls]. apply Forall_cons in dur_on0 as [Hon Hons].
  rewrite fmap_cons in dur_sorted0. apply StronglySorted_inv in dur_sorted0 as [Hs Hlt].
  rewrite Forall_fmap, Forall_forall in Hlt. rewrite Forall_forall in Hls.
  assert (Hne : forall l', l' ∈ logs -> wal_filename (log_id l) <> wal_filename (log_id l')).
  { intros l' Hl' Heq%wal_filename_inj; [|apply id6_u64, Hl|apply id6_u64, Hls, Hl'].
    specialize (Hlt l' Hl'). simpl in Hlt. lia. }
  eapply durable_logs; [done|..]; try done.
  - intros n. by apply lookup_delete_ne.
  - by apply lookup_delete_ne.
  - by apply Forall_forall.
  - rewrite Forall_forall in Hons |- *. intros l' Hl'.
    rewrite lookup_delete_ne by (specialize (Hne l' Hl'); congruence). by apply Hons.
  - intros name Hn Hext. destruct (decide (name = wal_filename (log_id l))) as [->|Hd].
    { rewrite lookup_delete_eq in Hn. by destruct Hn. }
    rewrite lookup_delete_ne in Hn by congruence.
    destruct (dur_only0 name Hn Hext) as (l' & [->|Hl']%elem_of_cons & ->); [done|eauto].
Qed.

(** ** Start-up *)

(** [k] more identifiers fit in six digits. *)
Definition room (k : nat) (tabs : list table) (logs : list log) : Prop :=
  (1 + Z.of_nat k < 10 ^ 6)%Z /\
  Forall (fun t => t.1 + 1 + Z.of_nat k < 10 ^ 6)%Z tabs /\
  Forall (fun l => log_id l + 1 + Z.of_nat k < 10 ^ 6)%Z logs.

Definition next_wal_id (logs : list log) : Z :=
  match last logs with Some l => log_id l + 1 | None => 1 end.

Lemma StartCompactionLoop_live db F tabs old cur next :
  live db F tabs old cur next -> live (snd (StartCompactionLoop db)) F tabs old cur next.
Proof.
  intros Hl. unfold StartCompactionLoop. case_match; [done|]. case_match; [|done].
  destruct Hl. split; try done. by destruct live_inv0; split.
Qed.

Lemma set_notify_live db F tabs old cur next b :
  live db F tabs old cur next -> live (set_notify db b) F tabs old cur next.
Proof. intros []. split; try done. by destruct live_inv0; split. Qed.

(** The end of [NewDBWithOptions]: the logs are removed and a new one is opened. *)
Lemma fresh_log_wp db F tabs logs :
  db_inv db F tabs -> durable F tabs logs -> manifest_complete (default [] (F !! ManifestFile)) ->
  pairs (memTable db) = [] -> immTable db = None -> nextwal db = None -> id6 (walFileID db) ->
  wp no_fault
    (_ ← removeAllOldWalFiles;
     r ← OpenWAL (wal_filename (walFileID db));
     let db := set_wals db (match r with inl w => Some w | inr _ => None end) (nextwal db) in
     let db := set_walID db (u64 (walFileID db + 1)) in
     let db := snd (StartCompactionLoop db) in
     mret (set_notify db true))
    (fun db' G => exists cur, live db' G tabs None cur None /\ log_ops cur = [] /\
       (forall key, version db' tabs key = newest tabs.*2 key) /\ walNotify db' = true /\
       nextFileID db' = nextFileID db /\ walFileID db' = (walFileID db + 1)%Z)
    (fun _ => False) F.
Proof.
  intros Hinv Hdur Hman Hmem Himm Hnext Hid. apply wp_bind.
  eapply wp_mono; [apply removeAllOldWalFiles_wp| |done]. intros u G [Hgone Hsame].
  unfold OpenWAL. apply wp_bind, wp_bind, wp_syscall; [|no_faults..].
  rewrite Hgone by apply Ext_wal. apply wp_ret, wp_ret.
  set (cur := mkLog (walFileID db) [] []).
  set (G' := <[WalFile (wal_filename (walFileID db)) := []]> G).
  assert (Hsst : forall n, G' !! SstFile n = F !! SstFile n).
  { intros n. unfold G'. rewrite lookup_insert_ne by done. by apply Hsame. }
  assert (Hmf : G' !! ManifestFile = F !! ManifestFile).
  { unfold G'. rewrite lookup_insert_ne by done. by apply Hsame. }
  assert (Hu : u64 (walFileID db + 1) = (walFileID db + 1)%Z)
    by (unfold id6 in Hid; apply u64_small; lia).
  exists cur. split; [|split; [done|split]].
  - apply set_notify_live, StartCompactionLoop_live. split; simpl; try done.
    + eapply inv_agree; [|intros id; apply Hsst]. by destruct Hinv; split.
    + eapply durable_logs; [done|done|done| |by repeat constructor| |].
      * apply Forall_singleton. split; [done|by apply Forall_nil|by left].
      * apply Forall_singleton. apply lookup_insert_eq.
      * intros name Hn Hext. unfold G' in Hn. exists cur. split; [by left|].
        destruct (decide (name = wal_filename (walFileID db))) as [->|Hne]; [done|].
        rewrite lookup_insert_ne, Hgone in Hn by congruence. by destruct Hn.
    + unfold mem_map. by rewrite Hmem.
    + by rewrite Himm.
    + rewrite Hu. apply Forall_singleton. simpl. lia.
    + by rewrite Hmf.
  - intros key. destruct db as [m]; simpl in *. subst. unfold StartCompactionLoop; simpl.
    destruct m as [ps sz]; simpl in *. subst. by repeat case_match.
  - split_and!; [done|by unfold StartCompactionLoop; repeat case_match|].
    unfold StartCompactionLoop; repeat case_match; simpl; exact Hu.
Qed.

(** One table file that is refused, and nothing is loaded. *)
Lemma load_loop_refused name content e names F : F !! SstFile name = Some content -> Ext name = lit ".sst" ->
  load_file (Sscanf06d name) content = LoadErr e ->
  forall db metas, name ∈ names ->
  wp no_fault (load_loop names db metas)
    (fun r G => G = F /\ (exists e, r.2 = inr e) /\ exists id, r.1 = set_nextID db id) (fun _ => False) F.
Proof.
  intros Hf Hext Hbad. assert (Hsame : forall db, db = set_nextID db (nextFileID db)) by (by intros []).
  induction names as [|n names IH]; intros db metas Hin; [by apply not_elem_of_nil in Hin|]. cbn [load_loop].
  case_decide as Hn.
  2:{ apply elem_of_cons in Hin as [->|Hin]; [done|]. by apply IH. }
  apply wp_bind, wp_ReadFile; [|no_faults..]. destruct (F !! SstFile n) as [c|] eqn:Hc.
  2:{ apply wp_ret. split_and!; [done|by eexists|by eexists]. }
  destruct (decide (n = name)) as [->|Hne].
  - rewrite Hf in Hc. injection Hc as <-. rewrite Hbad. apply wp_ret. split_and!; [done|by eexists|by eexists].
  - apply elem_of_cons in Hin as [?|Hin]; [done|]. destruct (load_file (Sscanf06d n) c) as [|e'|meta].
    + by apply IH.
    + apply wp_ret. split_and!; [done|by eexists|by eexists].
    + eapply wp_mono; [by apply IH| |done]. intros r G (-> & Hr & id & ->). split_and!; [done|done|].
      unfold bumpNextFileID. case_match; by eexists.
Qed.

Lemma loadSSTables_refused name content e F db : F !! SstFile name = Some content -> Ext name = lit ".sst" ->
  load_file (Sscanf06d name) content = LoadErr e ->
  wp no_fault (loadSSTables db)
    (fun r G => G = F /\ (exists e, r.2 = Some e) /\ exists id, r.1 = set_nextID db id) (fun _ => False) F.
Proof.
  intros Hf Hext Hbad. unfold loadSSTables. apply wp_bind, wp_ReadDir; [|no_faults..]. apply wp_bind.
  eapply wp_mono; [eapply load_loop_refused; [done..|]| |done]; [apply elem_of_sst_names; by eexists|].
  intros [db' r] G (-> & [e' He] & id & Hr). simpl in He, Hr. subst. apply wp_ret. split_and!; [done|by eexists|by eexists].
Qed.

(** Start-up on such a directory without logs. *)
Lemma NewDB_refused compaction F name content e :
  F !! SstFile name = Some content -> Ext name = lit ".sst" -> load_file (Sscanf06d name) content = LoadErr e ->
  (forall n, Ext n = lit ".log" -> F !! WalFile n = None) ->
  wp no_fault (NewDBWithOptions compaction)
    (fun db G => sstables db = [] /\ memTable db = NewMemTable /\ immTable db = None /\
       forall n, G !! SstFile n = F !! SstFile n) (fun _ => False) F.
Proof.
  intros Hf Hext Hbad Hlogs. unfold NewDBWithOptions. apply wp_bind.
  eapply wp_mono; [by eapply loadSSTables_refused| |done]. intros r G (-> & _ & id & Hr). rewrite Hr. clear r Hr.
  apply wp_bind. unfold RecoverFromWAL. apply wp_bind, wp_ReadDir; [|no_faults..].
  assert (Hnone : filter (fun n => Ext n = lit ".log") (dir_names wal_name F) = []).
  { apply elem_of_nil_inv. intros n [Hn [c Hc]%elem_of_wal_names]%list_elem_of_filter. by rewrite (Hlogs n Hn) in Hc. }
  rewrite Hnone. cbn [fmap list_fmap merge_sort]. apply wp_bind, wp_ret, wp_ret. cbn [fst].
  apply wp_bind, wp_ret. apply wp_bind.
  eapply wp_mono; [apply removeAllOldWalFiles_wp| |done]. intros u G [_ Hsame].
  unfold OpenWAL. apply wp_bind, wp_bind, wp_syscall; [|no_faults..]. apply wp_ret, wp_ret.
  unfold StartCompactionLoop. split_and!; [by repeat case_match..|]. intros n. case_match; [by apply Hsame|].
  rewrite lookup_insert_ne by done. by apply Hsame.
Qed.

(** A disk that start-up can recover in full. *)
Record recoverable (F : files) (tabs : list table) (logs : list log) (k : nat) : Prop := {
  rec_dur : durable F tabs logs;
  rec_manifest : manifest_complete (default [] (F !! ManifestFile));
  rec_room : room k tabs logs;
  rec_keys : Forall (fun o => op_key o <> []) (all_ops logs);
  rec_weight : (24 + ops_weight (all_ops logs) < TombstoneLen)%Z
}.

Lemma NewDB_wp F tabs logs k compaction :
  recoverable F tabs logs (S k) ->
  wp no_fault (NewDBWithOptions compaction)
    (fun db G => exists tabs' cur,
       live db G tabs' None cur None /\ log_ops cur = [] /\ walNotify db = true /\
       (nextFileID db + Z.of_nat k < 10 ^ 6)%Z /\ (walFileID db + Z.of_nat k < 10 ^ 6)%Z /\
       (forall key, version db tabs' key = disk_version tabs logs key))
    (fun _ => False) F.
Proof.
  intros [Hdur Hman (Hrk & Hrt & Hrl) Hkeys Hw]. unfold NewDBWithOptions. apply wp_bind.
  eapply wp_mono; [eapply loadSSTables_wp; [done|simpl; lia]| |done].
  intros r G (-> & next & -> & Hn & Hmax & Hlt). cbn [fst]. apply wp_bind.
  eapply wp_mono; [by eapply RecoverFromWAL_wp| |done]. intros r G [-> ->]. cbn [fst].
  set (m := mem_after (all_ops logs) NewMemTable).
  assert (Hwf : mem_wf m) by (by apply mem_after_wf, NewMemTable_wf).
  assert (Hid0 : (0 <= next /\ next + 1 + Z.of_nat k < 10 ^ 6)%Z).
  { simpl in *. destruct Hmax as [->|(t & Ht & ->)]; [lia|].
    rewrite Forall_forall in Hrt. specialize (Hrt t Ht). lia. }
  assert (Hid : id6 next) by (unfold id6; lia).
  assert (Hwid : (0 <= next_wal_id logs /\ next_wal_id logs + 1 + Z.of_nat k < 10 ^ 6)%Z).
  { unfold next_wal_id. destruct (last logs) as [l|] eqn:Hl; [|lia].
    apply last_Some in Hl as [ls ->]. apply Forall_app in Hrl as [_ [Hr _]%Forall_cons].
    destruct Hdur as [_ _ _ _ _ _ Hok _ _ _]. apply Forall_app in Hok as [_ [[[? _] _ _] _]%Forall_cons]. lia. }
  assert (Hwid6 : id6 (next_wal_id logs)) by (unfold id6; lia).
  assert (Hu : u64 (next + 1) = (next + 1)%Z) by (apply u64_small; lia).
  set (db0 := initial_DB compaction).
  change (memTable (set_sst (set_nextID db0 next) (meta_of <$> tabs))) with NewMemTable. fold m.
  set (db1 := set_walID _ _).
  assert (Hinv : db_inv db1 F tabs).
  { destruct Hdur. split; simpl; try done.
    - rewrite Forall_forall in dur_id7, Hlt |- *. intros t Ht. specialize (dur_id7 t Ht).
      specialize (Hlt t Ht). unfold id6 in *. lia.
    - by apply id6_u64. }
  assert (Hmap : mem_map m = ops_map (all_ops logs)) by apply mem_after_ops_map.
  apply wp_bind. change (memTable db1) with m. destruct (0 <? MemTable.size m)%Z eqn:Hsz.
  - assert (Hne : pairs m <> []).
    { intros Hnil. destruct Hwf as [_ Hs]. rewrite Hnil in Hs. simpl in Hs. bool_to_prop. lia. }
    assert (Hfit : table_fits (pairs m)).
    { apply weight_fits. pose proof (mem_after_weight (all_ops logs) NewMemTable NewMemTable_wf) as H.
      fold m in H. simpl in H. lia. }
    set (db2 := set_mem (set_imm db1 (Some m)) NewMemTable).
    assert (Hinv2 : db_inv db2 F tabs) by (destruct Hinv; by split; auto with go).
    eapply wp_mono; [by apply (flush_no_fault db2 m None); [|apply Hfit]| |done].
    intros db3 G [-> ->]. cbn [log_removed].
    set (tabs' := tabs ++ [(next, pairs m)]).
    assert (Hdur1 : durable (flush_table db2 (pairs m) F) tabs' logs).
    { apply durable_table; [done|split; [done|by apply mem_sorted|done]|done|done]. }
    assert (Hline : flush_line db2 (pairs m) = manifest_line (meta_of <$> tabs')).
    { unfold flush_line, tabs'. rewrite fmap_app. done. }
    assert (Hman1 : manifest_complete (default [] (flush_table db2 (pairs m) F !! ManifestFile))).
    { unfold flush_table. by rewrite lookup_insert_ne. }
    rewrite Hline. eapply wp_mono; [eapply (fresh_log_wp _ _ tabs' logs)| |done].
    + eapply inv_agree; [apply (flushed_inv db2 F tabs m); [done|done|done|]|].
      * simpl. unfold id6 in Hid. lia.
      * intros id. by apply manifest_appended_ne.
    + apply durable_manifest; [done|by destruct tabs|done].
    + rewrite manifest_appended_lookup. apply manifest_line_complete.
    + done.
    + done.
    + done.
    + done.
    + intros db4 G (cur & Hlive & Hcur & Hv & Hnot & Hn4 & Hw4). exists tabs', cur.
      simpl in Hn4, Hw4. fold (next_wal_id logs) in Hw4. split_and!; [done|done|done|lia|lia|].
      intros key. rewrite Hv. unfold tabs', disk_version. rewrite fmap_app.
      change ([(next, pairs m)].*2) with [pairs m]. by rewrite newest_app, <- run_lookup_map, <- Hmap.
  - assert (Hnil : pairs m = []).
    { apply size_zero; [done| |done]. apply mem_after_Forall; [apply NewMemTable_wf|by apply Forall_nil|done]. }
    apply wp_ret. eapply wp_mono; [by eapply (fresh_log_wp _ _ tabs logs)| |done].
    intros db4 G (cur & Hlive & Hcur & Hv & Hnot & Hn4 & Hw4). exists tabs, cur.
    simpl in Hn4, Hw4. fold (next_wal_id logs) in Hw4. split_and!; [done|done|done|lia|lia|].
    intros key. rewrite Hv. unfold disk_version. rewrite <- Hmap. unfold mem_map. by rewrite Hnil.
Qed.
