(* ===== verification/Crash.v ===== *)
(** * The running engine under crashes

    Every operation of a [live] engine keeps it live, and if the process is
    killed at any system call the disk is durable for the state before or after
    the operation; for a flush, the exceptions are a table file or a manifest line
    cut in the middle. *)
From S2P Require Export Durable.

(** ** Replacing the current log *)

Lemma live_logs_ids old cur cur' next :
  log_id cur' = log_id cur ->
  log_id <$> live_logs old cur' next = log_id <$> live_logs old cur next.
Proof. intros H. unfold live_logs. rewrite !fmap_app, !fmap_cons. by rewrite H. Qed.

Lemma elem_of_live_logs old cur next l :
  l ∈ live_logs old cur next <-> l ∈ opt_list old \/ l = cur \/ l ∈ opt_list next.
Proof. unfold live_logs. rewrite elem_of_app, elem_of_cons. done. Qed.

Lemma sorted_lt_NoDup (ids : list Z) : StronglySorted Z.lt ids -> NoDup ids.
Proof.
  induction 1 as [|i ids _ IH Hall]; [constructor|]. constructor; [|done].
  intros Hin. rewrite Forall_forall in Hall. specialize (Hall i Hin). lia.
Qed.

(** The current log gets another content. *)
Lemma durable_cur F tabs old cur cur' next :
  durable F tabs (live_logs old cur next) -> log_id cur' = log_id cur -> log_ok cur' ->
  durable (<[WalFile (wal_filename (log_id cur)) := log_bytes cur']> F) tabs (live_logs old cur' next).
Proof.
  intros Hdur Hid Hok. pose proof Hdur as [_ _ _ _ _ _ Hoks Hsort Hon Honly].
  pose proof (sorted_lt_NoDup _ Hsort) as Hnd.
  rewrite Forall_forall in Hoks, Hon.
  assert (Hother : forall l, l ∈ opt_list old \/ l ∈ opt_list next ->
    wal_filename (log_id cur) <> wal_filename (log_id l)).
  { intros l Hl Heq.
    assert (Hin : l ∈ live_logs old cur next) by (rewrite elem_of_live_logs; tauto).
    apply wal_filename_inj in Heq; [|apply id6_u64, Hoks; rewrite elem_of_live_logs; tauto|by apply id6_u64, Hoks].
    unfold live_logs in Hnd. rewrite fmap_app, fmap_cons in Hnd.
    apply NoDup_app in Hnd as (_ & Hdis & [Hnin _]%NoDup_cons).
    destruct Hl as [Hl|Hl].
    - apply (Hdis (log_id l)); [apply list_elem_of_fmap; eauto|]. rewrite Heq. by left.
    - apply Hnin. rewrite Heq. apply list_elem_of_fmap. eauto. }
  eapply durable_logs; [done|..].
  - intros n. by apply lookup_insert_ne.
  - by apply lookup_insert_ne.
  - apply Forall_forall. intros l [Hl|[->|Hl]]%elem_of_live_logs; [|done|];
      apply Hoks, elem_of_live_logs; tauto.
  - by rewrite (live_logs_ids _ cur).
  - apply Forall_forall. intros l Hl. apply elem_of_live_logs in Hl as Hl'.
    destruct Hl' as [Ho|[->|Hn]].
    + rewrite lookup_insert_ne by (intros [= Heq]; apply (Hother l); [by left|done]).
      apply Hon, elem_of_live_logs. tauto.
    + rewrite Hid. apply lookup_insert_eq.
    + rewrite lookup_insert_ne by (intros [= Heq]; apply (Hother l); [by right|done]).
      apply Hon, elem_of_live_logs. tauto.
  - intros name Hn Hext. destruct (decide (name = wal_filename (log_id cur))) as [->|Hne].
    + exists cur'. split; [apply elem_of_live_logs; tauto|by rewrite Hid].
    + rewrite lookup_insert_ne in Hn by congruence.
      destruct (Honly name Hn Hext) as (l & Hl & ->). apply elem_of_live_logs in Hl as [Hl|[->|Hl]].
      * exists l. split; [apply elem_of_live_logs; tauto|done].
      * done.
      * exists l. split; [apply elem_of_live_logs; tauto|done].
Qed.

(** The current log after a write, whole or torn. *)
Definition log_push (l : log) (o : wal_op) : log := mkLog (log_id l) (log_ops l ++ [o]) [].
Definition log_tear (l : log) (d : bytes) : log := mkLog (log_id l) (log_ops l) d.

Lemma log_push_bytes l o : log_torn l = [] -> log_bytes (log_push l o) = log_bytes l ++ encode_op o.
Proof.
  intros H. unfold log_bytes; simpl. rewrite H, encode_ops_app, !app_nil_r.
  unfold encode_ops at 2. simpl. by rewrite app_nil_r.
Qed.

Lemma log_tear_bytes l d : log_torn l = [] -> log_bytes (log_tear l d) = log_bytes l ++ d.
Proof. intros H. unfold log_bytes; simpl. by rewrite H, app_nil_r. Qed.

Lemma log_push_ok l o : log_ok l -> op_fits o -> log_ok (log_push l o).
Proof. intros [] ?. split; simpl; [done|by apply Forall_app_2; [|apply Forall_singleton]|by left]. Qed.

Lemma log_tear_ok l o d q :
  log_ok l -> op_fits o -> encode_op o = d ++ q -> q <> [] -> log_ok (log_tear l d).
Proof. intros [] ???. split; simpl; [done|done|right; eauto]. Qed.

Lemma all_ops_live old cur next :
  match next with Some l => log_ops l = [] | None => True end ->
  all_ops (live_logs old cur next) = all_ops (opt_list old) ++ log_ops cur.
Proof.
  intros H. unfold live_logs. rewrite all_ops_app. f_equal. unfold all_ops.
  destruct next as [l|]; simpl; [|by rewrite app_nil_r]. by rewrite H, !app_nil_r.
Qed.

Lemma disk_version_push tabs old cur next o key :
  match next with Some l => log_ops l = [] | None => True end ->
  disk_version tabs (live_logs old (log_push cur o) next) key =
  op_version o (disk_version tabs (live_logs old cur next)) key.
Proof.
  intros H. unfold disk_version, op_version. rewrite !all_ops_live by done. cbn [log_push log_ops].
  rewrite app_assoc. unfold ops_map at 1. rewrite foldl_app. cbn [foldl]. unfold apply_op at 1.
  case_decide as Hk; [subst; by rewrite lookup_insert_eq|by rewrite lookup_insert_ne by congruence].
Qed.

(** ** Writes *)

Lemma live_push db F tabs old cur next o :
  live db F tabs old cur next -> op_fits o ->
  live (set_mem db (MemTable.Put (memTable db) (op_key o) (op_val o)))
    (<[WalFile (wal_filename (log_id cur)) := log_bytes cur ++ encode_op o]> F)
    tabs old (log_push cur o) next.
Proof.
  intros Hl Ho. pose proof Hl as Hl'. destruct Hl'. pose proof live_inv as Hinv.
  assert (Hcur : log_ok cur).
  { destruct live_dur as [_ _ _ _ _ _ Hoks _ _ _]. rewrite Forall_forall in Hoks.
    apply Hoks, elem_of_live_logs. tauto. }
  split; try done.
  - eapply inv_agree; [|intros id; by apply lookup_insert_ne].
    apply set_mem_inv; [done|]. apply Put_wf, live_inv.
  - rewrite <- log_push_bytes by done. apply durable_cur; [done|done|by apply log_push_ok].
  - cbn [memTable set_mem]. rewrite Put_map by (apply mem_sorted, live_inv). rewrite live_mem.
    unfold ops_map. cbn [log_push log_ops]. by rewrite foldl_app.
  - apply Forall_forall. intros l Hin. apply elem_of_live_logs in Hin. rewrite Forall_forall in live_walID.
    destruct Hin as [Hin|[->|Hin]]; [|apply (live_walID cur)|]; try apply live_walID; apply elem_of_live_logs; tauto.
  - by rewrite lookup_insert_ne.
Qed.

(** Freezing the table moves the log: nothing on disk changes. *)
Lemma live_switch db F tabs old cur next :
  live db F tabs old cur next ->
  exists old' cur' next', live (fst (checkAndFlush db)) F tabs old' cur' next' /\
    match snd (checkAndFlush db) with
    | None => fst (checkAndFlush db) = db /\ old' = old /\ cur' = cur /\ next' = next
    | Some t => t = mkFlush (immTable (fst (checkAndFlush db))) (log_wal <$> old') /\
        old = None /\ is_Some old' /\ next' = None /\
        live_logs old' cur' next' = live_logs old cur next
    end /\
    nextFileID (fst (checkAndFlush db)) = nextFileID db /\ walFileID (fst (checkAndFlush db)) = walFileID db.
Proof.
  intros Hl. pose proof (live_inv _ _ _ _ _ _ Hl) as Hinv. apply checkAndFlush_inv in Hinv.
  destruct (checkAndFlush_cases db) as [[-> _]|(nw & Hs & Hi & Hn & Heq)].
  { exists old, cur, next. by split_and!. }
  rewrite Heq in *. cbn [fst snd] in *. destruct Hl. rewrite Hi in live_old. rewrite Hn in live_next.
  destruct old as [l|]; [done|]. destruct next as [n|]; [|done].
  injection live_next as ->. destruct live_empty as [Hno Hnt].
  exists (Some cur), n, None. split_and!; [split; simpl; try done| |done|by eexists|done..].
  - by rewrite Hno.
  - cbn [immTable fst snd]. simpl. by rewrite live_wal.
Qed.

Lemma write_live db F tabs old cur next o :
  live db F tabs old cur next -> op_fits o ->
  wp only_crash (write db o)
    (fun r G => exists db' task old' cur' next', r = (None, db', task) /\
       live db' G tabs old' cur' next' /\
       (forall key, version db' tabs key = op_version o (version db tabs) key) /\
       match task with
       | None => old' = old /\ next' = next /\ walNotify db' = walNotify db /\ immTable db' = immTable db
       | Some t => t = mkFlush (immTable db') (log_wal <$> old') /\ old = None /\ is_Some old' /\ next' = None
       end /\
       all_ops (live_logs old' cur' next') = all_ops (live_logs old (log_push cur o) next) /\
       nextFileID db' = nextFileID db /\ walFileID db' = walFileID db)
    (fun G => exists cur', durable G tabs (live_logs old cur' next) /\
       log_id cur' = log_id cur /\ manifest_complete (default [] (G !! ManifestFile)) /\
       ((log_ops cur' = log_ops cur /\
         forall key, disk_version tabs (live_logs old cur' next) key = version db tabs key) \/
        (log_ops cur' = log_ops cur ++ [o] /\
         forall key, disk_version tabs (live_logs old cur' next) key = op_version o (version db tabs) key))) F.
Proof.
  intros Hl Ho. pose proof Hl as Hl'. destruct Hl'.
  assert (Hcur : log_ok cur /\ F !! WalFile (wal_filename (log_id cur)) = Some (log_bytes cur)).
  { destruct live_dur as [_ _ _ _ _ _ Hoks _ Hon _]. rewrite Forall_forall in Hoks, Hon.
    split; [apply Hoks|apply Hon]; apply elem_of_live_logs; tauto. }
  destruct Hcur as [Hcur Hfile].
  assert (Hempty : match next with Some l => log_ops l = [] | None => True end)
    by (destruct next; [apply live_empty|done]).
  assert (Hv : forall key, disk_version tabs (live_logs old cur next) key = version db tabs key)
    by (intros key; symmetry; by apply live_version with (F := F)).
  eapply wp_mono; [by eapply write_wp| |].
  - intros r G [[-> ->]|(_ & _ & He)]; [|by apply only_crash_can_err in He].
    pose proof (live_push _ _ _ _ _ _ _ Hl Ho) as Hpush.
    destruct (live_switch _ _ _ _ _ _ Hpush) as (old' & cur' & next' & Hl' & Htask & Hids).
    pose proof (fun key => checkAndFlush_version (set_mem db (MemTable.Put (memTable db) (op_key o) (op_val o))) tabs key) as Hcv.
    destruct (checkAndFlush _) as [db' task]. cbn [fst snd] in *.
    exists db', task, old', cur', next'. split_and!; [done|done| | | |by destruct Hids..].
    + intros key. rewrite Hcv. apply set_mem_version, live_inv.
    + destruct task as [t|]; [naive_solver|]. by destruct Htask as (-> & -> & _ & ->).
    + destruct task as [t|]; [by destruct Htask as (_ & _ & _ & _ & ->)|].
      by destruct Htask as (_ & -> & -> & ->).
  - intros G (d & [q Hq] & ->). destruct (decide (q = [])) as [->|Hne].
    + rewrite app_nil_r in Hq. subst d. exists (log_push cur o). split_and!; [|done| |].
      * rewrite <- log_push_bytes by done. apply durable_cur; [done|done|by apply log_push_ok].
      * by rewrite lookup_insert_ne.
      * right. split; [done|]. intros key. rewrite disk_version_push by done. unfold op_version. by rewrite Hv.
    + exists (log_tear cur d). split_and!; [|done| |].
      * rewrite <- log_tear_bytes by done. apply durable_cur; [done|done|by eapply log_tear_ok].
      * by rewrite lookup_insert_ne.
      * left. split; [done|]. intros key. rewrite <- Hv. unfold disk_version. by rewrite !all_ops_live.
Qed.

(** ** Flushes *)

(** The two crash windows that start-up does not repair: a table file of at least
    a footer's length that is not complete, and a manifest whose last line is
    not. *)
Definition torn_sst (F : files) (id : Z) (ps : list KVPair) (G : files) : Prop :=
  exists d q, sst_bytes ps = d ++ q /\ q <> [] /\ (FooterSize <= zlen d)%Z /\ G = <[sst_path id := d]> F.

Definition torn_line (F : files) (line : bytes) (G : files) : Prop :=
  exists d q, line = d ++ q /\ d <> [] /\ q <> [] /\
    G = <[ManifestFile := default [] (F !! ManifestFile) ++ d]> F.

(** The file of a future table does not count while it is short. *)
Lemma durable_small F tabs logs id d :
  durable F tabs logs -> is_u64 id -> Forall (fun t => t.1 < id)%Z tabs -> (zlen d < FooterSize)%Z ->
  durable (<[sst_path id := d]> F) tabs logs.
Proof.
  intros [] Hid Hlt Hd. split; try done.
  - rewrite Forall_forall in dur_tabs, Hlt, dur_id6 |- *. intros t Ht.
    apply table_on_insert; [by apply dur_tabs|]. intros Heq%sst_path_inj; [|done|by apply id6_u64, dur_id6].
    specialize (Hlt t Ht). lia.
  - intros name c [[_ <-]|[_ Hc]]%lookup_insert_Some Hext; [by right|by eapply dur_files].
  - unfold load_order in *. by rewrite lookup_insert_ne.
  - rewrite lookup_insert_ne by done. exact dur_line.
  - eapply Forall_impl; [exact dur_on|]. intros l Hl. simpl in *. by rewrite lookup_insert_ne.
  - intros name. rewrite lookup_insert_ne by done. apply dur_only.
Qed.

Lemma durable_torn_table F tabs logs id ps G :
  durable F tabs logs -> run_ok ps -> id6 id -> Forall (fun t => t.1 < id)%Z tabs ->
  torn_table (sst_path id) ps F G ->
  durable G tabs logs \/ durable G (tabs ++ [(id, ps)]) logs \/ torn_sst F id ps G.
Proof.
  intros Hdur Hok Hid Hlt [->|(d & [q Hq] & ->)]; [by left|].
  destruct (decide (q = [])) as [->|Hne].
  { rewrite app_nil_r in Hq. subst d. right. left. by apply durable_table. }
  destruct (decide (zlen d < FooterSize)%Z) as [Hs|Hs].
  - left. apply durable_small; auto with go.
  - right. right. exists d, q. split_and!; [done|done|lia|done].
Qed.

Lemma durable_torn_manifest F tabs logs G :
  durable F tabs logs -> tabs <> [] -> manifest_complete (default [] (F !! ManifestFile)) ->
  torn_manifest F (manifest_line (meta_of <$> tabs)) G ->
  (durable G tabs logs /\ manifest_complete (default [] (G !! ManifestFile))) \/
  torn_line F (manifest_line (meta_of <$> tabs)) G.
Proof.
  intros Hdur Hne Hc [->|(d & [q Hq] & ->)]; [by left|].
  destruct (decide (q = [])) as [->|Hq'].
  { rewrite app_nil_r in Hq. subst d. left. split; [by apply durable_manifest|].
    rewrite lookup_insert_eq. apply manifest_line_complete. }
  destruct (decide (d = [])) as [->|Hd]; [|right; exists d, q; by split_and!].
  left. rewrite app_nil_r. split; [|by rewrite lookup_insert_eq].
  assert (Hm : forall p, p <> ManifestFile ->
    <[ManifestFile := default [] (F !! ManifestFile)]> F !! p = F !! p)
    by (intros; by apply lookup_insert_ne).
  destruct (F !! ManifestFile) as [data|] eqn:Hf; simpl in *; [by rewrite insert_id|].
  destruct Hdur. split; try done.
  - eapply Forall_impl; [exact dur_tabs|]. intros t Ht. eapply table_on_agree; [done|by apply Hm].
  - intros name c. rewrite Hm by done. apply dur_files.
  - unfold load_order in *. rewrite lookup_insert_eq. rewrite Hf in dur_order. exact dur_order.
  - intros data i. rewrite lookup_insert_eq. intros [= <-] Hi. by apply not_elem_of_nil in Hi.
  - eapply Forall_impl; [exact dur_on|]. intros l Hl. cbn beta in *. by rewrite Hm.
  - intros name. rewrite Hm by done. apply dur_only.
Qed.

(** A table whose content is already in the logs changes no version. *)
Lemma disk_version_logged tabs id ps l logs key :
  run_map ps = ops_map (log_ops l) ->
  disk_version (tabs ++ [(id, ps)]) (l :: logs) key = disk_version tabs (l :: logs) key.
Proof.
  intros Hm. unfold disk_version. rewrite fmap_app. change ([(id, ps)].*2) with [ps].
  rewrite newest_app, <- run_lookup_map, Hm.
  change (all_ops (l :: logs)) with (log_ops l ++ all_ops logs). rewrite ops_map_app.
  destruct (ops_map (all_ops logs) !! key); [done|]. by destruct (ops_map (log_ops l) !! key).
Qed.

(** A table takes the place of its log. *)
Lemma disk_version_replaced tabs id ps l logs key :
  run_map ps = ops_map (log_ops l) ->
  disk_version (tabs ++ [(id, ps)]) logs key = disk_version tabs (l :: logs) key.
Proof.
  intros Hm. unfold disk_version. rewrite fmap_app. change ([(id, ps)].*2) with [ps].
  rewrite newest_app, <- run_lookup_map, Hm.
  change (all_ops (l :: logs)) with (log_ops l ++ all_ops logs). rewrite ops_map_app.
  by destruct (ops_map (all_ops logs) !! key).
Qed.

Lemma flush_live db F tabs l cur next imm :
  live db F tabs (Some l) cur next -> immTable db = Some imm -> table_fits (pairs imm) ->
  id6 (nextFileID db) ->
  wp only_crash (flush db (Some imm) (Some (log_wal l)))
    (fun db' G => db' = flushed db (pairs imm) /\
       live db' G (tabs ++ [(nextFileID db, pairs imm)]) None cur next /\
       forall key, version db' (tabs ++ [(nextFileID db, pairs imm)]) key = version db tabs key)
    (fun G =>
       (exists tabs' logs', durable G tabs' logs' /\
          manifest_complete (default [] (G !! ManifestFile)) /\
          (tabs' = tabs \/ tabs' = tabs ++ [(nextFileID db, pairs imm)]) /\
          (logs' = live_logs (Some l) cur next \/ logs' = live_logs None cur next) /\
          forall key, disk_version tabs' logs' key = version db tabs key) \/
       torn_sst F (nextFileID db) (pairs imm) G \/
       torn_line (flush_table db (pairs imm) F) (flush_line db (pairs imm)) G) F.
Proof.
  intros Hl Himm Hfit Hid. pose proof Hl as Hl'. destruct Hl'.
  rewrite Himm in live_old. destruct live_old as [_ Hmap]. pose proof live_inv as [].
  rewrite Himm in inv_imm. destruct inv_imm as [Hwf Hne].
  assert (Hok : run_ok (pairs imm)) by (split; [done|by apply mem_sorted|done]).
  assert (Hlt : Forall (fun t => t.1 < nextFileID db)%Z tabs).
  { eapply Forall_impl; [exact inv_ids|]. intros t Ht. simpl in Ht. lia. }
  set (tabs' := tabs ++ [(nextFileID db, pairs imm)]).
  set (logs := live_logs (Some l) cur next) in *.
  assert (Hv : forall key, disk_version tabs logs key = version db tabs key)
    by (intros key; symmetry; by apply live_version with (F := F)).
  set (F1 := flush_table db (pairs imm) F).
  assert (Hdur1 : durable F1 tabs' logs) by (by apply durable_table).
  assert (Hline : flush_line db (pairs imm) = manifest_line (meta_of <$> tabs')).
  { unfold flush_line, tabs'. by rewrite inv_sst, fmap_app. }
  assert (Hman1 : manifest_complete (default [] (F1 !! ManifestFile))).
  { unfold F1, flush_table. by rewrite lookup_insert_ne. }
  assert (Hne' : tabs' <> []) by (by destruct tabs).
  set (F2 := manifest_appended F1 (flush_line db (pairs imm))).
  assert (Hdur2 : durable F2 tabs' logs) by (unfold F2; rewrite Hline; by apply durable_manifest).
  set (F3 := delete (WalFile (wal_filename (log_id l))) F2).
  assert (Hdur3 : durable F3 tabs' (live_logs None cur next)) by (by apply (durable_drop_log F2 _ l)).
  eapply wp_mono; [apply flush_wp; [done|apply Hfit]| |].
  - intros db' G [(_ & _ & He)|(-> & G1 & [->|[_ He1]] & [->|[_ He2]])];
      try by (apply only_crash_can_err in He || apply only_crash_can_err in He1 || apply only_crash_can_err in He2).
    fold F1 F2. cbn [log_removed log_wal wal_file]. fold F3.
    split_and!; [done| |intros key; by apply flushed_version]. split; simpl; try done.
    + eapply inv_agree; [apply (flushed_inv db F tabs imm); try done; unfold id6 in Hid; lia|].
      intros id. unfold F3. rewrite lookup_delete_ne by done. by apply manifest_appended_ne.
    + unfold live_logs in *. simpl in *. by apply Forall_cons in live_walID as [_ ?].
    + unfold F3, F2. rewrite lookup_delete_ne, manifest_appended_lookup by done.
      apply manifest_line_complete || (rewrite Hline; apply manifest_line_complete).
  - assert (Hlogged : forall key, disk_version tabs' logs key = version db tabs key).
    { intros key. rewrite <- Hv. by apply disk_version_logged. }
    assert (Htab : torn_table (sst_path (nextFileID db)) (pairs imm) F F1)
      by (right; by exists (sst_bytes (pairs imm))).
    assert (Hman2 : manifest_complete (default [] (F2 !! ManifestFile))).
    { unfold F2. rewrite manifest_appended_lookup, Hline. apply manifest_line_complete. }
    assert (Hsafe : forall G, torn_table (sst_path (nextFileID db)) (pairs imm) F G ->
      manifest_complete (default [] (G !! ManifestFile))).
    { intros G [->|(d & _ & ->)]; [done|by rewrite lookup_insert_ne]. }
    intros G [HG|[HG|(G1 & [->|[_ He1]] & HG)]]; [| | |by apply only_crash_can_err in He1].
    + destruct (durable_torn_table F tabs logs _ _ _ live_dur Hok Hid Hlt HG) as [?|[?|?]];
        [left; exists tabs, logs; by split_and!; auto|left; exists tabs', logs; by split_and!; auto|auto].
    + fold F1 in HG. rewrite Hline in *.
      destruct (durable_torn_manifest _ _ _ _ Hdur1 Hne' Hman1 HG) as [[? ?]|?]; [|auto].
      left. exists tabs', logs. by split_and!; auto.
    + fold F1 F2 in HG. left. destruct HG as [->|(w & name & [= <-] & [= <-] & ->)].
      { exists tabs', logs. by split_and!; auto. }
      fold F3. exists tabs', (live_logs None cur next). split_and!; [done| |auto|auto|].
      * unfold F3. by rewrite lookup_delete_ne.
      * intros key. rewrite <- Hv. by apply disk_version_replaced.
Qed.

(** ** The log pre-allocator *)

Lemma durable_new_log F tabs logs id :
  durable F tabs logs -> Forall (fun l => log_id l < id)%Z logs -> id6 id ->
  F !! WalFile (wal_filename id) = None /\
  durable (<[WalFile (wal_filename id) := []]> F) tabs (logs ++ [mkLog id [] []]).
Proof.
  intros Hdur Hlt Hid. pose proof Hdur as [_ _ _ _ _ _ Hok Hsort Hon Honly].
  rewrite Forall_forall in Hlt, Hok.
  assert (Hne : forall l, l ∈ logs -> wal_filename id <> wal_filename (log_id l)).
  { intros l Hl Heq%wal_filename_inj; [|by apply id6_u64|by apply id6_u64, Hok].
    specialize (Hlt l Hl). lia. }
  split.
  { destruct (F !! _) as [c|] eqn:Hc; [|done].
    destruct (Honly (wal_filename id)) as (l & Hl & Heq); [eauto|apply Ext_wal|]. by destruct (Hne l Hl). }
  eapply durable_logs; [done|..].
  - intros n. by apply lookup_insert_ne.
  - by apply lookup_insert_ne.
  - apply Forall_app. split; [by apply Forall_forall|]. apply Forall_singleton.
    split; [done|by apply Forall_nil|by left].
  - rewrite fmap_app. apply StronglySorted_app_2; [|done|by repeat constructor].
    intros i j (l & -> & Hl)%list_elem_of_fmap Hj%list_elem_of_singleton. simpl in Hj. subst j. by apply Hlt.
  - apply Forall_app. split; [|apply Forall_singleton, lookup_insert_eq].
    rewrite Forall_forall in Hon |- *. intros l Hl.
    rewrite lookup_insert_ne by (specialize (Hne l Hl); congruence). by apply Hon.
  - intros name Hn Hext. destruct (decide (name = wal_filename id)) as [->|Hd].
    + exists (mkLog id [] []). split; [set_solver|done].
    + rewrite lookup_insert_ne in Hn by congruence.
      destruct (Honly name Hn Hext) as (l & Hl & ->). exists l. split; [set_solver|done].
Qed.

Lemma prealloc_live db F tabs old cur :
  live db F tabs old cur None -> id6 (walFileID db) ->
  wp only_crash (walPreAllocator_turn db)
    (fun db' G => live db' G tabs old cur (Some (mkLog (walFileID db) [] [])) /\
       (forall key, version db' tabs key = version db tabs key) /\
       walNotify db' = false /\ nextFileID db' = nextFileID db /\
       walFileID db' = (walFileID db + 1)%Z /\ immTable db' = immTable db)
    (fun G => manifest_complete (default [] (G !! ManifestFile)) /\
       exists next, durable G tabs (live_logs old cur next) /\
         (next = None \/ next = Some (mkLog (walFileID db) [] []))) F.
Proof.
  intros Hl Hid. pose proof Hl as Hl'. destruct Hl'.
  destruct (durable_new_log _ _ _ _ live_dur live_walID Hid) as [Hnone Hdur].
  assert (Hlogs : live_logs old cur None ++ [mkLog (walFileID db) [] []] =
                  live_logs old cur (Some (mkLog (walFileID db) [] []))).
  { unfold live_logs. by rewrite <- app_assoc. }
  rewrite Hlogs in Hdur.
  unfold walPreAllocator_turn. apply wp_bind. unfold OpenWAL. apply wp_bind, wp_syscall.
  - cbn [walFileID set_notify]. rewrite Hnone. apply wp_ret, wp_ret.
    assert (Hu : u64 (walFileID db + 1) = (walFileID db + 1)%Z)
      by (unfold id6 in Hid; apply u64_small; lia).
    split_and!; try done. split; simpl; try done.
    + eapply inv_agree; [|intros id; by apply lookup_insert_ne]. by destruct live_inv; split.
    + rewrite Hu. rewrite <- Hlogs. apply Forall_app. split; [|apply Forall_singleton; simpl; lia].
      eapply Forall_impl; [exact live_walID|]. intros l Hlt. cbn beta in *. lia.
    + by rewrite lookup_insert_ne.
  - intros n Hn. done.
  - cbn [walFileID set_notify]. intros n _. destruct n; simpl.
    + split; [done|]. exists None. auto.
    + rewrite Hnone. split; [by rewrite lookup_insert_ne|]. eauto.
Qed.
