(* ===== verification/EngineSpec.v ===== *)
(** * The engine as a map, across crashes

    A client sends commands to an engine whose background goroutines (the flush, the
    log pre-allocation and the compaction loop) run between commands.  [run_cmds_wp]
    is the refinement of a finite map by any sequence of commands; [run_cmd_wp] adds
    what a crash leaves, and [NewDB_refines] closes the loop: start-up recovers the
    map.  A tick of the compaction loop keeps the map when compaction is switched
    off; what one does when it is on is in [Compaction]. *)
From S2P Require Export Crash.

(** ** Commands *)

Inductive cmd :=
  | CWrite (o : wal_op)      (** [Put] or [Delete] *)
  | CGet (key : bytes)
  | CFlush                   (** the pending flush goroutine runs *)
  | CPrealloc                (** the pre-allocator runs, if it was notified *)
  | CTick (elapsed : Z).     (** a tick of the compaction loop *)

Abbreviation sys := (DB * option flush_task)%type.

(** What the caller of [Get] receives. *)
Definition response : Type := option (option bytes).

(** A write, with the flush goroutine that it may start. *)
Definition write_sys (o : wal_op) (s : sys) : IO (option error * sys) :=
  let '(db, task) := s in
  r ← write db o;
  let '(err, db, t) := r in
  mret (err, (db, match t with Some t => Some t | None => task end)).

Definition run_cmd (c : cmd) (s : sys) : IO (response * sys) :=
  let '(db, task) := s in
  match c with
  | CWrite o => r ← write_sys o s; mret (None, snd r)
  | CGet key => r ← Get db key; mret (Some (fst r), (snd r, task))
  | CFlush => db ← run_task db task; mret (None, (db, None))
  | CPrealloc =>
      if walNotify db then db ← walPreAllocator_turn db; mret (None, (db, task))
      else mret (None, (db, task))
  | CTick elapsed => db ← compaction_tick elapsed db; mret (None, (db, task))
  end.

Fixpoint run_cmds (cs : list cmd) (s : sys) : IO (list response * sys) :=
  match cs with
  | [] => mret ([], s)
  | c :: cs =>
      r ← run_cmd c s;
      rs ← run_cmds cs (snd r);
      mret (fst r :: fst rs, snd rs)
  end.

(** ** The specification: a finite map *)

Definition spec_write (o : wal_op) (m : gmap bytes bytes) : gmap bytes bytes :=
  match o with WPut k v => <[k := v]> m | WDelete k => delete k m end.

Definition spec_cmd (c : cmd) (m : gmap bytes bytes) : response * gmap bytes bytes :=
  match c with
  | CWrite o => (None, spec_write o m)
  | CGet key => (Some (m !! key), m)
  | CFlush | CPrealloc | CTick _ => (None, m)
  end.

Fixpoint spec_cmds (cs : list cmd) (m : gmap bytes bytes) : list response * gmap bytes bytes :=
  match cs with
  | [] => ([], m)
  | c :: cs =>
      let '(r, m) := spec_cmd c m in
      let '(rs, m) := spec_cmds cs m in (r :: rs, m)
  end.

(** A function from keys to versions shows the map [m]. *)
Definition shows (f : bytes -> option (option bytes)) (m : gmap bytes bytes) : Prop :=
  forall key, visible (f key) = m !! key.

Lemma shows_ext f g m : (forall key, f key = g key) -> shows g m -> shows f m.
Proof. intros H Hg key. by rewrite H. Qed.

Lemma shows_write o f m : shows f m -> shows (op_version o f) (spec_write o m).
Proof.
  intros H key. unfold op_version. destruct o as [k v|k]; simpl; case_decide as Hk; subst.
  - by rewrite lookup_insert_eq.
  - by rewrite lookup_insert_ne.
  - by rewrite lookup_delete_eq.
  - by rewrite lookup_delete_ne.
Qed.

(** ** Sorted runs are determined by their maps *)

Lemma run_map_elem ps p : run_sorted ps -> p ∈ ps <-> run_map ps !! Key p = Some (Value p).
Proof.
  intros Hs. rewrite run_lookup_map. split; [by apply run_lookup_sorted|].
  intros H%run_lookup_elem. by destruct p.
Qed.

Lemma run_map_inj ps qs : run_sorted ps -> run_sorted qs -> run_map ps = run_map qs -> ps = qs.
Proof.
  intros Hp Hq Hm. apply (StronglySorted_unique_strong pair_lt); [|done|done|].
  - intros p q _ _ H1 H2. destruct (blt_irrefl (Key p)). by eapply blt_trans.
  - apply NoDup_Permutation; [by apply run_sorted_NoDup..|].
    intros p. by rewrite !run_map_elem, Hm.
Qed.

(** A memory table that is the content of a log has its weight. *)
Lemma mem_weight m ops :
  mem_wf m -> mem_map m = ops_map ops -> (run_weight (pairs m) <= ops_weight ops)%Z.
Proof.
  intros Hm Hmap. pose proof (mem_after_weight ops NewMemTable NewMemTable_wf) as H.
  assert (pairs m = pairs (mem_after ops NewMemTable)) as ->.
  - apply run_map_inj; [by apply mem_sorted|apply mem_sorted, mem_after_wf, NewMemTable_wf|].
    change (mem_map m = mem_map (mem_after ops NewMemTable)). by rewrite mem_after_ops_map.
  - simpl in H. lia.
Qed.

(** ** The invariant of a system, and its budget

    [b] bytes of operations and [n] new files and logs still fit in the fields of
    the formats (32-bit lengths, six-digit names). *)
Record sys_live (s : sys) (F : files) (m : gmap bytes bytes) (b : Z) (n : nat)
    (tabs : list table) (old : option log) (cur : log) (next : option log) : Prop := {
  sys_on : live s.1 F tabs old cur next;
  sys_shows : shows (version s.1 tabs) m;
  sys_task : s.2 = (fun l => mkFlush (immTable s.1) (Some (log_wal l))) <$> old;
  sys_notify : walNotify s.1 = true -> next = None;
  sys_keys : Forall (fun o => op_key o <> []) (all_ops (live_logs old cur next));
  sys_weight : (24 + ops_weight (all_ops (live_logs old cur next)) + b < TombstoneLen)%Z;
  sys_fileid : (nextFileID s.1 + Z.of_nat n < 10 ^ 6)%Z;
  sys_walid : (walFileID s.1 + Z.of_nat n < 10 ^ 6)%Z
}.

Definition sys_inv (s : sys) (F : files) (m : gmap bytes bytes) (b : Z) (n : nat) : Prop :=
  exists tabs old cur next, sys_live s F m b n tabs old cur next.

(** What a command takes from the budget, and what it must satisfy. *)
Definition cmd_cost (c : cmd) : Z := match c with CWrite o => op_weight o | _ => 0 end.
Definition cmd_ok (c : cmd) : Prop := match c with CWrite o => op_key o <> [] | _ => True end.

(** A disk from which start-up recovers the map [m], with [k] identifiers left. *)
Definition holds_map (F : files) (m : gmap bytes bytes) (k : nat) : Prop :=
  exists tabs logs, recoverable F tabs logs k /\ shows (disk_version tabs logs) m.

(** A tick of the compaction loop does nothing when compaction is off. *)
Definition compacts (s : sys) : bool := enableCompaction s.1.
Definition no_tick (c : cmd) : Prop := match c with CTick _ => False | _ => True end.
Definition ticks_idle (compaction : bool) (c : cmd) : Prop := compaction = false \/ no_tick c.

(** The two windows of a flush in which a kill is not repaired: the disk would hold [m]
    but for the table file that was being written, of the operations of the oldest log and
    with an identifier behind those of all tables, or but for the line of the manifest
    that was being appended, which lists the tables. *)
Definition flush_cut (G : files) (m : gmap bytes bytes) (k : nat) : Prop :=
  exists F tabs logs, recoverable F tabs logs k /\ shows (disk_version tabs logs) m /\
    ((exists id ps l rest, logs = l :: rest /\ run_map ps = ops_map (log_ops l) /\
        Forall (fun t => t.1 < id)%Z tabs /\ torn_sst F id ps G) \/
     torn_line F (manifest_line (meta_of <$> tabs)) G).

Lemma ops_weight_app ops1 ops2 : ops_weight (ops1 ++ ops2) = (ops_weight ops1 + ops_weight ops2)%Z.
Proof. induction ops1 as [|o ops1 IH]; simpl; [done|]. rewrite IH. lia. Qed.

Lemma op_weight_nonneg o : (28 <= op_weight o)%Z.
Proof.
  unfold op_weight. pose proof (zlen_nonneg (op_key o)). pose proof (vlen_nonneg (op_val o)). lia.
Qed.

Lemma ops_weight_nonneg ops : (0 <= ops_weight ops)%Z.
Proof. induction ops as [|o ops IH]; simpl; [done|]. pose proof (op_weight_nonneg o). lia. Qed.

Lemma op_weight_fits o : (op_weight o < TombstoneLen)%Z -> op_fits o.
Proof.
  unfold op_weight, TombstoneLen. pose proof (zlen_nonneg (op_key o)). pose proof (vlen_nonneg (op_val o)).
  destruct o as [k v|k]; simpl in *; intros; [split|]; lia.
Qed.

(** The names of a live engine leave room. *)
Lemma sys_room s F m b n tabs old cur next :
  sys_live s F m b (S n) tabs old cur next ->
  id6 (nextFileID s.1) /\ id6 (walFileID s.1) /\
  room n tabs (live_logs old cur next) /\ (0 < walFileID s.1)%Z.
Proof.
  intros []. destruct sys_on0 as [[] [] _ _ _ _ _ _ Hw _].
  assert (Hlog : (0 <= log_id cur < walFileID s.1)%Z).
  { rewrite Forall_forall in Hw, dur_logs.
    assert (Hin : cur ∈ live_logs old cur next) by (apply elem_of_live_logs; tauto).
    specialize (Hw cur Hin). destruct (dur_logs cur Hin) as [[Hi _] _ _]. lia. }
  unfold id6, is_u64 in *. split_and!; try lia. split; [lia|split].
  - eapply Forall_impl; [exact inv_ids|]. intros t Ht. cbn beta in *. lia.
  - eapply Forall_impl; [exact Hw|]. intros l Hl. cbn beta in *. lia.
Qed.

Lemma all_ops_push old cur next o :
  match next with Some l => log_ops l = [] | None => True end ->
  all_ops (live_logs old (log_push cur o) next) = all_ops (live_logs old cur next) ++ [o].
Proof. intros H. rewrite !all_ops_live by done. cbn [log_push log_ops]. by rewrite app_assoc. Qed.

(** [recoverable] from the parts of the invariant. *)
Lemma recoverable_intro G tabs logs k ops :
  durable G tabs logs -> manifest_complete (default [] (G !! ManifestFile)) -> room k tabs logs ->
  Forall (fun o => op_key o <> []) ops -> (24 + ops_weight ops < TombstoneLen)%Z ->
  (exists pre, ops = pre ++ all_ops logs) -> recoverable G tabs logs k.
Proof.
  intros Hd Hm Hr Hk Hw [pre ->]. split; try done.
  - by apply Forall_app in Hk as [_ ?].
  - rewrite ops_weight_app in Hw. pose proof (ops_weight_nonneg pre). lia.
Qed.

(** ** One command *)

Lemma write_sys_wp s F m o b n :
  sys_inv s F m (op_weight o + b) (S n) -> (0 <= b)%Z -> op_key o <> [] ->
  wp only_crash (write_sys o s)
    (fun r G => r.1 = None /\ sys_inv r.2 G (spec_write o m) b n)
    (fun G => holds_map G m n \/ holds_map G (spec_write o m) n) F.
Proof.
  intros (tabs & old & cur & next & Hs) Hb Hk. destruct (sys_room _ _ _ _ _ _ _ _ _ Hs) as (Hfid & Hwid & Hroom & _).
  destruct s as [db task]. destruct Hs. simpl in *.
  assert (Hempty : match next with Some l => log_ops l = [] | None => True end)
    by (destruct sys_on0; destruct next; [apply live_empty|done]).
  pose proof (ops_weight_nonneg (all_ops (live_logs old cur next))) as Hnn.
  pose proof (op_weight_nonneg o).
  assert (Hfit : op_fits o) by (apply op_weight_fits; lia).
  assert (Hkeys : Forall (fun o => op_key o <> []) (all_ops (live_logs old cur next) ++ [o]))
    by (apply Forall_app; by rewrite Forall_singleton).
  assert (Hw : (24 + ops_weight (all_ops (live_logs old cur next) ++ [o]) + b < TombstoneLen)%Z)
    by (rewrite ops_weight_app; simpl; lia).
  apply wp_bind. eapply wp_mono; [by eapply write_live| |].
  - intros r G (db' & t & old' & cur' & next' & -> & Hl & Hv & Ht & Hops & Hf & Hwf). apply wp_ret.
    split; [done|]. exists tabs, old', cur', next'.
    rewrite all_ops_push in Hops by done. split; cbn [fst snd]; rewrite ?Hops; try done; try lia.
    + eapply shows_ext; [exact Hv|]. by apply shows_write.
    + destruct t as [t|]; [|by destruct Ht as (-> & _ & _ & ->)].
      destruct Ht as (-> & _ & [l ->] & _). done.
    + destruct t as [t|]; [by destruct Ht as (_ & _ & _ & ->)|]. by destruct Ht as (_ & -> & -> & _).
  - intros G (cur' & Hdur & Hid & Hman & Hcase).
    assert (Hroom' : room n tabs (live_logs old cur' next)).
    { destruct Hroom as (Hrk & Hrt & Hrl). split; [done|split; [done|]].
      apply (Forall_fmap log_id (fun i => i + 1 + Z.of_nat n < 10 ^ 6)%Z). rewrite (live_logs_ids old cur cur' next Hid).
      by apply Forall_fmap. }
    destruct Hcase as [[Ho Hver]|[Ho Hver]]; [left|right]; exists tabs, (live_logs old cur' next);
      (split; [|eapply shows_ext; [exact Hver|]; first [exact sys_shows0|by apply shows_write]]).
    + eapply (recoverable_intro _ _ _ _ (all_ops (live_logs old cur next))); try done; [lia|].
      exists []. rewrite !all_ops_live by done. by rewrite Ho.
    + eapply (recoverable_intro _ _ _ _ (all_ops (live_logs old cur next) ++ [o])); try done; [lia|].
      exists []. rewrite !all_ops_live by done. rewrite Ho. simpl. by rewrite app_assoc.
Qed.

Lemma run_write_wp s F m o b n :
  sys_inv s F m (op_weight o + b) (S n) -> (0 <= b)%Z -> op_key o <> [] ->
  wp only_crash (run_cmd (CWrite o) s)
    (fun r G => r.1 = None /\ sys_inv r.2 G (spec_write o m) b n)
    (fun G => holds_map G m n \/ holds_map G (spec_write o m) n) F.
Proof.
  intros Hs Hb Hk. destruct s as [db task]. cbn [run_cmd]. apply wp_bind.
  eapply wp_mono; [by apply write_sys_wp| |done]. intros r G [_ Hr]. by apply wp_ret.
Qed.

Lemma run_get_wp s F m key b n :
  sys_inv s F m b (S n) -> (0 <= b)%Z ->
  wp only_crash (run_cmd (CGet key) s)
    (fun r G => r.1 = Some (m !! key) /\ sys_inv r.2 G m b n)
    (fun G => holds_map G m n) F.
Proof.
  intros (tabs & old & cur & next & Hs) Hb. destruct (sys_room _ _ _ _ _ _ _ _ _ Hs) as (Hfid & Hwid & Hroom & _).
  destruct s as [db task]. destruct Hs. simpl in *. apply wp_bind.
  eapply wp_mono; [apply (Get_wp _ _ _ tabs); [apply only_crash_can_err|apply sys_on0]| |].
  - intros [v db'] G (-> & Hv & Hdb). simpl in Hv, Hdb. subst v db'. apply wp_ret.
    split; [simpl; by rewrite sys_shows0|]. exists tabs, old, cur, next. split; simpl; try done; try lia.
    destruct sys_on0. split; try done. by destruct live_inv; split.
  - intros G [-> _]. exists tabs, (live_logs old cur next). split.
    + eapply (recoverable_intro _ _ _ _ (all_ops (live_logs old cur next))); try apply sys_on0; try done; [lia|].
      by exists [].
    + eapply shows_ext; [|exact sys_shows0]. intros k. symmetry. by eapply live_version.
Qed.

Lemma run_prealloc_wp s F m b n :
  sys_inv s F m b (S n) -> (0 <= b)%Z ->
  wp only_crash (run_cmd CPrealloc s)
    (fun r G => r.1 = None /\ sys_inv r.2 G m b n)
    (fun G => holds_map G m n) F.
Proof.
  intros (tabs & old & cur & next & Hs) Hb. destruct (sys_room _ _ _ _ _ _ _ _ _ Hs) as (Hfid & Hwid & Hroom & _).
  destruct s as [db task]. destruct Hs. simpl in *. destruct (walNotify db) eqn:Hnot.
  2:{ apply wp_ret. split; [done|]. exists tabs, old, cur, next. split; simpl; try done; [congruence|lia..]. }
  rewrite (sys_notify0 eq_refl) in *. apply wp_bind. eapply wp_mono; [by apply prealloc_live| |].
  - intros db' G (Hl & Hv & Hn & Hf & Hw & Hi). apply wp_ret. split; [done|].
    assert (Hops : all_ops (live_logs old cur (Some (mkLog (walFileID db) [] []))) = all_ops (live_logs old cur None))
      by (by rewrite !all_ops_live).
    exists tabs, old, cur, (Some (mkLog (walFileID db) [] [])).
    split; cbn [fst snd]; rewrite ?Hops, ?Hi; try done; try lia; [|congruence].
    eapply shows_ext; [exact Hv|done].
  - intros G (Hman & next' & Hdur & Hnext).
    assert (Hops : all_ops (live_logs old cur next') = all_ops (live_logs old cur None))
      by (destruct Hnext as [->| ->]; by rewrite !all_ops_live).
    exists tabs, (live_logs old cur next'). split.
    + eapply (recoverable_intro _ _ _ _ (all_ops (live_logs old cur None))); try done; [|lia|].
      * destruct Hroom as (Hrk & Hrt & Hrl). split; [done|split; [done|]]. destruct Hnext as [->| ->]; [done|].
        unfold live_logs in *. apply Forall_app in Hrl as [Ho [Hc _]%Forall_cons].
        apply Forall_app. split; [done|]. constructor; [done|]. apply Forall_singleton. simpl. lia.
      * exists []. by rewrite Hops.
    + eapply shows_ext; [|exact sys_shows0]. intros k. symmetry.
      rewrite (live_version _ _ _ _ _ _ k sys_on0). unfold disk_version. by rewrite Hops.
Qed.

Lemma run_flush_wp s F m b n :
  sys_inv s F m b (S n) -> (0 <= b)%Z ->
  wp only_crash (run_cmd CFlush s)
    (fun r G => r.1 = None /\ sys_inv r.2 G m b n)
    (fun G => holds_map G m n \/ flush_cut G m n) F.
Proof.
  intros (tabs & old & cur & next & Hs) Hb. destruct (sys_room _ _ _ _ _ _ _ _ _ Hs) as (Hfid & Hwid & Hroom & _).
  destruct s as [db task]. pose proof (sys_on _ _ _ _ _ _ _ _ _ Hs) as Hl. destruct Hs. simpl in *.
  destruct old as [l|]; simpl in sys_task0; subst task.
  2:{ apply wp_bind, wp_ret, wp_ret. split; [done|]. exists tabs, None, cur, next.
      split; simpl; try done; lia. }
  pose proof (live_old _ _ _ _ _ _ Hl) as Hold. destruct (immTable db) as [imm|] eqn:Himm; [|done].
  destruct Hold as [_ Hmap]. pose proof (inv_imm _ _ _ (live_inv _ _ _ _ _ _ Hl)) as Hwf.
  rewrite Himm in Hwf. destruct Hwf as [Hwf Hne].
  assert (Hempty : match next with Some l => log_ops l = [] | None => True end)
    by (destruct next; [apply (live_empty _ _ _ _ _ _ Hl)|done]).
  assert (Hops : all_ops (live_logs (Some l) cur next) = log_ops l ++ all_ops (live_logs None cur next)).
  { rewrite !all_ops_live by done. unfold all_ops. simpl. by rewrite app_nil_r. }
  rewrite Hops in sys_keys0, sys_weight0. pose proof (ops_weight_nonneg (all_ops (live_logs None cur next))).
  assert (Hfit : table_fits (pairs imm)).
  { apply weight_fits. pose proof (mem_weight imm (log_ops l) Hwf Hmap).
    rewrite ops_weight_app in sys_weight0. lia. }
  assert (Hlt : Forall (fun t => t.1 < nextFileID db)%Z tabs).
  { eapply Forall_impl; [apply (inv_ids _ _ _ (live_inv _ _ _ _ _ _ Hl))|]. intros t Hlt. cbn beta in *. lia. }
  unfold run_task; cbn [flush_imm flush_wal]. apply wp_bind.
  eapply wp_mono; [by eapply flush_live| |].
  - intros db' G (-> & Hl' & Hv). apply wp_ret. split; [done|].
    exists (tabs ++ [(nextFileID db, pairs imm)]), None, cur, next.
    assert (Hu : u64 (nextFileID db + 1) = (nextFileID db + 1)%Z)
      by (unfold id6 in Hfid; apply u64_small; lia).
    split; cbn [fst snd]; simpl; rewrite ?Hu; try done; try lia.
    + eapply shows_ext; [exact Hv|done].
    + by apply Forall_app in sys_keys0 as [_ ?].
    + rewrite ops_weight_app in sys_weight0. pose proof (ops_weight_nonneg (log_ops l)). lia.
  - intros G [(tabs' & logs' & Hdur & Hman & Ht & Hlogs & Hv)|[Ht|Ht]].
    + left. exists tabs', logs'. split; [|eapply shows_ext; [exact Hv|done]].
      eapply (recoverable_intro _ _ _ _ (log_ops l ++ all_ops (live_logs None cur next))); try done; [|lia|].
      * destruct Hroom as (Hrk & Hrt & Hrl). split; [done|split].
        -- destruct Ht as [->| ->]; [done|]. apply Forall_app. split; [done|]. apply Forall_singleton. simpl. lia.
        -- destruct Hlogs as [->| ->]; [done|]. unfold live_logs in *. simpl in *. by apply Forall_cons in Hrl as [_ ?].
      * destruct Hlogs as [->| ->]; [exists []; by rewrite Hops|by exists (log_ops l)].
    + right. exists F, tabs, (live_logs (Some l) cur next). split_and!.
      * eapply (recoverable_intro _ _ _ _ (all_ops (live_logs (Some l) cur next))); try apply Hl; rewrite ?Hops; try done; [lia|].
        by exists [].
      * eapply shows_ext; [|exact sys_shows0]. intros k. symmetry. by apply (live_version _ _ _ _ _ _ k Hl).
      * left. exists (nextFileID db), (pairs imm), l, (live_logs None cur next). by split_and!.
    + right. exists (flush_table db (pairs imm) F), (tabs ++ [(nextFileID db, pairs imm)]), (live_logs (Some l) cur next).
      assert (Hok : run_ok (pairs imm)) by (split; [done|by apply mem_sorted|done]).
      split_and!.
      * eapply (recoverable_intro _ _ _ _ (all_ops (live_logs (Some l) cur next))); rewrite ?Hops; try done; [| | |lia|by exists []].
        -- by apply durable_table; [apply Hl| | |].
        -- unfold flush_table. rewrite lookup_insert_ne by done. apply Hl.
        -- destruct Hroom as (Hrk & Hrt & Hrl). split; [done|split; [|done]].
           apply Forall_app. split; [done|]. apply Forall_singleton. simpl. lia.
      * eapply shows_ext; [|exact sys_shows0]. intros k. rewrite (live_version _ _ _ _ _ _ k Hl). by apply disk_version_logged.
      * right. unfold flush_line in Ht. rewrite (inv_sst _ _ _ (live_inv _ _ _ _ _ _ Hl)) in Ht. by rewrite fmap_app.
Qed.

Lemma sys_live_idle s F m b n tabs old cur next :
  sys_live s F m b (S n) tabs old cur next -> sys_live s F m b n tabs old cur next.
Proof. intros []. split; try done; lia. Qed.

(** Nothing is compacted. *)
Lemma run_tick_wp s F m elapsed b n :
  sys_inv s F m b (S n) -> compacts s = false ->
  wp only_crash (run_cmd (CTick elapsed) s) (fun r G => r.1 = None /\ sys_inv r.2 G m b n) (fun _ => False) F.
Proof.
  intros (tabs & old & cur & next & Hs) Hoff. destruct s as [db task]. unfold compacts in Hoff. cbn [run_cmd fst] in *.
  unfold compaction_tick, needCompaction. rewrite Hoff. apply wp_bind, wp_ret, wp_ret. split; [done|].
  exists tabs, old, cur, next. by apply sys_live_idle.
Qed.

(** The switch of the compaction loop stays. *)
Lemma checkAndFlush_compacts db : enableCompaction (checkAndFlush db).1 = enableCompaction db.
Proof. unfold checkAndFlush. repeat case_match; done. Qed.

Lemma flush_compacts db imm w : returns (fun db' => enableCompaction db' = enableCompaction db) (flush db imm w).
Proof. unfold flush, installFlushedTable, reserveNextFileID. returns_steps; by simplify_eq/=. Qed.

Lemma write_compacts db o : returns (fun r => enableCompaction r.1.2 = enableCompaction db) (write db o).
Proof.
  pose proof (checkAndFlush_compacts (set_mem db (MemTable.Put (memTable db) (op_key o) (op_val o)))) as Hc.
  rewrite write_unfold. returns_steps; done.
Qed.

Lemma compact_files_compacts db olds : returns (fun r => enableCompaction r.2 = enableCompaction db) (compact_files db olds).
Proof. unfold compact_files, installCompactedTable, reserveNextFileID. returns_steps; by simplify_eq/=. Qed.

Lemma tick_compacts elapsed db : returns (fun db' => enableCompaction db' = enableCompaction db) (compaction_tick elapsed db).
Proof.
  unfold compaction_tick, doCompaction. destruct (needCompaction db); [|by apply returns_ret].
  apply (returns_bind (fun r => enableCompaction r.2 = enableCompaction db)); [|intros r Hr; by apply returns_ret].
  destruct (pickCompactionFiles db) as [[|meta olds]|]; [by apply returns_ret| |apply returns_panic].
  eapply returns_bind; [apply compact_files_compacts|]. intros [[err n] db'] Hr. by apply returns_ret.
Qed.

Lemma write_sys_compacts o s : returns (fun r => compacts r.2 = compacts s) (write_sys o s).
Proof.
  destruct s as [db task]. eapply returns_bind; [apply write_compacts|]. intros [[err db'] t] Hr. by apply returns_ret.
Qed.

Lemma run_cmd_compacts c s : returns (fun r => compacts r.2 = compacts s) (run_cmd c s).
Proof.
  destruct s as [db task]. destruct c as [o|key| | |elapsed]; cbn [run_cmd]; unfold compacts.
  - eapply returns_bind; [apply write_sys_compacts|]. intros [err s'] Hr. by apply returns_ret.
  - unfold Get. returns_steps; done.
  - eapply returns_bind; [|intros db' Hr; apply returns_ret; exact Hr].
    destruct task as [t|]; [apply flush_compacts|by apply returns_ret].
  - unfold walPreAllocator_turn. returns_steps; done.
  - eapply returns_bind; [apply tick_compacts|]. intros db' Hr. by apply returns_ret.
Qed.

(** ** Refinement *)

(** One command: the response and the map of the specification; after a crash,
    the disk holds the map before or after the command, unless a flush was cut in
    the middle of its table or of its manifest line. *)
Lemma run_cmd_wp c s F m b n :
  sys_inv s F m (cmd_cost c + b) (S n) -> (0 <= b)%Z -> cmd_ok c -> ticks_idle (compacts s) c ->
  wp only_crash (run_cmd c s)
    (fun r G => compacts r.2 = compacts s /\ r.1 = (spec_cmd c m).1 /\ sys_inv r.2 G (spec_cmd c m).2 b n)
    (fun G => holds_map G m n \/ holds_map G (spec_cmd c m).2 n \/ flush_cut G m n) F.
Proof.
  intros Hs Hb Hc Ht. apply wp_returns; [apply run_cmd_compacts|]. destruct c as [o|key| | |elapsed]; simpl in *.
  - eapply wp_mono; [by eapply run_write_wp|done|]. intros G [?|?]; auto.
  - eapply wp_mono; [by eapply run_get_wp|done|]. auto.
  - eapply wp_mono; [by eapply run_flush_wp|done|]. intros G [?|?]; auto.
  - eapply wp_mono; [by eapply run_prealloc_wp|done|]. auto.
  - destruct Ht as [Hoff|[]]. eapply wp_mono; [by eapply run_tick_wp|done|done].
Qed.

Definition cmds_cost (cs : list cmd) : Z := foldr (fun c s => (cmd_cost c + s)%Z) 0%Z cs.

Lemma cmds_cost_nonneg cs : (0 <= cmds_cost cs)%Z.
Proof.
  induction cs as [|c cs IH]; simpl; [done|].
  destruct c; simpl; try lia. pose proof (op_weight_nonneg o). lia.
Qed.

Lemma recoverable_weaken F tabs logs k k' : k' <= k -> recoverable F tabs logs k -> recoverable F tabs logs k'.
Proof.
  intros Hk [? ? (Hr & Ht & Hl) ? ?]. split; [done|done| |done|done]. split; [lia|split].
  - eapply Forall_impl; [exact Ht|]. intros t Hlt. cbn beta in *. lia.
  - eapply Forall_impl; [exact Hl|]. intros l Hlt. cbn beta in *. lia.
Qed.

Lemma holds_map_weaken F m k k' : k' <= k -> holds_map F m k -> holds_map F m k'.
Proof. intros Hk (tabs & logs & Hr & Hs). exists tabs, logs. split; [by eapply recoverable_weaken|done]. Qed.

Lemma flush_cut_weaken F m k k' : k' <= k -> flush_cut F m k -> flush_cut F m k'.
Proof.
  intros Hk (G & tabs & logs & Hr & Hs & Hc). exists G, tabs, logs. split; [by eapply recoverable_weaken|]. by split.
Qed.

Lemma run_cmds_wp cs s F m b n :
  sys_inv s F m (cmds_cost cs + b) (length cs + n) -> (0 <= b)%Z -> Forall cmd_ok cs -> Forall (ticks_idle (compacts s)) cs ->
  wp only_crash (run_cmds cs s)
    (fun r G => r.1 = (spec_cmds cs m).1 /\ sys_inv r.2 G (spec_cmds cs m).2 b n)
    (fun G => exists k, k <= length cs /\
       (holds_map G (spec_cmds (take k cs) m).2 n \/ flush_cut G (spec_cmds (take k cs) m).2 n)) F.
Proof.
  intros Hs Hb Hok. revert s F m Hs. induction Hok as [|c cs Hc Hcs IH]; intros s F m Hs Ht.
  { apply wp_ret. done. }
  apply Forall_cons in Ht as [Ht Hts]. cbn [run_cmds]. apply wp_bind. pose proof (cmds_cost_nonneg cs).
  assert (Hspec : forall k, (spec_cmds (take (S k) (c :: cs)) m).2 = (spec_cmds (take k cs) (spec_cmd c m).2).2).
  { intros k. simpl. destruct (spec_cmd c m) as [r m']; simpl. by destruct (spec_cmds (take k cs) m'). }
  eapply wp_mono.
  { eapply (run_cmd_wp c s F m (cmds_cost cs + b)); [|lia|done|done].
    simpl in Hs. by rewrite Z.add_assoc. }
  - intros r G (Hsame & Hr & Hinv). rewrite <- Hsame in Hts. apply wp_bind. eapply wp_mono; [by eapply IH| |].
    + intros rs G' [Hrs Hinv']. apply wp_ret. simpl in *.
      destruct (spec_cmd c m) as [r0 m']; simpl in *. destruct (spec_cmds cs m') as [rs0 m'']; simpl in *.
      by subst.
    + intros G' (k & Hk & Hm). exists (S k). split; [simpl; lia|]. by rewrite Hspec.
  - intros G [Hm|[Hm|Hm]].
    + exists 0. split; [lia|]. left. eapply holds_map_weaken; [|exact Hm]. lia.
    + exists 1. split; [simpl; lia|]. rewrite (Hspec 0). left. eapply holds_map_weaken; [|exact Hm]. lia.
    + exists 0. split; [lia|]. right. eapply flush_cut_weaken; [|exact Hm]. lia.
Qed.

(** ** Start-up *)

(** Start-up on a disk that holds a map gives a system that shows it, with a
    fresh budget of bytes. *)
Lemma NewDB_refines compaction F m b n :
  holds_map F m (S n) -> (24 + b < TombstoneLen)%Z ->
  wp no_fault (NewDBWithOptions compaction)
    (fun db G => sys_inv (db, None) G m b n) (fun _ => False) F.
Proof.
  intros (tabs & logs & Hrec & Hshow) Hb. eapply wp_mono; [by eapply NewDB_wp| |done].
  intros db G (tabs' & cur & Hl & Hops & Hnot & Hn & Hw & Hv).
  exists tabs', None, cur, None.
  assert (Hall : all_ops (live_logs None cur None) = []) by (by rewrite all_ops_live, Hops).
  split; simpl; rewrite ?Hall; try done.
  eapply shows_ext; [exact Hv|done].
Qed.

Lemma load_loop_compacts names db metas : returns (fun r => enableCompaction r.1 = enableCompaction db) (load_loop names db metas).
Proof.
  revert db metas. induction names as [|name names IH]; intros db metas; cbn [load_loop]; [by apply returns_ret|].
  case_decide; [|apply IH]. apply returns_after. intros [content|e]; [|by apply returns_ret].
  destruct (load_file _ content) as [|e|meta]; [apply IH|by apply returns_ret|]. intros d.
  pose proof (IH (bumpNextFileID db (Sscanf06d name)) (metas ++ [meta]) d) as Hd. unfold bumpNextFileID in *. by destruct (_ <=? _)%Z.
Qed.

Lemma NewDB_compacts compaction : returns (fun db => enableCompaction db = compaction) (NewDBWithOptions compaction).
Proof.
  unfold NewDBWithOptions. apply (returns_bind (fun r => enableCompaction r.1 = compaction)).
  { unfold loadSSTables, applyManifestOrder. apply returns_after. intros [names|e]; [|by apply returns_ret].
    eapply returns_bind; [apply load_loop_compacts|]. intros [db [metas|e]] Hc; [|by apply returns_ret]. returns_steps; by simplify_eq/=. }
  intros r <-. apply (returns_bind (fun r' => enableCompaction r'.1 = enableCompaction r.1)).
  { unfold RecoverFromWAL. returns_steps; by simplify_eq/=. }
  intros r' <-. apply (returns_bind (fun db => enableCompaction db = enableCompaction r'.1)).
  { destruct (0 <? _)%Z; [|by apply returns_ret]. eapply returns_mono; [apply flush_compacts|done]. }
  intros db <-. returns_steps. unfold StartCompactionLoop. by repeat case_match.
Qed.

(** An empty directory holds the empty map. *)
Lemma recoverable_empty k : (1 + Z.of_nat k < 10 ^ 6)%Z -> recoverable ∅ [] [] k.
Proof.
  intros Hk. split.
  - split; try (by apply Forall_nil); try done.
    + constructor.
    + constructor.
    + intros name. rewrite lookup_empty. by intros [? ?].
  - by left.
  - split; [done|split; by apply Forall_nil].
  - by apply Forall_nil.
  - done.
Qed.

Lemma holds_map_empty k : (1 + Z.of_nat k < 10 ^ 6)%Z -> holds_map ∅ ∅ k.
Proof. intros Hk. exists [], []. split; [by apply recoverable_empty|]. intros key. by rewrite lookup_empty. Qed.
