(* ===== verification/LsmTheorems.v ===== *)
(** * The properties of the storage engine

    The promises of the engine to its clients: what it stores, what it returns, and
    what survives faults, crashes and restarts. Each theorem is followed by a
    concrete instance where it has hypotheses. *)
From S2P Require Import EngineSpec.

(** ** The engine as a map across crashes *)

(** C1. After start-up on a disk that holds the map [m], every sequence of writes,
    reads, flushes, log pre-allocations and ticks of the compaction loop answers like
    the finite map, whatever the process-kill schedule, when compaction is off; with
    compaction on, every sequence before the first tick.  A kill leaves a disk that
    holds the map after some first part of the commands, or, when it cuts a flush, such
    a disk with an incomplete file of the new table or an incomplete last line in the
    manifest. *)
Theorem engine_crash_refinement compaction F m cs n :
  holds_map F m (S (length cs + n)) -> (24 + cmds_cost cs < TombstoneLen)%Z -> Forall cmd_ok cs ->
  Forall (ticks_idle compaction) cs ->
  exists db d, NewDBWithOptions compaction (mkDisk F []) = (Done db, d) /\
    forall fs, Forall only_crash fs ->
    match run_cmds cs (db, None) (mkDisk (disk_files d) fs) with
    | (Done r, d') => r.1 = (spec_cmds cs m).1 /\ sys_inv r.2 (disk_files d') (spec_cmds cs m).2 0 n
    | (Panic, _) => False
    | (Crashed, d') => exists k, k <= length cs /\
        (holds_map (disk_files d') (spec_cmds (take k cs) m).2 n \/ flush_cut (disk_files d') (spec_cmds (take k cs) m).2 n)
    end.
Proof.
  intros Hm Hb Hok Ht. destruct (wp_no_fault _ _ _ (wp_returns _ _ _ _ _ _ (NewDB_compacts compaction)
    (NewDB_refines compaction F m _ _ Hm Hb))) as (db & d & Hnew & Hc & Hinv).
  exists db, d. split; [exact Hnew|]. intros fs Hfs. rewrite <- (Z.add_0_r (cmds_cost cs)) in Hinv. rewrite <- Hc in Ht.
  pose proof (run_cmds_wp cs _ _ m 0 n Hinv ltac:(lia) Hok Ht fs Hfs) as Hrun.
  destruct (run_cmds _ _ _) as [[r| |] d']; [|done|done]. apply Hrun.
Qed.

Lemma engine_crash_refinement_witness :
  let cs := [CWrite (WPut (lit "k") (lit "v")); CGet (lit "k"); CPrealloc; CTick 7; CWrite (WDelete (lit "k")); CFlush] in
  exists db d, NewDBWithOptions false (mkDisk ∅ []) = (Done db, d) /\
    forall fs, Forall only_crash fs ->
    match run_cmds cs (db, None) (mkDisk (disk_files d) fs) with
    | (Done r, d') => r.1 = (spec_cmds cs ∅).1 /\ sys_inv r.2 (disk_files d') (spec_cmds cs ∅).2 0 10
    | (Panic, _) => False
    | (Crashed, d') => exists k, k <= length cs /\
        (holds_map (disk_files d') (spec_cmds (take k cs) ∅).2 10 \/ flush_cut (disk_files d') (spec_cmds (take k cs) ∅).2 10)
    end.
Proof.
  cbv zeta. apply (engine_crash_refinement false ∅ ∅ _ 10).
  - apply holds_map_empty. reflexivity.
  - reflexivity.
  - repeat constructor; discriminate.
  - repeat constructor.
Defined.

(** Start-up on a disk that holds a map recovers it: every read returns the
    value of the map, and no file changes. *)
Theorem restart_recovers compaction F m key :
  holds_map F m 2 ->
  exists db d db' d', NewDBWithOptions compaction (mkDisk F []) = (Done db, d) /\
    Engine.Get db key (mkDisk (disk_files d) []) = (Done (m !! key, db'), d') /\ disk_files d' = disk_files d.
Proof.
  intros Hm. destruct (wp_no_fault _ _ _ (NewDB_refines compaction F m 0 1 Hm eq_refl)) as (db & d & Hnew & Hinv).
  destruct Hinv as (tabs & old & cur & next & Hs).
  destruct (wp_no_fault _ _ _ (wp_mono _ _ _ _ _ (fun _ => False) _
    (Get_wp no_fault db _ tabs key no_fault_can_err (live_inv _ _ _ _ _ _ (sys_on _ _ _ _ _ _ _ _ _ Hs)))
    (fun _ _ H => H) (fun G H => no_fault_can_crash (proj2 H)))) as ([v db'] & d' & Hget & Hd & Hv & _).
  exists db, d, db', d'. split; [exact Hnew|]. cbn [fst] in Hv. rewrite (sys_shows _ _ _ _ _ _ _ _ _ Hs) in Hv.
  subst v. by split.
Qed.

Lemma restart_recovers_witness :
  exists db d db' d', NewDBWithOptions false (mkDisk ∅ []) = (Done db, d) /\
    Engine.Get db (lit "k") (mkDisk (disk_files d) []) = (Done ((∅ : gmap bytes bytes) !! lit "k", db'), d') /\ disk_files d' = disk_files d.
Proof. apply (restart_recovers false ∅ ∅ (lit "k")). apply holds_map_empty. reflexivity. Defined.

(** ** The write-ahead log *)

(** C13. Replaying any prefix of a log calls back exactly the operations whose
    records are complete in the prefix, in their order. *)
Theorem wal_replay_torn {S} (onPut : bytes -> bytes -> S -> S) (onDelete : bytes -> S -> S) ops p s :
  Forall op_fits ops -> p `prefix_of` encode_ops ops ->
  exists n, (n <= length ops)%nat /\ encode_ops (take n ops) `prefix_of` p /\
    (forall m, (m <= length ops)%nat -> encode_ops (take m ops) `prefix_of` p -> (m <= n)%nat) /\
    fst (Replay onPut onDelete p s) = foldl (call_back onPut onDelete) s (take n ops).
Proof. apply Replay_torn. Qed.

Lemma wal_replay_torn_witness :
  let ops := [WPut (lit "a") (lit "1"); WDelete (lit "a")] in
  let p := take 14 (encode_ops ops) in
  exists n, (n <= length ops)%nat /\ encode_ops (take n ops) `prefix_of` p /\
    (forall m, (m <= length ops)%nat -> encode_ops (take m ops) `prefix_of` p -> (m <= n)%nat) /\
    fst (Replay mem_onPut mem_onDelete p NewMemTable) =
    foldl (call_back mem_onPut mem_onDelete) NewMemTable (take n ops).
Proof.
  cbv zeta. apply wal_replay_torn.
  - repeat constructor.
  - apply prefix_take.
Defined.

(** C33. The replay loop ends: as many turns as the file has bytes are enough, and
    more turns change nothing. *)
Theorem wal_replay_ends {S} (onPut : bytes -> bytes -> S -> S) (onDelete : bytes -> S -> S) fuel content s :
  (length content <= fuel)%nat ->
  replay_loop onPut onDelete fuel content s = Replay onPut onDelete content s.
Proof. apply replay_loop_fuel. Qed.

Lemma wal_replay_ends_witness :
  replay_loop mem_onPut mem_onDelete 100 (lit "xyz") NewMemTable = Replay mem_onPut mem_onDelete (lit "xyz") NewMemTable.
Proof. apply (wal_replay_ends mem_onPut mem_onDelete 100 (lit "xyz") NewMemTable). simpl. lia. Defined.

(** ** The memory table *)

(** C25. After any sequence of insertions and deletions the memory table is a sorted
    run whose [size] is the number of bytes it holds, and [Get] reads the finite
    map built by the same sequence. *)
Theorem memtable_refines_map (ws : list (bytes * option bytes)) :
  let m := foldl (fun m w => MemTable.Put m w.1 w.2) NewMemTable ws in
  mem_wf m /\
  forall key, MemTable.Get m key = foldl (fun (M : gmap bytes (option bytes)) w => <[w.1 := w.2]> M) ∅ ws !! key.
Proof.
  assert (H : forall m, mem_wf m ->
    mem_wf (foldl (fun m w => MemTable.Put m w.1 w.2) m ws) /\
    mem_map (foldl (fun m w => MemTable.Put m w.1 w.2) m ws) =
      foldl (fun (M : gmap bytes (option bytes)) w => <[w.1 := w.2]> M) (mem_map m) ws).
  { induction ws as [|w ws IH]; intros m Hm; [done|]. cbn [foldl].
    rewrite <- Put_map by (by apply mem_sorted). apply IH. by apply Put_wf. }
  destruct (H NewMemTable NewMemTable_wf) as [Hwf Hmap]. split; [exact Hwf|].
  intros key. rewrite Get_map by (by apply mem_sorted). by rewrite Hmap.
Qed.

(** ** Table files *)

(** C16. A table that was written is loaded with the same identifier, index and key
    range, and a lookup through the loaded metadata returns for every key, stored
    or not, what the run holds. *)
Theorem sstable_roundtrip id ps F :
  ps <> [] -> run_sorted ps -> table_fits ps ->
  exists d, writeSSTable (sst_path id) ps (mkDisk F []) = (Done (zlen (sst_bytes ps), sst_index ps, None), d) /\
    exists content meta, disk_files d !! sst_path id = Some content /\ load_file id content = LoadOk meta /\
      meta = mkMeta id (match ps with p :: _ => Key p | [] => [] end) (last_key ps) (zlen content) (sst_index ps) /\
      forall key, exists d', readValFromSSTable meta key (mkDisk (disk_files d) []) = (Done (run_lookup ps key), d') /\
        disk_files d' = disk_files d.
Proof.
  intros Hne Hs Hfit. destruct (wp_no_fault _ _ _ (writeSSTable_no_fault (sst_path id) ps F (fits_file _ Hfit)))
    as (r & d & Hw & -> & Hd).
  exists d. split; [exact Hw|]. rewrite Hd. exists (sst_bytes ps), (table_meta id ps).
  split_and!; [by rewrite lookup_insert_eq|by apply load_file_sst_bytes|done|].
  intros key. destruct (wp_no_fault (readValFromSSTable (table_meta id ps) key)
    (fun r G => r = run_lookup ps key /\ G = <[sst_path id := sst_bytes ps]> F)
    (<[sst_path id := sst_bytes ps]> F)) as (v & d' & Hr & -> & ?).
  - apply (read_table_pure ps); try done. by rewrite lookup_insert_eq.
  - by exists d'.
Qed.

Lemma sstable_roundtrip_witness :
  let ps := [mkKV (lit "a") (Some (lit "1")); mkKV (lit "b") None] in
  exists d, writeSSTable (sst_path 7) ps (mkDisk ∅ []) = (Done (zlen (sst_bytes ps), sst_index ps, None), d) /\
    exists content meta, disk_files d !! sst_path 7 = Some content /\ load_file 7 content = LoadOk meta /\
      meta = mkMeta 7 (match ps with p :: _ => Key p | [] => [] end) (last_key ps) (zlen content) (sst_index ps) /\
      forall key, exists d', readValFromSSTable meta key (mkDisk (disk_files d) []) = (Done (run_lookup ps key), d') /\
        disk_files d' = disk_files d.
Proof.
  cbv zeta. apply sstable_roundtrip.
  - discriminate.
  - repeat constructor.
  - split; [repeat constructor|reflexivity].
Defined.

(** Under any schedule of I/O errors and process kills, [writeSSTable] touches
    no other file, reports success only when the file is complete, and otherwise
    leaves a prefix. *)
Theorem sstable_write_reports id ps F :
  (zlen (sst_bytes ps) < 2 ^ 63)%Z ->
  wp any_fault (writeSSTable (sst_path id) ps)
    (fun r G => (forall p, p <> sst_path id -> G !! p = F !! p) /\
       (snd r = None -> G !! sst_path id = Some (sst_bytes ps)) /\
       (snd r <> None -> G = F \/ exists d, d `prefix_of` sst_bytes ps /\ G !! sst_path id = Some d))
    (fun G => (forall p, p <> sst_path id -> G !! p = F !! p) /\
       (G = F \/ exists d, d `prefix_of` sst_bytes ps /\ G !! sst_path id = Some d)) F.
Proof.
  intros Hlen.
  assert (Ht : forall G, torn_table (sst_path id) ps F G -> (forall p, p <> sst_path id -> G !! p = F !! p) /\
    (G = F \/ exists d, d `prefix_of` sst_bytes ps /\ G !! sst_path id = Some d)).
  { intros G [->|(d & Hd & ->)]; [by auto|]. split; [intros p Hp; by rewrite lookup_insert_ne|].
    right. exists d. by rewrite lookup_insert_eq. }
  eapply wp_mono; [by apply writeSSTable_wp| |intros G [HG _]; by apply Ht].
  intros r G [(Hr & -> & _)|((e & Hr) & HG & _)]; rewrite Hr.
  - split_and!; [intros p Hp; by rewrite lookup_insert_ne|by rewrite lookup_insert_eq|done].
  - destruct (Ht G HG). by split_and!.
Qed.

Lemma sstable_write_reports_witness :
  let ps := [mkKV (lit "a") (Some (lit "1"))] in
  wp any_fault (writeSSTable (sst_path 7) ps)
    (fun r G => (forall p, p <> sst_path 7 -> G !! p = (∅ : files) !! p) /\
       (snd r = None -> G !! sst_path 7 = Some (sst_bytes ps)) /\
       (snd r <> None -> G = ∅ \/ exists d, d `prefix_of` sst_bytes ps /\ G !! sst_path 7 = Some d))
    (fun G => (forall p, p <> sst_path 7 -> G !! p = (∅ : files) !! p) /\
       (G = ∅ \/ exists d, d `prefix_of` sst_bytes ps /\ G !! sst_path 7 = Some d)) ∅.
Proof. cbv zeta. apply sstable_write_reports. reflexivity. Defined.

(** ** Merging *)

(** C15. The k-way merge of sorted runs, driven through the iterator interface, is a
    sorted run that holds for every key but the empty one the version of the newest run
    that has it, and for the empty key that of the oldest run; an empty value comes out
    as a tombstone. *)
Theorem merge_correct {I} `{IteratorLaws I} (its : list (option I)) rs :
  Forall2 run_of its rs -> Forall run_sorted rs -> (Z.of_nat (length its) < 2 ^ 64)%Z ->
  run_sorted (doMerge its) /\
  (forall key, key <> [] -> run_lookup (doMerge its) key = copy_bytes <$> newest rs key) /\
  run_lookup (doMerge its) [] = copy_bytes <$> oldest rs [].
Proof.
  intros Hits Hs Hlen. destruct (doMerge_spec its rs Hits Hs Hlen) as [Hrun Hlk].
  split_and!; [done| |by rewrite Hlk]. intros key Hkey. rewrite Hlk. unfold merge_spec. by rewrite decide_False.
Qed.

Lemma merge_correct_witness :
  let r1 := [mkKV (lit "a") (Some (lit "1")); mkKV (lit "b") (Some (lit "2"))] in
  let r2 := [mkKV (lit "a") None] in
  let its := [Some (iter_Next (mkIter [] None false (records r1))); None; Some (iter_Next (mkIter [] None false (records r2)))] in
  run_sorted (doMerge its) /\
  (forall key, key <> [] -> run_lookup (doMerge its) key = copy_bytes <$> newest [r1; []; r2] key) /\
  run_lookup (doMerge its) [] = copy_bytes <$> oldest [r1; []; r2] [].
Proof.
  cbv zeta. apply merge_correct.
  - repeat (constructor; try done).
  - repeat constructor.
  - reflexivity.
Defined.

(** ** Reads, flushes and compactions of one engine *)

(** C20. [Get] returns the visible version of the key (memory table first, then the
    frozen table, then the files from the newest to the oldest), leaves the disk
    alone, and reports to the metrics how many files it opened: from the newest to the
    oldest those whose key range covers the key, up to the first that holds it. *)
Theorem get_reads_version db F tabs key :
  db_inv db F tabs ->
  exists d, Engine.Get db key (mkDisk F []) =
      (Done (visible (version db tabs key),
             set_metrics db (recordGetSSTableTouches (metrics db) (files_touched db tabs key))), d) /\
    disk_files d = F.
Proof.
  intros Hinv. destruct (wp_no_fault _ _ _ (wp_mono _ _ _ _ _ (fun _ => False) _
    (Get_wp no_fault db F tabs key no_fault_can_err Hinv)
    (fun _ _ H => H) (fun G H => no_fault_can_crash (proj2 H)))) as ([v db'] & d & Hget & Hd & Hv & Hdb).
  cbn [fst snd] in Hv, Hdb. subst v db'. by exists d.
Qed.

(** A run of two tables where the newer one deletes the key of the older one. *)
Definition two_tables : list table :=
  [(1, [mkKV (lit "a") (Some (lit "1")); mkKV (lit "b") (Some (lit "2"))]); (2, [mkKV (lit "a") None])]%Z.

Definition disk_of (tabs : list table) : files :=
  foldr (fun t F => <[sst_path t.1 := sst_bytes t.2]> F) ∅ tabs.

Definition db_of (tabs : list table) (next : Z) : DB :=
  set_nextID (set_sst (initial_DB true) (meta_of <$> tabs)) next.

Lemma two_tables_inv : db_inv (db_of two_tables 3) (disk_of two_tables) two_tables.
Proof.
  split.
  - apply NewMemTable_wf.
  - done.
  - done.
  - repeat constructor; try discriminate; vm_compute; reflexivity.
  - repeat constructor; simpl; lia.
  - repeat constructor; set_solver.
  - vm_compute; split; [discriminate|reflexivity].
Qed.

(** The newer table covers only [a] and holds it; [b] is looked for in the older one. *)
Lemma get_reads_version_witness :
  (exists d, Engine.Get (db_of two_tables 3) (lit "a") (mkDisk (disk_of two_tables) []) =
      (Done (None, set_metrics (db_of two_tables 3) (recordGetSSTableTouches zeroMetrics 1)), d) /\
    disk_files d = disk_of two_tables) /\
  files_touched (db_of two_tables 3) two_tables (lit "b") = 1%Z /\ files_touched (db_of two_tables 3) two_tables (lit "c") = 0%Z.
Proof.
  split; [|split; reflexivity].
  exact (get_reads_version (db_of two_tables 3) (disk_of two_tables) two_tables (lit "a") two_tables_inv).
Defined.

Lemma torn_manifest_sst F line G id : torn_manifest F line G -> G !! sst_path id = F !! sst_path id.
Proof. intros [->|(d & _ & ->)]; [done|]. by rewrite lookup_insert_ne. Qed.

Lemma manifest_after_sst E F line G id : manifest_after E F line G -> G !! sst_path id = F !! sst_path id.
Proof. intros [->|[HG _]]; [unfold manifest_appended; by rewrite lookup_insert_ne|by eapply torn_manifest_sst]. Qed.

Lemma log_deleted_sst w F G id : log_deleted w F G -> G !! sst_path id = F !! sst_path id.
Proof. intros [->|(x & name & _ & _ & ->)]; [done|]. by rewrite lookup_delete_ne. Qed.

Lemma log_removed_sst w F id : log_removed w F !! sst_path id = F !! sst_path id.
Proof. destruct w as [[[name|]]|]; simpl; [by rewrite lookup_delete_ne|done..]. Qed.

(** A table file cut short under a fresh identifier hides no table. *)
Lemma torn_table_inv db F tabs ps G :
  db_inv db F tabs -> (nextFileID db + 1 < 2 ^ 64)%Z -> torn_table (sst_path (nextFileID db)) ps F G ->
  db_inv (set_nextID db (u64 (nextFileID db + 1))) G tabs.
Proof.
  intros [] Hid Ht. unfold is_u64 in *.
  assert (Hu : u64 (nextFileID db + 1) = (nextFileID db + 1)%Z) by (apply u64_small; lia).
  split; simpl; rewrite ?Hu; try done; [| |unfold is_u64; lia].
  - rewrite Forall_forall in inv_tabs, inv_ids |- *. intros t Hin.
    apply (table_on_agree F); [by apply inv_tabs|]. destruct Ht as [->|(d & _ & ->)]; [done|].
    rewrite lookup_insert_ne; [done|]. specialize (inv_ids t Hin). cbn beta in inv_ids. intros Heq%sst_path_inj; unfold is_u64; lia.
  - eapply Forall_impl; [exact inv_ids|]. intros t Hlt. cbn beta in *. lia.
Qed.

(** C21. A flush, whatever fails in it and wherever it is killed, keeps every
    listed table on the disk; when it returns, every key has the version it had. *)
Theorem flush_keeps_versions db F tabs imm oldWal :
  db_inv db F tabs -> immTable db = Some imm -> table_fits (pairs imm) -> (nextFileID db + 1 < 2 ^ 64)%Z ->
  wp any_fault (flush db (Some imm) oldWal)
    (fun db' G => exists tabs', db_inv db' G tabs' /\ (tabs' = tabs \/ tabs' = tabs ++ [(nextFileID db, pairs imm)]) /\
       forall key, version db' tabs' key = version db tabs key)
    (fun G => Forall (table_on G) tabs) F.
Proof.
  intros Hinv Himm Hfit Hid. pose proof (inv_imm _ _ _ Hinv) as Hwf. rewrite Himm in Hwf. destruct Hwf as [_ Hne].
  pose proof (flushed_inv _ _ _ _ Hinv Himm Hfit Hid) as Hnew.
  assert (Hold : forall G, (forall id, G !! sst_path id = flush_table db (pairs imm) F !! sst_path id) -> Forall (table_on G) tabs).
  { intros G HG. pose proof (inv_tabs _ _ _ (inv_agree _ _ _ _ Hnew HG)) as Hall. by apply Forall_app in Hall as [? _]. }
  eapply wp_mono; [by apply flush_wp, (fits_file _ Hfit)| |].
  - intros db' G [(-> & Ht & _)|(-> & G1 & HG1 & HG)].
    + exists tabs. split_and!; [by eapply torn_table_inv|by left|done].
    + exists (tabs ++ [(nextFileID db, pairs imm)]). split_and!; [|by right|by intros; apply flushed_version].
      eapply inv_agree; [exact Hnew|]. intros id. rewrite <- (manifest_after_sst _ _ _ _ id HG1).
      destruct HG as [->|[HG _]]; [apply log_removed_sst|by eapply log_deleted_sst].
  - intros G [Ht|[Ht|(G1 & HG1 & HG)]].
    + apply (inv_tabs _ _ _ (torn_table_inv _ _ _ _ _ Hinv Hid Ht)).
    + apply Hold. intros id. by eapply torn_manifest_sst.
    + apply Hold. intros id. rewrite <- (manifest_after_sst _ _ _ _ id HG1). by eapply log_deleted_sst.
Qed.

(** The frozen table of the example holds a newer version of a key. *)
Definition frozen_mem : MemTable := MemTable.Put NewMemTable (lit "a") (Some (lit "3")).

Lemma frozen_inv : db_inv (set_imm (db_of two_tables 3) (Some frozen_mem)) (disk_of two_tables) two_tables.
Proof.
  destruct two_tables_inv. split; try done. split; [apply Put_wf, NewMemTable_wf|discriminate].
Qed.

Lemma flush_keeps_versions_witness :
  let db := set_imm (db_of two_tables 3) (Some frozen_mem) in
  wp any_fault (flush db (Some frozen_mem) None)
    (fun db' G => exists tabs', db_inv db' G tabs' /\ (tabs' = two_tables \/ tabs' = two_tables ++ [(3%Z, pairs frozen_mem)]) /\
       forall key, version db' tabs' key = version db two_tables key)
    (fun G => Forall (table_on G) two_tables) (disk_of two_tables).
Proof.
  cbv zeta. apply (flush_keeps_versions (set_imm (db_of two_tables 3) (Some frozen_mem)) (disk_of two_tables) two_tables).
  - apply frozen_inv.
  - reflexivity.
  - split; [repeat constructor|reflexivity].
  - reflexivity.
Defined.

(** C26. A compaction replaces the picked (oldest) tables by their merge, appended
    as the newest table: reads after it return the merged version where there is
    one, and the remaining tables only below it. *)
Theorem compaction_reads db F (old rest : list table) elapsed key :
  db_inv db F (old ++ rest) -> old <> [] -> pickCompactionFiles db = Some (meta_of <$> old) ->
  (24 + run_weight (mjoin old.*2) < 2 ^ 63)%Z -> (nextFileID db + 1 < 2 ^ 64)%Z ->
  exists db' d ps, doCompaction elapsed db (mkDisk F []) = (Done (None, db'), d) /\
    db_inv db' (disk_files d) (rest ++ [(nextFileID db, ps)]) /\
    (forall t, t ∈ old -> disk_files d !! sst_path t.1 = None) /\
    version db' (rest ++ [(nextFileID db, ps)]) key =
    match mem_map (memTable db) !! key with
    | Some v => Some v
    | None =>
        match imm_lookup (immTable db) key with
        | Some v => Some v
        | None => match merge_spec old.*2 key with Some v => Some v | None => newest rest.*2 key end
        end
    end.
Proof.
  intros Hinv Hne Hpick Hw Hid.
  destruct (wp_no_fault _ _ _ (doCompaction_wp db F old rest elapsed Hinv Hne Hpick Hw Hid))
    as ([err db'] & d & Hc & ps & Hm & Hr & Hinv' & Hv & _ & Hgone).
  injection Hr as -> Hdb. exists db', d, ps. split_and!; [done|done|done|].
  etrans; [exact (Hv key)|]. by apply compacted_version.
Qed.

(** When a key is not in the tables newer than the picked ones, is not the
    empty key, and no picked table holds an empty value for it, compaction keeps
    its version. *)
Theorem compaction_keeps_settled_keys db F (old rest : list table) elapsed key :
  db_inv db F (old ++ rest) -> old <> [] -> pickCompactionFiles db = Some (meta_of <$> old) ->
  (24 + run_weight (mjoin old.*2) < 2 ^ 63)%Z -> (nextFileID db + 1 < 2 ^ 64)%Z ->
  newest rest.*2 key = None -> no_empty old.*2 key ->
  exists db' d ps, doCompaction elapsed db (mkDisk F []) = (Done (None, db'), d) /\
    db_inv db' (disk_files d) (rest ++ [(nextFileID db, ps)]) /\
    version db' (rest ++ [(nextFileID db, ps)]) key = version db (old ++ rest) key.
Proof.
  intros Hinv Hne Hpick Hw Hid Hrest Hkey.
  destruct (wp_no_fault _ _ _ (doCompaction_wp db F old rest elapsed Hinv Hne Hpick Hw Hid))
    as ([err db'] & d & Hc & ps & Hm & Hr & Hinv' & Hv & _ & Hgone).
  injection Hr as -> Hdb. exists db', d, ps. split_and!; [done|done|].
  etrans; [exact (Hv key)|]. rewrite (compacted_version _ _ _ _ _ Hm), (merge_spec_no_empty _ _ Hkey), Hrest.
  unfold version. rewrite fmap_app, newest_app_gen, Hrest. by destruct (newest old.*2 key).
Qed.

(** Five tables; the oldest four are picked. *)
Definition old_tables : list table :=
  [(1, [mkKV (lit "k") (Some (lit "old"))]); (2, [mkKV (lit "a") (Some (lit "1"))]);
   (3, [mkKV (lit "b") (Some [])]); (4, [mkKV (lit "c") None])]%Z.
Definition new_tables : list table := [(5%Z, [mkKV (lit "k") (Some (lit "new"))])].

Lemma five_tables_inv : db_inv (db_of (old_tables ++ new_tables) 6) (disk_of (old_tables ++ new_tables)) (old_tables ++ new_tables).
Proof.
  split.
  - apply NewMemTable_wf.
  - done.
  - done.
  - repeat constructor; try discriminate; vm_compute; reflexivity.
  - repeat constructor; simpl; lia.
  - repeat constructor; set_solver.
  - vm_compute; split; [discriminate|reflexivity].
Qed.

Lemma compaction_reads_witness :
  let db := db_of (old_tables ++ new_tables) 6 in
  exists db' d ps, doCompaction 0 db (mkDisk (disk_of (old_tables ++ new_tables)) []) = (Done (None, db'), d) /\
    db_inv db' (disk_files d) (new_tables ++ [(6%Z, ps)]) /\
    (forall t, t ∈ old_tables -> disk_files d !! sst_path t.1 = None) /\
    version db' (new_tables ++ [(6%Z, ps)]) (lit "k") =
    match mem_map (memTable db) !! lit "k" with
    | Some v => Some v
    | None =>
        match imm_lookup (immTable db) (lit "k") with
        | Some v => Some v
        | None => match merge_spec old_tables.*2 (lit "k") with Some v => Some v | None => newest new_tables.*2 (lit "k") end
        end
    end.
Proof.
  cbv zeta. apply (compaction_reads (db_of (old_tables ++ new_tables) 6) _ old_tables new_tables 0 (lit "k")).
  - apply five_tables_inv.
  - discriminate.
  - reflexivity.
  - reflexivity.
  - reflexivity.
Defined.

Lemma compaction_keeps_settled_keys_witness :
  let db := db_of (old_tables ++ new_tables) 6 in
  exists db' d ps, doCompaction 0 db (mkDisk (disk_of (old_tables ++ new_tables)) []) = (Done (None, db'), d) /\
    db_inv db' (disk_files d) (new_tables ++ [(6%Z, ps)]) /\
    version db' (new_tables ++ [(6%Z, ps)]) (lit "a") = version db (old_tables ++ new_tables) (lit "a").
Proof.
  cbv zeta. apply (compaction_keeps_settled_keys (db_of (old_tables ++ new_tables) 6) _ old_tables new_tables 0 (lit "a")).
  - apply five_tables_inv.
  - discriminate.
  - reflexivity.
  - reflexivity.
  - reflexivity.
  - reflexivity.
  - split; [discriminate|]. intros H%(bool_decide_pack _). vm_compute in H. exact H.
Defined.

(** ** Behaviours that break the promises *)

(** One write whose append fails after [n] bytes, and one that succeeds. *)
Lemma write_failing db o name F n :
  wal db = Some (mkWAL (Some name)) ->
  write db o (mkDisk F [FErr n]) = (Done (Some EIO, db, None), mkDisk (append_data (WalFile name) (take n (encode_op o)) F) []).
Proof. intros Hw. by rewrite write_unfold, Hw. Qed.

Lemma write_succeeding db o name F :
  wal db = Some (mkWAL (Some name)) ->
  exists db' task, write db o (mkDisk F []) = (Done (None, db', task), mkDisk (append_data (WalFile name) (encode_op o) F) []).
Proof.
  intros Hw. destruct (checkAndFlush (set_mem db (MemTable.Put (memTable db) (op_key o) (op_val o)))) as [db' task] eqn:Hc.
  exists db', task. rewrite write_unfold, Hw. unfold mbind at 1, IO_bind at 1. cbn [append_buf wal_file].
  unfold file_Write, file_Sync, syscall, mbind, IO_bind. cbn [disk_faults disk_files id]. by rewrite Hc.
Qed.

(** C38. An append that fails inside the value of a put leaves its bytes in the log, and
    the log goes on behind them: a later write that was acknowledged is swallowed by the
    broken record, and replay calls back the operations from before the failure only. *)
Theorem failed_append_loses_acked_write db F tabs old cur next k v o n :
  live db F tabs old cur next -> op_fits (WPut k v) ->
  (9 + length k <= n)%nat -> (n + length (encode_op o) < length (encode_op (WPut k v)))%nat ->
  exists d db' task d', write db (WPut k v) (mkDisk F [FErr n]) = (Done (Some EIO, db, None), d) /\
    write db o (mkDisk (disk_files d) []) = (Done (None, db', task), d') /\
    exists content, disk_files d' !! WalFile (wal_filename (log_id cur)) = Some content /\
      forall m, fst (Replay mem_onPut mem_onDelete content m) = foldl (call_back mem_onPut mem_onDelete) m (log_ops cur).
Proof.
  intros Hl Hfit Hn Hlen. set (file := WalFile (wal_filename (log_id cur))).
  assert (Hcur : cur ∈ live_logs old cur next) by (apply elem_of_live_logs; tauto).
  pose proof (live_dur _ _ _ _ _ _ Hl) as Hdur.
  assert (Hfile : F !! file = Some (encode_ops (log_ops cur))).
  { pose proof (dur_on _ _ _ Hdur) as Hon. rewrite Forall_forall in Hon. unfold file. rewrite (Hon cur Hcur). unfold log_bytes.
    by rewrite (live_cur _ _ _ _ _ _ Hl), app_nil_r. }
  assert (Hops : Forall op_fits (log_ops cur)).
  { pose proof (dur_logs _ _ _ Hdur) as Hok. rewrite Forall_forall in Hok. apply (Hok cur Hcur). }
  set (broken := encode_ops (log_ops cur) ++ take n (put_buf k v)).
  pose proof (live_wal _ _ _ _ _ _ Hl) as Hwal. unfold log_wal in Hwal.
  assert (Hbroken : append_data file (take n (put_buf k v)) F = <[file := broken]> F) by (unfold append_data; by rewrite Hfile).
  destruct (write_succeeding db o _ (<[file := broken]> F) Hwal) as (db' & task & Hw).
  eexists _, db', task, _. split_and!; [by apply write_failing| |].
  - fold file. cbn [encode_op disk_files]. rewrite Hbroken. exact Hw.
  - exists (broken ++ encode_op o). fold file. unfold append_data. cbn [disk_files]. rewrite !lookup_insert_eq. split; [done|].
    intros m. unfold broken. rewrite <- app_assoc. by apply Replay_swallowed.
Qed.

(** An engine right after its start on an empty directory. *)
Lemma failed_append_loses_acked_write_witness :
  let k := lit "k" in let v := lit "a value of more than twelve bytes" in let o := WPut (lit "j") (lit "w") in
  exists db F cur, log_ops cur = [] /\
  exists d db' task d', write db (WPut k v) (mkDisk F [FErr 13]) = (Done (Some EIO, db, None), d) /\
    write db o (mkDisk (disk_files d) []) = (Done (None, db', task), d') /\
    exists content, disk_files d' !! WalFile (wal_filename (log_id cur)) = Some content /\
      forall m, fst (Replay mem_onPut mem_onDelete content m) = foldl (call_back mem_onPut mem_onDelete) m (log_ops cur).
Proof.
  cbv zeta. destruct (wp_no_fault _ _ _ (NewDB_wp ∅ [] [] 1 false (recoverable_empty 2 eq_refl)))
    as (db & d & _ & tabs & cur & Hl & Hops & _).
  exists db, (disk_files d), cur. split; [exact Hops|].
  apply (failed_append_loses_acked_write db (disk_files d) tabs None cur None _ _ _ 13 Hl).
  - split; reflexivity.
  - simpl. lia.
  - simpl. lia.
Defined.

(** C39. One table file that start-up refuses (any file of at least 24 bytes that does not
    end in the magic number, such as one that was cut) makes it ignore every table: in a
    directory without logs, no stored key is found any more. *)
Theorem torn_table_hides_all compaction F name content :
  F !! SstFile name = Some content -> Ext name = lit ".sst" -> (FooterSize <= zlen content)%Z ->
  UintLE (drop (length content - 8) content) <> SSTableMagicNumber ->
  (forall n, Ext n = lit ".log" -> F !! WalFile n = None) ->
  exists db d, NewDBWithOptions compaction (mkDisk F []) = (Done db, d) /\ sstables db = [] /\
    (forall n, disk_files d !! SstFile n = F !! SstFile n) /\
    forall key, exists db' d', Engine.Get db key (mkDisk (disk_files d) []) = (Done (None, db'), d').
Proof.
  intros Hf Hext Hlen Hmagic Hlogs.
  destruct (load_file_refused (Sscanf06d name) content Hlen Hmagic) as [e He].
  destruct (wp_no_fault _ _ _ (NewDB_refused compaction F name content e Hf Hext He Hlogs)) as (db & d & Hnew & Hs & Hm & Hi & Hsst).
  exists db, d. split_and!; [done|done|done|]. intros key. unfold Engine.Get, get_locked. rewrite Hm, Hi, Hs. by eexists _, _.
Qed.

Lemma torn_table_hides_all_witness :
  let cut := take 24 (sst_bytes [mkKV (lit "c") (Some (lit "3"))]) in
  let F := <[sst_path 3 := cut]> (disk_of two_tables) in
  version (db_of two_tables 3) two_tables (lit "b") = Some (Some (lit "2")) /\
  exists db d, NewDBWithOptions true (mkDisk F []) = (Done db, d) /\ sstables db = [] /\
    (forall n, disk_files d !! SstFile n = F !! SstFile n) /\
    forall key, exists db' d', Engine.Get db key (mkDisk (disk_files d) []) = (Done (None, db'), d').
Proof.
  cbv zeta. split; [vm_compute; reflexivity|].
  apply (torn_table_hides_all true _ (sst_filename 3) (take 24 (sst_bytes [mkKV (lit "c") (Some (lit "3"))]))).
  - apply lookup_insert_eq.
  - reflexivity.
  - vm_compute. discriminate.
  - vm_compute. discriminate.
  - intros n _. unfold disk_of, two_tables. cbn [foldr fst snd]. unfold sst_path. rewrite !lookup_insert_ne by discriminate. reflexivity.
Defined.

(** File names carry identifiers of up to six digits and no more: they are
    read back exactly below 10^6, and the next identifier is read as another one. *)
Theorem file_ids_six_digits :
  (forall id, (0 <= id < 10 ^ 6)%Z -> Sscanf06d (sst_filename id) = id /\ Sscanf06d (wal_filename id) = id) /\
  Sscanf06d (sst_filename (10 ^ 6)) = (10 ^ 5)%Z.
Proof. split; [|reflexivity]. intros id Hid. split; by apply Sscanf06d_Sprintf06d. Qed.

(** The order of the tables survives a restart: with the line of the listed
    tables last in the manifest, the files, in whatever order the directory shows
    them, are ordered as listed, and unlisted files follow by identifier. *)
Theorem manifest_roundtrip data listed extra metas :
  manifest_complete data -> listed <> [] -> Forall (fun m => is_u64 (FileID m)) listed ->
  NoDup (FileID <$> (listed ++ extra)) -> StronglySorted id_le extra -> metas ≡ₚ listed ++ extra ->
  manifest_order (data ++ manifest_line listed) (merge_sort id_le metas) = listed ++ extra.
Proof. apply manifest_order_append. Qed.

Lemma manifest_roundtrip_witness :
  let m i := mkMeta i [] [] 0 [] in
  manifest_order (lit "5" ++ [Byte.x0a] ++ manifest_line [m 12%Z; m 3%Z]) (merge_sort id_le [m 3%Z; m 7%Z; m 12%Z])
    = [m 12%Z; m 3%Z; m 7%Z].
Proof.
  intros m. apply (manifest_roundtrip (lit "5" ++ [Byte.x0a]) [m 12%Z; m 3%Z] [m 7%Z]).
  - right. by exists (lit "5").
  - discriminate.
  - repeat constructor; discriminate.
  - apply (bool_decide_unpack _). vm_compute. exact I.
  - repeat constructor.
  - exact (Permutation_sym (Permutation_middle [m 3%Z; m 7%Z] [] (m 12%Z))).
Defined.
