(* ===== verification/Persister.v ===== *)
(** * The persister of Raft's state (internal/raft/persister.go)

    [Save] overwrites one file with [os.WriteFile], which truncates the file and
    then writes, and panics when this fails.  [file] is the history of the contents
    of this file, newest first; it is empty while the file does not exist. *)
From S2P Require Export Disk.

Record Persister := mkPersister {
  raftstate : bytes;
  snapshot : bytes;
  file : list bytes
}.

(** [MakePersister] on a path whose file has the history [f]. *)
Definition MakePersister (f : list bytes) : Persister := mkPersister [] [] f.

(** [Checkpoint]: a copy; [clone] gives a fresh slice with the same content. *)
Definition Checkpoint (ps : Persister) : Persister := mkPersister (raftstate ps) (snapshot ps) (file ps).

(** What [os.ReadFile] answers. *)
Definition ReadFile (readable : bool) (ps : Persister) : result bytes :=
  if readable then match file ps with content :: _ => inl content | [] => inr ENotExist end
  else inr EIO.

(** [ReadRaftState]: nil when the file does not exist, a panic ([None]) for any
    other error. *)
Definition ReadRaftState (readable : bool) (ps : Persister) : option (option bytes * Persister) :=
  match ReadFile readable ps with
  | inl state => Some (Some state, mkPersister state (snapshot ps) (file ps))
  | inr ENotExist => Some (None, ps)
  | inr _ => None
  end.

Definition RaftStateSize (ps : Persister) : Z := zlen (raftstate ps).

(** How a call of [os.WriteFile] ends: it has written the data; it could not open the
    file; or it failed behind [n] bytes. *)
Inductive write_outcome :=
  | Written
  | NotOpened
  | Failed (n : nat).

(** The file after [n] bytes of a write of [data]: it was truncated when it was opened. *)
Definition torn_write (n : nat) (data : bytes) (h : list bytes) : list bytes := take n data :: h.

Definition WriteFile (w : write_outcome) (data : bytes) (h : list bytes) : option error * list bytes :=
  match w with
  | Written => (None, data :: h)
  | NotOpened => (Some EIO, h)
  | Failed n => (Some EIO, torn_write n data h)
  end.

(** [Save] panics when the write fails; the persister it leaves has the new state in
    memory. *)
Inductive save_outcome :=
  | Saved (ps : Persister)
  | SavePanics (ps : Persister).

Definition Save (w : write_outcome) (state snap : bytes) (ps : Persister) : save_outcome :=
  let ps := mkPersister state (snapshot ps) (file ps) in
  let '(err, h) := WriteFile w state (file ps) in
  let ps := mkPersister (raftstate ps) (snapshot ps) h in
  match err with
  | Some _ => SavePanics ps
  | None => Saved (mkPersister (raftstate ps) snap (file ps))
  end.

Definition ReadSnapshot (ps : Persister) : bytes := snapshot ps.
Definition SnapshotSize (ps : Persister) : Z := zlen (snapshot ps).

(** What was saved is read back, by this process or by the next one. *)
Lemma Save_Read state snap ps :
  exists ps', Save Written state snap ps = Saved ps' /\
  ReadRaftState true (MakePersister (file ps')) = Some (Some state, mkPersister state [] (file ps')) /\
  RaftStateSize ps' = zlen state /\ ReadSnapshot ps' = snap.
Proof. by eexists. Qed.

(** A [Save] that fails behind the truncation does not keep the previous state. *)
Lemma Save_torn n state snap ps :
  exists ps', Save (Failed n) state snap ps = SavePanics ps' /\
  exists content ps1, ReadRaftState true (MakePersister (file ps')) = Some (Some content, ps1) /\ content `prefix_of` state.
Proof. eexists. split; [done|]. eexists _, _. split; [done|]. apply prefix_take. Qed.
