(* ===== verification/Raft.v ===== *)
(** * Raft: one node (internal/raft/raft.go)

    Every handler and every critical section of a goroutine is a function on the
    state of the node; [None] is a Go panic: an index out of range, or a write of the
    state file that fails in [persist].  The clock, the random source and the outcomes
    of these writes are inputs.  The persisted bytes go through the codec
    [Gob] of [labgob] and through the [Persister]. *)
From S2P Require Export Persister Float64.

(** ** The codec

    [labgob] wraps [encoding/gob]; the code relies on a value written by an
    encoder being read back by a decoder of the same types. *)
Class Gob (A : Type) := {
  gob_encode : A -> bytes;
  gob_decode : bytes -> option A
}.

Class GobLaws (A : Type) `{Gob A} := {
  gob_decode_encode (a : A) : gob_decode (gob_encode a) = Some a;
  gob_nonempty (a : A) : gob_encode a <> []
}.

Inductive NodeState := StateFollower | StateCandidate | StateLeader.

#[export] Instance NodeState_eq_dec : EqDecision NodeState.
Proof. solve_decision. Defined.

(** [Command] is an interface value; the first entry of a log holds nil. *)
Record LogEntry {Cmd : Type} := mkEntry { Term : Z; Command : option Cmd }.
Arguments LogEntry : clear implicits.
Arguments mkEntry {Cmd} _ _.

Record RequestVoteArgs := mkRVArgs { rv_Term : Z; CandidateId : Z; LastLogIndex : Z; LastLogTerm : Z }.
Record RequestVoteReply := mkRVReply { rvr_Term : Z; VoteGranted : bool }.

Record AppendEntriesArgs {Cmd : Type} := mkAEArgs {
  ae_Term : Z; LeaderID : Z; PrevLogIndex : Z; PrevLogTerm : Z; Entries : list (LogEntry Cmd); LeaderCommit : Z
}.
Arguments AppendEntriesArgs : clear implicits.
Arguments mkAEArgs {Cmd} _ _ _ _ _ _.

Record AppendEntriesReply := mkAEReply { aer_Term : Z; Success : bool; XTerm : Z; XIndex : Z; XLen : Z }.

Record ApplyMsg {Cmd : Type} := mkApplyMsg { CommandValid : bool; MsgCommand : option Cmd; CommandIndex : Z }.
Arguments ApplyMsg : clear implicits.
Arguments mkApplyMsg {Cmd} _ _ _.

(** What a handler reads from outside: the time, [rand.Int63()], the measured durations of
    its calls of [persist], and how a write of the state file ends after [k] earlier
    writes of this file. *)
Record Env := mkEnv { now : Z; rand63 : Z; elapsed : Z; disk : nat -> write_outcome }.

(** All writes of the state file succeed. *)
Definition saves (env : Env) : Prop := forall k, disk env k = Written.

Open Scope Z_scope.
Local Open Scope go_scope.

Section Raft.
Context {Cmd : Type} `{Gob (Z * Z * list (LogEntry Cmd))}.
#[local] Abbreviation LogEntry := (LogEntry Cmd).
#[local] Abbreviation AppendEntriesArgs := (AppendEntriesArgs Cmd).
#[local] Abbreviation ApplyMsg := (ApplyMsg Cmd).

(** The state of a node. [votecount] is the variable that the goroutines of one
    election share; they only use it while the node is a candidate in the term of
    this election, so one variable stands for all the elections. *)
Record Raft := mkRaft {
  peers : Z;
  persister : Persister;
  me : Z;
  currentTerm : Z;
  votedFor : Z;
  state : NodeState;
  lastHeartbeat : Z;
  electionTimeout : Z;
  log : list LogEntry;
  commitIndex : Z;
  lastApplied : Z;
  nextIndex : list Z;
  matchIndex : list Z;
  leaderChangeTotal : Z;
  electionStartedTotal : Z;
  termChangeTotal : Z;
  appendEntriesFailedTotal : Z;
  raftPersistCount : Z;
  raftPersistTotalNs : Z;
  raftPersistMaxNs : Z;
  votecount : Z
}.

(** Assignments to the fields. *)
Definition set_persister rf x := mkRaft (peers rf) x (me rf) (currentTerm rf) (votedFor rf) (state rf) (lastHeartbeat rf)
    (electionTimeout rf) (log rf) (commitIndex rf) (lastApplied rf) (nextIndex rf) (matchIndex rf)
    (leaderChangeTotal rf) (electionStartedTotal rf) (termChangeTotal rf)
    (appendEntriesFailedTotal rf) (raftPersistCount rf) (raftPersistTotalNs rf)
    (raftPersistMaxNs rf) (votecount rf).
Definition set_currentTerm rf x := mkRaft (peers rf) (persister rf) (me rf) x (votedFor rf) (state rf) (lastHeartbeat rf)
    (electionTimeout rf) (log rf) (commitIndex rf) (lastApplied rf) (nextIndex rf) (matchIndex rf)
    (leaderChangeTotal rf) (electionStartedTotal rf) (termChangeTotal rf)
    (appendEntriesFailedTotal rf) (raftPersistCount rf) (raftPersistTotalNs rf)
    (raftPersistMaxNs rf) (votecount rf).
Definition set_votedFor rf x := mkRaft (peers rf) (persister rf) (me rf) (currentTerm rf) x (state rf) (lastHeartbeat rf)
    (electionTimeout rf) (log rf) (commitIndex rf) (lastApplied rf) (nextIndex rf) (matchIndex rf)
    (leaderChangeTotal rf) (electionStartedTotal rf) (termChangeTotal rf)
    (appendEntriesFailedTotal rf) (raftPersistCount rf) (raftPersistTotalNs rf)
    (raftPersistMaxNs rf) (votecount rf).
Definition set_state rf x := mkRaft (peers rf) (persister rf) (me rf) (currentTerm rf) (votedFor rf) x (lastHeartbeat rf)
    (electionTimeout rf) (log rf) (commitIndex rf) (lastApplied rf) (nextIndex rf) (matchIndex rf)
    (leaderChangeTotal rf) (electionStartedTotal rf) (termChangeTotal rf)
    (appendEntriesFailedTotal rf) (raftPersistCount rf) (raftPersistTotalNs rf)
    (raftPersistMaxNs rf) (votecount rf).
Definition set_lastHeartbeat rf x := mkRaft (peers rf) (persister rf) (me rf) (currentTerm rf) (votedFor rf) (state rf) x
    (electionTimeout rf) (log rf) (commitIndex rf) (lastApplied rf) (nextIndex rf) (matchIndex rf)
    (leaderChangeTotal rf) (electionStartedTotal rf) (termChangeTotal rf)
    (appendEntriesFailedTotal rf) (raftPersistCount rf) (raftPersistTotalNs rf)
    (raftPersistMaxNs rf) (votecount rf).
Definition set_electionTimeout rf x := mkRaft (peers rf) (persister rf) (me rf) (currentTerm rf) (votedFor rf) (state rf) (lastHeartbeat rf)
    x (log rf) (commitIndex rf) (lastApplied rf) (nextIndex rf) (matchIndex rf)
    (leaderChangeTotal rf) (electionStartedTotal rf) (termChangeTotal rf)
    (appendEntriesFailedTotal rf) (raftPersistCount rf) (raftPersistTotalNs rf)
    (raftPersistMaxNs rf) (votecount rf).
Definition set_log rf x := mkRaft (peers rf) (persister rf) (me rf) (currentTerm rf) (votedFor rf) (state rf) (lastHeartbeat rf)
    (electionTimeout rf) x (commitIndex rf) (lastApplied rf) (nextIndex rf) (matchIndex rf)
    (leaderChangeTotal rf) (electionStartedTotal rf) (termChangeTotal rf)
    (appendEntriesFailedTotal rf) (raftPersistCount rf) (raftPersistTotalNs rf)
    (raftPersistMaxNs rf) (votecount rf).
Definition set_commitIndex rf x := mkRaft (peers rf) (persister rf) (me rf) (currentTerm rf) (votedFor rf) (state rf) (lastHeartbeat rf)
    (electionTimeout rf) (log rf) x (lastApplied rf) (nextIndex rf) (matchIndex rf)
    (leaderChangeTotal rf) (electionStartedTotal rf) (termChangeTotal rf)
    (appendEntriesFailedTotal rf) (raftPersistCount rf) (raftPersistTotalNs rf)
    (raftPersistMaxNs rf) (votecount rf).
Definition set_lastApplied rf x := mkRaft (peers rf) (persister rf) (me rf) (currentTerm rf) (votedFor rf) (state rf) (lastHeartbeat rf)
    (electionTimeout rf) (log rf) (commitIndex rf) x (nextIndex rf) (matchIndex rf)
    (leaderChangeTotal rf) (electionStartedTotal rf) (termChangeTotal rf)
    (appendEntriesFailedTotal rf) (raftPersistCount rf) (raftPersistTotalNs rf)
    (raftPersistMaxNs rf) (votecount rf).
Definition set_nextIndex rf x := mkRaft (peers rf) (persister rf) (me rf) (currentTerm rf) (votedFor rf) (state rf) (lastHeartbeat rf)
    (electionTimeout rf) (log rf) (commitIndex rf) (lastApplied rf) x (matchIndex rf)
    (leaderChangeTotal rf) (electionStartedTotal rf) (termChangeTotal rf)
    (appendEntriesFailedTotal rf) (raftPersistCount rf) (raftPersistTotalNs rf)
    (raftPersistMaxNs rf) (votecount rf).
Definition set_matchIndex rf x := mkRaft (peers rf) (persister rf) (me rf) (currentTerm rf) (votedFor rf) (state rf) (lastHeartbeat rf)
    (electionTimeout rf) (log rf) (commitIndex rf) (lastApplied rf) (nextIndex rf) x
    (leaderChangeTotal rf) (electionStartedTotal rf) (termChangeTotal rf)
    (appendEntriesFailedTotal rf) (raftPersistCount rf) (raftPersistTotalNs rf)
    (raftPersistMaxNs rf) (votecount rf).
Definition set_leaderChangeTotal rf x := mkRaft (peers rf) (persister rf) (me rf) (currentTerm rf) (votedFor rf) (state rf) (lastHeartbeat rf)
    (electionTimeout rf) (log rf) (commitIndex rf) (lastApplied rf) (nextIndex rf) (matchIndex rf)
    x (electionStartedTotal rf) (termChangeTotal rf) (appendEntriesFailedTotal rf)
    (raftPersistCount rf) (raftPersistTotalNs rf) (raftPersistMaxNs rf) (votecount rf).
Definition set_electionStartedTotal rf x := mkRaft (peers rf) (persister rf) (me rf) (currentTerm rf) (votedFor rf) (state rf) (lastHeartbeat rf)
    (electionTimeout rf) (log rf) (commitIndex rf) (lastApplied rf) (nextIndex rf) (matchIndex rf)
    (leaderChangeTotal rf) x (termChangeTotal rf) (appendEntriesFailedTotal rf)
    (raftPersistCount rf) (raftPersistTotalNs rf) (raftPersistMaxNs rf) (votecount rf).
Definition set_termChangeTotal rf x := mkRaft (peers rf) (persister rf) (me rf) (currentTerm rf) (votedFor rf) (state rf) (lastHeartbeat rf)
    (electionTimeout rf) (log rf) (commitIndex rf) (lastApplied rf) (nextIndex rf) (matchIndex rf)
    (leaderChangeTotal rf) (electionStartedTotal rf) x (appendEntriesFailedTotal rf)
    (raftPersistCount rf) (raftPersistTotalNs rf) (raftPersistMaxNs rf) (votecount rf).
Definition set_appendEntriesFailedTotal rf x := mkRaft (peers rf) (persister rf) (me rf) (currentTerm rf) (votedFor rf) (state rf) (lastHeartbeat rf)
    (electionTimeout rf) (log rf) (commitIndex rf) (lastApplied rf) (nextIndex rf) (matchIndex rf)
    (leaderChangeTotal rf) (electionStartedTotal rf) (termChangeTotal rf) x (raftPersistCount rf)
    (raftPersistTotalNs rf) (raftPersistMaxNs rf) (votecount rf).
Definition set_raftPersistCount rf x := mkRaft (peers rf) (persister rf) (me rf) (currentTerm rf) (votedFor rf) (state rf) (lastHeartbeat rf)
    (electionTimeout rf) (log rf) (commitIndex rf) (lastApplied rf) (nextIndex rf) (matchIndex rf)
    (leaderChangeTotal rf) (electionStartedTotal rf) (termChangeTotal rf)
    (appendEntriesFailedTotal rf) x (raftPersistTotalNs rf) (raftPersistMaxNs rf) (votecount rf).
Definition set_raftPersistTotalNs rf x := mkRaft (peers rf) (persister rf) (me rf) (currentTerm rf) (votedFor rf) (state rf) (lastHeartbeat rf)
    (electionTimeout rf) (log rf) (commitIndex rf) (lastApplied rf) (nextIndex rf) (matchIndex rf)
    (leaderChangeTotal rf) (electionStartedTotal rf) (termChangeTotal rf)
    (appendEntriesFailedTotal rf) (raftPersistCount rf) x (raftPersistMaxNs rf) (votecount rf).
Definition set_raftPersistMaxNs rf x := mkRaft (peers rf) (persister rf) (me rf) (currentTerm rf) (votedFor rf) (state rf) (lastHeartbeat rf)
    (electionTimeout rf) (log rf) (commitIndex rf) (lastApplied rf) (nextIndex rf) (matchIndex rf)
    (leaderChangeTotal rf) (electionStartedTotal rf) (termChangeTotal rf)
    (appendEntriesFailedTotal rf) (raftPersistCount rf) (raftPersistTotalNs rf) x (votecount rf).
Definition set_votecount rf x := mkRaft (peers rf) (persister rf) (me rf) (currentTerm rf) (votedFor rf) (state rf) (lastHeartbeat rf)
    (electionTimeout rf) (log rf) (commitIndex rf) (lastApplied rf) (nextIndex rf) (matchIndex rf)
    (leaderChangeTotal rf) (electionStartedTotal rf) (termChangeTotal rf)
    (appendEntriesFailedTotal rf) (raftPersistCount rf) (raftPersistTotalNs rf)
    (raftPersistMaxNs rf) x.

Definition GetState (rf : Raft) : Z * bool := (currentTerm rf, bool_decide (state rf = StateLeader)).

Definition setTermLocked (rf : Raft) (term : Z) : Raft :=
  if term =? currentTerm rf then rf
  else set_termChangeTotal (set_currentTerm rf term) (u64 (termChangeTotal rf + 1)).

(** The bytes of the three encoded fields. *)
Definition raft_bytes (rf : Raft) : bytes := gob_encode (currentTerm rf, votedFor rf, log rf).

(** The write that [persist] makes. *)
Definition save_state (env : Env) (rf : Raft) : save_outcome :=
  Save (disk env (length (file (persister rf)))) (raft_bytes rf) [] (persister rf).

(** [persist] *)
Definition persist (env : Env) (rf : Raft) : option Raft :=
  match save_state env rf with
  | SavePanics _ => None
  | Saved ps =>
      let rf := set_persister rf ps in
      let rf := set_raftPersistCount rf (u64 (raftPersistCount rf + 1)) in
      let rf := set_raftPersistTotalNs rf (raftPersistTotalNs rf + elapsed env) in
      Some (if raftPersistMaxNs rf <? elapsed env then set_raftPersistMaxNs rf (elapsed env) else rf)
  end.

(** The object after a panic of [persist].  In a goroutine of a node or of the network such a
    panic ends the process; in a request of the gateway it is recovered
    ([gin.Recovery]), and the object stays in use. *)
Definition persist_left (env : Env) (rf : Raft) : Raft :=
  match save_state env rf with
  | SavePanics ps => set_persister rf ps
  | Saved _ => rf
  end.

(** [readPersist]: nothing happens without data, or when decoding fails. *)
Definition readPersist (rf : Raft) (data : option bytes) : Raft :=
  match data with
  | None | Some [] => rf
  | Some data =>
      match gob_decode data with
      | None => rf
      | Some (term, voted, entries) => set_log (set_votedFor (set_currentTerm rf term) voted) entries
      end
  end.

Definition PersistBytes (rf : Raft) : Z := RaftStateSize (persister rf).

Definition resetElectionTimeout (env : Env) (rf : Raft) : Raft :=
  let ms := 300 + rand63 env mod 200 in
  set_lastHeartbeat (set_electionTimeout rf (ms * 10 ^ 6)) (now env).

(** A term higher than ours: follow it, without a vote. *)
Definition adoptTerm (rf : Raft) (term : Z) : Raft :=
  set_votedFor (set_state (setTermLocked rf term) StateFollower) (-1).

(** The candidate's log is at least as up to date as one that ends with
    [lastLogTerm] at [lastLogIndex]. *)
Definition upToDate (args : RequestVoteArgs) (lastLogIndex lastLogTerm : Z) : bool :=
  if lastLogTerm <? LastLogTerm args then true
  else (LastLogTerm args =? lastLogTerm) && (lastLogIndex <=? LastLogIndex args).

(** The vote is given, the timer restarts, and the vote is persisted. *)
Definition grantVote (env : Env) (candidate : Z) (rf : Raft) : option Raft :=
  persist env (resetElectionTimeout env (set_votedFor rf candidate)).

(** The second half of [RequestVote], once the terms agree. *)
Definition decideVote (env : Env) (args : RequestVoteArgs) (rf : Raft) : option (RequestVoteReply * Raft) :=
  let lastLogIndex := zlen (log rf) - 1 in
  lastEntry ← (log rf).[lastLogIndex];
  if negb (upToDate args lastLogIndex (Term lastEntry)) then Some (mkRVReply (currentTerm rf) false, rf)
  else if (votedFor rf =? -1) || (votedFor rf =? CandidateId args) then
    rf' ← grantVote env (CandidateId args) rf; Some (mkRVReply (currentTerm rf) true, rf')
  else Some (mkRVReply (currentTerm rf) false, rf).

(** [RequestVote] *)
Definition RequestVote (env : Env) (args : RequestVoteArgs) (rf : Raft) : option (RequestVoteReply * Raft) :=
  if rv_Term args <? currentTerm rf then Some (mkRVReply (currentTerm rf) false, rf)
  else if currentTerm rf <? rv_Term args then
    rf ← persist env (adoptTerm rf (rv_Term args)); decideVote env args rf
  else decideVote env args rf.

(** [Start]: the index, the term, whether this node is the leader; on a leader a
    broadcast is started too. *)
Definition appendCommand (command : Cmd) (rf : Raft) : Raft :=
  set_log rf (log rf ++ [mkEntry (currentTerm rf) (Some command)]).

Definition Start (env : Env) (command : Cmd) (rf : Raft) : option ((Z * Z * bool) * Raft) :=
  if negb (bool_decide (state rf = StateLeader)) then Some ((-1, -1, false), rf)
  else
    rf ← persist env (appendCommand command rf);
    Some ((zlen (log rf) - 1, currentTerm rf, true), rf).

(** What a recovered panic of [Start] leaves: the entry is in the log. *)
Definition Start_left (env : Env) (command : Cmd) (rf : Raft) : Raft := persist_left env (appendCommand command rf).

(** The state of a new candidate. *)
Definition becomeCandidate (env : Env) (rf : Raft) : Raft :=
  let rf := set_currentTerm rf (currentTerm rf + 1) in
  let rf := set_termChangeTotal rf (u64 (termChangeTotal rf + 1)) in
  let rf := set_electionStartedTotal rf (u64 (electionStartedTotal rf + 1)) in
  let rf := set_state rf StateCandidate in
  let rf := set_votedFor rf (me rf) in
  resetElectionTimeout env rf.

(** The arguments sent to every other peer. *)
Definition voteArgs (rf : Raft) : option RequestVoteArgs :=
  lastEntry ← (log rf).[zlen (log rf) - 1];
  Some (mkRVArgs (currentTerm rf) (me rf) (zlen (log rf) - 1) (Term lastEntry)).

(** [startElection] *)
Definition startElection (env : Env) (rf : Raft) : option (RequestVoteArgs * Raft) :=
  rf ← persist env (becomeCandidate env rf);
  args ← voteArgs rf;
  Some (args, set_votecount rf 1).

(** [for i := range rf.peers { rf.nextIndex[i] = len(rf.log) }] *)
Fixpoint set_all (n : nat) (l : list Z) (x : Z) : option (list Z) :=
  match n with
  | O => Some l
  | S n => l ← set_all n l x; zupdate l (Z.of_nat n) x
  end.

(** A candidate with a majority leads: every [nextIndex] is the length of its log. *)
Definition becomeLeader (rf : Raft) : option Raft :=
  next ← set_all (Z.to_nat (peers rf)) (nextIndex rf) (zlen (log rf));
  Some (set_nextIndex (set_leaderChangeTotal (set_state rf StateLeader) (u64 (leaderChangeTotal rf + 1))) next).

(** One more vote: the new state and whether a broadcast starts. *)
Definition countVote (rf : Raft) : option (Raft * bool) :=
  if peers rf / 2 <? votecount rf then
    if bool_decide (state rf = StateCandidate) then
      rf ← becomeLeader rf; Some (rf, true)
    else Some (rf, false)
  else Some (rf, false).

(** The critical section of a vote goroutine after its call returned [ok]. *)
Definition handleVoteReply (env : Env) (args : RequestVoteArgs) (reply : RequestVoteReply) (rf : Raft) :
    option (Raft * bool) :=
  if negb (bool_decide (state rf = StateCandidate)) || negb (currentTerm rf =? rv_Term args) then Some (rf, false)
  else if currentTerm rf <? rvr_Term reply then
    rf ← persist env (adoptTerm rf (rvr_Term reply)); Some (rf, false)
  else if VoteGranted reply then countVote (set_votecount rf (votecount rf + 1))
  else Some (rf, false).

(** The index of the first entry of the conflicting term. *)
Fixpoint back_XIndex (entries : list LogEntry) (xterm : Z) (fuel : nat) (xindex : Z) : option Z :=
  match fuel with
  | O => Some xindex
  | S fuel =>
      if 0 <? xindex then
        e ← entries.[xindex - 1];
        if Term e =? xterm then back_XIndex entries xterm fuel (xindex - 1) else Some xindex
      else Some xindex
  end.

(** The loop over the new entries: the log, and whether it changed. *)
Fixpoint append_loop (entries : list LogEntry) (logIndex : Z) (new : list LogEntry) : option (list LogEntry * bool) :=
  match new with
  | [] => Some (entries, false)
  | entry :: rest =>
      differs ← (if zlen entries <=? logIndex then Some true
                 else e ← entries.[logIndex]; Some (negb (Term e =? Term entry)));
      if differs : bool then
        kept ← zslice_to entries logIndex;
        Some (kept ++ entry :: rest, true)
      else append_loop entries (logIndex + 1) rest
  end.

(** The deferred function of [AppendEntries]. *)
Definition finishAppend (env : Env) (reply : AppendEntriesReply) (needPersist : bool) (rf : Raft) :
    option (AppendEntriesReply * Raft) :=
  let rf := if negb (Success reply)
            then set_appendEntriesFailedTotal rf (u64 (appendEntriesFailedTotal rf + 1)) else rf in
  rf ← (if needPersist then persist env rf else Some rf);
  Some (reply, rf).

(** [commitIndex] follows the leader's, up to the last new entry. *)
Definition followCommit (args : AppendEntriesArgs) (rf : Raft) : Raft :=
  if commitIndex rf <? LeaderCommit args then
    let lastNewEntryIndex := PrevLogIndex args + zlen (Entries args) in
    set_commitIndex rf (Z.min (LeaderCommit args) lastNewEntryIndex)
  else rf.

(** The second half of [AppendEntries], once the node follows the term. *)
Definition matchEntries (env : Env) (args : AppendEntriesArgs) (needPersist : bool) (rf : Raft) :
    option (AppendEntriesReply * Raft) :=
  let term := currentTerm rf in
  let lastLogIndex := zlen (log rf) - 1 in
  if lastLogIndex <? PrevLogIndex args then
    finishAppend env (mkAEReply term false (-1) (-1) (zlen (log rf))) needPersist rf
  else
    e ← (log rf).[PrevLogIndex args];
    if negb (Term e =? PrevLogTerm args) then
      xindex ← back_XIndex (log rf) (Term e) (Z.to_nat (PrevLogIndex args)) (PrevLogIndex args);
      finishAppend env (mkAEReply term false (Term e) xindex 0) needPersist rf
    else
      r ← append_loop (log rf) (PrevLogIndex args + 1) (Entries args);
      finishAppend env (mkAEReply term true 0 0 0) (needPersist || snd r)
        (followCommit args (set_log rf (fst r))).

(** The node follows the sender, in a new term or in its own. *)
Definition followLeader (env : Env) (args : AppendEntriesArgs) (rf : Raft) : Raft :=
  let rf := if currentTerm rf <? ae_Term args
            then set_votedFor (setTermLocked rf (ae_Term args)) (-1) else rf in
  resetElectionTimeout env (set_state rf StateFollower).

(** [AppendEntries] *)
Definition AppendEntries (env : Env) (args : AppendEntriesArgs) (rf : Raft) : option (AppendEntriesReply * Raft) :=
  if ae_Term args <? currentTerm rf then
    finishAppend env (mkAEReply (currentTerm rf) false 0 0 0) false rf
  else matchEntries env args (currentTerm rf <? ae_Term args) (followLeader env args rf).

(** The head of a replication goroutine: [Some None] when this node does not lead
    any more. *)
Definition buildAppendEntries (peer : Z) (rf : Raft) : option (option AppendEntriesArgs) :=
  if negb (bool_decide (state rf = StateLeader)) then Some None
  else
    next ← (nextIndex rf).[peer];
    let sendLen := Z.max 0 (zlen (log rf) - next) in
    suffix ← zslice_from (log rf) next;
    prev ← (log rf).[next - 1];
    Some (Some (mkAEArgs (currentTerm rf) (me rf) (next - 1) (Term prev)
                  (take (Z.to_nat sendLen) suffix) (commitIndex rf))).

(** The number of nodes known to store entry [N], for an entry of this term. *)
Fixpoint count_match (rf : Raft) (N : Z) (n : nat) : option Z :=
  match n with
  | O => Some 1
  | S n =>
      count ← count_match rf N n;
      if Z.of_nat n =? me rf then Some count
      else
        m ← (matchIndex rf).[Z.of_nat n];
        if N <=? m then
          e ← (log rf).[N];
          Some (if Term e =? currentTerm rf then count + 1 else count)
        else Some count
  end.

(** The search for the largest index that a majority stores; [N] runs down from
    the last index. *)
Fixpoint commit_loop (rf : Raft) (fuel : nat) (N : Z) : option Raft :=
  match fuel with
  | O => Some rf
  | S fuel =>
      if commitIndex rf <? N then
        count ← count_match rf N (Z.to_nat (peers rf));
        if peers rf / 2 <? count then Some (set_commitIndex rf N)
        else commit_loop rf fuel (N - 1)
      else Some rf
  end.

(** The last entry with this term, or -1. *)
Fixpoint last_with_term (entries : list LogEntry) (xterm : Z) (fuel : nat) (i : Z) : option Z :=
  match fuel with
  | O => Some (-1)
  | S fuel =>
      if 0 <? i then
        e ← entries.[i];
        if Term e =? xterm then Some i else last_with_term entries xterm fuel (i - 1)
      else Some (-1)
  end.

(** The peer took the entries: indices move forward, and the commit index may. *)
Definition ackEntries (peer : Z) (args : AppendEntriesArgs) (rf : Raft) : option Raft :=
  let newNext := PrevLogIndex args + zlen (Entries args) + 1 in
  let newMatch := PrevLogIndex args + zlen (Entries args) in
  next ← (nextIndex rf).[peer];
  nexts ← (if next <? newNext then zupdate (nextIndex rf) peer newNext else Some (nextIndex rf));
  m ← (matchIndex rf).[peer];
  matches ← (if m <? newMatch then zupdate (matchIndex rf) peer newMatch else Some (matchIndex rf));
  commit_loop (set_matchIndex (set_nextIndex rf nexts) matches) (length (log rf)) (zlen (log rf) - 1).

(** The peer refused them: where to start again. *)
Definition backNext (reply : AppendEntriesReply) (rf : Raft) : option Z :=
  if negb (XTerm reply =? -1) then
    lastMatchedIndex ← last_with_term (log rf) (XTerm reply) (length (log rf)) (zlen (log rf) - 1);
    Some (if negb (lastMatchedIndex =? -1) then lastMatchedIndex + 1 else XIndex reply)
  else Some (XLen reply).

(** The critical section of a replication goroutine after its call returned: the
    new state and whether the goroutine's loop goes on. [None] as a reply is a
    call that failed. *)
Definition handleAppendReply (env : Env) (peer : Z) (args : AppendEntriesArgs)
    (reply : option AppendEntriesReply) (rf : Raft) : option (Raft * bool) :=
  match reply with
  | None => Some (set_appendEntriesFailedTotal rf (u64 (appendEntriesFailedTotal rf + 1)), false)
  | Some reply =>
      if negb (bool_decide (state rf = StateLeader)) || negb (currentTerm rf =? ae_Term args) then Some (rf, false)
      else if currentTerm rf <? aer_Term reply then
        rf ← persist env (resetElectionTimeout env (adoptTerm rf (aer_Term reply))); Some (rf, false)
      else if Success reply then
        rf ← ackEntries peer args rf; Some (rf, false)
      else
        next ← backNext reply rf;
        nexts ← zupdate (nextIndex rf) peer (if next <? 1 then 1 else next);
        Some (set_nextIndex rf nexts, true)
  end.

(** One turn of [ticker]: the election it starts, if any. *)
Definition ticker_turn (env : Env) (rf : Raft) : option (option RequestVoteArgs * Raft) :=
  if negb (bool_decide (state rf = StateLeader)) then
    if electionTimeout rf <=? now env - lastHeartbeat rf then
      r ← startElection env rf;
      let '(args, rf) := r in
      Some (Some args, resetElectionTimeout env rf)
    else Some (None, rf)
  else Some (None, rf).

Definition DebugForceElection (env : Env) (rf : Raft) : option (RequestVoteArgs * Raft) :=
  r ← startElection env rf;
  let '(args, rf) := r in
  Some (args, resetElectionTimeout env rf).

(** What a recovered panic of [DebugForceElection] leaves: a candidate that asks nobody. *)
Definition DebugForceElection_left (env : Env) (rf : Raft) : Raft :=
  let rf := becomeCandidate env rf in
  match persist env rf with
  | None => persist_left env rf
  | Some rf => rf
  end.

(** One turn of [heartbeatTicker] or a call of [broadcastHeartbeats]: the peers
    for which a replication goroutine starts. *)
Definition broadcastHeartbeats (rf : Raft) : list Z :=
  if negb (bool_decide (state rf = StateLeader)) then []
  else filter (fun i => i <> me rf) (Z.of_nat <$> seq 0 (Z.to_nat (peers rf))).

Definition heartbeatTicker_turn (rf : Raft) : list Z :=
  if bool_decide (state rf = StateLeader) then broadcastHeartbeats rf else [].

(** The messages that one turn of [applyLoop] collects. *)
Fixpoint apply_turn (fuel : nat) (rf : Raft) : option (list ApplyMsg * Raft) :=
  match fuel with
  | O => Some ([], rf)
  | S fuel =>
      if lastApplied rf <? commitIndex rf then
        let rf := set_lastApplied rf (lastApplied rf + 1) in
        e ← (log rf).[lastApplied rf];
        r ← apply_turn fuel rf;
        let '(msgs, rf') := r in
        Some (mkApplyMsg true (Command e) (lastApplied rf) :: msgs, rf')
      else Some ([], rf)
  end.

Definition applyLoop_turn (rf : Raft) : option (list ApplyMsg * Raft) :=
  apply_turn (Z.to_nat (commitIndex rf - lastApplied rf)) rf.

(** [Snapshot] is empty in the code. *)
Definition Snapshot (index : Z) (snap : bytes) (rf : Raft) : Raft := rf.

(** [DebugMetrics]; durations are reported in milliseconds. *)
Record RaftMetrics := mkRaftMetrics {
  NodeID : Z; IsLeader : bool; CurrentTerm : Z; LeaderChangeTotal : Z; ElectionStartedTotal : Z;
  TermChangeTotal : Z; AppendEntriesFailedTotal : Z; RaftPersistCount : Z; RaftPersistTotalMS : float64;
  RaftPersistMaxMS : float64; CommitIndex : Z; LastApplied : Z; LogLength : Z
}.

Definition DebugMetrics (rf : Raft) : RaftMetrics :=
  mkRaftMetrics (me rf) (bool_decide (state rf = StateLeader)) (currentTerm rf) (leaderChangeTotal rf)
    (electionStartedTotal rf) (termChangeTotal rf) (appendEntriesFailedTotal rf) (raftPersistCount rf)
    (f64_div (f64 (raftPersistTotalNs rf)) f64_ms) (f64_div (f64 (raftPersistMaxNs rf)) f64_ms)
    (commitIndex rf) (lastApplied rf) (zlen (log rf)).

(** [Make]; [None] when the state cannot be read. *)
Definition Make (env : Env) (readable : bool) (npeers : nat) (self : Z) (ps : Persister) : option Raft :=
  let rf := mkRaft (Z.of_nat npeers) ps self 0 (-1) StateFollower 0 0 [] 0 0
              (replicate npeers 0) (replicate npeers 0) 0 0 0 0 0 0 0 0 in
  let rf := resetElectionTimeout env rf in
  let rf := set_log rf (log rf ++ [mkEntry 0 None]) in
  r ← ReadRaftState readable (persister rf);
  let '(data, ps) := r in
  Some (readPersist (set_persister rf ps) data).
End Raft.
