(* ===== verification/RaftNode.v ===== *)
(** * Facts about one Raft node

    [evolves] is what every handler and critical section does to the persistent
    state: terms grow, a vote is not changed within a term, and the file records
    every change before the handler ends.  The other lemmas describe the logs, and
    when nothing panics. *)
From S2P Require Export Raft.

Section Node.
Context {Cmd : Type} `{GobLaws (Z * Z * list (LogEntry Cmd))}.
#[local] Abbreviation LogEntry := (LogEntry Cmd).
#[local] Abbreviation Raft := (Raft (Cmd := Cmd)).

(** ** The persistent state *)

Abbreviation pstate := (Z * Z * list LogEntry)%type.

Definition pst (rf : Raft) : pstate := (currentTerm rf, votedFor rf, log rf).
Definition p_term (p : pstate) : Z := p.1.1.
Definition p_voted (p : pstate) : Z := p.1.2.
Definition p_log (p : pstate) : list LogEntry := p.2.

(** Terms grow, and a vote stays within a term. *)
Definition ple (p q : pstate) : Prop :=
  p_term p < p_term q \/ (p_term p = p_term q /\ (p_voted p = -1 \/ p_voted p = p_voted q)).

Lemma ple_refl p : ple p p.
Proof. right. auto. Qed.

Lemma ple_trans p q r : ple p q -> ple q r -> ple p r.
Proof. unfold ple. intuition (congruence || lia). Qed.

(** The states written by the step, newest first; [ws] is empty only when the
    persistent state did not change. *)
Record evolves (rf rf' : Raft) (ws : list pstate) : Prop := {
  ev_file : file (persister rf') = (gob_encode <$> ws) ++ file (persister rf);
  ev_writes : Forall (fun w => ple (pst rf) w /\ ((p_log w = log rf /\ p_voted w = -1) \/ w = pst rf')) ws;
  ev_last : match ws with w :: _ => w = pst rf' | [] => pst rf' = pst rf end;
  ev_ple : ple (pst rf) (pst rf');
  ev_peers : peers rf' = peers rf;
  ev_me : me rf' = me rf
}.

Lemma evolves_quiet rf rf' :
  pst rf' = pst rf -> file (persister rf') = file (persister rf) -> peers rf' = peers rf -> me rf' = me rf ->
  evolves rf rf' [].
Proof. intros Hp ???. split; try done. rewrite Hp. apply ple_refl. Qed.

(** [persist] goes on after the write. *)
Lemma persist_writes env rf rf' :
  persist env rf = Some rf' -> disk env (length (file (persister rf))) = Written /\
  file (persister rf') = raft_bytes rf :: file (persister rf).
Proof.
  unfold persist, save_state, Save. destruct (disk env _) as [| |n]; cbn [WriteFile]; [|done..].
  intros [= <-]. split; [done|]. by case_match.
Qed.

Lemma persist_file env rf rf' :
  persist env rf = Some rf' -> file (persister rf') = raft_bytes rf :: file (persister rf).
Proof. by intros [_ ?]%persist_writes. Qed.

(** It does when the write succeeds, and panics otherwise. *)
Lemma persist_iff env rf : is_Some (persist env rf) <-> disk env (length (file (persister rf))) = Written.
Proof.
  split; [by intros [rf' [? _]%persist_writes]|]. intros Hd. unfold persist, save_state, Save. rewrite Hd. by eexists.
Qed.

Lemma persist_saves env rf : saves env -> exists rf', persist env rf = Some rf'.
Proof. intros Hs. by apply persist_iff. Qed.

(** The same clock, on a disk that works.  A section that got through its writes does the same
    there. *)
Definition steady (env : Env) : Env := mkEnv (now env) (rand63 env) (elapsed env) (fun _ => Written).

Lemma saves_steady env : saves (steady env).
Proof. done. Qed.

Lemma persist_steady env rf rf' : persist env rf = Some rf' -> persist (steady env) rf = Some rf'.
Proof.
  intros Hp. destruct (persist_writes env rf rf' Hp) as [Hd _]. revert Hp. unfold persist, save_state. by rewrite Hd.
Qed.

(** [persist] leaves every other field alone. *)
Definition same_but_disk (rf rf' : Raft) : Prop :=
  peers rf' = peers rf /\ me rf' = me rf /\ pst rf' = pst rf /\ state rf' = state rf /\
  commitIndex rf' = commitIndex rf /\ lastApplied rf' = lastApplied rf /\
  nextIndex rf' = nextIndex rf /\ matchIndex rf' = matchIndex rf /\ votecount rf' = votecount rf.

Lemma persist_same env rf rf' : persist env rf = Some rf' -> same_but_disk rf rf'.
Proof. unfold persist. destruct (save_state env rf); [|done]. intros [= <-]. by case_match. Qed.

Lemma evolves_persist env rf0 rf rf' :
  persist env rf = Some rf' ->
  ple (pst rf0) (pst rf) -> file (persister rf) = file (persister rf0) ->
  peers rf = peers rf0 -> me rf = me rf0 -> evolves rf0 rf' [pst rf].
Proof.
  intros Hper Hple Hf Hp Hm. destruct (persist_same env rf rf' Hper) as (Hp' & Hm' & Hpst & _).
  assert (log rf' = log rf) as Hl by (injection Hpst; done).
  split.
  - by rewrite (persist_file env rf rf' Hper), Hf.
  - apply Forall_singleton. split; [done|]. right. by rewrite Hpst.
  - by rewrite Hpst.
  - by rewrite Hpst.
  - congruence.
  - congruence.
Qed.

Lemma evolves_trans rf rf1 rf2 ws1 ws2 :
  evolves rf rf1 ws1 -> evolves rf1 rf2 ws2 -> log rf1 = log rf -> votedFor rf1 = -1 -> evolves rf rf2 (ws2 ++ ws1).
Proof.
  intros [] [] Hl Hv. split.
  - by rewrite ev_file1, ev_file0, fmap_app, app_assoc.
  - apply Forall_app. split.
    + eapply Forall_impl; [exact ev_writes1|]. intros w [Hw Hlog]. split; [by eapply ple_trans|].
      by rewrite <- Hl.
    + eapply Forall_impl; [exact ev_writes0|]. intros w [Hw Hlog]. split; [done|]. left.
      destruct Hlog as [Hlog| ->]; [done|by split].
  - destruct ws2 as [|w ws2]; simpl; [|done]. destruct ws1; congruence.
  - by eapply ple_trans.
  - congruence.
  - congruence.
Qed.

Lemma setTermLocked_spec (rf : Raft) term :
  currentTerm (setTermLocked rf term) = term /\ votedFor (setTermLocked rf term) = votedFor rf /\
  log (setTermLocked rf term) = log rf /\ persister (setTermLocked rf term) = persister rf /\
  peers (setTermLocked rf term) = peers rf /\ me (setTermLocked rf term) = me rf /\
  state (setTermLocked rf term) = state rf /\
  commitIndex (setTermLocked rf term) = commitIndex rf /\ lastApplied (setTermLocked rf term) = lastApplied rf /\
  nextIndex (setTermLocked rf term) = nextIndex rf /\ matchIndex (setTermLocked rf term) = matchIndex rf /\
  votecount (setTermLocked rf term) = votecount rf.
Proof. unfold setTermLocked. destruct (term =? currentTerm rf) eqn:He; bool_to_prop; subst; done. Qed.

(** ** Shape of a node of a cluster of [n] nodes *)

Definition terms_le (T : Z) (l : list LogEntry) : Prop := Forall (fun e => 0 <= Term e <= T) l.

Record node_ok (n : nat) (rf : Raft) : Prop := {
  ok_peers : peers rf = Z.of_nat n;
  ok_me : 0 <= me rf < Z.of_nat n;
  ok_next : length (nextIndex rf) = n;
  ok_match : length (matchIndex rf) = n;
  ok_log : log rf <> [];
  ok_term : 0 <= currentTerm rf;
  ok_terms : terms_le (currentTerm rf) (log rf);
  ok_leader : state rf = StateLeader -> Forall (fun i => 1 <= i <= zlen (log rf)) (nextIndex rf)
}.

(** ** Votes *)

(** The indices and the vote counter are left alone. *)
Definition indices (rf : Raft) := (commitIndex rf, lastApplied rf, nextIndex rf, matchIndex rf).

Lemma persist_view env rf rf' :
  persist env rf = Some rf' ->
  currentTerm rf' = currentTerm rf /\ votedFor rf' = votedFor rf /\
  log rf' = log rf /\ state rf' = state rf /\
  indices rf' = indices rf /\ votecount rf' = votecount rf.
Proof. unfold persist. destruct (save_state env rf); [|done]. intros [= <-]. by case_match. Qed.

Lemma adoptTerm_spec rf term :
  pst (adoptTerm rf term) = (term, -1, log rf) /\ state (adoptTerm rf term) = StateFollower /\
  indices (adoptTerm rf term) = indices rf /\ votecount (adoptTerm rf term) = votecount rf /\
  peers (adoptTerm rf term) = peers rf /\ me (adoptTerm rf term) = me rf /\
  persister (adoptTerm rf term) = persister rf.
Proof.
  unfold adoptTerm. destruct (setTermLocked_spec rf term) as (H1 & H2 & H3 & H4 & H5 & H6 & H7 & H8 & H9 & H10 & H11 & H12).
  unfold pst, indices; cbn [currentTerm votedFor log state commitIndex lastApplied nextIndex matchIndex
    votecount peers me persister set_votedFor set_state]. by rewrite H1, H3, H4, H5, H6, H8, H9, H10, H11, H12.
Qed.

(** Every critical section is built from updates of these three kinds. *)
Lemma step_down_evolves env rf rf' term :
  persist env (adoptTerm rf term) = Some rf' -> currentTerm rf < term -> evolves rf rf' [(term, -1, log rf)].
Proof.
  intros Hper Hlt. destruct (adoptTerm_spec rf term) as (Hp & _ & _ & _ & Hpe & Hm & Hps).
  rewrite <- Hp. eapply evolves_persist; [exact Hper|rewrite Hp; by left|congruence|done|done].
Qed.

Lemma grantVote_evolves env c rf rf' :
  grantVote env c rf = Some rf' -> votedFor rf = -1 \/ votedFor rf = c -> evolves rf rf' [(currentTerm rf, c, log rf)].
Proof. intros Hper Hv. eapply (evolves_persist _ rf _ _ Hper); try done. right. split; [done|]. exact Hv. Qed.

Lemma grantVote_view env c rf rf' :
  grantVote env c rf = Some rf' ->
  currentTerm rf' = currentTerm rf /\ votedFor rf' = c /\
  log rf' = log rf /\ state rf' = state rf /\
  indices rf' = indices rf /\ votecount rf' = votecount rf.
Proof. by intros (P1 & P2 & P3 & P4 & P5 & P6)%persist_view. Qed.

Lemma step_down_view env rf rf' term :
  persist env (adoptTerm rf term) = Some rf' ->
  currentTerm rf' = term /\ votedFor rf' = -1 /\ log rf' = log rf /\ state rf' = StateFollower /\
  indices rf' = indices rf /\ votecount rf' = votecount rf.
Proof.
  destruct (adoptTerm_spec rf term) as (Hp & H4 & H5 & H6 & _).
  assert (currentTerm (adoptTerm rf term) = term) as H1 by apply (f_equal p_term Hp).
  assert (votedFor (adoptTerm rf term) = -1) as H2 by apply (f_equal p_voted Hp).
  assert (log (adoptTerm rf term) = log rf) as H3 by apply (f_equal p_log Hp).
  intros (P1 & P2 & P3 & P4 & P5 & P6)%persist_view. by rewrite P1, P2, P3, P4, P5, P6.
Qed.

Lemma znth_last_last (l : list LogEntry) e : znth l (zlen l - 1) = Some e -> last l = Some e.
Proof.
  intros [Hi Hl]%znth_Some. rewrite last_lookup. unfold zlen in Hl.
  by replace (Init.Nat.pred (length l)) with (Z.to_nat (Z.of_nat (length l) - 1)) by lia.
Qed.

(** The section casts no vote: the vote of the term stays, or a new term starts without
    one. *)
Definition no_vote (rf rf' : Raft) : Prop :=
  (currentTerm rf' = currentTerm rf /\ votedFor rf' = votedFor rf) \/ votedFor rf' = -1.

(** What a vote request can change. *)
Record vote_step (args : RequestVoteArgs) (reply : RequestVoteReply) (rf rf' : Raft) (ws : list pstate) : Prop := {
  vs_evolves : evolves rf rf' ws;
  vs_log : log rf' = log rf;
  vs_indices : indices rf' = indices rf;
  vs_count : votecount rf' = votecount rf;
  vs_state : (state rf' = state rf /\ currentTerm rf' = currentTerm rf) \/
             (state rf' = StateFollower /\ currentTerm rf < currentTerm rf');
  vs_term : rvr_Term reply = currentTerm rf' /\ currentTerm rf' = Z.max (currentTerm rf) (rv_Term args);
  vs_granted : VoteGranted reply = true -> currentTerm rf' = rv_Term args /\ votedFor rf' = CandidateId args /\
    exists e, last (log rf) = Some e /\ upToDate args (zlen (log rf) - 1) (Term e) = true;
  vs_refused : VoteGranted reply = false -> no_vote rf rf'
}.

Lemma decideVote_spec env args rf reply rf' :
  decideVote env args rf = Some (reply, rf') -> rv_Term args = currentTerm rf ->
  exists ws, vote_step args reply rf rf' ws.
Proof.
  unfold decideVote. destruct (znth _ _) as [e|] eqn:He; [|done]. cbn [mbind option_bind].
  apply znth_last_last in He.
  destruct (upToDate _ _ _) eqn:Hup; cbn [negb].
  2:{ intros [= <- <-] Ht. exists []. split; try done; [by apply evolves_quiet|by left|simpl; lia|by left]. }
  destruct (_ || _) eqn:Hv.
  2:{ intros [= <- <-] Ht. exists []. split; try done; [by apply evolves_quiet|by left|simpl; lia|by left]. }
  destruct (grantVote env (CandidateId args) rf) as [rf1|] eqn:Hg; [|done]. cbn [mbind option_bind].
  intros [= <- <-] Ht. apply orb_true_iff in Hv.
  assert (Hv' : votedFor rf = -1 \/ votedFor rf = CandidateId args) by (destruct Hv; bool_to_prop; auto).
  pose proof (grantVote_evolves env _ _ _ Hg Hv') as Hev.
  destruct (grantVote_view _ _ _ _ Hg) as (H1 & H2 & H3 & Hs & Hi & Hc).
  eexists. split; [exact Hev|done|done|done|left; done| | |done]; cbn [rvr_Term VoteGranted]; rewrite H1; [lia|].
  rewrite H2. intros _. split_and!; [done|done|by exists e].
Qed.

Lemma RequestVote_spec env args rf reply rf' :
  RequestVote env args rf = Some (reply, rf') -> exists ws, vote_step args reply rf rf' ws.
Proof.
  unfold RequestVote. destruct (rv_Term args <? currentTerm rf) eqn:Hold; bool_to_prop.
  { intros [= <- <-]. exists []. split; try done; [by apply evolves_quiet|by left|simpl; lia|by left]. }
  destruct (currentTerm rf <? rv_Term args) eqn:Hnew; bool_to_prop.
  - intros (rf1 & Hper & Hd)%bind_Some.
    pose proof (step_down_evolves env rf rf1 (rv_Term args) Hper Hnew) as Hev.
    destruct (step_down_view _ _ _ _ Hper) as (H1 & H2 & H3 & Hs & Hi & Hc). clear Hper.
    apply decideVote_spec in Hd as (ws & []); [|done]. eexists. split.
    + eapply evolves_trans; [exact Hev|done|done|done].
    + congruence.
    + congruence.
    + congruence.
    + right. rewrite Hs, H1 in *. destruct vs_state0 as [[-> ->]|[-> ?]]; split; done || lia.
    + rewrite H1 in *. split; [apply vs_term0|]. destruct vs_term0. lia.
    + by rewrite H3 in vs_granted0.
    + intros Hg. right. destruct (vs_refused0 Hg) as [[_ Hv]|?]; congruence.
  - intros Hd. apply decideVote_spec in Hd; [done|lia].
Qed.

(** A node with a log answers every request, when its writes succeed. *)
Lemma decideVote_total env args rf : saves env -> log rf <> [] -> is_Some (decideVote env args rf).
Proof.
  intros Hw Hl. unfold decideVote. destruct (znth_last (log rf) Hl) as [e ->].
  cbn [mbind option_bind]. case_match; [done|]. case_match; [|done].
  destruct (persist_saves env (resetElectionTimeout env (set_votedFor rf (CandidateId args))) Hw) as [rf' Hp].
  unfold grantVote. by rewrite Hp.
Qed.

Lemma RequestVote_total env args rf : saves env -> log rf <> [] -> is_Some (RequestVote env args rf).
Proof.
  intros Hw Hl. unfold RequestVote. case_match; [done|]. case_match; [|by apply decideVote_total].
  destruct (persist_saves env (adoptTerm rf (rv_Term args)) Hw) as [rf1 Hp]. rewrite Hp. apply decideVote_total; [done|].
  by destruct (step_down_view _ _ _ _ Hp) as (_ & _ & -> & _).
Qed.

(** ** Elections *)

Lemma reset_view env (rf : Raft) :
  pst (resetElectionTimeout env rf) = pst rf /\ persister (resetElectionTimeout env rf) = persister rf /\
  peers (resetElectionTimeout env rf) = peers rf /\ me (resetElectionTimeout env rf) = me rf /\
  state (resetElectionTimeout env rf) = state rf /\ indices (resetElectionTimeout env rf) = indices rf /\
  votecount (resetElectionTimeout env rf) = votecount rf.
Proof. done. Qed.

(** The new candidate, before it persists. *)
Lemma becomeCandidate_view env (rf : Raft) :
  pst (becomeCandidate env rf) = (currentTerm rf + 1, me rf, log rf) /\
  persister (becomeCandidate env rf) = persister rf /\ peers (becomeCandidate env rf) = peers rf /\
  me (becomeCandidate env rf) = me rf /\ state (becomeCandidate env rf) = StateCandidate /\
  indices (becomeCandidate env rf) = indices rf.
Proof. done. Qed.

(** What an election does to the node that starts it. *)
Record election_step (args : RequestVoteArgs) (rf rf' : Raft) : Prop := {
  es_evolves : evolves rf rf' [(currentTerm rf + 1, me rf, log rf)];
  es_pst : pst rf' = (currentTerm rf + 1, me rf, log rf);
  es_state : state rf' = StateCandidate;
  es_indices : indices rf' = indices rf;
  es_count : votecount rf' = 1;
  es_args : rv_Term args = currentTerm rf + 1 /\ CandidateId args = me rf /\
    LastLogIndex args = zlen (log rf) - 1 /\
    exists e, last (log rf) = Some e /\ LastLogTerm args = Term e
}.

Lemma startElection_spec env rf args rf' :
  startElection env rf = Some (args, rf') -> election_step args rf rf'.
Proof.
  destruct (becomeCandidate_view env rf) as (Hp & Hps & Hpe & Hm & Hs & Hi).
  unfold startElection. intros (rf1 & Hper & He)%bind_Some. revert He.
  pose proof (evolves_persist env rf (becomeCandidate env rf) rf1 Hper) as Hev. rewrite Hp in Hev.
  specialize (Hev ltac:(left; unfold p_term; simpl; lia) (f_equal file Hps) Hpe Hm).
  destruct (persist_view _ _ _ Hper) as (P1 & P2 & P3 & P4 & P5 & _).
  assert (currentTerm (becomeCandidate env rf) = currentTerm rf + 1) as Ht by apply (f_equal p_term Hp).
  assert (votedFor (becomeCandidate env rf) = me rf) as Hv by apply (f_equal p_voted Hp).
  assert (log (becomeCandidate env rf) = log rf) as Hl by apply (f_equal p_log Hp).
  rewrite Ht in P1. rewrite Hv in P2. rewrite Hl in P3. rewrite Hs in P4. rewrite Hi in P5.
  pose proof (ev_me _ _ _ Hev) as Hme. clear Hper Hp Hps Hpe Hm Hs Hi Ht Hv Hl. unfold voteArgs.
  destruct (znth _ _) as [e|] eqn:He; [|done]. cbn [mbind option_bind]. intros [= <- <-].
  apply znth_last_last in He. rewrite P3 in He.
  assert (Hpst : pst rf1 = (currentTerm rf + 1, me rf, log rf)) by (unfold pst; by rewrite P1, P2, P3).
  split; [by destruct Hev|exact Hpst|done|done|done|].
  cbn [rv_Term CandidateId LastLogIndex LastLogTerm]. rewrite P3. split_and!; [done|done|done|eauto].
Qed.

Lemma election_reset env args rf rf' :
  election_step args rf rf' -> election_step args rf (resetElectionTimeout env rf').
Proof. intros [[] ? ? ? ? ?]. by split. Qed.

Lemma ticker_turn_spec env rf args rf' :
  ticker_turn env rf = Some (args, rf') ->
  match args with Some args => election_step args rf rf' | None => rf' = rf end.
Proof.
  unfold ticker_turn. case_match; [|by intros [= <- <-]]. case_match; [|by intros [= <- <-]].
  destruct (startElection env rf) as [[a rf1]|] eqn:He; [|done]. cbn [mbind option_bind].
  intros [= <- <-]. apply election_reset. by eapply startElection_spec.
Qed.

Lemma DebugForceElection_spec env rf args rf' :
  DebugForceElection env rf = Some (args, rf') -> election_step args rf rf'.
Proof.
  unfold DebugForceElection. destruct (startElection env rf) as [[a rf1]|] eqn:He; [|done].
  cbn [mbind option_bind]. intros [= <- <-]. apply election_reset. by eapply startElection_spec.
Qed.

(** *** Counting votes *)

Lemma set_all_spec n l x :
  (n <= length l)%nat -> exists l', set_all n l x = Some l' /\ length l' = length l /\
    (forall i, (i < n)%nat -> l' !! i = Some x) /\ (forall i, (n <= i)%nat -> l' !! i = l !! i).
Proof.
  induction n as [|n IH]; intros Hn; [exists l; split_and!; [done|done|lia|done]|].
  destruct IH as (l' & Hl & Hlen & Hlo & Hhi); [lia|]. cbn [set_all]. rewrite Hl. cbn [mbind option_bind].
  rewrite zupdate_Some by (unfold zlen; lia). rewrite Nat2Z.id.
  eexists. split_and!; [done|by rewrite length_insert| |].
  - intros i Hi. destruct (decide (i = n)) as [->|]; [apply list_lookup_insert_eq; lia|].
    rewrite list_lookup_insert_ne by done. apply Hlo. lia.
  - intros i Hi. rewrite list_lookup_insert_ne by lia. apply Hhi. lia.
Qed.

(** The three outcomes of a vote reply. *)
Inductive vote_reply_step (args : RequestVoteArgs) (reply : RequestVoteReply) (rf rf' : Raft) : Prop :=
  | VRIgnore (Hrf : rf' = rf)
  | VRStepDown ws (Hev : evolves rf rf' ws) (Hlt : currentTerm rf < currentTerm rf')
      (Hlog : log rf' = log rf) (Hst : state rf' = StateFollower) (Hi : indices rf' = indices rf)
      (Hnv : votedFor rf' = -1)
  | VRCount (Hst : state rf = StateCandidate) (Hterm : currentTerm rf = rv_Term args)
      (Hgr : VoteGranted reply = true) (Hpst : pst rf' = pst rf) (Hps : persister rf' = persister rf)
      (Hpe : peers rf' = peers rf) (Hme : me rf' = me rf)
      (Hcount : votecount rf' = votecount rf + 1)
      (Hcase : (state rf' = StateCandidate /\ indices rf' = indices rf) \/
               (state rf' = StateLeader /\ peers rf / 2 < votecount rf' /\
                commitIndex rf' = commitIndex rf /\ lastApplied rf' = lastApplied rf /\
                matchIndex rf' = matchIndex rf /\ length (nextIndex rf') = length (nextIndex rf) /\
                Forall (fun i => i = zlen (log rf)) (nextIndex rf'))).

Lemma handleVoteReply_spec n env args reply rf rf' b :
  node_ok n rf -> handleVoteReply env args reply rf = Some (rf', b) ->
  vote_reply_step args reply rf rf'.
Proof.
  intros Hok. unfold handleVoteReply. destruct (_ || _) eqn:Hg.
  { intros [= <- <-]. by constructor 1. }
  apply orb_false_iff in Hg as [Hst Ht]. apply negb_false_iff, bool_decide_eq_true in Hst.
  apply negb_false_iff, Z.eqb_eq in Ht.
  destruct (currentTerm rf <? rvr_Term reply) eqn:Hlt; bool_to_prop.
  { intros (rf1 & Hper & [= <- <-])%bind_Some. destruct (step_down_view env rf rf1 (rvr_Term reply) Hper) as (P1 & P2 & P3 & P4 & P5 & P6).
    eapply VRStepDown; [by eapply step_down_evolves|by rewrite P1|done|done|done|done]. }
  destruct (VoteGranted reply) eqn:Hgr; [|intros [= <- <-]; by constructor 1].
  unfold countVote. cbn [peers votecount state set_votecount].
  destruct (peers rf / 2 <? votecount rf + 1) eqn:Hq; bool_to_prop.
  2:{ intros [= <- <-]. apply VRCount; try done. by left. }
  rewrite bool_decide_eq_true_2 by done. unfold becomeLeader.
  cbn [peers nextIndex log set_votecount]. rewrite (ok_peers _ _ Hok), Nat2Z.id.
  destruct (set_all_spec n (nextIndex rf) (zlen (log rf))) as (l' & -> & Hlen & Hlo & _).
  { rewrite (ok_next _ _ Hok). lia. }
  cbn [mbind option_bind]. intros [= <- <-]. apply VRCount; try done. right.
  split_and!; try done. apply Forall_lookup_2. intros i x Hx.
  pose proof (lookup_lt_Some _ _ _ Hx) as Hi. cbn [nextIndex set_nextIndex] in *.
  rewrite Hlen, (ok_next _ _ Hok) in Hi. rewrite Hlo in Hx by done. congruence.
Qed.

Lemma handleVoteReply_total n env args reply rf :
  saves env -> node_ok n rf -> is_Some (handleVoteReply env args reply rf).
Proof.
  intros Hw Hok. unfold handleVoteReply. case_match; [done|]. case_match.
  { destruct (persist_saves env (adoptTerm rf (rvr_Term reply)) Hw) as [rf1 Hp]. rewrite Hp. done. }
  destruct (VoteGranted reply); [|done]. unfold countVote. case_match; [|done].
  case_match; [|done]. unfold becomeLeader. cbn [peers nextIndex log set_votecount].
  rewrite (ok_peers _ _ Hok), Nat2Z.id.
  destruct (set_all_spec n (nextIndex rf) (zlen (log rf))) as (l' & -> & _); [|done].
  rewrite (ok_next _ _ Hok). lia.
Qed.

(** ** Logs *)

(** The entry at [i] of a log determines the log up to [i], through the log that
    the leader of the entry's term has built. *)
Definition agrees (Lg : Z -> list LogEntry) (l : list LogEntry) : Prop :=
  forall i e, l !! i = Some e -> take (S i) l = take (S i) (Lg (Term e)).

Lemma agrees_prefix Lg (r s : list LogEntry) i e e' :
  agrees Lg r -> agrees Lg s -> r !! i = Some e -> s !! i = Some e' -> Term e = Term e' ->
  take (S i) r = take (S i) s.
Proof. intros Hr Hs He He' Ht. by rewrite (Hr i e He), (Hs i e' He'), Ht. Qed.

(** Merging the rest of an agreeing log: the receiver already has it all, or ends
    with the sender's log. *)
Lemma append_loop_agrees Lg (r s : list LogEntry) i :
  agrees Lg r -> agrees Lg s -> (i <= length s)%nat -> (i <= length r)%nat -> take i r = take i s ->
  exists r' ch, append_loop r (Z.of_nat i) (drop i s) = Some (r', ch) /\
    ((ch = false /\ r' = r /\ take (length s) r = s) \/ (ch = true /\ r' = s)).
Proof.
  intros Hr Hs. remember (length s - i)%nat as k eqn:Hk. revert i Hk.
  induction k as [|k IH]; intros i Hk Hls Hlr Htake.
  { rewrite drop_ge by lia. exists r, false. split; [done|]. left. split_and!; [done|done|].
    replace (length s) with i by lia. rewrite Htake. apply take_ge. lia. }
  destruct (lookup_lt_is_Some_2 s i) as [e He]; [lia|]. rewrite (drop_S _ _ _ He). cbn [append_loop].
  destruct (zlen r <=? Z.of_nat i) eqn:Hlen; bool_to_prop; cbn [mbind option_bind].
  - rewrite zslice_to_Some by (unfold zlen in *; lia). cbn [mbind option_bind]. rewrite Nat2Z.id.
    eexists _, true. split; [done|]. right. split; [done|].
    rewrite Htake, <- (drop_S _ _ _ He). apply take_drop.
  - destruct (lookup_lt_is_Some_2 r i) as [e' He']; [unfold zlen in Hlen; lia|].
    rewrite znth_of_nat, He'. cbn [mbind option_bind].
    destruct (Term e' =? Term e) eqn:Ht; bool_to_prop; cbn [negb].
    + replace (Z.of_nat i + 1) with (Z.of_nat (S i)) by lia. apply IH; [lia|lia| |].
      * apply lookup_lt_Some in He'. lia.
      * by apply (agrees_prefix Lg r s i e' e).
    + rewrite zslice_to_Some by (unfold zlen; lia). cbn [mbind option_bind]. rewrite Nat2Z.id.
      eexists _, true. split; [done|]. right. split; [done|].
      rewrite Htake, <- (drop_S _ _ _ He). apply take_drop.
Qed.

(** The loop in general: never a panic, nothing below the first index changes,
    and every new entry is in its place up to its command. *)
Lemma append_loop_spec (r new : list LogEntry) i :
  (i <= length r)%nat ->
  exists r' ch, append_loop r (Z.of_nat i) new = Some (r', ch) /\
    take i r' = take i r /\ (i + length new <= length r')%nat /\
    (forall j e, new !! j = Some e -> exists e', r' !! (i + j)%nat = Some e' /\ Term e' = Term e) /\
    (ch = false -> r' = r) /\ (forall e, e ∈ r' -> e ∈ r \/ e ∈ new).
Proof.
  revert i. induction new as [|e new IH]; intros i Hi.
  { exists r, false. split_and!; try done; simpl; [lia|auto]. }
  cbn [append_loop].
  assert (Hcut : exists r' ch, (kept ← zslice_to r (Z.of_nat i); Some (kept ++ e :: new, true)) = Some (r', ch) /\
    take i r' = take i r /\ (i + length (e :: new) <= length r')%nat /\
    (forall j e0, (e :: new) !! j = Some e0 -> exists e', r' !! (i + j)%nat = Some e' /\ Term e' = Term e0) /\
    (ch = false -> r' = r) /\ (forall e0, e0 ∈ r' -> e0 ∈ r \/ e0 ∈ e :: new)).
  { rewrite zslice_to_Some by (unfold zlen; lia). cbn [mbind option_bind]. rewrite Nat2Z.id.
    assert (Hl : length (take i r) = i) by (rewrite length_take; lia).
    eexists _, true. split; [done|]. split_and!; [|rewrite length_app; lia| |done|].
    - by apply take_app_length'.
    - intros j e0 Hj. exists e0. split; [|done]. rewrite lookup_app_r by lia. by replace (i + j - length (take i r))%nat with j by lia.
    - intros e0 [Hin|Hin]%elem_of_app; [left|by right]. by apply (subseteq_take i r). }
  destruct (zlen r <=? Z.of_nat i) eqn:Hlen; bool_to_prop; cbn [mbind option_bind]; [exact Hcut|].
  destruct (lookup_lt_is_Some_2 r i) as [e' He']; [unfold zlen in Hlen; lia|].
  rewrite znth_of_nat, He'. cbn [mbind option_bind].
  destruct (Term e' =? Term e) eqn:Ht; bool_to_prop; cbn [negb]; [|exact Hcut].
  replace (Z.of_nat i + 1) with (Z.of_nat (S i)) by lia.
  destruct (IH (S i)) as (r' & ch & -> & Htake & Hlen' & Hnew & Hch & Hel).
  { apply lookup_lt_Some in He'. lia. }
  exists r', ch. split; [done|]. split_and!.
  - apply (f_equal (take i)) in Htake. rewrite !take_take in Htake. by replace (i `min` S i)%nat with i in Htake by lia.
  - simpl. lia.
  - intros [|j] e0 Hj.
    + injection Hj as <-. rewrite Nat.add_0_r.
      assert (Hri : r' !! i = r !! i).
      { rewrite <- (lookup_take_lt r' (S i)), <- (lookup_take_lt r (S i)) by lia. by rewrite Htake. }
      exists e'. split; [by rewrite Hri|done].
    + destruct (Hnew j e0 Hj) as (e1 & He1 & Ht1). exists e1. split; [|done].
      by replace (i + S j)%nat with (S i + j)%nat by lia.
  - done.
  - intros e0 He0. destruct (Hel e0 He0); [by left|right; by right].
Qed.

Lemma back_XIndex_spec (entries : list LogEntry) xterm fuel xindex :
  0 <= xindex <= zlen entries ->
  exists x, back_XIndex entries xterm fuel xindex = Some x /\ 0 <= x <= xindex.
Proof.
  revert xindex. induction fuel as [|fuel IH]; intros xindex Hx; [exists xindex; split; [done|lia]|].
  cbn [back_XIndex]. destruct (0 <? xindex) eqn:Hpos; bool_to_prop; [|exists xindex; split; [done|lia]].
  destruct (znth_is_Some entries (xindex - 1)) as [e ->]; [lia|]. cbn [mbind option_bind].
  destruct (Term e =? xterm); [|exists xindex; split; [done|lia]].
  destruct (IH (xindex - 1)) as (x & Hx' & ?); [lia|]. exists x. split; [done|lia].
Qed.

(** ** Replication, the receiver *)

Lemma followLeader_view env args rf :
  currentTerm rf <= ae_Term args ->
  currentTerm (followLeader env args rf) = ae_Term args /\
  votedFor (followLeader env args rf) = (if currentTerm rf <? ae_Term args then -1 else votedFor rf) /\
  log (followLeader env args rf) = log rf /\ persister (followLeader env args rf) = persister rf /\
  peers (followLeader env args rf) = peers rf /\ me (followLeader env args rf) = me rf /\
  state (followLeader env args rf) = StateFollower /\
  indices (followLeader env args rf) = indices rf /\ votecount (followLeader env args rf) = votecount rf.
Proof.
  intros Hle. unfold followLeader. destruct (currentTerm rf <? ae_Term args) eqn:Hlt; bool_to_prop.
  - destruct (adoptTerm_spec rf (ae_Term args)) as (Hp & _ & Hi & Hc & Hpe & Hm & Hps).
    split_and!; try done; try exact Hi; try exact Hc; try exact Hpe; try exact Hm; try exact Hps.
    + apply (f_equal p_term Hp).
    + apply (f_equal p_log Hp).
  - split_and!; try done. simpl. lia.
Qed.

(** The end of the handler: what changed since [rf0] reaches the disk. *)
Lemma finishAppend_spec env reply needPersist rf0 rf :
  saves env -> (needPersist = true -> ple (pst rf0) (pst rf)) -> (needPersist = false -> pst rf = pst rf0) ->
  file (persister rf) = file (persister rf0) -> peers rf = peers rf0 -> me rf = me rf0 ->
  exists ws rf', finishAppend env reply needPersist rf = Some (reply, rf') /\ evolves rf0 rf' ws /\
    pst rf' = pst rf /\ state rf' = state rf /\ indices rf' = indices rf /\ votecount rf' = votecount rf.
Proof.
  intros Hsv Hw Hq Hf Hp Hm. unfold finishAppend.
  set (rf1 := if negb (Success reply) then _ else rf).
  assert (pst rf1 = pst rf /\ state rf1 = state rf /\ indices rf1 = indices rf /\ votecount rf1 = votecount rf /\
    persister rf1 = persister rf /\ peers rf1 = peers rf /\ me rf1 = me rf) as (H1 & H2 & H3 & H4 & H5 & H6 & H7)
    by (unfold rf1; by destruct (negb (Success reply))).
  clearbody rf1. destruct needPersist.
  - destruct (persist_saves env rf1 Hsv) as [rf' Hper]. rewrite Hper. eexists _, rf'. split; [done|].
    destruct (persist_view env rf1 rf' Hper) as (P1 & P2 & P3 & P4 & P5 & P6).
    split_and!; [|unfold pst; rewrite P1, P2, P3; exact H1|congruence..].
    eapply evolves_persist; [exact Hper|rewrite H1; by apply Hw|congruence..].
  - eexists _, _. split; [done|]. split_and!; [|done..]. apply evolves_quiet; [rewrite H1; by apply Hq|congruence..].
Qed.

(** The three outcomes of [AppendEntries]. *)
Inductive append_step (args : AppendEntriesArgs Cmd) (reply : AppendEntriesReply) (rf rf' : Raft) : Prop :=
  | ASStale (Hlt : ae_Term args < currentTerm rf) (Hpst : pst rf' = pst rf)
      (Hst : state rf' = state rf) (Hs : Success reply = false) (Ht : aer_Term reply = currentTerm rf)
      (Hi : indices rf' = indices rf)
  | ASReject (Hle : currentTerm rf <= ae_Term args) (Ht : currentTerm rf' = ae_Term args)
      (Hlog : log rf' = log rf) (Hst : state rf' = StateFollower) (Hs : Success reply = false)
      (Hrt : aer_Term reply = ae_Term args) (Hi : indices rf' = indices rf)
      (Hx : XTerm reply = -1 /\ XIndex reply = -1 /\ XLen reply = zlen (log rf) /\ zlen (log rf) <= PrevLogIndex args \/
            XLen reply = 0 /\ 0 <= XIndex reply <= PrevLogIndex args /\ XTerm reply <> -1 /\ PrevLogIndex args < zlen (log rf) /\
            exists e, znth (log rf) (PrevLogIndex args) = Some e /\ Term e = XTerm reply /\ Term e <> PrevLogTerm args)
      (Hnv : no_vote rf rf')
  | ASAccept e changed (Hle : currentTerm rf <= ae_Term args) (Ht : currentTerm rf' = ae_Term args)
      (Hst : state rf' = StateFollower) (Hs : Success reply = true) (Hrt : aer_Term reply = ae_Term args)
      (Hprev : znth (log rf) (PrevLogIndex args) = Some e) (Hterm : Term e = PrevLogTerm args)
      (Hloop : append_loop (log rf) (PrevLogIndex args + 1) (Entries args) = Some (log rf', changed))
      (Hcommit : commitIndex rf' = if commitIndex rf <? LeaderCommit args
        then Z.min (LeaderCommit args) (PrevLogIndex args + zlen (Entries args)) else commitIndex rf)
      (Hi : lastApplied rf' = lastApplied rf /\ nextIndex rf' = nextIndex rf /\ matchIndex rf' = matchIndex rf)
      (Hnv : no_vote rf rf').

Lemma followCommit_view args (rf : Raft) :
  pst (followCommit args rf) = pst rf /\ state (followCommit args rf) = state rf /\
  persister (followCommit args rf) = persister rf /\
  peers (followCommit args rf) = peers rf /\ me (followCommit args rf) = me rf /\
  commitIndex (followCommit args rf) = (if commitIndex rf <? LeaderCommit args
    then Z.min (LeaderCommit args) (PrevLogIndex args + zlen (Entries args)) else commitIndex rf) /\
  lastApplied (followCommit args rf) = lastApplied rf /\
  nextIndex (followCommit args rf) = nextIndex rf /\ matchIndex (followCommit args rf) = matchIndex rf /\
  votecount (followCommit args rf) = votecount rf.
Proof. unfold followCommit. by case_match. Qed.

Lemma AppendEntries_spec env args rf :
  saves env -> 0 <= PrevLogIndex args -> Forall (fun e => 0 <= Term e) (log rf) ->
  exists reply rf' ws, AppendEntries env args rf = Some (reply, rf') /\
    append_step args reply rf rf' /\ evolves rf rf' ws /\ votecount rf' = votecount rf.
Proof.
  intros Hsv Hprev Hpos. unfold AppendEntries. destruct (ae_Term args <? currentTerm rf) eqn:Hold; bool_to_prop.
  { set (reply := mkAEReply _ _ _ _ _).
    destruct (finishAppend_spec env reply false rf rf) as (ws & rf' & -> & Hev & Hp & Hs & Hi & Hc); try done.
    exists reply, rf', ws. split_and!; [done|by constructor 1|done|done]. }
  destruct (followLeader_view env args rf Hold) as (F1 & F2 & F3 & F4 & F5 & F6 & F7 & F8 & F9).
  assert (Hple : ple (pst rf) (pst (followLeader env args rf)) /\
    ((currentTerm rf <? ae_Term args) = false -> pst (followLeader env args rf) = pst rf)).
  { unfold pst. rewrite F1, F2, F3. destruct (currentTerm rf <? ae_Term args) eqn:Hlt; bool_to_prop.
    - split; [left; done|done].
    - assert (ae_Term args = currentTerm rf) as -> by lia. split; [right; split; [done|by right]|done]. }
  destruct Hple as [Hple Hsame].
  assert (Hnv : forall rf', currentTerm rf' = ae_Term args -> votedFor rf' = votedFor (followLeader env args rf) -> no_vote rf rf').
  { intros rf' Ht' Hv'. unfold no_vote. rewrite Ht', Hv', F2.
    destruct (currentTerm rf <? ae_Term args) eqn:Hlt; bool_to_prop; [by right|left; split; [lia|done]]. }
  generalize dependent (followLeader env args rf). intros rf1 F1 F2 F3 F4 F5 F6 F7 F8 F9 Hple Hsame Hnv.
  set (np := currentTerm rf <? ae_Term args) in *. unfold matchEntries. rewrite F1.
  destruct (zlen (log rf1) - 1 <? PrevLogIndex args) eqn:Hlen; bool_to_prop.
  { set (reply := mkAEReply _ _ _ _ _).
    destruct (finishAppend_spec env reply np rf rf1) as (ws & rf' & -> & Hev & Hp & Hs & Hi & Hc); try done; [congruence|].
    exists reply, rf', ws. split_and!; [done| |done|congruence].
    assert (log rf' = log rf1) as Hl by apply (f_equal p_log Hp).
    assert (currentTerm rf' = currentTerm rf1) as Hct by apply (f_equal p_term Hp).
    assert (votedFor rf' = votedFor rf1) as Hvf by apply (f_equal p_voted Hp).
    constructor 2; try congruence; try done; [|apply Hnv; congruence]. left. cbn [XTerm XIndex XLen reply]. rewrite F3 in *. split_and!; [done|done|done|lia]. }
  destruct (znth_is_Some (log rf1) (PrevLogIndex args)) as [e He]; [lia|]. rewrite He. cbn [mbind option_bind].
  destruct (Term e =? PrevLogTerm args) eqn:Hterm; bool_to_prop; cbn [negb].
  - destruct (append_loop_spec (log rf1) (Entries args) (S (Z.to_nat (PrevLogIndex args)))) as (l & ch & Hl & _ & _ & _ & Hch & _).
    { unfold zlen in Hlen. lia. }
    replace (Z.of_nat (S (Z.to_nat (PrevLogIndex args)))) with (PrevLogIndex args + 1) in Hl by lia.
    rewrite Hl. cbn [mbind option_bind fst snd].
    set (reply := mkAEReply _ _ _ _ _).
    destruct (followCommit_view args (set_log rf1 l)) as (C1 & C2 & C3 & C4 & C5 & C6 & C7 & C8 & C9 & C10).
    generalize dependent (followCommit args (set_log rf1 l)). intros rf2 C1 C2 C3 C4 C5 C6 C7 C8 C9 C10.
    assert (Hpst2 : pst rf2 = (currentTerm rf1, votedFor rf1, l)) by exact C1.
    destruct (finishAppend_spec env reply (np || ch) rf rf2) as (ws & rf' & -> & Hev & Hp & Hs & Hi & Hc).
    + done.
    + intros _. rewrite Hpst2. destruct Hple as [Hlt|[Ht Hv]]; [by left|right]. by split.
    + intros [Hn ->]%orb_false_iff. rewrite Hpst2, (Hch eq_refl). by apply Hsame.
    + rewrite C3. cbn [persister set_log]. congruence.
    + rewrite C4. exact F5.
    + rewrite C5. exact F6.
    + exists reply, rf', ws. split_and!; [done| |done|].
      * rewrite Hpst2 in Hp. unfold indices in Hi, F8. injection Hi as I1 I2 I3 I4. injection F8 as G1 G2 G3 G4.
        assert (log rf' = l) as Hl' by apply (f_equal p_log Hp).
        assert (currentTerm rf' = currentTerm rf1) as Hct by apply (f_equal p_term Hp).
        assert (votedFor rf' = votedFor rf1) as Hvf by apply (f_equal p_voted Hp).
        eapply ASAccept; [done|congruence| |done|cbn; congruence|by rewrite <- F3|done|by rewrite <- F3, Hl'| | |apply Hnv; congruence].
        -- rewrite Hs, C2. exact F7.
        -- rewrite I1, C6. cbn [commitIndex set_log]. by rewrite G1.
        -- rewrite I2, I3, I4, C7, C8, C9. cbn [lastApplied nextIndex matchIndex set_log]. by rewrite G2, G3, G4.
      * rewrite Hc, C10. exact F9.
  - destruct (back_XIndex_spec (log rf1) (Term e) (Z.to_nat (PrevLogIndex args)) (PrevLogIndex args)) as (x & Hx & Hxr); [lia|].
    rewrite Hx. cbn [mbind option_bind]. set (reply := mkAEReply _ _ _ _ _).
    destruct (finishAppend_spec env reply np rf rf1) as (ws & rf' & -> & Hev & Hp & Hs & Hi & Hc); try done; [congruence|].
    exists reply, rf', ws. split_and!; [done| |done|congruence].
    assert (log rf' = log rf1) as Hl by apply (f_equal p_log Hp).
    assert (currentTerm rf' = currentTerm rf1) as Hct by apply (f_equal p_term Hp).
    assert (votedFor rf' = votedFor rf1) as Hvf by apply (f_equal p_voted Hp).
    constructor 2; try congruence; try done; [|apply Hnv; congruence]. right. cbn [XTerm XIndex XLen reply]. rewrite F3 in *. split_and!; [done|lia|lia| |lia|by exists e].
    apply znth_Some in He as [_ He]. rewrite Forall_forall in Hpos. specialize (Hpos e (list_elem_of_lookup_2 _ _ _ He)).
    simpl in Hpos. lia.
Qed.

Lemma AppendEntries_steady env args rf r :
  AppendEntries env args rf = Some r -> AppendEntries (steady env) args rf = Some r.
Proof.
  assert (Hfin : forall reply np rf0, finishAppend env reply np rf0 = Some r -> finishAppend (steady env) reply np rf0 = Some r).
  { intros reply np rf0. unfold finishAppend. intros (rf1 & Hp & Hr)%bind_Some. apply bind_Some. exists rf1. split; [|exact Hr].
    destruct np; [by apply persist_steady|exact Hp]. }
  unfold AppendEntries. case_match; [apply Hfin|]. change (followLeader (steady env) args rf) with (followLeader env args rf).
  unfold matchEntries. case_match; [apply Hfin|]. destruct (znth _ _) as [e|]; [|done]. cbn [mbind option_bind].
  case_match.
  - destruct (back_XIndex _ _ _ _); [apply Hfin|done].
  - destruct (append_loop _ _ _); [apply Hfin|done].
Qed.

(** A handler that answers. *)
Lemma AppendEntries_inv env args rf reply rf' :
  0 <= PrevLogIndex args -> Forall (fun e => 0 <= Term e) (log rf) ->
  AppendEntries env args rf = Some (reply, rf') ->
  exists ws, append_step args reply rf rf' /\ evolves rf rf' ws /\ votecount rf' = votecount rf.
Proof.
  intros Hprev Hpos Ha%AppendEntries_steady.
  destruct (AppendEntries_spec (steady env) args rf (saves_steady env) Hprev Hpos) as (r & rf1 & ws & Ha' & Hs).
  rewrite Ha in Ha'. injection Ha' as <- <-. by exists ws.
Qed.

(** ** Replication, the leader *)

Lemma buildAppendEntries_spec n rf peer :
  node_ok n rf -> state rf = StateLeader -> (peer < n)%nat ->
  exists next e, nextIndex rf !! peer = Some next /\ 1 <= next <= zlen (log rf) /\
    znth (log rf) (next - 1) = Some e /\
    buildAppendEntries (Z.of_nat peer) rf =
      Some (Some (mkAEArgs (currentTerm rf) (me rf) (next - 1) (Term e)
                    (drop (Z.to_nat next) (log rf)) (commitIndex rf))).
Proof.
  intros Hok Hst Hpeer. pose proof (ok_leader _ _ Hok Hst) as Hnext.
  destruct (lookup_lt_is_Some_2 (nextIndex rf) peer) as [next Hn]; [by rewrite (ok_next _ _ Hok)|].
  rewrite Forall_forall in Hnext. pose proof (Hnext next (list_elem_of_lookup_2 _ _ _ Hn)) as Hr.
  destruct (znth_is_Some (log rf) (next - 1)) as [e He]; [lia|].
  exists next, e. split_and!; [done|lia|lia|done|].
  unfold buildAppendEntries. rewrite bool_decide_eq_true_2 by done. cbn [negb].
  rewrite znth_of_nat, Hn. cbn [mbind option_bind].
  rewrite zslice_from_Some by lia. cbn [mbind option_bind]. rewrite He. cbn [mbind option_bind].
  rewrite take_ge; [done|]. rewrite length_drop. unfold zlen. lia.
Qed.

(** Whether a node, other than the leader, is known to store entry [N]. *)
Definition acked (rf : Raft) (N : Z) (j : nat) : bool :=
  negb (Z.of_nat j =? me rf) && match matchIndex rf !! j with Some m => N <=? m | None => false end.

(** The number of such nodes among the first [k]. *)
Definition acks (rf : Raft) (N : Z) (k : nat) : nat :=
  length (filter (fun j => acked rf N j = true) (seq 0 k)).

Lemma acks_S rf N k : acks rf N (S k) = (acks rf N k + if acked rf N k then 1 else 0)%nat.
Proof.
  unfold acks. rewrite seq_S, filter_app, length_app. simpl. f_equal.
  rewrite filter_cons, filter_nil. by destruct (acked rf N k).
Qed.

Lemma count_match_spec (rf : Raft) N k e :
  (k <= length (matchIndex rf))%nat -> znth (log rf) N = Some e ->
  count_match rf N k = Some (1 + if Term e =? currentTerm rf then Z.of_nat (acks rf N k) else 0).
Proof.
  intros Hk He. induction k as [|k IH].
  { simpl. unfold acks. simpl. by destruct (Term e =? currentTerm rf). }
  cbn [count_match]. rewrite IH by lia. cbn [mbind option_bind]. rewrite acks_S. unfold acked.
  destruct (Z.of_nat k =? me rf); cbn [negb andb]; [by rewrite Nat.add_0_r|].
  destruct (lookup_lt_is_Some_2 (matchIndex rf) k) as [m Hm]; [lia|].
  rewrite znth_of_nat, Hm. cbn [mbind option_bind].
  destruct (N <=? m); cbn [negb andb]; [|by rewrite Nat.add_0_r].
  rewrite He. cbn [mbind option_bind]. f_equal. destruct (Term e =? currentTerm rf); lia.
Qed.

(** An index that the leader may commit: an entry of its term that a majority,
    the leader included, is known to store. *)
Definition committable (n : nat) (rf : Raft) (N : Z) : Prop :=
  exists e, znth (log rf) N = Some e /\ Term e = currentTerm rf /\
    Z.of_nat n / 2 < 1 + Z.of_nat (acks rf N n).

(** The commit index moves to the largest committable index, if there is one
    above it. *)
Lemma commit_loop_spec n (rf : Raft) fuel N :
  (2 <= n)%nat -> peers rf = Z.of_nat n -> length (matchIndex rf) = n ->
  0 <= commitIndex rf -> N < zlen (log rf) -> N - commitIndex rf <= Z.of_nat fuel ->
  (commit_loop rf fuel N = Some rf /\ forall M, commitIndex rf < M <= N -> ~ committable n rf M) \/
  (exists M, commitIndex rf < M <= N /\ committable n rf M /\
     (forall M', M < M' <= N -> ~ committable n rf M') /\
     commit_loop rf fuel N = Some (set_commitIndex rf M)).
Proof.
  intros Hn Hp Hm Hc. revert N. induction fuel as [|fuel IH]; intros N HN Hf.
  { left. split; [done|lia]. }
  cbn [commit_loop]. destruct (commitIndex rf <? N) eqn:Hlt; bool_to_prop; [|left; split; [done|lia]].
  destruct (znth_is_Some (log rf) N) as [e He]; [lia|].
  rewrite Hp, Nat2Z.id, (count_match_spec rf N n e) by (done || lia). cbn [mbind option_bind].
  assert (Hhalf : 1 <= Z.of_nat n / 2) by (apply Z.div_le_lower_bound; lia).
  destruct (Z.of_nat n / 2 <? _) eqn:Hq; bool_to_prop.
  - right. exists N. split_and!; [lia|lia| |lia|done]. exists e. split; [done|].
    destruct (Term e =? currentTerm rf) eqn:Ht; bool_to_prop; [|lia]. by split.
  - assert (Hnot : ~ committable n rf N).
    { intros (e' & He' & Ht & Hmaj). rewrite He in He'. injection He' as <-. rewrite Ht, Z.eqb_refl in Hq. lia. }
    destruct (IH (N - 1)) as [[-> Hall]|(M & HM & Hcm & Hup & ->)]; [lia|lia| |].
    + left. split; [done|]. intros M HM. destruct (decide (M = N)) as [->|]; [done|]. apply Hall. lia.
    + right. exists M. split_and!; [lia|lia|done| |done].
      intros M' HM'. destruct (decide (M' = N)) as [->|]; [done|]. apply Hup. lia.
Qed.

Lemma last_with_term_spec (entries : list LogEntry) xterm fuel i :
  i < zlen entries -> exists r, last_with_term entries xterm fuel i = Some r /\ -1 <= r /\ (r = -1 \/ 0 < r <= i).
Proof.
  revert i. induction fuel as [|fuel IH]; intros i Hi; [exists (-1); split_and!; [done|lia|by left]|].
  cbn [last_with_term]. destruct (0 <? i) eqn:Hpos; bool_to_prop; [|exists (-1); split_and!; [done|lia|by left]].
  destruct (znth_is_Some entries i) as [e ->]; [lia|]. cbn [mbind option_bind].
  destruct (Term e =? xterm); [exists i; split_and!; [done|lia|right; lia]|].
  destruct (IH (i - 1)) as (r & -> & ? & ?); [lia|]. exists r. split_and!; [done|lia|lia].
Qed.

Lemma backNext_spec reply (rf : Raft) :
  XIndex reply <= zlen (log rf) -> XLen reply <= zlen (log rf) ->
  exists next, backNext reply rf = Some next /\ next <= zlen (log rf).
Proof.
  intros Hx Hl. unfold backNext. destruct (XTerm reply =? -1); cbn [negb]; [eauto|].
  destruct (last_with_term_spec (log rf) (XTerm reply) (length (log rf)) (zlen (log rf) - 1)) as (r & -> & Hr1 & Hr2); [lia|].
  cbn [mbind option_bind]. eexists. split; [done|]. case_match; [|done]. bool_to_prop. lia.
Qed.

(** A reply of a peer fits the leader's log. *)
Definition reply_fits (args : AppendEntriesArgs Cmd) (reply : AppendEntriesReply) (l : list LogEntry) : Prop :=
  if Success reply then PrevLogIndex args + zlen (Entries args) < zlen l
  else aer_Term reply <= ae_Term args -> XIndex reply <= zlen l /\ XLen reply <= zlen l.

(** Nothing but counters and the timer. *)
Definition same_core (rf rf' : Raft) : Prop :=
  pst rf' = pst rf /\ state rf' = state rf /\ persister rf' = persister rf /\
  peers rf' = peers rf /\ me rf' = me rf /\ votecount rf' = votecount rf.

Inductive reply_step (n peer : nat) (args : AppendEntriesArgs Cmd) (reply : option AppendEntriesReply)
    (rf rf' : Raft) : Prop :=
  | RSIgnore (Hcore : same_core rf rf') (Hi : indices rf' = indices rf)
  | RSStepDown ws (Hev : evolves rf rf' ws) (Hlt : currentTerm rf < currentTerm rf')
      (Hlog : log rf' = log rf) (Hst : state rf' = StateFollower) (Hi : indices rf' = indices rf)
      (Hnv : votedFor rf' = -1)
  | RSAck next m (Hst : state rf = StateLeader) (Hterm : currentTerm rf = ae_Term args)
      (Hs : exists r, reply = Some r /\ Success r = true) (Hcore : same_core rf rf')
      (Hn : nextIndex rf !! peer = Some next) (Hm : matchIndex rf !! peer = Some m)
      (Hnext : nextIndex rf' = <[peer := Z.max next (PrevLogIndex args + zlen (Entries args) + 1)]> (nextIndex rf))
      (Hmatch : matchIndex rf' = <[peer := Z.max m (PrevLogIndex args + zlen (Entries args))]> (matchIndex rf))
      (Hla : lastApplied rf' = lastApplied rf)
      (Hcommit : commitIndex rf' = commitIndex rf \/
         (commitIndex rf < commitIndex rf' /\ committable n rf' (commitIndex rf')))
  | RSBack x (Hst : state rf = StateLeader) (Hterm : currentTerm rf = ae_Term args)
      (Hs : exists r, reply = Some r /\ Success r = false) (Hcore : same_core rf rf')
      (Hx : 1 <= x <= zlen (log rf)) (Hnext : nextIndex rf' = <[peer := x]> (nextIndex rf))
      (Hrest : commitIndex rf' = commitIndex rf /\ lastApplied rf' = lastApplied rf /\ matchIndex rf' = matchIndex rf).

Lemma update_max (l : list Z) (i : nat) x y :
  l !! i = Some x -> (if x <? y then zupdate l (Z.of_nat i) y else Some l) = Some (<[i := Z.max x y]> l).
Proof.
  intros Hl. pose proof (lookup_lt_Some _ _ _ Hl) as Hi. destruct (x <? y) eqn:Hxy; bool_to_prop.
  - rewrite zupdate_Some by (unfold zlen; lia). rewrite Nat2Z.id. by rewrite Z.max_r by lia.
  - rewrite Z.max_l by lia. by rewrite list_insert_id.
Qed.

(** [committable] only looks at the log, the term and the match indices. *)
Lemma committable_set_commit n (rf : Raft) N M : committable n (set_commitIndex rf M) N <-> committable n rf N.
Proof. done. Qed.

(** What a success does: the indices of the peer move forward, and the commit index
    moves to the last entry that may be committed, if there is one. *)
Lemma ackEntries_spec n peer args (rf : Raft) next m :
  node_ok n rf -> (2 <= n)%nat -> 0 <= commitIndex rf -> nextIndex rf !! peer = Some next -> matchIndex rf !! peer = Some m ->
  exists rf', ackEntries (Z.of_nat peer) args rf = Some rf' /\ same_core rf rf' /\ lastApplied rf' = lastApplied rf /\
    nextIndex rf' = <[peer := Z.max next (PrevLogIndex args + zlen (Entries args) + 1)]> (nextIndex rf) /\
    matchIndex rf' = <[peer := Z.max m (PrevLogIndex args + zlen (Entries args))]> (matchIndex rf) /\
    (commitIndex rf' = commitIndex rf \/ commitIndex rf < commitIndex rf' < zlen (log rf) /\ committable n rf' (commitIndex rf')) /\
    forall M, commitIndex rf' < M < zlen (log rf) -> ~ committable n rf' M.
Proof.
  intros Hok Hn Hc Hnx Hm. unfold ackEntries. rewrite !znth_of_nat, Hnx. cbn [mbind option_bind].
  rewrite (update_max _ _ _ _ Hnx). cbn [mbind option_bind]. rewrite Hm. cbn [mbind option_bind].
  rewrite (update_max _ _ _ _ Hm). cbn [mbind option_bind].
  set (rf1 := set_matchIndex _ _).
  destruct (commit_loop_spec n rf1 (length (log rf)) (zlen (log rf) - 1)) as [[-> Hno]|(M & HM & Hcm & Hno & ->)]; try done.
  - apply (ok_peers _ _ Hok).
  - unfold rf1; cbn [matchIndex set_matchIndex]. rewrite length_insert. apply (ok_match _ _ Hok).
  - unfold rf1; cbn [log set_matchIndex set_nextIndex]. lia.
  - unfold rf1, zlen; cbn [commitIndex set_matchIndex set_nextIndex]. lia.
  - exists rf1. split_and!; try done; [by left|]. intros M HM. apply Hno. lia.
  - eexists. split_and!; try done.
    + right. unfold rf1 in HM; cbn [commitIndex set_matchIndex set_nextIndex set_commitIndex] in *. split; [lia|exact Hcm].
    + intros M' HM'. apply Hno. cbn [commitIndex set_commitIndex] in HM'. lia.
Qed.

Lemma handleAppendReply_spec n env peer args reply (rf : Raft) :
  saves env -> node_ok n rf -> (2 <= n)%nat -> 0 <= commitIndex rf -> (peer < n)%nat ->
  (forall r, reply = Some r -> state rf = StateLeader -> currentTerm rf = ae_Term args -> reply_fits args r (log rf)) ->
  exists rf' b, handleAppendReply env (Z.of_nat peer) args reply rf = Some (rf', b) /\
    reply_step n peer args reply rf rf'.
Proof.
  intros Hsv Hok Hn Hc Hpeer Hfits. unfold handleAppendReply. destruct reply as [reply|].
  2:{ eexists _, _. split; [done|]. by constructor 1. }
  destruct (_ || _) eqn:Hg.
  { eexists _, _. split; [done|]. by constructor 1. }
  apply orb_false_iff in Hg as [Hst Ht]. apply negb_false_iff, bool_decide_eq_true in Hst.
  apply negb_false_iff, Z.eqb_eq in Ht. specialize (Hfits reply eq_refl Hst Ht).
  pose proof (zlen_pos _ (ok_log _ _ Hok)) as Hpos.
  destruct (currentTerm rf <? aer_Term reply) eqn:Hlt; bool_to_prop.
  { destruct (persist_saves env (resetElectionTimeout env (adoptTerm rf (aer_Term reply))) Hsv) as [rf' Hper].
    rewrite Hper. cbn [mbind option_bind]. eexists rf', _. split; [done|]. revert Hper.
    destruct (adoptTerm_spec rf (aer_Term reply)) as (A1 & A2 & A3 & A4 & A5 & A6 & A7).
    assert (currentTerm (adoptTerm rf (aer_Term reply)) = aer_Term reply) as Ha by apply (f_equal p_term A1).
    assert (log (adoptTerm rf (aer_Term reply)) = log rf) as Hal by apply (f_equal p_log A1).
    assert (votedFor (adoptTerm rf (aer_Term reply)) = -1) as Hav by apply (f_equal p_voted A1).
    generalize dependent (adoptTerm rf (aer_Term reply)). intros rf1 A1 A2 A3 A4 A5 A6 A7 Ha Hal Hav Hper.
    destruct (reset_view env rf1) as (R1 & R2 & R3 & R4 & R5 & R6 & _).
    destruct (persist_view env _ rf' Hper) as (P1 & P2 & P3 & P4 & P5 & P6).
    eapply RSStepDown; [eapply evolves_persist; [exact Hper|..]| | | | |].
    - rewrite R1, A1. by left.
    - by rewrite R2, A7.
    - by rewrite R3.
    - by rewrite R4.
    - rewrite P1. change (currentTerm (resetElectionTimeout env rf1)) with (currentTerm rf1). by rewrite Ha.
    - rewrite P3. exact Hal.
    - rewrite P4. exact A2.
    - rewrite P5. exact A3.
    - rewrite P2. exact Hav. }
  destruct (lookup_lt_is_Some_2 (nextIndex rf) peer) as [next Hnx]; [by rewrite (ok_next _ _ Hok)|].
  destruct (lookup_lt_is_Some_2 (matchIndex rf) peer) as [m Hm]; [by rewrite (ok_match _ _ Hok)|].
  unfold reply_fits in Hfits. destruct (Success reply) eqn:Hs.
  - destruct (ackEntries_spec n peer args rf next m Hok Hn Hc Hnx Hm) as (rf' & -> & Hcore & Ha & H1 & H2 & H3 & _).
    cbn [mbind option_bind]. eexists _, _. split; [done|]. apply (RSAck _ _ _ _ _ _ next m); try done; [eauto|].
    destruct H3 as [?|[[? _] ?]]; [by left|by right].
  - destruct Hfits as [Hx Hl]; [lia|]. destruct (backNext_spec reply rf Hx Hl) as (x & -> & Hxl).
    cbn [mbind option_bind]. rewrite zupdate_Some by (unfold zlen; rewrite (ok_next _ _ Hok); lia).
    cbn [mbind option_bind]. rewrite Nat2Z.id. eexists _, _. split; [done|].
    apply (RSBack _ _ _ _ _ _ (if x <? 1 then 1 else x)); try done; [eauto| ].
    case_match; bool_to_prop; lia.
Qed.

Lemma handleAppendReply_steady env peer args reply (rf : Raft) r :
  handleAppendReply env peer args reply rf = Some r -> handleAppendReply (steady env) peer args reply rf = Some r.
Proof.
  unfold handleAppendReply. destruct reply as [reply|]; [|done]. case_match; [done|]. case_match; [|done].
  intros (rf1 & Hp & Hr)%bind_Some. apply bind_Some. exists rf1. split; [|exact Hr].
  by apply (persist_steady env (resetElectionTimeout env (adoptTerm rf (aer_Term reply)))).
Qed.

(** A goroutine that gets through its section. *)
Lemma handleAppendReply_inv n env peer args reply (rf rf' : Raft) b :
  node_ok n rf -> (2 <= n)%nat -> 0 <= commitIndex rf -> (peer < n)%nat ->
  (forall r, reply = Some r -> state rf = StateLeader -> currentTerm rf = ae_Term args -> reply_fits args r (log rf)) ->
  handleAppendReply env (Z.of_nat peer) args reply rf = Some (rf', b) -> reply_step n peer args reply rf rf'.
Proof.
  intros Hok Hn Hc Hpeer Hfits Ha%handleAppendReply_steady.
  destruct (handleAppendReply_spec n (steady env) peer args reply rf (saves_steady env) Hok Hn Hc Hpeer Hfits) as (rf1 & b1 & Ha' & Hs).
  rewrite Ha in Ha'. by injection Ha' as <- <-.
Qed.

(** ** Commands, applied entries, restarts *)

Lemma Start_spec env c (rf : Raft) :
  saves env -> if decide (state rf = StateLeader) then
    exists rf', Start env c rf = Some ((zlen (log rf), currentTerm rf, true), rf') /\
      evolves rf rf' [(currentTerm rf, votedFor rf, log rf ++ [mkEntry (currentTerm rf) (Some c)])] /\
      pst rf' = (currentTerm rf, votedFor rf, log rf ++ [mkEntry (currentTerm rf) (Some c)]) /\
      state rf' = StateLeader /\ indices rf' = indices rf /\ votecount rf' = votecount rf
  else Start env c rf = Some ((-1, -1, false), rf).
Proof.
  intros Hsv. unfold Start. destruct (decide (state rf = StateLeader)) as [Hst|Hst]; cycle 1.
  { rewrite bool_decide_eq_false_2 by done. done. }
  rewrite bool_decide_eq_true_2 by done. cbn [negb].
  set (rf1 := appendCommand _ _).
  assert (Hp : pst rf1 = (currentTerm rf, votedFor rf, log rf ++ [mkEntry (currentTerm rf) (Some c)])) by done.
  destruct (persist_saves env rf1 Hsv) as [rf' Hper]. rewrite Hper. cbn [mbind option_bind].
  destruct (persist_view env rf1 rf' Hper) as (P1 & P2 & P3 & P4 & P5 & P6).
  exists rf'. split_and!.
  - rewrite P1, P3. do 3 f_equal. unfold rf1, appendCommand; cbn [log set_log]. f_equal. rewrite zlen_app.
    change (zlen [mkEntry (currentTerm rf) (Some c)]) with 1. lia.
  - rewrite <- Hp. eapply evolves_persist; [exact Hper|try done..]. right. split; [done|by right].
  - unfold pst. by rewrite P1, P2, P3.
  - by rewrite P4.
  - by rewrite P5.
  - by rewrite P6.
Qed.

Lemma Start_steady env c (rf : Raft) r : Start env c rf = Some r -> Start (steady env) c rf = Some r.
Proof.
  unfold Start. case_match; [done|]. intros (rf1 & Hp & Hr)%bind_Some. apply bind_Some. exists rf1.
  split; [by apply persist_steady|exact Hr].
Qed.

(** A call that comes back. *)
Lemma Start_inv env c (rf : Raft) r :
  Start env c rf = Some r ->
  if decide (state rf = StateLeader) then
    r.1 = (zlen (log rf), currentTerm rf, true) /\
    evolves rf r.2 [(currentTerm rf, votedFor rf, log rf ++ [mkEntry (currentTerm rf) (Some c)])] /\
    pst r.2 = (currentTerm rf, votedFor rf, log rf ++ [mkEntry (currentTerm rf) (Some c)]) /\
    state r.2 = StateLeader /\ indices r.2 = indices rf /\ votecount r.2 = votecount rf
  else r = ((-1, -1, false), rf).
Proof.
  intros Hs%Start_steady. pose proof (Start_spec (steady env) c rf (saves_steady env)) as Hsp. case_decide.
  - destruct Hsp as (rf' & Hs' & Hrest). rewrite Hs in Hs'. injection Hs' as ->. by split.
  - rewrite Hs in Hsp. by injection Hsp as ->.
Qed.

(** One turn of the apply loop delivers the committed entries that were not
    delivered yet, in order, each once. *)
Lemma apply_turn_spec fuel (rf : Raft) :
  0 <= lastApplied rf -> commitIndex rf < zlen (log rf) -> commitIndex rf - lastApplied rf <= Z.of_nat fuel ->
  exists msgs rf', apply_turn fuel rf = Some (msgs, rf') /\
    same_core rf rf' /\ commitIndex rf' = commitIndex rf /\ nextIndex rf' = nextIndex rf /\ matchIndex rf' = matchIndex rf /\
    lastApplied rf' = Z.max (lastApplied rf) (commitIndex rf) /\
    Z.of_nat (length msgs) = lastApplied rf' - lastApplied rf /\
    forall k msg, msgs !! k = Some msg ->
      CommandValid msg = true /\ CommandIndex msg = lastApplied rf + 1 + Z.of_nat k /\
      exists e, znth (log rf) (CommandIndex msg) = Some e /\ MsgCommand msg = Command e.
Proof.
  revert rf. induction fuel as [|fuel IH]; intros rf Hla Hc Hf.
  { exists [], rf. split_and!; try done; simpl; lia. }
  cbn [apply_turn]. destruct (lastApplied rf <? commitIndex rf) eqn:Hlt; bool_to_prop.
  2:{ exists [], rf. split_and!; try done; simpl; lia. }
  cbn [log lastApplied set_lastApplied].
  destruct (znth_is_Some (log rf) (lastApplied rf + 1)) as [e He]; [lia|]. rewrite He. cbn [mbind option_bind].
  destruct (IH (set_lastApplied rf (lastApplied rf + 1))) as (msgs & rf' & -> & Hcore & H1 & H2 & H3 & H4 & H5 & H6);
    [simpl; lia|simpl; lia|simpl; lia|].
  cbn [mbind option_bind]. eexists _, rf'. split; [done|]. cbn [lastApplied commitIndex set_lastApplied] in *.
  split_and!; [exact Hcore|done|done|done|lia|simpl length; lia|].
  intros [|k] msg Hk.
  - injection Hk as <-. cbn [CommandValid CommandIndex MsgCommand]. split_and!; [done|lia|eauto].
  - destruct (H6 k msg Hk) as (Hv & Hi & He'). split_and!; [done|lia|exact He'].
Qed.

(** What a node reads at its start. *)
Definition disk_pst (f : list bytes) : option pstate :=
  match f with
  | [] => Some (0, -1, [mkEntry 0 None])
  | b :: _ => gob_decode b
  end.

Lemma Make_spec env n self f p :
  disk_pst f = Some p -> Forall (fun b => b <> []) f ->
  exists rf, Make env true n self (MakePersister f) = Some rf /\ pst rf = p /\
    state rf = StateFollower /\ file (persister rf) = f /\ peers rf = Z.of_nat n /\ me rf = self /\
    commitIndex rf = 0 /\ lastApplied rf = 0 /\ nextIndex rf = replicate n 0 /\ matchIndex rf = replicate n 0.
Proof.
  intros Hp Hne. unfold Make, ReadRaftState, ReadFile. simpl.
  destruct f as [|b f]; simpl in *.
  - injection Hp as <-. eexists. by split_and!.
  - destruct b as [|c b]; [by apply Forall_cons in Hne as [? _]|]. rewrite Hp.
    destruct p as [[term voted] entries]. eexists. by split_and!.
Qed.

(** What a node that starts takes from its file, whatever it holds: an empty file and one
    that does not decode are ignored ([readPersist]). *)
Definition restart_pst (f : list bytes) : pstate :=
  let new := (0, -1, [mkEntry 0 None]) in
  match f with
  | [] | [] :: _ => new
  | b :: _ => default new (gob_decode b)
  end.

Lemma Make_any env n self f :
  exists rf, Make env true n self (MakePersister f) = Some rf /\ pst rf = restart_pst f /\
    state rf = StateFollower /\ commitIndex rf = 0 /\ lastApplied rf = 0.
Proof.
  unfold Make, ReadRaftState, ReadFile. destruct f as [|[|x b] f]; cbn [MakePersister file resetElectionTimeout
    set_log set_lastHeartbeat set_electionTimeout persister mbind option_bind restart_pst];
    [by eexists|by eexists|]. eexists. split; [done|]. unfold readPersist.
  destruct (gob_decode (x :: b)) as [[[t v] l]|]; by split_and!.
Qed.

(** A file that holds a state gives this state. *)
Lemma restart_pst_disk f p : disk_pst f = Some p -> Forall (fun b => b <> []) f -> restart_pst f = p.
Proof.
  destruct f as [|[|x b] f]; cbn; [by intros [= <-]|by intros _ [? _]%Forall_cons|]. by intros ->.
Qed.
End Node.
