(* ===== verification/Cluster.v ===== *)
(** * A cluster of Raft nodes

    The goroutines of all nodes as one transition system: every event runs one
    critical section of [Raft] to its end.  A call in flight is executed at most
    once by its callee and answered at most once ([labrpc]); calls and answers may
    be lost, delayed and reordered, and nodes may crash, also between two writes of
    a handler, and restart from their files.  [fstep] adds the faults of these writes. *)
From S2P Require Export RaftNode.

Section Cluster.
Context {Cmd : Type} `{Gob (Z * Z * list (LogEntry Cmd))}.
#[local] Abbreviation Raft := (Raft (Cmd := Cmd)).

(** ** State *)

(** A running node with the messages that it sent on [applyCh], or the history of
    the file of a stopped one. *)
Inductive node :=
  | Up (rf : Raft) (sent : list (ApplyMsg Cmd))
  | Down (f : list bytes).

Inductive call :=
  | VoteCall (args : RequestVoteArgs)
  | VoteRet (args : RequestVoteArgs) (reply : RequestVoteReply)
  | AppendCall (args : AppendEntriesArgs Cmd)
  | AppendRet (args : AppendEntriesArgs Cmd) (reply : AppendEntriesReply).

(** [awaited]: the goroutine that made the call still waits for its result. *)
Record rpc := mkRpc { caller : nat; callee : nat; awaited : bool; what : call }.

Record cluster := mkCluster { nodes : list node; net : list rpc }.

Definition init (n : nat) : cluster := mkCluster (replicate n (Down [])) [].

Definition up (c : cluster) (i : nat) : option (Raft * list (ApplyMsg Cmd)) :=
  nd ← nodes c !! i; match nd with Up rf sent => Some (rf, sent) | Down _ => None end.

Definition set_up (c : cluster) (i : nat) (rf : Raft) (sent : list (ApplyMsg Cmd)) (net' : list rpc) : cluster :=
  mkCluster (<[i := Up rf sent]> (nodes c)) net'.

(** ** Events *)

Inductive action :=
  | Tick (i : nat) (env : Env)              (** a turn of [ticker] *)
  | Force (i : nat) (env : Env)             (** [DebugForceElection] *)
  | Client (i : nat) (env : Env) (c : Cmd)  (** [Start] *)
  | Send (i j : nat)                        (** a replication goroutine calls peer [j] *)
  | Deliver (k : nat) (env : Env)           (** the [k]-th call in flight is executed *)
  | Return (k : nat) (env : Env)            (** its result reaches the caller *)
  | GiveUp (k : nat) (env : Env)            (** the caller is told that it failed *)
  | Apply (i : nat).                        (** a turn of [applyLoop] *)

Inductive event :=
  | Act (a : action)
  | CrashIn (a : action) (m : nat)          (** a crash after [m] writes of this step *)
  | Crash (i : nat)
  | Restart (i : nat) (env : Env).

Definition others (n i : nat) : list nat := filter (fun j => j <> i) (seq 0 n).

(** The calls of a new candidate. *)
Definition vote_calls (n i : nat) (args : RequestVoteArgs) : list rpc :=
  (fun j => mkRpc i j true (VoteCall args)) <$> others n i.

Definition set_what (r : rpc) (w : call) : rpc := mkRpc (caller r) (callee r) (awaited r) w.
Definition abandon (r : rpc) : rpc := mkRpc (caller r) (callee r) false (what r).

(** The goroutines of node [i] are gone. *)
Definition orphan (i : nat) (r : rpc) : rpc := if decide (caller r = i) then abandon r else r.

Definition remove {A} (k : nat) (l : list A) : list A := take k l ++ drop (S k) l.

Definition act_deliver (k : nat) (env : Env) (c : cluster) : option cluster :=
  r ← net c !! k;
  nd ← up c (callee r);
  let '(rf, sent) := nd in
  match what r with
  | VoteCall args =>
      res ← RequestVote env args rf;
      Some (set_up c (callee r) (snd res) sent (<[k := set_what r (VoteRet args (fst res))]> (net c)))
  | AppendCall args =>
      res ← AppendEntries env args rf;
      Some (set_up c (callee r) (snd res) sent (<[k := set_what r (AppendRet args (fst res))]> (net c)))
  | _ => None
  end.

Definition act_return (k : nat) (env : Env) (c : cluster) : option cluster :=
  r ← net c !! k;
  nd ← up c (caller r);
  let '(rf, sent) := nd in
  if awaited r then
    match what r with
    | VoteRet args reply =>
        res ← handleVoteReply env args reply rf;
        Some (set_up c (caller r) (fst res) sent (remove k (net c)))
    | AppendRet args reply =>
        res ← handleAppendReply env (Z.of_nat (callee r)) args (Some reply) rf;
        Some (set_up c (caller r) (fst res) sent (remove k (net c)))
    | _ => None
    end
  else None.

(** The call may still be executed later. *)
Definition act_giveup (k : nat) (env : Env) (c : cluster) : option cluster :=
  r ← net c !! k;
  nd ← up c (caller r);
  let '(rf, sent) := nd in
  if awaited r then
    let net' := <[k := abandon r]> (net c) in
    match what r with
    | VoteCall _ | VoteRet _ _ => Some (set_up c (caller r) rf sent net')
    | AppendCall args | AppendRet args _ =>
        res ← handleAppendReply env (Z.of_nat (callee r)) args None rf;
        Some (set_up c (caller r) (fst res) sent net')
    end
  else None.

Definition act_send (i j : nat) (c : cluster) : option cluster :=
  nd ← up c i;
  let '(rf, sent) := nd in
  if bool_decide (i <> j /\ (j < length (nodes c))%nat) then
    args ← buildAppendEntries (Z.of_nat j) rf;
    match args with
    | Some args => Some (set_up c i rf sent (mkRpc i j true (AppendCall args) :: net c))
    | None => Some c
    end
  else None.

(** [None]: the step is not enabled, or it panics. *)
Definition act (a : action) (c : cluster) : option cluster :=
  match a with
  | Tick i env =>
      nd ← up c i;
      let '(rf, sent) := nd in
      res ← ticker_turn env rf;
      let calls := match fst res with Some args => vote_calls (length (nodes c)) i args | None => [] end in
      Some (set_up c i (snd res) sent (calls ++ net c))
  | Force i env =>
      nd ← up c i;
      let '(rf, sent) := nd in
      res ← DebugForceElection env rf;
      Some (set_up c i (snd res) sent (vote_calls (length (nodes c)) i (fst res) ++ net c))
  | Client i env cmd =>
      nd ← up c i;
      let '(rf, sent) := nd in
      res ← Start env cmd rf;
      Some (set_up c i (snd res) sent (net c))
  | Send i j => act_send i j c
  | Deliver k env => act_deliver k env c
  | Return k env => act_return k env c
  | GiveUp k env => act_giveup k env c
  | Apply i =>
      nd ← up c i;
      let '(rf, sent) := nd in
      res ← applyLoop_turn rf;
      Some (set_up c i (snd res) (sent ++ fst res) (net c))
  end.

(** The node whose critical section the action runs. *)
Definition actor (a : action) (c : cluster) : option nat :=
  match a with
  | Tick i _ | Force i _ | Client i _ _ | Send i _ | Apply i => Some i
  | Deliver k _ => callee <$> net c !! k
  | Return k _ | GiveUp k _ => caller <$> net c !! k
  end.

(** Every write of the state file succeeds during the section. *)
Definition writes_succeed (a : action) : Prop :=
  match a with
  | Tick _ env | Force _ env | Client _ env _ | Deliver _ env | Return _ env => saves env
  | Send _ _ | GiveUp _ _ | Apply _ => True
  end.

(** What node [i] leaves when it stops: its file with the first [m] writes of
    those between [rf] and [rf']. *)
Definition halted (rf rf' : Raft) (m : nat) : list bytes :=
  let h := file (persister rf') in
  drop (length h - (length (file (persister rf)) + m)) h.

Definition crash_node (i : nat) (f : list bytes) (c : cluster) : cluster :=
  mkCluster (<[i := Down f]> (nodes c)) (orphan i <$> net c).

Definition step (e : event) (c : cluster) : option cluster :=
  match e with
  | Act a => act a c
  | CrashIn a m =>
      i ← actor a c;
      nd ← up c i;
      c' ← act a c;
      nd' ← up c' i;
      Some (crash_node i (halted (fst nd) (fst nd') m) c)
  | Crash i =>
      nd ← up c i;
      Some (crash_node i (file (persister (fst nd))) c)
  | Restart i env =>
      nd ← nodes c !! i;
      match nd with
      | Up _ _ => None
      | Down f =>
          rf ← Make env true (length (nodes c)) (Z.of_nat i) (MakePersister f);
          Some (set_up c i rf [] (net c))
      end
  end.

Fixpoint run (es : list event) (c : cluster) : option cluster :=
  match es with
  | [] => Some c
  | e :: es => c ← step e c; run es c
  end.

Definition reachable (n : nat) (c : cluster) : Prop := exists es, run es (init n) = Some c.

(** ** Faults of the state file

    In the steps above a section gets through its writes of the state file, or the node
    stops between two of them.  A kill may also come inside a write, or a write may fail;
    [Save] then panics.  In a goroutine of the node or of the network the panic ends the
    process; in a request of the gateway it is recovered, and the node goes on. *)

(** The node stops inside write [m] of those between [rf] and [rf'], behind [n] bytes. *)
Definition torn (rf rf' : Raft) (m n : nat) : option (list bytes) :=
  if bool_decide (length (file (persister rf)) + m < length (file (persister rf')))%nat then
    match halted rf rf' (S m) with
    | data :: h => Some (torn_write n data h)
    | [] => None
    end
  else None.

Inductive fevent :=
  | Sound (e : event)
  | CrashTorn (a : action) (m n : nat)
  | Recovered (a : action).

(** The object of node [i] after a recovered panic of a request. *)
Definition recovered (a : action) (rf : Raft) : option Raft :=
  match a with
  | Force i env =>
      match DebugForceElection env rf with None => Some (DebugForceElection_left env rf) | Some _ => None end
  | Client i env cmd =>
      match Start env cmd rf with None => Some (Start_left env cmd rf) | Some _ => None end
  | _ => None
  end.

Definition fstep (e : fevent) (c : cluster) : option cluster :=
  match e with
  | Sound e => step e c
  | CrashTorn a m n =>
      i ← actor a c;
      nd ← up c i;
      c' ← act a c;
      nd' ← up c' i;
      f ← torn (fst nd) (fst nd') m n;
      Some (crash_node i f c)
  | Recovered a =>
      i ← actor a c;
      nd ← up c i;
      rf ← recovered a (fst nd);
      Some (set_up c i rf (snd nd) (net c))
  end.

Fixpoint frun (es : list fevent) (c : cluster) : option cluster :=
  match es with
  | [] => Some c
  | e :: es => c ← fstep e c; frun es c
  end.

Definition sound (e : fevent) : Prop := match e with Sound _ => True | _ => False end.

Lemma frun_sound es c : frun (Sound <$> es) c = run es c.
Proof.
  revert c. induction es as [|e es IH]; intros c; [done|]. cbn [fmap list_fmap frun run fstep].
  destruct (step e c) as [c'|]; cbn [mbind option_bind]; [apply IH|done].
Qed.

(** Without such faults nothing is added. *)
Lemma frun_all_sound es c c' : frun es c = Some c' -> Forall sound es -> exists es', run es' c = Some c'.
Proof.
  intros Hr Hs. assert (exists es', es = Sound <$> es') as [es' ->].
  { clear Hr. induction Hs as [|[e| |] es He Hs [es' ->]]; [by exists []| |done..]. by exists (e :: es'). }
  exists es'. by rewrite frun_sound in Hr.
Qed.

Lemma frun_app es es' c c' c'' : frun es c = Some c' -> frun es' c' = Some c'' -> frun (es ++ es') c = Some c''.
Proof.
  revert c. induction es as [|e es IH]; intros c; cbn [app frun]; [by intros [= ->]|].
  destruct (fstep e c) as [c1|]; [apply IH|done].
Qed.
End Cluster.
