(* ===== verification/ClusterInv.v ===== *)
(** * The invariant of a Raft cluster

    The proof keeps three histories: the votes that were written ([ballots]), who
    led each term ([led]), and the log that the leader of each term has built
    ([Lg]).  Every log of the cluster agrees with these leader logs, and every
    leader has the votes of a majority. *)
From S2P Require Export Cluster.

Section Inv.
Context {Cmd : Type} `{GobLaws (Z * Z * list (LogEntry Cmd))}.
#[local] Abbreviation LogEntry := (LogEntry Cmd).
#[local] Abbreviation Raft := (Raft (Cmd := Cmd)).
#[local] Abbreviation cluster := (cluster (Cmd := Cmd)).
#[local] Abbreviation rpc := (rpc (Cmd := Cmd)).
#[local] Abbreviation pstate := (Z * Z * list LogEntry)%type.

Record ghost := mkGhost { ballots : gmap (nat * Z) Z; led : gmap Z nat; Lg : Z -> list LogEntry }.

(** A majority of the nodes voted for [i] in term [t]. *)
Definition elected (n : nat) (g : ghost) (t : Z) (i : nat) : Prop :=
  exists S : list nat, NoDup S /\ (Z.of_nat n / 2 < Z.of_nat (length S)) /\
    forall j, j ∈ S -> (j < n)%nat /\ ballots g !! (j, t) = Some (Z.of_nat i).

Record ghost_inv (n : nat) (g : ghost) : Prop := {
  gi_led t i : led g !! t = Some i ->
    1 <= t /\ (i < n)%nat /\ elected n g t i /\ ballots g !! (i, t) = Some (Z.of_nat i);
  gi_agrees t : agrees (Lg g) (Lg g t);
  gi_terms t : terms_le t (Lg g t);
  gi_some t : Lg g t <> [] -> t = 0 \/ is_Some (led g !! t);
  gi_zero : Lg g 0 = [mkEntry 0 None];
  gi_first t e : Lg g t !! O = Some e -> e = mkEntry 0 None
}.

(** The persistent state of node [i] against the histories. *)
Record log_inv (g : ghost) (p : pstate) : Prop := {
  li_first : p_log p !! O = Some (mkEntry 0 None);
  li_pos : 0 <= p_term p;
  li_terms : terms_le (p_term p) (p_log p);
  li_agrees : agrees (Lg g) (p_log p)
}.

Record ballots_inv (b : gmap (nat * Z) Z) (i : nat) (p : pstate) : Prop := {
  bi_now : b !! (i, p_term p) = if p_voted p =? -1 then None else Some (p_voted p);
  bi_past t c : b !! (i, t) = Some c -> t <= p_term p
}.

Lemma log_inv_log g p : log_inv g p -> p_log p <> [].
Proof. intros [Hf _ _ _]. by destruct (p_log p). Qed.

Definition pst_inv (g : ghost) (i : nat) (p : pstate) : Prop := log_inv g p /\ ballots_inv (ballots g) i p.

Definition file_inv (f : list bytes) (p : pstate) : Prop := disk_pst f = Some p /\ Forall (fun b => b <> []) f.

(** The vote calls whose answer still counts: candidate, term and voter. *)
Definition vote_key (r : rpc) : option (nat * Z * nat) :=
  if awaited r then
    match what r with
    | VoteCall args | VoteRet args _ => Some (caller r, rv_Term args, callee r)
    | _ => None
    end
  else None.

Definition keys (rs : list rpc) : list (nat * Z * nat) := omap vote_key rs.

(** A candidate counted each vote once. *)
Definition cand_inv (n : nat) (g : ghost) (ks : list (nat * Z * nat)) (i : nat) (rf : Raft) : Prop :=
  1 <= currentTerm rf /\ votedFor rf = Z.of_nat i /\ led g !! currentTerm rf <> Some i /\
  exists S : list nat, NoDup S /\ Z.of_nat (length S) = votecount rf /\
    forall j, j ∈ S -> (j < n)%nat /\ ballots g !! (j, currentTerm rf) = Some (Z.of_nat i) /\
      (i, currentTerm rf, j) ∉ ks.

Record up_inv (n : nat) (g : ghost) (ks : list (nat * Z * nat)) (i : nat) (rf : Raft) : Prop := {
  up_ok : node_ok n rf;
  up_me : me rf = Z.of_nat i;
  up_commit : 0 <= commitIndex rf;
  up_applied : 0 <= lastApplied rf;
  up_pst : pst_inv g i (pst rf);
  up_file : file_inv (file (persister rf)) (pst rf);
  up_cand : state rf = StateCandidate -> cand_inv n g ks i rf;
  up_lead : state rf = StateLeader -> led g !! currentTerm rf = Some i /\ Lg g (currentTerm rf) = log rf
}.

Definition node_inv (n : nat) (g : ghost) (ks : list (nat * Z * nat)) (i : nat) (nd : node) : Prop :=
  match nd with
  | Up rf _ => up_inv n g ks i rf
  | Down f => exists p, file_inv f p /\ pst_inv g i p
  end.

(** Entries in flight are a piece of a log that the leader had in its term. *)
Definition args_inv (g : ghost) (i : nat) (args : AppendEntriesArgs Cmd) : Prop :=
  led g !! ae_Term args = Some i /\ 0 <= PrevLogIndex args /\ 0 <= LeaderCommit args /\
  exists s e, s `prefix_of` Lg g (ae_Term args) /\ znth s (PrevLogIndex args) = Some e /\
    Term e = PrevLogTerm args /\ Entries args = drop (S (Z.to_nat (PrevLogIndex args))) s.

Definition call_inv (g : ghost) (i j : nat) (w : call) : Prop :=
  match w with
  | VoteCall args =>
      CandidateId args = Z.of_nat i /\ 1 <= rv_Term args /\ ballots g !! (i, rv_Term args) = Some (Z.of_nat i)
  | VoteRet args reply =>
      CandidateId args = Z.of_nat i /\ 1 <= rv_Term args /\ ballots g !! (i, rv_Term args) = Some (Z.of_nat i) /\
      (VoteGranted reply = true -> ballots g !! (j, rv_Term args) = Some (Z.of_nat i))
  | AppendCall args => args_inv g i args
  | AppendRet args reply => args_inv g i args /\ reply_fits args reply (Lg g (ae_Term args))
  end.

Definition rpc_inv (n : nat) (g : ghost) (r : rpc) : Prop :=
  caller r <> callee r /\ (caller r < n)%nat /\ (callee r < n)%nat /\ call_inv g (caller r) (callee r) (what r).

Record inv (n : nat) (g : ghost) (c : cluster) : Prop := {
  inv_n : length (nodes c) = n;
  inv_ghost : ghost_inv n g;
  inv_nodes i nd : nodes c !! i = Some nd -> node_inv n g (keys (net c)) i nd;
  inv_net : Forall (rpc_inv n g) (net c);
  inv_keys : NoDup (keys (net c))
}.

(** ** How the histories grow *)

Record ext (g g' : ghost) : Prop := {
  ext_ballots : ballots g ⊆ ballots g';
  ext_led : led g ⊆ led g';
  ext_Lg t : Lg g t `prefix_of` Lg g' t
}.

(** Only the histories of node [i] grew. *)
Record frame (i : nat) (g g' : ghost) : Prop := {
  fr_ext : ext g g';
  fr_ballots j t : j <> i -> ballots g' !! (j, t) = ballots g !! (j, t);
  fr_led t j : j <> i -> led g' !! t = Some j -> led g !! t = Some j;
  fr_Lg t j : j <> i -> led g !! t = Some j -> Lg g' t = Lg g t
}.

Lemma frame_refl i g : frame i g g.
Proof. by repeat split. Qed.

Lemma ext_trans g1 g2 g3 : ext g1 g2 -> ext g2 g3 -> ext g1 g3.
Proof.
  intros H1 H2. split; [etrans; [apply H1|apply H2]..|]. intros t. etrans; [apply H1|apply H2].
Qed.

Lemma frame_trans i g1 g2 g3 : frame i g1 g2 -> frame i g2 g3 -> frame i g1 g3.
Proof.
  intros F1 F2. split.
  - eapply ext_trans; [apply F1|apply F2].
  - intros j t Hj. rewrite (fr_ballots _ _ _ F2 j t Hj). by apply (fr_ballots _ _ _ F1).
  - intros t j Hj Hl. by apply (fr_led _ _ _ F1 t j Hj), (fr_led _ _ _ F2 t j Hj).
  - intros t j Hj Hl. rewrite (fr_Lg _ _ _ F2 t j Hj); [by apply (fr_Lg _ _ _ F1 t j)|].
    eapply lookup_weaken; [exact Hl|apply F1].
Qed.

Lemma take_prefix {A} (l k : list A) m : l `prefix_of` k -> (m <= length l)%nat -> take m k = take m l.
Proof. intros [r ->] Hm. by rewrite take_app_le. Qed.

Lemma agrees_ext (L L' : Z -> list LogEntry) l :
  (forall t, L t `prefix_of` L' t) -> agrees L l -> agrees L' l.
Proof.
  intros Hp Ha i e He. rewrite (Ha i e He). symmetry. apply take_prefix; [apply Hp|].
  pose proof (f_equal length (Ha i e He)) as Hlen. apply lookup_lt_Some in He.
  rewrite !length_take in Hlen. lia.
Qed.

Lemma elected_ext n g g' t i : ext g g' -> elected n g t i -> elected n g' t i.
Proof.
  intros He (S & Hnd & Hq & HS). exists S. split_and!; [done|done|]. intros j Hj.
  destruct (HS j Hj) as [Hlt Hb]. split; [done|]. eapply lookup_weaken; [exact Hb|apply He].
Qed.

Lemma log_inv_ext g g' p : ext g g' -> log_inv g p -> log_inv g' p.
Proof. intros He []. split; try done. eapply agrees_ext; [apply He|done]. Qed.

Lemma args_inv_ext g g' i args : ext g g' -> args_inv g i args -> args_inv g' i args.
Proof.
  intros He (Hl & Hp & Hc & s & e & Hs & Hrest). split_and!; try done.
  - eapply lookup_weaken; [exact Hl|apply He].
  - exists s, e. split; [|done]. etrans; [exact Hs|apply He].
Qed.

Lemma reply_fits_ext (args : AppendEntriesArgs Cmd) reply l l' :
  l `prefix_of` l' -> reply_fits args reply l -> reply_fits args reply l'.
Proof.
  intros Hp. assert (zlen l <= zlen l') by (apply prefix_length in Hp; unfold zlen; lia).
  unfold reply_fits. case_match; [lia|]. intros Hr Hle. destruct (Hr Hle). lia.
Qed.

Lemma rpc_inv_ext n g g' r : ext g g' -> rpc_inv n g r -> rpc_inv n g' r.
Proof.
  intros He (H1 & H2 & H3 & Hw). split_and!; try done.
  assert (Hb : forall k v, ballots g !! k = Some v -> ballots g' !! k = Some v)
    by (intros k v Hk; eapply lookup_weaken; [exact Hk|apply He]).
  destruct (what r) as [args|args reply|args|args reply]; simpl in *.
  - destruct Hw as (? & ? & ?). auto.
  - destruct Hw as (? & ? & ? & ?). auto 6.
  - by eapply args_inv_ext.
  - destruct Hw as [Ha Hr]. split; [by eapply args_inv_ext|]. eapply reply_fits_ext; [apply He|exact Hr].
Qed.

(** ** One step of one node *)

Lemma up_inv_frame n i j g g' ks ks' rf :
  frame i g g' -> j <> i -> (forall t v, (j, t, v) ∈ ks' -> (j, t, v) ∈ ks) ->
  up_inv n g ks j rf -> up_inv n g' ks' j rf.
Proof.
  intros Hf Hj Hks []. split; try done.
  - destruct up_pst0 as [Hl [Hn Hp]]. split; [by eapply log_inv_ext; [apply Hf|]|].
    split; [by rewrite (fr_ballots _ _ _ Hf) by done|].
    intros t c. rewrite (fr_ballots _ _ _ Hf) by done. apply Hp.
  - intros Hst. destruct (up_cand0 Hst) as (H1 & H2 & H3 & S & HS1 & HS2 & HS3).
    split_and!; [done|done| |].
    + intros Hl. by apply H3, (fr_led _ _ _ Hf _ j).
    + exists S. split_and!; [done|done|]. intros v Hv. destruct (HS3 v Hv) as (? & Hb & Hk).
      split_and!; [done|eapply lookup_weaken; [exact Hb|apply Hf]|]. intros Hin. by apply Hk, Hks.
  - intros Hst. destruct (up_lead0 Hst) as [Hl HL]. split; [eapply lookup_weaken; [exact Hl|apply Hf]|].
    by rewrite (fr_Lg _ _ _ Hf _ j).
Qed.

Lemma node_inv_frame n i j g g' ks ks' nd :
  frame i g g' -> j <> i -> (forall t v, (j, t, v) ∈ ks' -> (j, t, v) ∈ ks) ->
  node_inv n g ks j nd -> node_inv n g' ks' j nd.
Proof.
  intros Hf Hj Hks. destruct nd as [rf sent|f]; simpl; [by apply (up_inv_frame _ i)|].
  intros (p & Hp & Hl & [Hn Hpast]). exists p. split; [done|]. split; [by eapply log_inv_ext; [apply Hf|]|].
  split; [by rewrite (fr_ballots _ _ _ Hf) by done|].
  intros t c. rewrite (fr_ballots _ _ _ Hf) by done. apply Hpast.
Qed.

(** The whole invariant after node [i] and its calls changed. *)
Lemma inv_update n g g' c i nd net' :
  inv n g c -> frame i g g' -> ghost_inv n g' -> node_inv n g' (keys net') i nd ->
  Forall (rpc_inv n g') net' -> NoDup (keys net') ->
  (forall j t v, j <> i -> (j, t, v) ∈ keys net' -> (j, t, v) ∈ keys (net c)) ->
  inv n g' (mkCluster (<[i := nd]> (nodes c)) net').
Proof.
  intros [] Hf Hg Hnd Hnet Hk Hks. split; try done; simpl.
  - by rewrite length_insert.
  - intros j nd' Hj. destruct (decide (j = i)) as [->|Hne].
    + apply list_lookup_insert_Some in Hj as [(_ & <- & _)|[? _]]; done.
    + rewrite list_lookup_insert_ne in Hj by done. eapply node_inv_frame; [exact Hf|done| |by apply inv_nodes0].
      intros t v. by apply Hks.
Qed.

(** *** Recording a vote *)

Definition cast (i : nat) (p : pstate) (g : ghost) : ghost :=
  mkGhost (if p_voted p =? -1 then ballots g else <[(i, p_term p) := p_voted p]> (ballots g)) (led g) (Lg g).

Lemma cast_ballots g i p w :
  ballots_inv (ballots g) i p -> ple p w ->
  ballots g ⊆ ballots (cast i w g) /\ ballots_inv (ballots (cast i w g)) i w /\
  forall j t, j <> i -> ballots (cast i w g) !! (j, t) = ballots g !! (j, t).
Proof.
  intros [Hn Hp] Hle. assert (Hold : forall x, ballots g !! (i, p_term w) = Some x -> p_voted w = x).
  { intros x Hx. destruct Hle as [Hlt|[Ht Hv]]; [apply Hp in Hx; lia|].
    rewrite <- Ht, Hn in Hx. destruct (p_voted p =? -1) eqn:Hm; [done|]. bool_to_prop.
    injection Hx as <-. by destruct Hv. }
  unfold cast; cbn [ballots]. destruct (p_voted w =? -1) eqn:Hw; bool_to_prop.
  - split_and!; [done| |done]. split.
    + rewrite Hw. cbn. destruct (ballots g !! (i, p_term w)) as [x|] eqn:Hx; [|done].
      specialize (Hold x eq_refl). destruct Hle as [Hlt|[Ht Hv]]; [apply Hp in Hx; lia|].
      rewrite <- Ht, Hn in Hx. destruct (p_voted p =? -1) eqn:Hm; [done|]. bool_to_prop. destruct Hv; congruence.
    + intros t c Hc. apply Hp in Hc. unfold ple in Hle. lia.
  - split_and!.
    + destruct (ballots g !! (i, p_term w)) as [x|] eqn:Hx; [|by apply insert_subseteq].
      rewrite (Hold x eq_refl), insert_id; done.
    + split; [by rewrite lookup_insert_eq, (proj2 (Z.eqb_neq _ _) Hw)|].
      intros t c. destruct (decide (t = p_term w)) as [->|Hne]; [lia|].
      rewrite lookup_insert_ne by congruence. intros Hc. apply Hp in Hc. unfold ple in Hle. lia.
    + intros j t Hj. by rewrite lookup_insert_ne by congruence.
Qed.

Lemma cast_frame g i p w : ballots_inv (ballots g) i p -> ple p w -> frame i g (cast i w g).
Proof. intros Hb Hle. destruct (cast_ballots g i p w Hb Hle) as (H1 & _ & H3). by split; [split| | |]. Qed.

Lemma cast_ghost_inv n g i p w :
  ballots_inv (ballots g) i p -> ple p w -> ghost_inv n g -> ghost_inv n (cast i w g).
Proof.
  intros Hb Hle []. pose proof (fr_ext _ _ _ (cast_frame g i p w Hb Hle)) as He. split; try done.
  intros t j Hl. destruct (gi_led0 t j Hl) as (? & ? & Hel & Hbj). split_and!; [done|done|by eapply elected_ext|].
  eapply lookup_weaken; [exact Hbj|apply He].
Qed.

(** ** The end of a critical section *)

Lemma up_lookup (c : cluster) i rf sent : up c i = Some (rf, sent) -> nodes c !! i = Some (Up rf sent).
Proof. unfold up. destruct (nodes c !! i) as [[]|]; [|done|done]. by intros [= -> ->]. Qed.

Lemma up_inv_of n g c i rf sent : inv n g c -> up c i = Some (rf, sent) -> up_inv n g (keys (net c)) i rf.
Proof. intros Hi Hu%up_lookup. exact (inv_nodes _ _ _ Hi i _ Hu). Qed.

Lemma evolves_file_inv rf rf' ws :
  evolves rf rf' ws -> file_inv (file (persister rf)) (pst rf) -> file_inv (file (persister rf')) (pst rf').
Proof.
  intros [] [Hd Hne]. rewrite ev_file. destruct ws as [|w ws]; simpl.
  - by rewrite ev_last.
  - split; [simpl; by rewrite gob_decode_encode, ev_last|]. constructor; [apply gob_nonempty|].
    apply Forall_app. split; [|done]. apply Forall_fmap, Forall_true. intros x. apply gob_nonempty.
Qed.

(** What a node must satisfy beyond its log, in the state [rf'] that follows [rf]. *)
Record node_next (n : nat) (g : ghost) (ks : list (nat * Z * nat)) (i : nat) (rf rf' : Raft) : Prop := {
  nn_next : length (nextIndex rf') = n;
  nn_match : length (matchIndex rf') = n;
  nn_commit : 0 <= commitIndex rf';
  nn_applied : 0 <= lastApplied rf';
  nn_range : state rf' = StateLeader -> Forall (fun i => 1 <= i <= zlen (log rf')) (nextIndex rf');
  nn_cand : state rf' = StateCandidate -> cand_inv n g ks i rf';
  nn_lead : state rf' = StateLeader -> led g !! currentTerm rf' = Some i /\ Lg g (currentTerm rf') = log rf'
}.

(** The history of a new leader starts with its log. *)
Definition crown (g : ghost) (i : nat) (t : Z) (l : list LogEntry) : ghost :=
  mkGhost (ballots g) (<[t := i]> (led g)) (fun t' => if decide (t' = t) then l else Lg g t').

(** The history of a leader that takes a command. *)
Definition extend (g : ghost) (t : Z) (l : list LogEntry) : ghost :=
  mkGhost (ballots g) (led g) (fun t' => if decide (t' = t) then l else Lg g t').

(** Which histories a section adds to: none, that of a new leader, or that of a leader
    that takes a command. *)
Inductive grows (g : ghost) (i : nat) (rf rf' : Raft) : ghost -> Prop :=
  | grows_same : (state rf' = StateLeader -> state rf = StateLeader) -> grows g i rf rf' g
  | grows_crown : state rf = StateCandidate -> state rf' = StateLeader -> pst rf' = pst rf ->
      led g !! currentTerm rf = None -> grows g i rf rf' (crown g i (currentTerm rf) (log rf))
  | grows_extend e : state rf = StateLeader -> state rf' = StateLeader -> Term e = currentTerm rf ->
      currentTerm rf' = currentTerm rf -> log rf' = log rf ++ [e] ->
      grows g i rf rf' (extend g (currentTerm rf) (log rf ++ [e])).

(** What an action does to the cluster. *)
Definition stepped (n : nat) (g : ghost) (c : cluster) (i : nat) (c' : cluster) : Prop :=
  exists rf sent rf' sent' net' g1 ws,
    up c i = Some (rf, sent) /\ c' = set_up c i rf' sent' net' /\ evolves rf rf' ws /\
    frame i g g1 /\ ballots g1 = ballots g /\ ghost_inv n g1 /\ log_inv g1 (pst rf') /\
    inv n (cast i (pst rf') g1) c' /\ grows g i rf rf' g1.

Lemma section_inv n g g1 c i rf sent rf' sent' ws net' :
  inv n g c -> up c i = Some (rf, sent) -> evolves rf rf' ws ->
  frame i g g1 -> ballots g1 = ballots g -> ghost_inv n g1 -> log_inv g1 (pst rf') -> grows g i rf rf' g1 ->
  let g' := cast i (pst rf') g1 in
  (ext g g' -> node_next n g' (keys net') i rf rf') ->
  (ext g g' -> Forall (rpc_inv n g') net') -> NoDup (keys net') ->
  (forall j t v, j <> i -> (j, t, v) ∈ keys net' -> (j, t, v) ∈ keys (net c)) ->
  stepped n g c i (set_up c i rf' sent' net').
Proof.
  intros Hi Hu Hev Hf Hb Hg Hl Hgr g' Hnext Hnet Hk Hks.
  exists rf, sent, rf', sent', net', g1, ws. split_and!; try done. fold g'.
  pose proof (up_inv_of _ _ _ _ _ _ Hi Hu) as []. destruct up_pst0 as [Hl0 Hb0].
  assert (Hb1 : ballots_inv (ballots g1) i (pst rf)) by (by rewrite Hb).
  pose proof (ev_ple _ _ _ Hev) as Hple.
  pose proof (frame_trans _ _ _ _ Hf (cast_frame g1 i _ _ Hb1 Hple)) as Hf'. fold g' in Hf'.
  pose proof (fr_ext _ _ _ Hf') as He. specialize (Hnext He). specialize (Hnet He). destruct Hnext.
  apply (inv_update n g); try done; [by eapply cast_ghost_inv|]. simpl.
  split; try done.
  - pose proof (log_inv_log _ _ Hl). destruct up_ok0, Hl. split; try done.
    + by rewrite (ev_peers _ _ _ Hev).
    + by rewrite (ev_me _ _ _ Hev).
  - by rewrite (ev_me _ _ _ Hev).
  - split; [eapply log_inv_ext; [|exact Hl]|]; by destruct (cast_ballots g1 i _ _ Hb1 Hple) as (? & ? & ?).
  - by eapply evolves_file_inv.
Qed.

(** The calls in flight survive the step of one node. *)
Lemma net_ext n g g' c : inv n g c -> ext g g' -> Forall (rpc_inv n g') (net c).
Proof. intros [] He. eapply Forall_impl; [exact inv_net0|]. intros r. by apply rpc_inv_ext. Qed.

(** A node that does not lead and is no candidate has no other obligations. *)
Lemma follower_next n g ks i rf rf' :
  node_ok n rf -> 0 <= commitIndex rf -> 0 <= lastApplied rf ->
  indices rf' = indices rf -> state rf' = StateFollower -> node_next n g ks i rf rf'.
Proof. intros [] Hc Ha [= I1 I2 I3 I4] Hs. split; try congruence; rewrite I1 || rewrite I2; done. Qed.

(** The obligations of a candidate and of a leader that stay so. *)
Lemma same_roles n g g' ks ks' i rf rf' :
  up_inv n g ks i rf -> ext g g' -> (forall k, k ∈ ks' -> k ∈ ks) -> led g' = led g -> Lg g' = Lg g ->
  ple (pst rf) (pst rf') -> currentTerm rf' = currentTerm rf -> log rf' = log rf ->
  state rf' = state rf -> votecount rf' = votecount rf ->
  (state rf' = StateCandidate -> cand_inv n g' ks' i rf') /\
  (state rf' = StateLeader -> led g' !! currentTerm rf' = Some i /\ Lg g' (currentTerm rf') = log rf').
Proof.
  intros [] He Hks Hled HL Hple P1 P3 Hs Hv. rewrite Hs, Hled, HL, P1, P3. split; [|done].
  intros Hst. destruct (up_cand0 Hst) as (H1 & H2 & H3 & S & HS1 & HS2 & HS3).
  assert (P2 : votedFor rf' = votedFor rf).
  { unfold ple, p_term, p_voted in Hple. simpl in Hple. destruct Hple as [?|[_ [?|?]]]; [lia|lia|done]. }
  unfold cand_inv. rewrite P1, P2, Hv, Hled. split_and!; [done|done|done|].
  exists S. split_and!; [done|done|]. intros j Hj. destruct (HS3 j Hj) as (? & Hb & Hk).
  split_and!; [done|eapply lookup_weaken; [exact Hb|apply He]|]. intros Hin. by apply Hk, Hks.
Qed.
End Inv.
