(* ===== verification/ClusterSafety.v ===== *)
(** * Every event preserves the invariant of the cluster *)
From S2P Require Export ClusterInv.

Section Safety.
Context {Cmd : Type} `{GobLaws (Z * Z * list (LogEntry Cmd))}.
#[local] Abbreviation LogEntry := (LogEntry Cmd).
#[local] Abbreviation Raft := (Raft (Cmd := Cmd)).
#[local] Abbreviation cluster := (cluster (Cmd := Cmd)).
#[local] Abbreviation rpc := (rpc (Cmd := Cmd)).
#[local] Abbreviation ghost := (ghost (Cmd := Cmd)).
Context (n : nat) (Hn : (2 <= n)%nat).

(** ** Calls in flight *)

Lemma keys_app (l k : list rpc) : keys (l ++ k) = keys l ++ keys k.
Proof. apply omap_app. Qed.

Lemma keys_cons (r : rpc) l : keys (r :: l) = match vote_key r with Some x => x :: keys l | None => keys l end.
Proof. done. Qed.

Lemma keys_set (l : list rpc) k r r' :
  l !! k = Some r -> vote_key r' = vote_key r -> keys (<[k := r']> l) = keys l.
Proof.
  revert k. induction l as [|a l IH]; intros [|k] Hk Hr; simplify_eq/=.
  - by rewrite Hr.
  - by rewrite IH.
Qed.

Lemma keys_sub (f : rpc -> rpc) (l : list rpc) :
  (forall r, vote_key (f r) = vote_key r \/ vote_key (f r) = None) -> keys (f <$> l) `sublist_of` keys l.
Proof.
  intros Hf. induction l as [|r l IH]; [constructor|]. rewrite fmap_cons, !keys_cons.
  destruct (Hf r) as [->| ->]; destruct (vote_key r); by constructor || exact IH.
Qed.

Lemma keys_abandon (l : list rpc) k r : l !! k = Some r -> keys (<[k := abandon r]> l) `sublist_of` keys l.
Proof.
  revert k. induction l as [|a l IH]; intros [|k] Hk; simplify_eq/=.
  - destruct (vote_key r); by constructor || done.
  - destruct (vote_key a); [constructor|]; by apply IH.
Qed.

Lemma keys_remove (l : list rpc) k r :
  l !! k = Some r -> keys l ≡ₚ match vote_key r with Some x => x :: keys (remove k l) | None => keys (remove k l) end.
Proof.
  intros Hk. rewrite <- (take_drop_middle _ _ _ Hk) at 1. unfold remove. rewrite !keys_app, keys_cons.
  destruct (vote_key r); [by rewrite Permutation_middle|done].
Qed.

Lemma keys_remove_sub (l : list rpc) k r :
  l !! k = Some r -> keys (remove k l) ⊆+ keys l.
Proof.
  intros Hk. rewrite (keys_remove _ _ _ Hk). destruct (vote_key r); [by apply submseteq_cons|done].
Qed.

Lemma submseteq_NoDup {A} (l k : list A) : l ⊆+ k -> NoDup k -> NoDup l.
Proof. intros [r ->]%submseteq_Permutation. by intros [? _]%NoDup_app. Qed.

Lemma elem_of_keys (l : list rpc) x : x ∈ keys l <-> exists r, r ∈ l /\ vote_key r = Some x.
Proof. apply list_elem_of_omap. Qed.

Lemma vote_key_Some (r : rpc) i t j :
  vote_key r = Some (i, t, j) -> i = caller r /\ j = callee r /\ awaited r = true /\
  exists args, rv_Term args = t /\ (what r = VoteCall args \/ exists reply, what r = VoteRet args reply).
Proof.
  unfold vote_key. destruct (awaited r); [|done].
  destruct (what r) as [args|args reply|args|args reply]; intros [= <- <- <-]; eauto 10.
Qed.

(** A vote is only requested by a node that voted for itself. *)
Lemma key_ballot g c i t j :
  inv n g c -> (i, t, j) ∈ keys (net c) -> ballots g !! (i, t) = Some (Z.of_nat i) /\ i <> j.
Proof.
  intros Hi (r & Hr & Hk)%elem_of_keys. destruct (vote_key_Some _ _ _ _ Hk) as (-> & -> & _ & args & <- & Hw).
  pose proof (inv_net _ _ _ Hi) as Hnet. rewrite Forall_forall in Hnet.
  destruct (Hnet r Hr) as (Hne & _ & _ & Hc). split; [|done]. destruct Hw as [Hw|[reply Hw]]; rewrite Hw in Hc; apply Hc.
Qed.

Lemma keys_vote_calls m i args :
  keys (vote_calls m i args : list rpc) = (fun j => (i, rv_Term args, j)) <$> others m i.
Proof. unfold vote_calls. induction (others m i) as [|j l IH]; [done|]. rewrite !fmap_cons, keys_cons, IH. done. Qed.

Lemma elem_of_others m i j : j ∈ others m i <-> j <> i /\ (j < m)%nat.
Proof. unfold others. rewrite list_elem_of_filter, elem_of_seq. intuition lia. Qed.

Lemma NoDup_others m i : NoDup (others m i).
Proof. apply NoDup_filter, NoDup_seq. Qed.

(** ** Elections *)

Lemma log_inv_term (g : ghost) (rf rf' : Raft) :
  log_inv g (pst rf) -> log rf' = log rf -> currentTerm rf <= currentTerm rf' -> log_inv g (pst rf').
Proof.
  intros [H1 H2 H3 H4] Hl Ht. unfold pst, p_term, p_log in *; cbn [fst snd] in *.
  split; unfold p_term, p_log; cbn [fst snd]; rewrite ?Hl; try done; [lia|].
  eapply Forall_impl; [exact H3|]. cbn beta. lia.
Qed.

Lemma elect_stepped g c i rf sent rf' args :
  inv n g c -> up c i = Some (rf, sent) -> election_step args rf rf' ->
  stepped n g c i (set_up c i rf' sent (vote_calls (length (nodes c)) i args ++ net c)).
Proof.
  intros Hi Hu Hes. pose proof (up_inv_of _ _ _ _ _ _ Hi Hu) as Hup.
  assert (Hin : (i < n)%nat) by (rewrite <- (inv_n _ _ _ Hi); eapply lookup_lt_Some, up_lookup, Hu).
  rewrite (inv_n _ _ _ Hi). destruct Hup, Hes. destruct es_args as (Ha1 & Ha2 & _). destruct up_pst as [Hl Hb].
  injection es_pst as E1 E2 E3. pose proof (li_pos _ _ Hl) as Hpos. unfold p_term in Hpos; simpl in Hpos.
  assert (Hnew : forall x, ballots g !! (i, currentTerm rf + 1) <> Some x).
  { intros x Hx. apply (bi_past _ _ _ Hb) in Hx. unfold p_term in Hx; simpl in Hx. lia. }
  assert (Hvote : ballots (cast i (pst rf') g) !! (i, currentTerm rf + 1) = Some (Z.of_nat i)).
  { unfold cast, p_voted, p_term; simpl. rewrite E1, E2, up_me.
    rewrite (proj2 (Z.eqb_neq _ _)) by lia. apply lookup_insert_eq. }
  eapply (section_inv n g g); try done; [by apply inv_ghost with c| | | | | |].
  - by apply (log_inv_term g rf); [|rewrite E3|lia].
  - apply grows_same. congruence.
  - intros He. destruct up_ok. injection es_indices as I1 I2 I3 I4. split; try congruence; intros _.
    unfold cand_inv. rewrite E1, E2, es_count. split_and!; [lia|done| |].
    + cbn [led cast]. intros (_ & _ & _ & Hx)%(gi_led _ _ (inv_ghost _ _ _ Hi)). by apply Hnew in Hx.
    + exists [i]. split_and!; [apply NoDup_singleton|done|]. intros j ->%list_elem_of_singleton.
      split_and!; [done|done|]. rewrite keys_app, keys_vote_calls, elem_of_app, list_elem_of_fmap.
      intros [(j & [= _ <-] & [? _]%elem_of_others)|Hk]; [done|]. apply (key_ballot g c) in Hk as [_ ?]; done.
  - intros He. apply Forall_app. split; [|by eapply net_ext].
    unfold vote_calls. apply Forall_fmap, Forall_forall. intros j [Hj1 Hj2]%elem_of_others.
    split_and!; [done|done|done|]. cbn [what call_inv caller]. rewrite Ha1. split_and!; [congruence|lia|done].
  - rewrite keys_app, keys_vote_calls. apply NoDup_app. split_and!; [|  |apply (inv_keys _ _ _ Hi)].
    + apply NoDup_fmap_2_strong; [congruence|apply NoDup_others].
    + intros x (j & -> & _)%list_elem_of_fmap Hk. apply (key_ballot g c) in Hk as [Hk _]; [|done].
      rewrite Ha1 in Hk. by apply Hnew in Hk.
  - intros j t v Hne. rewrite keys_app, keys_vote_calls, elem_of_app, list_elem_of_fmap.
    intros [(v' & [= -> -> ->] & _)|?]; done.
Qed.

(** Steps that change nothing that the invariant looks at. *)
Lemma quiet_stepped g c i rf sent rf' sent' net' :
  inv n g c -> up c i = Some (rf, sent) -> same_core rf rf' ->
  length (nextIndex rf') = n -> length (matchIndex rf') = n -> 0 <= commitIndex rf' -> 0 <= lastApplied rf' ->
  (state rf' = StateLeader -> Forall (fun i => 1 <= i <= zlen (log rf')) (nextIndex rf')) ->
  Forall (rpc_inv n g) net' -> keys net' ⊆+ keys (net c) ->
  stepped n g c i (set_up c i rf' sent' net').
Proof.
  intros Hi Hu (Hpst & Hst & Hps & Hpe & Hme & Hv) L1 L2 L3 L4 Hr Hnet Hks.
  pose proof (up_inv_of _ _ _ _ _ _ Hi Hu) as Hup.
  eapply (section_inv n g g _ _ rf sent _ _ []); try done.
  - apply evolves_quiet; congruence.
  - apply (inv_ghost _ _ _ Hi).
  - rewrite Hpst. apply (up_pst _ _ _ _ _ Hup).
  - apply grows_same. congruence.
  - intros He. pose proof (f_equal p_term Hpst) as P1. pose proof (f_equal p_log Hpst) as P3.
    destruct (same_roles n g (cast i (pst rf') g) (keys (net c)) (keys net') i rf rf') as [Hc Hl]; try done.
    { intros k Hk. by eapply elem_of_submseteq. }
    rewrite Hpst. apply ple_refl.
  - intros He. eapply Forall_impl; [exact Hnet|]. intros r. by apply rpc_inv_ext.
  - eapply submseteq_NoDup; [exact Hks|]. apply (inv_keys _ _ _ Hi).
  - intros j t v _ Hk. by eapply elem_of_submseteq.
Qed.

(** A node that follows after the step, whatever it was before. *)
Lemma follow_stepped g c i rf sent rf' sent' ws net' :
  inv n g c -> up c i = Some (rf, sent) -> evolves rf rf' ws -> log_inv g (pst rf') ->
  state rf' = StateFollower -> length (nextIndex rf') = n -> length (matchIndex rf') = n ->
  0 <= commitIndex rf' -> 0 <= lastApplied rf' ->
  (ext g (cast i (pst rf') g) -> Forall (rpc_inv n (cast i (pst rf') g)) net') -> keys net' ⊆+ keys (net c) ->
  stepped n g c i (set_up c i rf' sent' net').
Proof.
  intros Hi Hu Hev Hl Hst L1 L2 L3 L4 Hnet Hks.
  eapply (section_inv n g g _ _ rf sent _ _ ws); try done.
  - apply (inv_ghost _ _ _ Hi).
  - apply grows_same. congruence.
  - intros He. split; try done; congruence.
  - eapply submseteq_NoDup; [exact Hks|]. apply (inv_keys _ _ _ Hi).
  - intros j t v _ Hk. by eapply elem_of_submseteq.
Qed.

(** A node that keeps its role, its term and its log. *)
Lemma keep_stepped g c i rf sent rf' sent' ws net' :
  inv n g c -> up c i = Some (rf, sent) -> evolves rf rf' ws ->
  currentTerm rf' = currentTerm rf -> log rf' = log rf -> state rf' = state rf ->
  indices rf' = indices rf -> votecount rf' = votecount rf ->
  (ext g (cast i (pst rf') g) -> Forall (rpc_inv n (cast i (pst rf') g)) net') -> keys net' ⊆+ keys (net c) ->
  stepped n g c i (set_up c i rf' sent' net').
Proof.
  intros Hi Hu Hev Ht Hl Hst [= I1 I2 I3 I4] Hv Hnet Hks.
  pose proof (up_inv_of _ _ _ _ _ _ Hi Hu) as Hup.
  eapply (section_inv n g g _ _ rf sent _ _ ws); try done.
  - apply (inv_ghost _ _ _ Hi).
  - apply (log_inv_term g rf); [|done|lia]. apply (up_pst _ _ _ _ _ Hup).
  - apply grows_same. congruence.
  - intros He. destruct (same_roles n g (cast i (pst rf') g) (keys (net c)) (keys net') i rf rf') as [Hc Hld]; try done.
    { intros k Hk. by eapply elem_of_submseteq. }
    { apply (ev_ple _ _ _ Hev). }
    destruct Hup as [[] _ Hc0 Ha0 _ _ _ _]. split; rewrite ?I1, ?I2, ?I3, ?I4, ?Hst, ?Hl in *; done.
  - eapply submseteq_NoDup; [exact Hks|]. apply (inv_keys _ _ _ Hi).
  - intros j t v _ Hk. by eapply elem_of_submseteq.
Qed.

(** ** A call is executed *)

Lemma rpc_of g c k r : inv n g c -> net c !! k = Some r -> rpc_inv n g r.
Proof. intros Hi Hk. eapply Forall_lookup_1; [apply (inv_net _ _ _ Hi)|exact Hk]. Qed.

Lemma net_set g g' c k r w :
  inv n g c -> ext g g' -> net c !! k = Some r -> call_inv g' (caller r) (callee r) w ->
  Forall (rpc_inv n g') (<[k := set_what r w]> (net c)).
Proof.
  intros Hi He Hk Hw. apply Forall_insert; [by eapply net_ext|].
  destruct (rpc_of _ _ _ _ Hi Hk) as (H1 & H2 & H3 & _). by split_and!.
Qed.

Lemma deliver_vote_stepped g c k r env args rf sent reply rf' :
  inv n g c -> net c !! k = Some r -> what r = VoteCall args -> up c (callee r) = Some (rf, sent) ->
  RequestVote env args rf = Some (reply, rf') ->
  stepped n g c (callee r) (set_up c (callee r) rf' sent (<[k := set_what r (VoteRet args reply)]> (net c))).
Proof.
  intros Hi Hk Hw Hu (ws & [Hev Hl Hind Hv Hst [Ht1 Ht2] Hgr _])%RequestVote_spec.
  pose proof (up_inv_of _ _ _ _ _ _ Hi Hu) as Hup.
  destruct (rpc_of _ _ _ _ Hi Hk) as (_ & _ & _ & Hc). rewrite Hw in Hc. destruct Hc as (Hc1 & Hc2 & Hc3).
  assert (Hnet : ext g (cast (callee r) (pst rf') g) ->
    Forall (rpc_inv n (cast (callee r) (pst rf') g)) (<[k := set_what r (VoteRet args reply)]> (net c))).
  { intros He. apply (net_set g); try done. split_and!; [done|done| |].
    - eapply lookup_weaken; [exact Hc3|apply He].
    - intros (<- & Hvf & _)%Hgr. unfold cast, p_voted, p_term; cbn [pst fst snd ballots].
      rewrite Hvf, Hc1, (proj2 (Z.eqb_neq _ _)) by lia. apply lookup_insert_eq. }
  assert (Hks : keys (<[k := set_what r (VoteRet args reply)]> (net c)) ⊆+ keys (net c)).
  { rewrite (keys_set _ _ r) by (done || unfold vote_key; cbn; by rewrite Hw). done. }
  destruct Hst as [[Hst Ht]|[Hst Ht]].
  - by eapply keep_stepped.
  - destruct Hup as [[] _ Hc0 Ha0 [Hlog _] _ _ _]. injection Hind as I1 I2 I3 I4.
    eapply follow_stepped; try done; try congruence.
    apply (log_inv_term g rf); [done|done|lia].
Qed.

(** What an accepted call leaves in the log of the receiver. *)
Lemma accept_log g i args (rf rf' : Raft) e changed :
  ghost_inv n g -> log_inv g (pst rf) -> args_inv g i args -> currentTerm rf <= currentTerm rf' ->
  currentTerm rf' = ae_Term args -> znth (log rf) (PrevLogIndex args) = Some e -> Term e = PrevLogTerm args ->
  append_loop (log rf) (PrevLogIndex args + 1) (Entries args) = Some (log rf', changed) ->
  log_inv g (pst rf').
Proof.
  intros Hg Hl (Hld & Hp & _ & s & e' & Hs & Hse & Hte & Hen) Hle Ht He Hterm Hloop.
  assert (Hs' : agrees (Lg g) s).
  { intros j x Hx. rewrite <- (take_prefix s (Lg g (ae_Term args)) (S j)); [|done|by apply lookup_lt_Some in Hx].
    apply (gi_agrees _ _ Hg). by eapply prefix_lookup_Some. }
  apply znth_Some in He as [_ He], Hse as [_ Hse].
  assert (Htake : take (S (Z.to_nat (PrevLogIndex args))) (log rf) = take (S (Z.to_nat (PrevLogIndex args))) s).
  { eapply (agrees_prefix (Lg g)); [apply (li_agrees _ _ Hl)|exact Hs'|exact He|exact Hse|congruence]. }
  destruct (append_loop_agrees (Lg g) (log rf) s (S (Z.to_nat (PrevLogIndex args)))) as (r' & ch & Hr & Hcase);
    [apply (li_agrees _ _ Hl)|done|by apply lookup_lt_Some in Hse|by apply lookup_lt_Some in He|done|].
  replace (Z.of_nat (S (Z.to_nat (PrevLogIndex args)))) with (PrevLogIndex args + 1) in Hr by lia.
  rewrite Hen, Hr in Hloop. injection Hloop as -> ->.
  destruct Hcase as [(_ & Heq & _)|[_ Heq]].
  - by apply (log_inv_term g rf).
  - pose proof (li_pos _ _ Hl) as Hpos. unfold p_term in Hpos; simpl in Hpos.
    split; unfold p_log, p_term; cbn [pst fst snd]; rewrite ?Heq; [|lia| |done].
    { rewrite <- (lookup_take_lt s (S (Z.to_nat (PrevLogIndex args)))), <- Htake, lookup_take_lt by lia. apply (li_first _ _ Hl). }
    rewrite Ht. destruct Hs as [q Hq]. pose proof (gi_terms _ _ Hg (ae_Term args)) as Hall.
    unfold terms_le in Hall. rewrite Hq in Hall. by apply Forall_app in Hall as [? _].
Qed.

(** The answer fits the log of the leader that asked. *)
Lemma append_reply_fits g i args reply (rf rf' : Raft) :
  args_inv g i args -> append_step args reply rf rf' -> reply_fits args reply (Lg g (ae_Term args)).
Proof.
  intros (_ & Hp & _ & s & e & Hs & Hse & _ & Hen) Hstep.
  apply prefix_length in Hs. apply znth_Some in Hse as [_ Hse%lookup_lt_Some].
  assert (Hlen : PrevLogIndex args + zlen (Entries args) < zlen (Lg g (ae_Term args))).
  { rewrite Hen. unfold zlen. rewrite length_drop. lia. }
  pose proof (zlen_nonneg (Entries args)) as Hnn.
  unfold reply_fits. destruct Hstep; rewrite Hs0; [lia| |done]. intros _.
  destruct Hx as [(_ & -> & -> & Hx)|(-> & Hx & _)]; lia.
Qed.

Lemma deliver_append_stepped g c k r env args rf sent reply rf' :
  inv n g c -> net c !! k = Some r -> what r = AppendCall args -> up c (callee r) = Some (rf, sent) ->
  AppendEntries env args rf = Some (reply, rf') ->
  stepped n g c (callee r) (set_up c (callee r) rf' sent (<[k := set_what r (AppendRet args reply)]> (net c))).
Proof.
  intros Hi Hk Hw Hu Ha. pose proof (up_inv_of _ _ _ _ _ _ Hi Hu) as Hup.
  destruct (rpc_of _ _ _ _ Hi Hk) as (_ & _ & _ & Hc). rewrite Hw in Hc.
  destruct (AppendEntries_inv env args rf reply rf') as (ws & Hstep & Hev & Hv); [apply Hc| |exact Ha|].
  { pose proof (ok_terms _ _ (up_ok _ _ _ _ _ Hup)) as Hall. eapply Forall_impl; [exact Hall|]. cbn beta. lia. }
  assert (Hnet : ext g (cast (callee r) (pst rf') g) ->
    Forall (rpc_inv n (cast (callee r) (pst rf') g)) (<[k := set_what r (AppendRet args reply)]> (net c))).
  { intros He. apply (net_set g); try done. split; [by eapply args_inv_ext|]. by eapply append_reply_fits. }
  assert (Hks : keys (<[k := set_what r (AppendRet args reply)]> (net c)) ⊆+ keys (net c)).
  { rewrite (keys_set _ _ r) by (done || unfold vote_key; cbn; by rewrite Hw). done. }
  pose proof Hstep as Hstep0. destruct Hup as [[] _ Hc0 Ha0 [Hlog _] _ _ _]. destruct Hstep0.
  - eapply keep_stepped; try done; [by apply (f_equal p_term) in Hpst|by apply (f_equal p_log) in Hpst].
  - injection Hi0 as I1 I2 I3 I4. eapply follow_stepped; try done; try congruence.
    apply (log_inv_term g rf); [done|done|lia].
  - destruct Hi0 as (I2 & I3 & I4). eapply follow_stepped; try done; try congruence.
    + eapply accept_log; try done; [apply (inv_ghost _ _ _ Hi)|lia].
    + rewrite Hcommit. destruct Hc as (_ & Hp & Hlc & _). pose proof (zlen_nonneg (Entries args)).
      case_match; lia.
Qed.

(** ** An answer reaches the caller *)

Lemma net_remove g g' c k : inv n g c -> ext g g' -> Forall (rpc_inv n g') (remove k (net c)).
Proof.
  intros Hi He. pose proof (net_ext _ _ _ _ Hi He) as Hall. unfold remove.
  apply Forall_app. split; [by apply Forall_take|by apply Forall_drop].
Qed.

(** Two majorities share a node. *)
Lemma quorums_meet (S1 S2 : list nat) :
  NoDup S1 -> NoDup S2 -> (forall j, j ∈ S1 -> (j < n)%nat) -> (forall j, j ∈ S2 -> (j < n)%nat) ->
  Z.of_nat n / 2 < Z.of_nat (length S1) -> Z.of_nat n / 2 < Z.of_nat (length S2) ->
  exists j, j ∈ S1 /\ j ∈ S2.
Proof.
  intros H1 H2 L1 L2 Q1 Q2. destruct (decide (Exists (fun j => j ∈ S2) S1)) as [Hex|Hno].
  { apply Exists_exists in Hex as (j & ? & ?). eauto. }
  assert (Hsub : S1 ++ S2 ⊆+ seq 0 n).
  { apply NoDup_submseteq.
    - apply NoDup_app. split_and!; [done| |done]. intros j Hj Hj2. apply Hno, Exists_exists. eauto.
    - intros j [Hj|Hj]%elem_of_app; apply elem_of_seq; [specialize (L1 j Hj)|specialize (L2 j Hj)]; lia. }
  apply submseteq_length in Hsub. rewrite length_app, length_seq in Hsub.
  pose proof (Z.mod_pos_bound (Z.of_nat n) 2). pose proof (Z.div_mod (Z.of_nat n) 2). lia.
Qed.

Lemma elected_unique (g : ghost) t i j : elected n g t i -> elected n g t j -> i = j.
Proof.
  intros (S1 & N1 & Q1 & B1) (S2 & N2 & Q2 & B2).
  destruct (quorums_meet S1 S2) as (v & Hv1 & Hv2); try done; [naive_solver..|].
  destruct (B1 v Hv1) as [_ H1], (B2 v Hv2) as [_ H2]. rewrite H1 in H2. injection H2. lia.
Qed.

Lemma crown_inv (g : ghost) i t (l : list LogEntry) :
  ghost_inv n g -> led g !! t = None -> 1 <= t -> (i < n)%nat -> elected n g t i ->
  ballots g !! (i, t) = Some (Z.of_nat i) -> agrees (Lg g) l -> terms_le t l ->
  l !! O = Some (mkEntry 0 None) ->
  frame i g (crown g i t l) /\ ghost_inv n (crown g i t l).
Proof.
  intros Hg Hnone Ht Hlt Hel Hb Hag Hterms Hfirst.
  assert (Hnil : Lg g t = []).
  { destruct (decide (Lg g t = [])) as [|Hne]; [done|]. destruct (gi_some _ _ Hg t Hne) as [?|[? ?]]; [lia|congruence]. }
  assert (He : ext g (crown g i t l)).
  { split; [done|by apply insert_subseteq|]. intros t'. cbn [Lg crown]. case_decide as Heq; [|done].
    rewrite Heq, Hnil. apply prefix_nil. }
  split.
  - split; [done|done| |]; cbn [led Lg crown].
    + intros t' j Hj. destruct (decide (t' = t)) as [->|]; [rewrite lookup_insert_eq; congruence|].
      by rewrite lookup_insert_ne.
    + intros t' j Hj Hl. case_decide; [congruence|done].
  - split; cbn [led Lg crown ballots].
    + intros t' j. destruct (decide (t' = t)) as [->|].
      * rewrite lookup_insert_eq. intros [= <-]. by split_and!.
      * rewrite lookup_insert_ne by done. apply (gi_led _ _ Hg).
    + intros t'. eapply agrees_ext; [apply He|]. case_decide; [done|apply (gi_agrees _ _ Hg)].
    + intros t'. case_decide as Heq; [by rewrite Heq|apply (gi_terms _ _ Hg)].
    + intros t' Hne. destruct (decide (t' = t)) as [->|]; [right; by rewrite lookup_insert_eq|].
      rewrite lookup_insert_ne by done. by apply (gi_some _ _ Hg).
    + case_decide; [lia|apply (gi_zero _ _ Hg)].
    + intros t' x. case_decide; [congruence|apply (gi_first _ _ Hg)].
Qed.

Lemma return_vote_stepped g c k r env args reply rf sent rf' b :
  inv n g c -> net c !! k = Some r -> awaited r = true -> what r = VoteRet args reply ->
  up c (caller r) = Some (rf, sent) -> handleVoteReply env args reply rf = Some (rf', b) ->
  stepped n g c (caller r) (set_up c (caller r) rf' sent (remove k (net c))).
Proof.
  intros Hi Hk Haw Hw Hu Ha. pose proof (up_inv_of _ _ _ _ _ _ Hi Hu) as Hup.
  destruct (rpc_of _ _ _ _ Hi Hk) as (Hne & Hlt & Hlt2 & Hc). rewrite Hw in Hc. destruct Hc as (_ & Hc2 & Hc3 & Hc4).
  pose proof (keys_remove_sub _ _ _ Hk) as Hks.
  destruct (handleVoteReply_spec _ _ _ _ _ _ _ (up_ok _ _ _ _ _ Hup) Ha) as [->| |].
  { destruct Hup as [[] ? ? ? ? ? ? ?]. apply (quiet_stepped g c _ rf sent); try done. by apply (net_remove g). }
  { pose proof Hup as [[] _ Hc0 Ha0 [Hli _] _ _ _]. injection Hi0 as I1 I2 I3 I4.
    eapply follow_stepped; try done; try congruence; [|intros He; by eapply net_remove].
    apply (log_inv_term g rf); [done|done|lia]. }
  set (i := caller r) in *. set (v := callee r) in *. set (t := currentTerm rf) in *.
  assert (Hkey : vote_key r = Some (i, t, v)) by (unfold vote_key; by rewrite Haw, Hw, <- Hterm).
  destruct (up_cand _ _ _ _ _ Hup Hst) as (H1 & H2 & H3 & S & HS1 & HS2 & HS3).
  assert (Hv : v ∉ S).
  { intros Hin. apply (HS3 v Hin). apply elem_of_keys. exists r. split; [by eapply list_elem_of_lookup_2|done]. }
  assert (HS : forall j, j ∈ v :: S -> (j < n)%nat /\ ballots g !! (j, t) = Some (Z.of_nat i) /\
    (i, t, j) ∉ keys (remove k (net c))).
  { pose proof (inv_keys _ _ _ Hi) as Hnd. rewrite (keys_remove _ _ _ Hk), Hkey in Hnd. apply NoDup_cons in Hnd as [Hnd _].
    intros j [->|Hj]%elem_of_cons; [split_and!; [done|rewrite Hterm; by apply Hc4|done]|].
    destruct (HS3 j Hj) as (? & ? & Hno). split_and!; [done|done|]. intros Hin. apply Hno.
    eapply elem_of_submseteq; [exact Hin|exact Hks]. }
  pose proof (f_equal p_term Hpst) as P1. pose proof (f_equal p_voted Hpst) as P2. pose proof (f_equal p_log Hpst) as P3.
  unfold p_term, p_voted, p_log in P1, P2, P3. cbn [pst fst snd] in P1, P2, P3.
  pose proof Hup as [[] Hme0 Hc0 Ha0 [Hlog Hbal] _ _ _].
  assert (Hev : evolves rf rf' []) by (apply evolves_quiet; congruence).
  destruct Hcase as [[Hst' [= I1 I2 I3 I4]]|(Hst' & Hq & I1 & I2 & I4 & I3 & Hnx)].
  - eapply (section_inv n g g _ _ rf sent _ _ []); try done.
    + apply (inv_ghost _ _ _ Hi).
    + by rewrite Hpst.
    + apply grows_same. congruence.
    + intros He. split; try congruence. intros _. unfold cand_inv. rewrite P1, P2, Hcount.
      split_and!; [done|done|done|]. exists (v :: S). split_and!; [by apply NoDup_cons|simpl; lia|].
      intros j Hj. destruct (HS j Hj) as (? & Hb & ?). split_and!; [done|eapply lookup_weaken; [exact Hb|apply He]|done].
    + intros He. by eapply net_remove.
    + eapply submseteq_NoDup; [exact Hks|]. apply (inv_keys _ _ _ Hi).
    + intros j t' v' _ Hin. by eapply elem_of_submseteq.
  - assert (Hel : elected n g t i).
    { exists (v :: S). split_and!; [by apply NoDup_cons| |].
      - rewrite ok_peers in Hq. simpl. lia.
      - intros j Hj. by destruct (HS j Hj) as (? & ? & _). }
    assert (Hnone : led g !! t = None).
    { destruct (led g !! t) as [j|] eqn:Hj; [|done]. destruct (gi_led _ _ (inv_ghost _ _ _ Hi) _ _ Hj) as (_ & _ & Hel' & _).
      destruct H3. change (led g !! t = Some i). rewrite Hj. f_equal. by apply (elected_unique g t). }
    assert (Hself : ballots g !! (i, t) = Some (Z.of_nat i)).
    { pose proof (bi_now _ _ _ Hbal) as Hb. unfold p_term, p_voted in Hb. cbn [pst fst snd] in Hb.
      rewrite H2, (proj2 (Z.eqb_neq _ _)) in Hb by lia. exact Hb. }
    destruct (crown_inv g i t (log rf)) as [Hf Hg]; try done;
      [apply (inv_ghost _ _ _ Hi)|apply (li_agrees _ _ Hlog)|apply (li_first _ _ Hlog)|].
    eapply (section_inv n g _ _ _ rf sent _ _ []); try done.
    + rewrite Hpst. eapply log_inv_ext; [apply Hf|done].
    + by apply grows_crown.
    + intros He. split; try congruence.
      * intros _. rewrite P3. eapply Forall_impl; [exact Hnx|]. cbn beta. intros x ->.
        pose proof (zlen_pos _ ok_log). lia.
      * intros _. rewrite P1. cbn [led Lg cast crown]. rewrite lookup_insert_eq, decide_True by done. done.
    + intros He. by eapply net_remove.
    + eapply submseteq_NoDup; [exact Hks|]. apply (inv_keys _ _ _ Hi).
    + intros j t' v' _ Hin. by eapply elem_of_submseteq.
Qed.

(** The leader's log is the log of its term. *)
Lemma leader_fits g c (r : rpc) i rf args reply :
  inv n g c -> call_inv g i (callee r) (AppendRet args reply) -> up_inv n g (keys (net c)) i rf ->
  state rf = StateLeader -> currentTerm rf = ae_Term args -> reply_fits args reply (log rf).
Proof. intros Hi [_ Hf] Hup Hst Ht. destruct (up_lead _ _ _ _ _ Hup Hst) as [_ <-]. by rewrite Ht. Qed.

(** The outcome of a replication goroutine's section, whatever the network did. *)
Lemma reply_stepped g c (r : rpc) args reply rf sent rf' net' :
  inv n g c -> up c (caller r) = Some (rf, sent) -> args_inv g (caller r) args ->
  (forall x, reply = Some x -> state rf = StateLeader -> currentTerm rf = ae_Term args -> reply_fits args x (log rf)) ->
  reply_step n (callee r) args reply rf rf' ->
  (forall g', ext g g' -> Forall (rpc_inv n g') net') -> keys net' ⊆+ keys (net c) ->
  stepped n g c (caller r) (set_up c (caller r) rf' sent net').
Proof.
  intros Hi Hu Hargs Hfits Hstep Hnet Hks. pose proof (up_inv_of _ _ _ _ _ _ Hi Hu) as [[] Hme0 Hc0 Ha0 [Hli _] _ _ _].
  assert (Hg : Forall (rpc_inv n g) net') by (by apply Hnet).
  destruct Hstep as [Hcore Hi0|ws Hev Hlt Hlog Hst Hi0|next m Hst Hterm (x & -> & Hs) Hcore Hnx Hm Hnext Hmatch Hla Hcommit
    |x Hst Hterm Hs Hcore Hx Hnext (R1 & R2 & R3)].
  - injection Hi0 as I1 I2 I3 I4. apply (quiet_stepped g c _ rf sent); try done; try congruence.
    destruct Hcore as (Hp & Hst & _). apply (f_equal p_log) in Hp. unfold p_log in Hp. cbn [pst snd] in Hp.
    by rewrite Hst, Hp, I3.
  - injection Hi0 as I1 I2 I3 I4. eapply follow_stepped; try done; try congruence; [|by apply Hnet].
    apply (log_inv_term g rf); [done|done|lia].
  - pose proof (Hfits _ eq_refl Hst Hterm) as Hf. unfold reply_fits in Hf. rewrite Hs in Hf.
    apply (quiet_stepped g c _ rf sent); try done; try congruence.
    + by rewrite Hnext, length_insert.
    + by rewrite Hmatch, length_insert.
    + destruct Hcommit as [->|[? _]]; lia.
    + intros _. destruct Hcore as (Hp & _). apply (f_equal p_log) in Hp. unfold p_log in Hp. cbn [pst snd] in Hp.
      rewrite Hnext, Hp. apply Forall_insert; [by apply ok_leader|].
      pose proof (Forall_lookup_1 _ _ _ _ (ok_leader Hst) Hnx). cbn beta in *. lia.
  - apply (quiet_stepped g c _ rf sent); try done; try congruence.
    + by rewrite Hnext, length_insert.
    + intros _. destruct Hcore as (Hp & _). apply (f_equal p_log) in Hp. unfold p_log in Hp. cbn [pst snd] in Hp.
      rewrite Hnext, Hp. apply Forall_insert; [by apply ok_leader|done].
Qed.

Lemma abandon_net g c k r :
  inv n g c -> net c !! k = Some r ->
  (forall g', ext g g' -> Forall (rpc_inv n g') (<[k := abandon r]> (net c))) /\
  keys (<[k := abandon r]> (net c)) ⊆+ keys (net c).
Proof.
  intros Hi Hk. split; [|by apply sublist_submseteq, keys_abandon].
  intros g' He. apply Forall_insert; [by eapply net_ext|].
  exact (rpc_inv_ext _ _ _ _ He (rpc_of _ _ _ _ Hi Hk)).
Qed.

(** ** The other steps *)

Lemma send_stepped g c i j rf sent args :
  inv n g c -> up c i = Some (rf, sent) -> i <> j -> (j < n)%nat ->
  buildAppendEntries (Z.of_nat j) rf = Some (Some args) ->
  stepped n g c i (set_up c i rf sent (mkRpc i j true (AppendCall args) :: net c)).
Proof.
  intros Hi Hu Hne Hj Hb. pose proof (up_inv_of _ _ _ _ _ _ Hi Hu) as Hup.
  assert (Hin : (i < n)%nat) by (rewrite <- (inv_n _ _ _ Hi); eapply lookup_lt_Some, up_lookup, Hu).
  assert (Hst : state rf = StateLeader).
  { unfold buildAppendEntries in Hb. case_match eqn:Hst; [done|]. by apply negb_false_iff, bool_decide_eq_true in Hst. }
  destruct Hup as [Hok Hme0 Hc0 Ha0 [Hli _] _ _ Hlead]. destruct (Hlead Hst) as [Hld HL].
  destruct (buildAppendEntries_spec n rf j Hok Hst Hj) as (next & e & _ & Hr & He & Hb').
  rewrite Hb' in Hb. injection Hb as <-.
  apply (quiet_stepped g c _ rf sent); try done; try apply Hok.
  constructor; [|apply (inv_net _ _ _ Hi)]. split_and!; [done|done|done|].
  split_and!; cbn [ae_Term PrevLogIndex LeaderCommit PrevLogTerm Entries]; [done|lia|done|].
  exists (log rf), e. split_and!; [by rewrite HL|done|done|]. f_equal. lia.
Qed.

Lemma extend_inv (g : ghost) i t (l : list LogEntry) (e : LogEntry) :
  ghost_inv n g -> led g !! t = Some i -> Lg g t = l -> Term e = t -> agrees (Lg g) l -> terms_le t l ->
  l !! O = Some (mkEntry 0 None) ->
  frame i g (extend g t (l ++ [e])) /\ ghost_inv n (extend g t (l ++ [e])) /\
  agrees (Lg (extend g t (l ++ [e]))) (l ++ [e]) /\ terms_le t (l ++ [e]).
Proof.
  intros Hg Hld HL Ht Hag Hterms Hfirst. destruct (gi_led _ _ Hg _ _ Hld) as (Ht1 & _).
  assert (He : ext g (extend g t (l ++ [e]))).
  { split; [done|done|]. intros t'. cbn [Lg extend]. case_decide as Heq; [|done]. rewrite Heq, HL. by apply prefix_app_r. }
  assert (Ha : agrees (Lg (extend g t (l ++ [e]))) (l ++ [e])).
  { intros k x [Hx|[Hlen Hx]]%lookup_app_Some.
    - rewrite take_app_le by (by apply lookup_lt_Some in Hx). by apply (agrees_ext _ _ _ (ext_Lg _ _ He) Hag).
    - apply list_lookup_singleton_Some in Hx as [_ ->]. cbn [Lg extend]. rewrite decide_True by done. done. }
  assert (Hl : terms_le t (l ++ [e])) by (apply Forall_app; split; [done|apply Forall_singleton; lia]).
  split_and!; try done.
  - split; [done|done|done|]. intros t' j Hj Hl'. cbn [Lg extend]. case_decide; [congruence|done].
  - split; cbn [led Lg extend ballots].
    + intros t' j. apply (gi_led _ _ Hg).
    + intros t'. destruct (decide (t' = t)); [exact Ha|]. eapply agrees_ext; [apply He|apply (gi_agrees _ _ Hg)].
    + intros t'. case_decide as Heq; [by rewrite Heq|apply (gi_terms _ _ Hg)].
    + intros t' Hne. destruct (decide (t' = t)) as [->|]; [right; by rewrite Hld|]. by apply (gi_some _ _ Hg).
    + case_decide; [lia|apply (gi_zero _ _ Hg)].
    + intros t' x. case_decide; [|apply (gi_first _ _ Hg)].
      rewrite lookup_app_l by (by apply lookup_lt_Some in Hfirst). congruence.
Qed.

Lemma client_stepped g c i env cmd rf sent res :
  inv n g c -> up c i = Some (rf, sent) -> Start env cmd rf = Some res ->
  stepped n g c i (set_up c i (snd res) sent (net c)).
Proof.
  intros Hi Hu Hs%Start_inv. pose proof (up_inv_of _ _ _ _ _ _ Hi Hu) as Hup.
  destruct (decide (state rf = StateLeader)) as [Hst|Hst].
  - destruct res as [answer rf']. cbn [fst snd] in Hs |- *. destruct Hs as (_ & Hev & Hp & Hst' & [= I1 I2 I3 I4] & Hv).
    destruct Hup as [[] Hme0 Hc0 Ha0 [Hli _] _ _ Hlead]. destruct (Hlead Hst) as [Hld HL].
    destruct (extend_inv g i (currentTerm rf) (log rf) (mkEntry (currentTerm rf) (Some cmd))) as (Hf & Hg & Ha & Ht); try done;
      [apply (inv_ghost _ _ _ Hi)|apply (li_agrees _ _ Hli)|apply (li_first _ _ Hli)|].
    pose proof (f_equal p_term Hp) as P1. pose proof (f_equal p_log Hp) as P3.
    unfold p_term, p_log in P1, P3. cbn [pst fst snd] in P1, P3.
    eapply (section_inv n g _ _ _ rf sent _ _ _ _ Hi Hu Hev Hf); try done.
    + rewrite Hp. split; unfold p_log, p_term; cbn [fst snd]; [|done|done|done].
      pose proof (li_first _ _ Hli) as Hfirst. unfold p_log in Hfirst. cbn [snd pst] in Hfirst.
      rewrite lookup_app_l by (by apply lookup_lt_Some in Hfirst). exact Hfirst.
    + by apply grows_extend.
    + intros He. split; try congruence.
      * intros _. rewrite P3, I3. eapply Forall_impl; [by apply ok_leader|]. cbn beta. intros x.
        rewrite zlen_app. pose proof (zlen_nonneg [mkEntry (currentTerm rf) (Some cmd)]). lia.
      * intros _. rewrite P1, P3. cbn [led Lg cast extend]. by rewrite decide_True.
    + intros He. by eapply net_ext.
    + apply (inv_keys _ _ _ Hi).
  - subst res. cbn [snd]. destruct Hup as [[] ? ? ? ? ? ? ?].
    apply (quiet_stepped g c _ rf sent); try done. apply (inv_net _ _ _ Hi).
Qed.

Lemma apply_turn_core fuel (rf : Raft) msgs rf' :
  apply_turn fuel rf = Some (msgs, rf') ->
  same_core rf rf' /\ commitIndex rf' = commitIndex rf /\ nextIndex rf' = nextIndex rf /\
  matchIndex rf' = matchIndex rf /\ lastApplied rf <= lastApplied rf'.
Proof.
  revert rf msgs. induction fuel as [|fuel IH]; intros rf msgs; cbn [apply_turn].
  { intros [= <- <-]. by split_and!. }
  destruct (lastApplied rf <? commitIndex rf); [|intros [= <- <-]; by split_and!].
  destruct (znth _ _) as [e|]; [|done]. cbn [mbind option_bind].
  destruct (apply_turn fuel _) as [[ms rf1]|] eqn:Hap; [|done]. cbn [mbind option_bind]. intros [= <- ->].
  destruct (IH _ _ Hap) as (Hcore & H1 & H2 & H3 & H4). cbn [lastApplied set_lastApplied] in H4.
  split_and!; [exact Hcore|done|done|done|lia].
Qed.

Lemma apply_stepped g c i rf sent msgs rf' :
  inv n g c -> up c i = Some (rf, sent) -> applyLoop_turn rf = Some (msgs, rf') ->
  stepped n g c i (set_up c i rf' (sent ++ msgs) (net c)).
Proof.
  intros Hi Hu (Hcore & H1 & H2 & H3 & H4)%apply_turn_core.
  pose proof (up_inv_of _ _ _ _ _ _ Hi Hu) as [[] Hme0 Hc0 Ha0 [Hli _] _ _ _].
  apply (quiet_stepped g c _ rf sent); try done; try congruence; [lia| |apply (inv_net _ _ _ Hi)].
  destruct Hcore as (Hp & Hst & _). apply (f_equal p_log) in Hp. unfold p_log in Hp. cbn [pst snd] in Hp.
  by rewrite Hst, Hp, H2.
Qed.

Lemma deliver_stepped g c k env c' :
  inv n g c -> act_deliver k env c = Some c' -> exists r, net c !! k = Some r /\ stepped n g c (callee r) c'.
Proof.
  intros Hi. unfold act_deliver. destruct (net c !! k) as [r|] eqn:Hk; [|done]. cbn [mbind option_bind].
  destruct (up c (callee r)) as [[rf sent]|] eqn:Hu; [|done]. cbn [mbind option_bind].
  destruct (what r) as [args| |args|] eqn:Hw; try done; intros Ha; exists r; (split; [done|]).
  - destruct (RequestVote env args rf) as [[reply rf']|] eqn:Hr; [|done]. injection Ha as <-.
    by eapply deliver_vote_stepped.
  - destruct (AppendEntries env args rf) as [[reply rf']|] eqn:Hr; [|done]. injection Ha as <-.
    by eapply deliver_append_stepped.
Qed.

Lemma return_stepped g c k env c' :
  inv n g c -> act_return k env c = Some c' -> exists r, net c !! k = Some r /\ stepped n g c (caller r) c'.
Proof.
  intros Hi. unfold act_return. destruct (net c !! k) as [r|] eqn:Hk; [|done]. cbn [mbind option_bind].
  destruct (up c (caller r)) as [[rf sent]|] eqn:Hu; [|done]. cbn [mbind option_bind].
  destruct (awaited r) eqn:Haw; [|done].
  destruct (what r) as [|args reply| |args reply] eqn:Hw; try done; intros Ha; exists r; (split; [done|]).
  - destruct (handleVoteReply env args reply rf) as [[rf' b]|] eqn:Hr; [|done]. injection Ha as <-.
    by eapply return_vote_stepped.
  - destruct (handleAppendReply _ _ _ _ _) as [[rf' b]|] eqn:Hr; [|done]. injection Ha as <-.
    pose proof (up_inv_of _ _ _ _ _ _ Hi Hu) as Hup.
    destruct (rpc_of _ _ _ _ Hi Hk) as (_ & _ & Hlt & Hc). rewrite Hw in Hc.
    assert (Hfits : forall x, Some reply = Some x -> state rf = StateLeader -> currentTerm rf = ae_Term args ->
      reply_fits args x (log rf)) by (intros x [= <-] Hst Ht; by eapply leader_fits).
    apply (handleAppendReply_inv n) in Hr; [|apply Hup|done|apply Hup|done|done].
    rename Hr into Hstep. eapply reply_stepped; try done; [apply Hc| |].
    + intros g' He. by eapply net_remove.
    + by eapply keys_remove_sub.
Qed.

Lemma giveup_stepped g c k env c' :
  inv n g c -> act_giveup k env c = Some c' -> exists r, net c !! k = Some r /\ stepped n g c (caller r) c'.
Proof.
  intros Hi. unfold act_giveup. destruct (net c !! k) as [r|] eqn:Hk; [|done]. cbn [mbind option_bind].
  destruct (up c (caller r)) as [[rf sent]|] eqn:Hu; [|done]. cbn [mbind option_bind].
  destruct (awaited r) eqn:Haw; [|done]. intros Ha. exists r. split; [done|].
  pose proof (up_inv_of _ _ _ _ _ _ Hi Hu) as Hup. destruct (abandon_net _ _ _ _ Hi Hk) as [Hnet Hks].
  destruct (rpc_of _ _ _ _ Hi Hk) as (_ & _ & Hlt & Hc).
  assert (Hquiet : forall rf', same_core rf rf' -> indices rf' = indices rf ->
    stepped n g c (caller r) (set_up c (caller r) rf' sent (<[k := abandon r]> (net c)))).
  { intros rf' Hcore [= I1 I2 I3 I4]. destruct Hup as [[] ? ? ? ? ? ? ?].
    apply (quiet_stepped g c _ rf sent); try done; try congruence; [|by apply Hnet].
    destruct Hcore as (Hp & Hst & _). apply (f_equal p_log) in Hp. unfold p_log in Hp. cbn [pst snd] in Hp.
    by rewrite Hst, Hp, I3. }
  destruct (what r); injection Ha as <-; by apply Hquiet.
Qed.

Lemma same_stepped g c i rf sent :
  inv n g c -> up c i = Some (rf, sent) -> stepped n g c i (set_up c i rf sent (net c)).
Proof.
  intros Hi Hu. pose proof (up_inv_of _ _ _ _ _ _ Hi Hu) as [[] ? ? ? ? ? ? ?].
  apply (quiet_stepped g c _ rf sent); try done. apply (inv_net _ _ _ Hi).
Qed.

Lemma act_stepped g c a c' :
  inv n g c -> act a c = Some c' -> exists i, actor a c = Some i /\ stepped n g c i c'.
Proof.
  intros Hi. destruct a as [i env|i env|i env cmd|i j|k env|k env|k env|i]; cbn [act actor].
  - intros ([rf sent] & Hu & Ha)%bind_Some. apply bind_Some in Ha as ([args rf'] & Ht & <-%(inj Some)).
    exists i. split; [done|]. apply ticker_turn_spec in Ht. destruct args as [args|]; [by eapply elect_stepped|].
    subst rf'. by eapply same_stepped.
  - intros ([rf sent] & Hu & Ha)%bind_Some. apply bind_Some in Ha as ([args rf'] & Ht & <-%(inj Some)).
    exists i. split; [done|]. eapply elect_stepped; [done|done|]. by eapply DebugForceElection_spec.
  - intros ([rf sent] & Hu & Ha)%bind_Some. apply bind_Some in Ha as (res & Hs & <-%(inj Some)).
    exists i. split; [done|]. by eapply client_stepped.
  - unfold act_send. intros ([rf sent] & Hu & Ha)%bind_Some. case_bool_decide as Hij; [|done].
    rewrite (inv_n _ _ _ Hi) in Hij. destruct Hij as [Hij Hj]. apply bind_Some in Ha as ([args|] & Hb & <-%(inj Some)).
    + exists i. split; [done|]. by eapply send_stepped.
    + exists i. split; [done|]. replace c with (set_up c i rf sent (net c)) at 2; [by eapply same_stepped|].
      unfold set_up. rewrite list_insert_id by (by apply up_lookup). by destruct c.
  - intros (r & -> & Hs)%(deliver_stepped g); [|done]. exists (callee r). by split.
  - intros (r & -> & Hs)%(return_stepped g); [|done]. exists (caller r). by split.
  - intros (r & -> & Hs)%(giveup_stepped g); [|done]. exists (caller r). by split.
  - intros ([rf sent] & Hu & Ha)%bind_Some. apply bind_Some in Ha as ([msgs rf'] & Ht & <-%(inj Some)).
    exists i. split; [done|]. by apply apply_stepped with rf.
Qed.

(** ** Crashes and restarts *)

Lemma orphan_net g g' c i : inv n g c -> ext g g' -> Forall (rpc_inv n g') (orphan i <$> net c).
Proof.
  intros Hi He. apply Forall_fmap. eapply Forall_impl; [by eapply net_ext|]. intros r Hr.
  unfold orphan. cbn. case_decide; exact Hr.
Qed.

Lemma orphan_keys (l : list rpc) i : keys (orphan i <$> l) `sublist_of` keys l.
Proof. apply keys_sub. intros r. unfold orphan. case_decide; [by right|by left]. Qed.

Lemma crash_inv g g' c i f p :
  inv n g c -> frame i g g' -> ghost_inv n g' -> file_inv f p -> pst_inv g' i p -> inv n g' (crash_node i f c).
Proof.
  intros Hi Hf Hg Hfile Hp. pose proof (orphan_keys (net c) i) as Hsub. apply sublist_submseteq in Hsub.
  apply (inv_update n g); try done.
  - by exists p.
  - eapply orphan_net; [exact Hi|apply Hf].
  - eapply submseteq_NoDup; [exact Hsub|]. apply (inv_keys _ _ _ Hi).
  - intros j t v _ Hk. by eapply elem_of_submseteq.
Qed.

(** The file of a node that stops inside a section: what it held before, or one of
    the states that the section writes. *)
Lemma halted_cases (rf rf' : Raft) ws m :
  evolves rf rf' ws -> file_inv (file (persister rf)) (pst rf) ->
  exists w, file_inv (halted rf rf' m) w /\ ple (pst rf) w /\
    ((p_log w = log rf /\ (w = pst rf \/ p_voted w = -1)) \/ w = pst rf').
Proof.
  intros [] [Hd Hne]. unfold halted. rewrite ev_file, length_app, length_fmap.
  destruct (decide (length ws <= m)%nat) as [Hm|Hm].
  - replace (_ - _)%nat with 0%nat by lia. cbn [drop]. exists (pst rf'). split_and!; [|done|by right].
    destruct ws as [|w ws]; simpl; [by rewrite ev_last|]. split; [simpl; by rewrite gob_decode_encode, ev_last|].
    constructor; [apply gob_nonempty|]. apply Forall_app. split; [|done]. apply Forall_fmap, Forall_true.
    intros x. apply gob_nonempty.
  - rewrite drop_app_le by (rewrite length_fmap; lia). rewrite <- fmap_drop.
    replace (_ + _ - _)%nat with (length ws - m)%nat by lia.
    assert (Hall : Forall (fun b => b <> []) ((gob_encode <$> drop (length ws - m) ws) ++ file (persister rf))).
    { apply Forall_app. split; [|done]. apply Forall_fmap, Forall_true. intros x. apply gob_nonempty. }
    pose proof (Forall_drop _ (length ws - m) _ ev_writes) as Hws.
    destruct (drop (length ws - m) ws) as [|w ws'].
    + exists (pst rf). split_and!; [done|apply ple_refl|left; split; [done|by left]].
    + exists w. apply Forall_cons in Hws as [[Hple Hlog] _]. split_and!; [|done|naive_solver].
      split; [simpl; apply gob_decode_encode|exact Hall].
Qed.

Lemma log_inv_write g (rf : Raft) w :
  log_inv g (pst rf) -> ple (pst rf) w -> p_log w = log rf -> log_inv g w.
Proof.
  intros [H1 H2 H3 H4] Hple Hw. unfold p_log in H1, H3, H4; cbn [pst snd] in H1, H3, H4.
  assert (p_term (pst rf) <= p_term w) by (unfold ple in Hple; lia).
  split; rewrite ?Hw; try done; [lia|]. eapply Forall_impl; [exact H3|]. cbn beta. lia.
Qed.

Lemma up_set_up (c : cluster) i rf sent rf' sent' net' :
  up c i = Some (rf, sent) -> up (set_up c i rf' sent' net') i = Some (rf', sent').
Proof.
  intros Hu%up_lookup. unfold up, set_up. cbn [nodes]. by rewrite list_lookup_insert_eq by (by eapply lookup_lt_Some).
Qed.

(** Where a section that goes from [rf] to [rf'] stops: at its end, or before with the
    old log and without a new vote; [w] is what the file holds and [g0] the histories
    without that vote. *)
Definition at_point (g g1 : ghost) (rf rf' : Raft) (w : Z * Z * list LogEntry) (g0 : ghost) : Prop :=
  (g0 = g1 /\ w = pst rf') \/
  (g0 = g /\ p_log w = log rf /\ ple (pst rf) w /\ (w = pst rf \/ p_voted w = -1)).

Lemma crash_in_inv g g1 c i m rf rf' sent ws :
  inv n g c -> up c i = Some (rf, sent) -> evolves rf rf' ws -> frame i g g1 -> ballots g1 = ballots g ->
  ghost_inv n g1 -> log_inv g1 (pst rf') ->
  exists w g0, file_inv (halted rf rf' m) w /\ at_point g g1 rf rf' w g0 /\ ext g (cast i w g0) /\
    inv n (cast i w g0) (crash_node i (halted rf rf' m) c).
Proof.
  intros Hi Hu Hev Hf Hb Hg Hl.
  pose proof (up_inv_of _ _ _ _ _ _ Hi Hu) as [_ _ _ _ [Hl0 Hb0] Hfile _ _].
  destruct (halted_cases rf rf' ws m Hev Hfile) as (w & Hw & Hple & Hlog).
  assert (Hx : exists g0, at_point g g1 rf rf' w g0 /\ frame i g g0 /\ ballots g0 = ballots g /\ ghost_inv n g0 /\ log_inv g0 w).
  { destruct Hlog as [[Hlw Hv]| ->].
    - exists g. split_and!; [right; by split_and!|apply frame_refl|done|apply (inv_ghost _ _ _ Hi)|by apply (log_inv_write g rf)].
    - exists g1. split_and!; [by left|done..]. }
  destruct Hx as (g0 & Hat & Hf0 & Hbal & Hg0 & Hl1).
  rewrite <- Hbal in Hb0. destruct (cast_ballots g0 i _ _ Hb0 Hple) as (_ & Hbw & _).
  pose proof (frame_trans _ _ _ _ Hf0 (cast_frame g0 i _ _ Hb0 Hple)) as Hf'.
  exists w, g0. split_and!; [done|done|apply Hf'|]. apply (crash_inv g _ _ _ _ w); try done.
  - by eapply cast_ghost_inv.
  - split; [|done]. apply (log_inv_ext g0); [by eapply fr_ext, cast_frame|done].
Qed.

Lemma restart_inv g c i env f rf :
  inv n g c -> nodes c !! i = Some (Down f) -> Make env true (length (nodes c)) (Z.of_nat i) (MakePersister f) = Some rf ->
  inv n g (set_up c i rf [] (net c)).
Proof.
  intros Hi Hd Hm. pose proof (inv_nodes _ _ _ Hi i _ Hd) as (p & [Hp Hne] & [Hl Hb]).
  assert (Hin : (i < n)%nat) by (rewrite <- (inv_n _ _ _ Hi); by eapply lookup_lt_Some).
  destruct (Make_spec env (length (nodes c)) (Z.of_nat i) f p Hp Hne)
    as (rf' & Hm' & Hpst & Hst & Hf & Hpe & Hme & Hc & Ha & Hnx & Hmt).
  rewrite Hm' in Hm. injection Hm as ->. rewrite (inv_n _ _ _ Hi) in *.
  apply (inv_update n g g); try done.
  - apply (inv_ghost _ _ _ Hi).
  - rewrite <- Hpst in *. pose proof (log_inv_log _ _ Hl) as Hlog. destruct Hl. cbn [node_inv]. split; try done; try congruence; try lia.
    + split; try done; try lia; [by rewrite Hnx, length_replicate|by rewrite Hmt, length_replicate|congruence].
    + by rewrite Hf.
  - apply (inv_net _ _ _ Hi).
  - apply (inv_keys _ _ _ Hi).
Qed.

(** ** Every event *)

Lemma step_inv g e c c' : inv n g c -> step e c = Some c' -> exists g', ext g g' /\ inv n g' c'.
Proof.
  intros Hi. destruct e as [a|a m|i|i env]; cbn [step].
  - intros (i & _ & rf & s & rf' & s' & net' & g1 & ws & Hu & -> & Hev & Hf & Hb & Hg & _ & Hi' & _)%(act_stepped g); [|done].
    eexists. split; [|exact Hi']. eapply ext_trans; [apply Hf|]. eapply fr_ext, (cast_frame g1 i (pst rf)).
    + rewrite Hb. apply (up_inv_of _ _ _ _ _ _ Hi Hu).
    + apply (ev_ple _ _ _ Hev).
  - intros (i & Hact & Hs)%bind_Some. apply bind_Some in Hs as ([rf sent] & Hu & Hs).
    apply bind_Some in Hs as (c1 & Ha & Hs). apply bind_Some in Hs as ([rf1 sent1] & Hu1 & <-%(inj Some)).
    destruct (act_stepped g _ _ _ Hi Ha) as (j & Hj & rf0 & s0 & rf' & s' & net' & g1 & ws & Hu0 & -> & Hev & Hf & Hb & Hg & Hl & _).
    rewrite Hact in Hj. injection Hj as <-. rewrite Hu in Hu0. injection Hu0 as <- <-.
    rewrite (up_set_up _ _ _ _ _ _ _ Hu) in Hu1. injection Hu1 as <- <-.
    destruct (crash_in_inv g g1 c i m rf rf' sent ws Hi Hu Hev Hf Hb Hg Hl) as (w & g0 & _ & _ & He & Hi'). eauto.
  - intros ([rf sent] & Hu & <-%(inj Some))%bind_Some. exists g. split; [done|].
    pose proof (up_inv_of _ _ _ _ _ _ Hi Hu) as [].
    apply (crash_inv g _ _ _ _ (pst rf)); try done. apply (inv_ghost _ _ _ Hi).
  - intros ([|f] & Hd & Hs)%bind_Some; [done|]. apply bind_Some in Hs as (rf & Hm & <-%(inj Some)).
    exists g. split; [done|]. by eapply restart_inv.
Qed.

Lemma run_inv g es c c' : inv n g c -> run es c = Some c' -> exists g', ext g g' /\ inv n g' c'.
Proof.
  revert g c. induction es as [|e es IH]; intros g c Hi; cbn [run]; [intros <-%(inj Some); by exists g|].
  intros (c1 & Hs & Hr)%bind_Some.
  destruct (step_inv g e c c1 Hi Hs) as (g1 & He1 & Hi1). destruct (IH g1 c1 Hi1 Hr) as (g2 & He2 & Hi2).
  exists g2. split; [by eapply ext_trans|done].
Qed.

(** ** The start *)

Definition ghost0 : ghost := mkGhost ∅ ∅ (fun t => if decide (t = 0) then [mkEntry 0 None] else []).

Lemma init_inv : inv n ghost0 (init n).
Proof.
  split.
  - apply length_replicate.
  - split; cbn [led Lg ballots ghost0].
    + done.
    + intros t i e. case_decide; [|done]. intros [-> <-]%list_lookup_singleton_Some. reflexivity.
    + intros t. case_decide; subst; [|constructor]. apply Forall_singleton. simpl. lia.
    + intros t. case_decide; [by left|done].
    + by rewrite decide_True.
    + intros t e. case_decide; [|done]. by intros [_ <-]%list_lookup_singleton_Some.
  - intros i nd [-> _]%lookup_replicate. exists (0, -1, [mkEntry 0 None]). split; [by split|].
    split; [split|split]; unfold p_log, p_term, p_voted; cbn; try done.
    + apply Forall_singleton. simpl. lia.
    + intros j e [-> <-]%list_lookup_singleton_Some. reflexivity.
  - constructor.
  - constructor.
Qed.

Lemma reachable_inv (c : cluster) : reachable n c -> exists g, inv n g c.
Proof. intros [es Hr]. destruct (run_inv ghost0 es _ _ init_inv Hr) as (g & _ & Hi). by exists g. Qed.
End Safety.
