(* ===== verification/ClusterViews.v ===== *)
(** * What the events of a cluster do to one node

    Views of a cluster (who leads, what is on stable storage, which answers were
    given), how each event changes the node that it runs on, which events are
    enabled, and that an enabled section runs to its end. *)
From S2P Require Export ClusterSafety.

Section Views.
Context {Cmd : Type} `{GobLaws (Z * Z * list (LogEntry Cmd))}.
#[local] Abbreviation LogEntry := (LogEntry Cmd).
#[local] Abbreviation Raft := (Raft (Cmd := Cmd)).
#[local] Abbreviation cluster := (cluster (Cmd := Cmd)).
#[local] Abbreviation event := (event (Cmd := Cmd)).
#[local] Abbreviation pstate := (Z * Z * list LogEntry)%type.

(** Node [i] runs as the leader of term [t] with log [l]. *)
Definition leads (c : cluster) (i : nat) (t : Z) (l : list LogEntry) : Prop :=
  exists rf sent, up c i = Some (rf, sent) /\ state rf = StateLeader /\ currentTerm rf = t /\ log rf = l.

(** The term, the vote and the log that node [i] would restart with, or has. *)
Definition stable (c : cluster) (i : nat) : option pstate :=
  match nodes c !! i with
  | Some (Up rf _) => Some (pst rf)
  | Some (Down f) => disk_pst f
  | None => None
  end.

(** Node [j] answered to candidate [i] that it votes for it in term [t]. *)
Definition voted_for (c : cluster) (j i : nat) (t : Z) : Prop :=
  exists r args reply, r ∈ net c /\ caller r = i /\ callee r = j /\ what r = VoteRet args reply /\
    rv_Term args = t /\ VoteGranted reply = true.

Section Bound.
Context (n : nat) (Hn : (2 <= n)%nat).

Lemma reachable_run_inv es (c c' : cluster) :
  reachable n c -> run es c = Some c' -> exists g g', inv n g c /\ inv n g' c' /\ ext g g'.
Proof.
  intros (g & Hi)%(reachable_inv n Hn) Hr. destruct (run_inv n Hn g es c c' Hi Hr) as (g' & He & Hi').
  by exists g, g'.
Qed.

Lemma leads_inv g (c : cluster) i t l : inv n g c -> leads c i t l -> led g !! t = Some i /\ Lg g t = l.
Proof.
  intros Hi (rf & sent & Hu & Hst & <- & <-). by apply (up_lead _ _ _ _ _ (up_inv_of _ _ _ _ _ _ Hi Hu)).
Qed.

Lemma stable_inv g (c : cluster) i p : inv n g c -> stable c i = Some p -> pst_inv g i p.
Proof.
  intros Hi. unfold stable. destruct (nodes c !! i) as [[rf sent|f]|] eqn:Hnd; [| |done].
  - intros [= <-]. apply (inv_nodes _ _ _ Hi _ _ Hnd).
  - destruct (inv_nodes _ _ _ Hi _ _ Hnd) as (q & [Hd _] & Hq). congruence.
Qed.

Lemma stable_Some g (c : cluster) i : inv n g c -> (i < n)%nat -> is_Some (stable c i).
Proof.
  intros Hi Hlt. unfold stable. destruct (lookup_lt_is_Some_2 (nodes c) i) as [nd Hnd].
  { by rewrite (inv_n _ _ _ Hi). }
  rewrite Hnd. destruct nd as [rf sent|f]; [by eexists|].
  destruct (inv_nodes _ _ _ Hi _ _ Hnd) as (q & [Hd _] & Hq). rewrite Hd. by eexists.
Qed.

Lemma voted_for_inv g (c : cluster) j i t :
  inv n g c -> voted_for c j i t -> ballots g !! (j, t) = Some (Z.of_nat i).
Proof.
  intros Hi (r & args & reply & Hr & <- & <- & Hw & <- & Hgr).
  pose proof (inv_net _ _ _ Hi) as Hnet. rewrite Forall_forall in Hnet.
  destruct (Hnet r Hr) as (_ & _ & _ & Hc). rewrite Hw in Hc. by apply Hc.
Qed.

(** ** Stable storage only moves forward *)

Lemma stable_other (c : cluster) i j nd net' : j <> i -> stable (mkCluster (<[i := nd]> (nodes c)) net') j = stable c j.
Proof. intros Hj. unfold stable; cbn [nodes]. by rewrite list_lookup_insert_ne. Qed.

Lemma stable_self (c : cluster) i nd net' p :
  nodes c !! i = Some p -> stable (mkCluster (<[i := nd]> (nodes c)) net') i =
    match nd with Up rf _ => Some (pst rf) | Down f => disk_pst f end.
Proof. intros Hp%lookup_lt_Some. unfold stable; cbn [nodes]. by rewrite list_lookup_insert_eq. Qed.

Lemma step_stable g e (c c' : cluster) i p q :
  inv n g c -> step e c = Some c' -> stable c i = Some p -> stable c' i = Some q -> ple p q.
Proof.
  intros Hi. destruct e as [a|a m|j|j env]; cbn [step].
  - intros (j & _ & rf & s & rf' & s' & net' & g1 & ws & Hu & -> & Hev & _)%(act_stepped n Hn g); [|done].
    apply up_lookup in Hu. destruct (decide (i = j)) as [->|Hne].
    + unfold set_up. rewrite (stable_self _ _ _ _ _ Hu). unfold stable. rewrite Hu. intros [= <-] [= <-]. apply (ev_ple _ _ _ Hev).
    + unfold set_up. rewrite stable_other by done. intros -> [= ->]. apply ple_refl.
  - intros (j & Hact & Hs)%bind_Some. apply bind_Some in Hs as ([rf sent] & Hu & Hs).
    apply bind_Some in Hs as (c1 & Ha & Hs). apply bind_Some in Hs as ([rf1 sent1] & Hu1 & <-%(inj Some)).
    apply (act_stepped n Hn g) in Ha as (j' & Hact' & rf0 & s0 & rf' & s' & net' & g1 & ws & Hu0 & -> & Hev & _); [|done].
    assert (j' = j) as -> by congruence. rewrite Hu in Hu0. injection Hu0 as <- <-.
    pose proof (up_inv_of _ _ _ _ _ _ Hi Hu) as Hup. apply up_lookup in Hu.
    apply up_lookup in Hu1. unfold set_up in Hu1; cbn [nodes] in Hu1.
    rewrite list_lookup_insert_eq in Hu1 by (by eapply lookup_lt_Some). injection Hu1 as <- <-.
    cbn [fst]. unfold crash_node. destruct (decide (i = j)) as [->|Hne].
    + destruct (halted_cases n Hn rf rf' ws m Hev (up_file _ _ _ _ _ Hup)) as (w & [Hd _] & Hple & _).
      rewrite (stable_self _ _ _ _ _ Hu), Hd. unfold stable. rewrite Hu. by intros [= <-] [= <-].
    + rewrite stable_other by done. intros -> [= ->]. apply ple_refl.
  - intros ([rf sent] & Hu & <-%(inj Some))%bind_Some. pose proof (up_inv_of _ _ _ _ _ _ Hi Hu) as Hup. apply up_lookup in Hu.
    unfold crash_node. destruct (decide (i = j)) as [->|Hne].
    + destruct (up_file _ _ _ _ _ Hup) as [Hd _]. cbn [fst].
      rewrite (stable_self _ _ _ _ _ Hu), Hd. unfold stable. rewrite Hu. intros [= <-] [= <-]. apply ple_refl.
    + rewrite stable_other by done. intros -> [= ->]. apply ple_refl.
  - intros ([|f] & Hd & Hs)%bind_Some; [done|]. apply bind_Some in Hs as (rf & Hm & <-%(inj Some)).
    unfold set_up. destruct (decide (i = j)) as [->|Hne].
    + destruct (inv_nodes _ _ _ Hi _ _ Hd) as (p0 & [Hp Hne] & _).
      destruct (Make_spec env (length (nodes c)) (Z.of_nat j) f p0 Hp Hne) as (rf' & Hm' & Hpst & _).
      rewrite Hm' in Hm. injection Hm as ->.
      rewrite (stable_self _ _ _ _ _ Hd), Hpst. unfold stable. rewrite Hd, Hp. intros [= <-] [= <-]. apply ple_refl.
    + rewrite stable_other by done. intros -> [= ->]. apply ple_refl.
Qed.

Lemma run_stable g es (c c' : cluster) i p q :
  inv n g c -> run es c = Some c' -> (i < n)%nat -> stable c i = Some p -> stable c' i = Some q -> ple p q.
Proof.
  intros Hi Hr Hlt. revert g c p Hi Hr. induction es as [|e es IH]; intros g c p Hi; cbn [run].
  - intros <-%(inj Some). intros -> [= ->]. apply ple_refl.
  - intros (c1 & Hs & Hr)%bind_Some Hp Hq. destruct (step_inv n Hn g e c c1 Hi Hs) as (g1 & _ & Hi1).
    destruct (stable_Some g1 c1 i Hi1 Hlt) as [p1 Hp1].
    eapply ple_trans; [exact (step_stable g e c c1 i p p1 Hi Hs Hp Hp1)|exact (IH g1 c1 p1 Hi1 Hr Hp1 Hq)].
Qed.
End Bound.
End Views.
