(* ===== verification/ClusterLive.v ===== *)
(** * Progress of a cluster

    The enabled actions, no panic in an enabled action, the messages for the store
    in order, and the replication of a leader's log to a peer that answers. *)
From S2P Require Export ClusterViews.

Section Live.
Context {Cmd : Type} `{GobLaws (Z * Z * list (LogEntry Cmd))}.
#[local] Abbreviation LogEntry := (LogEntry Cmd).
#[local] Abbreviation Raft := (Raft (Cmd := Cmd)).
#[local] Abbreviation cluster := (cluster (Cmd := Cmd)).
#[local] Abbreviation call := (call (Cmd := Cmd)).
#[local] Abbreviation rpc := (rpc (Cmd := Cmd)).
#[local] Abbreviation action := (action (Cmd := Cmd)).
#[local] Abbreviation event := (event (Cmd := Cmd)).

Definition is_up (c : cluster) (i : nat) : bool := match up c i with Some _ => true | None => false end.

Definition is_call (w : call) : bool := match w with VoteCall _ | AppendCall _ => true | _ => false end.

(** The goroutine of the action exists and can take its lock. *)
Definition enabled (a : action) (c : cluster) : bool :=
  match a with
  | Tick i _ | Force i _ | Client i _ _ | Apply i => is_up c i
  | Send i j => is_up c i && bool_decide (i <> j /\ (j < length (nodes c))%nat)
  | Deliver k _ => match net c !! k with Some r => is_up c (callee r) && is_call (what r) | None => false end
  | Return k _ => match net c !! k with
                  | Some r => is_up c (caller r) && awaited r && negb (is_call (what r)) | None => false end
  | GiveUp k _ => match net c !! k with Some r => is_up c (caller r) && awaited r | None => false end
  end.

Lemma is_up_Some (c : cluster) i : is_up c i = true -> exists rf sent, up c i = Some (rf, sent).
Proof. unfold is_up. destruct (up c i) as [[rf sent]|]; [eauto|done]. Qed.

Lemma bind_is_Some {A B} (x : option A) (a : A) (f : A -> option B) :
  x = Some a -> is_Some (f a) -> is_Some (mbind f x).
Proof. by intros ->. Qed.

Lemma startElection_total env (rf : Raft) : saves env -> log rf <> [] -> is_Some (startElection env rf).
Proof.
  intros Hsv Hl. unfold startElection. cbn zeta.
  destruct (becomeCandidate_view env rf) as (B1 & _). pose proof (f_equal p_log B1) as B3. unfold p_log in B3. cbn [pst snd] in B3.
  destruct (persist_saves env (becomeCandidate env rf) Hsv) as [rf' Hper].
  destruct (persist_view env _ rf' Hper) as (_ & _ & P3 & _). rewrite Hper. cbn [mbind option_bind]. unfold voteArgs. rewrite P3, B3.
  destruct (znth_is_Some (log rf) (zlen (log rf) - 1)) as [e He]; [pose proof (zlen_pos _ Hl); lia|].
  rewrite He. cbn [mbind option_bind]. by eexists.
Qed.

Lemma DebugForceElection_total env (rf : Raft) : saves env -> log rf <> [] -> is_Some (DebugForceElection env rf).
Proof.
  intros Hsv [[args rf'] He]%(startElection_total env); [|done]. unfold DebugForceElection. rewrite He. by eexists.
Qed.

Lemma ticker_turn_total env (rf : Raft) : saves env -> log rf <> [] -> is_Some (ticker_turn env rf).
Proof.
  intros Hsv [[args rf'] He]%(startElection_total env); [|done]. unfold ticker_turn.
  destruct (negb _); [|by eexists]. destruct (_ <=? _); [|by eexists]. rewrite He. by eexists.
Qed.

Section Bound.
Context (n : nat) (Hn : (2 <= n)%nat).

Lemma up_ok_of g (c : cluster) i rf sent : inv n g c -> up c i = Some (rf, sent) -> node_ok n rf.
Proof. intros Hi Hu. apply (up_ok _ _ _ _ _ (up_inv_of _ _ _ _ _ _ Hi Hu)). Qed.

Lemma log_positive g (c : cluster) i rf sent :
  inv n g c -> up c i = Some (rf, sent) -> Forall (fun e => 0 <= Term e) (log rf).
Proof.
  intros Hi Hu. eapply Forall_impl; [apply (ok_terms _ _ (up_ok_of _ _ _ _ _ Hi Hu))|]. cbn beta. lia.
Qed.

Lemma deliver_total g (c : cluster) k r env :
  saves env -> inv n g c -> net c !! k = Some r -> is_up c (callee r) = true -> is_call (what r) = true ->
  is_Some (act (Deliver k env) c).
Proof.
  intros Hsv Hi Hk (rf & sent & Hu)%is_up_Some Hc. pose proof (up_ok_of _ _ _ _ _ Hi Hu) as Hok.
  cbn [act]. unfold act_deliver. eapply bind_is_Some; [exact Hk|]. eapply bind_is_Some; [exact Hu|]. cbn beta iota zeta.
  destruct (rpc_of n g c k r Hi Hk) as (_ & _ & _ & Hw).
  destruct (what r) as [args| |args|] eqn:Hwhat; try done.
  - destruct (RequestVote_total env args rf Hsv (ok_log _ _ Hok)) as [x Hx]. eapply bind_is_Some; [exact Hx|]. by eexists.
  - destruct (AppendEntries_spec env args rf Hsv) as (reply & rf' & ws & He & _); [apply Hw|by eapply log_positive|].
    eapply bind_is_Some; [exact He|]. by eexists.
Qed.

Lemma reply_total g (c : cluster) (r : rpc) env args reply rf sent :
  saves env -> inv n g c -> (callee r < n)%nat -> call_inv g (caller r) (callee r) (AppendRet args reply) ->
  up c (caller r) = Some (rf, sent) ->
  is_Some (handleAppendReply env (Z.of_nat (callee r)) args (Some reply) rf).
Proof.
  intros Hsv Hi Hlt Hw Hu. pose proof (up_inv_of _ _ _ _ _ _ Hi Hu) as Hup.
  destruct (handleAppendReply_spec n env (callee r) args (Some reply) rf Hsv) as (rf' & b & He & _);
    [apply Hup|exact Hn|apply (up_commit _ _ _ _ _ Hup)|exact Hlt| |rewrite He; by eexists].
  intros x [= <-] Hst Ht. by eapply (leader_fits n g c r).
Qed.

Lemma return_total g (c : cluster) k r env :
  saves env -> inv n g c -> net c !! k = Some r -> is_up c (caller r) = true -> awaited r = true -> is_call (what r) = false ->
  is_Some (act (Return k env) c).
Proof.
  intros Hsv Hi Hk (rf & sent & Hu)%is_up_Some Haw Hc. pose proof (up_ok_of _ _ _ _ _ Hi Hu) as Hok.
  cbn [act]. unfold act_return. eapply bind_is_Some; [exact Hk|]. eapply bind_is_Some; [exact Hu|]. cbn beta iota zeta.
  rewrite Haw. destruct (rpc_of n g c k r Hi Hk) as (_ & _ & Hlt & Hw).
  destruct (what r) as [|args reply| |args reply] eqn:Hwhat; try done.
  - destruct (handleVoteReply_total n env args reply rf Hsv Hok) as [x Hx]. eapply bind_is_Some; [exact Hx|]. by eexists.
  - destruct (reply_total g c r env args reply rf sent) as [x Hx]; try done.
    eapply bind_is_Some; [exact Hx|]. by eexists.
Qed.

Lemma giveup_total (c : cluster) k r env :
  net c !! k = Some r -> is_up c (caller r) = true -> awaited r = true -> is_Some (act (GiveUp k env) c).
Proof.
  intros Hk (rf & sent & Hu)%is_up_Some Haw.
  cbn [act]. unfold act_giveup. eapply bind_is_Some; [exact Hk|]. eapply bind_is_Some; [exact Hu|]. cbn beta iota zeta.
  rewrite Haw. destruct (what r); by eexists.
Qed.

Lemma send_total g (c : cluster) i j :
  inv n g c -> is_up c i = true -> i <> j -> (j < length (nodes c))%nat -> is_Some (act (Send i j) c).
Proof.
  intros Hi (rf & sent & Hu)%is_up_Some Hij Hj. pose proof (up_ok_of _ _ _ _ _ Hi Hu) as Hok.
  rewrite (inv_n _ _ _ Hi) in Hj.
  cbn [act]. unfold act_send. eapply bind_is_Some; [exact Hu|]. cbn beta iota zeta.
  rewrite bool_decide_eq_true_2 by (by rewrite (inv_n _ _ _ Hi)).
  destruct (decide (state rf = StateLeader)) as [Hst|Hst].
  - destruct (buildAppendEntries_spec n rf j Hok Hst Hj) as (next & e & _ & _ & _ & He).
    eapply bind_is_Some; [exact He|]. by eexists.
  - unfold buildAppendEntries. rewrite bool_decide_eq_false_2 by done. by eexists.
Qed.

Lemma act_total g (a : action) c :
  writes_succeed a -> inv n g c -> enabled a c = true -> (forall i, a <> Apply i) -> is_Some (act a c).
Proof.
  intros Hsv Hi Hen Hna. destruct a as [i env|i env|i env cmd|i j|k env|k env|k env|i]; cbn [enabled writes_succeed] in *.
  - apply is_up_Some in Hen as (rf & sent & Hu). pose proof (ok_log _ _ (up_ok_of _ _ _ _ _ Hi Hu)) as Hl.
    destruct (ticker_turn_total env rf Hsv Hl) as [x Hx]. cbn [act]. eapply bind_is_Some; [exact Hu|]. cbn beta iota zeta.
    eapply bind_is_Some; [exact Hx|]. by eexists.
  - apply is_up_Some in Hen as (rf & sent & Hu). pose proof (ok_log _ _ (up_ok_of _ _ _ _ _ Hi Hu)) as Hl.
    destruct (DebugForceElection_total env rf Hsv Hl) as [x Hx]. cbn [act]. eapply bind_is_Some; [exact Hu|]. cbn beta iota zeta.
    eapply bind_is_Some; [exact Hx|]. by eexists.
  - apply is_up_Some in Hen as (rf & sent & Hu). pose proof (Start_spec env cmd rf Hsv) as Hs.
    assert (exists res, Start env cmd rf = Some res) as [res Hr] by (case_decide; [destruct Hs as (rf' & Hs & _)|]; eauto).
    cbn [act]. eapply bind_is_Some; [exact Hu|]. cbn beta iota zeta. eapply bind_is_Some; [exact Hr|]. by eexists.
  - apply andb_true_iff in Hen as [Hu [Hij Hj]%bool_decide_eq_true]. by eapply send_total.
  - destruct (net c !! k) as [r|] eqn:Hk; [|done]. apply andb_true_iff in Hen as [Hu Hc]. by eapply deliver_total.
  - destruct (net c !! k) as [r|] eqn:Hk; [|done]. apply andb_true_iff in Hen as [[Hu Haw]%andb_true_iff Hc%negb_true_iff].
    by eapply return_total.
  - destruct (net c !! k) as [r|] eqn:Hk; [|done]. apply andb_true_iff in Hen as [Hu Haw]. by eapply giveup_total.
  - by destruct (Hna i).
Qed.

(** ** What the stores receive *)

(** The indices that node [i] sent to its store since it started. *)
Definition applied_inv (c : cluster) : Prop :=
  forall i rf sent, up c i = Some (rf, sent) -> CommandIndex <$> sent = seqZ 1 (lastApplied rf) /\ 0 <= lastApplied rf.

(** How a section changes what was applied. *)
Definition applies (rf rf' : Raft) (sent sent' : list (ApplyMsg Cmd)) : Prop :=
  (sent' = sent /\ lastApplied rf' = lastApplied rf) \/
  (exists msgs, applyLoop_turn rf = Some (msgs, rf') /\ sent' = sent ++ msgs).

(** A section that applies nothing; only a leader learns what its peers store. *)
Definition quiet (rf rf' : Raft) : Prop :=
  lastApplied rf' = lastApplied rf /\ (state rf <> StateLeader -> matchIndex rf' = matchIndex rf).

Lemma quiet_refl (rf : Raft) : quiet rf rf.
Proof. done. Qed.

Lemma indices_quiet (rf rf' : Raft) : indices rf' = indices rf -> quiet rf rf'.
Proof. intros [=]. by split. Qed.

Lemma reply_step_quiet peer args reply (rf rf' : Raft) :
  reply_step n peer args reply rf rf' -> quiet rf rf'.
Proof. intros []; [by apply indices_quiet|by apply indices_quiet|by split|by destruct Hrest as (_ & ? & ?)]. Qed.

Lemma append_step_quiet args reply (rf rf' : Raft) :
  append_step args reply rf rf' -> quiet rf rf'.
Proof. intros []; [by apply indices_quiet|by apply indices_quiet|by destruct Hi as (? & _ & ?)]. Qed.

Lemma vote_reply_step_quiet args reply (rf rf' : Raft) :
  vote_reply_step args reply rf rf' -> quiet rf rf'.
Proof.
  intros []; [by subst|by apply indices_quiet|].
  destruct Hcase as [[_ Hi]|(_ & _ & _ & Ha & Hm & _)]; [by apply indices_quiet|by split].
Qed.

Definition section_of (c c' : cluster) : Prop :=
  exists j rf sent rf' sent' net', up c j = Some (rf, sent) /\ c' = set_up c j rf' sent' net' /\
    applies rf rf' sent sent' /\ (state rf <> StateLeader -> matchIndex rf' = matchIndex rf).

Lemma quiet_section (c : cluster) j rf sent rf' net' :
  up c j = Some (rf, sent) -> quiet rf rf' -> section_of c (set_up c j rf' sent net').
Proof. intros Hu [Ha Hm]. exists j, rf, sent, rf', sent, net'. split_and!; [done|done|by left|done]. Qed.

Lemma deliver_section g (c : cluster) k env c' : inv n g c -> act_deliver k env c = Some c' -> section_of c c'.
Proof.
  intros Hi (r & Hk & Hs)%bind_Some. apply bind_Some in Hs as ([rf sent] & Hu & Hs). cbn beta iota zeta in Hs.
  destruct (rpc_of n g c k r Hi Hk) as (_ & _ & _ & Hw).
  destruct (what r) as [args| |args|] eqn:Hwhat; try done.
  - apply bind_Some in Hs as ([reply rf'] & Hr & <-%(inj Some)). apply quiet_section with rf; [done|].
    apply RequestVote_spec in Hr as (ws & Hv). apply indices_quiet, (vs_indices _ _ _ _ _ Hv).
  - apply bind_Some in Hs as ([reply rf'] & Hr & <-%(inj Some)). apply quiet_section with rf; [done|].
    apply AppendEntries_inv in Hr as (ws & Ha & _); [|apply Hw|by eapply log_positive]. by eapply append_step_quiet.
Qed.

Lemma return_section g (c : cluster) k env c' : inv n g c -> act_return k env c = Some c' -> section_of c c'.
Proof.
  intros Hi (r & Hk & Hs)%bind_Some. apply bind_Some in Hs as ([rf sent] & Hu & Hs). cbn beta iota zeta in Hs.
  destruct (rpc_of n g c k r Hi Hk) as (_ & _ & Hlt & Hw). destruct (awaited r); [|done].
  pose proof (up_inv_of _ _ _ _ _ _ Hi Hu) as Hup.
  destruct (what r) as [|args reply| |args reply] eqn:Hwhat; try done.
  - apply bind_Some in Hs as ([rf' b] & Hr & <-%(inj Some)). apply quiet_section with rf; [done|].
    eapply handleVoteReply_spec in Hr; [|apply Hup]. by eapply vote_reply_step_quiet.
  - apply bind_Some in Hs as ([rf' b] & Hr & <-%(inj Some)). apply quiet_section with rf; [done|].
    apply (handleAppendReply_inv n) in Hr; [|apply Hup|exact Hn|apply (up_commit _ _ _ _ _ Hup)|exact Hlt|].
    + by eapply reply_step_quiet.
    + intros x [= <-] Hst Ht. by eapply (leader_fits n g c r).
Qed.

Lemma giveup_section (c : cluster) k env c' : act_giveup k env c = Some c' -> section_of c c'.
Proof.
  intros (r & Hk & Hs)%bind_Some. apply bind_Some in Hs as ([rf sent] & Hu & Hs). cbn beta iota zeta in Hs.
  destruct (awaited r); [|done]. destruct (what r).
  1-2: apply (inj Some) in Hs as <-; by apply quiet_section with rf.
  all: apply bind_Some in Hs as ([rf' b] & [= <- <-] & <-%(inj Some)); by apply quiet_section with rf.
Qed.

Lemma act_section g a (c c' : cluster) : inv n g c -> act a c = Some c' -> section_of c c' \/ c' = c.
Proof.
  intros Hi. destruct a as [i env|i env|i env cmd|i j|k env|k env|k env|i]; cbn [act].
  - intros ([rf sent] & Hu & Ha)%bind_Some. apply bind_Some in Ha as ([args rf'] & Ht & <-%(inj Some)).
    left. apply quiet_section with rf; [done|]. apply ticker_turn_spec in Ht. cbn [snd].
    destruct args; [by apply indices_quiet, (es_indices _ _ _ Ht)|by subst].
  - intros ([rf sent] & Hu & Ha)%bind_Some. apply bind_Some in Ha as ([args rf'] & Ht & <-%(inj Some)).
    left. apply quiet_section with rf; [done|]. apply DebugForceElection_spec in Ht.
    by apply indices_quiet, (es_indices _ _ _ Ht).
  - intros ([rf sent] & Hu & Ha)%bind_Some. apply bind_Some in Ha as (res & Hs%Start_inv & <-%(inj Some)).
    left. apply quiet_section with rf; [done|]. case_decide; [|by subst].
    destruct Hs as (_ & _ & _ & _ & Hx & _). by apply indices_quiet.
  - intros ([rf sent] & Hu & Ha)%bind_Some. case_bool_decide; [|done].
    apply bind_Some in Ha as ([args|] & _ & <-%(inj Some)); [|by right]. left. by apply quiet_section with rf.
  - intros Ha. left. by eapply deliver_section.
  - intros Ha. left. by eapply return_section.
  - intros Ha. left. by eapply giveup_section.
  - intros ([rf sent] & Hu & Ha)%bind_Some. apply bind_Some in Ha as ([msgs rf'] & Ht & <-%(inj Some)).
    left. exists i, rf, sent, rf', (sent ++ msgs), (net c). split_and!; [done|done|right; by exists msgs|].
    apply (apply_turn_core n Hn) in Ht as (_ & _ & _ & Hm & _). by rewrite Hm.
Qed.

(** A turn of the apply loop continues where the last one stopped. *)
Lemma apply_turn_order fuel (rf : Raft) msgs rf' :
  apply_turn fuel rf = Some (msgs, rf') ->
  CommandIndex <$> msgs = seqZ (lastApplied rf + 1) (Z.of_nat (length msgs)) /\
  lastApplied rf' = lastApplied rf + Z.of_nat (length msgs).
Proof.
  revert rf msgs. induction fuel as [|fuel IH]; intros rf msgs; cbn [apply_turn].
  { intros [= <- <-]. split; [done|simpl; lia]. }
  destruct (lastApplied rf <? commitIndex rf); [|intros [= <- <-]; split; [done|simpl; lia]].
  intros (e & _ & Hs)%bind_Some. apply bind_Some in Hs as ([msgs1 rf1] & Ht & [= <- <-]).
  destruct (IH _ _ Ht) as [Hm Hl]. cbn [lastApplied set_lastApplied] in *.
  rewrite fmap_cons, Hm, Hl. cbn [CommandIndex length]. split; [|lia].
  rewrite (seqZ_cons (lastApplied rf + 1)) by lia. do 2 f_equal; lia.
Qed.

Lemma applied_crash (c : cluster) j f : applied_inv c -> applied_inv (crash_node j f c).
Proof.
  intros Ha i rf sent. unfold up, crash_node; cbn [nodes]. intros (nd & Hnd & Hs)%bind_Some.
  apply list_lookup_insert_Some in Hnd as [(_ & <- & _)|[_ Hnd]]; [done|].
  apply (Ha i). unfold up. by rewrite Hnd.
Qed.

Lemma applied_step g e (c c' : cluster) :
  inv n g c -> applied_inv c -> step e c = Some c' -> applied_inv c'.
Proof.
  intros Hi Ha. destruct e as [a|a m|j|j env]; cbn [step].
  - intros [(j & rf & sent & rf' & sent' & net' & Hu & -> & Happ & _)| ->]%(act_section g); [|done|done].
    intros i rf1 sent1. unfold up, set_up; cbn [nodes]. destruct (decide (i = j)) as [->|Hne].
    + apply up_lookup in Hu as Hnd. rewrite list_lookup_insert_eq by (by eapply lookup_lt_Some).
      intros [= <- <-]. destruct (Ha j rf sent Hu) as [Hs H0']. destruct Happ as [[-> ->]|(msgs & Ht & ->)]; [done|].
      apply apply_turn_order in Ht as [Hm Hl]. rewrite fmap_app, Hs, Hm, Hl.
      split; [|lia]. rewrite Z.add_comm, <- seqZ_app by lia. done.
    + rewrite list_lookup_insert_ne by done. apply Ha.
  - intros (j & Hact & Hs)%bind_Some. apply bind_Some in Hs as ([rf sent] & Hu & Hs).
    apply bind_Some in Hs as (c1 & _ & Hs). apply bind_Some in Hs as ([rf1 sent1] & _ & <-%(inj Some)).
    by apply applied_crash.
  - intros ([rf sent] & Hu & <-%(inj Some))%bind_Some. by apply applied_crash.
  - intros ([|f] & Hd & Hs)%bind_Some; [done|]. apply bind_Some in Hs as (rf & Hm & <-%(inj Some)).
    intros i rf1 sent1. unfold up, set_up; cbn [nodes]. destruct (decide (i = j)) as [->|Hne].
    + rewrite list_lookup_insert_eq by (by eapply lookup_lt_Some). intros [= <- <-].
      destruct (inv_nodes _ _ _ Hi _ _ Hd) as (p0 & [Hp Hne] & _).
      destruct (Make_spec env (length (nodes c)) (Z.of_nat j) f p0 Hp Hne)
        as (rf' & Hm' & _ & _ & _ & _ & _ & _ & Hla & _).
      rewrite Hm' in Hm. injection Hm as ->. by rewrite Hla.
    + rewrite list_lookup_insert_ne by done. apply Ha.
Qed.

Lemma applied_run es g (c c' : cluster) : inv n g c -> applied_inv c -> run es c = Some c' -> applied_inv c'.
Proof.
  revert g c. induction es as [|e es IH]; intros g c Hi Ha; cbn [run]; [by intros <-%(inj Some)|].
  intros (c1 & Hs & Hr)%bind_Some. destruct (step_inv n Hn g e c c1 Hi Hs) as (g1 & _ & Hi1).
  exact (IH g1 c1 Hi1 (applied_step g e c c1 Hi Ha Hs) Hr).
Qed.

Lemma applied_reachable (c : cluster) : reachable n c -> applied_inv c.
Proof.
  intros [es Hr]. eapply applied_run; [by apply init_inv| |exact Hr].
  intros i rf sent. unfold up, init; cbn [nodes]. intros (nd & [-> _]%lookup_replicate & ?)%bind_Some. done.
Qed.
End Bound.
End Live.
