(* ===== verification/ClusterReplicate.v ===== *)
(** * Replication reaches the leader's log

    The loop of [replicateToPeer]: a refused call moves [nextIndex] of the peer down,
    to an index that the log matching property makes strictly smaller, and an
    accepted call leaves the whole log of the leader at the peer. *)
From S2P Require Export ClusterLive.

Section Replicate.
Context {Cmd : Type} `{GobLaws (Z * Z * list (LogEntry Cmd))}.
#[local] Abbreviation LogEntry := (LogEntry Cmd).
#[local] Abbreviation Raft := (Raft (Cmd := Cmd)).
#[local] Abbreviation cluster := (cluster (Cmd := Cmd)).
#[local] Abbreviation event := (event (Cmd := Cmd)).

Lemma last_with_term_found (entries : list LogEntry) xterm fuel i r :
  last_with_term entries xterm fuel i = Some r -> r <> -1 ->
  exists e, znth entries r = Some e /\ Term e = xterm.
Proof.
  revert i. induction fuel as [|fuel IH]; intros i; cbn [last_with_term]; [by intros [= <-]|].
  destruct (0 <? i); [|by intros [= <-]]. intros (e & He & Hs)%bind_Some.
  destruct (Term e =? xterm) eqn:Ht; bool_to_prop; [|by apply (IH (i - 1))]. injection Hs as <-. by exists e.
Qed.

(** The place where a leader starts again after a refusal is not after the entry
    that was refused. *)
Lemma backNext_below Lg reply (rf : Raft) (l : list LogEntry) prev e :
  agrees Lg (log rf) -> agrees Lg l -> 0 <= prev -> znth (log rf) prev = Some e ->
  (XTerm reply = -1 /\ XLen reply <= prev) \/
  (XTerm reply <> -1 /\ XIndex reply <= prev /\
   exists e', znth l prev = Some e' /\ Term e' = XTerm reply /\ Term e' <> Term e) ->
  exists next, backNext reply rf = Some next /\ next <= prev.
Proof.
  intros Ha Hl Hp He Hcase. unfold backNext.
  destruct Hcase as [[-> Hx]|(Hx & Hxi & e' & He' & Ht & Hne)]; [by eexists|].
  rewrite (proj2 (Z.eqb_neq _ _) Hx). cbn [negb].
  destruct (last_with_term_spec (log rf) (XTerm reply) (length (log rf)) (zlen (log rf) - 1)) as (r & Hr & Hr1 & Hr2); [lia|].
  rewrite Hr. cbn [mbind option_bind]. eexists. split; [done|].
  destruct (r =? -1) eqn:Hm; bool_to_prop; cbn [negb]; [done|].
  destruct (last_with_term_found _ _ _ _ _ Hr Hm) as (x & Hxr & Hxt).
  destruct (Z_lt_le_dec r prev) as [|Hge]; [lia|]. exfalso. apply Hne.
  apply znth_Some in He as [_ He], He' as [_ He'], Hxr as [Hr0 Hxr].
  pose proof (Ha _ _ Hxr) as HA. pose proof (Hl _ _ He') as HL. rewrite Hxt in HA. rewrite Ht in HL.
  assert (Hlook : log rf !! Z.to_nat prev = l !! Z.to_nat prev).
  { rewrite <- (lookup_take_lt (log rf) (S (Z.to_nat r))), HA, lookup_take_lt by lia.
    rewrite <- (lookup_take_lt l (S (Z.to_nat prev))), HL, lookup_take_lt by lia. done. }
  congruence.
Qed.

(** ** One turn of the loop *)

Definition round (env : Env) (i j : nat) : list event :=
  [Act (Send i j); Act (Deliver 0 env); Act (Return 0 env)].

Definition rounds (env : Env) (i j : nat) (k : nat) : list event := concat (replicate k (round env i j)).

Lemma run_app (es1 es2 : list event) c : run (es1 ++ es2) c = (c' ← run es1 c; run es2 c').
Proof.
  revert c. induction es1 as [|e es1 IH]; intros c; [done|]. cbn [app run].
  destruct (step e c) as [c1|]; [|done]. cbn [mbind option_bind]. apply IH.
Qed.

Section Bound.
Context (n : nat) (Hn : (2 <= n)%nat).

(** The call reaches a peer that does not refuse the term. *)
Lemma append_step_current g args reply (rf rfj rfj' : Raft) next e0 :
  ghost_inv n g -> log_inv g (pst rf) -> log_inv g (pst rfj) ->
  1 <= next <= zlen (log rf) -> znth (log rf) (next - 1) = Some e0 ->
  args = mkAEArgs (currentTerm rf) (me rf) (next - 1) (Term e0) (drop (Z.to_nat next) (log rf)) (commitIndex rf) ->
  currentTerm rfj <= currentTerm rf -> append_step args reply rfj rfj' ->
  currentTerm rfj' = currentTerm rf /\
  ((Success reply = true /\ take (length (log rf)) (log rfj') = log rf) \/
   (Success reply = false /\ aer_Term reply = currentTerm rf /\ 2 <= next /\
    exists x, backNext reply rf = Some x /\ x <= next - 1)).
Proof.
  intros Hg Hl Hlj Hnext He0 -> Hle Hstep.
  destruct Hstep as [Hlt| Hle' Ht Hlog Hst Hs Hrt Hi Hx|e ch Hle' Ht Hst Hs Hrt Hprev Hterm Hloop _ _]; cbn in *.
  - lia.
  - split; [done|]. right.
    destruct (backNext_below (Lg g) reply rf (log rfj) (next - 1) e0) as (x & Hbx & Hxle);
      [apply (li_agrees _ _ Hl)|apply (li_agrees _ _ Hlj)|lia|done| |].
    + destruct Hx as [(-> & _ & -> & ?)|(_ & ? & ? & _ & e' & ? & ? & ?)]; [left; split; [done|lia]|right].
      split_and!; [done|lia|]. exists e'. by split_and!.
    + split_and!; [done|done| |by exists x].
      destruct (Z_lt_le_dec 1 next) as [|Hone]; [lia|]. assert (next = 1) as -> by lia. exfalso.
      pose proof (li_first _ _ Hl) as H1. pose proof (li_first _ _ Hlj) as H2. unfold p_log in H1, H2. cbn [pst snd] in H1, H2.
      apply znth_Some in He0 as [_ He0]. change (Z.to_nat (1 - 1)) with O in He0.
      destruct Hx as [(_ & _ & _ & Hlen)|(_ & _ & _ & _ & e' & He' & _ & Hne)].
      * apply lookup_lt_Some in H2. unfold zlen in Hlen. lia.
      * apply znth_Some in He' as [_ He']. change (Z.to_nat (1 - 1)) with O in He'. congruence.
  - split; [done|]. left. split; [done|].
    apply znth_Some in Hprev as [_ Hprev], He0 as [_ He0].
    assert (Htake : take (Z.to_nat next) (log rfj) = take (Z.to_nat next) (log rf)).
    { replace (Z.to_nat next) with (S (Z.to_nat (next - 1))) by lia.
      eapply (agrees_prefix (Lg g)); [apply (li_agrees _ _ Hlj)|apply (li_agrees _ _ Hl)|exact Hprev|exact He0|done]. }
    apply lookup_lt_Some in Hprev. apply lookup_lt_Some in He0.
    destruct (append_loop_agrees (Lg g) (log rfj) (log rf) (Z.to_nat next)) as (r' & ch' & Hr & Hcase);
      [apply (li_agrees _ _ Hlj)|apply (li_agrees _ _ Hl)|lia|lia|done|].
    replace (Z.of_nat (Z.to_nat next)) with (next - 1 + 1) in Hr by lia.
    rewrite Hr in Hloop. injection Hloop as -> ->.
    destruct Hcase as [(_ & -> & ?)|[_ ->]]; [done|]. by rewrite firstn_all.
Qed.

Lemma up_set_self (c : cluster) i rf sent net' x :
  up c i = Some x -> up (set_up c i rf sent net') i = Some (rf, sent).
Proof.
  destruct x. intros Hu%up_lookup. unfold up, set_up; cbn [nodes].
  rewrite list_lookup_insert_eq by (by eapply lookup_lt_Some). done.
Qed.

Lemma up_set_other (c : cluster) i j rf sent net' : j <> i -> up (set_up c i rf sent net') j = up c j.
Proof. intros Hj. unfold up, set_up; cbn [nodes]. by rewrite list_lookup_insert_ne. Qed.

Lemma up_lt g (c : cluster) i x : inv n g c -> up c i = Some x -> (i < n)%nat.
Proof. destruct x. intros Hi Hu%up_lookup. rewrite <- (inv_n _ _ _ Hi). by eapply lookup_lt_Some. Qed.

(** Peer [j] holds the log of leader [i], and the leader knows it. *)
Definition replicated (rf rfj : Raft) (j : nat) : Prop :=
  take (length (log rf)) (log rfj) = log rf /\
  exists m, matchIndex rf !! j = Some m /\ zlen (log rf) - 1 <= m.

(** The state of a leader and of a peer that does not refuse its term. *)
Definition serves (c : cluster) (i j : nat) (rf : Raft) (sent : list (ApplyMsg Cmd)) (rfj : Raft) : Prop :=
  up c i = Some (rf, sent) /\ (exists sentj, up c j = Some (rfj, sentj)) /\ i <> j /\
  state rf = StateLeader /\ currentTerm rfj <= currentTerm rf.

(** The leader's section for the answer. *)
Lemma reply_current env peer args reply (rf rfj : Raft) next m :
  node_ok n rf -> 0 <= commitIndex rf -> state rf = StateLeader -> currentTerm rf = ae_Term args ->
  aer_Term reply <= currentTerm rf -> nextIndex rf !! peer = Some next -> matchIndex rf !! peer = Some m ->
  PrevLogIndex args + zlen (Entries args) = zlen (log rf) - 1 ->
  (Success reply = true /\ take (length (log rf)) (log rfj) = log rf) \/
  (Success reply = false /\ 2 <= next /\ exists x, backNext reply rf = Some x /\ x <= next - 1) ->
  exists rf' b, handleAppendReply env (Z.of_nat peer) args (Some reply) rf = Some (rf', b) /\
    pst rf' = pst rf /\ state rf' = StateLeader /\
    (replicated rf' rfj peer \/ exists x, nextIndex rf' !! peer = Some x /\ 1 <= x < next).
Proof.
  intros Hok Hc Hst Ht Hle Hnx Hm Hlen Hcase. unfold handleAppendReply.
  rewrite bool_decide_eq_true_2 by done. rewrite Ht, Z.eqb_refl. cbn [negb orb].
  rewrite (proj2 (Z.ltb_ge _ _)) by lia.
  assert (Hp : (peer < length (nextIndex rf))%nat /\ (peer < length (matchIndex rf))%nat)
    by (split; by eapply lookup_lt_Some). destruct Hp as [Hp1 Hp2].
  destruct Hcase as [[-> Htake]|(-> & Hx & x & -> & Hxle)].
  - destruct (ackEntries_spec n peer args rf next m Hok Hn Hc Hnx Hm) as (rf' & -> & (Hps & Hs & _) & _ & _ & Hmt & _).
    exists rf', false. cbn [mbind option_bind]. split_and!; [done|done|congruence|]. left. unfold replicated.
    apply (f_equal p_log) in Hps. unfold p_log in Hps. cbn [pst snd] in Hps. rewrite Hps, Hmt.
    split; [done|]. rewrite list_lookup_insert_eq by done. eexists. split; [done|lia].
  - cbn [mbind option_bind]. rewrite zupdate_Some by (unfold zlen; lia). cbn [mbind option_bind]. rewrite Nat2Z.id.
    eexists _, true. split_and!; [done|done|done|]. right. cbn [nextIndex set_nextIndex].
    rewrite list_lookup_insert_eq by done. eexists. split; [done|]. case_match; bool_to_prop; lia.
Qed.

Lemma round_step env g (c : cluster) i j rf sent rfj :
  saves env -> inv n g c -> serves c i j rf sent rfj ->
  exists c' g' rf' rfj', run (round env i j) c = Some c' /\ inv n g' c' /\ serves c' i j rf' sent rfj' /\
    pst rf' = pst rf /\
    (replicated rf' rfj' j \/
     exists x x', nextIndex rf !! j = Some x /\ nextIndex rf' !! j = Some x' /\ 1 <= x' < x).
Proof.
  intros Hsv Hi (Hu & [sentj Huj] & Hij & Hst & Hle).
  pose proof (up_inv_of _ _ _ _ _ _ Hi Hu) as Hup. pose proof (up_inv_of _ _ _ _ _ _ Hi Huj) as Hupj.
  pose proof (up_lt _ _ _ _ Hi Huj) as Hjn. pose proof (up_ok _ _ _ _ _ Hup) as Hok.
  destruct (buildAppendEntries_spec n rf j Hok Hst Hjn) as (next & e0 & Hnx & Hnext & He0 & Hb).
  destruct (lookup_lt_is_Some_2 (matchIndex rf) j) as [m Hm]; [by rewrite (ok_match _ _ Hok)|].
  set (args := mkAEArgs _ _ _ _ _ _) in Hb.
  set (r := mkRpc i j true (AppendCall args)).
  set (c1 := set_up c i rf sent (r :: net c)).
  assert (H1 : step (Act (Send i j)) c = Some c1).
  { cbn [step act]. unfold act_send. apply bind_Some. exists (rf, sent). split; [done|]. cbn beta iota zeta.
    rewrite bool_decide_eq_true_2 by (by rewrite (inv_n _ _ _ Hi)). by apply bind_Some; exists (Some args). }
  destruct (step_inv n Hn g _ _ _ Hi H1) as (g1 & He1 & Hi1).
  destruct (AppendEntries_spec env args rfj Hsv) as (reply & rfj' & ws & Ha & Hstep & _);
    [cbn; lia|exact (log_positive n Hn g c j rfj sentj Hi Huj)|].
  set (c2 := set_up c1 j rfj' sentj (mkRpc i j true (AppendRet args reply) :: net c)).
  assert (H2 : step (Act (Deliver 0 env)) c1 = Some c2).
  { cbn [step act]. unfold act_deliver. apply bind_Some. exists r. split; [done|]. apply bind_Some. exists (rfj, sentj).
    split; [unfold c1; cbn [callee r]; by rewrite up_set_other|]. cbn beta iota zeta. apply bind_Some.
    exists (reply, rfj'). split; [exact Ha|done]. }
  destruct (step_inv n Hn g1 _ _ _ Hi1 H2) as (g2 & _ & Hi2).
  destruct (up_pst _ _ _ _ _ Hup) as [Hl _]. destruct (up_pst _ _ _ _ _ Hupj) as [Hlj _].
  destruct (append_step_current g args reply rf rfj rfj' next e0 (inv_ghost _ _ _ Hi) Hl Hlj Hnext He0 eq_refl Hle Hstep)
    as [Htj Hcase].
  destruct (reply_current env j args reply rf rfj' next m) as (rf' & b & Hr & Hpst & Hst' & Hres); try done.
  { apply (up_commit _ _ _ _ _ Hup). }
  { destruct Hstep; cbn in *; lia. }
  { cbn [args PrevLogIndex Entries]. unfold zlen in *. rewrite length_drop. lia. }
  { destruct Hcase as [?|(? & _ & ? & ?)]; [by left|by right]. }
  set (c3 := set_up c2 i rf' sent (net c)).
  assert (Hu2 : up c2 i = Some (rf, sent)).
  { unfold c2. rewrite up_set_other by done. unfold c1. by eapply up_set_self. }
  assert (H3 : step (Act (Return 0 env)) c2 = Some c3).
  { cbn [step act]. unfold act_return. apply bind_Some. eexists. split; [reflexivity|]. apply bind_Some. exists (rf, sent).
    split; [exact Hu2|]. cbn beta iota zeta. cbn [awaited what callee]. apply bind_Some. exists (rf', b). by split. }
  destruct (step_inv n Hn g2 _ _ _ Hi2 H3) as (g3 & _ & Hi3).
  exists c3, g3, rf', rfj'. split_and!; [|done| |done|].
  - unfold round. cbn [run]. rewrite H1. cbn [mbind option_bind]. rewrite H2. cbn [mbind option_bind]. rewrite H3. done.
  - split_and!; [by eapply up_set_self| |done|done|].
    + exists sentj. unfold c3. rewrite up_set_other by done. eapply up_set_self. unfold c1. by rewrite up_set_other.
    + apply (f_equal p_term) in Hpst. unfold p_term in Hpst. cbn [pst fst] in Hpst. lia.
  - destruct Hres as [?|(x & ? & ?)]; [by left|right]. by exists next, x.
Qed.

(** At most [nextIndex] turns. *)
Lemma rounds_replicate env g (c : cluster) i j rf sent rfj :
  saves env -> inv n g c -> serves c i j rf sent rfj ->
  exists k c' rf' rfj', run (rounds env i j k) c = Some c' /\ serves c' i j rf' sent rfj' /\
    pst rf' = pst rf /\ replicated rf' rfj' j /\
    exists x, nextIndex rf !! j = Some x /\ Z.of_nat k <= x.
Proof.
  intros Hsv Hi Hs. destruct (lookup_lt_is_Some_2 (nextIndex rf) j) as [x Hx].
  { destruct Hs as (Hu & [sentj Huj] & _). rewrite (ok_next _ _ (up_ok_of n _ _ _ _ _ Hi Hu)). by eapply up_lt. }
  remember (Z.to_nat x) as fuel eqn:Hf. revert g c rf rfj x Hi Hs Hx Hf.
  induction (lt_wf fuel) as [fuel _ IH]. intros g c rf rfj x Hi Hs Hx Hf.
  destruct (round_step env g c i j rf sent rfj Hsv Hi Hs) as (c1 & g1 & rf1 & rfj1 & Hr & Hi1 & Hs1 & Hp & Hcase).
  destruct Hcase as [Hdone|(y & x' & Hy & Hx' & Hlt)].
  - exists 1%nat, c1, rf1, rfj1. split_and!; try done. exists x. split; [done|].
    destruct Hs as (Hu & [sentj Huj] & _ & Hst & _). pose proof (up_ok_of n _ _ _ _ _ Hi Hu) as Hok.
    pose proof (ok_leader _ _ Hok Hst) as Hall. rewrite Forall_forall in Hall.
    specialize (Hall x (list_elem_of_lookup_2 _ _ _ Hx)). lia.
  - rewrite Hx in Hy. injection Hy as <-.
    destruct (IH (Z.to_nat x') ltac:(lia) g1 c1 rf1 rfj1 x' Hi1 Hs1 Hx' eq_refl)
      as (k & c2 & rf2 & rfj2 & Hr2 & Hs2 & Hp2 & Hdone & x2 & Hx2 & Hk).
    exists (S k), c2, rf2, rfj2. split_and!; try done; [|congruence|exists x; split; [done|]].
    + unfold rounds. cbn [replicate concat]. rewrite run_app, Hr. exact Hr2.
    + rewrite Hx' in Hx2. injection Hx2 as <-. lia.
Qed.
End Bound.
End Replicate.
