(* ===== verification/ClusterCommit.v ===== *)
(** * Commitment

    What makes an entry safe for good.  Beside the histories of [ClusterInv] the proof
    keeps how much of the log of each term every node has stored in that term
    ([held]), the log that a voter had when it voted ([vlog]), and the log that a
    candidate had when it stood ([clog]).  An entry is [chosen] when a majority has
    stored it in its own term; the leaders of all later terms have it from the start. *)
From S2P Require Export ClusterSafety.

Section Commit.
Context {Cmd : Type} `{GobLaws (Z * Z * list (LogEntry Cmd))}.
#[local] Abbreviation LogEntry := (LogEntry Cmd).
#[local] Abbreviation Raft := (Raft (Cmd := Cmd)).
#[local] Abbreviation cluster := (cluster (Cmd := Cmd)).
#[local] Abbreviation rpc := (rpc (Cmd := Cmd)).
#[local] Abbreviation ghost := (ghost (Cmd := Cmd)).
#[local] Abbreviation pstate := (Z * Z * list LogEntry)%type.
Context (n : nat).

(** ** The histories *)

Record hist := mkHist {
  held : nat -> Z -> nat;
  vlog : gmap (nat * Z) (list LogEntry);
  clog : gmap (nat * Z) (list LogEntry)
}.

(** The test of [RequestVote]. *)
Definition newer (cl l : list LogEntry) : Prop :=
  exists ec el, last cl = Some ec /\ last l = Some el /\
    (Term el < Term ec \/ (Term el = Term ec /\ (length l <= length cl)%nat)).

(** Entry [N] of the log of term [T] is of this term. *)
Definition own (g : ghost) (T : Z) (N : nat) : Prop := exists e, Lg g T !! N = Some e /\ Term e = T.

Definition majority (P : nat -> Prop) : Prop :=
  exists S : list nat, NoDup S /\ Z.of_nat n / 2 < Z.of_nat (length S) /\ forall j, j ∈ S -> (j < n)%nat /\ P j.

Definition chosen (g : ghost) (h : hist) (T : Z) (N : nat) : Prop :=
  own g T N /\ majority (fun j => (N < held h j T)%nat).

(** The log of the leader of [T] when it was elected. *)
Definition start (g : ghost) (h : hist) (T : Z) : option (list LogEntry) := i ← led g !! T; clog h !! (i, T).

(** [l] has the log of [T] up to [N]. *)
Definition has (g : ghost) (T : Z) (N : nat) (l : list LogEntry) : Prop := take (S N) l = take (S N) (Lg g T).

(** [l] has it, if all the leaders up to the term [t] started with it. *)
Definition kept (g : ghost) (h : hist) (t T : Z) (N : nat) (l : list LogEntry) : Prop :=
  (forall T' l', T < T' <= t -> start g h T' = Some l' -> has g T N l') -> has g T N l.

Record hist_inv (g : ghost) (h : hist) : Prop := {
  hi_len j T : (held h j T <= length (Lg g T))%nat;
  hi_clog i T cl : clog h !! (i, T) = Some cl -> cl <> [] /\ agrees (Lg g) cl /\ terms_le (T - 1) cl;
  hi_vlog j T' l : vlog h !! (j, T') = Some l -> agrees (Lg g) l /\
    forall T N, T < T' -> own g T N -> (N < held h j T)%nat -> kept g h (T' - 1) T N l;
  hi_led T i : led g !! T = Some i -> exists cl, clog h !! (i, T) = Some cl /\ cl `prefix_of` Lg g T /\
    majority (fun j => exists l, vlog h !! (j, T) = Some l /\ newer cl l);
  hi_cast j T : is_Some (vlog h !! (j, T)) -> is_Some (ballots g !! (j, T));
  hi_open j T i : led g !! T = None -> ballots g !! (j, T) = Some (Z.of_nat i) ->
    exists l cl, vlog h !! (j, T) = Some l /\ clog h !! (i, T) = Some cl /\ newer cl l
}.

(** ** Leaders are complete *)

Lemma own_length g T N : own g T N -> (N < length (Lg g T))%nat.
Proof. intros (e & He & _). by eapply lookup_lt_Some. Qed.

Lemma has_lookup g T N l k : has g T N l -> (k <= N)%nat -> l !! k = Lg g T !! k.
Proof. intros Hh Hk. rewrite <- (lookup_take_lt l (S N)), Hh, lookup_take_lt by lia. done. Qed.

Lemma has_length g T N l : own g T N -> has g T N l -> (N < length l)%nat.
Proof.
  intros Ho Hh. pose proof (own_length _ _ _ Ho) as Hl. apply (f_equal length) in Hh. rewrite !length_take in Hh. lia.
Qed.

Lemma has_prefix g T N l l' : own g T N -> has g T N l -> l `prefix_of` l' -> has g T N l'.
Proof. intros Ho Hh Hp. pose proof (has_length _ _ _ _ Ho Hh). unfold has. by rewrite (take_prefix l). Qed.

(** The last term of a log that has an entry of [T] is not before [T]. *)
Lemma has_last_term g T N l e :
  ghost_inv n g -> own g T N -> has g T N l -> agrees (Lg g) l -> last l = Some e -> T <= Term e.
Proof.
  intros Hg Ho Hh Ha He. pose proof (has_length _ _ _ _ Ho Hh) as Hlen. destruct Ho as (x & Hx & Ht).
  rewrite last_lookup in He. specialize (Ha _ _ He).
  assert (Hlx : l !! N = Some x) by (by rewrite (has_lookup g T N l N)).
  assert (Hux : Lg g (Term e) !! N = Some x).
  { rewrite <- (lookup_take_lt (Lg g (Term e)) (S (pred (length l)))), <- Ha, lookup_take_lt by lia. done. }
  pose proof (gi_terms _ _ Hg (Term e)) as Hterms. apply (Forall_lookup_1 _ _ _ _ Hterms) in Hux. cbn beta in Hux. lia.
Qed.

(** A candidate whose log is newer than one that has the entry has it too, if the
    leaders between have it. *)
Lemma newer_has g h T T' N cl l :
  ghost_inv n g -> own g T N -> has g T N l -> agrees (Lg g) l -> agrees (Lg g) cl -> terms_le (T' - 1) cl ->
  newer cl l -> (forall t i, T < t < T' -> led g !! t = Some i -> exists l0, start g h t = Some l0 /\ has g T N l0) ->
  (forall t l0, start g h t = Some l0 -> l0 `prefix_of` Lg g t) ->
  has g T N cl.
Proof.
  intros Hg Ho Hh Hal Hac Hcl (ec & el & Hec & Hel & Hnew) IH Hst.
  pose proof (has_last_term _ _ _ _ _ Hg Ho Hh Hal Hel) as Hle. pose proof (has_length _ _ _ _ Ho Hh) as HNl.
  rewrite last_lookup in Hec, Hel. pose proof (Hac _ _ Hec) as Hc. pose proof (Hal _ _ Hel) as Hl.
  pose proof (lookup_lt_Some _ _ _ Hec) as Hlen. rewrite take_ge in Hc by lia. rewrite take_ge in Hl by lia.
  assert (HT0 : 0 <= T).
  { destruct Ho as (x & Hx & <-). pose proof (gi_terms _ _ Hg (Term x)) as Hterms.
    apply (Forall_lookup_1 _ _ _ _ Hterms) in Hx. cbn beta in Hx. lia. }
  destruct Hnew as [Hlt|[Heq Hll]].
  - set (w := Term ec) in *. assert (Hw : T < w < T').
    { unfold terms_le in Hcl. pose proof (Forall_lookup_1 _ _ _ _ Hcl Hec). cbn beta in *. lia. }
    assert (Hlw : is_Some (led g !! w)).
    { destruct (gi_some _ _ Hg w) as [?|?]; [|lia|done]. intros Hnil. rewrite Hnil, take_nil in Hc. by subst cl. }
    destruct Hlw as [i Hi]. destruct (IH w i Hw Hi) as (l0 & Hl0 & Hh0).
    pose proof (has_prefix _ _ _ _ _ Ho Hh0 (Hst _ _ Hl0)) as HLw.
    destruct (decide (N < length cl)%nat) as [HN|HN].
    + apply (has_prefix g T N (take (S N) cl)); [done| |by apply prefix_take].
      unfold has. rewrite take_take, Nat.min_id. rewrite Hc at 1. rewrite take_take, Nat.min_l by lia. exact HLw.
    + exfalso. assert (Hx : Lg g w !! pred (length cl) = Some ec).
      { rewrite <- (lookup_take_lt (Lg g w) (S (pred (length cl)))), <- Hc by lia. exact Hec. }
      rewrite (has_lookup g T N (Lg g w)) in Hx by (done || lia).
      pose proof (gi_terms _ _ Hg T) as Hterms. apply (Forall_lookup_1 _ _ _ _ Hterms) in Hx. cbn beta in Hx. lia.
  - apply (has_prefix g T N l); [done|done|]. rewrite Hl, Heq.
    replace (take (S (pred (length l))) (Lg g (Term ec))) with (take (S (pred (length l))) cl); [by apply prefix_take|].
    rewrite Hc at 1. by rewrite take_take, Nat.min_l by lia.
Qed.

Lemma start_prefix g h T l0 : hist_inv g h -> start g h T = Some l0 -> l0 `prefix_of` Lg g T.
Proof.
  intros Hh (i & Hi & Hc)%bind_Some. destruct (hi_led _ _ Hh _ _ Hi) as (cl & Hcl & Hp & _). congruence.
Qed.

Lemma leader_complete g h T N T' i :
  (2 <= n)%nat -> ghost_inv n g -> hist_inv g h -> chosen g h T N -> led g !! T' = Some i -> T < T' ->
  exists l0, start g h T' = Some l0 /\ has g T N l0.
Proof.
  intros Hn Hg Hh (Ho & S1 & Hnd1 & Hq1 & HS1). remember (Z.to_nat (T' - T)) as k eqn:Hk. revert T' i Hk.
  induction k as [k IH] using lt_wf_ind. intros T' i -> Hl Hlt.
  assert (IH' : forall t i, T < t < T' -> led g !! t = Some i -> exists l0, start g h t = Some l0 /\ has g T N l0).
  { intros t j Ht Hj. apply (IH (Z.to_nat (t - T))) with j; [lia|done|done|lia]. }
  destruct (hi_led _ _ Hh _ _ Hl) as (cl & Hcl & _ & S2 & Hnd2 & Hq2 & HS2).
  destruct (quorums_meet n Hn S1 S2) as (v & Hv1 & Hv2); [done|done|by intros j Hj; apply HS1|by intros j Hj; apply HS2|done|done|].
  destruct (HS1 v Hv1) as [_ Hheld]. destruct (HS2 v Hv2) as (_ & l & Hvl & Hnew).
  destruct (hi_vlog _ _ Hh _ _ _ Hvl) as [Hal Hkept]. destruct (hi_clog _ _ Hh _ _ _ Hcl) as (_ & Hac & Hct).
  exists cl. split; [unfold start; by rewrite Hl|].
  apply (newer_has g h T T' N cl l); try done.
  - apply (Hkept T N Hlt Ho Hheld). intros t l' Ht Hst. apply bind_Some in Hst as (j & Hj & Hst).
    destruct (IH' t j) as (l0 & Hl0 & Hhas); [lia|done|]. unfold start in Hl0. rewrite Hj in Hl0. cbn [mbind option_bind] in Hl0. congruence.
  - intros t l0. by apply start_prefix.
Qed.

(** Hence the leaders of later terms have a chosen entry for good. *)
Lemma chosen_has g h T N T' i :
  (2 <= n)%nat -> ghost_inv n g -> hist_inv g h -> chosen g h T N -> led g !! T' = Some i -> T <= T' -> has g T N (Lg g T').
Proof.
  intros Hn Hg Hh Hc Hl Hle. destruct (decide (T = T')) as [->|Hne]; [done|].
  destruct (leader_complete g h T N T' i) as (l0 & Hs & Hhas); try done; [lia|].
  apply (has_prefix g T N l0); [apply Hc|done|]. by apply (start_prefix g h).
Qed.

(** Two chosen entries are in one log. *)
Lemma chosen_agree g h T N T' N' :
  (2 <= n)%nat -> ghost_inv n g -> hist_inv g h -> chosen g h T N -> chosen g h T' N' -> T <= T' -> has g T N (Lg g T').
Proof.
  intros Hn Hg Hh Hc (Ho & _) Hle. destruct (decide (T = T')) as [->|Hne]; [done|].
  destruct Hc as [Hc Hq]. assert (Hpos : 0 <= T).
  { destruct Hc as (x & Hx & <-). pose proof (gi_terms _ _ Hg (Term x)) as Hterms.
    apply (Forall_lookup_1 _ _ _ _ Hterms) in Hx. cbn beta in Hx. lia. }
  destruct (gi_some _ _ Hg T') as [?|[i Hi]]; [|lia|by apply (chosen_has g h T N T' i)].
  intros Hnil. destruct Ho as (e & He & _). by rewrite Hnil in He.
Qed.
(** ** The invariant *)

(** The first [c] entries after the first one are committed for good. *)
Definition settled (g : ghost) (h : hist) (t : Z) (l : list LogEntry) (c : Z) : Prop :=
  c = 0 \/ exists T N, chosen g h T N /\ T <= t /\ c <= Z.of_nat N /\
    take (S (Z.to_nat c)) l = take (S (Z.to_nat c)) (Lg g T).

(** The messages for the first [k] entries of a log. *)
Definition delivered (l : list LogEntry) (k : Z) : list (ApplyMsg Cmd) :=
  imap (fun j e => mkApplyMsg true (Command e) (Z.of_nat (S j))) (take (Z.to_nat k) (tail l)).

(** The persistent state of node [i]. *)
Record held_inv (g : ghost) (h : hist) (i : nat) (p : pstate) : Prop := {
  he_term T : (0 < held h i T)%nat -> T <= p_term p;
  he_vote T : is_Some (vlog h !! (i, T)) -> T <= p_term p;
  he_clog T : is_Some (clog h !! (i, T)) -> T <= p_term p;
  he_kept T N : own g T N -> (N < held h i T)%nat -> kept g h (p_term p) T N (p_log p)
}.

Record up_commit (g : ghost) (h : hist) (i : nat) (rf : Raft) (sent : list (ApplyMsg Cmd)) : Prop := {
  uc_held : held_inv g h i (pst rf);
  uc_cand : state rf = StateCandidate -> clog h !! (i, currentTerm rf) = Some (log rf);
  uc_self : state rf = StateLeader -> held h i (currentTerm rf) = length (log rf);
  uc_match j m : state rf = StateLeader -> matchIndex rf !! j = Some m -> j <> i -> 0 < m ->
    m < Z.of_nat (held h j (currentTerm rf));
  uc_settled : settled g h (currentTerm rf) (log rf) (commitIndex rf);
  uc_applied : lastApplied rf <= commitIndex rf;
  uc_sent : sent = delivered (log rf) (lastApplied rf)
}.

Definition node_commit (g : ghost) (h : hist) (i : nat) (nd : node) : Prop :=
  match nd with
  | Up rf sent => up_commit g h i rf sent
  | Down f => exists p, file_inv f p /\ held_inv g h i p
  end.

Definition call_commit (g : ghost) (h : hist) (r : rpc) : Prop :=
  match what r with
  | VoteCall args => exists cl e, clog h !! (caller r, rv_Term args) = Some cl /\ last cl = Some e /\
      LastLogTerm args = Term e /\ LastLogIndex args = zlen cl - 1
  | VoteRet _ _ => True
  | AppendCall args => settled g h (ae_Term args) (Lg g (ae_Term args)) (LeaderCommit args) /\
      LeaderCommit args <= PrevLogIndex args + zlen (Entries args)
  | AppendRet args reply => Success reply = true ->
      PrevLogIndex args + zlen (Entries args) < Z.of_nat (held h (callee r) (ae_Term args))
  end.

Record commit_inv (g : ghost) (h : hist) (c : cluster) : Prop := {
  ci_hist : hist_inv g h;
  ci_nodes i nd : nodes c !! i = Some nd -> node_commit g h i nd;
  ci_net : Forall (call_commit g h) (net c)
}.

(** *** How the histories grow *)

Record hext (h h' : hist) : Prop := {
  hx_held j T : (held h j T <= held h' j T)%nat;
  hx_vlog : vlog h ⊆ vlog h';
  hx_clog : clog h ⊆ clog h'
}.

(** Only those of node [i]. *)
Record hframe (i : nat) (h h' : hist) : Prop := {
  hf_ext : hext h h';
  hf_held j T : j <> i -> held h' j T = held h j T;
  hf_vlog j T : j <> i -> vlog h' !! (j, T) = vlog h !! (j, T);
  hf_clog j T : j <> i -> clog h' !! (j, T) = clog h !! (j, T)
}.

Lemma hframe_refl i h : hframe i h h.
Proof. by repeat split. Qed.

Lemma hext_trans h1 h2 h3 : hext h1 h2 -> hext h2 h3 -> hext h1 h3.
Proof. intros [A1 A2 A3] [B1 B2 B3]. split; [|by etrans..]. intros j T. specialize (A1 j T). specialize (B1 j T). lia. Qed.

Lemma hframe_trans i h1 h2 h3 : hframe i h1 h2 -> hframe i h2 h3 -> hframe i h1 h3.
Proof.
  intros [A1 A2 A3 A4] [B1 B2 B3 B4]. split; [by eapply hext_trans|..]; intros j T Hj.
  - by rewrite B2, A2.
  - by rewrite B3, A3.
  - by rewrite B4, A4.
Qed.

Section Grow.
Context (g g' : ghost) (h h' : hist) (He : ext g g') (Hx : hext h h').

Lemma Lg_lookup T N e : Lg g T !! N = Some e -> Lg g' T !! N = Some e.
Proof. intros HL. eapply prefix_lookup_Some; [exact HL|apply He]. Qed.

Lemma Lg_take T N : (N < length (Lg g T))%nat -> take (S N) (Lg g' T) = take (S N) (Lg g T).
Proof. intros HN. apply take_prefix; [apply He|lia]. Qed.

Lemma own_ext T N : own g T N -> own g' T N.
Proof. intros (e & HL & Ht). exists e. split; [by apply Lg_lookup|done]. Qed.

Lemma own_back T N : (N < length (Lg g T))%nat -> own g' T N -> own g T N.
Proof.
  intros HN (e & HL & Ht). exists e. split; [|done]. rewrite <- (lookup_take_lt _ (S N)), Lg_take, lookup_take_lt in HL by lia.
  exact HL.
Qed.

Lemma chosen_ext T N : chosen g h T N -> chosen g' h' T N.
Proof.
  intros (Ho & S & Hnd & Hq & HS). split; [by apply own_ext|]. exists S. split_and!; [done|done|].
  intros j Hj. destruct (HS j Hj) as [? Hh]. split; [done|]. pose proof (hx_held _ _ Hx j T). lia.
Qed.

Lemma has_ext T N l : own g T N -> has g T N l <-> has g' T N l.
Proof. intros Ho. unfold has. by rewrite Lg_take by (by apply own_length). Qed.

Lemma start_ext T l : start g h T = Some l -> start g' h' T = Some l.
Proof.
  intros (i & Hi & Hc)%bind_Some. apply bind_Some. exists i.
  split; [eapply lookup_weaken; [exact Hi|apply He]|eapply lookup_weaken; [exact Hc|apply Hx]].
Qed.

Lemma kept_ext t t' T N l : own g T N -> t <= t' -> kept g h t T N l -> kept g' h' t' T N l.
Proof.
  intros Ho Ht Hk Hall. apply has_ext; [done|]. apply Hk. intros T' l' HT' Hs. apply has_ext; [done|].
  apply (Hall T'); [lia|by apply start_ext].
Qed.

Lemma settled_ext t l c : settled g h t l c -> settled g' h' t l c.
Proof.
  intros [->|(T & N & Hc & Ht & Hle & Htake)]; [by left|]. right. exists T, N. split_and!; [by apply chosen_ext|done|done|].
  rewrite Htake. symmetry. apply Lg_take. pose proof (own_length _ _ _ (proj1 Hc)). lia.
Qed.

Lemma settled_Lg t c : settled g h t (Lg g t) c -> settled g h t (Lg g' t) c.
Proof.
  intros [->|(T & N & Hc & Ht & Hle & Htake)]; [by left|]. right. exists T, N. split_and!; [done|done|done|].
  rewrite <- Htake. apply take_prefix; [apply He|]. pose proof (own_length _ _ _ (proj1 Hc)) as Hl.
  apply (f_equal length) in Htake. rewrite !length_take in Htake. lia.
Qed.

Lemma call_commit_ext r : call_commit g h r -> call_commit g' h' r.
Proof.
  unfold call_commit. destruct (what r) as [args|args reply|args|args reply].
  - intros (cl & e & Hc & Hr). exists cl, e. split; [eapply lookup_weaken; [exact Hc|apply Hx]|done].
  - done.
  - intros [Hs Hle]. split; [|done]. by apply settled_ext, settled_Lg.
  - intros Hr Hs. specialize (Hr Hs). pose proof (hx_held _ _ Hx (callee r) (ae_Term args)). lia.
Qed.

Lemma held_inv_ext i p :
  (forall T, held h' i T = held h i T) -> (forall T, vlog h' !! (i, T) = vlog h !! (i, T)) ->
  (forall T, clog h' !! (i, T) = clog h !! (i, T)) ->
  (forall T, (held h i T <= length (Lg g T))%nat) -> held_inv g h i p -> held_inv g' h' i p.
Proof.
  intros Hheld Hvlog Hclog Hlen [Ht Hv Hcl Hk]. split.
  - intros T. rewrite Hheld. apply Ht.
  - intros T. rewrite Hvlog. apply Hv.
  - intros T. rewrite Hclog. apply Hcl.
  - intros T N Ho. rewrite Hheld. intros HN. pose proof (Hlen T) as Hl.
    assert (Ho' : own g T N) by (apply own_back; [lia|done]).
    apply (kept_ext (p_term p)); [done|lia|by apply Hk].
Qed.
End Grow.

(** *** One node changes *)

Lemma up_commit_ext g g' h h' i j rf sent :
  ext g g' -> hframe i h h' -> hist_inv g h -> j <> i -> up_commit g h j rf sent -> up_commit g' h' j rf sent.
Proof.
  intros He [Hx Hh Hv Hc] Hi Hj [Uh Uc Us Um Ust Ua Use]. split; try done.
  - apply (held_inv_ext g g' h h'); auto. intros T. apply (hi_len _ _ Hi).
  - intros Hst. eapply lookup_weaken; [by apply Uc|apply Hx].
  - intros Hst. rewrite Hh by done. by apply Us.
  - intros k m Hst Hm Hk Hp. specialize (Um k m Hst Hm Hk Hp). pose proof (hx_held _ _ Hx k (currentTerm rf)). lia.
  - by apply (settled_ext g g' h h').
Qed.

Lemma node_commit_ext g g' h h' i j nd :
  ext g g' -> hframe i h h' -> hist_inv g h -> j <> i -> node_commit g h j nd -> node_commit g' h' j nd.
Proof.
  intros He Hf Hi Hj. destruct nd as [rf sent|f]; cbn [node_commit]; [by apply (up_commit_ext g g' h h' i)|].
  destruct Hf as [Hx Hh Hv Hc]. intros (p & Hp & Hheld). exists p. split; [done|].
  apply (held_inv_ext g g' h h'); auto. intros T. apply (hi_len _ _ Hi).
Qed.

Lemma commit_update g g' h h' (c : cluster) i nd net' :
  commit_inv g h c -> ext g g' -> hframe i h h' -> hist_inv g' h' -> node_commit g' h' i nd ->
  Forall (call_commit g' h') net' -> commit_inv g' h' (mkCluster (<[i := nd]> (nodes c)) net').
Proof.
  intros [Hi Hnodes Hnet] He Hf Hi' Hnd Hnet'. split; [done| |done]. intros j nd' Hj. cbn [nodes] in Hj.
  destruct (decide (j = i)) as [->|Hne].
  - apply list_lookup_insert_Some in Hj as [(_ & <- & _)|[? _]]; done.
  - rewrite list_lookup_insert_ne in Hj by done. apply (node_commit_ext g g' h h' i); auto.
Qed.

Lemma net_commit g g' h h' (c : cluster) :
  commit_inv g h c -> ext g g' -> hext h h' -> Forall (call_commit g' h') (net c).
Proof. intros Hi He Hx. eapply Forall_impl; [apply (ci_net _ _ _ Hi)|]. intros r. by apply call_commit_ext. Qed.

(** ** The histories after a step *)

(** No vote is cast. *)
Lemma cast_same g i (p w : pstate) :
  ballots_inv (ballots g) i p -> (p_term w = p_term p /\ p_voted w = p_voted p) \/ p_voted w = -1 -> cast i w g = g.
Proof.
  intros [Hb _] Hw. unfold cast. destruct g as [b ld L]. cbn [ballots led Lg] in *. f_equal.
  destruct (p_voted w =? -1) eqn:Hv; [done|]. bool_to_prop. destruct Hw as [[Ht Hvw]|?]; [|done].
  rewrite Hvw, Ht. apply insert_id. rewrite Hb. rewrite Hvw in Hv. by rewrite (proj2 (Z.eqb_neq _ _) Hv).
Qed.

(** The histories of the logs grow, by a new leader or a command. *)
Lemma hist_grow g g' h :
  ext g g' -> ballots g' = ballots g -> hist_inv g h ->
  (forall T i, led g' !! T = Some i -> led g !! T = Some i \/
     exists cl, clog h !! (i, T) = Some cl /\ cl `prefix_of` Lg g' T /\
       majority (fun j => exists l, vlog h !! (j, T) = Some l /\ newer cl l)) ->
  hist_inv g' h.
Proof.
  intros He Hb [] Hled. assert (Hx : hext h h) by apply hframe_refl with (i := 0%nat). split.
  - intros j T. etrans; [apply hi_len0|]. apply prefix_length, He.
  - intros i T cl Hc. destruct (hi_clog0 i T cl Hc) as (? & ? & ?). split_and!; [done| |done].
    eapply agrees_ext; [apply He|done].
  - intros j T' l Hl. destruct (hi_vlog0 j T' l Hl) as [Ha Hk]. split; [eapply agrees_ext; [apply He|done]|].
    intros T N HT Ho HN. assert (Ho' : own g T N) by (apply (own_back g g' He); [specialize (hi_len0 j T); lia|done]).
    apply (kept_ext g g' h h He Hx (T' - 1)); [done|lia|by apply Hk].
  - intros T i Hl. destruct (Hled T i Hl) as [Hl'|?]; [|done]. destruct (hi_led0 T i Hl') as (cl & Hc & Hp & Hm).
    exists cl. split_and!; [done| |done]. etrans; [exact Hp|apply He].
  - intros j T. rewrite Hb. apply hi_cast0.
  - intros j T i Hl. rewrite Hb. apply hi_open0. destruct (led g !! T) as [k|] eqn:Hk; [|done].
    eapply lookup_weaken in Hk; [|apply He]. congruence.
Qed.

(** Node [i] stores the log of the term [T] up to [k]. *)
Definition raise (i : nat) (T : Z) (k : nat) (h : hist) : hist :=
  mkHist (fun j t => if decide (j = i /\ t = T) then Nat.max (held h j t) k else held h j t) (vlog h) (clog h).

Lemma raise_frame i T k h : hframe i h (raise i T k h).
Proof.
  split; [split|..]; try done.
  - intros j t. cbn [held raise]. case_decide; lia.
  - intros j t Hj. cbn [held raise]. rewrite decide_False; [done|]. by intros [? _].
Qed.

Lemma raise_held i T k h j t : held (raise i T k h) j t = if decide (j = i /\ t = T) then Nat.max (held h j t) k else held h j t.
Proof. done. Qed.

Lemma hist_raise g h i T k :
  hist_inv g h -> (k <= length (Lg g T))%nat -> (forall T', is_Some (vlog h !! (i, T')) -> T' <= T) ->
  hist_inv g (raise i T k h).
Proof.
  intros [] Hk Hv. split; try done.
  - intros j t. rewrite raise_held. case_decide as Hd; [destruct Hd as [-> ->]; specialize (hi_len0 i T); lia|done].
  - intros j T' l Hl. destruct (hi_vlog0 j T' l Hl) as [Ha Hkept]. split; [done|]. intros t N Ht Ho.
    rewrite raise_held. rewrite decide_False; [by apply Hkept|]. intros [-> ->].
    assert (T' <= T) by (apply Hv; by eexists). lia.
Qed.

(** Node [i] stands in the term [T] with the log [l]. *)
Definition stand (i : nat) (T : Z) (l : list LogEntry) (h : hist) : hist :=
  mkHist (held h) (vlog h) (<[(i, T) := l]> (clog h)).

Lemma stand_frame i T l h : clog h !! (i, T) = None -> hframe i h (stand i T l h).
Proof.
  intros Hno. split; [split|..]; try done; cbn [clog stand].
  - by apply insert_subseteq.
  - intros j t Hj. by rewrite lookup_insert_ne by congruence.
Qed.

Lemma hist_stand g h i T l :
  hist_inv g h -> clog h !! (i, T) = None -> l <> [] -> agrees (Lg g) l -> terms_le (T - 1) l ->
  hist_inv g (stand i T l h).
Proof.
  intros [] Hno Hl Ha Ht. pose proof (hf_ext _ _ _ (stand_frame i T l h Hno)) as Hx.
  assert (Hc : forall k c, clog h !! k = Some c -> clog (stand i T l h) !! k = Some c)
    by (intros k c Hk; eapply lookup_weaken; [exact Hk|apply Hx]).
  split; try done.
  - intros j t cl. cbn [clog stand]. destruct (decide ((j, t) = (i, T))) as [[= -> ->]|Hne].
    + rewrite lookup_insert_eq. by intros [= <-].
    + rewrite lookup_insert_ne by done. apply hi_clog0.
  - intros j T' l' Hl'. destruct (hi_vlog0 j T' l' Hl') as [? Hk]. split; [done|]. intros t N HT Ho HN.
    apply (kept_ext g g h _ ltac:(by split) Hx (T' - 1)); [done|lia|by apply Hk].
  - intros t j Hj. destruct (hi_led0 t j Hj) as (cl & Hcl & ? & ?). exists cl. by split_and!; [apply Hc|..].
  - intros j t k Hd Hb. destruct (hi_open0 j t k Hd Hb) as (l' & cl & ? & ? & ?). exists l', cl. by split_and!; [|apply Hc|].
Qed.

(** Node [i] votes in the term [T] with the log [l]; when the term already has a leader
    the vote does not matter. *)
Definition voted (g : ghost) (i : nat) (T : Z) (l : list LogEntry) (h : hist) : hist :=
  match led g !! T with
  | Some _ => h
  | None => mkHist (held h) (<[(i, T) := l]> (vlog h)) (clog h)
  end.

Lemma voted_frame g i T l h : vlog h !! (i, T) = None -> hframe i h (voted g i T l h).
Proof.
  intros Hno. unfold voted. case_match; [apply hframe_refl|]. split; [split|..]; try done; cbn [vlog].
  - by apply insert_subseteq.
  - intros j t Hj. by rewrite lookup_insert_ne by congruence.
Qed.

Lemma hist_voted g h i p k cl l :
  hist_inv g h -> ballots g !! (i, p_term p) = None -> p_voted p = Z.of_nat k ->
  clog h !! (k, p_term p) = Some cl -> newer cl l -> agrees (Lg g) l ->
  (forall T N, T < p_term p -> own g T N -> (N < held h i T)%nat -> kept g h (p_term p) T N l) ->
  hist_inv (cast i p g) (voted g i (p_term p) l h).
Proof.
  intros [] Hb Hv Hcl Hnew Ha Hkept.
  assert (Hno : vlog h !! (i, p_term p) = None).
  { destruct (vlog h !! (i, p_term p)) eqn:Hl; [|done]. destruct (hi_cast0 i (p_term p)) as [? ?]; [by eexists|congruence]. }
  assert (Hbal : ballots (cast i p g) = <[(i, p_term p) := Z.of_nat k]> (ballots g)).
  { unfold cast. cbn [ballots]. by rewrite Hv, (proj2 (Z.eqb_neq _ _)) by lia. }
  assert (Hback : forall j t c, (j, t) <> (i, p_term p) -> ballots (cast i p g) !! (j, t) = Some c -> ballots g !! (j, t) = Some c).
  { intros j t c Hne. rewrite Hbal, lookup_insert_ne by done. done. }
  unfold voted. destruct (led g !! p_term p) as [b|] eqn:Hled.
  - split; try done.
    + intros j t Hj. destruct (hi_cast0 j t Hj) as [x Hxx]. rewrite Hbal. destruct (decide ((j, t) = (i, p_term p))) as [[= -> ->]|Hne];
        [rewrite lookup_insert_eq|rewrite lookup_insert_ne by done]; by eexists.
    + intros j t m Hd Hbj. apply (hi_open0 j t m Hd), Hback; [|done]. cbn [led cast] in Hd. congruence.
  - set (h' := mkHist _ _ _). assert (Hx : hext h h').
    { split; [done|by apply insert_subseteq|done]. }
    split; try done.
    + intros j T' l'. cbn [vlog h']. destruct (decide ((j, T') = (i, p_term p))) as [[= -> ->]|Hne].
      * rewrite lookup_insert_eq. intros [= <-]. split; [done|]. intros T N HT Ho HN Hall.
        apply (Hkept T N HT Ho HN). intros t l0 Ht Hs. apply (Hall t); [|done].
        destruct (decide (t = p_term p)) as [->|]; [|lia]. unfold start in Hs. by rewrite Hled in Hs.
      * rewrite lookup_insert_ne by done. intros Hl'. exact (hi_vlog0 j T' l' Hl').
    + intros T j Hj. destruct (hi_led0 T j Hj) as (c & Hc & Hp & S & S1 & S2 & S3). exists c. split_and!; [done|done|].
      exists S. split_and!; [done|done|]. intros v Hv'. destruct (S3 v Hv') as (? & l' & Hl' & ?). split; [done|].
      exists l'. split; [|done]. eapply lookup_weaken; [exact Hl'|apply Hx].
    + intros j t. cbn [vlog h']. rewrite Hbal. destruct (decide ((j, t) = (i, p_term p))) as [[= -> ->]|Hne];
        [rewrite !lookup_insert_eq; by eexists|rewrite !lookup_insert_ne by done; apply hi_cast0].
    + intros j t m Hd Hbj. cbn [vlog clog h']. destruct (decide ((j, t) = (i, p_term p))) as [[= -> ->]|Hne].
      * rewrite Hbal, lookup_insert_eq in Hbj. injection Hbj as Hkm. assert (m = k) as -> by lia.
        exists l, cl. rewrite lookup_insert_eq. done.
      * rewrite lookup_insert_ne by done. apply (hi_open0 j t m Hd), Hback; done.
Qed.
End Commit.
