(* ===== verification/ClusterAgree.v ===== *)
(** * Every event preserves commitment

    In a run in which every new leader starts with [matchIndex] at zero, what was
    committed stays in the log of every later leader and of every node that
    applied it. *)
From S2P Require Export ClusterCommit.

Section Agree.
Context {Cmd : Type} `{GobLaws (Z * Z * list (LogEntry Cmd))}.
#[local] Abbreviation LogEntry := (LogEntry Cmd).
#[local] Abbreviation Raft := (Raft (Cmd := Cmd)).
#[local] Abbreviation cluster := (cluster (Cmd := Cmd)).
#[local] Abbreviation rpc := (rpc (Cmd := Cmd)).
#[local] Abbreviation ghost := (ghost (Cmd := Cmd)).
#[local] Abbreviation hist := (hist (Cmd := Cmd)).
#[local] Abbreviation pstate := (Z * Z * list LogEntry)%type.
Context (n : nat).

(** ** Messages *)

Lemma delivered_lookup (l : list LogEntry) k j :
  delivered l k !! j =
    if decide (Z.of_nat j < k) then (fun e => mkApplyMsg true (Command e) (Z.of_nat (S j))) <$> l !! S j else None.
Proof.
  unfold delivered. rewrite list_lookup_imap. case_decide as Hk.
  - rewrite lookup_take_lt by lia. destruct l as [|x l]; [done|]. by destruct (l !! j) eqn:Hl; simpl; rewrite Hl.
  - rewrite lookup_take_ge by lia. done.
Qed.

Lemma delivered_take (l l' : list LogEntry) c k :
  0 <= k <= c -> take (S (Z.to_nat c)) l' = take (S (Z.to_nat c)) l -> delivered l' k = delivered l k.
Proof.
  intros Hk Ht. apply list_eq. intros j. rewrite !delivered_lookup. case_decide; [|done]. f_equal.
  rewrite <- (lookup_take_lt l' (S (Z.to_nat c))), Ht, lookup_take_lt by lia. done.
Qed.

Lemma delivered_zero (l : list LogEntry) : delivered l 0 = [].
Proof. unfold delivered. by rewrite take_0. Qed.

Lemma settled_length g h t (l : list LogEntry) c :
  settled n g h t l c -> l <> [] -> 0 <= c -> c < zlen l.
Proof.
  intros [->|(T & N & [Ho _] & _ & Hle & Ht)] Hl Hc.
  - pose proof (zlen_pos _ Hl). lia.
  - pose proof (own_length _ _ _ Ho). apply (f_equal length) in Ht. rewrite !length_take in Ht. unfold zlen. lia.
Qed.

Lemma settled_take g h t t' (l l' : list LogEntry) c :
  settled n g h t l c -> t <= t' -> take (S (Z.to_nat c)) l' = take (S (Z.to_nat c)) l -> settled n g h t' l' c.
Proof.
  intros [->|(T & N & Hc & Ht & Hle & Htk)] Hle' Heq; [by left|]. right. exists T, N. split_and!; [done|lia|done|congruence].
Qed.

(** ** The log of a node that accepts entries *)

(** A receiver that has everything changes nothing. *)
Lemma append_loop_same (r s : list LogEntry) i :
  (i <= length s)%nat -> take (length s) r = s -> append_loop r (Z.of_nat i) (drop i s) = Some (r, false).
Proof.
  intros Hi Ht. remember (length s - i)%nat as k eqn:Hk. revert i Hk Hi. induction k as [|k IH]; intros i Hk Hi.
  { by rewrite drop_ge by lia. }
  destruct (lookup_lt_is_Some_2 s i) as [e He]; [lia|]. rewrite (drop_S _ _ _ He). cbn [append_loop].
  assert (Hr : r !! i = Some e) by (rewrite <- Ht, lookup_take_lt in He by lia; done).
  pose proof (lookup_lt_Some _ _ _ Hr). rewrite (proj2 (Z.leb_gt _ _)) by (unfold zlen; lia).
  rewrite znth_of_nat, Hr. cbn [mbind option_bind]. rewrite Z.eqb_refl. cbn [negb].
  replace (Z.of_nat i + 1) with (Z.of_nat (S i)) by lia. apply IH; lia.
Qed.

(** What an accepted call makes of the log [l]: it ends up with [s], and loses nothing
    that it shares with [L]. *)
Definition merged (L s l l' : list LogEntry) : Prop :=
  take (length s) l' = s /\ forall N, (N < length L)%nat -> take (S N) l = take (S N) L -> take (S N) l' = take (S N) L.

Lemma accept_merged (g : ghost) i args (l l' : list LogEntry) e changed :
  ghost_inv n g -> agrees (Lg g) l -> args_inv g i args ->
  znth l (PrevLogIndex args) = Some e -> Term e = PrevLogTerm args ->
  append_loop l (PrevLogIndex args + 1) (Entries args) = Some (l', changed) ->
  exists s, s `prefix_of` Lg g (ae_Term args) /\ zlen s = PrevLogIndex args + zlen (Entries args) + 1 /\
    merged (Lg g (ae_Term args)) s l l'.
Proof.
  intros Hg Hl (_ & Hp & _ & s & e' & Hs & Hse & Hte & Hen) He Hterm Hloop.
  assert (Hs' : agrees (Lg g) s).
  { intros j x Hx. rewrite <- (take_prefix s (Lg g (ae_Term args)) (S j)); [|done|by apply lookup_lt_Some in Hx].
    apply (gi_agrees _ _ Hg). by eapply prefix_lookup_Some. }
  apply znth_Some in He as [_ He], Hse as [_ Hse]. pose proof (lookup_lt_Some _ _ _ Hse) as Hlen.
  set (i0 := S (Z.to_nat (PrevLogIndex args))) in *.
  assert (Htake : take i0 l = take i0 s) by (eapply (agrees_prefix (Lg g)); [done|done|exact He|exact Hse|congruence]).
  replace (PrevLogIndex args + 1) with (Z.of_nat i0) in Hloop by lia. rewrite Hen in Hloop.
  exists s. split; [done|]. split; [rewrite Hen; unfold zlen; rewrite length_drop; lia|].
  destruct (append_loop_agrees (Lg g) l s i0) as (r' & ch & Hr & Hcase); [done|done|lia|apply lookup_lt_Some in He; lia|done|].
  rewrite Hr in Hloop. injection Hloop as -> ->. split.
  { destruct Hcase as [(_ & -> & ?)|[_ ->]]; [done|]. by rewrite firstn_all. }
  intros N HN HtN. destruct Hcase as [(_ & -> & _)|[-> ->]]; [done|].
  destruct (decide (N < length s)%nat) as [Hlt|Hge]; [symmetry; by apply take_prefix|].
  assert (Hsame : take (length s) l = s).
  { destruct Hs as [q Hq]. rewrite <- (Nat.min_l (length s) (S N)) by lia. rewrite <- take_take, HtN, take_take, Nat.min_l by lia.
    by rewrite Hq, take_app_length. }
  rewrite (append_loop_same l s i0) in Hr by (done || lia). done.
Qed.

(** ** Persistent states *)

Lemma held_same (g : ghost) (h : hist) i p p' :
  held_inv g h i p -> p_log p' = p_log p -> p_term p <= p_term p' -> held_inv g h i p'.
Proof.
  intros [Ht Hv Hc Hk] Hl Hle. split.
  - intros T HT. specialize (Ht T HT). lia.
  - intros T HT. specialize (Hv T HT). lia.
  - intros T HT. specialize (Hc T HT). lia.
  - intros T N Ho HN. rewrite Hl. apply (kept_ext g g h h ltac:(by split) ltac:(by split) (p_term p)); auto.
Qed.

(** What has the chosen log up to [N] in its own term keeps it when it merges. *)
Lemma held_accept (g : ghost) (h : hist) i b p p' s :
  ghost_inv n g -> hist_inv n g h -> held_inv g h i p -> p_term p <= p_term p' -> led g !! p_term p' = Some b ->
  s `prefix_of` Lg g (p_term p') -> merged (Lg g (p_term p')) s (p_log p) (p_log p') ->
  held_inv g (raise i (p_term p') (length s) h) i p'.
Proof.
  intros Hg Hh [Ht Hv Hc Hk] Hle Hled Hs [Hms Hmk]. set (T0 := p_term p') in *.
  assert (Hst : forall t T N l, kept g (raise i T0 (length s) h) t T N l <-> kept g h t T N l) by done.
  split; [|intros T HT; specialize (Hv T HT); lia|intros T HT; specialize (Hc T HT); lia|].
  - intros T. rewrite raise_held. case_decide as Hd; [destruct Hd as [_ ->]; lia|]. intros HT. specialize (Ht T HT). lia.
  - intros T N Ho. rewrite Hst, raise_held. pose proof (own_length _ _ _ Ho) as HNl. case_decide as Hd.
    + destruct Hd as [_ ->]. intros HN Hall. unfold has. destruct (decide (N < length s)%nat) as [Hlt|Hge].
      * rewrite (take_prefix s (Lg g T0) (S N)) by (done || lia). pose proof (f_equal (take (S N)) Hms) as Hx.
        rewrite take_take, Nat.min_l in Hx by lia. exact Hx.
      * apply Hmk; [done|]. apply (Hk T0 N Ho); [lia|]. intros T' l' HT'. assert (T0 <= p_term p) by (apply Ht; lia). lia.
    + intros HN Hall. assert (HT : T <= p_term p) by (apply Ht; lia).
      assert (Hne : T <> T0) by (intros ->; by apply Hd).
      destruct (hi_led _ _ _ Hh _ _ Hled) as (l0 & Hl0 & Hp0 & _).
      assert (Hs0 : start g h T0 = Some l0) by (unfold start; by rewrite Hled).
      assert (HL0 : has g T N (Lg g T0)) by (apply (has_prefix g T N l0); [done|apply (Hall T0); [lia|done]|done]).
      unfold has. rewrite <- HL0. apply Hmk; [by apply (has_length g T N)|].
      rewrite HL0. apply (Hk T N Ho HN). intros T' l' HT' Hs'. apply (Hall T'); [lia|done].
Qed.

(** The committed entries of a node stay when it merges. *)
Lemma settled_accept (g : ghost) (h : hist) t T0 b (l l' s : list LogEntry) c :
  (2 <= n)%nat -> ghost_inv n g -> hist_inv n g h -> settled n g h t l c -> 0 <= c -> t <= T0 -> led g !! T0 = Some b ->
  merged (Lg g T0) s l l' -> c = 0 \/ take (S (Z.to_nat c)) l' = take (S (Z.to_nat c)) l.
Proof.
  intros Hn Hg Hh [->|(T & N & Hc & Ht & Hle & Htk)] Hc0 Hle0 Hled [_ Hmk]; [by left|right].
  assert (HL : has g T N (Lg g T0)) by (apply (chosen_has n g h T N T0 b); [done|done|done|done|done|lia]).
  assert (HLc : take (S (Z.to_nat c)) (Lg g T0) = take (S (Z.to_nat c)) (Lg g T)).
  { pose proof (f_equal (take (S (Z.to_nat c))) HL) as Hx. rewrite !take_take, Nat.min_l in Hx by lia. exact Hx. }
  rewrite Htk, <- HLc. apply Hmk; [|congruence].
  pose proof (has_length _ _ _ _ (proj1 Hc) HL). lia.
Qed.

(** ** Steps *)

(** After its section node [i] is in the state [rf'], and the histories [g1] have grown
    by its vote. *)
Definition advances (g : ghost) (h : hist) (i : nat) (rf' : Raft) (g1 : ghost) (c' : cluster) : Prop :=
  exists h', hframe i h h' /\ commit_inv n (cast i (pst rf') g1) h' c'.

Lemma held_grow (g g' : ghost) (h h' : hist) i p p' :
  ext g g' -> hext h h' -> hist_inv n g h -> held_inv g h i p -> (forall T, held h' i T = held h i T) ->
  (forall T, is_Some (vlog h' !! (i, T)) -> is_Some (vlog h !! (i, T)) \/ T <= p_term p') ->
  (forall T, is_Some (clog h' !! (i, T)) -> is_Some (clog h !! (i, T)) \/ T <= p_term p') ->
  p_log p' = p_log p -> p_term p <= p_term p' -> held_inv g' h' i p'.
Proof.
  intros He Hx Hi [Ht Hv Hc Hk] Hheld Hvl Hcl Hl Hle. split.
  - intros T. rewrite Hheld. intros HT. specialize (Ht T HT). lia.
  - intros T [HT|?]%Hvl; [specialize (Hv T HT); lia|done].
  - intros T [HT|?]%Hcl; [specialize (Hc T HT); lia|done].
  - intros T N Ho. rewrite Hheld, Hl. intros HN. pose proof (hi_len _ _ _ Hi i T).
    assert (Ho' : own g T N) by (apply (own_back g g' He); [lia|done]).
    apply (kept_ext g g' h h' He Hx (p_term p)); auto.
Qed.

(** A node whose log and indices stay, and which does not become a leader. *)
Lemma up_keep (g g' : ghost) (h h' : hist) i (rf rf' : Raft) sent :
  up_commit n g h i rf sent -> ext g g' -> hext h h' -> held_inv g' h' i (pst rf') ->
  (forall T, held h' i T = held h i T) ->
  log rf' = log rf -> currentTerm rf <= currentTerm rf' ->
  commitIndex rf' = commitIndex rf -> lastApplied rf' = lastApplied rf ->
  (state rf' = StateCandidate -> clog h' !! (i, currentTerm rf') = Some (log rf)) ->
  (state rf' = StateLeader -> state rf = StateLeader /\ currentTerm rf' = currentTerm rf /\ matchIndex rf' = matchIndex rf) ->
  up_commit n g' h' i rf' sent.
Proof.
  intros [] He Hx Hheld Hsame Hl Ht Hc Ha Hcand Hlead. split; rewrite ?Hl, ?Hc, ?Ha; try done.
  - intros Hst. destruct (Hlead Hst) as (? & -> & _). rewrite Hsame. by apply uc_self.
  - intros j m Hst. destruct (Hlead Hst) as (? & -> & ->). intros Hm Hj Hp.
    specialize (uc_match j m ltac:(done) Hm Hj Hp). pose proof (hx_held _ _ Hx j (currentTerm rf)). lia.
  - apply (settled_take g' h' (currentTerm rf) _ (log rf)); [by apply (settled_ext n g g' h h')|done|done].
Qed.

Lemma cast_quiet (g : ghost) (c : cluster) i rf sent (rf' : Raft) :
  inv n g c -> up c i = Some (rf, sent) -> no_vote rf rf' -> cast i (pst rf') g = g.
Proof.
  intros Hi Hu Hv. apply (cast_same g i (pst rf)); [apply (up_inv_of _ _ _ _ _ _ Hi Hu)|]. exact Hv.
Qed.

Lemma up_commit_of g h (c : cluster) i rf sent :
  commit_inv n g h c -> up c i = Some (rf, sent) -> up_commit n g h i rf sent.
Proof. intros Hi Hu%up_lookup. exact (ci_nodes _ _ _ _ Hi i _ Hu). Qed.

(** Sections that leave the logs, the votes and the commit index alone. *)
Lemma quiet_advances (g : ghost) h (c : cluster) i rf sent rf' net' :
  inv n g c -> commit_inv n g h c -> up c i = Some (rf, sent) -> no_vote rf rf' ->
  log rf' = log rf -> currentTerm rf <= currentTerm rf' -> commitIndex rf' = commitIndex rf -> lastApplied rf' = lastApplied rf ->
  (state rf' = StateFollower \/
   state rf' = state rf /\ currentTerm rf' = currentTerm rf /\ (state rf = StateLeader -> matchIndex rf' = matchIndex rf)) ->
  Forall (call_commit n g h) net' -> advances g h i rf' g (set_up c i rf' sent net').
Proof.
  intros Hi Hc Hu Hv Hl Ht Hci Hla Hst Hnet. exists h. split; [apply hframe_refl|]. rewrite (cast_quiet g c i rf sent) by done.
  pose proof (up_commit_of _ _ _ _ _ _ Hc Hu) as Hup. assert (He : ext g g) by done.
  pose proof (hf_ext _ _ _ (hframe_refl i h)) as Hx.
  apply (commit_update n g g h h); try done; [apply (ci_hist _ _ _ _ Hc)|].
  apply (up_keep g g h h i rf); try done.
  - apply (held_same g h i (pst rf)); [apply (uc_held _ _ _ _ _ _ Hup)|done|done].
  - intros Hcd. destruct Hst as [?|(Hs & -> & _)]; [congruence|]. apply (uc_cand _ _ _ _ _ _ Hup). congruence.
  - intros Hld. destruct Hst as [?|(Hs & ? & Hm)]; [congruence|]. split_and!; [congruence|done|apply Hm; congruence].
Qed.

Lemma net_commit_here g h (c : cluster) : commit_inv n g h c -> Forall (call_commit n g h) (net c).
Proof. apply ci_net. Qed.

Lemma Forall_remove {A} (P : A -> Prop) k l : Forall P l -> Forall P (remove k l).
Proof. intros Hl. unfold remove. apply Forall_app. split; [by apply Forall_take|by apply Forall_drop]. Qed.

(** *** Elections *)

Lemma newer_refl (l : list LogEntry) : l <> [] -> newer l l.
Proof.
  intros Hl. destruct (last l) as [e|] eqn:He; [|by apply last_None in He]. exists e, e. split_and!; [done|done|right; lia].
Qed.

Lemma elect_advances (g : ghost) h (c : cluster) i rf sent rf' args m :
  inv n g c -> commit_inv n g h c -> up c i = Some (rf, sent) -> election_step args rf rf' ->
  advances g h i rf' g (set_up c i rf' sent (vote_calls m i args ++ net c)).
Proof.
  intros Hi Hc Hu [Hev Hp Hst Hind _ (Ha1 & Ha2 & Ha3 & e & Ha4 & Ha5)].
  pose proof (up_inv_of _ _ _ _ _ _ Hi Hu) as [[] Hme _ _ [Hlog Hbal] _ _ _].
  pose proof (up_commit_of _ _ _ _ _ _ Hc Hu) as Hup. pose proof (uc_held _ _ _ _ _ _ Hup) as Hheld.
  injection Hp as P1 P2 P3. set (T := currentTerm rf + 1) in *. set (l := log rf) in *.
  assert (Hpt : p_term (pst rf') = T) by (unfold p_term; cbn; done).
  assert (Hcl : clog h !! (i, T) = None).
  { destruct (clog h !! (i, T)) eqn:Hx; [|done]. assert (T <= p_term (pst rf)) by (apply (he_clog _ _ _ _ Hheld); by eexists).
    unfold p_term in *; cbn in *. lia. }
  assert (Hb : ballots g !! (i, T) = None).
  { destruct (ballots g !! (i, T)) eqn:Hx; [|done]. apply (bi_past _ _ _ Hbal) in Hx. unfold p_term in Hx; cbn in Hx. lia. }
  set (h1 := stand i T l h). pose proof (stand_frame i T l h Hcl) as Hf1.
  assert (Hh1 : hist_inv n g h1).
  { apply hist_stand; [apply (ci_hist _ _ _ _ Hc)|done|done|apply (li_agrees _ _ Hlog)|].
    pose proof (li_terms _ _ Hlog) as Ht. eapply Forall_impl; [exact Ht|]. unfold p_term, T; cbn. lia. }
  assert (Hvl : vlog h1 !! (i, T) = None).
  { destruct (vlog h1 !! (i, T)) eqn:Hx; [|done]. destruct (hi_cast _ _ _ Hh1 i T) as [? ?]; [by eexists|congruence]. }
  set (h2 := voted g i T l h1). pose proof (voted_frame g i T l h1 Hvl) as Hf2.
  assert (He : ext g (cast i (pst rf') g)) by (eapply fr_ext, cast_frame; [exact Hbal|apply (ev_ple _ _ _ Hev)]).
  assert (Hheld2 : forall j t, held h2 j t = held h j t) by (intros j t; unfold h2, voted; by case_match).
  pose proof (hframe_trans _ _ _ _ Hf1 Hf2) as Hf. pose proof (hf_ext _ _ _ Hf) as Hx.
  assert (Hh2 : hist_inv n (cast i (pst rf') g) h2).
  { rewrite <- Hpt in Hb, Hcl. unfold h2. rewrite <- Hpt. apply (hist_voted n g h1 i (pst rf') i l l); try done.
    - unfold p_voted; cbn. congruence.
    - rewrite Hpt. apply lookup_insert_eq.
    - by apply newer_refl.
    - apply (li_agrees _ _ Hlog).
    - intros t N Ht Ho HN. apply (kept_ext g g h h1 ltac:(by split) (hf_ext _ _ _ Hf1) (currentTerm rf)); [done|lia|].
      by apply (he_kept _ _ _ _ Hheld). }
  assert (Hc2 : clog h2 !! (i, T) = Some l).
  { eapply lookup_weaken; [|apply (hx_clog _ _ (hf_ext _ _ _ Hf2))]. apply lookup_insert_eq. }
  exists h2. split; [exact Hf|]. injection Hind as I1 I2 I3 I4. apply (commit_update n g _ h h2); try done.
  - apply (up_keep g _ h h2 i rf); try done; try congruence; [|lia|intros _; by rewrite P1].
    apply (held_grow g _ h h2 i (pst rf)); try done; [apply (ci_hist _ _ _ _ Hc)| | |rewrite Hpt; unfold p_term; cbn; lia].
    + intros t. destruct (decide (t = T)) as [->|Hne]; [right; lia|left].
      unfold h2, voted in *. destruct (led g !! T); [done|]. cbn [vlog] in *. by rewrite lookup_insert_ne in * by congruence.
    + intros t. destruct (decide (t = T)) as [->|Hne]; [right; lia|left].
      unfold h2, voted in *. destruct (led g !! T); cbn [clog h1 stand] in *; by rewrite lookup_insert_ne in * by congruence.
  - apply Forall_app. split; [|by apply (net_commit n g _ h h2)].
    unfold vote_calls. apply Forall_fmap, Forall_true. intros j. cbn. exists l, e. by rewrite Ha1.
Qed.

(** *** Votes *)

Lemma call_of g h (c : cluster) k r : commit_inv n g h c -> net c !! k = Some r -> call_commit n g h r.
Proof. intros Hc Hk. eapply Forall_lookup_1; [apply (ci_net _ _ _ _ Hc)|exact Hk]. Qed.

Lemma vote_newer args (cl l : list LogEntry) e el :
  last cl = Some e -> LastLogTerm args = Term e -> LastLogIndex args = zlen cl - 1 ->
  last l = Some el -> upToDate args (zlen l - 1) (Term el) = true -> newer cl l.
Proof.
  intros He Ht Hi Hel Hu. exists e, el. split_and!; [done|done|]. unfold upToDate in Hu. unfold zlen in *.
  destruct (Term el <? LastLogTerm args) eqn:Hlt; bool_to_prop; [left; lia|right; lia].
Qed.

(** A node that casts a vote in the term it is in after its section. *)
Lemma vote_advances (g : ghost) h (c : cluster) i rf sent rf' ws b cl net' :
  inv n g c -> commit_inv n g h c -> up c i = Some (rf, sent) -> evolves rf rf' ws ->
  log rf' = log rf -> indices rf' = indices rf ->
  (state rf' = state rf /\ currentTerm rf' = currentTerm rf) \/ state rf' = StateFollower ->
  votedFor rf' = Z.of_nat b -> clog h !! (b, currentTerm rf') = Some cl -> newer cl (log rf) ->
  (forall g' h', ext g g' -> hext h h' -> Forall (call_commit n g' h') net') ->
  advances g h i rf' g (set_up c i rf' sent net').
Proof.
  intros Hi Hc Hu Hev Hl Hind Hst Hv Hcl Hnew Hnet. pose proof (ev_ple _ _ _ Hev) as Hple.
  pose proof (up_inv_of _ _ _ _ _ _ Hi Hu) as [[] Hme _ _ [Hlog Hbal] _ _ _].
  pose proof (up_commit_of _ _ _ _ _ _ Hc Hu) as Hup. pose proof (uc_held _ _ _ _ _ _ Hup) as Hheld.
  injection Hind as I1 I2 I3 I4. assert (Ht : currentTerm rf <= currentTerm rf').
  { unfold ple, p_term in Hple; cbn in Hple. lia. }
  destruct (ballots g !! (i, currentTerm rf')) as [x|] eqn:Hb.
  { assert (Hsame : currentTerm rf' = currentTerm rf).
    { apply (bi_past _ _ _ Hbal) in Hb. unfold p_term in Hb; cbn in Hb. lia. }
    pose proof (bi_now _ _ _ Hbal) as Hnow. unfold p_term, p_voted in Hnow; cbn in Hnow. rewrite <- Hsame, Hb in Hnow.
    assert (Hvf : votedFor rf' = votedFor rf).
    { unfold ple, p_term, p_voted in Hple; cbn in Hple. destruct (votedFor rf =? -1) eqn:Hm; bool_to_prop; [done|].
      destruct Hple as [?|[_ [?|?]]]; [lia|lia|done]. }
    apply quiet_advances with rf; try done; [by left|destruct Hst as [[? ?]|?]; [right|left]; auto|]. by apply Hnet. }
  assert (He : ext g (cast i (pst rf') g)) by (by eapply fr_ext, cast_frame).
  set (h' := voted g i (currentTerm rf') (log rf) h).
  assert (Hvl : vlog h !! (i, currentTerm rf') = None).
  { destruct (vlog h !! (i, currentTerm rf')) eqn:Hx; [|done].
    destruct (hi_cast _ _ _ (ci_hist _ _ _ _ Hc) i (currentTerm rf')) as [? ?]; [by eexists|congruence]. }
  pose proof (voted_frame g i (currentTerm rf') (log rf) h Hvl) as Hf. fold h' in Hf.
  pose proof (hf_ext _ _ _ Hf) as Hx.
  assert (Hheld' : forall t, held h' i t = held h i t) by (intros t; unfold h', voted; by case_match).
  assert (Hclog : clog h' = clog h) by (unfold h', voted; by case_match).
  exists h'. split; [done|]. apply (commit_update n g _ h h'); try done.
  - apply (hist_voted n g h i (pst rf') b cl (log rf)); try done; [apply (ci_hist _ _ _ _ Hc)|apply (li_agrees _ _ Hlog)|].
    intros T N _ Ho HN. apply (kept_ext g g h h ltac:(by split) (hf_ext _ _ _ (hframe_refl i h)) (currentTerm rf)); [done|done|].
    by apply (he_kept _ _ _ _ Hheld).
  - apply (up_keep g _ h h' i rf); try done.
    + apply (held_grow g _ h h' i (pst rf)); try done; [apply (ci_hist _ _ _ _ Hc)| |].
      * intros t. destruct (decide (t = currentTerm rf')) as [->|Hne]; [by right|left].
        unfold h', voted in *. destruct (led g !! currentTerm rf'); [done|]. cbn [vlog] in *. by rewrite lookup_insert_ne in * by congruence.
      * intros t. rewrite Hclog. by left.
    + intros Hcd. destruct Hst as [[Hs ->]|?]; [|congruence]. rewrite Hclog. apply (uc_cand _ _ _ _ _ _ Hup). congruence.
    + intros Hld. destruct Hst as [[Hs ?]|?]; [|congruence]. split_and!; [congruence|done|done].
  - by apply Hnet.
Qed.

Lemma set_commit g g' h h' (c : cluster) k r w :
  commit_inv n g h c -> ext g g' -> hext h h' -> call_commit n g' h' (set_what r w) ->
  Forall (call_commit n g' h') (<[k := set_what r w]> (net c)).
Proof. intros Hc He Hx Hw. apply Forall_insert; [by apply (net_commit n g g' h h')|done]. Qed.

Lemma deliver_vote_advances (g : ghost) h (c : cluster) k r env args rf sent reply rf' :
  inv n g c -> commit_inv n g h c -> net c !! k = Some r -> what r = VoteCall args -> up c (callee r) = Some (rf, sent) ->
  RequestVote env args rf = Some (reply, rf') ->
  advances g h (callee r) rf' g (set_up c (callee r) rf' sent (<[k := set_what r (VoteRet args reply)]> (net c))).
Proof.
  intros Hi Hc Hk Hw Hu (ws & [Hev Hl Hind Hv Hst [Ht1 Ht2] Hgr Href])%RequestVote_spec.
  assert (Hnet : forall g' h', ext g g' -> hext h h' -> Forall (call_commit n g' h') (<[k := set_what r (VoteRet args reply)]> (net c))).
  { intros g' h' He Hx. by apply (set_commit g g' h h'). }
  injection Hind as I1 I2 I3 I4.
  destruct (VoteGranted reply) eqn:Hg.
  - destruct (Hgr eq_refl) as (Hterm & Hvf & el & Hel & Hup). pose proof (rpc_of _ _ _ _ _ Hi Hk) as (_ & _ & _ & Hcall).
    rewrite Hw in Hcall. destruct Hcall as (Hcand & _). pose proof (call_of _ _ _ _ _ Hc Hk) as Hcc. unfold call_commit in Hcc.
    rewrite Hw in Hcc. destruct Hcc as (cl & e & Hcl & He & Hlt & Hli).
    apply (vote_advances g h c (callee r) rf sent rf' ws (caller r) cl); try done.
    + unfold indices. congruence.
    + destruct Hst as [Hst|[Hst _]]; [by left|by right].
    + congruence.
    + by rewrite Hterm.
    + by apply (vote_newer args cl (log rf) e el).
  - apply (quiet_advances g h c (callee r) rf sent); try done; [by apply Href|lia| |].
    + destruct Hst as [[? ?]|[? _]]; [right; by split_and!|by left].
    + apply Hnet; [done|apply (hf_ext _ _ _ (hframe_refl 0%nat h))].
Qed.

(** *** Entries *)

(** What node [i] has after its section, when the log may have changed. *)
Lemma up_follow (g : ghost) h i (rf : Raft) t sent sent' :
  held_inv g h i (pst rf) -> state rf = StateFollower -> settled n g h t (log rf) (commitIndex rf) -> t <= currentTerm rf ->
  lastApplied rf <= commitIndex rf -> sent = sent' -> sent' = delivered (log rf) (lastApplied rf) -> up_commit n g h i rf sent.
Proof.
  intros Hh Hst Hs Ht Ha -> Hse. split; try done; try congruence. by apply (settled_take g h t _ (log rf)).
Qed.

Lemma accept_commit (g : ghost) h i b (rf rf' : Raft) sent s lc :
  (2 <= n)%nat -> ghost_inv n g -> hist_inv n g h -> up_commit n g h i rf sent -> 0 <= lastApplied rf -> 0 <= commitIndex rf ->
  currentTerm rf <= currentTerm rf' -> led g !! currentTerm rf' = Some b -> state rf' = StateFollower ->
  s `prefix_of` Lg g (currentTerm rf') -> merged (Lg g (currentTerm rf')) s (log rf) (log rf') ->
  lastApplied rf' = lastApplied rf ->
  commitIndex rf' = commitIndex rf \/
    (commitIndex rf <= lc /\ commitIndex rf' = lc /\ settled n g h (currentTerm rf') (Lg g (currentTerm rf')) lc /\ lc < zlen s) ->
  up_commit n g (raise i (currentTerm rf') (length s) h) i rf' sent.
Proof.
  intros Hn Hg Hh Huc Ha0 Hc0 Hle Hled Hst Hs Hm Ha Hcommit. set (T := currentTerm rf') in *. destruct Huc.
  pose proof (settled_accept g h _ T b (log rf) (log rf') s _ Hn Hg Hh uc_settled Hc0 Hle Hled Hm) as Hkeep.
  pose proof (hf_ext _ _ _ (raise_frame i T (length s) h)) as Hx.
  assert (Hsent : sent = delivered (log rf') (lastApplied rf')).
  { rewrite uc_sent, Ha. symmetry. destruct Hkeep as [Hz|Hk].
    - replace (lastApplied rf) with 0 by lia. by rewrite !delivered_zero.
    - by apply (delivered_take _ _ (commitIndex rf)). }
  assert (Hset : settled n g h T (log rf') (commitIndex rf')).
  { destruct Hcommit as [->|(Hge & -> & Hlc & Hlen)].
    - destruct Hkeep as [->|Hk]; [by left|by apply (settled_take g h (currentTerm rf) _ (log rf))].
    - destruct Hlc as [->|Hlc]; [by left|]. apply (settled_take g h T _ (Lg g T)); [by right|done|].
      destruct Hlc as (T1 & N & _ & _ & Hle1 & _). destruct Hm as [Hms _].
      assert (H1 : (S (Z.to_nat lc) <= length s)%nat) by (unfold zlen in Hlen; lia).
      rewrite (take_prefix s (Lg g T)) by done. pose proof (f_equal (take (S (Z.to_nat lc))) Hms) as Hy.
      rewrite take_take, Nat.min_l in Hy by lia. exact Hy. }
  apply (up_follow g _ i rf' T sent sent); try done.
  - by apply (held_accept g h i b (pst rf) (pst rf') s).
  - by apply (settled_ext n g g h _).
  - rewrite Ha. destruct Hcommit as [->|(? & -> & _)]; lia.
Qed.

Lemma deliver_append_advances (g : ghost) h (c : cluster) k r env args rf sent reply rf' :
  (2 <= n)%nat -> inv n g c -> commit_inv n g h c -> net c !! k = Some r -> what r = AppendCall args ->
  up c (callee r) = Some (rf, sent) -> AppendEntries env args rf = Some (reply, rf') ->
  advances g h (callee r) rf' g (set_up c (callee r) rf' sent (<[k := set_what r (AppendRet args reply)]> (net c))).
Proof.
  intros Hn Hi Hc Hk Hw Hu Ha. pose proof (up_inv_of _ _ _ _ _ _ Hi Hu) as Hup.
  pose proof (rpc_of _ _ _ _ _ Hi Hk) as (_ & _ & _ & Hcall). rewrite Hw in Hcall.
  pose proof (call_of _ _ _ _ _ Hc Hk) as Hcc. unfold call_commit in Hcc. rewrite Hw in Hcc. destruct Hcc as [Hset Hlc].
  destruct (AppendEntries_inv env args rf reply rf') as (ws & Hstep & Hev & Hv); [apply Hcall| |exact Ha|].
  { pose proof (ok_terms _ _ (up_ok _ _ _ _ _ Hup)) as Hall. eapply Forall_impl; [exact Hall|]. cbn beta. lia. }
  assert (Hrefl : hext h h) by apply (hf_ext _ _ _ (hframe_refl 0%nat h)).
  assert (Hfail : Success reply = false -> Forall (call_commit n g h) (<[k := set_what r (AppendRet args reply)]> (net c))).
  { intros Hs. apply (set_commit g g h h); try done. unfold call_commit. cbn. congruence. }
  pose proof (up_commit_of _ _ _ _ _ _ Hc Hu) as Huc.
  destruct Hstep as [Hlt Hpst Hst Hs Ht Hind|Hle Ht Hlog Hst Hs Hrt Hind _ Hnv|e ch Hle Ht Hst Hs Hrt Hprev Hterm Hloop Hcommit Hind Hnv].
  - injection Hind as I1 I2 I3 I4. pose proof (f_equal p_term Hpst) as P1. pose proof (f_equal p_voted Hpst) as P2.
    pose proof (f_equal p_log Hpst) as P3. apply (quiet_advances g h c (callee r) rf sent); try done; [by left| |by right|by apply Hfail].
    unfold p_term in P1; cbn in P1. lia.
  - injection Hind as I1 I2 I3 I4. apply (quiet_advances g h c (callee r) rf sent); try done; [lia|by left|by apply Hfail].
  - destruct Hind as (I2 & I3 & I4). destruct Hup as [[] Hme Hc0 Ha0 [Hli Hbal] _ _ _].
    destruct (accept_merged g (caller r) args (log rf) (log rf') e ch (inv_ghost _ _ _ Hi) (li_agrees _ _ Hli) Hcall Hprev Hterm Hloop)
      as (s & Hsp & Hsl & Hm).
    destruct Hcall as (Hled & Hp & Hlc0 & _). rewrite <- Ht in *. pose proof (ci_hist _ _ _ _ Hc) as Hh.
    set (i := callee r) in *. set (T := currentTerm rf') in *. set (h' := raise i T (length s) h).
    pose proof (raise_frame i T (length s) h) as Hf. pose proof (hf_ext _ _ _ Hf) as Hx.
    pose proof (uc_held _ _ _ _ _ _ Huc) as Hheld.
    assert (Hh' : hist_inv n g h').
    { apply hist_raise; [done|by apply prefix_length|]. intros T' HT'. pose proof (he_vote _ _ _ _ Hheld T' HT') as Hle'.
      unfold p_term in Hle'; cbn in Hle'. lia. }
    exists h'. split; [done|]. rewrite (cast_quiet g c i rf sent) by done.
    apply (commit_update n g g h h'); try done.
    + apply (accept_commit g h i (caller r) rf rf' sent s (LeaderCommit args)); try done.
      { apply (inv_ghost _ _ _ Hi). }
      rewrite Hcommit. destruct (commitIndex rf <? LeaderCommit args) eqn:Hlt; bool_to_prop; [right|by left].
      split_and!; [lia|lia|done|lia].
    + apply (set_commit g g h h'); try done. unfold call_commit. cbn [what set_what callee]. intros _.
      rewrite <- Ht. fold i T. unfold h'. rewrite raise_held, decide_True by done. unfold zlen in *. lia.
Qed.

(** *** Leaders *)

(** A leader stores all of its log. *)
Lemma held_leader (g g' : ghost) (h : hist) i p p' :
  ext g g' -> hist_inv n g h -> held_inv g h i p -> p_term p' = p_term p -> p_log p `prefix_of` p_log p' ->
  Lg g' (p_term p') = p_log p' -> held_inv g' (raise i (p_term p') (length (p_log p')) h) i p'.
Proof.
  intros He Hi [Ht Hv Hc Hk] Hterm Hp HL. set (T := p_term p') in *.
  pose proof (hf_ext _ _ _ (raise_frame i T (length (p_log p')) h)) as Hx.
  split; [|intros t Hx'; specialize (Hv t Hx'); lia|intros t Hx'; specialize (Hc t Hx'); lia|].
  - intros t. rewrite raise_held. case_decide as Hd; [destruct Hd as [_ ->]; lia|]. intros HT. specialize (Ht t HT). lia.
  - intros t N Ho. rewrite raise_held. destruct (decide (t = T)) as [->|Hne].
    + intros _ _. unfold has. by rewrite HL.
    + rewrite decide_False by naive_solver. intros HN. pose proof (hi_len _ _ _ Hi i t).
      assert (Ho' : own g t N) by (apply (own_back g g' He); [lia|done]). rewrite <- Hterm in Hk.
      pose proof (kept_ext g g' h _ He Hx T T t N (p_log p) Ho' ltac:(lia) (Hk t N Ho' HN)) as Hkp.
      intros Hall. apply (has_prefix g' t N (p_log p)); [done|by apply Hkp|done].
Qed.

Lemma leader_advances (g g1 : ghost) h (c : cluster) i rf sent rf' net' :
  inv n g c -> commit_inv n g h c -> up c i = Some (rf, sent) -> ext g g1 -> hist_inv n g1 h -> ballots g1 = ballots g ->
  currentTerm rf' = currentTerm rf -> votedFor rf' = votedFor rf -> log rf `prefix_of` log rf' ->
  Lg g1 (currentTerm rf') = log rf' ->
  state rf' = StateLeader -> commitIndex rf' = commitIndex rf -> lastApplied rf' = lastApplied rf ->
  (forall j m, matchIndex rf' !! j = Some m -> j <> i -> 0 < m -> m < Z.of_nat (held h j (currentTerm rf'))) ->
  (forall g' h', ext g g' -> hext h h' -> Forall (call_commit n g' h') net') ->
  advances g h i rf' g1 (set_up c i rf' sent net').
Proof.
  intros Hi Hc Hu He Hh Hb Ht Hv Hp HL Hst Hci Hla Hm Hnet.
  pose proof (up_inv_of _ _ _ _ _ _ Hi Hu) as [[] Hme Hc0 Ha0 [Hlog Hbal] _ _ _].
  pose proof (up_commit_of _ _ _ _ _ _ Hc Hu) as [Hheld _ _ _ Hset Hla' Hsent].
  set (T := currentTerm rf') in *. set (h' := raise i T (length (log rf')) h).
  pose proof (raise_frame i T (length (log rf')) h) as Hf. pose proof (hf_ext _ _ _ Hf) as Hx. fold h' in Hf, Hx.
  assert (Hlen : forall c0, 0 <= c0 -> c0 < zlen (log rf) -> take (S (Z.to_nat c0)) (log rf') = take (S (Z.to_nat c0)) (log rf)).
  { intros c0 Hz1 Hz2. apply take_prefix; [done|]. unfold zlen in Hz2. lia. }
  pose proof (settled_length _ _ _ _ _ Hset ok_log Hc0) as Hcl.
  exists h'. split; [done|]. rewrite (cast_same g1 i (pst rf)); [|by rewrite Hb|by left].
  apply (commit_update n g g1 h h'); try done; [|split|by apply Hnet]; try congruence.
  - apply hist_raise; [done|by rewrite HL|]. intros T' HT'. pose proof (he_vote _ _ _ _ Hheld T' HT') as Hle.
    unfold p_term in Hle; cbn in Hle. lia.
  - by apply (held_leader g g1 h i (pst rf) (pst rf')); [|apply (ci_hist _ _ _ _ Hc)|..].
  - intros _. unfold h'. fold T. rewrite raise_held, decide_True by done.
    pose proof (hi_len _ _ _ Hh i T) as Hl. rewrite HL in Hl. lia.
  - intros j m _ Hjm Hj Hpos. specialize (Hm j m Hjm Hj Hpos). pose proof (hx_held _ _ Hx j T). fold T. lia.
  - rewrite Hci. apply (settled_take g1 h' (currentTerm rf) _ (log rf)); [|lia|by apply Hlen].
    apply (settled_ext n g g1 h h'); done.
  - rewrite Hsent, Hla. symmetry. apply (delivered_take _ _ (commitIndex rf)); [lia|by apply Hlen].
Qed.

Lemma crown_advances (g : ghost) h (c : cluster) i rf sent rf' net' :
  inv n g c -> commit_inv n g h c -> up c i = Some (rf, sent) ->
  state rf = StateCandidate -> state rf' = StateLeader -> pst rf' = pst rf -> led g !! currentTerm rf = None ->
  ext g (crown g i (currentTerm rf) (log rf)) -> ghost_inv n (crown g i (currentTerm rf) (log rf)) ->
  commitIndex rf' = commitIndex rf -> lastApplied rf' = lastApplied rf -> Forall (fun m => m = 0) (matchIndex rf') ->
  (forall g' h', ext g g' -> hext h h' -> Forall (call_commit n g' h') net') ->
  advances g h i rf' (crown g i (currentTerm rf) (log rf)) (set_up c i rf' sent net').
Proof.
  intros Hi Hc Hu Hcd Hst Hp Hnone He Hg Hci Hla Hfresh Hnet.
  pose proof (up_commit_of _ _ _ _ _ _ Hc Hu) as Huc. pose proof (uc_cand _ _ _ _ _ _ Huc Hcd) as Hcl.
  pose proof (f_equal p_term Hp) as P1. pose proof (f_equal p_voted Hp) as P2. pose proof (f_equal p_log Hp) as P3.
  unfold p_term, p_voted, p_log in P1, P2, P3; cbn in P1, P2, P3. set (T := currentTerm rf) in *.
  apply (leader_advances g _ h c i rf); try done; try congruence.
  - apply (hist_grow n g); [done|done|apply (ci_hist _ _ _ _ Hc)|]. intros t j. cbn [led crown].
    destruct (decide (t = T)) as [->|Hne]; [|rewrite lookup_insert_ne by done; by left].
    rewrite lookup_insert_eq. intros [= <-]. right. exists (log rf). split_and!; [done|cbn [Lg crown]; by rewrite decide_True|].
    destruct (gi_led _ _ Hg T i) as (_ & _ & (S & S1 & S2 & S3) & _); [cbn [led crown]; apply lookup_insert_eq|].
    exists S. split_and!; [done|done|]. intros v Hv. destruct (S3 v Hv) as [? Hbv]. split; [done|].
    destruct (hi_open _ _ _ (ci_hist _ _ _ _ Hc) v T i Hnone Hbv) as (l & cl & Hl & Hcl' & Hnew).
    exists l. split; [done|]. congruence.
  - by rewrite P3.
  - cbn [Lg crown]. by rewrite P1, P3, decide_True.
  - intros j m Hjm _ Hpos. apply (Forall_lookup_1 _ _ _ _ Hfresh) in Hjm. lia.
Qed.

Lemma grows_leader (g : ghost) h i (rf rf' : Raft) g1 :
  grows g i rf rf' g1 -> state rf = StateLeader -> ext g g1 -> hist_inv n g h -> hist_inv n g1 h /\ ballots g1 = ballots g.
Proof.
  intros [_|Hcd _ _ _|e _ _ _ _ _] Hst He Hh; [done|congruence|]. split; [|done].
  apply (hist_grow n g); [done|done|done|]. intros T j Hl. by left.
Qed.

Lemma client_advances (g : ghost) h (c : cluster) i env cmd rf sent x rf' g1 :
  inv n g c -> commit_inv n g h c -> up c i = Some (rf, sent) -> Start env cmd rf = Some (x, rf') ->
  grows g i rf rf' g1 -> ext g g1 -> (state rf' = StateLeader -> Lg g1 (currentTerm rf') = log rf') ->
  advances g h i rf' g1 (set_up c i rf' sent (net c)).
Proof.
  intros Hi Hc Hu Hs%Start_inv Hgr He HL. cbn [fst snd] in Hs.
  pose proof (up_commit_of _ _ _ _ _ _ Hc Hu) as Huc.
  assert (Hrefl : hext h h) by apply (hf_ext _ _ _ (hframe_refl 0%nat h)).
  destruct (decide (state rf = StateLeader)) as [Hst|Hst].
  - destruct Hs as (_ & Hev & Hp & Hst' & [= I1 I2 I3 I4] & Hv).
    pose proof (f_equal p_term Hp) as P1. pose proof (f_equal p_voted Hp) as P2. pose proof (f_equal p_log Hp) as P3.
    unfold p_term, p_voted, p_log in P1, P2, P3; cbn in P1, P2, P3.
    destruct (grows_leader g h i rf rf' g1 Hgr Hst He (ci_hist _ _ _ _ Hc)) as [Hh Hb].
    apply (leader_advances g g1 h c i rf); try done; [by rewrite P3; apply prefix_app_r|by apply HL| |].
    + intros j m. rewrite I4, P1. by apply (uc_match _ _ _ _ _ _ Huc).
    + intros g' h' He' Hx'. by apply (net_commit n g g' h h').
  - injection Hs as -> ->. destruct Hgr as [_|Hcd Hld _ _|e Hld _ _ _ _]; [|congruence|done].
    apply (quiet_advances g h c i rf sent); try done; [by left|by right|apply (ci_net _ _ _ _ Hc)].
Qed.

(** *** Acknowledgements *)

Lemma committable_chosen (g : ghost) h i (rf : Raft) N :
  (i < n)%nat -> me rf = Z.of_nat i -> 0 < N -> committable n rf N -> Lg g (currentTerm rf) = log rf ->
  held h i (currentTerm rf) = length (log rf) ->
  (forall j m, matchIndex rf !! j = Some m -> j <> i -> 0 < m -> m < Z.of_nat (held h j (currentTerm rf))) ->
  chosen n g h (currentTerm rf) (Z.to_nat N).
Proof.
  intros Hin Hme HN (e & He & Hte & Hq) HL Hself Hm. apply znth_Some in He as [_ He].
  split; [exists e; by rewrite HL|]. exists (i :: filter (fun j => acked rf N j = true) (seq 0 n)). split_and!.
  - apply NoDup_cons. split; [|apply NoDup_filter, NoDup_seq]. intros [Ha _]%list_elem_of_filter.
    unfold acked in Ha. by rewrite Hme, Z.eqb_refl in Ha.
  - unfold acks in Hq. simpl length. lia.
  - intros j [->|[Ha Hj]%list_elem_of_filter]%elem_of_cons.
    + split; [done|]. rewrite Hself. by apply lookup_lt_Some in He.
    + apply elem_of_seq in Hj. split; [lia|]. unfold acked in Ha. apply andb_true_iff in Ha as [Hne Ha].
      destruct (matchIndex rf !! j) as [m|] eqn:Hj'; [|done]. bool_to_prop. specialize (Hm j m Hj').
      assert (j <> i) by (intros ->; lia). specialize (Hm ltac:(done) ltac:(lia)). lia.
Qed.

Lemma reply_advances (g : ghost) h (c : cluster) i peer args reply rf sent rf' net' g1 :
  inv n g c -> commit_inv n g h c -> up c i = Some (rf, sent) -> reply_step n peer args reply rf rf' ->
  (forall x, reply = Some x -> Success x = true ->
     PrevLogIndex args + zlen (Entries args) < Z.of_nat (held h peer (ae_Term args))) ->
  grows g i rf rf' g1 -> Forall (call_commit n g h) net' ->
  g1 = g /\ advances g h i rf' g (set_up c i rf' sent net').
Proof.
  intros Hi Hc Hu Hstep Hack Hgr Hnet. pose proof (up_inv_of _ _ _ _ _ _ Hi Hu) as [[] Hme Hc0 Ha0 [Hlog Hbal] _ _ Hlead].
  pose proof (up_commit_of _ _ _ _ _ _ Hc Hu) as Huc.
  assert (Hin : (i < n)%nat) by (rewrite <- (inv_n _ _ _ Hi); eapply lookup_lt_Some, up_lookup, Hu).
  assert (Hg1 : log rf' = log rf -> (state rf' = StateLeader -> state rf = StateLeader) -> g1 = g).
  { intros Hl Hst. destruct Hgr as [_|Hcd Hld _ _|e _ _ _ _ Hl']; [done|specialize (Hst Hld); congruence|].
    rewrite Hl in Hl'. apply (f_equal length) in Hl'. rewrite length_app in Hl'. simpl in Hl'. lia. }
  assert (Hcore : same_core rf rf' -> currentTerm rf' = currentTerm rf /\ log rf' = log rf /\ state rf' = state rf /\ no_vote rf rf').
  { intros (Hp & Hst & _). pose proof (f_equal p_term Hp) as P1. pose proof (f_equal p_voted Hp) as P2.
    pose proof (f_equal p_log Hp) as P3. split_and!; [exact P1|exact P3|done|by left]. }
  destruct Hstep as [Hco Hind|ws Hev Hlt Hl Hst Hind Hnv|next m Hst Hterm (x & -> & Hs) Hco _ Hm _ Hmatch Hla Hcommit
    |x Hst Hterm _ Hco _ _ (R1 & R2 & R3)].
  - destruct (Hcore Hco) as (Ht & Hl & Hs & Hv). injection Hind as I1 I2 I3 I4. split; [apply Hg1; congruence|].
    apply (quiet_advances g h c i rf sent); try done; [lia|by right].
  - injection Hind as I1 I2 I3 I4. split; [apply Hg1; congruence|].
    apply (quiet_advances g h c i rf sent); try done; [by right|lia|by left].
  - destruct (Hcore Hco) as (Ht & Hl & Hst' & Hv). split; [apply Hg1; congruence|].
    destruct (Hlead Hst) as [_ HL]. specialize (Hack x eq_refl Hs). rewrite <- Hterm in Hack.
    assert (Hm' : forall j m', matchIndex rf' !! j = Some m' -> j <> i -> 0 < m' -> m' < Z.of_nat (held h j (currentTerm rf'))).
    { intros j m'. rewrite Hmatch, Ht. destruct (decide (j = peer)) as [->|Hne].
      - rewrite list_lookup_insert_eq by (by eapply lookup_lt_Some). intros [= <-] Hj Hpos.
        destruct (Z.max_spec m (PrevLogIndex args + zlen (Entries args))) as [[_ ->]|[_ Hmax]]; [done|].
        rewrite Hmax in *. by apply (uc_match _ _ _ _ _ _ Huc).
      - rewrite list_lookup_insert_ne by done. by apply (uc_match _ _ _ _ _ _ Huc). }
    exists h. split; [apply hframe_refl|]. rewrite (cast_quiet g c i rf sent) by done.
    apply (commit_update n g g h h); try done; [apply (ci_hist _ _ _ _ Hc)|]. split; try done.
    + apply (held_same g h i (pst rf)); [apply (uc_held _ _ _ _ _ _ Huc)|exact Hl|unfold p_term; cbn; lia].
    + congruence.
    + intros _. rewrite Ht, Hl. by apply (uc_self _ _ _ _ _ _ Huc).
    + intros j m' _. apply Hm'.
    + rewrite Hl. destruct Hcommit as [->|[Hlt Hcm]].
      * apply (settled_take g h (currentTerm rf) _ (log rf)); [apply (uc_settled _ _ _ _ _ _ Huc)|lia|done].
      * right. exists (currentTerm rf'), (Z.to_nat (commitIndex rf')). split_and!; [|lia|lia|by rewrite Ht, HL].
        apply (committable_chosen g h i rf'); try done; [|lia|by rewrite Ht, HL, Hl|].
        -- destruct Hco as (_ & _ & _ & _ & -> & _). done.
        -- rewrite Ht, Hl. by apply (uc_self _ _ _ _ _ _ Huc).
    + pose proof (uc_applied _ _ _ _ _ _ Huc). rewrite Hla. destruct Hcommit as [->|[? _]]; lia.
    + rewrite Hl, Hla. apply (uc_sent _ _ _ _ _ _ Huc).
  - destruct (Hcore Hco) as (Ht & Hl & Hst' & Hv). split; [apply Hg1; congruence|].
    apply (quiet_advances g h c i rf sent); try done; [lia|by right].
Qed.

(** *** Sending and applying *)

Lemma send_commit (g : ghost) h (c : cluster) i j rf sent args :
  inv n g c -> commit_inv n g h c -> up c i = Some (rf, sent) -> (j < n)%nat ->
  buildAppendEntries (Z.of_nat j) rf = Some (Some args) -> call_commit n g h (mkRpc i j true (AppendCall args)).
Proof.
  intros Hi Hc Hu Hj Hb. pose proof (up_inv_of _ _ _ _ _ _ Hi Hu) as [Hok Hme Hc0 Ha0 _ _ _ Hlead].
  pose proof (up_commit_of _ _ _ _ _ _ Hc Hu) as Huc.
  assert (Hst : state rf = StateLeader).
  { unfold buildAppendEntries in Hb. case_match eqn:Hst; [done|]. by apply negb_false_iff, bool_decide_eq_true in Hst. }
  destruct (buildAppendEntries_spec n rf j Hok Hst Hj) as (next & e & _ & Hr & He & Hb').
  rewrite Hb' in Hb. injection Hb as <-. destruct (Hlead Hst) as [_ HL].
  pose proof (uc_settled _ _ _ _ _ _ Huc) as Hset. pose proof (settled_length _ _ _ _ _ Hset (ok_log _ _ Hok) Hc0) as Hlen.
  unfold call_commit. cbn [what ae_Term LeaderCommit PrevLogIndex Entries]. split; [by rewrite HL|].
  unfold zlen in *. rewrite length_drop. lia.
Qed.

Lemma apply_advances (g : ghost) h (c : cluster) i rf sent msgs rf' :
  inv n g c -> commit_inv n g h c -> up c i = Some (rf, sent) -> applyLoop_turn rf = Some (msgs, rf') ->
  advances g h i rf' g (set_up c i rf' (sent ++ msgs) (net c)).
Proof.
  intros Hi Hc Hu Hap. pose proof (up_inv_of _ _ _ _ _ _ Hi Hu) as [[] Hme Hc0 Ha0 _ _ _ _].
  pose proof (up_commit_of _ _ _ _ _ _ Hc Hu) as []. pose proof (settled_length _ _ _ _ _ uc_settled ok_log Hc0) as Hlen.
  unfold applyLoop_turn in Hap.
  destruct (apply_turn_spec (Z.to_nat (commitIndex rf - lastApplied rf)) rf Ha0 Hlen) as
    (msgs' & rf1 & Hap' & Hco & A1 & A2 & A3 & A4 & A5 & A6); [lia|].
  rewrite Hap' in Hap. injection Hap as -> ->. rewrite Z.max_r in A4 by done.
  destruct Hco as (Hp & Hst & _). pose proof (f_equal p_term Hp) as P1. pose proof (f_equal p_voted Hp) as P2.
  pose proof (f_equal p_log Hp) as P3. unfold p_term, p_voted, p_log in P1, P2, P3; cbn in P1, P2, P3.
  exists h. split; [apply hframe_refl|]. rewrite (cast_quiet g c i rf sent) by (done || by left).
  apply (commit_update n g g h h); try done; [apply (ci_hist _ _ _ _ Hc)| |apply (ci_net _ _ _ _ Hc)].
  split; rewrite ?P1, ?P3, ?Hst, ?A1, ?A3, ?Hp, ?A4; try done.
  apply list_eq. intros k. rewrite lookup_app, uc_sent, !delivered_lookup.
  destruct (decide (Z.of_nat k < lastApplied rf)) as [Hk|Hk].
  { rewrite decide_True by lia. destruct (lookup_lt_is_Some_2 (log rf) (S k)) as [e ->]; [unfold zlen in Hlen; lia|done]. }
  assert (Hlen' : length (delivered (log rf) (lastApplied rf)) = Z.to_nat (lastApplied rf)).
  { unfold delivered. rewrite length_imap, length_take. unfold zlen in Hlen. destruct (log rf); simpl in *; lia. }
  rewrite Hlen'. destruct (msgs !! (k - Z.to_nat (lastApplied rf))%nat) as [msg|] eqn:Hm.
  - pose proof (lookup_lt_Some _ _ _ Hm). rewrite decide_True by lia.
    destruct (A6 _ _ Hm) as (M1 & M2 & e & He & M3). destruct msg as [v cm ix]. cbn in M1, M2, M3. subst v cm.
    apply znth_Some in He as [_ He]. cbn in He. replace (Z.to_nat ix) with (S k) in He by lia. rewrite He. cbn. do 2 f_equal. lia.
  - apply lookup_ge_None in Hm. by rewrite decide_False by lia.
Qed.
End Agree.
