(* ===== verification/ClusterChosen.v ===== *)
(** * Runs with fresh elections

    The invariant of commitment along a run in which every node that becomes a leader
    has its [matchIndex] at zero, as after a restart; the code does not reset it. *)
From S2P Require Export ClusterAgree.

Section Fresh.
Context {Cmd : Type} `{GobLaws (Z * Z * list (LogEntry Cmd))}.
#[local] Abbreviation LogEntry := (LogEntry Cmd).
#[local] Abbreviation Raft := (Raft (Cmd := Cmd)).
#[local] Abbreviation cluster := (cluster (Cmd := Cmd)).
#[local] Abbreviation event := (event (Cmd := Cmd)).
#[local] Abbreviation ghost := (ghost (Cmd := Cmd)).
#[local] Abbreviation hist := (hist (Cmd := Cmd)).

(** A node that becomes a leader knows of no stored entries. *)
Definition fresh_step (c c' : cluster) : Prop :=
  forall i rf sent rf' sent', up c i = Some (rf, sent) -> up c' i = Some (rf', sent') ->
  state rf <> StateLeader -> state rf' = StateLeader -> Forall (fun m => m = 0) (matchIndex rf').

Definition fresh_event (e : event) (c : cluster) : Prop :=
  match e with
  | Act a | CrashIn a _ => forall c', act a c = Some c' -> fresh_step c c'
  | Crash _ | Restart _ _ => True
  end.

Fixpoint fresh_run (es : list event) (c : cluster) : Prop :=
  match es with
  | [] => True
  | e :: es => fresh_event e c /\ forall c', step e c = Some c' -> fresh_run es c'
  end.

Context (n : nat).

(** ** Actions *)

Lemma set_up_inj (c : cluster) i rf sent rf1 s1 n1 rf2 s2 n2 :
  up c i = Some (rf, sent) -> set_up c i rf1 s1 n1 = set_up c i rf2 s2 n2 -> rf1 = rf2 /\ s1 = s2 /\ n1 = n2.
Proof.
  intros Hu Heq. pose proof (up_set_up c i rf sent rf1 s1 n1 Hu) as H1. rewrite Heq, (up_set_up c i rf sent _ _ _ Hu) in H1.
  injection H1 as -> ->. split_and!; [done|done|]. by apply (f_equal net) in Heq.
Qed.

(** No history of a log grows. *)
Lemma grows_still (g : ghost) i (rf rf' : Raft) g1 :
  grows g i rf rf' g1 -> (state rf' = StateLeader -> state rf = StateLeader /\ log rf' = log rf) -> g1 = g.
Proof.
  intros [_|Hcd Hld _ _|e _ Hld _ _ Hl] Hst; [done|destruct (Hst Hld); congruence|].
  destruct (Hst Hld) as [_ Hs]. rewrite Hs in Hl. apply (f_equal length) in Hl. rewrite length_app in Hl. simpl in Hl. lia.
Qed.

(** The section of an action against both invariants. *)
Definition acted (g : ghost) (h : hist) (c : cluster) (i : nat) (c' : cluster) : Prop :=
  exists rf sent rf' sent' net' g1 ws, up c i = Some (rf, sent) /\ c' = set_up c i rf' sent' net' /\
    evolves rf rf' ws /\ frame i g g1 /\ ballots g1 = ballots g /\ ghost_inv n g1 /\ log_inv g1 (pst rf') /\
    inv n (cast i (pst rf') g1) c' /\ advances n g h i rf' g1 c'.

(** The result of a section whose outcome is known. *)
Lemma acted_intro (g : ghost) h (c : cluster) i rf sent rf' sent' net' :
  up c i = Some (rf, sent) -> stepped n g c i (set_up c i rf' sent' net') ->
  (forall g1 ws, evolves rf rf' ws -> grows g i rf rf' g1 -> frame i g g1 -> ghost_inv n g1 ->
     inv n (cast i (pst rf') g1) (set_up c i rf' sent' net') ->
     advances n g h i rf' g1 (set_up c i rf' sent' net')) ->
  acted g h c i (set_up c i rf' sent' net').
Proof.
  intros Hu (rf0 & s0 & rf1 & s1 & n1 & g1 & ws & Hu0 & Heq & Hev & Hf & Hb & Hg & Hl & Hi & Hgr) Hadv.
  rewrite Hu in Hu0. injection Hu0 as <- <-. destruct (set_up_inj _ _ _ _ _ _ _ _ _ _ Hu Heq) as (<- & <- & <-).
  exists rf, sent, rf', sent', net', g1, ws. split_and!; try done. by apply (Hadv g1 ws).
Qed.

Section Acts.
Context (Hn : (2 <= n)%nat) (g : ghost) (h : hist) (c : cluster) (Hi : inv n g c) (Hc : commit_inv n g h c).

Lemma same_acted i rf sent : up c i = Some (rf, sent) -> acted g h c i (set_up c i rf sent (net c)).
Proof.
  intros Hu. apply (acted_intro g h c i rf sent); [done|by apply (same_stepped n)|].
  intros g1 ws _ Hgr _ _ _. rewrite (grows_still g i rf rf g1) by done.
  apply (quiet_advances n g h c i rf sent); try done; [by left|by right|apply (ci_net _ _ _ _ Hc)].
Qed.

Lemma elect_acted i rf sent rf' args :
  up c i = Some (rf, sent) -> election_step args rf rf' ->
  acted g h c i (set_up c i rf' sent (vote_calls (length (nodes c)) i args ++ net c)).
Proof.
  intros Hu Hes. apply (acted_intro g h c i rf sent); [done|by apply (elect_stepped n Hn g c i rf)|].
  intros g1 ws _ Hgr _ _ _. rewrite (grows_still g i rf rf' g1) by (done || rewrite (es_state _ _ _ Hes); done).
  by apply (elect_advances n g h c i rf sent rf' args).
Qed.

Lemma deliver_acted k env c' :
  act_deliver k env c = Some c' -> exists r, net c !! k = Some r /\ acted g h c (callee r) c'.
Proof.
  intros Ha. destruct (deliver_stepped n Hn g c k env c' Hi Ha) as (r & Hk & Hs). exists r. split; [done|].
  unfold act_deliver in Ha. rewrite Hk in Ha. cbn [mbind option_bind] in Ha. apply bind_Some in Ha as ([rf sent] & Hu & Ha).
  destruct (what r) as [args| |args|] eqn:Hw; try done; apply bind_Some in Ha as ([reply rf'] & Hr & <-%(inj Some));
    (apply (acted_intro g h c (callee r) rf sent); [done|exact Hs|]; intros g1 ws _ Hgr _ _ _).
  - rewrite (grows_still g (callee r) rf rf' g1); [by apply (deliver_vote_advances n g h c k r env args rf)|done|].
    pose proof (RequestVote_spec _ _ _ _ _ Hr) as (ws' & []). intros Hld. split; [|done]. cbn [snd] in *.
    destruct vs_state as [[Hst _]|[Hst _]]; cbn in *; congruence.
  - rewrite (grows_still g (callee r) rf rf' g1); [by apply (deliver_append_advances n g h c k r env args rf)|done|].
    pose proof (up_inv_of _ _ _ _ _ _ Hi Hu) as Hup. pose proof (rpc_of _ _ _ _ _ Hi Hk) as (_ & _ & _ & Hcall). rewrite Hw in Hcall.
    destruct (AppendEntries_inv env args rf reply rf') as (ws' & Hstep & _ & _); [apply Hcall| |exact Hr|].
    { pose proof (ok_terms _ _ (up_ok _ _ _ _ _ Hup)) as Hall. eapply Forall_impl; [exact Hall|]. cbn beta. lia. }
    intros Hld. cbn [snd] in *.
    destruct Hstep; try congruence. split; [congruence|by apply (f_equal p_log) in Hpst].
Qed.

Lemma net_removed k g' h' : ext g g' -> hext h h' -> Forall (call_commit n g' h') (remove k (net c)).
Proof. intros He Hx. by apply Forall_remove, (net_commit n g g' h h'). Qed.

Lemma hext_refl : hext h h.
Proof. apply (hf_ext _ _ _ (hframe_refl 0%nat h)). Qed.

(** A section after which the node leads only if it did, with the same log. *)
Lemma still_acted i rf sent rf' sent' net' :
  up c i = Some (rf, sent) -> stepped n g c i (set_up c i rf' sent' net') ->
  (state rf' = StateLeader -> state rf = StateLeader /\ log rf' = log rf) ->
  advances n g h i rf' g (set_up c i rf' sent' net') -> acted g h c i (set_up c i rf' sent' net').
Proof.
  intros Hu Hs Hst Ha. apply (acted_intro g h c i rf sent); [done|done|]. intros g1 ws _ Hgr _ _ _.
  by rewrite (grows_still g i rf rf' g1).
Qed.

Lemma return_acted k env c' :
  act_return k env c = Some c' -> fresh_step c c' -> exists r, net c !! k = Some r /\ acted g h c (caller r) c'.
Proof.
  intros Ha Hfr. destruct (return_stepped n Hn g c k env c' Hi Ha) as (r & Hk & Hs). exists r. split; [done|].
  unfold act_return in Ha. rewrite Hk in Ha. cbn [mbind option_bind] in Ha. apply bind_Some in Ha as ([rf sent] & Hu & Ha).
  destruct (awaited r); [|done]. pose proof (up_inv_of _ _ _ _ _ _ Hi Hu) as Hup.
  pose proof (net_removed k g h ltac:(by split) hext_refl) as Hnet.
  destruct (what r) as [|args reply| |args reply] eqn:Hw; try done; apply bind_Some in Ha as ([rf' b] & Hr & <-%(inj Some));
    cbn [fst] in *; (apply (acted_intro g h c (caller r) rf sent); [done|exact Hs|]; intros g1 ws Hev Hgr Hf Hg Hi').
  - destruct (handleVoteReply_spec _ _ _ _ _ _ _ (up_ok _ _ _ _ _ Hup) Hr) as [->|ws' _ Hlt Hl Hst [= I1 I2 I3 I4] Hnv|].
    + rewrite (grows_still g (caller r) rf rf g1) by done. apply quiet_advances with rf; try done; [by left|by right].
    + rewrite (grows_still g (caller r) rf rf' g1) by (done || congruence).
      apply quiet_advances with rf; try done; [by right|lia|by left].
    + pose proof (f_equal p_term Hpst) as P1. pose proof (f_equal p_log Hpst) as P3. pose proof (f_equal p_voted Hpst) as P2.
      unfold p_term, p_voted, p_log in P1, P2, P3; cbn in P1, P2, P3.
      destruct Hcase as [[Hst' [= I1 I2 I3 I4]]|(Hst' & Hq & I1 & I2 & I4 & _)].
      * rewrite (grows_still g (caller r) rf rf' g1) by (done || congruence).
        apply quiet_advances with rf; try done; [by left|lia|right; split_and!; congruence].
      * assert (Hfresh : Forall (fun m => m = 0) (matchIndex rf')).
        { apply (Hfr (caller r) rf sent rf' sent); [done|by apply up_set_up with rf sent|congruence|done]. }
        destruct Hgr as [Hgr|_ _ _ Hnone|e Hld _ _ _ _]; [specialize (Hgr Hst'); congruence| |congruence].
        apply crown_advances; try done; [apply Hf|]. intros g' h'. apply net_removed.
  - destruct (rpc_of _ _ _ _ _ Hi Hk) as (_ & _ & Hlt & Hcall). rewrite Hw in Hcall.
    assert (Hfits : forall x, Some reply = Some x -> state rf = StateLeader -> currentTerm rf = ae_Term args ->
      reply_fits args x (log rf)) by (intros x [= <-] Hst Ht; by apply (leader_fits n g c r (caller r) rf args reply)).
    apply (handleAppendReply_inv n) in Hr; [|apply Hup|done|apply Hup|done|done]. rename Hr into Hstep. pose proof (call_of _ _ _ _ _ _ Hc Hk) as Hcc. unfold call_commit in Hcc. rewrite Hw in Hcc.
    edestruct (reply_advances n g h c (caller r) (callee r) args (Some reply) rf sent rf' (remove k (net c)) g1) as [-> Hadv]; try done.
    intros x [= <-]. exact Hcc.
Qed.

Lemma giveup_acted k env c' :
  act_giveup k env c = Some c' -> exists r, net c !! k = Some r /\ acted g h c (caller r) c'.
Proof.
  intros Ha. destruct (giveup_stepped n g c k env c' Hi Ha) as (r & Hk & Hs). exists r. split; [done|].
  unfold act_giveup in Ha. rewrite Hk in Ha. cbn [mbind option_bind] in Ha. apply bind_Some in Ha as ([rf sent] & Hu & Ha).
  destruct (awaited r); [|done].
  assert (Hnet : Forall (call_commit n g h) (<[k := abandon r]> (net c))).
  { apply Forall_insert; [apply (ci_net _ _ _ _ Hc)|]. exact (call_of _ _ _ _ _ _ Hc Hk). }
  assert (Hquiet : forall rf', same_core rf rf' -> indices rf' = indices rf ->
    stepped n g c (caller r) (set_up c (caller r) rf' sent (<[k := abandon r]> (net c))) ->
    acted g h c (caller r) (set_up c (caller r) rf' sent (<[k := abandon r]> (net c)))).
  { intros rf' (Hp & Hst & _) [= I1 I2 I3 I4] Hs'. pose proof (f_equal p_term Hp) as P1. pose proof (f_equal p_log Hp) as P3.
    pose proof (f_equal p_voted Hp) as P2. unfold p_term, p_voted, p_log in P1, P2, P3; cbn in P1, P2, P3.
    apply (still_acted (caller r) rf sent); [done|done|by rewrite Hst|].
    apply quiet_advances with rf; try done; [by left|lia|by right]. }
  destruct (what r); injection Ha as <-; by apply Hquiet.
Qed.

Lemma client_acted i env cmd rf sent res :
  up c i = Some (rf, sent) -> Start env cmd rf = Some res -> acted g h c i (set_up c i (snd res) sent (net c)).
Proof.
  intros Hu Hs. destruct res as [x rf']. apply (acted_intro g h c i rf sent); [done|by apply (client_stepped n Hn g c i env cmd rf sent _ Hi Hu Hs)|].
  intros g1 ws _ Hgr Hf _ Hi'. apply (client_advances n g h c i env cmd rf sent x rf' g1); try done; [apply Hf|]. intros Hst.
  pose proof (up_inv_of _ _ _ _ _ _ Hi' (up_set_up _ _ _ _ _ _ _ Hu)) as Hup. by destruct (up_lead _ _ _ _ _ Hup Hst) as [_ HL].
Qed.

Lemma send_acted i j c' : act_send i j c = Some c' -> acted g h c i c'.
Proof.
  unfold act_send. intros ([rf sent] & Hu & Ha)%bind_Some. case_bool_decide as Hij; [|done].
  rewrite (inv_n _ _ _ Hi) in Hij. destruct Hij as [Hij Hj]. apply bind_Some in Ha as ([args|] & Hb & <-%(inj Some)).
  - apply (still_acted i rf sent); [done|by apply (send_stepped n)|done|].
    apply quiet_advances with rf; try done; [by left|by right|]. constructor; [|apply (ci_net _ _ _ _ Hc)].
    by apply (send_commit n g h c i j rf sent).
  - replace c with (set_up c i rf sent (net c)) at 2; [by apply same_acted|].
    unfold set_up. rewrite list_insert_id by (by apply up_lookup). by destruct c.
Qed.

Lemma apply_acted i rf sent msgs rf' :
  up c i = Some (rf, sent) -> applyLoop_turn rf = Some (msgs, rf') -> acted g h c i (set_up c i rf' (sent ++ msgs) (net c)).
Proof.
  intros Hu Hap. pose proof Hap as ((Hp & Hst & _) & _)%(apply_turn_core n Hn).
  apply (still_acted i rf sent); [done|by apply (apply_stepped n Hn g c i rf sent msgs rf')| |by apply (apply_advances n g h c i rf sent msgs rf')].
  rewrite Hst. intros ?. split; [done|]. by apply (f_equal p_log) in Hp.
Qed.

Lemma act_acted a c' :
  act a c = Some c' -> fresh_step c c' -> exists i, actor a c = Some i /\ acted g h c i c'.
Proof.
  destruct a as [i env|i env|i env cmd|i j|k env|k env|k env|i]; cbn [act actor]; intros Ha Hfr.
  - apply bind_Some in Ha as ([rf sent] & Hu & Ha). apply bind_Some in Ha as ([args rf'] & Ht & <-%(inj Some)).
    exists i. split; [done|]. apply ticker_turn_spec in Ht. cbn [fst snd] in *. destruct args as [args|]; [by eapply elect_acted|].
    subst rf'. by eapply same_acted.
  - apply bind_Some in Ha as ([rf sent] & Hu & Ha). apply bind_Some in Ha as ([args rf'] & Ht & <-%(inj Some)).
    exists i. split; [done|]. eapply elect_acted; [done|]. by eapply DebugForceElection_spec.
  - apply bind_Some in Ha as ([rf sent] & Hu & Ha). apply bind_Some in Ha as (res & Hs & <-%(inj Some)).
    exists i. split; [done|]. by apply client_acted with env cmd rf.
  - exists i. split; [done|]. by apply (send_acted i j).
  - apply deliver_acted in Ha as (r & -> & Hs). by exists (callee r).
  - apply return_acted in Ha as (r & -> & Hs); [|done]. by exists (caller r).
  - apply giveup_acted in Ha as (r & -> & Hs). by exists (caller r).
  - apply bind_Some in Ha as ([rf sent] & Hu & Ha). apply bind_Some in Ha as ([msgs rf'] & Ht & <-%(inj Some)).
    exists i. split; [done|]. by apply (apply_acted i rf sent msgs).
Qed.

(** ** Crashes and restarts *)

Lemma crash_commit g' h' i f p :
  ext g g' -> hframe i h h' -> hist_inv n g' h' -> file_inv f p -> held_inv g' h' i p -> commit_inv n g' h' (crash_node i f c).
Proof.
  intros He Hf Hh Hp Hheld. apply (commit_update n g g' h h'); try done; [by exists p|].
  apply Forall_fmap. eapply Forall_impl; [apply (net_commit n g g' h h' c Hc He (hf_ext _ _ _ Hf))|].
  intros r Hr. unfold orphan. cbn. case_decide; exact Hr.
Qed.

(** A crash in a section leaves the state before its votes and its entries, or that at
    its end. *)
Lemma crash_in_acted a m c' i rf sent rf1 sent1 :
  act a c = Some c' -> fresh_step c c' -> actor a c = Some i -> up c i = Some (rf, sent) -> up c' i = Some (rf1, sent1) ->
  exists g' h', ext g g' /\ hext h h' /\ inv n g' (crash_node i (halted rf rf1 m) c) /\
    commit_inv n g' h' (crash_node i (halted rf rf1 m) c).
Proof.
  intros Ha Hfr Hact Hu Hu1. destruct (act_acted a c' Ha Hfr) as (j & Hj & rf0 & s0 & rf' & s' & net' & g1 & ws & Hu0 & -> & Hev &
    Hf & Hb & Hg & Hl & Hi' & h' & Hfr' & Hc'). rewrite Hact in Hj. injection Hj as <-. rewrite Hu in Hu0. injection Hu0 as <- <-.
  rewrite (up_set_up _ _ _ _ _ _ _ Hu) in Hu1. injection Hu1 as <- <-.
  destruct (crash_in_inv n Hn g g1 c i m rf rf' sent ws Hi Hu Hev Hf Hb Hg Hl) as (w & g0 & Hw & Hat & He & Hi1).
  pose proof (up_set_up c i rf sent rf' s' net' Hu) as Hu'.
  destruct Hat as [[-> ->]|(-> & Hlw & Hple & Hv)].
  - exists (cast i (pst rf') g1), h'. split_and!; [done|apply Hfr'|done|].
    apply crash_commit with (pst rf'); try done; [apply (ci_hist _ _ _ _ Hc')|].
    exact (uc_held _ _ _ _ _ _ (up_commit_of _ _ _ _ _ _ _ Hc' Hu')).
  - pose proof (up_inv_of _ _ _ _ _ _ Hi Hu) as [_ _ _ _ [_ Hbal] _ _ _].
    pose proof (uc_held _ _ _ _ _ _ (up_commit_of _ _ _ _ _ _ _ Hc Hu)) as Hheld.
    assert (Hsame : cast i w g = g).
    { apply (cast_same g i (pst rf)); [done|]. destruct Hv as [->|?]; [by left|by right]. }
    rewrite Hsame in *. exists g, h. split_and!; [done|apply hext_refl|done|].
    apply crash_commit with w; try done; [apply (ci_hist _ _ _ _ Hc)|].
    apply (held_same g h i (pst rf)); [done|done|]. unfold ple in Hple. lia.
Qed.

Lemma restart_commit i env f rf :
  nodes c !! i = Some (Down f) -> Make env true (length (nodes c)) (Z.of_nat i) (MakePersister f) = Some rf ->
  commit_inv n g h (set_up c i rf [] (net c)).
Proof.
  intros Hd Hm. destruct (ci_nodes _ _ _ _ Hc i _ Hd) as (p & [Hp Hne] & Hheld).
  destruct (Make_spec env (length (nodes c)) (Z.of_nat i) f p Hp Hne)
    as (rf' & Hm' & Hpst & Hst & _ & _ & _ & Hci & Hla & _ & _).
  rewrite Hm' in Hm. injection Hm as ->.
  apply (commit_update n g g h h); try done; [apply (ci_hist _ _ _ _ Hc)| |apply (ci_net _ _ _ _ Hc)].
  split; rewrite ?Hpst, ?Hci, ?Hla; try done; try congruence; by left.
Qed.

Lemma step_acted e c' :
  step e c = Some c' -> fresh_event e c -> exists g' h', ext g g' /\ hext h h' /\ inv n g' c' /\ commit_inv n g' h' c'.
Proof.
  destruct e as [a|a m|i|i env]; cbn [step fresh_event]; intros Hs Hfr.
  - destruct (act_acted a c' Hs (Hfr c' Hs)) as (i & _ & rf & s & rf' & s' & net' & g1 & ws & Hu & -> & Hev & Hf & Hb & _ & _ &
      Hi' & h' & Hf' & Hc'). exists (cast i (pst rf') g1), h'. split_and!; [|apply Hf'|done|done].
    eapply ext_trans; [apply Hf|]. eapply fr_ext, (cast_frame g1 i (pst rf)); [|apply (ev_ple _ _ _ Hev)].
    rewrite Hb. apply (up_inv_of _ _ _ _ _ _ Hi Hu).
  - apply bind_Some in Hs as (i & Hact & Hs). apply bind_Some in Hs as ([rf sent] & Hu & Hs).
    apply bind_Some in Hs as (c1 & Ha & Hs). apply bind_Some in Hs as ([rf1 sent1] & Hu1 & <-%(inj Some)).
    by apply (crash_in_acted a m c1 i rf sent rf1 sent1); [|apply Hfr|..].
  - apply bind_Some in Hs as ([rf sent] & Hu & <-%(inj Some)).
    exists g, h. split_and!; [done|apply hext_refl| |].
    + pose proof (up_inv_of _ _ _ _ _ _ Hi Hu) as []. apply (crash_inv n g _ _ _ _ (pst rf)); try done; [apply (inv_ghost _ _ _ Hi)].
    + pose proof (up_inv_of _ _ _ _ _ _ Hi Hu) as []. apply crash_commit with (pst rf); try done; [apply (ci_hist _ _ _ _ Hc)|].
      exact (uc_held _ _ _ _ _ _ (up_commit_of _ _ _ _ _ _ _ Hc Hu)).
  - apply bind_Some in Hs as ([|f] & Hd & Hs); [done|]. apply bind_Some in Hs as (rf & Hm & <-%(inj Some)).
    exists g, h. split_and!; [done|apply hext_refl|by apply (restart_inv n Hn g c i env f)|by apply (restart_commit i env f)].
Qed.
End Acts.

(** ** Runs *)

Lemma fresh_run_commit g h es c c' :
  (2 <= n)%nat -> inv n g c -> commit_inv n g h c -> fresh_run es c -> run es c = Some c' ->
  exists g' h', ext g g' /\ hext h h' /\ inv n g' c' /\ commit_inv n g' h' c'.
Proof.
  intros Hn. revert g h c. induction es as [|e es IH]; intros g h c Hi Hc; cbn [run fresh_run].
  { intros _ <-%(inj Some). exists g, h. split_and!; [done|apply hext_refl|done|done]. }
  intros [Hfe Hfr] (c1 & Hs & Hr)%bind_Some.
  destruct (step_acted Hn g h c Hi Hc e c1 Hs Hfe) as (g1 & h1 & He1 & Hx1 & Hi1 & Hc1).
  destruct (IH g1 h1 c1 Hi1 Hc1 (Hfr c1 Hs) Hr) as (g2 & h2 & He2 & Hx2 & Hi2 & Hc2).
  exists g2, h2. split_and!; [by eapply ext_trans|by eapply hext_trans|done|done].
Qed.

Definition hist0 : hist := mkHist (fun _ _ => 0%nat) ∅ ∅.

Lemma init_commit : commit_inv n ghost0 hist0 (init n).
Proof.
  split.
  - split; cbn [held vlog clog hist0]; try done; try lia; intros *; rewrite lookup_empty; done || by intros [? ?].
  - intros i nd [-> _]%lookup_replicate. exists (0, -1, [mkEntry 0 None]). split; [by split|].
    split; cbn [held vlog clog hist0]; try lia; intros *; rewrite ?lookup_empty; (by intros [? ?]) || lia.
  - constructor.
Qed.
End Fresh.
