(* ===== verification/Agreement.v ===== *)
(** * Agreement of the nodes

    In a run with fresh elections all nodes send the messages of one history to
    their stores, at every moment of the run. *)
From S2P Require Export ClusterChosen ClusterLive ClusterViews.

(** ** Chains *)

(** Lists of which any two are comparable are prefixes of one list. *)
Lemma chain_max {A} (ls : list (list A)) :
  (forall x y, x ∈ ls -> y ∈ ls -> x `prefix_of` y \/ y `prefix_of` x) ->
  exists m, forall x, x ∈ ls -> x `prefix_of` m.
Proof.
  intros Hls. cut (exists m, (m = [] \/ m ∈ ls) /\ forall x, x ∈ ls -> x `prefix_of` m); [naive_solver|].
  induction ls as [|l ls IH]; [exists []; split; [by left|]; by intros x ?%not_elem_of_nil|].
  destruct IH as (m & Hm & Hall); [intros x y Hx Hy; apply Hls; by right|].
  assert (Hcmp : l `prefix_of` m \/ m `prefix_of` l).
  { destruct Hm as [->|Hm]; [right; apply prefix_nil|]. apply Hls; [by left|by right]. }
  destruct Hcmp as [Hp|Hp].
  - exists m. split; [destruct Hm; [by left|right; by right]|]. intros x [->|Hx]%elem_of_cons; [done|by apply Hall].
  - exists l. split; [right; by left|]. intros x [->|Hx]%elem_of_cons; [done|]. etrans; [by apply Hall|done].
Qed.

Section Agreement.
Context {Cmd : Type} `{GobLaws (Z * Z * list (LogEntry Cmd))}.
#[local] Abbreviation LogEntry := (LogEntry Cmd).
#[local] Abbreviation Raft := (Raft (Cmd := Cmd)).
#[local] Abbreviation cluster := (cluster (Cmd := Cmd)).
#[local] Abbreviation event := (event (Cmd := Cmd)).
#[local] Abbreviation ghost := (ghost (Cmd := Cmd)).
#[local] Abbreviation hist := (hist (Cmd := Cmd)).
Context (n : nat).

(** ** What a node has sent *)

Lemma settled_le (g : ghost) (h : hist) t (l : list LogEntry) c k :
  settled n g h t l c -> 0 <= k <= c -> settled n g h t l k.
Proof.
  intros [->|(T & N & Hc & Ht & Hle & Htk)] Hk; [left; lia|]. right. exists T, N. split_and!; [done|done|lia|].
  pose proof (f_equal (take (S (Z.to_nat k))) Htk) as Hx. rewrite !take_take, !Nat.min_l in Hx by lia. exact Hx.
Qed.

(** Two logs have the same entries as far as both are committed. *)
Lemma settled_agree (g : ghost) (h : hist) t t' (l l' : list LogEntry) k :
  (2 <= n)%nat -> ghost_inv n g -> hist_inv n g h -> settled n g h t l k -> settled n g h t' l' k -> 0 < k ->
  take (S (Z.to_nat k)) l = take (S (Z.to_nat k)) l'.
Proof.
  intros Hn Hg Hh [?|(T & N & Hc & _ & Hle & Htk)] [?|(T' & N' & Hc' & _ & Hle' & Htk')] Hk; try lia.
  assert (Hord : forall T T' N N', chosen n g h T N -> chosen n g h T' N' -> T <= T' -> k <= Z.of_nat N ->
    take (S (Z.to_nat k)) (Lg g T) = take (S (Z.to_nat k)) (Lg g T')).
  { intros T1 T2 N1 N2 H1 H2 HT HN. pose proof (chosen_agree n g h T1 N1 T2 N2 Hn Hg Hh H1 H2 HT) as Hx.
    unfold has in Hx. apply (f_equal (take (S (Z.to_nat k)))) in Hx. rewrite !take_take, !Nat.min_l in Hx by lia. done. }
  rewrite Htk, Htk'. destruct (Z.le_ge_cases T T').
  - by apply (Hord T T' N N').
  - symmetry. by apply (Hord T' T N' N).
Qed.

Lemma delivered_prefix (l : list LogEntry) k k' : k <= k' -> delivered l k `prefix_of` delivered l k'.
Proof.
  intros Hk. unfold delivered. set (L := tail l).
  rewrite <- (take_drop (Z.to_nat k) (take (Z.to_nat k') L)), take_take, Nat.min_l, imap_app by lia. by eexists.
Qed.

(** The messages of committed entries. *)
Definition agreed (g : ghost) (h : hist) (sent : list (ApplyMsg Cmd)) : Prop :=
  exists t l k, 0 <= k /\ settled n g h t l k /\ sent = delivered l k.

Lemma agreed_ext g g' h h' sent : ext g g' -> hext h h' -> agreed g h sent -> agreed g' h' sent.
Proof.
  intros He Hx (t & l & k & Hk & Hs & ->). exists t, l, k. split_and!; [done| |done]. by apply (settled_ext n g g' h h').
Qed.

Lemma agreed_comparable g h sent sent' :
  (2 <= n)%nat -> ghost_inv n g -> hist_inv n g h -> agreed g h sent -> agreed g h sent' ->
  sent `prefix_of` sent' \/ sent' `prefix_of` sent.
Proof.
  intros Hn Hg Hh (t & l & k & Hk & Hs & ->) (t' & l' & k' & Hk' & Hs' & ->).
  assert (Hle : forall t t' l l' k k', settled n g h t l k -> settled n g h t' l' k' -> 0 <= k <= k' ->
    delivered l k `prefix_of` delivered l' k').
  { intros t1 t2 l1 l2 k1 k2 H1 H2 Hle. destruct (decide (k1 = 0)) as [->|Hne].
    { rewrite delivered_zero. apply prefix_nil. }
    rewrite (delivered_take l2 l1 k1 k1); [apply delivered_prefix; lia|lia|].
    apply (settled_agree g h t1 t2); try done; [|lia]. by apply (settled_le g h t2 l2 k2). }
  destruct (Z.le_ge_cases k k').
  - left. by apply (Hle t t').
  - right. by apply (Hle t' t).
Qed.

Lemma sent_agreed g h (c : cluster) i rf sent :
  inv n g c -> commit_inv n g h c -> up c i = Some (rf, sent) -> agreed g h sent.
Proof.
  intros Hi Hc Hu. pose proof (up_commit_of _ _ _ _ _ _ _ Hc Hu) as []. pose proof (up_inv_of _ _ _ _ _ _ Hi Hu) as [].
  exists (currentTerm rf), (log rf), (lastApplied rf). split_and!; [done| |done]. by apply (settled_le g h _ _ (commitIndex rf)).
Qed.

(** The nodes that run in a state, by what they have sent. *)
Definition sents (c : cluster) : list (list (ApplyMsg Cmd)) :=
  omap (fun nd => match nd with Up _ sent => Some sent | Down _ => None end) (nodes c).

Lemma elem_of_sents (c : cluster) sent : sent ∈ sents c <-> exists i rf, up c i = Some (rf, sent).
Proof.
  unfold sents, up. rewrite list_elem_of_omap. split.
  - intros ([rf s|f] & [i Hi]%list_elem_of_lookup_1 & Hs); [|done]. injection Hs as ->. exists i, rf. by rewrite Hi.
  - intros (i & rf & ([rf0 s|f] & Hi & Hs)%bind_Some); [|done]. injection Hs as <- <-.
    exists (Up rf0 s). split; [by eapply list_elem_of_lookup_2|done].
Qed.

(** What the nodes send at any moment of a run is agreed at its end. *)
Lemma run_agreed g h es (c c' : cluster) :
  (2 <= n)%nat -> inv n g c -> commit_inv n g h c -> fresh_run es c -> run es c = Some c' ->
  exists g' h' ls, ghost_inv n g' /\ hist_inv n g' h' /\ ext g g' /\ hext h h' /\ Forall (agreed g' h') ls /\
    forall es1 es2 c1 i rf sent, es = es1 ++ es2 -> run es1 c = Some c1 -> up c1 i = Some (rf, sent) -> sent ∈ ls.
Proof.
  intros Hn. revert g h c. induction es as [|e es IH]; intros g h c Hi Hc; cbn [run fresh_run].
  - intros _ <-%(inj Some). exists g, h, (sents c).
    split_and!; [apply (inv_ghost _ _ _ Hi)|apply (ci_hist _ _ _ _ Hc)|done|apply hext_refl| |].
    + apply Forall_forall. intros sent (i & rf & Hu)%elem_of_sents. by apply (sent_agreed g h c i rf).
    + intros es1 es2 c1 i rf sent [-> ->]%eq_sym%app_nil [= <-] Hu. apply elem_of_sents. eauto.
  - intros [Hfe Hfr] (c1 & Hs & Hr)%bind_Some.
    destruct (step_acted n Hn g h c Hi Hc e c1 Hs Hfe) as (g1 & h1 & He1 & Hx1 & Hi1 & Hc1).
    destruct (IH g1 h1 c1 Hi1 Hc1 (Hfr c1 Hs) Hr) as (g2 & h2 & ls & Hg2 & Hh2 & He2 & Hx2 & Hls & Hall).
    pose proof (ext_trans _ _ _ He1 He2) as He. pose proof (hext_trans _ _ _ Hx1 Hx2) as Hx.
    exists g2, h2, (sents c ++ ls). split_and!; try done.
    + apply Forall_app. split; [|done]. apply Forall_forall. intros sent (i & rf & Hu)%elem_of_sents.
      apply (agreed_ext g g2 h h2); [done|done|]. by apply (sent_agreed g h c i rf).
    + intros [|e1 es1] es2 c2 i rf sent Heq Hr2 Hu; apply elem_of_app.
      * left. injection Hr2 as <-. apply elem_of_sents. eauto.
      * right. cbn [app] in Heq. injection Heq as <- Heq. cbn [run] in Hr2. rewrite Hs in Hr2. by apply (Hall es1 es2 c2 i rf).
Qed.

Lemma fresh_history es (c : cluster) :
  (2 <= n)%nat -> fresh_run es (init n) -> run es (init n) = Some c ->
  exists hist, forall es1 es2 c1 i rf sent,
    es = es1 ++ es2 -> run es1 (init n) = Some c1 -> up c1 i = Some (rf, sent) -> sent `prefix_of` hist.
Proof.
  intros Hn Hf Hr.
  destruct (run_agreed ghost0 hist0 es (init n) c Hn (init_inv n Hn) (init_commit n) Hf Hr)
    as (g & h & ls & Hg & Hh & _ & _ & Hls & Hall).
  destruct (chain_max ls) as [m Hm].
  { intros x y Hx Hy. rewrite Forall_forall in Hls. apply (agreed_comparable g h); auto. }
  exists m. intros es1 es2 c1 i rf sent Heq Hr1 Hu. apply Hm. by apply (Hall es1 es2 c1 i rf).
Qed.

(** The invariants at the end of a fresh run. *)
Lemma fresh_inv es (c : cluster) :
  (2 <= n)%nat -> fresh_run es (init n) -> run es (init n) = Some c -> exists g h, inv n g c /\ commit_inv n g h c.
Proof.
  intros Hn Hf Hr. destruct (fresh_run_commit n ghost0 hist0 es (init n) c) as (g & h & _ & _ & Hi & Hc);
    [done|by apply init_inv|apply init_commit|done|done|]. by exists g, h.
Qed.

(** ** Leaders *)

Lemma committed_in_log g h (c : cluster) i rf sent :
  inv n g c -> commit_inv n g h c -> up c i = Some (rf, sent) -> commitIndex rf < zlen (log rf).
Proof.
  intros Hi Hc Hu. pose proof (up_inv_of _ _ _ _ _ _ Hi Hu) as [Hok _ Hc0 _ _ _ _ _].
  apply (settled_length n g h (currentTerm rf)); [apply (uc_settled _ _ _ _ _ _ (up_commit_of _ _ _ _ _ _ _ Hc Hu))|apply Hok|done].
Qed.

Lemma leader_has_committed g h g' h' (c c' : cluster) i j rf sent rf' sent' :
  (2 <= n)%nat -> inv n g c -> commit_inv n g h c -> ext g g' -> hext h h' -> inv n g' c' -> commit_inv n g' h' c' ->
  up c i = Some (rf, sent) -> up c' j = Some (rf', sent') -> state rf' = StateLeader -> currentTerm rf <= currentTerm rf' ->
  take (S (Z.to_nat (commitIndex rf))) (log rf') = take (S (Z.to_nat (commitIndex rf))) (log rf).
Proof.
  intros Hn Hi Hc He Hx Hi' Hc' Hu Hu' Hst Ht. pose proof (up_inv_of _ _ _ _ _ _ Hi' Hu') as Hup'.
  pose proof (up_inv_of _ _ _ _ _ _ Hi Hu) as Hup. destruct (up_lead _ _ _ _ _ Hup' Hst) as [Hl HL].
  pose proof (uc_settled _ _ _ _ _ _ (up_commit_of _ _ _ _ _ _ _ Hc Hu)) as Hs.
  destruct (decide (commitIndex rf = 0)) as [Hz|Hnz].
  { rewrite Hz. cbn [Z.to_nat]. destruct (up_pst _ _ _ _ _ Hup) as [[H1 _ _ _] _], (up_pst _ _ _ _ _ Hup') as [[H2 _ _ _] _].
    unfold p_log in H1, H2; cbn in H1, H2. destruct (log rf), (log rf'); simplify_eq/=. done. }
  apply (settled_ext n g g' h h' He Hx) in Hs. destruct Hs as [Hz|(T & N & Hch & HT & HN & Htk)]; [done|].
  rewrite Htk, <- HL. pose proof (chosen_has n g' h' T N (currentTerm rf') j Hn (inv_ghost _ _ _ Hi') (ci_hist _ _ _ _ Hc') Hch Hl
    ltac:(lia)) as Hhas. unfold has in Hhas. apply (f_equal (take (S (Z.to_nat (commitIndex rf))))) in Hhas.
  rewrite !take_take, !Nat.min_l in Hhas by lia. exact Hhas.
Qed.

(** ** No panic *)

Lemma apply_total g h (c : cluster) i :
  inv n g c -> commit_inv n g h c -> is_up c i = true -> is_Some (act (Apply i) c).
Proof.
  intros Hi Hc (rf & sent & Hu)%is_up_Some. cbn [act]. apply (bind_is_Some _ _ _ Hu).
  pose proof (up_inv_of _ _ _ _ _ _ Hi Hu) as [_ _ _ Ha0 _ _ _ _].
  destruct (apply_turn_spec (Z.to_nat (commitIndex rf - lastApplied rf)) rf Ha0 (committed_in_log g h c i rf sent Hi Hc Hu))
    as (msgs & rf' & Hap & _); [lia|]. unfold applyLoop_turn. rewrite Hap. by eexists.
Qed.

(** ** Runs in which nobody is elected twice

    A sufficient condition that needs no look at [matchIndex]: between two starts a node
    wins at most one election. *)

Definition leading (c : cluster) (i : nat) : bool :=
  match up c i with Some (rf, _) => bool_decide (state rf = StateLeader) | None => false end.

Definition wins (c c' : cluster) (i : nat) : bool := negb (leading c i) && leading c' i.

(** [past]: the nodes that have led since they started. *)
Definition once_event (past : list nat) (e : event) (c : cluster) : bool :=
  match e with
  | Act a | CrashIn a _ =>
      match act a c with
      | Some c' => forallb (fun i => negb (wins c c' i && bool_decide (i ∈ past))) (seq 0 (length (nodes c)))
      | None => true
      end
  | _ => true
  end.

Definition led_since (past : list nat) (c' : cluster) : list nat :=
  List.filter (fun i => is_up c' i && (bool_decide (i ∈ past) || leading c' i)) (seq 0 (length (nodes c'))).

Fixpoint once_run (past : list nat) (es : list event) (c : cluster) : bool :=
  match es with
  | [] => true
  | e :: es =>
      once_event past e c && match step e c with Some c' => once_run (led_since past c') es c' | None => true end
  end.

(** The others know of no stored entries. *)
Definition unled (past : list nat) (c : cluster) : Prop :=
  forall i rf sent, up c i = Some (rf, sent) -> i ∉ past -> state rf <> StateLeader /\ Forall (fun m => m = 0) (matchIndex rf).

Lemma up_index (c : cluster) i rf sent : up c i = Some (rf, sent) -> (i < length (nodes c))%nat.
Proof. intros Hu%up_lookup. by eapply lookup_lt_Some. Qed.

Lemma elem_of_led_since past (c : cluster) i rf sent :
  up c i = Some (rf, sent) -> i ∉ led_since past c -> (i ∉ past) /\ state rf <> StateLeader.
Proof.
  intros Hu Hno. assert (Hb : bool_decide (i ∈ past) || leading c i = false).
  { apply not_true_is_false. intros Hb. apply Hno, list_elem_of_In, filter_In. split; [apply in_seq; pose proof (up_index _ _ _ _ Hu); lia|].
    unfold is_up. by rewrite Hu, Hb. }
  apply orb_false_iff in Hb as [Hb Hl]. unfold leading in Hl. rewrite Hu in Hl. split; [by apply bool_decide_eq_false in Hb|].
  by apply bool_decide_eq_false in Hl.
Qed.

(** Where a node of the state after an action comes from. *)
Lemma act_match g a (c c' : cluster) i rf' sent' :
  (2 <= n)%nat -> inv n g c -> act a c = Some c' -> up c' i = Some (rf', sent') ->
  exists rf sent, up c i = Some (rf, sent) /\ (state rf <> StateLeader -> matchIndex rf' = matchIndex rf).
Proof.
  intros Hn Hi [(j & rf & sent & rf1 & sent1 & net1 & Hu & -> & _ & Hm)| ->]%(act_section n Hn g) Hu'; [|by eauto|done].
  destruct (decide (i = j)) as [->|Hne].
  - rewrite (up_set_up _ _ _ _ _ _ _ Hu) in Hu'. injection Hu' as -> ->. eauto.
  - unfold up, set_up in Hu'; cbn [nodes] in Hu'. rewrite list_lookup_insert_ne in Hu' by done. by exists rf', sent'.
Qed.

Lemma once_act_fresh g past a (c c' : cluster) :
  (2 <= n)%nat -> inv n g c -> unled past c -> once_event past (Act a) c = true -> act a c = Some c' -> fresh_step c c'.
Proof.
  intros Hn Hi Hun He Ha i rf sent rf' sent' Hu Hu' Hst Hst'. cbn [once_event] in He. rewrite Ha, forallb_forall in He.
  assert (Hno : i ∉ past).
  { specialize (He i). rewrite in_seq in He. specialize (He ltac:(pose proof (up_index _ _ _ _ Hu); lia)).
    unfold wins, leading in He. rewrite Hu, Hu', bool_decide_eq_false_2, bool_decide_eq_true_2 in He by done. cbn in He.
    by apply negb_true_iff, bool_decide_eq_false in He. }
  destruct (act_match g a c c' i rf' sent' Hn Hi Ha Hu') as (rf0 & sent0 & Hu0 & Hm). rewrite Hu in Hu0. injection Hu0 as <- <-.
  rewrite Hm by done. by apply (Hun i rf sent).
Qed.

Lemma unled_step g past e (c c' : cluster) :
  (2 <= n)%nat -> inv n g c -> unled past c -> step e c = Some c' -> unled (led_since past c') c'.
Proof.
  intros Hn Hi Hun Hs i rf sent Hu [Hno Hst]%(elem_of_led_since past c' i rf sent Hu). split; [done|].
  assert (Hcrash : forall j f, c' = crash_node j f c -> Forall (fun m => m = 0) (matchIndex rf)).
  { intros j f ->. apply (Hun i rf sent); [|done]. unfold up, crash_node in *; cbn [nodes] in Hu. destruct (decide (i = j)) as [->|Hne].
    - destruct (decide (j < length (nodes c))%nat); [by rewrite list_lookup_insert_eq in Hu by done|].
      by rewrite list_insert_ge in Hu by lia.
    - by rewrite list_lookup_insert_ne in Hu. }
  destruct e as [a|a m|j|j env]; cbn [step] in Hs.
  - destruct (act_match g a c c' i rf sent Hn Hi Hs Hu) as (rf0 & sent0 & Hu0 & Hm).
    destruct (Hun i rf0 sent0 Hu0 Hno) as [Hst0 Hz]. by rewrite Hm.
  - apply bind_Some in Hs as (j & _ & Hs). apply bind_Some in Hs as (x & _ & Hs). apply bind_Some in Hs as (c1 & _ & Hs).
    apply bind_Some in Hs as (y & _ & Hs%(inj Some)). by eapply Hcrash.
  - apply bind_Some in Hs as (x & _ & Hs%(inj Some)). by eapply Hcrash.
  - apply bind_Some in Hs as ([|f] & Hd & Hs); [done|]. apply bind_Some in Hs as (rf1 & Hm & <-%(inj Some)).
    unfold up, set_up in Hu; cbn [nodes] in Hu. destruct (decide (i = j)) as [->|Hne].
    + rewrite list_lookup_insert_eq in Hu by (by eapply lookup_lt_Some). injection Hu as -> <-.
      destruct (inv_nodes _ _ _ Hi _ _ Hd) as (p0 & [Hp Hne] & _).
      destruct (Make_spec env (length (nodes c)) (Z.of_nat j) f p0 Hp Hne) as (rf2 & Hm' & _ & _ & _ & _ & _ & _ & _ & _ & Hmt).
      rewrite Hm' in Hm. injection Hm as ->. rewrite Hmt. by apply Forall_replicate.
    + rewrite list_lookup_insert_ne in Hu by done. by apply (Hun i rf sent).
Qed.

Lemma once_run_fresh g past es (c : cluster) :
  (2 <= n)%nat -> inv n g c -> unled past c -> once_run past es c = true -> fresh_run es c.
Proof.
  intros Hn. revert g past c. induction es as [|e es IH]; intros g past c Hi Hun; cbn [once_run fresh_run]; [done|].
  intros [He Hr]%andb_true_iff. split.
  - destruct e as [a|a m|j|j env]; cbn [fresh_event]; try done; intros c' Ha; by apply (once_act_fresh g past a).
  - intros c' Hs. rewrite Hs in Hr. destruct (step_inv n Hn g e c c' Hi Hs) as (g1 & _ & Hi1).
    apply (IH g1 (led_since past c')); [done| |done]. by apply (unled_step g past e c).
Qed.

Lemma once_fresh es : (2 <= n)%nat -> once_run [] es (init n) = true -> fresh_run es (init n).
Proof.
  intros Hn. apply (once_run_fresh ghost0 []); [done|by apply init_inv|]. intros i rf sent Hu _. exfalso.
  unfold up, init in Hu; cbn [nodes] in Hu. apply bind_Some in Hu as (nd & [-> _]%lookup_replicate & Hx). done.
Qed.
End Agreement.
