(* ===== verification/ClusterRuns.v ===== *)
(** * Concrete clusters

    A codec that satisfies the laws, and runs of a cluster of three nodes that the
    kernel evaluates. *)
From S2P Require Export ClusterReplicate.

(** ** A codec for countable types *)

Fixpoint pos_bytes (p : positive) : bytes :=
  match p with
  | xH => [Byte.x02]
  | xO p => Byte.x00 :: pos_bytes p
  | xI p => Byte.x01 :: pos_bytes p
  end.

Fixpoint bytes_pos (b : bytes) : option positive :=
  match b with
  | [] => None
  | Byte.x02 :: _ => Some xH
  | Byte.x00 :: b => xO <$> bytes_pos b
  | Byte.x01 :: b => xI <$> bytes_pos b
  | _ => None
  end.

Lemma bytes_pos_bytes p : bytes_pos (pos_bytes p) = Some p.
Proof. induction p as [p IH|p IH|]; simpl; by rewrite ?IH. Qed.

Section Codec.
Context {A : Type} `{Countable A}.

#[export] Instance countable_gob : Gob A := {
  gob_encode a := pos_bytes (encode a);
  gob_decode b := p ← bytes_pos b; decode p
}.

#[export] Instance countable_gob_laws : GobLaws A.
Proof.
  split.
  - intros a. cbn. rewrite bytes_pos_bytes. cbn. apply decode_encode.
  - intros a. cbn. by destruct (encode a).
Qed.
End Codec.

#[export] Instance LogEntry_eq_dec {Cmd} `{EqDecision Cmd} : EqDecision (LogEntry Cmd).
Proof. solve_decision. Defined.

#[export] Instance LogEntry_countable {Cmd} `{Countable Cmd} : Countable (LogEntry Cmd).
Proof.
  refine (inj_countable' (fun e => (Term e, Command e)) (fun p => mkEntry p.1 p.2) _). by intros [].
Defined.

(** ** Runs of three nodes *)

Definition clock : Env := mkEnv 0 0 0 (fun _ => Written).

Section Runs.
Context {Cmd : Type} `{Countable Cmd}.
#[local] Abbreviation cluster := (cluster (Cmd := Cmd)).
#[local] Abbreviation event := (event (Cmd := Cmd)).
#[local] Abbreviation Raft := (Raft (Cmd := Cmd)).

(** Node [i] is elected with the vote of [j]: it times out, calls the others, and
    gets the answer of [j]; the calls to the others stay in flight. [k] is the place
    of the call to [j] among the new calls. *)
Definition elect (i k : nat) : list event :=
  [Act (Force i clock); Act (Deliver k clock); Act (Return k clock)].

(** Node [i] sends what is next to [j], which executes it, and the answer returns. *)
Definition replicate_to (i j : nat) : list event :=
  [Act (Send i j); Act (Deliver 0 clock); Act (Return 0 clock)].

Definition submit (i : nat) (c : Cmd) : list event := [Act (Client i clock c)].

Definition starts : list event := [Restart 0 clock; Restart 1 clock; Restart 2 clock].

(** The state at the end of a run. *)
Definition at_end (es : list event) : cluster := default (init 3) (run es (init 3)).

Definition runs (es : list event) : bool := match run es (init 3) with Some _ => true | None => false end.

Lemma reachable_at es : runs es = true -> reachable 3 (at_end es).
Proof. unfold runs, at_end. intros Hr. exists es. by destruct (run es (init 3)). Qed.

Lemma run_at es : runs es = true -> run es (init 3) = Some (at_end es).
Proof. unfold runs, at_end. by destruct (run es (init 3)). Qed.

Lemma run_from es es' : runs (es ++ es') = true -> run es' (at_end es) = Some (at_end (es ++ es')).
Proof.
  unfold runs, at_end. rewrite run_app. destruct (run es (init 3)) as [c|]; [|done].
  cbn [mbind option_bind default id]. by destruct (run es' c).
Qed.

(** A node that has just started, and node [i] at the end of a run. *)
Definition blank : Raft :=
  mkRaft 3 (MakePersister []) 0 0 (-1) StateFollower 0 0 [mkEntry 0 None] 0 0 [0; 0; 0] [0; 0; 0] 0 0 0 0 0 0 0 0.

Definition node_at (es : list event) (i : nat) : Raft :=
  match up (at_end es) i with Some (rf, _) => rf | None => blank end.

Definition sent_at (es : list event) (i : nat) : list (ApplyMsg Cmd) :=
  match up (at_end es) i with Some (_, sent) => sent | None => [] end.

Lemma up_at es i : is_up (at_end es) i = true -> up (at_end es) i = Some (node_at es i, sent_at es i).
Proof. unfold is_up, node_at, sent_at. by destruct (up (at_end es) i) as [[rf sent]|]. Qed.

Definition is_crash (e : event) : bool := match e with CrashIn _ _ | Crash _ => true | _ => false end.
End Runs.

#[local] Abbreviation event := (event (Cmd := nat)).

(** Two elections and one client command that all nodes store. *)
Definition elected_run : list event := starts ++ elect 0 0.
Definition stored_run : list event := submit 0 10%nat ++ replicate_to 0 1 ++ replicate_to 0 2.

(** ** A stale [matchIndex]

    Node 0 replicates three entries of term 1 to node 1 as the leader of term 3, and
    loses them to node 2, the leader of term 4.  As the leader of term 5 it still
    has [matchIndex] 3 for node 1, which now stores only the entry of node 2. *)
Definition stale_run : list event :=
  starts ++ elect 0 0 ++ submit 0 10%nat ++ submit 0 11%nat ++ submit 0 12%nat ++
  Act (Force 2 clock) :: elect 2 1 ++ submit 2 20%nat ++
  Act (Force 0 clock) :: elect 0 0 ++ replicate_to 0 1 ++ replicate_to 0 1 ++
  Act (Force 2 clock) :: elect 2 1 ++ replicate_to 2 1 ++ replicate_to 2 1 ++ replicate_to 2 0 ++ replicate_to 2 0 ++
  elect 0 0 ++ [Act (Send 0 2); Act (Deliver 0 clock)] ++ submit 0 30%nat ++ submit 0 31%nat ++ [Act (Return 0 clock)].

(** Node 1 is then elected and commits another command. *)
Definition diverge_run : list event :=
  stale_run ++ [Act (Apply 0)] ++ elect 1 1 ++ submit 1 40%nat ++ replicate_to 1 2 ++ [Act (Apply 1)].

(** Or it first replaces the entries that node 0 has committed and not applied. *)
Definition overwrite_run : list event :=
  stale_run ++ elect 1 1 ++ submit 1 40%nat ++ replicate_to 1 2 ++ replicate_to 1 0.

(** ** A torn state file

    Node 0 leads term 1 with the vote of node 1, and commits a command with it.  Node 1 is
    killed behind the truncation of its next write, and starts again without term, vote and
    log; node 2 gets its vote of term 1 as well, and commits another command. *)
Definition before_torn : list event := starts ++ elect 0 0 ++ submit 0 10%nat ++ replicate_to 0 1 ++ [Act (Apply 0)] ++
  submit 0 11%nat ++ [Act (Send 0 1)].
Definition after_torn : list event := Restart 1 clock :: elect 2 1 ++ submit 2 40%nat ++ replicate_to 2 1 ++ [Act (Apply 2)].
Definition torn_run : list (fevent (Cmd := nat)) :=
  (Sound <$> before_torn) ++ CrashTorn (Deliver 0 clock) 0 0 :: (Sound <$> after_torn).
Definition torn_end : cluster := default (init 3) (frun torn_run (init 3)).
