(* ===== verification/RaftTheorems.v ===== *)
(** * Properties of Raft

    Safety of every run of a cluster (one leader per term, matching logs, stable
    storage, answers in order, no panic), the handlers against their reference
    definitions, progress of replication, and two runs that end badly because
    [matchIndex] survives an election. *)
From S2P Require Import ClusterRuns.

Section Raft.
Context {Cmd : Type} `{GobLaws (Z * Z * list (LogEntry Cmd))}.
#[local] Abbreviation LogEntry := (LogEntry Cmd).
#[local] Abbreviation Raft := (Raft (Cmd := Cmd)).
#[local] Abbreviation cluster := (cluster (Cmd := Cmd)).

(** ** Helpers *)

(** The log ends with [l]'s last entry, or the candidate's is fresher. *)
Definition fresher (args : RequestVoteArgs) (l : list LogEntry) : Prop :=
  exists e, last l = Some e /\
    (Term e < LastLogTerm args \/ (Term e = LastLogTerm args /\ zlen l - 1 <= LastLogIndex args)).

(** The entries [l] after the one that matched, when the leader sends [new]: they stay
    as long as the terms agree, and the first difference replaces the rest. *)
Fixpoint overwrite (l new : list LogEntry) {struct new} : list LogEntry :=
  match new, l with
  | [], _ => l
  | _, [] => new
  | e :: new', x :: l' => if Term x =? Term e then x :: overwrite l' new' else new
  end.

Lemma upToDate_fresher args (l : list LogEntry) e :
  last l = Some e -> upToDate args (zlen l - 1) (Term e) = true <-> fresher args l.
Proof.
  intros He. unfold upToDate, fresher. destruct (Term e <? LastLogTerm args) eqn:Hlt; bool_to_prop.
  - split; [|done]. intros _. exists e. auto.
  - rewrite andb_true_iff, Z.eqb_eq, Z.leb_le. split.
    + intros [? ?]. exists e. split; [done|]. right. lia.
    + intros (e' & He' & Hc). rewrite He in He'. injection He' as <-. lia.
Qed.

Lemma append_loop_overwrite (r new : list LogEntry) i r' ch :
  (i <= length r)%nat -> append_loop r (Z.of_nat i) new = Some (r', ch) ->
  r' = take i r ++ overwrite (drop i r) new.
Proof.
  revert i. induction new as [|e new IH]; intros i Hi; cbn [append_loop].
  { intros [= <- _]. cbn [overwrite]. by rewrite take_drop. }
  destruct (zlen r <=? Z.of_nat i) eqn:Hlen; bool_to_prop; cbn [mbind option_bind].
  - intros (kept & Hk & [= <- _])%bind_Some. unfold zlen in Hlen. assert (i = length r) as -> by lia.
    rewrite drop_all. cbn [overwrite]. f_equal. rewrite zslice_to_Some in Hk by (unfold zlen; lia).
    injection Hk as <-. by rewrite Nat2Z.id.
  - rewrite znth_of_nat. intros Hs. apply bind_Some in Hs as (d & (x & Hx & [= <-])%bind_Some & Hs).
    rewrite (drop_S r x i) by done. cbn [overwrite].
    destruct (Term x =? Term e) eqn:Ht; cbn [negb] in Hs.
    + replace (Z.of_nat i + 1) with (Z.of_nat (S i)) in Hs by lia. apply lookup_lt_Some in Hx as Hlt.
      rewrite (IH (S i) ltac:(lia) Hs). rewrite (take_S_r r i x) by done. by rewrite <- app_assoc.
    + apply bind_Some in Hs as (kept & Hk & [= <- _]). apply lookup_lt_Some in Hx.
      rewrite zslice_to_Some in Hk by (unfold zlen; lia). injection Hk as <-. by rewrite Nat2Z.id.
Qed.

Lemma decideVote_grants env args (rf : Raft) reply rf' :
  log rf <> [] -> rv_Term args = currentTerm rf -> decideVote env args rf = Some (reply, rf') ->
    currentTerm rf' = currentTerm rf /\ log rf' = log rf /\ rvr_Term reply = currentTerm rf /\
    (VoteGranted reply = true <-> fresher args (log rf) /\ (votedFor rf = -1 \/ votedFor rf = CandidateId args)) /\
    (VoteGranted reply = true -> votedFor rf' = CandidateId args /\ disk_pst (file (persister rf')) = Some (pst rf')) /\
    (VoteGranted reply = false -> rf' = rf).
Proof.
  intros Hl Ht. unfold decideVote. destruct (znth_is_Some (log rf) (zlen (log rf) - 1)) as [e He].
  { pose proof (zlen_pos _ Hl). lia. }
  rewrite He. cbn [mbind option_bind]. apply znth_last_last in He.
  pose proof (upToDate_fresher args (log rf) e He) as Hf.
  destruct (upToDate args (zlen (log rf) - 1) (Term e)); cbn [negb].
  2:{ intros [= <- <-]. split_and!; try done. cbn [VoteGranted]. split; [done|]. intros [?%Hf _]. done. }
  destruct ((votedFor rf =? -1) || (votedFor rf =? CandidateId args)) eqn:Hv.
  - intros (rf1 & Hg & [= <- <-])%bind_Some. destruct (grantVote_view env (CandidateId args) rf rf1 Hg) as (G1 & G2 & G3 & _).
    split_and!; try done.
    + cbn [VoteGranted]. split; [|done]. intros _. split; [by apply Hf|].
      apply orb_true_iff in Hv as [Hv|Hv]; bool_to_prop; auto.
    + intros _. split; [done|]. rewrite (persist_file _ _ _ Hg). cbn [disk_pst]. unfold raft_bytes.
      rewrite gob_decode_encode. unfold pst. by rewrite G1, G2, G3.
  - intros [= <- <-]. split_and!; try done. cbn [VoteGranted]. split; [done|]. intros [_ Hc].
    apply orb_false_iff in Hv as [Hv1 Hv2]. bool_to_prop. destruct Hc; done.
Qed.

(** ** The handlers *)

(** C28. [RequestVote] grants a vote exactly when the term is not old, the candidate's
    log is at least as fresh, and no other candidate has the vote of this term; a
    granted vote is on disk when the handler answers. The handler answers whenever the
    state file can be written. *)
Theorem RequestVote_grants env args (rf : Raft) :
  log rf <> [] ->
  (saves env -> is_Some (RequestVote env args rf)) /\
  forall reply rf', RequestVote env args rf = Some (reply, rf') ->
    currentTerm rf' = Z.max (currentTerm rf) (rv_Term args) /\ rvr_Term reply = currentTerm rf' /\ log rf' = log rf /\
    (VoteGranted reply = true <->
      currentTerm rf <= rv_Term args /\ fresher args (log rf) /\
      (currentTerm rf < rv_Term args \/ votedFor rf = -1 \/ votedFor rf = CandidateId args)) /\
    (VoteGranted reply = true -> votedFor rf' = CandidateId args /\ disk_pst (file (persister rf')) = Some (pst rf')) /\
    (VoteGranted reply = false -> votedFor rf' = if currentTerm rf <? rv_Term args then -1 else votedFor rf).
Proof.
  intros Hl. split; [intros Hsv; by apply RequestVote_total|]. intros reply rf'. unfold RequestVote.
  destruct (rv_Term args <? currentTerm rf) eqn:Hold; bool_to_prop.
  { intros [= <- <-]. split_and!; try done; [lia| |].
    - cbn [VoteGranted]. split; [done|lia].
    - intros _. by rewrite (proj2 (Z.ltb_ge _ _)) by lia. }
  destruct (currentTerm rf <? rv_Term args) eqn:Hnew; bool_to_prop.
  - intros (rf1 & Hper & Hd)%bind_Some. destruct (step_down_view env rf rf1 (rv_Term args) Hper) as (S1 & S2 & S3 & _).
    apply decideVote_grants in Hd as (D1 & D2 & D3 & D4 & D5 & D6); [|by rewrite S3|done].
    rewrite S2, S3 in D4. rewrite S1 in D1, D3. rewrite S3 in D2. split_and!; try done; [lia|congruence| |].
    + rewrite D4. split; [intros [? _]; split_and!; [lia|done|by left]|]. intros (_ & ? & _). auto.
    + intros ->%D6. done.
  - assert (rv_Term args = currentTerm rf) as Ht by lia.
    intros (D1 & D2 & D3 & D4 & D5 & D6)%decideVote_grants; [|done|done].
    split_and!; try done; [lia|congruence| |].
    + rewrite D4. split; [intros [? ?]; split_and!; [lia|done|by right]|]. intros (_ & ? & [?|?]); [lia|done].
    + by intros ->%D6.
Qed.

(** C27. [AppendEntries] succeeds exactly when the term is not old and the log holds the
    previous entry; then the entries after it become those of the reference
    [overwrite], and the commit index follows the leader up to the last entry of the
    call. A refusal changes neither the log nor the commit index. The handler answers
    whenever the state file can be written. *)
Theorem AppendEntries_overwrites env args (rf : Raft) :
  0 <= PrevLogIndex args -> Forall (fun e => 0 <= Term e) (log rf) ->
  (saves env -> is_Some (AppendEntries env args rf)) /\
  forall reply rf', AppendEntries env args rf = Some (reply, rf') ->
    (Success reply = true <-> currentTerm rf <= ae_Term args /\
       exists e, znth (log rf) (PrevLogIndex args) = Some e /\ Term e = PrevLogTerm args) /\
    let i := S (Z.to_nat (PrevLogIndex args)) in
    if Success reply then
      log rf' = take i (log rf) ++ overwrite (drop i (log rf)) (Entries args) /\
      state rf' = StateFollower /\ currentTerm rf' = ae_Term args /\
      commitIndex rf' = if commitIndex rf <? LeaderCommit args
        then Z.min (LeaderCommit args) (PrevLogIndex args + zlen (Entries args)) else commitIndex rf
    else log rf' = log rf /\ commitIndex rf' = commitIndex rf /\ aer_Term reply = Z.max (currentTerm rf) (ae_Term args).
Proof.
  intros Hp Hl. split.
  { intros Hsv. destruct (AppendEntries_spec env args rf Hsv Hp Hl) as (reply & rf' & ws & Ha & _). by eexists. }
  intros reply rf' Ha. destruct (AppendEntries_inv env args rf reply rf' Hp Hl Ha) as (ws & Hs & Hev & _). destruct Hs as [Hlt Hpst _ Hs Ht Hi|Hle Ht Hlog Hst Hs Hrt Hi Hx|
    e ch Hle Ht Hst Hs Hrt He Hte Hloop Hc Hi]; rewrite Hs; cbv zeta.
  - apply (f_equal p_log) in Hpst. unfold p_log in Hpst. cbn [pst snd] in Hpst. split; [split; [done|lia]|].
    split_and!; [done|by injection Hi|lia].
  - split; [split; [done|]|split_and!; [done|by injection Hi|lia]]. intros (_ & e & He & Hte).
    destruct Hx as [(_ & _ & _ & Hlen)|(_ & _ & _ & _ & e' & He' & _ & Hne)]; [|congruence].
    apply znth_Some in He as [_ He%lookup_lt_Some]. unfold zlen in Hlen. lia.
  - split; [split; [intros _; split; [done|by exists e]|done]|]. split_and!; try done.
    apply znth_Some in He as [_ He%lookup_lt_Some].
    eapply append_loop_overwrite; [lia|]. rewrite <- Hloop. f_equal. lia.
Qed.

(** C29. When a peer takes the entries, the leader moves its commit index to the largest
    index that a majority stores and whose entry is of the current term, and leaves it
    where it is when there is none above. *)
Theorem ack_commits_largest n env peer args reply (rf : Raft) next m :
  node_ok n rf -> (2 <= n)%nat -> 0 <= commitIndex rf ->
  state rf = StateLeader -> currentTerm rf = ae_Term args -> aer_Term reply <= currentTerm rf -> Success reply = true ->
  nextIndex rf !! peer = Some next -> matchIndex rf !! peer = Some m ->
  exists rf', handleAppendReply env (Z.of_nat peer) args (Some reply) rf = Some (rf', false) /\
    matchIndex rf' = <[peer := Z.max m (PrevLogIndex args + zlen (Entries args))]> (matchIndex rf) /\
    (commitIndex rf' = commitIndex rf \/ commitIndex rf < commitIndex rf' < zlen (log rf) /\ committable n rf' (commitIndex rf')) /\
    forall M, commitIndex rf' < M < zlen (log rf) -> ~ committable n rf' M.
Proof.
  intros Hok Hn Hc Hst Ht Hle Hs Hnx Hm. unfold handleAppendReply.
  rewrite bool_decide_eq_true_2, Ht, Z.eqb_refl, (proj2 (Z.ltb_ge _ _)), Hs by (done || lia). cbn [negb orb].
  destruct (ackEntries_spec n peer args rf next m Hok Hn Hc Hnx Hm) as (rf' & -> & _ & _ & _ & H2 & H3 & H4).
  exists rf'. by split_and!.
Qed.

(** ** Runs of a cluster *)

Section Runs.
Context (n : nat) (Hn : (2 <= n)%nat) (c c' : cluster) (es : list (event (Cmd := Cmd))).

(** In every run, through crashes and restarts, at most one node ever leads a term. *)
Theorem election_safety t i j l l' :
  reachable n c -> run es c = Some c' -> leads c i t l -> leads c' j t l' -> i = j.
Proof.
  intros Hc Hr Hi Hj. destruct (reachable_run_inv n Hn es c c' Hc Hr) as (g & g' & Hg & Hg' & He).
  destruct (leads_inv n g c i t l Hg Hi) as [Hl _]. destruct (leads_inv n g' c' j t l' Hg' Hj) as [Hl' _].
  eapply lookup_weaken in Hl; [|apply He]. congruence.
Qed.

(** C11. Two logs, of running or of stopped nodes, that have an entry of the same term at
    the same index are equal up to this index. *)
Theorem log_matching i j p q k e e' :
  reachable n c -> stable c i = Some p -> stable c j = Some q ->
  p_log p !! k = Some e -> p_log q !! k = Some e' -> Term e = Term e' ->
  take (S k) (p_log p) = take (S k) (p_log q).
Proof.
  intros (g & Hg)%(reachable_inv n Hn) Hp Hq He He' Ht.
  destruct (stable_inv n g c i p Hg Hp) as [Hlp _]. destruct (stable_inv n g c j q Hg Hq) as [Hlq _].
  eapply agrees_prefix; [apply (li_agrees _ _ Hlp)|apply (li_agrees _ _ Hlq)|done..].
Qed.

(** C22. A leader only appends to its log: what it has at one time of its term is a
    prefix of what it has later in this term. *)
Theorem leader_append_only t i l l' :
  reachable n c -> run es c = Some c' -> leads c i t l -> leads c' i t l' -> l `prefix_of` l'.
Proof.
  intros Hc Hr Hi Hj. destruct (reachable_run_inv n Hn es c c' Hc Hr) as (g & g' & Hg & Hg' & He).
  destruct (leads_inv n g c i t l Hg Hi) as [_ <-]. destruct (leads_inv n g' c' i t l' Hg' Hj) as [_ <-]. apply He.
Qed.

(** A node never gives its vote of one term to two candidates, also when it crashes
    between the votes. *)
Theorem one_vote_per_term t i i' j :
  reachable n c -> run es c = Some c' -> voted_for c j i t -> voted_for c' j i' t -> i = i'.
Proof.
  intros Hc Hr Hi Hj. destruct (reachable_run_inv n Hn es c c' Hc Hr) as (g & g' & Hg & Hg' & He).
  apply (voted_for_inv n g) in Hi; [|done]. apply (voted_for_inv n g') in Hj; [|done].
  eapply lookup_weaken in Hi; [|apply He]. rewrite Hi in Hj. injection Hj. lia.
Qed.

(** C17. What a node would restart with never goes back: its term does not decrease, and
    within a term its vote stays, in every run whose crashes fall between the writes of
    the state file, inside a handler too ([torn_state_two_leaders] is about a crash inside
    a write). *)
Theorem stable_storage_monotone i :
  reachable n c -> run es c = Some c' -> (i < n)%nat ->
  exists p q, stable c i = Some p /\ stable c' i = Some q /\
    (p_term p < p_term q \/ p_term p = p_term q /\ (p_voted p = -1 \/ p_voted p = p_voted q)).
Proof.
  intros Hc Hr Hlt. destruct (reachable_run_inv n Hn es c c' Hc Hr) as (g & g' & Hg & Hg' & He).
  destruct (stable_Some n g c i Hg Hlt) as [p Hp]. destruct (stable_Some n g' c' i Hg' Hlt) as [q Hq].
  exists p, q. split_and!; [done|done|]. exact (run_stable n Hn g es c c' i p q Hg Hr Hlt Hp Hq).
Qed.

(** A stopped node always starts again, as a follower with the term, the vote and
    the log of its file. *)
Theorem restart_restores env i f :
  reachable n c -> nodes c !! i = Some (Down f) ->
  exists rf c2, step (Restart i env) c = Some c2 /\ up c2 i = Some (rf, []) /\
    stable c i = Some (pst rf) /\ state rf = StateFollower /\ commitIndex rf = 0 /\ lastApplied rf = 0 /\
    file (persister rf) = f.
Proof.
  intros (g & Hg)%(reachable_inv n Hn) Hd. destruct (inv_nodes _ _ _ Hg _ _ Hd) as (p & [Hp Hne] & _).
  destruct (Make_spec env (length (nodes c)) (Z.of_nat i) f p Hp Hne)
    as (rf & Hm & Hpst & Hst & Hf & _ & _ & Hc & Ha & _).
  exists rf, (set_up c i rf [] (net c)). split_and!; try done.
  - cbn [step]. rewrite Hd. cbn [mbind option_bind]. by rewrite Hm.
  - unfold up, set_up; cbn [nodes]. rewrite list_lookup_insert_eq by (by eapply lookup_lt_Some). done.
  - unfold stable. by rewrite Hd, Hp, Hpst.
Qed.

(** C23. A running node is well-formed: its tables have an entry for every node, its log
    starts with the empty entry and its terms never decrease nor pass the current one,
    a leader's [nextIndex] stays in its log, and what it remembers is in its file. *)
Theorem node_well_formed i rf sent :
  reachable n c -> up c i = Some (rf, sent) ->
  peers rf = Z.of_nat n /\ me rf = Z.of_nat i /\ length (nextIndex rf) = n /\ length (matchIndex rf) = n /\
  log rf !! 0%nat = Some (mkEntry 0 None) /\ Forall (fun e => 0 <= Term e <= currentTerm rf) (log rf) /\
  (forall j k e e', (j <= k)%nat -> log rf !! j = Some e -> log rf !! k = Some e' -> Term e <= Term e') /\
  (state rf = StateLeader -> Forall (fun x => 1 <= x <= zlen (log rf)) (nextIndex rf)) /\
  0 <= commitIndex rf /\ 0 <= lastApplied rf /\ disk_pst (file (persister rf)) = Some (pst rf).
Proof.
  intros (g & Hg)%(reachable_inv n Hn) Hu. pose proof (up_inv_of _ _ _ _ _ _ Hg Hu) as [[] Hme Hc Ha [[H1 _ _ Hag] _] [Hf _] _ _].
  split_and!; try done. intros j k e e' Hjk Hj Hk. pose proof (Hag k e' Hk) as Htk.
  assert (Hx : Lg g (Term e') !! j = Some e) by (rewrite <- (lookup_take_lt _ (S k)), <- Htk, lookup_take_lt by lia; exact Hj).
  pose proof (Forall_lookup_1 _ _ _ _ (gi_terms _ _ (inv_ghost _ _ _ Hg) (Term e')) Hx). cbn beta in *. lia.
Qed.

(** C24. Since its start, a node has sent the indices 1, 2, 3, ... to its store, each
    once and in order, up to [lastApplied]. *)
Theorem applied_in_order i rf sent :
  reachable n c -> up c i = Some (rf, sent) -> CommandIndex <$> sent = seqZ 1 (lastApplied rf).
Proof. intros Hc Hu. by apply (applied_reachable n Hn c Hc i). Qed.

(** C19. Replication ends: a leader and a peer that answers and does not know a newer
    term reach a state in which the peer holds the leader's whole log, within as many
    calls as [nextIndex] of this peer, when their state files can be written. *)
Theorem replication_converges env i j rf sent rfj :
  saves env -> reachable n c -> serves c i j rf sent rfj ->
  exists k c2 rf2 rfj2, run (rounds env i j k) c = Some c2 /\ serves c2 i j rf2 sent rfj2 /\
    pst rf2 = pst rf /\ replicated rf2 rfj2 j /\ exists x, nextIndex rf !! j = Some x /\ Z.of_nat k <= x.
Proof. intros Hsv (g & Hg)%(reachable_inv n Hn) Hs. exact (rounds_replicate n Hn env g c i j rf sent rfj Hsv Hg Hs). Qed.
End Runs.
End Raft.

(** ** Instances: a cluster of three nodes *)

#[local] Abbreviation entry0 := (mkEntry (Cmd := nat) 0 None).

(** The end of [es] satisfies a property of node [i] that the kernel evaluates. *)
Ltac at_node := eexists _, _; split; [vm_compute; reflexivity|repeat split; reflexivity].
Ltac on_run := first [apply reachable_at|apply run_from]; vm_compute; reflexivity.

Lemma RequestVote_grants_witness :
  [entry0] <> [] /\
  match RequestVote clock (mkRVArgs 1 2 0 0) (blank (Cmd := nat)) with
  | Some (reply, rf') => VoteGranted reply = true /\ votedFor rf' = 2 | None => False end.
Proof.
  split; [done|].
  destruct (RequestVote_grants clock (mkRVArgs 1 2 0 0) (blank (Cmd := nat))) as [Hans Hall]; [done|].
  destruct (Hans (fun _ => eq_refl)) as [[reply rf'] Hrv]. rewrite Hrv.
  destruct (Hall reply rf' Hrv) as (_ & _ & _ & Hgr & Hv & _).
  assert (VoteGranted reply = true) as Hg.
  { apply Hgr. split; [vm_compute; discriminate|]. split; [|left; reflexivity].
    exists entry0. split; [reflexivity|right]. split; [reflexivity|vm_compute; discriminate]. }
  split; [exact Hg|]. apply (Hv Hg).
Defined.

Lemma AppendEntries_overwrites_witness :
  0 <= 0 /\
  match AppendEntries clock (mkAEArgs 1 2 0 0 [mkEntry 1 (Some 10%nat)] 0) blank with
  | Some (reply, rf') => Success reply = true /\ log rf' = [entry0; mkEntry 1 (Some 10%nat)] | None => False end.
Proof.
  split; [done|].
  destruct (AppendEntries_overwrites clock (mkAEArgs 1 2 0 0 [mkEntry 1 (Some 10%nat)] 0) blank)
    as [Hans Hall]; [done|repeat constructor; done|].
  destruct (Hans (fun _ => eq_refl)) as [[reply rf'] Hae]. rewrite Hae. destruct (Hall reply rf' Hae) as (Hs & Hlog).
  assert (Success reply = true) as Hg.
  { apply Hs. split; [vm_compute; discriminate|]. by exists entry0. }
  rewrite Hg in Hlog. split; [exact Hg|]. apply Hlog.
Defined.

Lemma ack_commits_largest_witness :
  let es := elected_run ++ submit 0 10%nat in
  let rf := node_at es 0 in
  let args := mkAEArgs 1 0 0 0 [mkEntry 1 (Some 10%nat)] 0 in
  match handleAppendReply clock (Z.of_nat 1) args (Some (mkAEReply 1 true 0 0 0)) rf with
  | Some (rf', _) => matchIndex rf' = [0; 1; 0] /\ forall M, commitIndex rf' < M < 2 -> ~ committable 3 rf' M
  | None => False end.
Proof.
  cbv zeta.
  destruct (ack_commits_largest 3 clock 1 (mkAEArgs 1 0 0 0 [mkEntry 1 (Some 10%nat)] 0) (mkAEReply 1 true 0 0 0)
    (node_at (elected_run ++ submit 0 10%nat) 0) 1 0) as (rf' & -> & Hm & _ & Hno); try reflexivity; try (vm_compute; lia).
  - split; try (vm_compute; done); try (vm_compute; lia); vm_compute; repeat constructor; discriminate.
  - rewrite Hm. split; [reflexivity|exact Hno].
Defined.

Lemma election_safety_witness :
  leads (at_end elected_run) 0 1 [entry0] /\
  leads (at_end (elected_run ++ stored_run)) 0 1 [entry0; mkEntry 1 (Some 10%nat)] /\ 0%nat = 0%nat.
Proof.
  assert (H1 : leads (at_end elected_run) 0 1 [entry0]) by at_node.
  assert (H2 : leads (at_end (elected_run ++ stored_run)) 0 1 [entry0; mkEntry 1 (Some 10%nat)]) by at_node.
  split; [exact H1|split; [exact H2|]].
  eapply (election_safety (Cmd := nat) 3 ltac:(lia) _ _ stored_run); [| |exact H1|exact H2]; on_run.
Defined.

Lemma log_matching_witness :
  exists p q, stable (at_end (elected_run ++ stored_run)) 0 = Some p /\
    stable (at_end (elected_run ++ stored_run)) 2 = Some q /\ take 2 (p_log p) = take 2 (p_log q).
Proof.
  eexists _, _. split; [vm_compute; reflexivity|]. split; [vm_compute; reflexivity|].
  eapply (log_matching (Cmd := nat) 3 ltac:(lia) (at_end (elected_run ++ stored_run)) 0 2);
    [on_run|vm_compute; reflexivity|vm_compute; reflexivity|reflexivity|reflexivity|reflexivity].
Defined.

Lemma leader_append_only_witness : [entry0] `prefix_of` [entry0; mkEntry 1 (Some 10%nat)].
Proof.
  eapply (leader_append_only (Cmd := nat) 3 ltac:(lia) (at_end elected_run) (at_end (elected_run ++ stored_run)) stored_run 1 0);
    [on_run|on_run|at_node|at_node].
Defined.

Lemma one_vote_per_term_witness :
  let es : list (event (Cmd := nat)) := starts ++ [Act (Force 0 clock); Act (Deliver 0 clock)] in
  voted_for (at_end es) 1 0 1 /\ 0%nat = 0%nat.
Proof.
  cbv zeta. set (es := starts ++ _).
  assert (Hv : voted_for (at_end es) 1 0 1).
  { eexists _, _, _. split; [vm_compute; left|]. repeat split. }
  split; [exact Hv|].
  eapply (one_vote_per_term (Cmd := nat) 3 ltac:(lia) (at_end es) (at_end es) [] 1 0 0 1); [on_run|done|exact Hv|exact Hv].
Defined.

(** Node 1 stops after the first of two writes of [RequestVote]: it knows the term and
    has not voted. *)
Definition stopped_run : list (event (Cmd := nat)) := starts ++ [Act (Force 0 clock); CrashIn (Deliver 0 clock) 1].

Lemma stable_storage_monotone_witness :
  exists p q, stable (at_end (Cmd := nat) starts) 1 = Some p /\ stable (at_end stopped_run) 1 = Some q /\
    (p_term p < p_term q \/ p_term p = p_term q /\ (p_voted p = -1 \/ p_voted p = p_voted q)) /\ q = (1, -1, [entry0]).
Proof.
  destruct (stable_storage_monotone (Cmd := nat) 3 ltac:(lia) (at_end (Cmd := nat) starts) (at_end stopped_run)
    [Act (Force 0 clock); CrashIn (Deliver 0 clock) 1] 1) as (p & q & Hp & Hq & Hle); [on_run|on_run|lia|].
  exists p, q. split_and!; [done|done|done|].
  vm_compute in Hq. by injection Hq.
Defined.

Lemma restart_restores_witness :
  exists f rf c2, nodes (at_end stopped_run) !! 1%nat = Some (Down f) /\ step (Restart 1 clock) (at_end stopped_run) = Some c2 /\
    up c2 1 = Some (rf, []) /\ stable (at_end stopped_run) 1 = Some (pst rf).
Proof.
  destruct (restart_restores (Cmd := nat) 3 ltac:(lia) (at_end stopped_run) clock 1 [gob_encode (1, -1, [entry0])])
    as (rf & c2 & H1 & H2 & H3 & _); [on_run|vm_compute; reflexivity|].
  exists [gob_encode (1, -1, [entry0])], rf, c2. split; [vm_compute; reflexivity|]. by split_and!.
Defined.

Lemma node_well_formed_witness :
  log (node_at (elected_run ++ stored_run) 0) = [entry0; mkEntry 1 (Some 10%nat)] /\
  length (nextIndex (node_at (elected_run ++ stored_run) 0)) = 3%nat.
Proof.
  split; [vm_compute; reflexivity|].
  destruct (node_well_formed (Cmd := nat) 3 ltac:(lia) (at_end (elected_run ++ stored_run)) 0
    (node_at (elected_run ++ stored_run) 0) (sent_at (elected_run ++ stored_run) 0)) as (_ & _ & Hnext & _);
    [on_run|apply up_at; vm_compute; reflexivity|exact Hnext].
Defined.

Lemma applied_in_order_witness :
  CommandIndex <$> sent_at (elected_run ++ stored_run ++ [Act (Apply 0)]) 0 = [1].
Proof.
  rewrite (applied_in_order (Cmd := nat) 3 ltac:(lia) (at_end (elected_run ++ stored_run ++ [Act (Apply 0)])) 0
    (node_at (elected_run ++ stored_run ++ [Act (Apply 0)]) 0)); [vm_compute; reflexivity|on_run|vm_compute; reflexivity].
Defined.

Lemma replication_converges_witness :
  let c := at_end (elected_run ++ submit 0 10%nat) in
  let rf := node_at (elected_run ++ submit 0 10%nat) 0 in
  exists k c2 rf2 rfj2, run (rounds clock 0 2 k) c = Some c2 /\ serves c2 0 2 rf2 [] rfj2 /\ replicated rf2 rfj2 2 /\
    Z.of_nat k <= 1.
Proof.
  cbv zeta. destruct (replication_converges (Cmd := nat) 3 ltac:(lia) (at_end (elected_run ++ submit 0 10%nat)) clock 0 2
    (node_at (elected_run ++ submit 0 10%nat) 0) [] (node_at (elected_run ++ submit 0 10%nat) 2))
    as (k & c2 & rf2 & rfj2 & H1 & H2 & _ & H3 & x & Hx & Hk); [done|on_run| |].
  - split; [vm_compute; reflexivity|]. split; [eexists; vm_compute; reflexivity|].
    split; [done|]. split; [reflexivity|vm_compute; discriminate].
  - exists k, c2, rf2, rfj2. vm_compute in Hx. injection Hx as <-. exact (conj H1 (conj H2 (conj H3 Hk))).
Defined.

(** ** A stale [matchIndex] *)

(** C36. Without any crash, two nodes can send different commands at the same index to
    their stores: [matchIndex] is not reset by an election, so that a leader counts a
    peer that has lost the entries. *)
Theorem stale_match_diverges :
  exists (es : list (event (Cmd := nat))) c rf0 sent0 rf1 sent1 m0 m1,
    Forall (fun e => is_crash e = false) es /\ run es (init 3) = Some c /\
    up c 0 = Some (rf0, sent0) /\ up c 1 = Some (rf1, sent1) /\ m0 ∈ sent0 /\ m1 ∈ sent1 /\
    CommandIndex m0 = CommandIndex m1 /\ MsgCommand m0 <> MsgCommand m1.
Proof.
  exists diverge_run, (at_end diverge_run), (node_at diverge_run 0), (sent_at diverge_run 0),
    (node_at diverge_run 1), (sent_at diverge_run 1), (mkApplyMsg true (Some 30%nat) 2), (mkApplyMsg true (Some 40%nat) 2).
  split; [vm_compute; repeat constructor|]. do 3 (split; [vm_compute; reflexivity|]).
  split; [vm_compute; right; left|]. split; [vm_compute; right; left|]. done.
Qed.

(** C40. In the same way the commit index can pass the end of a log, and then the apply
    loop panics. *)
Theorem stale_commit_panics :
  exists (es : list (event (Cmd := nat))) c, Forall (fun e => is_crash e = false) es /\ run es (init 3) = Some c /\
    enabled (Apply 0) c = true /\ act (Apply 0) c = None.
Proof.
  exists overwrite_run, (at_end overwrite_run). split; [vm_compute; repeat constructor|].
  do 2 (split; [vm_compute; reflexivity|]). vm_compute. reflexivity.
Qed.

(** C35. One kill inside [os.WriteFile] is enough to lose agreement: a node that is killed
    behind the truncation of its state file votes twice in one term, this term gets two
    leaders, and two nodes send different commands at the same index to their stores. *)
Theorem torn_state_two_leaders :
  exists (es1 es2 : list (event (Cmd := nat))) a m k c t l l' rf0 sent0 rf2 sent2 m0 m2,
    frun ((Sound <$> es1) ++ CrashTorn a m k :: (Sound <$> es2)) (init 3) = Some c /\
    leads c 0 t l /\ leads c 2 t l' /\
    up c 0 = Some (rf0, sent0) /\ up c 2 = Some (rf2, sent2) /\ m0 ∈ sent0 /\ m2 ∈ sent2 /\
    CommandIndex m0 = CommandIndex m2 /\ MsgCommand m0 <> MsgCommand m2.
Proof.
  exists before_torn, after_torn, (Deliver 0 clock), 0%nat, 0%nat, torn_end, 1,
    [entry0; mkEntry 1 (Some 10%nat); mkEntry 1 (Some 11%nat)], [entry0; mkEntry 1 (Some 40%nat)].
  eexists _, _, _, _, (mkApplyMsg true (Some 10%nat) 1), (mkApplyMsg true (Some 40%nat) 1).
  split; [vm_compute; reflexivity|]. do 2 (split; [by at_node|]). do 2 (split; [vm_compute; reflexivity|]).
  do 2 (split; [left|]). done.
Qed.
