(* ===== verification/AgreementTheorems.v ===== *)
(** * Agreement theorems

    What holds in every run in which no leader starts with a stale [matchIndex]: the
    stores get one history, a later leader has what was committed, nothing panics.
    Without this condition the runs of [RaftTheorems] break all three. *)
From S2P Require Import ClusterRuns Agreement.

Section Agreement.
Context {Cmd : Type} `{GobLaws (Z * Z * list (LogEntry Cmd))}.
#[local] Abbreviation LogEntry := (LogEntry Cmd).
#[local] Abbreviation cluster := (cluster (Cmd := Cmd)).
#[local] Abbreviation event := (event (Cmd := Cmd)).
Context (n : nat) (Hn : (2 <= n)%nat).

Lemma fresh_run_app es1 es2 (c c1 : cluster) :
  fresh_run (es1 ++ es2) c -> run es1 c = Some c1 -> fresh_run es1 c /\ fresh_run es2 c1.
Proof.
  revert c. induction es1 as [|e es1 IH]; intros c; cbn [app fresh_run run]; [by intros ? [= ->]|].
  intros [He Hf] (c2 & Hs & Hr)%bind_Some. destruct (IH c2 (Hf c2 Hs) Hr) as [H1 H2]. split; [|done].
  split; [done|]. intros c3 Hs3. congruence.
Qed.

(** C2. State machine safety. There is one history of messages such that whatever a
    node has sent to its store at any moment of the run, before and after crashes and
    restarts, is a prefix of it.  Elections are fresh as long as no node wins
    two of them between two starts ([once_fresh]). *)
Theorem state_machine_safety es (c : cluster) :
  run es (init n) = Some c -> fresh_run es (init n) ->
  exists hist, forall es1 es2 c1 i rf sent,
    es = es1 ++ es2 -> run es1 (init n) = Some c1 -> up c1 i = Some (rf, sent) -> sent `prefix_of` hist.
Proof. intros Hr Hf. by apply (fresh_history n es c). Qed.

(** C8. Leader completeness. What a node knows to be committed is in the log of every
    leader of its term or a later one, at the time and ever after. *)
Theorem leader_completeness es1 es2 (c c' : cluster) i j rf sent t l :
  run es1 (init n) = Some c -> run es2 c = Some c' -> fresh_run (es1 ++ es2) (init n) ->
  up c i = Some (rf, sent) -> leads c' j t l -> currentTerm rf <= t ->
  commitIndex rf < zlen (log rf) /\
  take (S (Z.to_nat (commitIndex rf))) l = take (S (Z.to_nat (commitIndex rf))) (log rf).
Proof.
  intros Hr1 Hr2 Hf Hu (rf' & sent' & Hu' & Hst & <- & <-) Ht.
  destruct (fresh_run_app es1 es2 (init n) c Hf Hr1) as [Hf1 Hf2].
  destruct (fresh_inv n es1 c Hn Hf1 Hr1) as (g & h & Hi & Hc).
  destruct (fresh_run_commit n g h es2 c c' Hn Hi Hc Hf2 Hr2) as (g' & h' & He & Hx & Hi' & Hc').
  split; [by apply (committed_in_log n g h c i rf sent)|].
  by apply (leader_has_committed n g h g' h' c c' i j rf sent rf' sent').
Qed.

(** C12. In a reachable state no handler and no critical section panics, whatever the
    network delivered, as long as its writes of the state file succeed ([Save] panics when
    one fails); nor does the apply loop, when the run had fresh elections. *)
Theorem handlers_never_panic es (c : cluster) a :
  writes_succeed a -> run es (init n) = Some c -> enabled a c = true -> (forall i, a <> Apply i) \/ fresh_run es (init n) -> is_Some (act a c).
Proof.
  intros Hsv Hr Ha [Hna|Hf].
  - destruct (reachable_inv n Hn c ltac:(by exists es)) as (g & Hg). exact (act_total n Hn g a c Hsv Hg Ha Hna).
  - destruct (fresh_inv n es c Hn Hf Hr) as (g & h & Hi & Hc).
    destruct a as [i env|i env|i env cmd|i j|k env|k env|k env|i]; try (by apply (act_total n Hn g)).
    by apply (apply_total n g h).
Qed.
End Agreement.

(** ** Instances *)

#[local] Abbreviation entry0 := (mkEntry (Cmd := nat) 0 None).
#[local] Abbreviation event := (event (Cmd := nat)).

(** Node 0 leads, commits a command with node 1 and applies it; a heartbeat brings the
    commit index to node 1, which applies it and then stops; node 1 comes back, wins
    the next election with the vote of node 2, and replaces node 0. *)
Definition committed_run : list event :=
  starts ++ elect 0 0 ++ submit 0 10%nat ++ replicate_to 0 1 ++ [Act (Apply 0)].
Definition handed_run : list event :=
  replicate_to 0 1 ++ [Act (Apply 1); CrashIn (Apply 1) 0; Restart 1 clock] ++ elect 1 1.

Ltac by_run := vm_compute; reflexivity.

Lemma handed_run_fresh : fresh_run (committed_run ++ handed_run) (init 3).
Proof. apply (once_fresh 3); [lia|by_run]. Qed.

Lemma state_machine_safety_witness :
  exists hist, sent_at (committed_run ++ take 4 handed_run) 1 `prefix_of` hist /\
    sent_at (committed_run ++ handed_run) 0 `prefix_of` hist /\
    sent_at (committed_run ++ take 4 handed_run) 1 = [mkApplyMsg true (Some 10%nat) 1].
Proof.
  destruct (state_machine_safety (Cmd := nat) 3 ltac:(lia) (committed_run ++ handed_run) (at_end (committed_run ++ handed_run)))
    as (hist & Hall); [by_run|exact handed_run_fresh|].
  exists hist. split; [|split; [|by_run]].
  - apply (Hall (committed_run ++ take 4 handed_run) (drop 4 handed_run) (at_end (committed_run ++ take 4 handed_run)) 1%nat
      (node_at (committed_run ++ take 4 handed_run) 1)); by_run.
  - apply (Hall (committed_run ++ handed_run) [] (at_end (committed_run ++ handed_run)) 0%nat
      (node_at (committed_run ++ handed_run) 0)); by_run.
Defined.

Lemma leader_completeness_witness :
  leads (at_end (committed_run ++ handed_run)) 1 2 [entry0; mkEntry 1 (Some 10%nat)] /\
  commitIndex (node_at committed_run 0) = 1 /\
  take 2 [entry0; mkEntry 1 (Some 10%nat)] = take 2 (log (node_at committed_run 0)).
Proof.
  assert (Hl : leads (at_end (committed_run ++ handed_run)) 1 2 [entry0; mkEntry 1 (Some 10%nat)]).
  { eexists _, _. split; [by_run|repeat split; reflexivity]. }
  split; [exact Hl|split; [by_run|]].
  refine (proj2 (leader_completeness (Cmd := nat) 3 ltac:(lia) committed_run handed_run (at_end committed_run)
    (at_end (committed_run ++ handed_run)) 0 1 (node_at committed_run 0) (sent_at committed_run 0) 2 _ _ _ handed_run_fresh _ Hl _)).
  - by_run.
  - apply run_from. by_run.
  - by_run.
  - vm_compute. discriminate.
Defined.

Lemma handlers_never_panic_witness :
  enabled (Return 0 clock) (at_end (Cmd := nat) (starts ++ [Act (Force 0 clock); Act (Deliver 0 clock)])) = true /\
  is_Some (act (Return 0 clock) (at_end (Cmd := nat) (starts ++ [Act (Force 0 clock); Act (Deliver 0 clock)]))) /\
  is_Some (act (Apply 0) (at_end (committed_run ++ handed_run))).
Proof.
  split; [by_run|]. split.
  - apply (handlers_never_panic (Cmd := nat) 3 ltac:(lia) (starts ++ [Act (Force 0 clock); Act (Deliver 0 clock)]));
      [done|apply run_at; by_run|by_run|by left].
  - apply (handlers_never_panic (Cmd := nat) 3 ltac:(lia) (committed_run ++ handed_run));
      [done|by_run|by_run|right; exact handed_run_fresh].
Defined.
