(* ===== verification/Store.v ===== *)
(** * The replicated store of one node (internal/store/store.go)

    A store applies the committed commands to its engine and wakes the clients that
    wait for them.  The goroutines are the apply loop and one per client call; they
    share the engine, the map [waitChans] and the channels in it.  Every event runs
    one goroutine to its next channel or lock operation. *)
From S2P Require EngineMetrics.
From S2P Require Export Raft.

(** ** Interfaces *)

(** What the store uses of the storage engine, and the turns of the engine's own
    goroutines, which are numbered; [None] is the end of the process. *)
Class EngineApi (DB : Type) := {
  db_Put : bytes -> bytes -> DB -> option (option error * DB);
  db_Delete : bytes -> DB -> option (option error * DB);
  db_Get : bytes -> DB -> option (option bytes * DB);
  db_DebugMetrics : DB -> EngineMetrics.LsmMetrics;
  db_Background : nat -> DB -> option DB
}.

(** Raft as the store sees it ([raftapi.Raft]); [Start] answers the index, the term and
    whether this node leads, or panics when its state cannot be written. *)
Class RaftApi (RF Cmd : Type) := {
  rf_Start : Env -> Cmd -> RF -> option ((Z * Z * bool) * RF);
  rf_GetState : RF -> Z * bool;
  rf_Snapshot : Z -> bytes -> RF -> RF;
  rf_PersistBytes : RF -> Z;
  rf_DebugMetrics : RF -> RaftMetrics;
  rf_DebugForceElection : Env -> RF -> option RF
}.

(** A node of the cluster implements it. *)
#[export] Instance raft_api {Cmd} `{Gob (Z * Z * list (LogEntry Cmd))} : RaftApi (Raft (Cmd := Cmd)) Cmd := {
  rf_Start := Start;
  rf_GetState := GetState;
  rf_Snapshot := Snapshot;
  rf_PersistBytes := PersistBytes;
  rf_DebugMetrics := DebugMetrics;
  rf_DebugForceElection env rf := snd <$> DebugForceElection env rf
}.

(** ** Data *)

Record Op := mkOp { Operation : bytes; OpKey : bytes; OpValue : bytes; OpId : Z }.

#[export] Instance Op_eq_dec : EqDecision Op.
Proof. solve_decision. Defined.

#[export] Instance Op_countable : Countable Op.
Proof.
  refine (inj_countable' (fun op => (Operation op, OpKey op, OpValue op, OpId op))
    (fun p => mkOp p.1.1.1 p.1.1.2 p.1.2 p.2) _). by intros [].
Defined.

Record OpResult := mkOpResult { AppliedOp : Op; ResValue : bytes; ResExists : bool; ResErr : option error }.

#[export] Instance OpResult_eq_dec : EqDecision OpResult.
Proof. solve_decision. Defined.

Definition put_op (key value : bytes) (id : Z) : Op := mkOp (lit "PUT") key value id.
Definition delete_op (key : bytes) (id : Z) : Op := mkOp (lit "DELETE") key [] id.
Definition get_op (key : bytes) (id : Z) : Op := mkOp (lit "GET") key [] id.

(** How a client call ends. *)
Inductive answer :=
  | Answered (r : OpResult)
  | NotLeader
  | Changed     (** another command was applied at the index *)
  | Timeout.

(** The errors of [fmt.Errorf]. *)
Definition err_not_leader : error := EMsg (lit "not leader").
Definition err_changed : error := EMsg (lit "leadership changed before commit").
Definition err_timeout : error := EMsg (lit "request timeout").

(** What [Put] and [Delete] return, and what [Get] returns. *)
Definition write_result (a : answer) : option error :=
  match a with
  | Answered r => ResErr r
  | NotLeader => Some err_not_leader
  | Changed => Some err_changed
  | Timeout => Some err_timeout
  end.

Definition read_result (a : answer) : bytes * bool * option error :=
  match a with
  | Answered r => (ResValue r, ResExists r, None)
  | NotLeader => ([], false, Some err_not_leader)
  | Changed => ([], false, Some err_changed)
  | Timeout => ([], false, Some err_timeout)
  end.

(** Where a client call is: [Start] has returned; its channel is registered and it
    waits in the [select]; the [select] is done and the deferred function is not;
    it has returned. *)
Inductive phase :=
  | Started (index : Z)
  | Waiting (index : Z) (ch : nat)
  | Leaving (index : Z) (a : answer)
  | Returned (a : answer).

Record client := mkClient { c_op : Op; c_phase : phase }.

Section Store.
Context {DB RF : Type} `{EngineApi DB, RaftApi RF Op}.

(** [chans] holds the buffer of every channel ever made, each of capacity one;
    [applying] is a result that the apply loop has not handed over yet. *)
Record KVStore := mkStore {
  db : DB;
  rf : RF;
  waitChans : gmap Z nat;
  chans : list (option OpResult);
  applying : option (Z * OpResult);
  clients : list client
}.

(** [NewKVStoreWithLSMOptions], given the engine it opens. *)
Definition NewKVStore (d : DB) (r : RF) : KVStore := mkStore d r ∅ [] None [].

Definition set_db s x := mkStore x (rf s) (waitChans s) (chans s) (applying s) (clients s).
Definition set_rf s x := mkStore (db s) x (waitChans s) (chans s) (applying s) (clients s).
Definition set_wait s x := mkStore (db s) (rf s) x (chans s) (applying s) (clients s).
Definition set_chans s x := mkStore (db s) (rf s) (waitChans s) x (applying s) (clients s).
Definition set_applying s x := mkStore (db s) (rf s) (waitChans s) (chans s) x (clients s).
Definition set_clients s x := mkStore (db s) (rf s) (waitChans s) (chans s) (applying s) x.
Definition set_phase s k c p := set_clients s (<[k := mkClient (c_op c) p]> (clients s)).

(** ** The apply loop *)

(** The switch of [applyLoop]: the engine operation of a command. *)
Definition apply_op (op : Op) (d : DB) : option (OpResult * DB) :=
  if decide (Operation op = lit "PUT") then
    r ← db_Put (OpKey op) (OpValue op) d; Some (mkOpResult op [] false (fst r), snd r)
  else if decide (Operation op = lit "DELETE") then
    r ← db_Delete (OpKey op) d; Some (mkOpResult op [] false (fst r), snd r)
  else if decide (Operation op = lit "GET") then
    r ← db_Get (OpKey op) d;
    Some (mkOpResult op (default [] (fst r)) (match fst r with Some _ => true | None => false end) None, snd r)
  else Some (mkOpResult op [] false None, d).

(** The loop receives a message and applies it; [msg.Command.(Op)] panics on a nil
    command. *)
Definition receive (msg : ApplyMsg Op) (s : KVStore) : option KVStore :=
  match applying s with
  | Some _ => None
  | None =>
      if CommandValid msg then
        op ← MsgCommand msg;
        r ← apply_op op (db s);
        Some (set_applying (set_db s (snd r)) (Some (CommandIndex msg, fst r)))
      else Some s
  end.

(** It then sends the result to the channel of this index, if there is one; on a
    full channel it would block and hold the lock ([None]). *)
Definition notify (s : KVStore) : option KVStore :=
  r ← applying s;
  let '(index, res) := r in
  match waitChans s !! index with
  | None => Some (set_applying s None)
  | Some ch =>
      buffer ← chans s !! ch;
      match buffer with
      | Some _ => None
      | None => Some (set_chans (set_applying s None) (<[ch := Some res]> (chans s)))
      end
  end.

(** ** Client calls *)

(** [Put], [Delete] and [Get] differ in their command and in what they make of the
    answer.  A call starts with [rf.Start].  A panic there ends the call; the gateway
    recovers it, and what it left in the node is a [RaftStep] below. *)
Definition begin (env : Env) (op : Op) (s : KVStore) : option KVStore :=
  r ← rf_Start env op (rf s);
  let '(index, _, isLeader) := fst r in
  let p := if negb isLeader then Returned NotLeader else Started index in
  Some (set_clients (set_rf s (snd r)) (clients s ++ [mkClient op p])).

(** [ch := make(chan OpResult, 1); kv.waitChans[index] = ch] *)
Definition register (k : nat) (s : KVStore) : option KVStore :=
  c ← clients s !! k;
  match c_phase c with
  | Started index =>
      let ch := length (chans s) in
      Some (set_phase (set_wait (set_chans s (chans s ++ [None])) (<[index := ch]> (waitChans s))) k c (Waiting index ch))
  | _ => None
  end.

(** The [select] takes a result. *)
Definition wake (k : nat) (s : KVStore) : option KVStore :=
  c ← clients s !! k;
  match c_phase c with
  | Waiting index ch =>
      buffer ← chans s !! ch;
      match buffer with
      | Some res =>
          let a := if negb (OpId (AppliedOp res) =? OpId (c_op c)) then Changed else Answered res in
          Some (set_phase (set_chans s (<[ch := None]> (chans s))) k c (Leaving index a))
      | None => None
      end
  | _ => None
  end.

(** The [select] takes the timer. *)
Definition expire (k : nat) (s : KVStore) : option KVStore :=
  c ← clients s !! k;
  match c_phase c with
  | Waiting index _ => Some (set_phase s k c (Leaving index Timeout))
  | _ => None
  end.

(** The deferred function. *)
Definition leave (k : nat) (s : KVStore) : option KVStore :=
  c ← clients s !! k;
  match c_phase c with
  | Leaving index a => Some (set_phase (set_wait s (delete index (waitChans s))) k c (Returned a))
  | _ => None
  end.

(** ** The other methods *)

Definition GetLocalIfLeader (key : bytes) (s : KVStore) : option (bytes * bool * option error * KVStore) :=
  let '(_, isLeader) := rf_GetState (rf s) in
  if negb isLeader then Some ([], false, Some err_not_leader, s)
  else
    r ← db_Get key (db s);
    Some (default [] (fst r), match fst r with Some _ => true | None => false end, None, set_db s (snd r)).

Definition ActiveWaitChans (s : KVStore) : Z := Z.of_nat (size (waitChans s)).

Definition store_RaftMetrics (s : KVStore) : RaftMetrics := rf_DebugMetrics (rf s).

Definition store_LSMMetrics (s : KVStore) : EngineMetrics.LsmMetrics := db_DebugMetrics (db s).

Definition store_DebugForceElection (env : Env) (s : KVStore) : option KVStore :=
  r ← rf_DebugForceElection env (rf s); Some (set_rf s r).

(** ** Runs *)

Inductive event :=
  | Receive (msg : ApplyMsg Op)
  | Notify
  | Begin (env : Env) (op : Op)
  | Register (k : nat)
  | Wake (k : nat)
  | Expire (k : nat)
  | Leave (k : nat)
  | Background (k : nat)      (** a goroutine of the engine *)
  | RaftStep (r : RF)         (** the node changed, by its own goroutines *)
  | ReadLocal (key : bytes).  (** the second half of [GetLocalIfLeader], after its test *)

Definition step (e : event) (s : KVStore) : option KVStore :=
  match e with
  | Receive msg => receive msg s
  | Notify => notify s
  | Begin env op => begin env op s
  | Register k => register k s
  | Wake k => wake k s
  | Expire k => expire k s
  | Leave k => leave k s
  | RaftStep r => Some (set_rf s r)
  | Background k => d ← db_Background k (db s); Some (set_db s d)
  | ReadLocal key => r ← db_Get key (db s); Some (set_db s (snd r))
  end.

Fixpoint run (es : list event) (s : KVStore) : option KVStore :=
  match es with
  | [] => Some s
  | e :: es => s ← step e s; run es s
  end.

(** The messages received in a run. *)
Definition received (es : list event) : list (ApplyMsg Op) :=
  omap (fun e => match e with Receive msg => Some msg | _ => None end) es.

(** ** Whole calls

    A call runs among other events: those before it registers its channel, those
    while it waits, and those before its deferred function. [woken]: the [select]
    takes the result. *)
Record schedule := mkSchedule { before : list event; during : list event; woken : bool; after : list event }.

Definition phase_answer (k : nat) (s : KVStore) : option answer :=
  c ← clients s !! k;
  match c_phase c with Returned a => Some a | _ => None end.

Definition call {R} (env : Env) (op : Op) (result : answer -> R) (sch : schedule) (s : KVStore) : option (R * KVStore) :=
  let k := length (clients s) in
  s ← begin env op s;
  match phase_answer k s with
  | Some a => Some (result a, s)
  | None =>
      s ← run (before sch) s;
      s ← register k s;
      s ← run (during sch) s;
      s ← (if woken sch then wake k s else expire k s);
      s ← run (after sch) s;
      s ← leave k s;
      a ← phase_answer k s;
      Some (result a, s)
  end.

(** The command carries the time as its identifier. *)
Definition Put (env : Env) (key value : bytes) : schedule -> KVStore -> option (option error * KVStore) :=
  call env (put_op key value (now env)) write_result.

Definition Delete (env : Env) (key : bytes) : schedule -> KVStore -> option (option error * KVStore) :=
  call env (delete_op key (now env)) write_result.

Definition Get (env : Env) (key : bytes) : schedule -> KVStore -> option (bytes * bool * option error * KVStore) :=
  call env (get_op key (now env)) read_result.
End Store.
Arguments schedule : clear implicits.
Arguments KVStore : clear implicits.
Arguments event : clear implicits.
