(* ===== verification/StoreSpec.v ===== *)
(** * What a store promises

    The laws of an engine, the log of commands as the specification of the engine's
    content, and the invariant of the goroutines of a store. *)
From S2P Require Export Store.

(** ** Laws of an engine

    [repr b n d m]: [d] holds the map [m], and has room for operations of total cost
    [b] and for [n] operations. *)
Class EngineLaws (DB : Type) `{EngineApi DB} := {
  repr : Z -> nat -> DB -> gmap bytes bytes -> Prop;
  put_cost : bytes -> bytes -> Z;
  delete_cost : bytes -> Z;
  put_cost_nonneg k v : 0 <= put_cost k v;
  delete_cost_nonneg k : 0 <= delete_cost k;
  law_Put k v b n d m : k <> [] -> 0 <= b -> repr (put_cost k v + b) (S n) d m ->
    exists d', db_Put k v d = Some (None, d') /\ repr b n d' (<[k := v]> m);
  law_Delete k b n d m : k <> [] -> 0 <= b -> repr (delete_cost k + b) (S n) d m ->
    exists d', db_Delete k d = Some (None, d') /\ repr b n d' (delete k m);
  law_Get k b n d m : 0 <= b -> repr b (S n) d m ->
    exists d', db_Get k d = Some (m !! k, d') /\ repr b n d' m;
  law_Background k b n d m : 0 <= b -> repr b (S n) d m -> exists d', db_Background k d = Some d' /\ repr b n d' m;
  law_idle b n d m : repr b (S n) d m -> repr b n d m
}.

(** ** The log as a specification *)

(** What a command answers and does to the map. *)
Definition spec_apply (op : Op) (m : gmap bytes bytes) : OpResult * gmap bytes bytes :=
  if decide (Operation op = lit "PUT") then (mkOpResult op [] false None, <[OpKey op := OpValue op]> m)
  else if decide (Operation op = lit "DELETE") then (mkOpResult op [] false None, delete (OpKey op) m)
  else if decide (Operation op = lit "GET") then
    (mkOpResult op (default [] (m !! OpKey op)) (match m !! OpKey op with Some _ => true | None => false end) None, m)
  else (mkOpResult op [] false None, m).

Fixpoint spec_log (ops : list Op) (m : gmap bytes bytes) : gmap bytes bytes :=
  match ops with
  | [] => m
  | op :: ops => spec_log ops (snd (spec_apply op m))
  end.

Definition op_of (msg : ApplyMsg Op) : option Op := if CommandValid msg then MsgCommand msg else None.
Definition ops_of (msgs : list (ApplyMsg Op)) : list Op := omap op_of msgs.

Definition op_ok (op : Op) : Prop := OpKey op <> [].

Lemma spec_log_app ops1 ops2 m : spec_log (ops1 ++ ops2) m = spec_log ops2 (spec_log ops1 m).
Proof. revert m. induction ops1 as [|op ops1 IH]; intros m; [done|]. simpl. apply IH. Qed.

(** The last write of a key decides, so replaying a log over a map that a prefix of it
    has made gives the same map. *)
Definition op_write (op : Op) : option (option bytes) :=
  if decide (Operation op = lit "PUT") then Some (Some (OpValue op))
  else if decide (Operation op = lit "DELETE") then Some None else None.

Fixpoint last_write (k : bytes) (ops : list Op) : option (option bytes) :=
  match ops with
  | [] => None
  | op :: ops =>
      match last_write k ops with
      | Some w => Some w
      | None => if decide (OpKey op = k) then op_write op else None
      end
  end.

Lemma spec_apply_lookup op m k :
  snd (spec_apply op m) !! k = match (if decide (OpKey op = k) then op_write op else None) with
                              | Some w => w | None => m !! k end.
Proof.
  unfold spec_apply, op_write.
  destruct (decide (Operation op = lit "PUT")); [simpl; rewrite lookup_insert; by case_decide|].
  destruct (decide (Operation op = lit "DELETE")); [simpl; rewrite lookup_delete; by case_decide|].
  destruct (decide (Operation op = lit "GET")); simpl; by case_decide.
Qed.

Lemma spec_log_lookup ops m k :
  spec_log ops m !! k = match last_write k ops with Some w => w | None => m !! k end.
Proof.
  revert m. induction ops as [|op ops IH]; intros m; simpl; [done|].
  rewrite IH. destruct (last_write k ops); [done|]. apply spec_apply_lookup.
Qed.

Lemma last_write_app k ops1 ops2 :
  last_write k (ops1 ++ ops2) = match last_write k ops2 with Some w => Some w | None => last_write k ops1 end.
Proof.
  induction ops1 as [|op ops1 IH]; simpl; [by destruct (last_write k ops2)|].
  rewrite IH. by destruct (last_write k ops2).
Qed.

Lemma spec_log_replay ops1 ops2 m : spec_log (ops1 ++ ops2) (spec_log ops1 m) = spec_log (ops1 ++ ops2) m.
Proof.
  apply map_eq. intros k. rewrite !spec_log_lookup, last_write_app.
  destruct (last_write k ops2); [done|]. by destruct (last_write k ops1).
Qed.

Section Spec.
Context {DB RF : Type} `{EngineLaws DB, RaftApi RF Op}.
#[local] Abbreviation KVStore := (KVStore DB RF).
#[local] Abbreviation event := (event RF).

Definition op_cost (op : Op) : Z :=
  if decide (Operation op = lit "PUT") then put_cost (OpKey op) (OpValue op)
  else if decide (Operation op = lit "DELETE") then delete_cost (OpKey op) else 0.

Lemma op_cost_nonneg op : 0 <= op_cost op.
Proof. unfold op_cost. repeat case_decide; [apply put_cost_nonneg|apply delete_cost_nonneg|lia]. Qed.

(** An operation of the engine answers like the specification. *)
Lemma apply_op_spec op b n (d : DB) m :
  op_ok op -> 0 <= b -> repr (op_cost op + b) (S n) d m ->
  exists d', apply_op op d = Some (fst (spec_apply op m), d') /\ repr b n d' (snd (spec_apply op m)).
Proof.
  intros Hk Hb Hr. unfold apply_op, spec_apply, op_cost in *.
  destruct (decide (Operation op = lit "PUT")).
  - destruct (law_Put _ _ _ _ _ _ Hk Hb Hr) as (d' & -> & Hr'). by exists d'.
  - destruct (decide (Operation op = lit "DELETE")).
    + destruct (law_Delete _ _ _ _ _ Hk Hb Hr) as (d' & -> & Hr'). by exists d'.
    + destruct (decide (Operation op = lit "GET")).
      * destruct (law_Get (OpKey op) b n d m Hb Hr) as (d' & -> & Hr'). by exists d'.
      * exists d. split; [done|by apply law_idle].
Qed.

(** ** The goroutines of a store *)

(** The result [r] is the answer of the command that was applied at index [i], on the
    map that the commands before it have made. *)
Definition explained (m0 : gmap bytes bytes) (hist : list (ApplyMsg Op)) (i : Z) (r : OpResult) : Prop :=
  exists pre msg post op, hist = pre ++ msg :: post /\ CommandIndex msg = i /\ op_of msg = Some op /\
    r = fst (spec_apply op (spec_log (ops_of pre) m0)).

Lemma explained_app m0 hist msgs i r : explained m0 hist i r -> explained m0 (hist ++ msgs) i r.
Proof.
  intros (pre & msg & post & op & -> & ?). exists pre, msg, (post ++ msgs), op. by rewrite <- app_assoc.
Qed.

Lemma spec_apply_op op m : AppliedOp (fst (spec_apply op m)) = op.
Proof. unfold spec_apply. repeat case_decide; done. Qed.

Definition answer_ok (m0 : gmap bytes bytes) (hist : list (ApplyMsg Op)) (op : Op) (a : answer) : Prop :=
  match a with
  | Answered r => OpId (AppliedOp r) = OpId op /\ exists i, explained m0 hist i r
  | _ => True
  end.

Definition client_ok (m0 : gmap bytes bytes) (hist : list (ApplyMsg Op)) (idxs : list Z) (c : client) : Prop :=
  match c_phase c with
  | Started _ => True
  | Waiting i ch => idxs !! ch = Some i
  | Leaving _ a | Returned a => answer_ok m0 hist (c_op c) a
  end.

(** [h]: the messages that were handled to their end; [idxs]: the index that each
    channel was made for. *)
Record store_inv (m0 : gmap bytes bytes) (h : list (ApplyMsg Op)) (hist : list (ApplyMsg Op)) (idxs : list Z)
    (b : Z) (n : nat) (s : KVStore) : Prop := {
  si_db : repr b n (db s) (spec_log (ops_of hist) m0);
  si_len : length idxs = length (chans s);
  si_wait i ch : waitChans s !! i = Some ch -> idxs !! ch = Some i;
  si_chan ch r : chans s !! ch = Some (Some r) -> exists i, idxs !! ch = Some i /\ explained m0 h i r;
  si_applying : match applying s with
                | None => hist = h
                | Some (i, r) => exists msg op, hist = h ++ [msg] /\ CommandIndex msg = i /\ op_of msg = Some op /\
                    r = fst (spec_apply op (spec_log (ops_of h) m0))
                end;
  si_clients : Forall (client_ok m0 h idxs) (clients s)
}.

Lemma client_ok_app m0 h msgs idxs ix c : client_ok m0 h idxs c -> client_ok m0 (h ++ msgs) (idxs ++ ix) c.
Proof.
  unfold client_ok, answer_ok. destruct (c_phase c) as [i|i ch|i a|a]; [done|by intros; apply lookup_app_l_Some| |];
    (destruct a; [|done..]; intros [? [j ?]]; split; [done|exists j; by apply explained_app]).
Qed.

Lemma clients_ok_app m0 h msgs idxs ix (cs : list client) :
  Forall (client_ok m0 h idxs) cs -> Forall (client_ok m0 (h ++ msgs) (idxs ++ ix)) cs.
Proof. intros Hc. eapply Forall_impl; [exact Hc|]. intros c. apply client_ok_app. Qed.

Lemma set_phase_ok m0 h idxs (s : KVStore) k c p :
  Forall (client_ok m0 h idxs) (clients s) -> client_ok m0 h idxs (mkClient (c_op c) p) ->
  Forall (client_ok m0 h idxs) (clients (set_phase s k c p)).
Proof. intros Hc Hp. unfold set_phase; cbn [clients set_clients]. by apply Forall_insert. Qed.

Lemma ops_of_snoc h msg op : op_of msg = Some op -> ops_of (h ++ [msg]) = ops_of h ++ [op].
Proof. intros Ho. unfold ops_of. rewrite omap_app. simpl. by rewrite Ho. Qed.

Lemma ops_of_invalid h msg : op_of msg = None -> ops_of (h ++ [msg]) = ops_of h.
Proof. intros Ho. unfold ops_of. rewrite omap_app. simpl. rewrite Ho. apply app_nil_r. Qed.

(** What an event costs the engine, and when it is one that the program makes: the
    gateway refuses empty keys, and the apply loop gets commands. *)
Definition event_cost (e : event) : Z :=
  match e with Receive msg => match op_of msg with Some op => op_cost op | None => 0 end | _ => 0 end.

Definition event_ok (e : event) : Prop :=
  match e with
  | Receive msg => CommandValid msg = true -> exists op, MsgCommand msg = Some op /\ op_ok op
  | _ => True
  end.

Definition events_cost (es : list event) : Z := foldr (fun e c => event_cost e + c) 0 es.

Lemma event_cost_nonneg e : 0 <= event_cost e.
Proof. destruct e; simpl; try lia. case_match; [apply op_cost_nonneg|lia]. Qed.

Lemma events_cost_nonneg es : 0 <= events_cost es.
Proof. induction es as [|e es IH]; simpl; [lia|]. pose proof (event_cost_nonneg e). lia. Qed.

Lemma receive_inv m0 h hist idxs b n msg (s s' : KVStore) :
  store_inv m0 h hist idxs (event_cost (Receive msg) + b) (S n) s -> 0 <= b -> event_ok (Receive msg) ->
  receive msg s = Some s' -> exists h', store_inv m0 h' (hist ++ [msg]) idxs b n s'.
Proof.
  intros [Hdb Hlen Hw Hch Happ Hcl] Hb Hok. unfold receive. destruct (applying s) as [|] eqn:Ha; [done|]. subst hist.
  cbn [event_ok event_cost] in *. unfold op_of in Hdb. destruct (CommandValid msg) eqn:Hv.
  - destruct (Hok eq_refl) as (op & Hop & Hkey). rewrite Hop in *. cbn [mbind option_bind].
    destruct (apply_op_spec op b n (db s) _ Hkey Hb Hdb) as (d' & -> & Hr). cbn [mbind option_bind fst snd].
    intros [= <-]. assert (Ho : op_of msg = Some op) by (unfold op_of; by rewrite Hv).
    exists h. split; cbn; try done.
    + rewrite (ops_of_snoc _ _ _ Ho), spec_log_app. exact Hr.
    + by exists msg, op.
  - intros [= <-]. assert (Ho : op_of msg = None) by (unfold op_of; by rewrite Hv).
    exists (h ++ [msg]). split; try done.
    + rewrite (ops_of_invalid _ _ Ho). by apply law_idle.
    + intros ch r Hr. destruct (Hch ch r Hr) as (i & ? & ?). exists i. split; [done|by apply explained_app].
    + by rewrite Ha.
    + pose proof (clients_ok_app m0 h [msg] idxs [] (clients s) Hcl) as Hc. by rewrite app_nil_r in Hc.
Qed.

Lemma notify_inv m0 h hist idxs b n (s s' : KVStore) :
  store_inv m0 h hist idxs b n s -> notify s = Some s' -> store_inv m0 hist hist idxs b n s'.
Proof.
  intros [Hdb Hlen Hw Hch Happ Hcl]. unfold notify. destruct (applying s) as [[i r]|]; [|done].
  destruct Happ as (msg & op & -> & Hi & Ho & Hr). cbn [mbind option_bind].
  assert (Hch' : forall ch r, chans s !! ch = Some (Some r) ->
    exists i, idxs !! ch = Some i /\ explained m0 (h ++ [msg]) i r).
  { intros ch r' Hr'. destruct (Hch ch r' Hr') as (j & ? & ?). exists j. split; [done|by apply explained_app]. }
  assert (Hcl' : Forall (client_ok m0 (h ++ [msg]) idxs) (clients s)).
  { pose proof (clients_ok_app m0 h [msg] idxs [] (clients s) Hcl) as Hc. by rewrite app_nil_r in Hc. }
  destruct (waitChans s !! i) as [ch|] eqn:Hch0.
  - destruct (chans s !! ch) as [[|]|] eqn:Hb; [done| |done]. cbn [mbind option_bind]. intros [= <-].
    split; cbn; try done; [by rewrite length_insert|].
    intros ch' r' [(-> & [= <-] & _)|[_ Hr']]%list_lookup_insert_Some; [|by apply Hch'].
    exists i. split; [by apply Hw|]. by exists h, msg, [], op.
  - intros [= <-]. split; cbn; done.
Qed.

Lemma register_inv m0 h hist idxs b n k (s s' : KVStore) :
  store_inv m0 h hist idxs b n s -> register k s = Some s' -> exists i, store_inv m0 h hist (idxs ++ [i]) b n s'.
Proof.
  intros [Hdb Hlen Hw Hch Happ Hcl]. unfold register. intros (c & Hc & Hs)%bind_Some.
  destruct (c_phase c) as [i| | |]; try done. injection Hs as <-. exists i.
  assert (Hnew : (idxs ++ [i]) !! length (chans s) = Some i) by (by rewrite <- Hlen, list_lookup_middle).
  split; cbn; try done.
  - by rewrite !length_app, Hlen.
  - intros j ch [[<- <-]|[_ Hj]]%lookup_insert_Some; [done|]. by apply lookup_app_l_Some, Hw.
  - intros ch r [Hr|[_ Hr]]%lookup_app_Some.
    + destruct (Hch ch r Hr) as (j & ? & ?). exists j. split; [by apply lookup_app_l_Some|done].
    + by apply list_lookup_singleton_Some in Hr as [_ ?].
  - apply Forall_insert; [|exact Hnew].
    pose proof (clients_ok_app m0 h [] idxs [i] (clients s) Hcl) as Hx. by rewrite app_nil_r in Hx.
Qed.

Lemma wake_inv m0 h hist idxs b n k (s s' : KVStore) :
  store_inv m0 h hist idxs b n s -> wake k s = Some s' -> store_inv m0 h hist idxs b n s'.
Proof.
  intros [Hdb Hlen Hw Hch Happ Hcl]. unfold wake. intros (c & Hc & Hs)%bind_Some.
  destruct (c_phase c) as [|i ch| |]; try done. apply bind_Some in Hs as ([r|] & Hb & Hs); [|done].
  injection Hs as <-. destruct (Hch ch r Hb) as (j & _ & He).
  split; cbn; try done.
  - by rewrite length_insert.
  - intros ch' r' [(_ & ? & _)|[_ Hr']]%list_lookup_insert_Some; [done|by apply Hch].
  - apply Forall_insert; [done|]. unfold client_ok; cbn [c_phase c_op].
    destruct (OpId (AppliedOp r) =? OpId (c_op c)) eqn:Hid; bool_to_prop; cbn; [|done].
    split; [done|by exists j].
Qed.

Lemma expire_inv m0 h hist idxs b n k (s s' : KVStore) :
  store_inv m0 h hist idxs b n s -> expire k s = Some s' -> store_inv m0 h hist idxs b n s'.
Proof.
  intros [Hdb Hlen Hw Hch Happ Hcl]. unfold expire. intros (c & Hc & Hs)%bind_Some.
  destruct (c_phase c) as [|i ch| |]; try done. injection Hs as <-.
  split; cbn; try done. by apply Forall_insert.
Qed.

Lemma leave_inv m0 h hist idxs b n k (s s' : KVStore) :
  store_inv m0 h hist idxs b n s -> leave k s = Some s' -> store_inv m0 h hist idxs b n s'.
Proof.
  intros [Hdb Hlen Hw Hch Happ Hcl]. unfold leave. intros (c & Hc & Hs)%bind_Some.
  destruct (c_phase c) as [| |i a|] eqn:Hp; try done. injection Hs as <-.
  split; cbn; try done.
  - intros j ch [_ Hj]%lookup_delete_Some. by apply Hw.
  - apply Forall_insert; [done|]. rewrite Forall_lookup in Hcl. specialize (Hcl k c Hc).
    unfold client_ok in *. by rewrite Hp in Hcl.
Qed.

Lemma begin_inv m0 h hist idxs b n env op (s s' : KVStore) :
  store_inv m0 h hist idxs b n s -> begin env op s = Some s' -> store_inv m0 h hist idxs b n s'.
Proof.
  intros [Hdb Hlen Hw Hch Happ Hcl]. unfold begin. intros ([[[i t] l] r] & _ & [= <-])%bind_Some. cbn [fst snd].
  split; cbn; try done. apply Forall_app. split; [done|]. apply Forall_singleton. by destruct l.
Qed.

Lemma inv_idle m0 h hist idxs b n (s : KVStore) :
  store_inv m0 h hist idxs b (S n) s -> store_inv m0 h hist idxs b n s.
Proof. intros []. split; try done. by apply law_idle. Qed.

Lemma store_step_inv m0 h hist idxs b n e (s s' : KVStore) :
  store_inv m0 h hist idxs (event_cost e + b) (S n) s -> 0 <= b -> event_ok e -> step e s = Some s' ->
  exists h' idxs', store_inv m0 h' (hist ++ received [e]) idxs' b n s'.
Proof.
  intros Hi Hb Hok. destruct e as [msg| |env op|k|k|k|k|k|r|key]; cbn [step received omap list_omap];
    rewrite ?app_nil_r; cbn [event_cost Z.add] in Hi.
  - intros Hs. destruct (receive_inv _ _ _ _ _ _ _ _ _ Hi Hb Hok Hs) as [h' ?]. by exists h', idxs.
  - intros Hs. exists hist, idxs. eapply notify_inv; [|exact Hs]. by apply inv_idle.
  - intros Hs. exists h, idxs. eapply begin_inv; [|exact Hs]. by apply inv_idle.
  - intros Hs. apply inv_idle in Hi. destruct (register_inv _ _ _ _ _ _ _ _ _ Hi Hs) as [i ?]. by exists h, (idxs ++ [i]).
  - intros Hs. exists h, idxs. eapply wake_inv; [|exact Hs]. by apply inv_idle.
  - intros Hs. exists h, idxs. eapply expire_inv; [|exact Hs]. by apply inv_idle.
  - intros Hs. exists h, idxs. eapply leave_inv; [|exact Hs]. by apply inv_idle.
  - intros (d' & Hd & [= <-])%bind_Some. destruct Hi as [Hdb Hlen Hw Hch Happ Hcl].
    destruct (law_Background k b n (db s) _ Hb Hdb) as (d1 & Hd1 & Hr). rewrite Hd1 in Hd. injection Hd as <-.
    exists h, idxs. by split.
  - intros [= <-]. exists h, idxs. apply inv_idle in Hi. by destruct Hi.
  - intros (r & Hr & [= <-])%bind_Some. destruct Hi as [Hdb Hlen Hw Hch Happ Hcl].
    destruct (law_Get key b n (db s) _ Hb Hdb) as (d' & Hg & Hd). rewrite Hg in Hr. injection Hr as <-.
    exists h, idxs. by split.
Qed.

Lemma received_cons (e : event) es : received (e :: es) = received [e] ++ received es.
Proof. unfold received. by destruct e. Qed.

Lemma store_run_inv m0 h hist idxs b n es (s s' : KVStore) :
  store_inv m0 h hist idxs (events_cost es + b) (length es + n) s -> 0 <= b -> Forall event_ok es ->
  run es s = Some s' -> exists h' idxs', store_inv m0 h' (hist ++ received es) idxs' b n s'.
Proof.
  revert h hist idxs s. induction es as [|e es IH]; intros h hist idxs s Hi Hb Hok; cbn [run].
  { intros [= <-]. exists h, idxs. by rewrite app_nil_r. }
  apply Forall_cons in Hok as [He Hok]. intros (s1 & Hs & Hr)%bind_Some. cbn [events_cost foldr length Nat.add] in Hi.
  fold (events_cost es) in Hi. rewrite <- Z.add_assoc in Hi. pose proof (events_cost_nonneg es).
  destruct (store_step_inv m0 h hist idxs (events_cost es + b) (length es + n) e s s1 Hi) as (h1 & idxs1 & Hi1); [lia|done|done|].
  destruct (IH h1 _ idxs1 s1 Hi1 Hb Hok Hr) as (h2 & idxs2 & Hi2). exists h2, idxs2.
  by rewrite received_cons, app_assoc.
Qed.

Lemma new_inv m b n (d : DB) (r : RF) : repr b n d m -> store_inv m [] [] [] b n (NewKVStore d r).
Proof. intros Hr. by split; try done; cbn. Qed.

(** ** The channels *)

(** The send of the apply loop finds room when no index comes twice. *)
Lemma notify_room m0 h hist idxs b n (s : KVStore) :
  store_inv m0 h hist idxs b n s -> NoDup (CommandIndex <$> hist) -> is_Some (applying s) -> is_Some (notify s).
Proof.
  intros [Hdb Hlen Hw Hch Happ Hcl] Hnd [[i r] Ha]. unfold notify. rewrite Ha in *. cbn [mbind option_bind].
  destruct Happ as (msg & op & -> & Hi & _). destruct (waitChans s !! i) as [ch|] eqn:Hwi; [|by eexists].
  pose proof (Hw i ch Hwi) as Hidx. destruct (lookup_lt_is_Some_2 (chans s) ch) as [[r'|] Hb].
  { rewrite <- Hlen. by eapply lookup_lt_Some. }
  - exfalso. destruct (Hch ch r' Hb) as (j & Hj & pre & msg' & post & op' & -> & Hm & _).
    rewrite fmap_app, fmap_app in Hnd. apply NoDup_app in Hnd as (_ & Hno & _).
    apply (Hno i); [|simpl; rewrite Hi; by left]. rewrite fmap_cons. apply elem_of_app. right.
    assert (j = i) as -> by congruence. rewrite Hm. by left.
  - rewrite Hb. cbn [mbind option_bind]. by eexists.
Qed.

(** Every registered channel belongs to a call that has not returned. *)
Definition client_index (c : client) : option Z :=
  match c_phase c with Waiting i _ | Leaving i _ => Some i | _ => None end.

Definition open_calls (s : KVStore) : list Z := omap client_index (clients s).

Definition wait_inv (s : KVStore) : Prop := forall i, is_Some (waitChans s !! i) -> i ∈ open_calls s.

Lemma open_calls_insert (cs : list client) k c c' i :
  cs !! k = Some c -> i ∈ omap client_index cs -> (client_index c = Some i -> client_index c' = Some i) ->
  i ∈ omap client_index (<[k := c']> cs).
Proof.
  intros Hc Hi Hcc. apply list_elem_of_omap in Hi as (x & Hx & Hxi). apply list_elem_of_lookup in Hx as [k' Hk'].
  apply list_elem_of_omap. destruct (decide (k' = k)) as [->|Hne].
  - assert (x = c) as -> by congruence. exists c'. split; [|by apply Hcc].
    apply list_elem_of_lookup. exists k. apply list_lookup_insert_eq. by eapply lookup_lt_Some.
  - exists x. split; [|done]. apply list_elem_of_lookup. exists k'. by rewrite list_lookup_insert_ne.
Qed.

Lemma step_wait e (s s' : KVStore) : wait_inv s -> step e s = Some s' -> wait_inv s'.
Proof.
  intros Hw. unfold wait_inv, open_calls in *. destruct e as [msg| |env op|k|k|k|k|k|r|key]; cbn [step].
  - unfold receive. destruct (applying s); [done|]. destruct (CommandValid msg); [|by intros [= <-]].
    intros (op & _ & (r & _ & [= <-])%bind_Some)%bind_Some. done.
  - unfold notify. intros ([i r] & _ & Hs)%bind_Some. destruct (waitChans s !! i); [|by injection Hs as <-].
    apply bind_Some in Hs as ([|] & _ & [= <-]). done.
  - unfold begin. intros ([[[j t] l] r] & _ & [= <-])%bind_Some. cbn. intros i Hi.
    rewrite omap_app. apply elem_of_app. left. by apply Hw.
  - unfold register. intros (c & Hc & Hs)%bind_Some. destruct (c_phase c) as [j| | |] eqn:Hp; try done.
    injection Hs as <-. cbn. intros i. rewrite lookup_insert. case_decide as Hij; intros Hi.
    + subst. apply list_elem_of_omap. eexists (mkClient (c_op c) (Waiting i _)). split; [|done].
      apply list_elem_of_lookup. exists k. apply list_lookup_insert_eq. by eapply lookup_lt_Some.
    + eapply open_calls_insert; [done|by apply Hw|]. unfold client_index. by rewrite Hp.
  - unfold wake. intros (c & Hc & Hs)%bind_Some. destruct (c_phase c) as [|j ch| |] eqn:Hp; try done.
    apply bind_Some in Hs as ([r|] & _ & [= <-]). cbn. intros i Hi. eapply open_calls_insert; [done|by apply Hw|].
    unfold client_index. by rewrite Hp.
  - unfold expire. intros (c & Hc & Hs)%bind_Some. destruct (c_phase c) as [|j ch| |] eqn:Hp; try done.
    injection Hs as <-. cbn. intros i Hi. eapply open_calls_insert; [done|by apply Hw|].
    unfold client_index. by rewrite Hp.
  - unfold leave. intros (c & Hc & Hs)%bind_Some. destruct (c_phase c) as [| |j a|] eqn:Hp; try done.
    injection Hs as <-. cbn. intros i [ch [Hne Hi]%lookup_delete_Some]. eapply open_calls_insert; [done|apply Hw; by exists ch|].
    unfold client_index. rewrite Hp. by intros [= ->].
  - intros (d & _ & [= <-])%bind_Some. done.
  - intros [= <-]. done.
  - intros (r & _ & [= <-])%bind_Some. done.
Qed.

Lemma run_wait es (s s' : KVStore) : wait_inv s -> run es s = Some s' -> wait_inv s'.
Proof.
  revert s. induction es as [|e es IH]; intros s Hw; cbn [run]; [by intros [= <-]|].
  intros (s1 & Hs & Hr)%bind_Some. eapply IH; [|exact Hr]. by eapply step_wait.
Qed.

Lemma size_list_to_set_le (l : list Z) : (size (list_to_set l : gset Z) <= length l)%nat.
Proof.
  induction l as [|x l IH]; [by rewrite list_to_set_nil, size_empty|].
  rewrite list_to_set_cons, size_union_alt, size_singleton. simpl.
  transitivity (S (size (list_to_set l : gset Z))); [|lia]. apply le_n_S, subseteq_size. set_solver.
Qed.

Lemma wait_count (s : KVStore) : wait_inv s -> ActiveWaitChans s <= Z.of_nat (length (open_calls s)).
Proof.
  intros Hw. unfold ActiveWaitChans. apply Nat2Z.inj_le. rewrite <- size_dom.
  transitivity (size (list_to_set (open_calls s) : gset Z)).
  - apply subseteq_size. intros i Hi%elem_of_dom. apply elem_of_list_to_set. by apply Hw.
  - apply size_list_to_set_le.
Qed.

(** ** The apply loop alone *)

(** The loop handles the messages one after the other. *)
Definition apply_all (msgs : list (ApplyMsg Op)) : list event := mjoin ((fun msg => [Receive msg; Notify]) <$> msgs).

(** The events of a schedule that are not turns of the engine's goroutines. *)
Definition in_front (e : event) : bool := match e with Background _ => false | _ => true end.
Definition foreground (es : list event) : list event := filter (fun e => in_front e = true) es.

Lemma background_runs b n k m (s : KVStore) :
  0 <= b -> repr b (S n) (db s) m ->
  exists d, step (Background k) s = Some (set_db s d) /\ repr b n d m.
Proof.
  intros Hb Hr. destruct (law_Background k b n (db s) m Hb Hr) as (d & Hd & Hr'). exists d. split; [|done].
  cbn [step]. by rewrite Hd.
Qed.

Lemma receive_runs b n msg m (s : KVStore) :
  0 <= b -> event_ok (Receive msg) -> CommandValid msg = true -> applying s = None ->
  repr (event_cost (Receive msg) + b) (S n) (db s) m ->
  exists d r, step (Receive msg) s = Some (set_applying (set_db s d) (Some r)) /\ repr b n d (spec_log (ops_of [msg]) m).
Proof.
  intros Hb Hok Hv Ha Hr. destruct (Hok Hv) as (op & Hop & Hk).
  assert (Ho : op_of msg = Some op) by (unfold op_of; by rewrite Hv).
  cbn [event_cost] in Hr. rewrite Ho in Hr. destruct (apply_op_spec op b n (db s) m Hk Hb Hr) as (d & Hd & Hr').
  exists d, (CommandIndex msg, (spec_apply op m).1). split; [|unfold ops_of; cbn [omap list_omap]; by rewrite Ho].
  cbn [step]. unfold receive. rewrite Ha, Hv, Hop. cbn [mbind option_bind]. by rewrite Hd.
Qed.

Lemma notify_runs (s : KVStore) : is_Some (applying s) -> waitChans s = ∅ -> step Notify s = Some (set_applying s None).
Proof. intros [[i r] Ha] Hw. cbn [step]. unfold notify. by rewrite Ha, Hw. Qed.

(** The loop handles all messages, with the turns of the engine's goroutines between its
    steps. [pending]: a result is not handed over yet. *)
Lemma replay_runs b n es : forall (pending : bool) msgs m (s : KVStore),
  foreground es = (if pending then [Notify] else []) ++ apply_all msgs ->
  0 <= b -> Forall event_ok es -> Forall (fun msg => CommandValid msg = true) msgs ->
  (if pending then is_Some (applying s) else applying s = None) -> waitChans s = ∅ ->
  repr (events_cost es + b) (length es + n) (db s) m ->
  exists s', run es s = Some s' /\ repr b n (db s') (spec_log (ops_of msgs) m).
Proof.
  induction es as [|e es IH]; intros pending msgs m s Hf Hb Hok Hv Ha Hw Hr.
  { destruct pending; [done|]. destruct msgs; [by exists s|done]. }
  apply Forall_cons in Hok as [He Hok]. pose proof (events_cost_nonneg es) as Hnn.
  change (events_cost (e :: es)) with (event_cost e + events_cost es) in Hr. rewrite <- Z.add_assoc in Hr.
  change (length (e :: es) + n)%nat with (S (length es + n)) in Hr. unfold foreground in Hf. rewrite filter_cons in Hf. cbn [run].
  case_decide as Hfront.
  - destruct pending.
    + injection Hf as -> Hf. rewrite notify_runs by done. cbn [mbind option_bind].
      apply (IH false msgs); try done. by apply law_idle.
    + destruct msgs as [|msg msgs]; [done|]. change (apply_all (msg :: msgs)) with (Receive msg :: Notify :: apply_all msgs) in Hf.
      injection Hf as -> Hf. apply Forall_cons in Hv as [Hv Hvs].
      destruct (receive_runs (events_cost es + b) (length es + n) msg m s ltac:(lia) He Hv Ha Hr) as (d & r & -> & Hr').
      cbn [mbind option_bind]. change (msg :: msgs) with ([msg] ++ msgs). unfold ops_of. rewrite omap_app. fold (ops_of [msg]) (ops_of msgs).
      rewrite spec_log_app. by apply (IH true msgs).
  - destruct e as [| | | | | | |k| |]; try done.
    destruct (background_runs (events_cost es + b) (length es + n) k m s ltac:(lia) Hr) as (d & -> & Hr').
    cbn [mbind option_bind]. by apply (IH pending msgs).
Qed.

(** What the engine holds after a run and what its clients were told. *)
Lemma store_answers b n m (d : DB) (r : RF) es s :
  repr (events_cost es + b) (length es + n) d m -> 0 <= b -> Forall event_ok es ->
  run es (NewKVStore d r) = Some s ->
  repr b n (db s) (spec_log (ops_of (received es)) m) /\
  forall k op res, clients s !! k = Some (mkClient op (Returned (Answered res))) ->
    OpId (AppliedOp res) = OpId op /\ exists i, explained m (received es) i res.
Proof.
  intros Hd Hb Hok Hr.
  destruct (store_run_inv m [] [] [] b n es _ s (new_inv _ _ _ _ _ Hd) Hb Hok Hr) as (h & idxs & [Hdb _ _ _ Happ Hcl]).
  split; [exact Hdb|]. intros k op res Hk. rewrite Forall_lookup in Hcl. destruct (Hcl k _ Hk) as [Hid [i Hex]].
  split; [done|]. exists i. cbn [app] in Happ. destruct (applying s) as [[]|]; [|by rewrite Happ].
  destruct Happ as (msg & op' & -> & _). by apply explained_app.
Qed.
End Spec.
