(* ===== verification/StoreLsm.v ===== *)
(** * The storage engine behind the store's interface

    [Engine.Put], [Engine.Delete] and [Engine.Get] on a disk without faults satisfy
    the laws of [StoreSpec]; a flush that was started waits as a task beside the
    engine.  The goroutines of the engine are the flush, the log pre-allocator and the
    compaction loop; the laws hold of an engine whose compaction is switched off
    ([ENABLE_COMPACTION=false]), because a compaction changes the map.  The finite map
    satisfies them too. *)
From S2P Require Import EngineSpec.
From S2P Require Export StoreSpec.

(** ** The storage engine *)

Definition lsm : Type := sys * Disk.

Definition io_run {A} (m : IO A) (d : Disk) : option (A * Disk) :=
  match m d with (Done a, d') => Some (a, d') | _ => None end.

Definition lsm_write (o : wal_op) (x : lsm) : option (option error * lsm) :=
  r ← io_run (write_sys o (fst x)) (snd x);
  let '((err, s), d) := r in Some (err, (s, d)).

(** The turns of the engine's goroutines: the flush, the pre-allocator, and a tick of the
    compaction loop, with the duration that it measures. *)
Definition background_cmd (k : nat) : cmd :=
  match (k mod 3)%nat with
  | 0%nat => CFlush
  | 1%nat => CPrealloc
  | _ => CTick (Z.of_nat (k / 3))
  end.

#[export] Instance lsm_engine : EngineApi lsm := {
  db_Put k v := lsm_write (WPut k v);
  db_Delete k := lsm_write (WDelete k);
  db_Get k x :=
    r ← io_run (Engine.Get (fst (fst x)) k) (snd x);
    let '((v, db'), d) := r in Some (v, ((db', snd (fst x)), d));
  db_DebugMetrics x := EngineMetrics.DebugMetrics (fst (fst x));
  db_Background k x :=
    r ← io_run (run_cmd (background_cmd k) (fst x)) (snd x);
    Some (snd (fst r), snd r)
}.

(** ** Runs without faults

    Without faults to come, an operation is not killed, and no fault is to come
    after it. *)
Definition clean {A} (m : IO A) : Prop :=
  forall F, match m (mkDisk F []) with (Crashed, _) => False | (_, d) => disk_faults d = [] end.

Lemma clean_ret {A} (a : A) : clean (mret a).
Proof. done. Qed.

Lemma clean_panic {A} : clean (panic : IO A).
Proof. done. Qed.

Lemma clean_bind {A B} (m : IO A) (k : A -> IO B) : clean m -> (forall a, clean (k a)) -> clean (m ≫= k).
Proof.
  intros Hm Hk F. specialize (Hm F). unfold mbind, IO_bind.
  destruct (m (mkDisk F [])) as [[a| |] [G fs]]; simpl in *; try done. subst fs. apply Hk.
Qed.

Lemma clean_syscall full partial : clean (syscall full partial).
Proof. done. Qed.

Lemma clean_ReadFile p : clean (os_ReadFile p).
Proof. done. Qed.

Create HintDb clean.
#[export] Hint Resolve clean_ret clean_panic clean_syscall clean_ReadFile : clean.

(** Follows the structure of the operation. *)
Ltac clean_steps :=
  repeat (cbv beta zeta; match goal with
          | |- clean (_ ≫= _) => apply clean_bind; [|intros]
          | |- clean (match ?x with _ => _ end) => destruct x
          | |- clean (if ?b then _ else _) => destruct b
          | |- clean _ => solve [auto with clean nocore]
          end).

Lemma clean_append_buf w buf : clean (append_buf w buf).
Proof. unfold append_buf, file_Write, file_Sync. clean_steps. Qed.
Lemma clean_OpenWAL name : clean (OpenWAL name).
Proof. unfold OpenWAL, os_OpenAppend. clean_steps. Qed.
Lemma clean_WalDelete w : clean (Wal.Delete w).
Proof. unfold Wal.Delete, file_Sync, file_Close, os_Remove. clean_steps. Qed.
Lemma clean_read meta key : clean (readValFromSSTable meta key).
Proof. unfold readValFromSSTable. clean_steps. Qed.
#[export] Hint Resolve clean_append_buf clean_OpenWAL clean_WalDelete clean_read : clean.

Lemma clean_get_sstables metas key n : clean (get_sstables metas key n).
Proof. revert n. induction metas as [|meta metas IH]; intros n; cbn [get_sstables]; clean_steps; apply IH. Qed.
Lemma clean_write_pairs file ps w : clean (write_pairs file ps w).
Proof.
  revert w. induction ps as [|p ps IH]; intros w; cbn [write_pairs]; unfold file_Write; clean_steps; apply IH.
Qed.
#[export] Hint Resolve clean_get_sstables clean_write_pairs : clean.

Lemma clean_writeSSTable file ps : clean (writeSSTable file ps).
Proof. unfold writeSSTable, writeSSTable_body, os_Create, file_Write, file_Sync, file_Close. clean_steps. Qed.
Lemma clean_persistManifest snapshot : clean (persistManifest snapshot).
Proof. unfold persistManifest, os_OpenAppend, file_Write, file_Sync. clean_steps. Qed.
#[export] Hint Resolve clean_writeSSTable clean_persistManifest : clean.

Lemma clean_Get db key : clean (Engine.Get db key).
Proof. unfold Engine.Get. clean_steps. Qed.
Lemma clean_write_sys o s : clean (write_sys o s).
Proof. unfold write_sys, write, Engine.Put, Engine.Delete, AppendPut, AppendDelete. clean_steps. Qed.
Lemma clean_flush db imm w : clean (flush db imm w).
Proof. unfold flush, installFlushedTable, writeSSTableFromMem. clean_steps. Qed.
Lemma clean_prealloc db : clean (walPreAllocator_turn db).
Proof. unfold walPreAllocator_turn. clean_steps. Qed.
#[export] Hint Resolve clean_Get clean_write_sys clean_flush clean_prealloc : clean.


Lemma clean_open_iterators metas : clean (open_iterators metas).
Proof. induction metas as [|meta metas IH]; cbn [open_iterators]; unfold NewSSTableIterator; clean_steps; apply IH. Qed.
Lemma clean_removeObsoleteFiles metas : clean (removeObsoleteFiles metas).
Proof. induction metas as [|meta metas IH]; cbn [removeObsoleteFiles]; unfold os_Remove; clean_steps; apply IH. Qed.
#[export] Hint Resolve clean_open_iterators clean_removeObsoleteFiles : clean.

Lemma clean_compaction_tick elapsed db : clean (compaction_tick elapsed db).
Proof. unfold compaction_tick, doCompaction, compact_files, installCompactedTable, writeSSTableFromPairs. clean_steps. Qed.
#[export] Hint Resolve clean_compaction_tick : clean.

Lemma clean_run_cmd c s : clean (run_cmd c s).
Proof. unfold run_cmd, run_task. clean_steps. Qed.

(** ** The laws *)

(** The engine and its disk hold [m]; no fault and no compaction is to come. *)
Definition lsm_repr (b : Z) (n : nat) (x : lsm) (m : gmap bytes bytes) : Prop :=
  disk_faults (snd x) = [] /\ compacts (fst x) = false /\ sys_inv (fst x) (disk_files (snd x)) m b n.

Lemma io_run_wp {A} (m : IO A) (P : A -> Prop) (Q : A -> files -> Prop) C d :
  clean m -> returns P m -> wp only_crash m Q C (disk_files d) -> disk_faults d = [] ->
  exists a d', io_run m d = Some (a, d') /\ P a /\ Q a (disk_files d') /\ disk_faults d' = [].
Proof.
  intros Hc Hp Hw Hd. apply (wp_returns _ _ _ _ _ _ Hp) in Hw.
  destruct d as [F fs]. simpl in *. subst fs. specialize (Hw [] (Forall_nil_2 _)). specialize (Hc F).
  unfold io_run. destruct (m (mkDisk F [])) as [[a| |] d']; try done. exists a, d'. destruct Hw as [[??] ?]. by split_and!.
Qed.

(** A command that keeps its promise, run by the engine. *)
Lemma run_cmd_law c b n (x : lsm) m :
  ticks_idle false c -> cmd_ok c -> 0 <= b -> lsm_repr (cmd_cost c + b) (S n) x m ->
  exists r d, io_run (run_cmd c (fst x)) (snd x) = Some (r, d) /\ r.1 = (spec_cmd c m).1 /\
    lsm_repr b n (snd r, d) (spec_cmd c m).2.
Proof.
  intros Ht Hok Hb (Hd & Hoff & Hs). rewrite <- Hoff in Ht.
  destruct (io_run_wp _ _ _ _ _ (clean_run_cmd c (fst x)) (run_cmd_compacts c (fst x)) (run_cmd_wp c _ _ m b n Hs Hb Hok Ht) Hd)
    as (r & d & Hr & Hc & (_ & Hans & Hs') & Hd'). exists r, d. split_and!; [done|done|]. split_and!; [done| |done].
  cbn [fst snd]. congruence.
Qed.

Lemma lsm_write_law o b n (x : lsm) m :
  op_key o <> [] -> 0 <= b -> lsm_repr (op_weight o + b) (S n) x m ->
  exists x', lsm_write o x = Some (None, x') /\ lsm_repr b n x' (spec_write o m).
Proof.
  intros Hk Hb (Hd & Hoff & Hs). unfold lsm_write.
  destruct (io_run_wp _ _ _ _ _ (clean_write_sys o (fst x)) (write_sys_compacts o (fst x)) (write_sys_wp _ _ _ o b n Hs Hb Hk) Hd)
    as ([err s'] & d' & -> & Hc & [He Hs'] & Hd'). simpl in He, Hc. subst err. cbn [mbind option_bind].
  exists (s', d'). split; [done|]. split_and!; [done| |done]. cbn [fst]. congruence.
Qed.

Lemma background_idle k : ticks_idle false (background_cmd k) /\ cmd_ok (background_cmd k) /\ cmd_cost (background_cmd k) = 0 /\
  forall m, (spec_cmd (background_cmd k) m).2 = m.
Proof. split; [by left|]. unfold background_cmd. by repeat case_match. Qed.

#[export, refine] Instance lsm_laws : EngineLaws lsm := {
  repr := lsm_repr;
  put_cost k v := op_weight (WPut k v);
  delete_cost k := op_weight (WDelete k)
}.
Proof.
  - intros k v. pose proof (op_weight_nonneg (WPut k v)). lia.
  - intros k. pose proof (op_weight_nonneg (WDelete k)). lia.
  - intros k v b n x m. exact (lsm_write_law (WPut k v) b n x m).
  - intros k b n x m. exact (lsm_write_law (WDelete k) b n x m).
  - intros k b n [[db task] d] m Hb Hr. cbn [db_Get lsm_engine fst snd].
    destruct (run_cmd_law (CGet k) b n ((db, task), d) m (or_introl eq_refl) I Hb Hr) as ([r s'] & d' & Hrun & Hv & Hs').
    cbn [run_cmd fst snd] in *. unfold io_run in *. unfold mbind, IO_bind in Hrun.
    destruct (Engine.Get db k d) as [[[v db']| |] d1]; try done.
    injection Hrun as <- <- <-. injection Hv as ->. cbn [mbind option_bind]. by exists ((db', task), d1).
  - intros k b n [s d] m Hb Hr. cbn [db_Background lsm_engine fst snd].
    destruct (background_idle k) as (Ht & Hok & Hc & Hm).
    destruct (run_cmd_law (background_cmd k) b n (s, d) m Ht Hok Hb) as ([r s'] & d' & Hrun & _ & Hs'); [by rewrite Hc|].
    cbn [fst snd] in *. rewrite Hrun. cbn [mbind option_bind fst snd]. exists (s', d'). split; [done|]. by rewrite Hm in Hs'.
  - intros b n x m (Hd & Hoff & tabs & old & cur & next & Hs). split_and!; [done|done|]. exists tabs, old, cur, next.
    by apply sys_live_idle.
Defined.

(** ** Start-up *)

Definition NewStore {RF} (compaction : bool) (F : files) (r : RF) : option (KVStore lsm RF) :=
  x ← io_run (NewDBWithOptions compaction) (mkDisk F []);
  Some (NewKVStore ((fst x, None), mkDisk (disk_files (snd x)) []) r).

(** Start-up succeeds on a disk that holds a map; the store holds it. *)
Lemma NewStore_starts {RF} `{RaftApi RF Op} compaction F m b n (r : RF) :
  holds_map F m (S n) -> (24 + b < TombstoneLen)%Z ->
  exists x, NewStore compaction F r = Some (NewKVStore x r) /\ compacts (fst x) = compaction /\
    disk_faults (snd x) = [] /\ sys_inv (fst x) (disk_files (snd x)) m b n.
Proof.
  intros Hm Hb. destruct (wp_no_fault _ _ _ (wp_returns _ _ _ _ _ _ (NewDB_compacts compaction) (NewDB_refines compaction F m b n Hm Hb)))
    as (db & d & Hd & Hc & Hs). exists ((db, None), mkDisk (disk_files d) []). unfold NewStore, io_run.
  rewrite Hd. by split_and!.
Qed.

Lemma NewStore_repr {RF} `{RaftApi RF Op} F m b n (r : RF) :
  holds_map F m (S n) -> (24 + b < TombstoneLen)%Z ->
  exists x, NewStore false F r = Some (NewKVStore x r) /\ repr b n x m.
Proof.
  intros Hm Hb. destruct (NewStore_starts false F m b n r Hm Hb) as (x & Hs & Hc & Hd & Hi). exists x. by split_and!.
Qed.

(** ** The finite map as an engine *)

#[export] Instance map_engine : EngineApi (gmap bytes bytes) := {
  db_Put k v m := Some (None, <[k := v]> m);
  db_Delete k m := Some (None, delete k m);
  db_Get k m := Some (m !! k, m);
  db_DebugMetrics _ := EngineMetrics.noMetrics;
  db_Background _ m := Some m
}.

#[export, refine] Instance map_laws : EngineLaws (gmap bytes bytes) := {
  repr _ _ d m := d = m; put_cost _ _ := 0; delete_cost _ := 0
}.
Proof. all: intros; subst; eauto; lia. Defined.
