(* ===== verification/StoreTheorems.v ===== *)
(** * Properties of the store

    What clients are told, what the engine holds after a run and after a restart,
    that the apply loop never blocks on a client, and how a wake-up can be lost. *)
From S2P Require Import EngineSpec ClusterRuns StoreLsm.

Section Store.
Context {DB RF : Type} `{EngineLaws DB, RaftApi RF Op}.

(** C10. With an engine that keeps the laws (the storage engine does when compaction is
    off), in every interleaving of the apply loop, of client calls and of the engine's
    goroutines, the engine holds the map that the received commands make one after
    the other, and a client that gets an answer gets that of a command with its
    identifier, on the map at the point where this command was applied. *)
Theorem answers_are_linearized b n m (d : DB) (r : RF) es s :
  repr (events_cost es + b) (length es + n) d m -> 0 <= b -> Forall event_ok es ->
  run es (NewKVStore d r) = Some s ->
  repr b n (db s) (spec_log (ops_of (received es)) m) /\
  forall k op res, clients s !! k = Some (mkClient op (Returned (Answered res))) ->
    OpId (AppliedOp res) = OpId op /\ exists i, explained m (received es) i res.
Proof. apply store_answers. Qed.

(** C31. Every registered channel belongs to a call that has not returned: the map of
    channels is at most as large as the number of open calls, and empty when all
    calls have returned. *)
Theorem wait_channels_do_not_leak (d : DB) (r : RF) es s :
  run es (NewKVStore d r) = Some s -> ActiveWaitChans s <= Z.of_nat (length (open_calls s)).
Proof. intros Hr. apply wait_count. eapply run_wait; [|exact Hr]. by intros i [? ?]. Qed.

(** C30. A store that is fed by a node of a cluster never blocks in the send to a client
    while it holds its lock: the channel of an index has room, because the node sends
    each index once. *)
Theorem apply_loop_never_blocks `{GobLaws (Z * Z * list (LogEntry Op))} nodes c i rf sent b n m (d : DB) (r : RF) es s :
  (2 <= nodes)%nat -> reachable nodes c -> up c i = Some (rf, sent) -> received es `prefix_of` sent ->
  repr (events_cost es + b) (length es + n) d m -> 0 <= b -> Forall event_ok es ->
  run es (NewKVStore d r) = Some s -> is_Some (applying s) -> is_Some (notify s).
Proof.
  intros Hn Hc Hu [rest Hp] Hd Hb Hok Hr Ha.
  destruct (store_run_inv m [] [] [] b n es _ s (new_inv _ _ _ _ _ Hd) Hb Hok Hr) as (h & idxs & Hi).
  eapply notify_room; [exact Hi| |exact Ha].
  destruct (applied_reachable nodes Hn c Hc i rf sent Hu) as [Hs _].
  rewrite Hp, fmap_app in Hs. pose proof (NoDup_seqZ 1 (lastApplied rf)) as Hnd. rewrite <- Hs in Hnd.
  by apply NoDup_app in Hnd as [? _].
Qed.
End Store.

(** C18. After a restart with compaction off, on a disk that holds the map of some first
    part of the log, the apply loop of the store goes through the whole log again
    without a panic, whatever the turns of the engine's goroutines (flushes, log
    pre-allocations, ticks of the compaction loop) between its steps, and ends with the
    map of the whole log. *)
Theorem restart_replays_log {RF} `{RaftApi RF Op} F b n (r : RF) (es : list (Store.event RF)) msgs k :
  foreground es = apply_all msgs ->
  holds_map F (spec_log (take k (ops_of msgs)) ∅) (S (length es + n)) ->
  0 <= b -> 24 + (events_cost (DB := lsm) es + b) < TombstoneLen ->
  Forall event_ok es -> Forall (fun msg => CommandValid msg = true) msgs ->
  exists s s', NewStore false F r = Some s /\ run es s = Some s' /\
    repr b n (db s') (spec_log (ops_of msgs) ∅).
Proof.
  intros Hes Hm Hb Hw Hok Hv. destruct (NewStore_repr F _ _ _ r Hm Hw) as (x & Hx & Hr).
  destruct (replay_runs b n es false msgs (spec_log (take k (ops_of msgs)) ∅) (NewKVStore x r)) as (s' & Hs & Hr'); try done.
  exists (NewKVStore x r), s'. split_and!; [exact Hx|exact Hs|].
  rewrite <- (take_drop k (ops_of msgs)) in Hr' at 1. rewrite spec_log_replay, take_drop in Hr'. exact Hr'.
Qed.

(** ** Instances *)

#[local] Abbreviation node := (Raft (Cmd := Op)).
#[local] Abbreviation sevent := (Store.event node).

(** A leader of term [t] with log [l]. *)
Definition leading (t : Z) (l : list (LogEntry Op)) : node :=
  mkRaft 3 (MakePersister []) 0 t 0 StateLeader 0 0 l 0 0 [1; 1; 1] [0; 0; 0] 0 0 0 0 0 0 0 0.

Definition key1 : bytes := lit "k".
Definition put1 : Op := put_op key1 (lit "v") 7.
Definition get1 : Op := get_op key1 8.
Definition message (i : Z) (op : Op) : ApplyMsg Op := mkApplyMsg true (Some op) i.

(** A client writes and reads: the apply loop answers both. *)
Definition answered_run : list sevent :=
  [Begin clock put1; Register 0; Begin clock get1; Register 1; Receive (message 1 put1); Notify; Wake 0; Leave 0;
   Receive (message 2 get1); Notify; Wake 1; Leave 1].

Definition store_at (es : list sevent) (r : node) : KVStore (gmap bytes bytes) node :=
  default (NewKVStore ∅ r) (run es (NewKVStore ∅ r)).

Lemma store_at_run (es : list sevent) r :
  match run es (NewKVStore (∅ : gmap bytes bytes) r) with Some _ => true | None => false end = true ->
  run es (NewKVStore ∅ r) = Some (store_at es r).
Proof. unfold store_at. by destruct (run es (NewKVStore (∅ : gmap bytes bytes) r)). Qed.

(** The same on the storage engine with compaction off, with turns of its goroutines. *)
Definition engine_run : list sevent :=
  [Background 1; Begin clock put1; Register 0; Begin clock get1; Register 1; Background 2; Receive (message 1 put1); Notify;
   Background 0; Wake 0; Leave 0; Receive (message 2 get1); Background 5; Notify; Wake 1; Leave 1].

Definition got_value (s : KVStore lsm node) : bool :=
  match clients s !! 1%nat with
  | Some (mkClient op (Returned (Answered res))) => bool_decide (op = get1 /\ res = mkOpResult get1 (lit "v") true None)
  | _ => false
  end.

Lemma got_value_client s :
  got_value s = true -> clients s !! 1%nat = Some (mkClient get1 (Returned (Answered (mkOpResult get1 (lit "v") true None)))).
Proof.
  unfold got_value. destruct (clients s !! 1%nat) as [[op [| | |[res| | |]]]|]; try done. by intros [-> ->]%bool_decide_eq_true.
Qed.

Lemma answers_are_linearized_witness :
  exists x s, NewStore false ∅ (leading 1 [mkEntry 0 None]) = Some (NewKVStore x (leading 1 [mkEntry 0 None])) /\
    run engine_run (NewKVStore x (leading 1 [mkEntry 0 None])) = Some s /\
    repr 0 0 (db s) {[ key1 := lit "v" ]} /\
    exists i, explained ∅ (received engine_run) i (mkOpResult get1 (lit "v") true None).
Proof.
  assert (Hg : (s0 ← NewStore false ∅ (leading 1 [mkEntry 0 None]); s ← run engine_run s0; Some (got_value s)) = Some true)
    by (vm_compute; reflexivity).
  destruct (NewStore_repr ∅ ∅ (events_cost (DB := lsm) engine_run + 0) (length engine_run + 0) (leading 1 [mkEntry 0 None])) as (x & Hx & Hr);
    [apply holds_map_empty; reflexivity|reflexivity|].
  rewrite Hx in Hg. cbn [mbind option_bind] in Hg.
  destruct (run engine_run (NewKVStore x (leading 1 [mkEntry 0 None]))) as [s|] eqn:Hs; [|discriminate Hg].
  injection Hg as Hg%got_value_client. exists x, s. split; [exact Hx|]. split; [exact Hs|].
  assert (Hok : Forall event_ok engine_run) by (repeat constructor; intros _; eexists; (split; [reflexivity|discriminate])).
  destruct (answers_are_linearized (DB := lsm) 0 0 ∅ x (leading 1 [mkEntry 0 None]) engine_run s Hr (Z.le_refl 0) Hok Hs) as [Hdb Hcl].
  split; [exact Hdb|]. exact (proj2 (Hcl 1%nat get1 _ Hg)).
Defined.

Lemma wait_channels_do_not_leak_witness :
  ActiveWaitChans (store_at (take 4 answered_run) (leading 1 [mkEntry 0 None])) <= 2.
Proof.
  apply (wait_channels_do_not_leak (DB := gmap bytes bytes) ∅ (leading 1 [mkEntry 0 None]) (take 4 answered_run)).
  vm_compute. reflexivity.
Defined.

(** A cluster whose leader applies [put1]. *)
Definition fed_run : list (Cluster.event (Cmd := Op)) :=
  starts ++ elect 0 0 ++ submit 0 put1 ++ replicate_to 0 1 ++ [Act (Apply 0)].

Lemma apply_loop_never_blocks_witness :
  let es : list sevent := [Begin clock put1; Register 0; Receive (message 1 put1)] in
  received es = sent_at fed_run 0 /\ is_Some (notify (store_at es (leading 1 [mkEntry 0 None]))).
Proof.
  cbv zeta. split; [vm_compute; reflexivity|].
  apply (apply_loop_never_blocks (DB := gmap bytes bytes) 3 (at_end fed_run) 0 (node_at fed_run 0) (sent_at fed_run 0)
    0 0 ∅ ∅ (leading 1 [mkEntry 0 None]) [Begin clock put1; Register 0; Receive (message 1 put1)]).
  - lia.
  - apply reachable_at. vm_compute. reflexivity.
  - vm_compute. reflexivity.
  - exists []. vm_compute. reflexivity.
  - reflexivity.
  - reflexivity.
  - repeat constructor. intros _. eexists. split; [reflexivity|discriminate].
  - vm_compute. reflexivity.
  - vm_compute. by eexists.
Defined.

(** A schedule with turns of all three goroutines of the engine. *)
Definition replay_schedule : list sevent :=
  [Background 2; Receive (message 1 put1); Background 0; Notify; Background 1; Receive (message 2 get1); Notify; Background 5].

Lemma restart_replays_log_witness :
  exists s s', NewStore false ∅ (leading 1 [mkEntry 0 None]) = Some s /\
    run replay_schedule s = Some s' /\ repr 0 0 (db s') {[ key1 := lit "v" ]}.
Proof.
  apply (restart_replays_log ∅ 0 0 (leading 1 [mkEntry 0 None]) replay_schedule [message 1 put1; message 2 get1] 0).
  - reflexivity.
  - apply holds_map_empty. reflexivity.
  - reflexivity.
  - reflexivity.
  - repeat constructor; intros _; eexists; (split; [reflexivity|discriminate]).
  - repeat constructor.
Defined.

(** ** Lost wake-ups *)

(** C37. A client can wait in vain for a command that the store has applied: when the
    loop applies it before the client has registered its channel, and when the channel
    is removed by an older call that waited at the same index in an earlier term. *)
Theorem wakeups_get_lost :
  (exists (es : list sevent) s,
     run es (NewKVStore (∅ : gmap bytes bytes) (leading 1 [mkEntry 0 None])) = Some s /\
     ops_of (received es) = [put1] /\ clients s = [mkClient put1 (Returned Timeout)]) /\
  (exists (es1 es2 : list sevent) s1 s2 ch,
     run es1 (NewKVStore (∅ : gmap bytes bytes) (leading 1 [mkEntry 0 None; mkEntry 1 (Some put1)])) = Some s1 /\
     clients s1 !! 1%nat = Some (mkClient get1 (Waiting 2 ch)) /\ waitChans s1 !! 2 = Some ch /\
     run es2 s1 = Some s2 /\ es2 = [Expire 0; Leave 0; Receive (message 2 get1); Notify; Expire 1; Leave 1] /\
     clients s2 !! 1%nat = Some (mkClient get1 (Returned Timeout))).
Proof.
  split.
  - exists [Begin clock put1; Receive (message 1 put1); Notify; Register 0; Expire 0; Leave 0].
    eexists. split; [vm_compute; reflexivity|]. split; reflexivity.
  - exists [Begin clock put1; Register 0; RaftStep (leading 3 [mkEntry 0 None; mkEntry 2 (Some put1)]);
            Begin clock get1; Register 1], [Expire 0; Leave 0; Receive (message 2 get1); Notify; Expire 1; Leave 1].
    eexists _, _, _. split; [vm_compute; reflexivity|]. split; [reflexivity|]. split; [reflexivity|].
    split; [vm_compute; reflexivity|]. split; reflexivity.
Qed.
