(* ===== verification/ReplicaTheorems.v ===== *)
(** * The replicated store

    The cluster and the stores on its nodes together: what the engines hold and what
    clients are told, on all nodes and at all moments of a run with fresh elections.  The
    engines are any that keep the laws of [StoreSpec], as the storage engine does with
    compaction off ([lsm_laws]). *)
From S2P Require Import EngineSpec Agreement ClusterRuns StoreLsm StoreTheorems.

Section Replicas.
Context {DB RF : Type} `{EngineLaws DB, RaftApi RF Op, !GobLaws (Z * Z * list (LogEntry Op))}.
#[local] Abbreviation KVStore := (KVStore DB RF).

Lemma ops_of_take_le (l l' : list (ApplyMsg Op)) k m :
  l `prefix_of` l' -> (k <= length l)%nat -> spec_log (ops_of l) (spec_log (ops_of (take k l')) m) = spec_log (ops_of l) m.
Proof.
  intros [q ->] Hk. rewrite take_app_le by done. rewrite <- (take_drop k l) at 1 3. unfold ops_of. rewrite omap_app.
  apply spec_log_replay.
Qed.

(** An answer at an index behind those that the engine held at the start is that of the
    whole history. *)
Lemma explained_whole (hist l : list (ApplyMsg Op)) k i r :
  l `prefix_of` hist -> (forall j msg, l !! j = Some msg -> CommandIndex msg = Z.of_nat j + 1) ->
  explained (spec_log (ops_of (take k hist)) ∅) l i r -> Z.of_nat k < i -> explained ∅ hist i r.
Proof.
  intros [q Hq] Hs (pre & msg & post & op & Hl & Hm & Ho & Hr) Hk.
  assert (Hlen : (k <= length pre)%nat).
  { specialize (Hs (length pre) msg). rewrite Hl, list_lookup_middle in Hs by done. specialize (Hs eq_refl). lia. }
  exists pre, msg, (post ++ q), op. split_and!; [by rewrite Hq, Hl, <- app_assoc|done|done|].
  rewrite Hr. do 2 f_equal. apply ops_of_take_le; [|done]. rewrite Hq, Hl, <- app_assoc. by apply prefix_app_r.
Qed.

Lemma sent_index (l sent : list (ApplyMsg Op)) k j msg :
  CommandIndex <$> sent = seqZ 1 k -> l `prefix_of` sent -> l !! j = Some msg -> CommandIndex msg = Z.of_nat j + 1.
Proof.
  intros Hs Hp Hj. assert (Hx : (CommandIndex <$> sent) !! j = Some (CommandIndex msg)).
  { rewrite list_lookup_fmap. by erewrite prefix_lookup_Some. }
  rewrite Hs in Hx. apply lookup_seqZ in Hx as [-> _]. lia.
Qed.

(** C3. The replicated store is linearizable in the order of one history: at every
    moment of a run with fresh elections and on every node, whose engine keeps the laws
    (the storage engine does when compaction is off) and starts with
    the map of some first part of the history (empty at first, what was recovered
    after a restart), the engine holds the map of the commands that it has received
    as soon as it has caught up with this part, and every answer at an index behind
    it is that of the command at this index of the history. *)
Theorem replicas_linearize nodes evs c :
  (2 <= nodes)%nat -> Cluster.run evs (Cluster.init nodes) = Some c -> fresh_run evs (Cluster.init nodes) ->
  exists hist, forall evs1 evs2 c1 i rf sent k b m (d : DB) (r : RF) es s,
    evs = evs1 ++ evs2 -> Cluster.run evs1 (Cluster.init nodes) = Some c1 -> up c1 i = Some (rf, sent) ->
    received es `prefix_of` sent ->
    repr (events_cost es + b) (length es + m) d (spec_log (ops_of (take k hist)) ∅) -> 0 <= b -> Forall event_ok es ->
    Store.run es (NewKVStore d r) = Some s ->
    received es `prefix_of` hist /\
    ((k <= length (received es))%nat -> repr b m (db s) (spec_log (ops_of (received es)) ∅)) /\
    forall q op res, clients s !! q = Some (mkClient op (Returned (Answered res))) ->
      OpId (AppliedOp res) = OpId op /\
      exists i, explained (spec_log (ops_of (take k hist)) ∅) (received es) i res /\ (Z.of_nat k < i -> explained ∅ hist i res).
Proof.
  intros Hn Hr Hf. destruct (fresh_history nodes evs c Hn Hf Hr) as [hist Hall]. exists hist.
  intros evs1 evs2 c1 i rf sent k b m d r es s Heq Hr1 Hu Hp Hd Hb Hok Hs.
  pose proof (Hall evs1 evs2 c1 i rf sent Heq Hr1 Hu) as Hsent. assert (Hh : received es `prefix_of` hist) by (by etrans).
  destruct (store_answers b m _ d r es s Hd Hb Hok Hs) as [Hdb Hcl].
  split_and!; [done| |].
  - intros Hk. by rewrite <- (ops_of_take_le _ hist k ∅).
  - intros q op res Hq. destruct (Hcl q op res Hq) as [Hid [j Hex]]. split; [done|]. exists j. split; [done|].
    apply (explained_whole hist (received es) k); [done| |done]. intros x msg.
    apply (sent_index _ sent (lastApplied rf)); [|done]. by apply (applied_reachable nodes Hn c1 ltac:(by exists evs1) i rf sent).
Qed.
End Replicas.

(** ** An instance *)

Ltac by_run := vm_compute; reflexivity.

#[local] Abbreviation sevent := (Store.event (Raft (Cmd := Op))).

(** The leader commits and applies a write; a heartbeat lets node 1 apply it too. *)
Definition shared_run : list (Cluster.event (Cmd := Op)) := fed_run ++ replicate_to 0 1 ++ [Act (Apply 1)].

(** The store of the leader answers its client, that of node 1 only follows. *)
Definition leader_store : list sevent :=
  [Begin clock put1; Register 0; Receive (message 1 put1); Notify; Wake 0; Leave 0].
Definition follower_store : list sevent := [Receive (message 1 put1); Notify].

Lemma leader_store_ok : Forall event_ok leader_store.
Proof. repeat constructor; intros _; eexists; (split; [reflexivity|discriminate]). Qed.

Lemma follower_store_ok : Forall event_ok follower_store.
Proof. repeat constructor; intros _; eexists; (split; [reflexivity|discriminate]). Qed.

Lemma replicas_linearize_witness :
  exists hist, explained ∅ hist 1 (mkOpResult put1 [] false None) /\
    received follower_store `prefix_of` hist /\
    db (store_at follower_store (leading 1 [mkEntry 0 None])) !! key1 = Some (lit "v").
Proof.
  assert (Hf : fresh_run shared_run (Cluster.init 3)) by (apply (once_fresh 3); [lia|vm_compute; reflexivity]).
  destruct (replicas_linearize (DB := gmap bytes bytes) (RF := Raft (Cmd := Op)) 3 shared_run (at_end shared_run) ltac:(lia)
    ltac:(apply run_at; by_run) Hf) as (hist & Hall).
  exists hist. split.
  - destruct (Hall fed_run (replicate_to 0 1 ++ [Act (Apply 1)]) (at_end fed_run) 0%nat (node_at fed_run 0) (sent_at fed_run 0)
      0%nat 0 0%nat ∅ (leading 1 [mkEntry 0 None]) leader_store (store_at leader_store (leading 1 [mkEntry 0 None])))
      as (_ & _ & Ha);
      [reflexivity|apply run_at; by_run|apply up_at; by_run|exists []; by_run|reflexivity|reflexivity|exact leader_store_ok|apply store_at_run; by_run|].
    destruct (Ha 0%nat put1 (mkOpResult put1 [] false None) ltac:(vm_compute; reflexivity)) as (_ & i & Hi & Hw).
    destruct Hi as (pre & msg & post & op & Hl & Hm & _). assert (i = 1) as ->; [|by apply Hw].
    destruct pre as [|x pre]; [by simplify_eq/=|]. apply (f_equal length) in Hl. cbn in Hl. rewrite length_app in Hl. cbn in Hl. lia.
  - destruct (Hall shared_run [] (at_end shared_run) 1%nat (node_at shared_run 1) (sent_at shared_run 1)
      0%nat 0 0%nat ∅ (leading 1 [mkEntry 0 None]) follower_store (store_at follower_store (leading 1 [mkEntry 0 None])))
      as (Hp & Hdb & _);
      [by rewrite app_nil_r|apply run_at; by_run|apply up_at; by_run|exists []; by_run|reflexivity|reflexivity|exact follower_store_ok|apply store_at_run; by_run|].
    split; [exact Hp|]. rewrite (Hdb ltac:(cbn; lia)). vm_compute. reflexivity.
Defined.
