(* ===== verification/Api.v ===== *)
(** * The HTTP gateway (internal/api/server.go)

    The handlers on the stores of all nodes.  [gin] is outside: the model starts
    from bound requests, the binding of JSON is a parameter, and a response is a
    status with a body.  The stores come through an interface. *)
From S2P Require EngineMetrics.
From S2P Require Export Store.

(** ** Text *)

(** [strings.Contains] *)
Fixpoint Contains (s sub : bytes) : bool :=
  bool_decide (sub `prefix_of` s) || match s with [] => false | _ :: s => Contains s sub end.

(** [strings.ToLower] on ASCII text. *)
Definition lower (c : Byte.byte) : Byte.byte :=
  let n := Byte.to_N c in
  if (65 <=? n)%N && (n <=? 90)%N then default c (Byte.of_N (n + 32)) else c.

Definition ToLower (s : bytes) : bytes := lower <$> s.

(** [strconv.Atoi]: an optional sign and digits, within 64 bits. *)
Definition Atoi_digits (s : bytes) : option Z :=
  match s with [] => None | _ => digits_value 0 s end.

Definition in_int64 (n : Z) : bool := (- 2 ^ 63 <=? n) && (n <? 2 ^ 63).

Definition Atoi (s : bytes) : option Z :=
  n ← match s with
      | Byte.x2d :: r => Z.opp <$> Atoi_digits r
      | Byte.x2b :: r => Atoi_digits r
      | _ => Atoi_digits s
      end;
  if in_int64 n then Some n else None.

(** [fmt.Sprintf] of an [int]. *)
Definition FormatInt (n : Z) : bytes := if n <? 0 then Byte.x2d :: FormatUint (- n) else FormatUint n.

(** ** Interfaces *)

(** A store, as the gateway calls it; [None] is the end of the process. *)
Class StoreApi (K : Type) := {
  kv_Put : bytes -> bytes -> K -> option (option error * K);
  kv_Delete : bytes -> K -> option (option error * K);
  kv_Get : bytes -> K -> option (bytes * bool * option error * K);
  kv_GetLocalIfLeader : bytes -> K -> option (bytes * bool * option error * K);
  kv_ActiveWaitChans : K -> Z;
  kv_RaftMetrics : K -> RaftMetrics;
  kv_LSMMetrics : K -> EngineMetrics.LsmMetrics;
  kv_DebugForceElection : K -> option K
}.

(** A store of [Store], with what is to happen around its next calls. *)
#[export] Instance kvstore_api {DB RF} `{EngineApi DB, RaftApi RF Op} :
    StoreApi (KVStore DB RF * list (Env * schedule RF)) := {
  kv_Put key value x :=
    match snd x with
    | (env, sch) :: rest => r ← Store.Put env key value sch (fst x); Some (fst r, (snd r, rest))
    | [] => None
    end;
  kv_Delete key x :=
    match snd x with
    | (env, sch) :: rest => r ← Store.Delete env key sch (fst x); Some (fst r, (snd r, rest))
    | [] => None
    end;
  kv_Get key x :=
    match snd x with
    | (env, sch) :: rest => r ← Store.Get env key sch (fst x); Some (fst r, (snd r, rest))
    | [] => None
    end;
  kv_GetLocalIfLeader key x := r ← GetLocalIfLeader key (fst x); Some (fst r, (snd r, snd x));
  kv_ActiveWaitChans x := ActiveWaitChans (fst x);
  kv_RaftMetrics x := store_RaftMetrics (fst x);
  kv_LSMMetrics x := store_LSMMetrics (fst x);
  kv_DebugForceElection x :=
    match snd x with
    | (env, _) :: rest => s ← store_DebugForceElection env (fst x); Some (s, rest)
    | [] => None
    end
}.

(** ** Counters and reports *)

Record gatewayMetrics := mkGateway {
  requestTotal : Z;
  putTotal : Z;
  getTotal : Z;
  deleteTotal : Z;
  http500Total : Z;
  http503Total : Z;
  requestTimeoutTotal : Z;
  leadershipChangedBeforeCommitTotal : Z;
  notLeaderTotal : Z
}.

Definition zeroGateway : gatewayMetrics := mkGateway 0 0 0 0 0 0 0 0 0.

(** [counter.Add(1)] of an [atomic.Uint64]. *)
Definition bump (c : Z) : Z := u64 (c + 1).

Definition count_put m := mkGateway (bump (requestTotal m)) (bump (putTotal m)) (getTotal m) (deleteTotal m)
  (http500Total m) (http503Total m) (requestTimeoutTotal m) (leadershipChangedBeforeCommitTotal m) (notLeaderTotal m).
Definition count_get m := mkGateway (bump (requestTotal m)) (putTotal m) (bump (getTotal m)) (deleteTotal m)
  (http500Total m) (http503Total m) (requestTimeoutTotal m) (leadershipChangedBeforeCommitTotal m) (notLeaderTotal m).
Definition count_delete m := mkGateway (bump (requestTotal m)) (putTotal m) (getTotal m) (bump (deleteTotal m))
  (http500Total m) (http503Total m) (requestTimeoutTotal m) (leadershipChangedBeforeCommitTotal m) (notLeaderTotal m).

(** The middleware, after the handler: [status] is what it answered. *)
Definition count_status (status : Z) m :=
  mkGateway (requestTotal m) (putTotal m) (getTotal m) (deleteTotal m)
    (if status =? 500 then bump (http500Total m) else http500Total m)
    (if status =? 503 then bump (http503Total m) else http503Total m)
    (requestTimeoutTotal m) (leadershipChangedBeforeCommitTotal m) (notLeaderTotal m).

Record storeAPIMetrics := mkStoreAPI {
  sa_RequestTotal : Z; sa_PutTotal : Z; sa_GetTotal : Z; sa_DeleteTotal : Z; sa_HTTP500Total : Z; sa_HTTP503Total : Z;
  sa_RequestTimeoutTotal : Z; sa_LeadershipChangedBeforeCommitTotal : Z; sa_NotLeaderTotal : Z; sa_ActiveWaitChans : Z
}.

Record runtimeMetrics := mkRuntime {
  GoroutineNum : Z; HeapAlloc : Z; NumGC : Z; PauseTotalNS : Z; LastGCPauseNS : Z
}.

Record nodeDebugMetrics := mkNodeMetrics {
  nm_NodeID : Z; nm_ActiveWaitChans : Z; nm_Raft : RaftMetrics; nm_LSM : EngineMetrics.LsmMetrics
}.

(** What the Go runtime reports: the clock, [runtime.NumGoroutine] and
    [runtime.MemStats], whose array of pauses has 256 entries. *)
Record Runtime := mkRuntimeEnv {
  rt_now : bytes; rt_goroutines : Z; rt_HeapAlloc : Z; rt_NumGC : Z; rt_PauseTotalNs : Z; rt_PauseNs : list Z
}.

(** [readRuntimeMetrics]; [None] is an index out of range. *)
Definition readRuntimeMetrics (rt : Runtime) : option runtimeMetrics :=
  lastPause ← (if 0 <? rt_NumGC rt then znth (rt_PauseNs rt) (u32 (rt_NumGC rt + 255) mod 256) else Some 0);
  Some (mkRuntime (rt_goroutines rt) (rt_HeapAlloc rt) (rt_NumGC rt) (rt_PauseTotalNs rt) lastPause).

Record debugMetricsResponse := mkDebug {
  Timestamp : bytes;
  CurrentLeader : Z;
  d_CurrentTerm : Z;
  d_LeaderChangeTotal : Z;
  d_ElectionStartedTotal : Z;
  d_TermChangeTotal : Z;
  d_AppendEntriesFailedTotal : Z;
  d_RaftPersistCount : Z;
  d_RaftPersistTotalMS : float64;
  d_RaftPersistMaxMS : float64;
  d_CommitIndex : Z;
  d_LastApplied : Z;
  d_LogLength : Z;
  d_RequestTotal : Z;
  d_PutTotal : Z;
  d_GetTotal : Z;
  d_DeleteTotal : Z;
  d_HTTP500Total : Z;
  d_HTTP503Total : Z;
  d_RequestTimeoutTotal : Z;
  d_LeadershipChangedBeforeCommitTotal : Z;
  d_NotLeaderTotal : Z;
  d_ActiveWaitChans : Z;
  d_GoroutineNum : Z;
  d_HeapAlloc : Z;
  d_NumGC : Z;
  d_PauseTotalNS : Z;
  d_LastGCPauseNS : Z;
  StoreAPI : storeAPIMetrics;
  d_Runtime : runtimeMetrics;
  LSM : EngineMetrics.LsmMetrics;
  Nodes : list nodeDebugMetrics
}.

(** A JSON object of [gin.H], or the report. *)
Inductive value := VStr (s : bytes) | VNum (n : Z) | VBool (b : bool).
Inductive body := Fields (fs : list (bytes * value)) | Report (r : debugMetricsResponse).

Record response := mkResponse { status : Z; content : body }.

Definition error_body (msg : bytes) : body := Fields [(lit "error", VStr msg)].

(** ** Handlers *)

Definition readModeRaft : bytes := lit "raft".
Definition readModeLocal : bytes := lit "local".

(** Requests as [gin] routes them; [None] is an absent query parameter. *)
Inductive request :=
  | ReqPut (payload : bytes)
  | ReqGet (key : bytes) (readMode : option bytes)
  | ReqDelete (key : bytes)
  | ReqMetrics (rt : Runtime)
  | ReqForceElection (node : option bytes) (rt : Runtime).

Section Gateway.
Context {K : Type} `{StoreApi K}.

(** The text of an error, and [c.ShouldBindJSON] of a put request: its key and its
    value, or the text of the error. *)
Context (Error : error -> bytes) (ShouldBindJSON : bytes -> bytes * bytes + bytes).

Record gateway := mkGate { kvStores : list K; g_metrics : gatewayMetrics }.

(** [observeStoreError] of an error that is not nil. *)
Definition observeStoreError (err : error) (m : gatewayMetrics) : gatewayMetrics :=
  let msg := ToLower (Error err) in
  mkGateway (requestTotal m) (putTotal m) (getTotal m) (deleteTotal m) (http500Total m) (http503Total m)
    (if Contains msg (lit "request timeout") then bump (requestTimeoutTotal m) else requestTimeoutTotal m)
    (if Contains msg (lit "leadership changed before commit") then bump (leadershipChangedBeforeCommitTotal m)
     else leadershipChangedBeforeCommitTotal m)
    (if Contains msg (lit "not leader") then bump (notLeaderTotal m) else notLeaderTotal m).

Definition no_leader : response := mkResponse 503 (error_body (lit "Cluster has no leader right now")).

(** The loop of the three handlers: ask the stores in turn until one does not answer
    "not leader". *)
Fixpoint poll {A} (op : K -> option ((A + error) * K)) (ok : Z -> A -> response) (i : Z) (stores : list K)
    (m : gatewayMetrics) : option (response * list K * gatewayMetrics) :=
  match stores with
  | [] => Some (no_leader, [], m)
  | kv :: rest =>
      r ← op kv;
      let '(res, kv) := r in
      match res with
      | inl a => Some (ok i a, kv :: rest, m)
      | inr err =>
          let m := observeStoreError err m in
          if Contains (Error err) (lit "not leader") then
            r ← poll op ok (i + 1) rest m;
            let '(resp, rest, m) := r in Some (resp, kv :: rest, m)
          else Some (mkResponse 500 (error_body (Error err)), kv :: rest, m)
      end
  end.

Definition write_op (op : K -> option (option error * K)) (kv : K) : option ((unit + error) * K) :=
  r ← op kv; Some (match fst r with None => inl tt | Some e => inr e end, snd r).

Definition read_op (op : K -> option (bytes * bool * option error * K)) (kv : K) : option ((bytes * bool + error) * K) :=
  r ← op kv;
  let '(v, exists_, err, kv) := r in Some (match err with None => inl (v, exists_) | Some e => inr e end, kv).

Definition handle_put (payload : bytes) (g : gateway) : option (response * gateway) :=
  let m := count_put (g_metrics g) in
  match ShouldBindJSON payload with
  | inr e => Some (mkResponse 400 (error_body e), mkGate (kvStores g) m)
  | inl (key, val) =>
      r ← poll (write_op (kv_Put key val))
            (fun i _ => mkResponse 200 (Fields [(lit "status", VStr (lit "success")); (lit "leader", VNum i)]))
            0 (kvStores g) m;
      let '(resp, stores, m) := r in Some (resp, mkGate stores m)
  end.

Definition getByReadMode (key readMode : bytes) : K -> option (bytes * bool * option error * K) :=
  if decide (readMode = readModeLocal) then kv_GetLocalIfLeader key else kv_Get key.

Definition handle_get (key : bytes) (query : option bytes) (g : gateway) : option (response * gateway) :=
  let m := count_get (g_metrics g) in
  let readMode := default readModeRaft query in
  if negb (bool_decide (readMode = readModeRaft)) && negb (bool_decide (readMode = readModeLocal)) then
    Some (mkResponse 400 (error_body (lit "invalid readMode, expected raft or local")), mkGate (kvStores g) m)
  else
    r ← poll (read_op (getByReadMode key readMode))
          (fun i x =>
            if negb (snd x) then
              mkResponse 404 (Fields [(lit "error", VStr (lit "key not found")); (lit "leader", VNum i);
                                      (lit "read_mode", VStr readMode)])
            else mkResponse 200 (Fields [(lit "value", VStr (fst x)); (lit "leader", VNum i);
                                         (lit "read_mode", VStr readMode)]))
          0 (kvStores g) m;
    let '(resp, stores, m) := r in Some (resp, mkGate stores m).

Definition handle_delete (key : bytes) (g : gateway) : option (response * gateway) :=
  r ← poll (write_op (kv_Delete key))
        (fun i _ => mkResponse 200 (Fields [(lit "status", VStr (lit "deleted")); (lit "leader", VNum i)]))
        0 (kvStores g) (count_delete (g_metrics g));
  let '(resp, stores, m) := r in Some (resp, mkGate stores m).

(** ** The report *)

(** The local variables of [buildDebugMetrics]. *)
Record totals := mkTotals {
  t_nodes : list nodeDebugMetrics; t_leader : Z; t_term : Z; t_commit : Z; t_applied : Z; t_loglen : Z; t_wait : Z;
  t_changes : Z; t_elections : Z; t_terms : Z; t_failed : Z; t_persists : Z; t_persistMS : float64; t_persistMaxMS : float64;
  t_gets : Z; t_touched : Z; t_touchedMax : Z; t_compactions : Z; t_inputs : Z; t_outputs : Z;
  t_compactMS : float64; t_compactMaxMS : float64; t_compactLastMS : float64; t_compactFailed : Z; t_sstables : Z;
  t_enabled : bool
}.

Definition no_totals : totals :=
  mkTotals [] (-1) 0 0 0 0 0 0 0 0 0 0 (f64 0) (f64 0) 0 0 0 0 0 0 (f64 0) (f64 0) (f64 0) 0 0 true.

Definition f64_max_of (x y : float64) : float64 := if f64_gt x y then x else y.

(** One turn of its loop: the [i]-th store. *)
Definition add_node (i : Z) (kv : K) (t : totals) : totals :=
  let rm := kv_RaftMetrics kv in
  let lm := kv_LSMMetrics kv in
  let wait := kv_ActiveWaitChans kv in
  mkTotals
    (t_nodes t ++ [mkNodeMetrics i wait rm lm])
    (if IsLeader rm then i else t_leader t)
    (if IsLeader rm then CurrentTerm rm else Z.max (CurrentTerm rm) (t_term t))
    (Z.max (CommitIndex rm) (t_commit t))
    (Z.max (LastApplied rm) (t_applied t))
    (Z.max (LogLength rm) (t_loglen t))
    (t_wait t + wait)
    (u64 (t_changes t + LeaderChangeTotal rm))
    (u64 (t_elections t + ElectionStartedTotal rm))
    (u64 (t_terms t + TermChangeTotal rm))
    (u64 (t_failed t + AppendEntriesFailedTotal rm))
    (u64 (t_persists t + RaftPersistCount rm))
    (f64_add (t_persistMS t) (RaftPersistTotalMS rm))
    (f64_max_of (RaftPersistMaxMS rm) (t_persistMaxMS t))
    (u64 (t_gets t + EngineMetrics.GetTotal lm))
    (u64 (t_touched t + EngineMetrics.GetSSTableFilesTouchedTotal lm))
    (Z.max (EngineMetrics.GetSSTableFilesTouchedMax lm) (t_touchedMax t))
    (u64 (t_compactions t + EngineMetrics.CompactionTotal lm))
    (u64 (t_inputs t + EngineMetrics.CompactionInputFilesTotal lm))
    (u64 (t_outputs t + EngineMetrics.CompactionOutputFilesTotal lm))
    (f64_add (t_compactMS t) (EngineMetrics.CompactionTotalMS lm))
    (f64_max_of (EngineMetrics.CompactionMaxMS lm) (t_compactMaxMS t))
    (f64_max_of (EngineMetrics.CompactionLastMS lm) (t_compactLastMS t))
    (u64 (t_compactFailed t + EngineMetrics.CompactionFailedTotal lm))
    (t_sstables t + EngineMetrics.SSTableCount lm)
    (if i =? 0 then EngineMetrics.CompactionEnabled lm else t_enabled t && EngineMetrics.CompactionEnabled lm).

Fixpoint add_nodes (i : Z) (stores : list K) (t : totals) : totals :=
  match stores with
  | [] => t
  | kv :: rest => add_nodes (i + 1) rest (add_node i kv t)
  end.

Definition lsm_aggregate (t : totals) : EngineMetrics.LsmMetrics :=
  EngineMetrics.mkLsmMetrics (t_enabled t) (t_gets t) (t_touched t) (EngineMetrics.touched_avg (t_gets t) (t_touched t))
    (t_touchedMax t) (t_compactions t) (t_inputs t) (t_outputs t) (t_compactMS t) (t_compactMaxMS t) (t_compactLastMS t)
    (t_compactFailed t) (t_sstables t).

Definition store_api (t : totals) (m : gatewayMetrics) : storeAPIMetrics :=
  mkStoreAPI (requestTotal m) (putTotal m) (getTotal m) (deleteTotal m) (http500Total m) (http503Total m)
    (requestTimeoutTotal m) (leadershipChangedBeforeCommitTotal m) (notLeaderTotal m) (t_wait t).

Definition buildDebugMetrics (rt : Runtime) (g : gateway) : option debugMetricsResponse :=
  let t := add_nodes 0 (kvStores g) no_totals in
  runtime ← readRuntimeMetrics rt;
  let sa := store_api t (g_metrics g) in
  Some (mkDebug (rt_now rt) (t_leader t) (t_term t) (t_changes t) (t_elections t) (t_terms t) (t_failed t)
    (t_persists t) (t_persistMS t) (t_persistMaxMS t) (t_commit t) (t_applied t) (t_loglen t)
    (sa_RequestTotal sa) (sa_PutTotal sa) (sa_GetTotal sa) (sa_DeleteTotal sa) (sa_HTTP500Total sa) (sa_HTTP503Total sa)
    (sa_RequestTimeoutTotal sa) (sa_LeadershipChangedBeforeCommitTotal sa) (sa_NotLeaderTotal sa) (t_wait t)
    (GoroutineNum runtime) (HeapAlloc runtime) (NumGC runtime) (PauseTotalNS runtime) (LastGCPauseNS runtime)
    sa runtime (lsm_aggregate t) (t_nodes t)).

(** ** Forced elections *)

(** The first node that does not lead. *)
Fixpoint first_follower (i : Z) (stores : list K) : option Z :=
  match stores with
  | [] => None
  | kv :: rest => if negb (IsLeader (kv_RaftMetrics kv)) then Some i else first_follower (i + 1) rest
  end.

Definition chooseForceElectionTarget (rawNode : bytes) (stores : list K) : Z + bytes :=
  if decide (rawNode <> []) then
    match Atoi rawNode with
    | None => inr (lit "invalid node: " ++ rawNode)
    | Some node =>
        if (node <? 0) || (zlen stores <=? node) then inr (lit "node out of range: " ++ FormatInt node) else inl node
    end
  else
    match first_follower 0 stores with
    | Some i => inl i
    | None => if zlen stores =? 0 then inr (lit "no raft nodes available") else inl 0
    end.

Definition handle_force (node : option bytes) (rt : Runtime) (g : gateway) : option (response * gateway) :=
  match chooseForceElectionTarget (default [] node) (kvStores g) with
  | inr e => Some (mkResponse 400 (error_body e), g)
  | inl target =>
      before ← buildDebugMetrics rt g;
      kv ← znth (kvStores g) target;
      kv ← kv_DebugForceElection kv;
      stores ← zupdate (kvStores g) target kv;
      Some (mkResponse 200 (Fields [(lit "status", VStr (lit "election_started")); (lit "target_node", VNum target);
              (lit "leader_before", VNum (CurrentLeader before)); (lit "term_before", VNum (d_CurrentTerm before));
              (lit "debug_only_experiment", VBool true)]), mkGate stores (g_metrics g))
  end.

Definition handle_metrics (rt : Runtime) (g : gateway) : option (response * gateway) :=
  r ← buildDebugMetrics rt g; Some (mkResponse 200 (Report r), g).

(** A request through the router and the middleware. *)
Definition serve (req : request) (g : gateway) : option (response * gateway) :=
  r ← match req with
      | ReqPut payload => handle_put payload g
      | ReqGet key mode => handle_get key mode g
      | ReqDelete key => handle_delete key g
      | ReqMetrics rt => handle_metrics rt g
      | ReqForceElection node rt => handle_force node rt g
      end;
  let '(resp, g) := r in
  Some (resp, mkGate (kvStores g) (count_status (status resp) (g_metrics g))).
End Gateway.
Arguments gateway : clear implicits.
