(* ===== verification/ApiTheorems.v ===== *)
(** * Properties of the gateway

    A request goes to the stores in turn and stops at the first that does not refuse
    it as a follower; the report adds up what the nodes report. *)
From S2P Require Import ClusterRuns StoreLsm.
From S2P Require Import Api.

Section Gateway.
Context {K : Type} `{StoreApi K} (Error : error -> bytes) (ShouldBindJSON : bytes -> bytes * bytes + bytes).
#[local] Abbreviation gateway := (gateway K).

(** ** Helpers *)

Definition refuses (err : error) : bool := Contains (Error err) (lit "not leader").

(** [poll] as a specification: the stores that refuse as followers, then the first that
    does not; the stores after it are not asked. *)
Inductive polled {A} (op : K -> option ((A + error) * K)) :
    list K -> list K -> list error -> option (nat * (A + error)) -> Prop :=
  | PolledNone : polled op [] [] [] None
  | PolledStop kv kv' rest res :
      op kv = Some (res, kv') -> (forall e, res = inr e -> refuses e = false) ->
      polled op (kv :: rest) (kv' :: rest) [] (Some (O, res))
  | PolledNext kv kv' rest rest' e errs out :
      op kv = Some (inr e, kv') -> refuses e = true -> polled op rest rest' errs out ->
      polled op (kv :: rest) (kv' :: rest') (e :: errs)
        (match out with Some (i, res) => Some (S i, res) | None => None end).

(** The response that an outcome gives. *)
Definition poll_response {A} (ok : Z -> A -> response) (i : Z) (out : option (nat * (A + error))) : response :=
  match out with
  | None => no_leader
  | Some (k, inl a) => ok (i + Z.of_nat k) a
  | Some (_, inr e) => mkResponse 500 (error_body (Error e))
  end.

Definition last_error {A} (out : option (nat * (A + error))) : list error :=
  match out with Some (_, inr e) => [e] | _ => [] end.

Definition observe_all (errs : list error) (m : gatewayMetrics) : gatewayMetrics :=
  foldl (fun m e => observeStoreError Error e m) m errs.

Lemma poll_spec {A} (op : K -> option ((A + error) * K)) ok i stores m :
  Forall (fun kv => is_Some (op kv)) stores ->
  exists stores' errs out, polled op stores stores' errs out /\
    poll Error op ok i stores m = Some (poll_response ok i out, stores', observe_all (errs ++ last_error out) m).
Proof.
  intros Hall. revert i m. induction Hall as [|kv rest [[res kv'] Hkv] Hall IH]; intros i m; cbn [poll].
  { exists [], [], None. split; [constructor|done]. }
  rewrite Hkv. cbn [mbind option_bind]. destruct res as [a|err].
  - exists (kv' :: rest), [], (Some (O, inl a)). split; [by constructor|]. cbn. by rewrite Z.add_0_r.
  - destruct (Contains (Error err) (lit "not leader")) eqn:Hc.
    + destruct (IH (i + 1) (observeStoreError Error err m)) as (stores' & errs & out & Hp & He).
      rewrite He. cbn [mbind option_bind].
      exists (kv' :: stores'), (err :: errs), (match out with Some (k, res) => Some (S k, res) | None => None end).
      split; [by econstructor|]. destruct out as [[k [a|e]]|]; cbn; try done.
      do 4 f_equal. lia.
    + exists (kv' :: rest), [], (Some (O, inr err)). split; [|done]. constructor; [done|]. by intros e [= <-].
Qed.

(** *** The report *)

Definition sum_of (f : K -> Z) (stores : list K) : Z := foldr (fun kv s => f kv + s) 0 stores.
Definition max_of (f : K -> Z) (stores : list K) (x : Z) : Z := foldl (fun m kv => Z.max (f kv) m) x stores.

(** The last node that says that it leads. *)
Fixpoint last_leader (i : Z) (stores : list K) (x : Z) : Z :=
  match stores with
  | [] => x
  | kv :: rest => last_leader (i + 1) rest (if IsLeader (kv_RaftMetrics kv) then i else x)
  end.

Lemma add_wrapped a b c : u64 (u64 (a + b) + c) = u64 (a + (b + c)).
Proof. unfold u64. rewrite Zplus_mod_idemp_l. f_equal. lia. Qed.

(** A 64-bit total of the report. *)
Lemma total_sum (get : totals -> Z) (f : K -> Z) :
  (forall i kv t, get (add_node i kv t) = u64 (get t + f kv)) ->
  forall stores i t, get t = u64 (get t) -> get (add_nodes i stores t) = u64 (get t + sum_of f stores).
Proof.
  intros Hg. induction stores as [|kv rest IH]; intros i t Ht; cbn [add_nodes sum_of foldr].
  { by rewrite Z.add_0_r. }
  rewrite IH, Hg; [apply add_wrapped|]. rewrite Hg. unfold u64. by rewrite Zmod_mod.
Qed.

Lemma total_int (get : totals -> Z) (f : K -> Z) :
  (forall i kv t, get (add_node i kv t) = get t + f kv) ->
  forall stores i t, get (add_nodes i stores t) = get t + sum_of f stores.
Proof.
  intros Hg. induction stores as [|kv rest IH]; intros i t; cbn [add_nodes sum_of foldr]; [lia|].
  rewrite IH, Hg. fold (sum_of f rest). lia.
Qed.

Lemma total_max (get : totals -> Z) (f : K -> Z) :
  (forall i kv t, get (add_node i kv t) = Z.max (f kv) (get t)) ->
  forall stores i t, get (add_nodes i stores t) = max_of f stores (get t).
Proof.
  intros Hg. induction stores as [|kv rest IH]; intros i t; cbn [add_nodes]; [done|].
  rewrite IH, Hg. done.
Qed.

Lemma total_leader (stores : list K) : forall i t, t_leader (add_nodes i stores t) = last_leader i stores (t_leader t).
Proof. induction stores as [|kv rest IH]; intros i t; cbn [add_nodes last_leader]; [done|]. by rewrite IH. Qed.

Lemma total_nodes (stores : list K) : forall i t,
  nm_Raft <$> t_nodes (add_nodes i stores t) = (nm_Raft <$> t_nodes t) ++ (kv_RaftMetrics <$> stores).
Proof.
  induction stores as [|kv rest IH]; intros i t; cbn [add_nodes]; [by rewrite app_nil_r|].
  rewrite IH. cbn [t_nodes add_node]. by rewrite fmap_app, <- app_assoc.
Qed.

(** The reported leader leads, no later node does, and the reported term is not below
    its term. *)
Definition leading (kv : K) : bool := IsLeader (kv_RaftMetrics kv).

Lemma term_followers (stores : list K) : forall i t,
  Forall (fun kv => leading kv = false) stores -> t_term t <= t_term (add_nodes i stores t).
Proof.
  induction stores as [|kv rest IH]; intros i t Hf; cbn [add_nodes]; [lia|].
  apply Forall_cons in Hf as [Hk Hf]. specialize (IH (i + 1) (add_node i kv t) Hf).
  cbn [t_term add_node] in IH. unfold leading in Hk. rewrite Hk in IH. lia.
Qed.

Lemma leader_cases (stores : list K) : forall i x t,
  (last_leader i stores x = x /\ Forall (fun kv => leading kv = false) stores) \/
  (exists k kv, last_leader i stores x = i + Z.of_nat k /\ stores !! k = Some kv /\ leading kv = true /\
    Forall (fun kv => leading kv = false) (drop (S k) stores) /\
    CurrentTerm (kv_RaftMetrics kv) <= t_term (add_nodes i stores t)).
Proof.
  induction stores as [|kv rest IH]; intros i x t; cbn [last_leader add_nodes]; [by left|].
  destruct (IsLeader (kv_RaftMetrics kv)) eqn:Hk.
  - right. destruct (IH (i + 1) i (add_node i kv t)) as [[Hl Hf]|(k & kv' & Hl & Hlk & Hkv & Hf & Ht)].
    + exists O, kv. split_and!; [lia|done|exact Hk|exact Hf|].
      pose proof (term_followers rest (i + 1) (add_node i kv t) Hf) as Ht. cbn [t_term add_node] in Ht. by rewrite Hk in Ht.
    + exists (S k), kv'. split_and!; [lia|done|done|done|done].
  - destruct (IH (i + 1) x (add_node i kv t)) as [[Hl Hf]|(k & kv' & Hl & Hlk & Hkv & Hf & Ht)].
    + left. split; [done|]. by constructor.
    + right. exists (S k), kv'. split_and!; [lia|done|done|done|done].
Qed.

Lemma readRuntime_total rt : rt_NumGC rt = 0 \/ length (rt_PauseNs rt) = 256%nat -> is_Some (readRuntimeMetrics rt).
Proof.
  intros Hrt. unfold readRuntimeMetrics. destruct (0 <? rt_NumGC rt) eqn:Hgc; bool_to_prop; [|by eexists].
  destruct Hrt as [Hz|Hlen]; [lia|].
  destruct (znth_is_Some (rt_PauseNs rt) (u32 (rt_NumGC rt + 255) mod 256)) as [x Hx].
  { unfold zlen. rewrite Hlen. apply Z.mod_pos_bound. lia. }
  rewrite Hx. by eexists.
Qed.

(** ** Properties *)

(** C34. A write goes to the stores in turn and stops at the first that does not refuse
    it as a follower: the later stores are not asked, the response is 200 with the
    index of the store, or 500 with its error, or 503 when every store refused; and
    every refusal is counted. *)
Theorem write_asks_in_turn payload key val (g : gateway) :
  ShouldBindJSON payload = inl (key, val) -> Forall (fun kv => is_Some (kv_Put key val kv)) (kvStores g) ->
  exists resp g' errs out, serve Error ShouldBindJSON (ReqPut payload) g = Some (resp, g') /\
    polled (write_op (kv_Put key val)) (kvStores g) (kvStores g') errs out /\
    resp = poll_response
      (fun i _ => mkResponse 200 (Fields [(lit "status", VStr (lit "success")); (lit "leader", VNum i)])) 0 out /\
    g_metrics g' = count_status (status resp) (observe_all (errs ++ last_error out) (count_put (g_metrics g))).
Proof.
  intros Hb Hall. unfold serve, handle_put. rewrite Hb.
  set (ok := fun (i : Z) (_ : unit) => mkResponse 200 _).
  destruct (poll_spec (write_op (kv_Put key val)) ok 0 (kvStores g) (count_put (g_metrics g)))
    as (stores' & errs & out & Hp & He).
  { eapply Forall_impl; [exact Hall|]. intros kv [[e kv'] Hkv]. unfold write_op. rewrite Hkv. by eexists. }
  rewrite He. cbn [mbind option_bind]. eexists _, _, errs, out. split; [reflexivity|]. cbn [kvStores g_metrics]. by split_and!.
Qed.

(** The report adds up: the totals are the sums and the maxima over the nodes, modulo
    2^64 where the counters are; the reported leader is the last node that says that it
    leads, or -1, and the reported term is not below its term. *)
Theorem report_adds_up rt (g : gateway) :
  rt_NumGC rt = 0 \/ length (rt_PauseNs rt) = 256%nat ->
  exists r, buildDebugMetrics rt g = Some r /\
    d_LeaderChangeTotal r = u64 (sum_of (fun kv => LeaderChangeTotal (kv_RaftMetrics kv)) (kvStores g)) /\
    d_RaftPersistCount r = u64 (sum_of (fun kv => RaftPersistCount (kv_RaftMetrics kv)) (kvStores g)) /\
    EngineMetrics.GetTotal (LSM r) = u64 (sum_of (fun kv => EngineMetrics.GetTotal (kv_LSMMetrics kv)) (kvStores g)) /\
    d_ActiveWaitChans r = sum_of kv_ActiveWaitChans (kvStores g) /\
    d_CommitIndex r = max_of (fun kv => CommitIndex (kv_RaftMetrics kv)) (kvStores g) 0 /\
    nm_Raft <$> Nodes r = kv_RaftMetrics <$> kvStores g /\
    ((CurrentLeader r = -1 /\ Forall (fun kv => leading kv = false) (kvStores g)) \/
     exists k kv, CurrentLeader r = Z.of_nat k /\ kvStores g !! k = Some kv /\ leading kv = true /\
       Forall (fun kv => leading kv = false) (drop (S k) (kvStores g)) /\
       CurrentTerm (kv_RaftMetrics kv) <= d_CurrentTerm r).
Proof.
  intros [run_ Hrt]%readRuntime_total. unfold buildDebugMetrics. rewrite Hrt. cbn [mbind option_bind].
  eexists. split; [reflexivity|].
  cbn [d_LeaderChangeTotal d_RaftPersistCount LSM lsm_aggregate EngineMetrics.GetTotal d_ActiveWaitChans d_CommitIndex
    Nodes CurrentLeader d_CurrentTerm].
  split_and!.
  - by rewrite (total_sum t_changes (fun kv => LeaderChangeTotal (kv_RaftMetrics kv))).
  - by rewrite (total_sum t_persists (fun kv => RaftPersistCount (kv_RaftMetrics kv))).
  - by rewrite (total_sum t_gets (fun kv => EngineMetrics.GetTotal (kv_LSMMetrics kv))).
  - by rewrite (total_int t_wait kv_ActiveWaitChans).
  - by rewrite (total_max t_commit (fun kv => CommitIndex (kv_RaftMetrics kv))).
  - by rewrite total_nodes.
  - rewrite total_leader. cbn [t_leader no_totals].
    destruct (leader_cases (kvStores g) 0 (-1) no_totals) as [?|(k & kv & -> & ?)]; [by left|right].
    exists k, kv. by split.
Qed.
End Gateway.

(** ** Instances: a follower and a leader behind the gateway *)

#[local] Abbreviation node := (Raft (Cmd := Op)).
#[local] Abbreviation store := (KVStore (gmap bytes bytes) node * list (Env * schedule node))%type.

Definition node_in (st : NodeState) : node :=
  mkRaft 3 (MakePersister []) 0 1 0 st 0 0 [mkEntry 0 None] 0 0 [1; 1; 1] [0; 0; 0] 0 0 0 0 0 0 0 0.

(** While the call waits, its command is committed and applied. *)
Definition applied (op : Op) : schedule node :=
  mkSchedule [] [Receive (mkApplyMsg true (Some op) 1); Notify] true [].

Definition gate : gateway store :=
  mkGate [(NewKVStore ∅ (node_in StateFollower), [(clock, applied (put_op (lit "k") (lit "v") 0))]);
          (NewKVStore ∅ (node_in StateLeader), [(clock, applied (put_op (lit "k") (lit "v") 0))])] zeroGateway.

Definition error_text (e : error) : bytes := match e with EMsg m => m | _ => lit "i/o error" end.

Definition bind_ok (_ : bytes) : bytes * bytes + bytes := inl (lit "k", lit "v").

Lemma write_asks_in_turn_witness :
  exists resp g' errs out, serve error_text bind_ok (ReqPut []) gate = Some (resp, g') /\
    polled error_text (write_op (kv_Put (lit "k") (lit "v"))) (kvStores gate) (kvStores g') errs out /\
    status resp = 200 /\ notLeaderTotal (g_metrics g') = 1.
Proof.
  destruct (write_asks_in_turn error_text bind_ok [] (lit "k") (lit "v") gate eq_refl) as (resp & g' & errs & out & Hs & Hp & _).
  - repeat constructor; vm_compute; by eexists.
  - exists resp, g', errs, out. split; [exact Hs|]. split; [exact Hp|].
    assert (Hv : (fun x : response * gateway store => (status (fst x), notLeaderTotal (g_metrics (snd x)))) <$>
      serve error_text bind_ok (ReqPut []) gate = Some (200, 1)) by (vm_compute; reflexivity).
    rewrite Hs in Hv. by injection Hv.
Defined.

Lemma report_adds_up_witness :
  exists r, buildDebugMetrics (mkRuntimeEnv [] 1 0 0 0 []) gate = Some r /\ CurrentLeader r = 1 /\
    d_ActiveWaitChans r = sum_of kv_ActiveWaitChans (kvStores gate).
Proof.
  destruct (report_adds_up (mkRuntimeEnv [] 1 0 0 0 []) gate (or_introl eq_refl)) as (r & Hr & _ & _ & _ & Hw & _).
  exists r. split; [exact Hr|]. split; [|exact Hw].
  assert (Hv : CurrentLeader <$> buildDebugMetrics (mkRuntimeEnv [] 1 0 0 0 []) gate = Some 1) by (vm_compute; reflexivity).
  rewrite Hr in Hv. by injection Hv.
Defined.
