(* ===== verification/Labgob.v ===== *)
(** * The checks of labgob (internal/raft/labgob/labgob.go)

    [labgob] wraps [encoding/gob] and warns about field names that gob would drop and
    about decoding into values that are not zero.  Types and values are descriptions,
    as [reflect] gives them; a type is named by a number, so that types may be
    recursive.  gob itself is the class [GobApi], and what the code relies on is its
    round trip, [codes]. *)
From stdpp Require Export gmap.
From S2P Require Export Bytes.

Open Scope Z_scope.

(** ** Types *)

Inductive gotype :=
  | TStruct (fields : list (bytes * nat))
  | TElem (t : nat)                 (** slice, array, pointer *)
  | TMap (key elem : nat)
  | TOther.

(** [utf8.DecodeRuneInString] and [unicode.IsUpper] on the first letter of an ASCII
    name. *)
Definition IsUpper (name : bytes) : bool :=
  match name with
  | c :: _ => let n := Byte.to_N c in (65 <=? n)%N && (n <=? 90)%N
  | [] => false
  end.

(** The package variables [checked] and [errorCount]. *)
Record labgob := mkLabgob { checked : gset nat; errorCount : Z }.

Definition set_checked (t : nat) (st : labgob) : labgob := mkLabgob ({[t]} ∪ checked st) (errorCount st).
Definition count_error (st : labgob) : labgob := mkLabgob (checked st) (errorCount st + 1).

Section Types.
(** What [reflect] knows of the types of the program. *)
Context (types : gmap nat gotype).

(** The loop over the fields of a struct, given the recursive call. *)
Fixpoint check_fields (rec : nat -> labgob -> option labgob) (fields : list (bytes * nat)) (st : labgob) : option labgob :=
  match fields with
  | [] => Some st
  | (name, t) :: rest =>
      let st := if negb (IsUpper name) then count_error st else st in
      st ← rec t st;
      check_fields rec rest st
  end.

(** [checkType]; [None] when the fuel is used up. *)
Fixpoint checkType (fuel : nat) (t : nat) (st : labgob) : option labgob :=
  match fuel with
  | O => None
  | S fuel =>
      if decide (t ∈ checked st) then Some st
      else
        let st := set_checked t st in
        match types !! t with
        | Some (TStruct fields) => check_fields (checkType fuel) fields st
        | Some (TElem e) => checkType fuel e st
        | Some (TMap key elem) => st ← checkType fuel elem st; checkType fuel key st
        | Some TOther | None => Some st
        end
  end.

(** Every nested call checks one more type. *)
Definition check_fuel : nat := S (size (dom types)).

(** *** What is counted *)

Definition lower_fields (t : nat) : Z :=
  match types !! t with
  | Some (TStruct fields) => Z.of_nat (length (filter (fun f => IsUpper f.1 = false) fields))
  | _ => 0
  end.

Definition warnings (ts : list nat) : Z := foldr (fun t n => lower_fields t + n) 0 ts.

(** The types that a type mentions. *)
Definition mentions (t : nat) : list nat :=
  match types !! t with
  | Some (TStruct fields) => fields.*2
  | Some (TElem e) => [e]
  | Some (TMap key elem) => [elem; key]
  | Some TOther | None => []
  end.

Definition described (ts : list nat) : Prop := Forall (fun t => t ∈ dom types) ts.

(** Types that are mentioned are described. *)
Definition closed_types : Prop := forall t, described (mentions t).

(** From [st] to [st'] the types [new] were checked, each once, with all that they
    mention, and [k] more warnings were counted. *)
Record extends (st st' : labgob) (new : list nat) (k : Z) : Prop := {
  ex_nodup : NoDup new;
  ex_fresh : Forall (fun t => (t ∉ checked st) /\ (t ∈ dom types)) new;
  ex_mentions : Forall (fun t => Forall (fun u => u ∈ checked st') (mentions t)) new;
  ex_checked : checked st' = list_to_set new ∪ checked st;
  ex_count : errorCount st' = errorCount st + k + warnings new
}.

Lemma extends_refl st : extends st st [] 0.
Proof. split; simpl; try constructor; [by rewrite union_empty_l_L|lia]. Qed.

Lemma warnings_app ts us : warnings (ts ++ us) = warnings ts + warnings us.
Proof. induction ts as [|t ts IH]; simpl; lia. Qed.

Lemma extends_mono st st' new k t : extends st st' new k -> t ∈ checked st -> t ∈ checked st'.
Proof. intros [_ _ _ -> _]. set_solver. Qed.

Lemma extends_trans st st1 st2 new1 new2 k1 k2 :
  extends st st1 new1 k1 -> extends st1 st2 new2 k2 -> extends st st2 (new1 ++ new2) (k1 + k2).
Proof.
  intros E1 E2. pose proof (fun t => extends_mono _ _ _ _ t E2) as Hm. destruct E1 as [N1 F1 M1 C1 W1], E2 as [N2 F2 M2 C2 W2].
  split.
  - apply NoDup_app. split_and!; [done| |done]. intros t Ht1 Ht2. rewrite Forall_forall in F2.
    apply (F2 t Ht2). rewrite C1. set_solver.
  - apply Forall_app. split; [done|]. eapply Forall_impl; [exact F2|]. rewrite C1. intros t. set_solver.
  - apply Forall_app. split; [|done]. eapply Forall_impl; [exact M1|]. intros t Ht. eapply Forall_impl; [exact Ht|]. auto.
  - rewrite C2, C1, list_to_set_app_L. set_solver.
  - rewrite warnings_app. lia.
Qed.

(** How many described types are left to check. *)
Definition unchecked (st : labgob) : nat := size (dom types ∖ checked st).

Lemma extends_left st st' new k : extends st st' new k -> (unchecked st' <= unchecked st)%nat.
Proof. intros [_ _ _ Hc _]. unfold unchecked. apply subseteq_size. rewrite Hc. set_solver. Qed.

Lemma left_checked t st : t ∈ dom types -> t ∉ checked st -> (unchecked (set_checked t st) < unchecked st)%nat.
Proof. intros Ht Hn. unfold unchecked. apply subset_size. cbn [checked set_checked]. set_solver. Qed.

(** What the recursive call does, while it has fuel. *)
Definition rec_ok (rec : nat -> labgob -> option labgob) (fuel : nat) : Prop :=
  forall t st, t ∈ dom types -> (unchecked st < fuel)%nat ->
  exists st' new, rec t st = Some st' /\ extends st st' new 0 /\ t ∈ checked st'.

Lemma count_error_extends st : extends st (count_error st) [] 1.
Proof. split; simpl; try constructor; [by rewrite union_empty_l_L|lia]. Qed.

Lemma check_fields_spec rec fuel fields st :
  rec_ok rec fuel -> described fields.*2 -> (unchecked st < fuel)%nat ->
  exists st' new, check_fields rec fields st = Some st' /\
    extends st st' new (Z.of_nat (length (filter (fun f => IsUpper f.1 = false) fields))) /\
    Forall (fun u => u ∈ checked st') fields.*2.
Proof.
  intros Hrec. revert st. induction fields as [|[name t] rest IH]; intros st Hd Hl; cbn [check_fields].
  { exists st, []. split_and!; [done|apply extends_refl|constructor]. }
  rewrite fmap_cons in Hd. apply Forall_cons in Hd as [Ht Hd]. cbn [snd] in Ht.
  set (st1 := if negb (IsUpper name) then count_error st else st).
  assert (H1 : extends st st1 [] (if IsUpper name then 0 else 1)).
  { unfold st1. destruct (IsUpper name); [apply extends_refl|apply count_error_extends]. }
  pose proof (extends_left _ _ _ _ H1) as Hl1.
  destruct (Hrec t st1 Ht ltac:(lia)) as (st2 & new2 & -> & H2 & Hin). cbn [mbind option_bind].
  pose proof (extends_left _ _ _ _ H2) as Hl2.
  destruct (IH st2 Hd ltac:(lia)) as (st3 & new3 & -> & H3 & Hall).
  exists st3, (new2 ++ new3). split_and!; [done| |].
  - pose proof (extends_trans _ _ _ _ _ _ _ H1 (extends_trans _ _ _ _ _ _ _ H2 H3)) as H4. cbn [app] in H4.
    refine (eq_rect _ (fun k => extends st st3 (new2 ++ new3) k) H4 _ _). rewrite filter_cons. cbn [fst].
    destruct (IsUpper name); [rewrite decide_False by done|rewrite decide_True by done]; simpl length; lia.
  - rewrite fmap_cons. constructor; [|done]. by eapply extends_mono.
Qed.

(** The type itself, then what its description makes of the calls. *)
Lemma extends_self t st st' new :
  t ∈ dom types -> t ∉ checked st -> extends (set_checked t st) st' new (lower_fields t) ->
  Forall (fun u => u ∈ checked st') (mentions t) -> extends st st' (t :: new) 0.
Proof.
  intros Ht Hn [N F M C W] Hm. cbn [checked set_checked errorCount] in *. split.
  - apply NoDup_cons. split; [|done]. intros Hin. rewrite Forall_forall in F. specialize (F t Hin). set_solver.
  - constructor; [done|]. eapply Forall_impl; [exact F|]. intros u. set_solver.
  - by constructor.
  - rewrite C, list_to_set_cons. set_solver.
  - simpl. lia.
Qed.

Lemma checkType_spec : closed_types -> forall fuel, rec_ok (checkType fuel) fuel.
Proof.
  intros Hcl. induction fuel as [|fuel IH]; intros t st Ht Hl; [lia|]. cbn [checkType].
  destruct (decide (t ∈ checked st)) as [Hin|Hin].
  { exists st, []. split_and!; [done|apply extends_refl|done]. }
  pose proof (left_checked t st Ht Hin) as Hl1. pose proof (Hcl t) as Hd.
  pose proof (extends_self t st) as Hself. unfold mentions, lower_fields in *.
  assert (Hself' : forall st', checked (set_checked t st) ⊆ checked st' -> t ∈ checked st').
  { intros st' Hs. apply Hs. cbn [checked set_checked]. set_solver. }
  destruct (types !! t) as [[fields|e|key elem|]|] eqn:Hty.
  - destruct (check_fields_spec (checkType fuel) fuel fields (set_checked t st) IH Hd ltac:(lia)) as (st' & new & -> & He & Hall).
    exists st', (t :: new). split_and!; [done|by apply Hself|]. apply Hself'. intros u. by apply extends_mono with (1 := He).
  - apply Forall_inv in Hd. destruct (IH e (set_checked t st) Hd ltac:(lia)) as (st' & new & -> & He & Hin').
    exists st', (t :: new). split_and!; [done|apply Hself; [done|done|done|by repeat constructor]|].
    apply Hself'. intros u. by apply extends_mono with (1 := He).
  - apply Forall_cons in Hd as [Hde [Hdk _]%Forall_cons].
    destruct (IH elem (set_checked t st) Hde ltac:(lia)) as (st1 & new1 & -> & He1 & Hin1). cbn [mbind option_bind].
    pose proof (extends_left _ _ _ _ He1). destruct (IH key st1 Hdk ltac:(lia)) as (st2 & new2 & -> & He2 & Hin2).
    pose proof (extends_trans _ _ _ _ _ _ _ He1 He2) as He.
    exists st2, (t :: new1 ++ new2). split_and!; [done|apply Hself; [done|done|done|]|].
    + constructor; [exact (extends_mono _ _ _ _ _ He2 Hin1)|by constructor].
    + apply Hself'. intros u. by apply extends_mono with (1 := He).
  - exists (set_checked t st), [t]. split_and!; [done|apply Hself; [done|done|apply extends_refl|constructor]|by apply Hself'].
  - exists (set_checked t st), [t]. split_and!; [done|apply Hself; [done|done|apply extends_refl|constructor]|by apply Hself'].
Qed.

Lemma left_fuel st : (unchecked st < check_fuel)%nat.
Proof. unfold unchecked, check_fuel. apply Nat.lt_succ_r, subseteq_size. set_solver. Qed.
End Types.

(** ** Values *)

(** A value: a struct, a pointer (nil or not), a basic value, which is the zero value
    of its type or not, and every other kind, which is not looked into. *)
Inductive govalue :=
  | VStruct (fields : list govalue)
  | VPtr (v : option govalue)
  | VBasic (zero : bool)
  | VOther.

(** [checkDefault1]: the warnings that it adds; it stops below depth three. *)
Fixpoint checkDefault1 (v : govalue) (depth : Z) (errors : Z) : Z :=
  if 3 <? depth then errors
  else match v with
       | VStruct fields => fold_left (fun errors v => checkDefault1 v (depth + 1) errors) fields errors
       | VPtr None => errors
       | VPtr (Some v) => checkDefault1 v (depth + 1) errors
       | VBasic zero => if zero then errors else errors + 1
       | VOther => errors
       end.

Definition checkDefault (v : option govalue) (st : labgob) : labgob :=
  match v with
  | None => st
  | Some v => mkLabgob (checked st) (checkDefault1 v 1 (errorCount st))
  end.

(** *** What is counted *)

(** The basic values in a value with their depths, and whether they are zero. *)
Fixpoint leaves (v : govalue) (depth : Z) : list (Z * bool) :=
  match v with
  | VStruct fields => flat_map (fun v => leaves v (depth + 1)) fields
  | VPtr (Some v) => leaves v (depth + 1)
  | VBasic zero => [(depth, zero)]
  | VPtr None | VOther => []
  end.

(** A warning for every value that is not zero and not too deep. *)
Definition surprising (l : Z * bool) : bool := (l.1 <=? 3) && negb l.2.

Definition surprises (ls : list (Z * bool)) : Z := Z.of_nat (length (List.filter surprising ls)).

Lemma surprises_app ls ks : surprises (ls ++ ks) = surprises ls + surprises ks.
Proof. unfold surprises. rewrite List.filter_app, length_app. lia. Qed.

Section Induction.
Context (P : govalue -> Prop) (Hs : forall fields, Forall P fields -> P (VStruct fields))
  (Hp : forall v, P v -> P (VPtr (Some v))) (Hn : P (VPtr None)) (Hb : forall z, P (VBasic z)) (Ho : P VOther).

Fixpoint govalue_rect' (v : govalue) : P v :=
  match v with
  | VStruct fields => Hs fields ((fix all fs : Forall P fs :=
      match fs with [] => Forall_nil_2 P | f :: fs => Forall_cons_2 P f fs (govalue_rect' f) (all fs) end) fields)
  | VPtr (Some v) => Hp v (govalue_rect' v)
  | VPtr None => Hn
  | VBasic z => Hb z
  | VOther => Ho
  end.
End Induction.

(** What lies below a value lies deeper. *)
Lemma leaves_depth v : forall depth, Forall (fun l => depth <= l.1) (leaves v depth).
Proof.
  induction v as [fields IH|v IH| |z|] using govalue_rect'; intros depth; cbn [leaves]; try by repeat constructor.
  - induction IH as [|v fields Hv _ IHf]; cbn [flat_map]; [constructor|]. apply Forall_app. split; [|done].
    eapply Forall_impl; [apply Hv|]. cbn beta. lia.
  - eapply Forall_impl; [apply IH|]. cbn beta. lia.
Qed.

Lemma surprises_deep ls : Forall (fun l => 3 < l.1) ls -> surprises ls = 0.
Proof.
  unfold surprises. induction 1 as [|l ls Hl _ IH]; [done|]. cbn [List.filter]. unfold surprising at 1.
  rewrite (proj2 (Z.leb_gt _ _) Hl). exact IH.
Qed.

Lemma checkDefault1_spec v : forall depth errors, checkDefault1 v depth errors = errors + surprises (leaves v depth).
Proof.
  assert (Hdeep : forall v depth, 3 < depth -> surprises (leaves v depth) = 0).
  { intros w depth Hd. apply surprises_deep. eapply Forall_impl; [apply leaves_depth|]. cbn beta. lia. }
  induction v as [fields IH|v IH| |z|] using govalue_rect'; intros depth errors;
    (destruct (decide (3 < depth)) as [Hd|Hd];
     [rewrite Hdeep by done; cbn [checkDefault1]; rewrite (proj2 (Z.ltb_lt _ _) Hd); lia|]);
    cbn [checkDefault1 leaves]; rewrite (proj2 (Z.ltb_ge _ _)) by lia.
  - clear Hd. revert errors. induction IH as [|v fields Hv _ IHf]; intros errors; cbn [fold_left flat_map]; [by rewrite Z.add_0_r|].
    rewrite IHf, Hv, surprises_app. lia.
  - apply IH.
  - by rewrite Z.add_0_r.
  - unfold surprises, surprising. cbn [List.filter fst snd]. rewrite (proj2 (Z.leb_le _ _)) by lia. destruct z; cbn; lia.
  - by rewrite Z.add_0_r.
Qed.

(** ** Encoders and decoders *)

(** [encoding/gob] and [reflect]: the states of an encoder and of a decoder, what they
    write to and read from a stream, and the registry of types. A decoder writes
    to the value it is given. *)
Class GobApi (V Err Enc Dec Reg : Type) := {
  gob_NewEncoder : Enc;
  gob_NewDecoder : Dec;
  gob_Encode : V -> Enc -> bytes * option Err * Enc;
  gob_EncodeValue : V -> Enc -> bytes * option Err * Enc;
  gob_Decode : V -> Dec -> bytes -> V * option Err * Dec * bytes;
  gob_Register : V -> Reg -> option Reg;
  gob_RegisterName : bytes -> V -> Reg -> option Reg;
  TypeOf : V -> option nat;
  ValueOf : V -> option govalue
}.

Section Codec.
Context {V Err Enc Dec Reg : Type} `{GobApi V Err Enc Dec Reg} (types : gmap nat gotype).

(** With what was written to its writer, and what is left to read. *)
Record LabEncoder := mkLabEncoder { enc_gob : Enc; enc_out : bytes }.
Record LabDecoder := mkLabDecoder { dec_gob : Dec; dec_in : bytes }.

Definition NewEncoder (w : bytes) : LabEncoder := mkLabEncoder gob_NewEncoder w.
Definition NewDecoder (r : bytes) : LabDecoder := mkLabDecoder gob_NewDecoder r.

(** The type of nil is nil, and its kind a nil dereference. *)
Definition checkValue (v : V) (st : labgob) : option labgob :=
  t ← TypeOf v;
  checkType types (check_fuel types) t st.

Definition Encode (e : V) (enc : LabEncoder) (st : labgob) : option (option Err * LabEncoder * labgob) :=
  st ← checkValue e st;
  let '(b, err, g) := gob_Encode e (enc_gob enc) in
  Some (err, mkLabEncoder g (enc_out enc ++ b), st).

(** A [reflect.Value] is the value that it holds. *)
Definition EncodeValue (value : V) (enc : LabEncoder) (st : labgob) : option (option Err * LabEncoder * labgob) :=
  st ← checkValue value st;
  let '(b, err, g) := gob_EncodeValue value (enc_gob enc) in
  Some (err, mkLabEncoder g (enc_out enc ++ b), st).

Definition Decode (e : V) (dec : LabDecoder) (st : labgob) : option (V * option Err * LabDecoder * labgob) :=
  st ← checkValue e st;
  let st := checkDefault (ValueOf e) st in
  let '(v, err, g, rest) := gob_Decode e (dec_gob dec) (dec_in dec) in
  Some (v, err, mkLabDecoder g rest, st).

Definition Register (value : V) (reg : Reg) (st : labgob) : option (Reg * labgob) :=
  st ← checkValue value st;
  reg ← gob_Register value reg;
  Some (reg, st).

Definition RegisterName (name : bytes) (value : V) (reg : Reg) (st : labgob) : option (Reg * labgob) :=
  st ← checkValue value st;
  reg ← gob_RegisterName name value reg;
  Some (reg, st).

(** [Marshall] and [Unmarshall] of labrpc; [None] is a panic or [log.Fatalf]. *)
Definition Marshall (args : V) (st : labgob) : option (bytes * labgob) :=
  r ← Encode args (NewEncoder []) st;
  let '(err, qe, st) := r in
  match err with
  | Some _ => None
  | None => Some (enc_out qe, st)
  end.

Definition Unmarshall (b : bytes) (repl : V) (st : labgob) : option (V * labgob) :=
  r ← Decode repl (NewDecoder b) st;
  let '(v, err, _, st) := r in
  match err with
  | Some _ => None
  | None => Some (v, st)
  end.

(** gob reads back what it wrote: a fresh decoder turns [r] into [v] on the bytes of a
    fresh encoder. *)
Definition codes (v r : V) : Prop :=
  exists b g g', gob_Encode v gob_NewEncoder = (b, None, g) /\ gob_Decode r gob_NewDecoder b = (v, None, g', []).

(** The values of a target that is not zero. *)
Definition nondefault (r : V) : Z := match ValueOf r with Some w => surprises (leaves w 1) | None => 0 end.

Lemma checkDefault_spec v st :
  checked (checkDefault (ValueOf v) st) = checked st /\ errorCount (checkDefault (ValueOf v) st) = errorCount st + nondefault v.
Proof.
  unfold nondefault. destruct (ValueOf v) as [w|]; cbn [checkDefault checked errorCount]; [|split; [done|lia]].
  by rewrite checkDefault1_spec.
Qed.

Lemma checkValue_spec v t st :
  closed_types types -> TypeOf v = Some t -> t ∈ dom types ->
  exists st' new, checkValue v st = Some st' /\ extends types st st' new 0 /\ t ∈ checked st'.
Proof.
  intros Hc Ht Hd. unfold checkValue. rewrite Ht. cbn [mbind option_bind].
  exact (checkType_spec types Hc (check_fuel types) t st Hd (left_fuel types st)).
Qed.
End Codec.
