(* ===== verification/Labrpc.v ===== *)
(** * The RPC network (internal/raft/labrpc/labrpc.go)

    Client ends, servers and services, and the life of a request: the network looks
    up its destination, may drop it, starts the handler, notices a deleted server,
    may drop or delay the reply, and answers the caller.  Random draws and the moments
    at which goroutines run are inputs; how long a sleep lasts is not modelled. *)
From stdpp Require Export gmap.
From S2P Require Export Text.

Open Scope Z_scope.

(** [atomic.AddInt32] and [atomic.AddInt64] wrap around. *)
Definition wrap (w z : Z) : Z := (z + 2 ^ (w - 1)) mod 2 ^ w - 2 ^ (w - 1).

(** ** Services and servers *)

(** [replyMsg] *)
Record replyMsg := mkReply { ok : bool; reply : bytes }.

Definition no_reply : replyMsg := mkReply false [].

Section Labrpc.
(** The objects behind the services. *)
Context {W : Type}.

(** A method takes the bytes of its arguments and gives those of its reply; [None]:
    it panics, or the arguments cannot be decoded ([log.Fatalf]). *)
Definition method : Type := bytes -> W -> option (bytes * W).
Definition Fdispatch : Type := bytes -> bytes -> W -> option (bytes * bool * W).
Definition Fcall : Type := bytes -> bytes -> bytes -> W -> option (bytes * bool * W).

Record Service := mkService { svc_name : bytes; methods : gmap bytes method }.

(** What [reflect] says of a method of the receiver: exported, the number of its
    parameters, whether the second is a pointer, and the number of its results. *)
Record MethodInfo := mkMethod {
  mi_name : bytes; mi_exported : bool; mi_NumIn : Z; mi_ptr : bool; mi_NumOut : Z; mi_func : method
}.

Definition add_method (t : gmap bytes method) (m : MethodInfo) : gmap bytes method :=
  if negb (mi_exported m) || negb (mi_NumIn m =? 3) || negb (mi_ptr m) || negb (mi_NumOut m =? 0)
  then t else <[mi_name m := mi_func m]> t.

(** [MakeService]: the table of the methods that look like handlers. *)
Definition MakeService (name : bytes) (ms : list MethodInfo) : Service :=
  mkService name (foldl add_method ∅ ms).

Record Server := mkServer { services : gmap bytes Service; srv_count : Z; dispatchf : option Fdispatch }.

Definition MakeServer : Server := mkServer ∅ 0 None.
Definition SetDispatch (f : Fdispatch) (rs : Server) : Server := mkServer (services rs) (srv_count rs) (Some f).
Definition AddService (svc : Service) (rs : Server) : Server :=
  mkServer (<[svc_name svc := svc]> (services rs)) (srv_count rs) (dispatchf rs).
Definition Server_GetCount (rs : Server) : Z := srv_count rs.
Definition count_call (rs : Server) : Server := mkServer (services rs) (srv_count rs + 1) (dispatchf rs).

(** [strings.LastIndex(s, ".")]: what is before and after the last dot. *)
Fixpoint split_last_dot (s : bytes) : option (bytes * bytes) :=
  match s with
  | [] => None
  | c :: r =>
      match split_last_dot r with
      | Some (a, b) => Some (c :: a, b)
      | None => if decide (c = Byte.x2e) then Some ([], r) else None
      end
  end.

(** [Service.dispatch] *)
Definition svc_dispatch (svc : Service) (methname args : bytes) (w : W) : option (replyMsg * W) :=
  f ← methods svc !! methname;
  x ← f args w;
  Some (mkReply true (fst x), snd x).

(** [Server.dispatch]: without a dot the slice expression panics, and an unknown
    service ends the process. *)
Definition srv_dispatch (rs : Server) (svcMeth args : bytes) (w : W) : option (replyMsg * W) :=
  n ← split_last_dot svcMeth;
  let service := services rs !! fst n in
  match dispatchf rs with
  | Some f => x ← f svcMeth args w; Some (mkReply (snd (fst x)) (fst (fst x)), snd x)
  | None => svc ← service; svc_dispatch svc (snd n) args w
  end.

(** ** The network *)

Record ClientEnd := mkEnd { ce_endname : bytes; callf : option Fcall }.

(** Servers and client ends are pointers: [server_heap] and [end_heap] hold those
    ever made; [None] is nil. [listening]: the goroutine that takes the requests from
    the channel has not returned. *)
Record Network := mkNetwork {
  reliable : bool; longDelays : bool; longReordering : bool;
  ends : gmap bytes nat; enabled : gmap bytes bool;
  servers : gmap bytes (option nat); connections : gmap bytes (option bytes);
  closed : bool; listening : bool;
  rpc_count : Z; rpc_bytes : Z;
  server_heap : list Server; end_heap : list ClientEnd
}.

Definition MakeNetwork : Network := mkNetwork true false false ∅ ∅ ∅ ∅ false true 0 0 [] [].

Definition set_flags (rn : Network) (r d o c l : bool) : Network :=
  mkNetwork r d o (ends rn) (enabled rn) (servers rn) (connections rn) c l (rpc_count rn) (rpc_bytes rn)
    (server_heap rn) (end_heap rn).
Definition set_ends (rn : Network) e en cs h : Network :=
  mkNetwork (reliable rn) (longDelays rn) (longReordering rn) e en (servers rn) cs (closed rn) (listening rn)
    (rpc_count rn) (rpc_bytes rn) (server_heap rn) h.
Definition set_servers (rn : Network) s h : Network :=
  mkNetwork (reliable rn) (longDelays rn) (longReordering rn) (ends rn) (enabled rn) s (connections rn) (closed rn)
    (listening rn) (rpc_count rn) (rpc_bytes rn) h (end_heap rn).
Definition set_stats (rn : Network) c b : Network :=
  mkNetwork (reliable rn) (longDelays rn) (longReordering rn) (ends rn) (enabled rn) (servers rn) (connections rn)
    (closed rn) (listening rn) (wrap 32 c) (wrap 64 b) (server_heap rn) (end_heap rn).

Definition Reliable (yes : bool) (rn : Network) : Network :=
  set_flags rn yes (longDelays rn) (longReordering rn) (closed rn) (listening rn).
Definition IsReliable (rn : Network) : bool := reliable rn.
Definition LongReordering (yes : bool) (rn : Network) : Network :=
  set_flags rn (reliable rn) (longDelays rn) yes (closed rn) (listening rn).
Definition LongDelays (yes : bool) (rn : Network) : Network :=
  set_flags rn (reliable rn) yes (longReordering rn) (closed rn) (listening rn).
Definition IsLongDelays (rn : Network) : bool := longDelays rn.

(** Closing a closed channel panics. *)
Definition Cleanup (rn : Network) : option Network :=
  if closed rn then None
  else Some (set_flags rn (reliable rn) (longDelays rn) (longReordering rn) true (listening rn)).

(** The goroutine of [MakeNetwork] sees the closed channel. *)
Definition stop_listening (rn : Network) : option Network :=
  if closed rn && listening rn then
    Some (set_flags rn (reliable rn) (longDelays rn) (longReordering rn) true false)
  else None.

(** [None] is [log.Fatalf]. *)
Definition MakeEnd (endname : bytes) (rn : Network) : option (nat * Network) :=
  match ends rn !! endname with
  | Some _ => None
  | None =>
      let e := length (end_heap rn) in
      Some (e, set_ends rn (<[endname := e]> (ends rn)) (<[endname := false]> (enabled rn))
        (<[endname := None]> (connections rn)) (end_heap rn ++ [mkEnd endname None]))
  end.
Definition LookupEnd (endname : bytes) (rn : Network) : option nat := ends rn !! endname.
Definition DeleteEnd (endname : bytes) (rn : Network) : option Network :=
  match ends rn !! endname with
  | None => None
  | Some _ => Some (set_ends rn (delete endname (ends rn)) (delete endname (enabled rn)) (delete endname (connections rn))
                     (end_heap rn))
  end.
Definition SetCall (e : nat) (f : Fcall) (rn : Network) : option Network :=
  ce ← end_heap rn !! e;
  Some (set_ends rn (ends rn) (enabled rn) (connections rn) (<[e := mkEnd (ce_endname ce) (Some f)]> (end_heap rn))).

Definition AddServer (servername : bytes) (rs : nat) (rn : Network) : Network :=
  set_servers rn (<[servername := Some rs]> (servers rn)) (server_heap rn).
Definition DeleteServer (servername : bytes) (rn : Network) : Network :=
  set_servers rn (<[servername := None]> (servers rn)) (server_heap rn).
Definition Connect (endname servername : bytes) (rn : Network) : Network :=
  set_ends rn (ends rn) (enabled rn) (<[endname := Some servername]> (connections rn)) (end_heap rn).
Definition Enable (endname : bytes) (yes : bool) (rn : Network) : Network :=
  set_ends rn (ends rn) (<[endname := yes]> (enabled rn)) (connections rn) (end_heap rn).

(** A call of a method of a server through its pointer. *)
Definition on_server (f : Server -> Server) (rs : nat) (rn : Network) : option Network :=
  s ← server_heap rn !! rs;
  Some (set_servers rn (servers rn) (<[rs := f s]> (server_heap rn))).
Definition new_server (rn : Network) : nat * Network :=
  (length (server_heap rn), set_servers rn (servers rn) (server_heap rn ++ [MakeServer])).

(** A missing key of a map reads as the zero value. *)
Definition is_enabled (rn : Network) (endname : bytes) : bool := default false (enabled rn !! endname).
Definition connection (rn : Network) (endname : bytes) : option bytes := default None (connections rn !! endname).
Definition server_of (rn : Network) (servername : bytes) : option nat := default None (servers rn !! servername).

(** A nil server is dereferenced. *)
Definition GetCount (servername : bytes) (rn : Network) : option Z :=
  s ← server_of rn servername; Server_GetCount <$> server_heap rn !! s.
Definition GetTotalCount (rn : Network) : Z := rpc_count rn.
Definition GetTotalBytes (rn : Network) : Z := rpc_bytes rn.

Record EndInfo := mkEndInfo {
  ei_enabled : bool; ei_servername : option bytes; ei_server : option nat; ei_reliable : bool; ei_longreordering : bool
}.

Definition readEndnameInfo (endname : bytes) (rn : Network) : EndInfo :=
  let servername := connection rn endname in
  mkEndInfo (is_enabled rn endname) servername
    (match servername with Some s => server_of rn s | None => None end) (reliable rn) (longReordering rn).

Definition isServerDead (endname servername : bytes) (server : nat) (rn : Network) : bool :=
  negb (is_enabled rn endname) || negb (bool_decide (server_of rn servername = Some server)).

(** ** Requests *)

Record reqMsg := mkReq { endname : bytes; svcMeth : bytes; args : bytes }.

(** Where a request is: with [processReq], not looked at; its handler is about to run
    on a server; the handler has returned; a timer will answer; the caller was
    answered. When the caller was answered because the server died, the handler may
    still be about to run there. *)
Inductive stage :=
  | Sent
  | Running (servername : bytes) (server : nat) (info : EndInfo)
  | Ran (servername : bytes) (server : nat) (info : EndInfo) (rep : replyMsg)
  | Delayed (rep : replyMsg)
  | Done (rep : replyMsg) (late : option nat).

Record inflight := mkInflight { req : reqMsg; at_stage : stage }.

Record system := mkSystem { net : Network; world : W; requests : list inflight }.

Definition set_request (k : nat) (r : inflight) (st : stage) (s : system) : system :=
  mkSystem (net s) (world s) (<[k := mkInflight (req r) st]> (requests s)).
Definition set_net (rn : Network) (s : system) : system := mkSystem rn (world s) (requests s).

(** A request from bytes to bytes; [sent] says which branch of the [select] is taken.
    The waiting for the answer is the life of the request below. *)
Definition Forward (e : nat) (svcMeth args : bytes) (sent : bool) (s : system) : option (option replyMsg * system) :=
  ce ← end_heap (net s) !! e;
  if sent then
    if listening (net s) then
      let rn := set_stats (net s) (rpc_count (net s) + 1) (rpc_bytes (net s) + zlen args) in
      Some (None, mkSystem rn (world s) (requests s ++ [mkInflight (mkReq (ce_endname ce) svcMeth args) Sent]))
    else None
  else if closed (net s) then Some (Some no_reply, s) else None.

(** [ClientEnd.Call] and [Forward] up to the wait for the reply, which is known at
    once when there is a hook or the network is closed. [sent]: which of the cases of
    [select] that are ready is taken. *)
Definition Call (e : nat) (svcMeth args : bytes) (sent : bool) (s : system) : option (option replyMsg * system) :=
  ce ← end_heap (net s) !! e;
  match callf ce with
  | Some f =>
      x ← f (ce_endname ce) svcMeth args (world s);
      Some (Some (mkReply (snd (fst x)) (fst (fst x))), mkSystem (net s) (snd x) (requests s))
  | None => Forward e svcMeth args sent s
  end.

(** [rand.Int() % 1000 < 100] *)
Definition drops (draw : Z) : bool := draw mod 1000 <? 100.
(** [rand.Intn(900) < 600] *)
Definition delays (draw : Z) : bool := draw mod 900 <? 600.

(** [processReq] up to the call of the handler. *)
Definition start (k : nat) (draw : Z) (s : system) : option system :=
  r ← requests s !! k;
  match at_stage r with
  | Sent =>
      let info := readEndnameInfo (endname (req r)) (net s) in
      match ei_enabled info, ei_servername info, ei_server info with
      | true, Some servername, Some server =>
          if negb (ei_reliable info) && drops draw then Some (set_request k r (Done no_reply None) s)
          else Some (set_request k r (Running servername server info) s)
      | _, _, _ => Some (set_request k r (Delayed no_reply) s)
      end
  | _ => None
  end.

(** The handler of a request on a server. *)
Definition dispatch_on (server : nat) (q : reqMsg) (s : system) : option (replyMsg * system) :=
  rs ← server_heap (net s) !! server;
  x ← srv_dispatch rs (svcMeth q) (args q) (world s);
  rn ← on_server count_call server (net s);
  Some (fst x, mkSystem rn (snd x) (requests s)).

(** [Server.Dispatch], for the hooks of tests. *)
Definition Dispatch (server : nat) (svcMeth clnt args : bytes) (s : system) : option ((bytes * bool) * system) :=
  x ← dispatch_on server (mkReq clnt svcMeth args) s;
  Some ((reply (fst x), ok (fst x)), snd x).

(** The goroutine that calls [server.dispatch]. *)
Definition execute (k : nat) (s : system) : option system :=
  r ← requests s !! k;
  match at_stage r with
  | Running servername server info =>
      x ← dispatch_on server (req r) s;
      Some (set_request k r (Ran servername server info (fst x)) (snd x))
  | Done rep (Some server) =>
      x ← dispatch_on server (req r) s;
      Some (set_request k r (Done rep None) (snd x))
  | _ => None
  end.

(** A turn of the wait, every 100 ms; the reply may be ready and not yet taken. *)
Definition poll_dead (k : nat) (s : system) : option system :=
  r ← requests s !! k;
  match at_stage r with
  | Running servername server _ =>
      if isServerDead (endname (req r)) servername server (net s)
      then Some (set_request k r (Done no_reply (Some server)) s) else Some s
  | Ran servername server _ _ =>
      if isServerDead (endname (req r)) servername server (net s)
      then Some (set_request k r (Done no_reply None) s) else Some s
  | _ => None
  end.

(** The reply goes to the caller. *)
Definition answer_with (k : nat) (r : inflight) (rep : replyMsg) (s : system) : system :=
  let rn := set_stats (net s) (rpc_count (net s)) (rpc_bytes (net s) + zlen (reply rep)) in
  set_request k r (Done rep None) (set_net rn s).

(** [processReq] after the wait, when the reply was taken. *)
Definition finish (k : nat) (draw1 draw2 : Z) (s : system) : option system :=
  r ← requests s !! k;
  match at_stage r with
  | Ran servername server info rep =>
      if isServerDead (endname (req r)) servername server (net s) then Some (set_request k r (Done no_reply None) s)
      else if negb (ei_reliable info) && drops draw1 then Some (set_request k r (Done no_reply None) s)
      else if ei_longreordering info && delays draw2 then Some (set_request k r (Delayed rep) s)
      else Some (answer_with k r rep s)
  | _ => None
  end.

(** The function given to [time.AfterFunc]. *)
Definition timer (k : nat) (s : system) : option system :=
  r ← requests s !! k;
  match at_stage r with
  | Delayed rep => Some (answer_with k r rep s)
  | _ => None
  end.

(** ** Runs *)

Inductive config :=
  | CReliable (yes : bool) | CLongReordering (yes : bool) | CLongDelays (yes : bool)
  | CCleanup | CStop
  | CMakeEnd (e : bytes) | CDeleteEnd (e : bytes) | CSetCall (e : nat) (f : Fcall)
  | CAddServer (sn : bytes) (rs : nat) | CDeleteServer (sn : bytes)
  | CConnect (e sn : bytes) | CEnable (e : bytes) (yes : bool)
  | CMakeServer | CAddService (rs : nat) (svc : Service) | CSetDispatch (rs : nat) (f : Fdispatch).

Definition configure (c : config) (rn : Network) : option Network :=
  match c with
  | CReliable yes => Some (Reliable yes rn)
  | CLongReordering yes => Some (LongReordering yes rn)
  | CLongDelays yes => Some (LongDelays yes rn)
  | CCleanup => Cleanup rn
  | CStop => stop_listening rn
  | CMakeEnd e => snd <$> MakeEnd e rn
  | CDeleteEnd e => DeleteEnd e rn
  | CSetCall e f => SetCall e f rn
  | CAddServer sn rs => Some (AddServer sn rs rn)
  | CDeleteServer sn => Some (DeleteServer sn rn)
  | CConnect e sn => Some (Connect e sn rn)
  | CEnable e yes => Some (Enable e yes rn)
  | CMakeServer => Some (snd (new_server rn))
  | CAddService rs svc => on_server (AddService svc) rs rn
  | CSetDispatch rs f => on_server (SetDispatch f) rs rn
  end.

Inductive event :=
  | ECall (e : nat) (svcMeth args : bytes) (sent : bool)
  | EStart (k : nat) (draw : Z)
  | EExecute (k : nat)
  | EPoll (k : nat)
  | EFinish (k : nat) (draw1 draw2 : Z)
  | ETimer (k : nat)
  | EConfig (c : config).

(** [None]: the step is not enabled, or the process ends. *)
Definition step (e : event) (s : system) : option system :=
  match e with
  | ECall e m a sent => snd <$> Call e m a sent s
  | EStart k draw => start k draw s
  | EExecute k => execute k s
  | EPoll k => poll_dead k s
  | EFinish k draw1 draw2 => finish k draw1 draw2 s
  | ETimer k => timer k s
  | EConfig c => rn ← configure c (net s); Some (set_net rn s)
  end.

Fixpoint run (es : list event) (s : system) : option system :=
  match es with
  | [] => Some s
  | e :: es => s ← step e s; run es s
  end.

Definition init (w : W) (rn : Network) : system := mkSystem rn w [].

(** What the caller of request [k] was told. *)
Definition answer (k : nat) (s : system) : option replyMsg :=
  r ← requests s !! k;
  match at_stage r with Done rep _ => Some rep | _ => None end.
End Labrpc.
Arguments method : clear implicits.
Arguments Service : clear implicits.
Arguments MethodInfo : clear implicits.
Arguments Server : clear implicits.
Arguments Network : clear implicits.
Arguments system : clear implicits.
Arguments config : clear implicits.
Arguments event : clear implicits.
