(* ===== verification/LabrpcSpec.v ===== *)
(** * What the RPC network promises

    The life of one request as a relation between its stages, and what follows for
    runs: a request is executed at most once, and only on the server that its client
    end was connected to. *)
From S2P Require Export Labrpc.

Section Spec.
Context {W : Type}.
#[local] Abbreviation system := (system W).
#[local] Abbreviation event := (event W).
#[local] Abbreviation Network := (Network W).

(** ** Stages *)

(** The request's handler may still start. *)
Definition pending (st : stage) : Prop :=
  match st with Sent | Running _ _ _ | Done _ (Some _) => True | _ => False end.

(** The server that runs or has run the handler for a caller who still waits. *)
Definition host (st : stage) : option (bytes * nat) :=
  match st with Running sn sv _ | Ran sn sv _ _ => Some (sn, sv) | _ => None end.

(** The reply that the stage holds for the caller. *)
Definition carried (st : stage) : option replyMsg :=
  match st with Ran _ _ _ rep | Delayed rep | Done rep _ => Some rep | _ => None end.

(** The end of [q] is enabled and connected to the name [sn] of server [sv]. *)
Definition routes (q : reqMsg) (sn : bytes) (sv : nat) (rn : Network) : Prop :=
  is_enabled rn (endname q) = true /\ connection rn (endname q) = Some sn /\ server_of rn sn = Some sv.

(** How the event [e] in state [s] moves request [k], which is [q]. *)
Inductive advance (e : event) (k : nat) (q : reqMsg) (s : system) : stage -> stage -> Prop :=
  | adv_same st : e <> EExecute k -> advance e k q s st st
  | adv_start sn sv info : e <> EExecute k -> routes q sn sv (net s) -> advance e k q s Sent (Running sn sv info)
  | adv_refuse : e <> EExecute k -> advance e k q s Sent (Delayed no_reply)
  | adv_drop : e <> EExecute k -> advance e k q s Sent (Done no_reply None)
  | adv_run sn sv info rep s' :
      e = EExecute k -> dispatch_on sv q s = Some (rep, s') -> advance e k q s (Running sn sv info) (Ran sn sv info rep)
  | adv_late rep sv : e = EExecute k -> advance e k q s (Done rep (Some sv)) (Done rep None)
  | adv_dead sn sv info : e <> EExecute k -> advance e k q s (Running sn sv info) (Done no_reply (Some sv))
  | adv_lose sn sv info rep : e <> EExecute k -> advance e k q s (Ran sn sv info rep) (Done no_reply None)
  | adv_delay sn sv info rep : e <> EExecute k -> advance e k q s (Ran sn sv info rep) (Delayed rep)
  | adv_answer sn sv info rep : e <> EExecute k -> advance e k q s (Ran sn sv info rep) (Done rep None)
  | adv_timer rep : e <> EExecute k -> advance e k q s (Delayed rep) (Done rep None).

(** The requests after an event: each has moved as [advance] says, and a new one may
    have been sent. *)
Record progress (e : event) (s s' : system) : Prop := {
  pg_old : forall k r, requests s !! k = Some r ->
    exists st, requests s' !! k = Some (mkInflight (req r) st) /\ advance e k (req r) s (at_stage r) st;
  pg_new : forall k r, requests s !! k = None -> requests s' !! k = Some r -> e <> EExecute k /\ at_stage r = Sent
}.

(** One request moves, and the others stay. *)
Lemma progress_one e k r st s s' :
  requests s !! k = Some r -> requests s' = <[k := mkInflight (req r) st]> (requests s) ->
  advance e k (req r) s (at_stage r) st -> (forall k', k' <> k -> e <> EExecute k') -> progress e s s'.
Proof.
  intros Hr Hrq Ha He. split; setoid_rewrite Hrq.
  - intros k' r' Hr'. destruct (decide (k' = k)) as [->|Hk].
    + simplify_eq. exists st. split; [|done]. apply list_lookup_insert_eq. by eapply lookup_lt_Some.
    + exists (at_stage r'). rewrite list_lookup_insert_ne by done. split; [by rewrite Hr'; destruct r'|].
      apply adv_same. by apply He.
  - intros k' r' Hn Hs. exfalso. apply lookup_ge_None in Hn. apply lookup_lt_Some in Hs.
    rewrite length_insert in Hs. lia.
Qed.

Lemma progress_none e s s' : requests s' = requests s -> (forall k, e <> EExecute k) -> progress e s s'.
Proof.
  intros Hrq He. split; [intros k r Hr|intros k r]; rewrite Hrq; [|congruence]. exists (at_stage r).
  split; [by rewrite Hr; destruct r|by apply adv_same].
Qed.

Lemma progress_send e q s s' :
  requests s' = requests s ++ [mkInflight q Sent] -> (forall k, e <> EExecute k) -> progress e s s'.
Proof.
  intros Hrq He. split; [intros k r Hr|intros k r]; rewrite Hrq.
  - exists (at_stage r). split; [|by apply adv_same]. rewrite lookup_app_l by (by eapply lookup_lt_Some).
    by rewrite Hr; destruct r.
  - intros Hn Hs. split; [done|]. apply lookup_ge_None in Hn. rewrite lookup_app_r in Hs by done.
    apply list_lookup_singleton_Some in Hs as [_ <-]. done.
Qed.

(** *** Each event *)

Lemma Call_progress e m a sent s res :
  Call e m a sent s = Some res -> progress (ECall e m a sent) s res.2.
Proof.
  unfold Call. intros (ce & Hce & H)%bind_Some. destruct (callf ce) as [f|]; [|unfold Forward in H; rewrite Hce in H; cbn [mbind option_bind] in H].
  { apply bind_Some in H as (x & _ & [= <-]). by apply progress_none. }
  destruct sent.
  - destruct (listening (net s)); [|done]. injection H as <-. by eapply progress_send.
  - destruct (closed (net s)); [|done]. injection H as <-. by apply progress_none.
Qed.

Lemma start_progress k draw s s' : start k draw s = Some s' -> progress (EStart k draw) s s'.
Proof.
  unfold start. intros (r & Hr & H)%bind_Some. destruct (at_stage r) eqn:Hst; try done. cbn zeta in H.
  assert (Hone : forall st, advance (EStart k draw) k (req r) s Sent st -> progress (EStart k draw) s (set_request k r st s)).
  { intros st Ha. eapply progress_one; [exact Hr|done|by rewrite Hst|done]. }
  unfold readEndnameInfo in H. cbn [ei_enabled ei_servername ei_server ei_reliable] in H.
  destruct (is_enabled (net s) (endname (req r))) eqn:Hen; [|injection H as <-; by apply Hone, adv_refuse].
  destruct (connection (net s) (endname (req r))) as [sn|] eqn:Hc; [|injection H as <-; by apply Hone, adv_refuse].
  destruct (server_of (net s) sn) as [sv|] eqn:Hs; [|injection H as <-; by apply Hone, adv_refuse].
  destruct (_ && _); injection H as <-; apply Hone; [by apply adv_drop|by apply adv_start].
Qed.

Lemma dispatch_on_requests sv q (s : system) rep s' : dispatch_on sv q s = Some (rep, s') -> requests s' = requests s.
Proof.
  unfold dispatch_on. intros (rs & _ & (x & _ & (rn & _ & H)%bind_Some)%bind_Some)%bind_Some. by injection H as _ <-.
Qed.

Lemma execute_progress k s s' : execute k s = Some s' -> progress (EExecute k) s s'.
Proof.
  unfold execute. intros (r & Hr & H)%bind_Some.
  assert (Hone : forall st x s1, advance (EExecute k) k (req r) s (at_stage r) st ->
    dispatch_on x (req r) s = Some s1 -> progress (EExecute k) s (set_request k r st s1.2)).
  { intros st x [rep s1] Ha Hd. eapply progress_one; [exact Hr| |exact Ha|congruence].
    cbn [snd set_request requests]. by rewrite (dispatch_on_requests _ _ _ _ _ Hd). }
  destruct (at_stage r) as [|sn sv info| | |rep [sv|]] eqn:Hst; try done; apply bind_Some in H as (x & Hd & [= <-]).
  - eapply Hone; [|exact Hd]. destruct x as [rep s1]. by eapply adv_run.
  - eapply Hone; [|exact Hd]. by apply adv_late.
Qed.

Lemma poll_progress k s s' : poll_dead k s = Some s' -> progress (EPoll k) s s'.
Proof.
  unfold poll_dead. intros (r & Hr & H)%bind_Some.
  assert (Hone : forall st, advance (EPoll k) k (req r) s (at_stage r) st -> progress (EPoll k) s (set_request k r st s)).
  { intros st Ha. by eapply progress_one. }
  destruct (at_stage r) eqn:Hst; try done; destruct (isServerDead _ _ _ _); injection H as <-;
    first [by apply progress_none|apply Hone; by constructor].
Qed.

Lemma finish_progress k d1 d2 s s' : finish k d1 d2 s = Some s' -> progress (EFinish k d1 d2) s s'.
Proof.
  unfold finish. intros (r & Hr & H)%bind_Some. destruct (at_stage r) eqn:Hst; try done.
  destruct (isServerDead _ _ _ _); [|destruct (_ && _); [|destruct (_ && _)]]; injection H as <-;
    (eapply progress_one; [exact Hr|done|rewrite Hst|done]); by constructor.
Qed.

Lemma timer_progress k s s' : timer k s = Some s' -> progress (ETimer k) s s'.
Proof.
  unfold timer. intros (r & Hr & H)%bind_Some. destruct (at_stage r) eqn:Hst; try done. injection H as <-.
  eapply progress_one; [exact Hr|done|rewrite Hst|done]. by constructor.
Qed.

Lemma step_progress e s s' : step e s = Some s' -> progress e s s'.
Proof.
  destruct e as [e m a sent|k d|k|k|k d1 d2|k|c]; cbn [step]; intros H.
  - apply fmap_Some in H as (res & H & ->). by apply Call_progress.
  - by apply start_progress.
  - by apply execute_progress.
  - by apply poll_progress.
  - by apply finish_progress.
  - by apply timer_progress.
  - apply bind_Some in H as (rn & _ & [= <-]). by apply progress_none.
Qed.

(** ** Runs *)

Lemma net_run_app (es es' : list event) s : run (es ++ es') s = run es s ≫= run es'.
Proof. revert s. induction es as [|e es IH]; intros s; [done|]. cbn [app run]. destruct (step e s); [apply IH|done]. Qed.

Lemma net_run_snoc (es : list event) e s : run (es ++ [e]) s = run es s ≫= step e.
Proof. rewrite net_run_app. destruct (run es s) as [s1|]; [|done]. cbn. by destruct (step e s1). Qed.

(** The requests whose handlers ran, in order. *)
Definition executed (es : list event) : list nat := omap (fun e => match e with EExecute k => Some k | _ => None end) es.

Lemma executed_snoc (es : list event) e k : k ∈ executed (es ++ [e]) <-> k ∈ executed es \/ e = EExecute k.
Proof.
  unfold executed. rewrite omap_app, elem_of_app. destruct e; cbn; rewrite ?list_elem_of_singleton, ?elem_of_nil;
    intuition congruence.
Qed.

(** During [es] the request [q] was routed to [sv]. *)
Definition routed (q : reqMsg) (sn : bytes) (sv : nat) (es : list event) (s0 : system) : Prop :=
  exists es1 es2 s1, es = es1 ++ es2 /\ run es1 s0 = Some s1 /\ routes q sn sv (net s1).

(** During [es] the handler of request [k] ran, on the server that the request had been
    routed to before, and gave [rep]. *)
Definition served (k : nat) (q : reqMsg) (rep : replyMsg) (es : list event) (s0 : system) : Prop :=
  exists es1 es2 s1 sn sv s2, es = es1 ++ EExecute k :: es2 /\ run es1 s0 = Some s1 /\
    routed q sn sv es1 s0 /\ req <$> requests s1 !! k = Some q /\ dispatch_on sv q s1 = Some (rep, s2).

Lemma routed_app q sn sv es es' s0 : routed q sn sv es s0 -> routed q sn sv (es ++ es') s0.
Proof. intros (es1 & es2 & s1 & -> & Hr & Hn). exists es1, (es2 ++ es'), s1. by rewrite <-app_assoc. Qed.

Lemma served_app k q rep es es' s0 : served k q rep es s0 -> served k q rep (es ++ es') s0.
Proof.
  intros (es1 & es2 & s1 & sn & sv & s2 & -> & H). exists es1, (es2 ++ es'), s1, sn, sv, s2.
  split; [by rewrite <-app_assoc|done].
Qed.

(** What is known of a request after [es]. *)
Record tracked (s0 : system) (es : list event) (k : nat) (r : inflight) : Prop := {
  tr_pending : pending (at_stage r) -> k ∉ executed es;
  tr_host : forall sn sv, host (at_stage r) = Some (sn, sv) -> routed (req r) sn sv es s0;
  tr_reply : forall rep, carried (at_stage r) = Some rep -> ok rep = true -> served k (req r) rep es s0
}.

Record tracks (s0 : system) (es : list event) (s : system) : Prop := {
  tk_run : run es s0 = Some s;
  tk_nodup : NoDup (executed es);
  tk_bound : forall k, k ∈ executed es -> is_Some (requests s !! k);
  tk_each : forall k r, requests s !! k = Some r -> tracked s0 es k r
}.

Lemma advance_tracked e k r s st s0 es :
  run es s0 = Some s -> requests s !! k = Some r -> advance e k (req r) s (at_stage r) st -> tracked s0 es k r ->
  tracked s0 (es ++ [e]) k (mkInflight (req r) st).
Proof.
  intros Hrun Hr Ha [Hp Hh Hc]. split; cbn [at_stage req].
  - intros Hst. rewrite executed_snoc. destruct Ha; simpl in *; try done; intros [H1|H1]; try done; by apply Hp.
  - intros sn sv Hst. destruct Ha as [st| | | | | | | | | |]; simpl in Hst; simplify_eq; try (apply routed_app, Hh; done).
    exists es, [e], s. done.
  - intros rep Hst Hok. destruct Ha as [st| | | |sn sv info rep' s' -> Hd| | | | | |]; simpl in Hst; simplify_eq;
      try discriminate Hok; try (apply served_app, Hc; done).
    exists es, [], s, sn, sv, s'. split_and!; [done|done|by apply Hh|by rewrite Hr|done].
Qed.

Lemma step_tracks s0 es s e s' : tracks s0 es s -> step e s = Some s' -> tracks s0 (es ++ [e]) s'.
Proof.
  intros [Hrun Hnd Hb Ht] Hst. pose proof (step_progress _ _ _ Hst) as [Hold Hnew].
  assert (Hex : forall k, e = EExecute k -> exists r, requests s !! k = Some r /\ pending (at_stage r)).
  { intros k ->. cbn [step] in Hst. unfold execute in Hst. apply bind_Some in Hst as (r & Hr & H).
    exists r. split; [done|]. destruct (at_stage r) as [| | | |rep [sv|]]; by try discriminate H. }
  split.
  - by rewrite net_run_snoc, Hrun.
  - unfold executed. rewrite omap_app. apply NoDup_app. split; [done|]. split; [|destruct e; cbn; repeat constructor; set_solver].
    intros k Hk Hin. apply list_elem_of_omap in Hin as (e' & He' & Hm). apply list_elem_of_singleton in He' as ->.
    destruct e; try done. injection Hm as ->. destruct (Hex k eq_refl) as (r & Hr & Hp).
    by destruct (tr_pending _ _ _ _ (Ht k r Hr) Hp).
  - intros k [Hk|He]%executed_snoc.
    + destruct (Hb k Hk) as [r Hr]. destruct (Hold k r Hr) as (st & -> & _). by eexists.
    + destruct (Hex k He) as (r & Hr & _). destruct (Hold k r Hr) as (st & -> & _). by eexists.
  - intros k r' Hr'. destruct (requests s !! k) as [r|] eqn:Hr.
    + destruct (Hold k r Hr) as (st & Hst' & Ha). rewrite Hst' in Hr'. injection Hr' as <-.
      by eapply advance_tracked; [..|apply Ht].
    + destruct (Hnew k r' Hr Hr') as [He Hs]. split; rewrite Hs; try done.
      intros _ [Hk|?]%executed_snoc; [|done]. destruct (Hb k Hk). congruence.
Qed.

Lemma run_tracks w rn es s : run es (init w rn) = Some s -> tracks (init w rn) es s.
Proof.
  revert s. induction es as [|e es IH] using rev_ind; intros s.
  - intros [= <-]. split; [done|constructor|set_solver|done].
  - rewrite net_run_snoc. intros (s1 & H1 & H2)%bind_Some. exact (step_tracks _ _ _ _ _ (IH _ H1) H2).
Qed.

(** An answer is for good. *)
Lemma step_answer (e : event) s s' k a : step e s = Some s' -> answer k s = Some a -> answer k s' = Some a.
Proof.
  intros [Hold _]%step_progress Ha. unfold answer in *. apply bind_Some in Ha as (r & Hr & Ha).
  destruct (Hold k r Hr) as (st & -> & Hadv). cbn. by destruct Hadv; simplify_eq/=.
Qed.

Lemma run_answer (es : list event) s s' k a : run es s = Some s' -> answer k s = Some a -> answer k s' = Some a.
Proof.
  revert s. induction es as [|e es IH]; intros s; [by intros [= ->]|]. intros (s1 & H1 & H2)%bind_Some Ha.
  exact (IH _ H2 (step_answer _ _ _ _ _ H1 Ha)).
Qed.

(** ** A call without faults

    The steps of the newest request [q], after the requests [rs]. *)
Section Newest.
Context (rs : list inflight) (q : reqMsg).
#[local] Abbreviation newest rn w st := (mkSystem rn w (rs ++ [mkInflight q st])).
#[local] Abbreviation k := (length rs).

Lemma newest_lookup st : (rs ++ [mkInflight q st]) !! k = Some (mkInflight q st).
Proof. rewrite lookup_app_r by lia. by rewrite Nat.sub_diag. Qed.

Lemma set_newest (rn : Network) w st st' : set_request k (mkInflight q st) st' (newest rn w st) = newest rn w st'.
Proof. unfold set_request. cbn [net world requests req]. rewrite insert_app_r_alt by lia. by rewrite Nat.sub_diag. Qed.

Lemma start_newest (rn : Network) w sn sv d :
  reliable rn = true -> routes q sn sv rn ->
  start k d (newest rn w Sent) = Some (newest rn w (Running sn sv (readEndnameInfo (endname q) rn))).
Proof.
  intros Hrel [Hen [Hc Hs]]. unfold start. cbn [requests]. rewrite newest_lookup. cbn [mbind option_bind at_stage req net].
  set (info := readEndnameInfo (endname q) rn). cbn zeta.
  assert (Hi : info = mkEndInfo true (Some sn) (Some sv) true (longReordering rn)).
  { unfold info, readEndnameInfo. by rewrite Hen, Hc, Hs, Hrel. }
  rewrite Hi. cbn [ei_enabled ei_servername ei_server ei_reliable negb andb]. by rewrite set_newest.
Qed.

Lemma execute_newest (rn : Network) w sn sv info srv rep w' :
  server_heap rn !! sv = Some srv -> srv_dispatch srv (svcMeth q) (args q) w = Some (rep, w') ->
  execute k (newest rn w (Running sn sv info)) =
    Some (newest (set_servers rn (servers rn) (<[sv := count_call srv]> (server_heap rn))) w' (Ran sn sv info rep)).
Proof.
  intros Hsrv Hd. unfold execute. cbn [requests]. rewrite newest_lookup. cbn [mbind option_bind at_stage req].
  unfold dispatch_on, on_server. cbn [net world requests]. rewrite Hsrv. cbn [mbind option_bind]. rewrite Hd.
  cbn [mbind option_bind fst snd]. f_equal. apply (set_newest _ w' (Running sn sv info)).
Qed.

Lemma finish_newest (rn : Network) w sn sv info rep d1 d2 :
  ei_reliable info = true -> ei_longreordering info = false -> routes q sn sv rn ->
  exists rn', finish k d1 d2 (newest rn w (Ran sn sv info rep)) = Some (newest rn' w (Done rep None)).
Proof.
  intros Hrel Hlr [Hen [_ Hs]]. unfold finish. cbn [requests]. rewrite newest_lookup. cbn [mbind option_bind at_stage req net].
  unfold isServerDead. rewrite Hen, Hs, bool_decide_true by done. rewrite Hrel, Hlr. cbn [negb orb andb].
  eexists. f_equal. apply (set_newest _ w (Ran sn sv info rep)).
Qed.
End Newest.

(** On a reliable network a call runs its handler and brings the reply back. *)
Lemma reliable_call e n m a sn sv srv rep (w' : W) (s : system) d d1 d2 :
  listening (net s) = true -> reliable (net s) = true -> longReordering (net s) = false ->
  end_heap (net s) !! e = Some (mkEnd n None) -> routes (mkReq n m a) sn sv (net s) ->
  server_heap (net s) !! sv = Some srv -> srv_dispatch srv m a (world s) = Some (rep, w') ->
  exists s', run [ECall e m a true; EStart (length (requests s)) d; EExecute (length (requests s));
                  EFinish (length (requests s)) d1 d2] s = Some s' /\
    world s' = w' /\ requests s' = requests s ++ [mkInflight (mkReq n m a) (Done rep None)].
Proof.
  intros Hl Hrel Hlr He Hroute Hsrv Hd.
  set (rn := set_stats (net s) (rpc_count (net s) + 1) (rpc_bytes (net s) + zlen a)).
  assert (Hcall : step (ECall e m a true) s = Some (mkSystem rn (world s) (requests s ++ [mkInflight (mkReq n m a) Sent]))).
  { cbn [step]. unfold Call, Forward. rewrite !He. cbn [mbind option_bind callf]. by rewrite Hl. }
  cbn [run]. rewrite Hcall. cbn [mbind option_bind step].
  rewrite (start_newest _ _ rn _ sn sv d) by done. cbn [mbind option_bind].
  rewrite (execute_newest _ _ rn _ sn sv _ srv rep w') by done. cbn [mbind option_bind].
  set (rn2 := set_servers _ _ _).
  destruct (finish_newest (requests s) (mkReq n m a) rn2 w' sn sv (readEndnameInfo (endname (mkReq n m a)) rn) rep d1 d2 Hrel Hlr Hroute) as [rn' ->].
  by eexists.
Qed.
End Spec.
