(* ===== verification/Main.v ===== *)
(** * The program (cmd/kvnode/main.go)

    The start of a process that runs three nodes: the network and its servers, the
    client ends between the nodes, each node's Raft object registered as an RPC
    service, its store, and the environment variable that turns compaction off.
    The HTTP gateway then runs on the stores ([Api]). *)
From S2P Require Import LabrpcSpec.
From S2P Require Import StoreLsm.

(** ** The environment *)

(** [strconv.ParseBool] *)
Definition ParseBool (s : bytes) : option bool :=
  if decide (s ∈ lit <$> ["1"; "t"; "T"; "TRUE"; "true"; "True"]%string) then Some true
  else if decide (s ∈ lit <$> ["0"; "f"; "F"; "FALSE"; "false"; "False"]%string) then Some false
  else None.

Definition enableCompactionFromEnv (raw : bytes) : bool :=
  match raw with
  | [] => true
  | _ => match ParseBool raw with Some enabled => enabled | None => true end
  end.

(** ** Names *)

Definition serverName (i : nat) : bytes := lit "server-" ++ FormatUint (Z.of_nat i).
Definition clientName (i j : nat) : bytes :=
  lit "client-" ++ FormatUint (Z.of_nat i) ++ lit "-to-" ++ FormatUint (Z.of_nat j).

(** ** The network of [main] *)

Section Wiring.
(** [table i]: the methods that [MakeService] finds in the object of node [i], whose type
    is named [Raft]. *)
Context {W : Type} (table : nat -> gmap bytes (method W)).
#[local] Abbreviation Network := (Network W).

Definition serverCount : nat := 3.

Fixpoint loop {S} (f : nat -> S -> option S) (l : list nat) (s : S) : option S :=
  match l with
  | [] => Some s
  | i :: l => s ← f i s; loop f l s
  end.

Definition add_server (i : nat) (st : list nat * Network) : option (list nat * Network) :=
  let '(rs, rn) := new_server (snd st) in
  Some (fst st ++ [rs], AddServer (serverName i) rs rn).

(** The inner loop: the client ends of node [i]; its own is nil. *)
Definition connect_peer (i j : nat) (st : list (option nat) * Network) : option (list (option nat) * Network) :=
  if decide (j = i) then Some (fst st ++ [None], snd st)
  else
    x ← MakeEnd (clientName i j) (snd st);
    let rn := Connect (clientName i j) (serverName j) (snd x) in
    Some (fst st ++ [Some (fst x)], Enable (clientName i j) true rn).

Definition connect_peers (i : nat) (rn : Network) : option (list (option nat) * Network) :=
  loop (connect_peer i) (seq 0 serverCount) ([], rn).

Definition register (servers : list nat) (i : nat) (rn : Network) : option Network :=
  rs ← servers !! i; on_server (AddService (mkService (lit "Raft") (table i))) rs rn.

(** The network operations of one turn of the outer loop. *)
Definition wire_node (servers : list nat) (i : nat) (st : list (list (option nat)) * Network) :
  option (list (list (option nat)) * Network) :=
  x ← connect_peers i (snd st);
  rn ← register servers i (snd x);
  Some (fst st ++ [fst x], rn).

Definition wired : option (list (list (option nat)) * Network) :=
  st ← loop add_server (seq 0 serverCount) ([], MakeNetwork);
  loop (wire_node (fst st)) (seq 0 serverCount) ([], snd st).

(** The end of node [i] for node [j]: its name, its hook, and where it leads. *)
Definition link (st : list (list (option nat)) * Network) (i j : nat) :
  option (bytes * option Fcall * bool * option bytes * option nat) :=
  e ← fst st !! i ≫= (.!! j);
  e ← e;
  ce ← end_heap (snd st) !! e;
  let n := ce_endname ce in
  Some (n, callf ce, is_enabled (snd st) n, connection (snd st) n, server_of (snd st) (serverName j)).

Lemma wired_some : exists st, wired = Some st.
Proof.
  assert (Hw : match wired with Some _ => true | None => false end = true) by by vm_compute.
  destruct wired as [st|]; [by exists st|done].
Qed.

Lemma wired_flags st :
  wired = Some st -> reliable (snd st) = true /\ longReordering (snd st) = false /\ listening (snd st) = true.
Proof.
  intros Hst.
  assert (Hl : (st ← wired; Some (reliable (snd st), longReordering (snd st), listening (snd st))) = Some (true, false, true)).
  { clear Hst. vm_compute. reflexivity. }
  rewrite Hst in Hl. clear Hst. by injection Hl.
Qed.

Lemma serverCount_cases i : (i < serverCount)%nat -> i = 0%nat \/ i = 1%nat \/ i = 2%nat.
Proof. unfold serverCount. lia. Qed.

Lemma wired_link i j st :
  wired = Some st -> (i < serverCount)%nat -> (j < serverCount)%nat -> i <> j ->
  link st i j = Some (clientName i j, None, true, Some (serverName j), Some j).
Proof.
  intros Hst Hi Hj Hij. assert (Hl : (st ← wired; link st i j) = Some (clientName i j, None, true, Some (serverName j), Some j)).
  { clear Hst st. destruct (serverCount_cases i Hi) as [->|[->| ->]], (serverCount_cases j Hj) as [->|[->| ->]];
      first [vm_compute; reflexivity|exfalso; by apply Hij]. }
  by rewrite Hst in Hl.
Qed.

Lemma wired_server j st :
  wired = Some st -> (j < serverCount)%nat ->
  server_heap (snd st) !! j = Some (AddService (mkService (lit "Raft") (table j)) MakeServer).
Proof.
  intros Hst Hj. assert (Hl : (st ← wired; server_heap (snd st) !! j) = Some (AddService (mkService (lit "Raft") (table j)) MakeServer)).
  { clear Hst st. destruct (serverCount_cases j Hj) as [->|[->| ->]]; vm_compute; reflexivity. }
  by rewrite Hst in Hl.
Qed.
(** After the first turn of the outer loop the server of node 1 has no service, and a
    call of node 0 reaches it. *)
Lemma early_call a (w : W) d st x :
  loop add_server (seq 0 serverCount) ([], MakeNetwork) = Some st -> wire_node (fst st) 0 ([], snd st) = Some x ->
  exists e s, fst x !! 0%nat ≫= (.!! 1%nat) = Some (Some e) /\
    Labrpc.run [ECall e (lit "Raft.RequestVote") a true; EStart 0 d] (Labrpc.init w (snd x)) = Some s /\ Labrpc.step (EExecute 0) s = None.
Proof.
  intros Hst Hx.
  assert (Hc : (st ← loop add_server (seq 0 serverCount) ([], MakeNetwork); x ← wire_node (fst st) 0 ([], snd st);
                e ← fst x !! 0%nat ≫= (.!! 1%nat); e ← e;
                s ← Labrpc.run [ECall e (lit "Raft.RequestVote") a true; EStart 0 d] (Labrpc.init w (snd x));
                match Labrpc.step (EExecute 0) s with None => Some e | Some _ => None end) = Some 0%nat).
  { clear Hst Hx. vm_compute. reflexivity. }
  rewrite Hst in Hc. cbn [mbind option_bind] in Hc. rewrite Hx in Hc. cbn [mbind option_bind] in Hc. clear Hst Hx.
  apply bind_Some in Hc as (e' & -> & (e & -> & (s & Hs & Hc)%bind_Some)%bind_Some).
  exists e, s. split; [done|]. split; [exact Hs|]. by destruct (Labrpc.step (EExecute 0) s).
Qed.
End Wiring.

(** ** The Raft object as an RPC service *)

Section Main.
Context `{Gob (Z * Z * list (LogEntry Op)), Gob RequestVoteArgs, Gob RequestVoteReply,
          Gob (AppendEntriesArgs Op), Gob AppendEntriesReply}.
#[local] Abbreviation Raft := (Raft (Cmd := Op)).

(** The world of the network: the Raft objects of the process, which a client end, a
    service and a store refer to by their place, and what a handler that runs now reads
    from outside. *)
Record machine := mkMachine { objs : list Raft; outside : Env }.
#[local] Abbreviation Network := (Network machine).

Definition set_obj (i : nat) (rf : Raft) (w : machine) : machine := mkMachine (<[i := rf]> (objs w)) (outside w).

Definition handler {A R} `{Gob A, Gob R} (f : Env -> A -> Raft -> option (R * Raft)) (i : nat) : method machine :=
  fun args w =>
    a ← gob_decode args;
    rf ← objs w !! i;
    res ← f (outside w) a rf;
    Some (gob_encode (fst res), set_obj i (snd res) w).

Definition no_handler : method machine := fun _ _ => None.

(** The exported methods of [*Raft], with their receiver. *)
Definition raft_methods (i : nat) : list (MethodInfo machine) := [
  mkMethod (lit "AppendEntries") true 3 true 0 (handler AppendEntries i);
  mkMethod (lit "DebugForceElection") true 1 false 0 no_handler;
  mkMethod (lit "DebugMetrics") true 1 false 1 no_handler;
  mkMethod (lit "GetState") true 1 false 2 no_handler;
  mkMethod (lit "PersistBytes") true 1 false 1 no_handler;
  mkMethod (lit "RequestVote") true 3 true 0 (handler RequestVote i);
  mkMethod (lit "Snapshot") true 3 false 0 no_handler;
  mkMethod (lit "Start") true 2 false 3 no_handler
].

Definition raft_table (i : nat) : gmap bytes (method machine) := methods (MakeService (lit "Raft") (raft_methods i)).

(** ** The outer loop *)

(** The files of a node: those that its [raft_state.bin] has had, and those of its
    engine. *)
Record node_dir := mkDir { raft_state : list bytes; lsm_files : files }.

Record process := mkProcess {
  p_net : Network;
  p_peers : list (list (option nat));
  p_rafts : list Raft;
  p_stores : list (KVStore lsm Raft)
}.

Definition boot_node (clocks : nat -> Env) (compaction : bool) (dirs : list node_dir) (servers : list nat) (i : nat) (p : process) : option process :=
  dir ← dirs !! i;
  x ← connect_peers i (p_net p);
  rf ← Make (clocks i) true (length (fst x)) (Z.of_nat i) (MakePersister (raft_state dir));
  rn ← register raft_table servers i (snd x);
  kv ← NewStore compaction (lsm_files dir) rf;
  Some (mkProcess rn (p_peers p ++ [fst x]) (p_rafts p ++ [rf]) (p_stores p ++ [kv])).

(** [main] up to [StartGateway]; [env] is the value of [ENABLE_COMPACTION], [clocks i] what
    [Make] reads for node [i]. *)
Definition main (clocks : nat -> Env) (env : bytes) (dirs : list node_dir) : option process :=
  st ← loop add_server (seq 0 serverCount) ([], MakeNetwork);
  loop (boot_node clocks (enableCompactionFromEnv env) dirs (fst st)) (seq 0 serverCount) (mkProcess (snd st) [] [] []).

(** ** What the wiring gives *)

Lemma boot_loop_wires clocks compaction dirs servers l p p' :
  loop (boot_node clocks compaction dirs servers) l p = Some p' ->
  loop (wire_node raft_table servers) l (p_peers p, p_net p) = Some (p_peers p', p_net p').
Proof.
  revert p. induction l as [|i l IH]; intros p; cbn [loop]; [by intros [= ->]|].
  intros (q & Hq & Hl)%bind_Some. unfold boot_node in Hq.
  apply bind_Some in Hq as (dir & _ & (x & Hx & (rf & _ & (rn & Hn & (kv & _ & [= <-])%bind_Some)%bind_Some)%bind_Some)%bind_Some).
  apply bind_Some. exists (p_peers p ++ [x.1], rn). split; [|exact (IH _ Hl)].
  unfold wire_node. cbn [fst snd]. by rewrite Hx; cbn [mbind option_bind]; rewrite Hn.
Qed.

Lemma main_wired clocks env dirs p : main clocks env dirs = Some p -> wired raft_table = Some (p_peers p, p_net p).
Proof.
  unfold main, wired. intros (st & -> & Hl)%bind_Some. exact (boot_loop_wires _ _ _ _ _ _ _ Hl).
Qed.
End Main.
