(* ===== verification/NetTheorems.v ===== *)
(** * Properties of the RPC network, of the program's wiring, and of labgob

    A request is executed at most once; the nodes that [main] starts reach each other's
    handlers, and a call before the callee is registered ends the process; the
    checked encoding round trips. *)
From S2P Require Import Labgob ClusterRuns StoreLsm.
From S2P Require Import Main.
From S2P Require Import LabrpcSpec.

(** ** Codecs for concrete runs *)

#[export] Instance RequestVoteArgs_eq_dec : EqDecision RequestVoteArgs.
Proof. solve_decision. Defined.
#[export] Instance RequestVoteReply_eq_dec : EqDecision RequestVoteReply.
Proof. solve_decision. Defined.
#[export] Instance AppendEntriesArgs_eq_dec : EqDecision (AppendEntriesArgs Op).
Proof. solve_decision. Defined.
#[export] Instance AppendEntriesReply_eq_dec : EqDecision AppendEntriesReply.
Proof. solve_decision. Defined.

#[export] Instance RequestVoteArgs_countable : Countable RequestVoteArgs.
Proof.
  refine (inj_countable' (fun a => (rv_Term a, CandidateId a, LastLogIndex a, LastLogTerm a))
    (fun p => mkRVArgs p.1.1.1 p.1.1.2 p.1.2 p.2) _). by intros [].
Defined.
#[export] Instance RequestVoteReply_countable : Countable RequestVoteReply.
Proof. refine (inj_countable' (fun a => (rvr_Term a, VoteGranted a)) (fun p => mkRVReply p.1 p.2) _). by intros []. Defined.
#[export] Instance AppendEntriesArgs_countable : Countable (AppendEntriesArgs Op).
Proof.
  refine (inj_countable' (fun a => (ae_Term a, LeaderID a, PrevLogIndex a, PrevLogTerm a, Entries a, LeaderCommit a))
    (fun p => mkAEArgs p.1.1.1.1.1 p.1.1.1.1.2 p.1.1.1.2 p.1.1.2 p.1.2 p.2) _). by intros [].
Defined.
#[export] Instance AppendEntriesReply_countable : Countable AppendEntriesReply.
Proof.
  refine (inj_countable' (fun a => (aer_Term a, Success a, XTerm a, XIndex a, XLen a))
    (fun p => mkAEReply p.1.1.1.1 p.1.1.1.2 p.1.1.2 p.1.2 p.2) _). by intros [].
Defined.

(** ** Calls *)

(** The life of a call to the end: it is sent, started, executed and answered. *)
Definition call_events {W} (e : nat) (m a : bytes) (k : nat) (d d1 d2 : Z) : list (Labrpc.event W) :=
  [ECall e m a true; EStart k d; EExecute k; EFinish k d1 d2].

(** C14. In any run of the network, with losses, delays, servers that are deleted or
    replaced and client ends that are disabled, the handler of each request runs at
    most once; a caller is told that its call succeeded only with the very reply
    of that handler, which ran on the server that the caller's end was connected to
    when the request was looked at; and what the caller was told never changes. *)
Theorem rpc_at_most_once {W} (w : W) rn es (s : Labrpc.system W) :
  Labrpc.run es (Labrpc.init w rn) = Some s ->
  NoDup (executed es) /\
  (forall k b, Labrpc.answer k s = Some (mkReply true b) ->
     exists q, req <$> requests s !! k = Some q /\ served k q (mkReply true b) es (Labrpc.init w rn)) /\
  (forall es' s' k a, Labrpc.run es' s = Some s' -> Labrpc.answer k s = Some a -> Labrpc.answer k s' = Some a).
Proof.
  intros Hr. destruct (run_tracks w rn es s Hr) as [_ Hnd _ Ht]. split; [done|]. split; [|eauto using run_answer].
  intros k b Ha. unfold Labrpc.answer in Ha. apply bind_Some in Ha as (r & Hk & Ha). exists (req r).
  split; [by rewrite Hk|]. apply (tr_reply _ _ _ _ (Ht k r Hk)); [|done]. by destruct (at_stage r); simplify_eq/=.
Qed.

Section Wiring.
Context `{GobLaws (Z * Z * list (LogEntry Op)), GobLaws RequestVoteArgs, GobLaws RequestVoteReply,
          GobLaws (AppendEntriesArgs Op), GobLaws AppendEntriesReply}.

(** What a server does with a call of a method of [Raft]. *)
Lemma raft_dispatch {A R} `{GobLaws A, Gob R} (f : Env -> A -> Raft (Cmd := Op) -> option (R * Raft)) name j w rf a res :
  split_last_dot (lit "Raft." ++ name) = Some (lit "Raft", name) ->
  raft_table j !! name = Some (handler f j) -> objs w !! j = Some rf -> f (outside w) a rf = Some res ->
  srv_dispatch (AddService (mkService (lit "Raft") (raft_table j)) MakeServer) (lit "Raft." ++ name) (gob_encode a) w =
    Some (mkReply true (gob_encode res.1), set_obj j res.2 w).
Proof.
  intros Hdot Ht Hw Hf. unfold srv_dispatch. rewrite Hdot. cbn [mbind option_bind fst snd AddService dispatchf MakeServer services].
  rewrite lookup_insert, decide_True by done. cbn [mbind option_bind]. unfold svc_dispatch. cbn [methods].
  apply bind_Some. exists (handler f j). split; [exact Ht|]. unfold handler. rewrite gob_decode_encode. cbn [mbind option_bind]. rewrite Hw.
  cbn [mbind option_bind]. by rewrite Hf.
Qed.

Lemma wired_call st i j m a w rep (w' : machine) d d1 d2 :
  wired raft_table = Some st -> (i < serverCount)%nat -> (j < serverCount)%nat -> i <> j ->
  srv_dispatch (AddService (mkService (lit "Raft") (raft_table j)) MakeServer) m a w = Some (rep, w') ->
  exists e s, st.1 !! i ≫= (.!! j) = Some (Some e) /\
    Labrpc.run (call_events e m a 0 d d1 d2) (Labrpc.init w st.2) = Some s /\
    world s = w' /\ Labrpc.answer 0 s = Some rep.
Proof.
  intros Hst Hi Hj Hij Hd. pose proof (wired_link _ i j st Hst Hi Hj Hij) as Hl.
  destruct (wired_flags _ st Hst) as (Hrel & Hlr & Hli). unfold link in Hl.
  destruct (st.1 !! i ≫= (.!! j)) as [[e|]|]; [|done..]. cbn [mbind option_bind] in Hl.
  destruct (end_heap st.2 !! e) as [[n hook]|] eqn:He; [|done]. cbn [mbind option_bind ce_endname callf] in Hl.
  injection Hl as -> -> Hen Hc Hs.
  destruct (reliable_call e (clientName i j) m a (serverName j) j _ rep w' (Labrpc.init w st.2) d d1 d2 Hli Hrel Hlr He
              (conj Hen (conj Hc Hs)) (wired_server _ j st Hst Hj) Hd) as (s & Hrun & Hw & Hrq).
  exists e, s. split_and!; [done|exact Hrun|exact Hw|]. unfold Labrpc.answer. by rewrite Hrq.
Qed.

(** In the process that [main] starts, every node has a client end for every other
    node; a call of [Raft.AppendEntries] or [Raft.RequestVote] through it runs the
    handler on that node's Raft object, and only there, and brings the handler's
    reply back. *)
Theorem peers_can_call clocks env dirs p i j w rf d d1 d2 :
  main clocks env dirs = Some p -> (i < serverCount)%nat -> (j < serverCount)%nat -> i <> j -> objs w !! j = Some rf ->
  (forall a res, AppendEntries (outside w) a rf = Some res ->
     exists e s, p_peers p !! i ≫= (.!! j) = Some (Some e) /\
       Labrpc.run (call_events e (lit "Raft.AppendEntries") (gob_encode a) 0 d d1 d2) (Labrpc.init w (p_net p)) = Some s /\
       world s = set_obj j res.2 w /\ Labrpc.answer 0 s = Some (mkReply true (gob_encode res.1))) /\
  (forall a res, RequestVote (outside w) a rf = Some res ->
     exists e s, p_peers p !! i ≫= (.!! j) = Some (Some e) /\
       Labrpc.run (call_events e (lit "Raft.RequestVote") (gob_encode a) 0 d d1 d2) (Labrpc.init w (p_net p)) = Some s /\
       world s = set_obj j res.2 w /\ Labrpc.answer 0 s = Some (mkReply true (gob_encode res.1))).
Proof.
  intros Hst%main_wired Hi Hj Hij Hw. split; intros a res Hres; apply (wired_call _ i j _ _ w _ _ d d1 d2 Hst Hi Hj Hij).
  - by apply (raft_dispatch AppendEntries (lit "AppendEntries") j w rf).
  - by apply (raft_dispatch RequestVote (lit "RequestVote") j w rf).
Qed.

(** While [main] has registered only the Raft object of node 0, whose ticker already
    runs, a call from it to node 1 finds no service there and ends the process. *)
Lemma early_call_ends_process clocks compaction dirs st p w a d :
  loop add_server (seq 0 serverCount) ([], MakeNetwork) = Some st ->
  boot_node clocks compaction dirs st.1 0 (mkProcess st.2 [] [] []) = Some p ->
  exists e s, p_peers p !! 0%nat ≫= (.!! 1%nat) = Some (Some e) /\
    Labrpc.run [ECall e (lit "Raft.RequestVote") a true; EStart 0 d] (Labrpc.init w (p_net p)) = Some s /\
    Labrpc.step (EExecute 0) s = None.
Proof.
  intros Hst Hp.
  assert (Hw : wire_node raft_table st.1 0 ([], st.2) = Some (p_peers p, p_net p)).
  { pose proof (boot_loop_wires clocks compaction dirs st.1 [0%nat] (mkProcess st.2 [] [] []) p) as Hl.
    cbn [loop p_peers p_net] in Hl. rewrite Hp in Hl. specialize (Hl eq_refl).
    apply bind_Some in Hl as (y & Hy & [= ->]). exact Hy. }
  exact (early_call _ a w d st _ Hst Hw).
Qed.
End Wiring.

(** ** labgob *)

(** C32. A value that gob can transmit arrives: [Marshall] and [Unmarshall] end, also when
    its type is recursive, and give the value back.  On the way the types of the
    value and of the target and all that they lead to are checked, each once, and one
    warning is counted for every lower-case field of a newly checked struct and for
    every value of the target, at most three levels deep, that was not zero. *)
Theorem marshall_roundtrip {V Err Enc Dec Reg} `{GobApi V Err Enc Dec Reg} types (v r : V) tv tr st :
  closed_types types -> TypeOf v = Some tv -> tv ∈ dom types -> TypeOf r = Some tr -> tr ∈ dom types -> codes v r ->
  exists b st1 st2 new, Marshall types v st = Some (b, st1) /\ Unmarshall types b r st1 = Some (v, st2) /\
    NoDup new /\ checked st2 = list_to_set new ∪ checked st /\ Forall (fun u => u ∉ checked st) new /\
    Forall (fun u => Forall (fun w => w ∈ checked st2) (mentions types u)) new /\ tv ∈ checked st2 /\ tr ∈ checked st2 /\
    errorCount st2 = errorCount st + warnings types new + nondefault r.
Proof.
  intros Hc Htv Hdv Htr Hdr (b & g & g' & He & Hd).
  destruct (checkValue_spec types v tv st Hc Htv Hdv) as (st1 & new1 & Hr1 & H1 & Hin1).
  destruct (checkValue_spec types r tr st1 Hc Htr Hdr) as (st2 & new2 & Hr2 & H2 & Hin2).
  pose proof (checkDefault_spec r st2) as [Hch Hec].
  pose proof (extends_trans types _ _ _ _ _ _ _ H1 H2) as [Hnd Hf Hm Hcs Hw].
  exists b, st1, (checkDefault (ValueOf r) st2), (new1 ++ new2). rewrite Hch, Hec. split_and!; try done; [| | | |lia].
  - unfold Marshall, Encode. rewrite Hr1. cbn [mbind option_bind NewEncoder enc_gob enc_out]. by rewrite He.
  - unfold Unmarshall, Decode. rewrite Hr2. cbn [mbind option_bind NewDecoder dec_gob dec_in]. by rewrite Hd.
  - eapply Forall_impl; [exact Hf|]. by intros u [? _].
  - exact (extends_mono types _ _ _ _ _ H2 Hin1).
Qed.

(** ** Witnesses *)

(** An object that appends what it is sent and answers with its length. *)
Definition push : method (list bytes) := fun a w => Some ([Byte.x2b], w ++ [a]).

(** One server [s] with a service [L], and one client end that is connected to it. *)
Definition small_net : option (Labrpc.Network (list bytes)) :=
  rn ← on_server (AddService (MakeService (lit "L") [mkMethod (lit "Push") true 3 true 0 push])) 0 (snd (new_server MakeNetwork));
  x ← MakeEnd (lit "c") (AddServer (lit "s") 0 rn);
  Some (Reliable false (Enable (lit "c") true (Connect (lit "c") (lit "s") (snd x)))).

(** A call that succeeds, one whose reply is lost, and one whose server is deleted
    before its handler runs. *)
Definition small_run : list (Labrpc.event (list bytes)) :=
  call_events 0 (lit "L.Push") (lit "a") 0 500 500 0 ++ call_events 0 (lit "L.Push") (lit "b") 1 500 7 0 ++
  [ECall 0 (lit "L.Push") (lit "d") true; EStart 2 500; EConfig (CDeleteServer (lit "s")); EPoll 2; EExecute 2].

Lemma rpc_at_most_once_witness :
  exists rn s, Labrpc.run small_run (Labrpc.init [] rn) = Some s /\ world s = [lit "a"; lit "b"; lit "d"] /\
    (fun k => Labrpc.answer k s) <$> [0; 1; 2]%nat = [Some (mkReply true (lit "+")); Some no_reply; Some no_reply] /\
    NoDup (executed small_run) /\
    exists q, req <$> requests s !! 0%nat = Some q /\ served 0 q (mkReply true (lit "+")) small_run (Labrpc.init [] rn).
Proof.
  assert (Hc : (rn ← small_net; s ← Labrpc.run small_run (Labrpc.init [] rn);
                Some (world s, (fun k => Labrpc.answer k s) <$> [0; 1; 2]%nat)) =
               Some ([lit "a"; lit "b"; lit "d"], [Some (mkReply true (lit "+")); Some no_reply; Some no_reply])).
  { vm_compute. reflexivity. }
  apply bind_Some in Hc as (rn & _ & (s & Hr & Hc)%bind_Some). exists rn, s.
  destruct (rpc_at_most_once [] rn small_run s Hr) as (Hnd & Hok & _).
  injection Hc as Hw H0 H1 H2. split_and!; [exact Hr|exact Hw| |exact Hnd|exact (Hok 0%nat _ H0)].
  cbn [fmap list_fmap]. by rewrite H0, H1, H2.
Defined.

(** A type of records with a pointer to themselves and a lower-case field. *)
Definition list_type : gmap nat gotype :=
  {[0%nat := TStruct [(lit "Value", 2%nat); (lit "next", 1%nat)]; 1%nat := TElem 0; 2%nat := TOther]}.

(** Pointers to such records, by the number in the field [Value]; gob writes it in unary. *)
#[local] Instance list_gob : GobApi nat unit unit unit unit := {
  gob_NewEncoder := tt; gob_NewDecoder := tt;
  gob_Encode v _ := (replicate v Byte.x01, None, tt);
  gob_EncodeValue v _ := (replicate v Byte.x01, None, tt);
  gob_Decode _ _ b := (length b, None, tt, []);
  gob_Register _ _ := Some tt; gob_RegisterName _ _ _ := Some tt;
  TypeOf _ := Some 1%nat;
  ValueOf v := Some (VPtr (Some (VStruct [VBasic (Nat.eqb v 0); VPtr None])))
}.

Lemma list_type_closed : closed_types list_type.
Proof.
  assert (Hd : Forall (fun t => t ∈ dom list_type) [0; 1; 2]%nat) by (repeat constructor; unfold list_type; set_solver).
  assert (Hn : forall t, list_type !! (S (S (S t))) = None).
  { intros t. unfold list_type. by rewrite !lookup_insert_ne, lookup_singleton_ne by lia. }
  intros [|[|[|t]]]; [| | |unfold mentions; rewrite Hn; apply Forall_nil_2]; rewrite !Forall_cons in Hd; destruct Hd as (H0 & H1 & H2 & _); repeat (apply Forall_cons_2; [assumption|]); apply Forall_nil_2.
Qed.

(** The field [next] and the old value 5 of the target are warned about. *)
Lemma marshall_roundtrip_witness :
  exists b st1 st2, Marshall list_type 3%nat (mkLabgob ∅ 0) = Some (b, st1) /\
    Unmarshall list_type b 5%nat st1 = Some (3%nat, st2) /\ 0%nat ∈ checked st2 /\ errorCount st2 = 2.
Proof.
  assert (Hd : 1%nat ∈ dom list_type) by (unfold list_type; set_solver).
  destruct (marshall_roundtrip (Err := unit) (Enc := unit) (Dec := unit) (Reg := unit) list_type 3%nat 5%nat 1 1 (mkLabgob ∅ 0) list_type_closed)
    as (b & st1 & st2 & new & Hm & Hu & _ & Hch & Hnew & Hall & Hin & _);
    [reflexivity|exact Hd|reflexivity|exact Hd|by eexists _, tt, tt|].
  exists b, st1, st2. split; [exact Hm|]. split; [exact Hu|].
  assert (Hin0 : 1%nat ∈ new) by (rewrite Hch in Hin; set_solver).
  rewrite Forall_forall in Hall. specialize (Hall 1%nat Hin0). apply Forall_inv in Hall. split; [exact Hall|].
  assert (He : errorCount <$> (r ← Marshall list_type 3%nat (mkLabgob ∅ 0); snd <$> Unmarshall list_type (fst r) 5%nat (snd r)) = Some 2)
    by by vm_compute.
  rewrite Hm in He. cbn [mbind option_bind fst snd] in He. rewrite Hu in He. by injection He.
Defined.

(** Three empty directories, and a clock that stands still. *)
Definition three_dirs : list node_dir := replicate 3 (mkDir [] ∅).
Definition still (i : nat) : Env := clock.

Definition first_heartbeat : AppendEntriesArgs Op := mkAEArgs 1 0 0 0 [] 0.
Definition first_vote : RequestVoteArgs := mkRVArgs 1 0 0 0.

Lemma peers_can_call_witness :
  exists (p : process) (rf : Raft (Cmd := Op)) res e s, main still [] three_dirs = Some p /\ p_rafts p !! 1%nat = Some rf /\
    RequestVote (Cmd := Op) clock first_vote rf = Some res /\ p_peers p !! 0%nat ≫= (.!! 1%nat) = Some (Some e) /\
    Labrpc.run (call_events e (lit "Raft.RequestVote") (gob_encode first_vote) 0 0 0 0)
      (Labrpc.init (mkMachine (p_rafts p) clock) (p_net p)) = Some s /\
    objs (world s) = <[1%nat := res.2]> (p_rafts p) /\ Labrpc.answer 0 s = Some (mkReply true (gob_encode (mkRVReply 1 true))).
Proof.
  assert (Hc : (p ← main still [] three_dirs; rf ← p_rafts p !! 1%nat; res ← RequestVote (Cmd := Op) clock first_vote rf; Some res.1) =
               Some (mkRVReply 1 true)).
  { vm_compute. reflexivity. }
  apply bind_Some in Hc as (p & Hp & (rf & Hrf & (res & Hres & Hc)%bind_Some)%bind_Some).
  destruct (peers_can_call still [] three_dirs p 0 1 (mkMachine (p_rafts p) clock) rf 0 0 0 Hp ltac:(unfold serverCount; lia)
              ltac:(unfold serverCount; lia) ltac:(lia) Hrf) as [_ Hv].
  destruct (Hv first_vote res Hres) as (e & s & He & Hr & Hw & Ha). injection Hc as Hc.
  exists p, rf, res, e, s. split_and!; try assumption; [by rewrite Hw|by rewrite Ha, Hc].
Defined.
