(* ===== verification/Process.v ===== *)
(** * The running process

    The three nodes that [main] started, over the network of [labrpc]: the sections of
    the Raft objects, the goroutines that call other nodes, and the requests in the
    network are interleaved; a kill ends them all, and the next process starts from
    the files.  A kill may come inside a write of a state file, and a write may fail. *)
From S2P Require Import Store.
From S2P Require Import Main.
From S2P Require Import LabrpcSpec.
From S2P Require Export Cluster.

Section Running.
Context `{Gob (Z * Z * list (LogEntry Op)), Gob RequestVoteArgs, Gob RequestVoteReply,
          Gob (AppendEntriesArgs Op), Gob AppendEntriesReply}.
#[local] Abbreviation Raft := (Raft (Cmd := Op)).

(** ** State *)

(** A goroutine that calls a peer: what it sends, and whether it has not called yet,
    waits for the answer of a request, or has handled it. *)
Inductive outgoing :=
  | OVote (args : RequestVoteArgs)
  | OAppend (args : AppendEntriesArgs Op).

Inductive waiting :=
  | Calling
  | Waits (k : nat)
  | Finished (k : nat).

Record goroutine := mkGo { g_caller : nat; g_callee : nat; g_out : outgoing; g_at : waiting }.

(** The Raft objects are the world of the network; [r_sent]: the messages that each of
    them has sent on its [applyCh]. *)
Record running := mkRunning {
  r_sys : system machine;
  r_peers : list (list (option nat));
  r_sent : list (list (ApplyMsg Op));
  r_gos : list goroutine
}.

(** Every event of the network says what its handler reads from outside, so that [start_env]
    is not read. *)
Definition start_env : Env := mkEnv 0 0 0 (fun _ => Written).

Definition running_of (p : process) : running :=
  mkRunning (Labrpc.init (mkMachine (p_rafts p) start_env) (p_net p)) (p_peers p) (replicate (length (p_rafts p)) []) [].

Definition rafts (s : running) : list Raft := objs (world (r_sys s)).

Definition raft_of (s : running) (i : nat) : option Raft := rafts s !! i.

(** The object of node [i] changes, messages go to its store, and goroutines start. *)
Definition set_node (i : nat) (rf : Raft) (msgs : list (ApplyMsg Op)) (gos : list goroutine) (s : running) : running :=
  mkRunning (mkSystem (Labrpc.net (r_sys s)) (set_obj i rf (world (r_sys s))) (requests (r_sys s))) (r_peers s)
    (alter (fun l => l ++ msgs) i (r_sent s)) (r_gos s ++ gos).

Definition set_go (g : nat) (go : goroutine) (at_ : waiting) (sys : system machine) (s : running) : running :=
  mkRunning sys (r_peers s) (r_sent s) (<[g := mkGo (g_caller go) (g_callee go) (g_out go) at_]> (r_gos s)).

(** ** Steps

    A replication goroutine is not tracked between its calls: a leader's may take a turn
    at any time, which covers the loop in [broadcastHeartbeats], the heartbeats and the
    round after an election.  So may the tickers, the apply loops and the clients. *)

Inductive pevent :=
  | PTick (i : nat) (env : Env)
  | PForce (i : nat) (env : Env)
  | PClient (i : nat) (env : Env) (cmd : Op)
  | PApply (i : nat)
  | PSend (i j : nat)              (** a turn of a replication goroutine builds its call *)
  | PCall (g : nat)                (** a goroutine calls its peer *)
  | PNet (e : Labrpc.event machine) (env : Env)  (** the network moves a request *)
  | PTake (g : nat) (env : Env).   (** the answer reaches the goroutine *)

(** The goroutines of a new candidate. *)
Definition vote_gos (i : nat) (args : RequestVoteArgs) (s : running) : list goroutine :=
  (fun j => mkGo i j (OVote args) Calling) <$> others (length (rafts s)) i.

Definition p_tick (i : nat) (env : Env) (s : running) : option running :=
  rf ← raft_of s i;
  res ← ticker_turn env rf;
  Some (set_node i (snd res) [] (match fst res with Some args => vote_gos i args s | None => [] end) s).

(** A request of the gateway that forces an election. *)
Definition p_force (i : nat) (env : Env) (s : running) : option running :=
  rf ← raft_of s i;
  res ← DebugForceElection env rf;
  Some (set_node i (snd res) [] (vote_gos i (fst res) s) s).

(** A request of the gateway that starts a command. *)
Definition p_client (i : nat) (env : Env) (cmd : Op) (s : running) : option running :=
  rf ← raft_of s i;
  res ← Start env cmd rf;
  Some (set_node i (snd res) [] [] s).

Definition p_apply (i : nat) (s : running) : option running :=
  rf ← raft_of s i;
  res ← applyLoop_turn rf;
  Some (set_node i (snd res) (fst res) [] s).

Definition p_send (i j : nat) (s : running) : option running :=
  rf ← raft_of s i;
  if bool_decide (i <> j /\ (j < length (rafts s))%nat) then
    args ← buildAppendEntries (Z.of_nat j) rf;
    Some (match args with
          | Some args => set_node i rf [] [mkGo i j (OAppend args) Calling] s
          | None => s
          end)
  else None.

(** [sendRequestVote] and [sendAppendEntries] *)
Definition go_method (o : outgoing) : bytes :=
  match o with OVote _ => lit "Raft.RequestVote" | OAppend _ => lit "Raft.AppendEntries" end.
Definition go_args (o : outgoing) : bytes :=
  match o with OVote args => gob_encode args | OAppend args => gob_encode args end.

Definition p_call (g : nat) (s : running) : option running :=
  go ← r_gos s !! g;
  match g_at go with
  | Calling =>
      e ← r_peers s !! g_caller go ≫= (.!! g_callee go);
      e ← e;
      x ← Call e (go_method (g_out go)) (go_args (g_out go)) true (r_sys s);
      match fst x with
      | None => Some (set_go g go (Waits (length (requests (r_sys s)))) (snd x) s)
      | Some _ => None
      end
  | _ => None
  end.

(** What [processReq] and its goroutines and timers do with a request. *)
Definition moves_request (e : Labrpc.event machine) : bool :=
  match e with
  | EStart _ _ | EExecute _ | EPoll _ | EFinish _ _ _ | ETimer _ => true
  | ECall _ _ _ _ | EConfig _ => false
  end.

Definition see (env : Env) (sys : system machine) : system machine :=
  mkSystem (Labrpc.net sys) (mkMachine (objs (world sys)) env) (requests sys).

Definition p_net_step (e : Labrpc.event machine) (env : Env) (s : running) : option running :=
  if moves_request e then
    sys ← Labrpc.step e (see env (r_sys s));
    Some (mkRunning sys (r_peers s) (r_sent s) (r_gos s))
  else None.

(** [Unmarshall] ends the process when the bytes are no reply. *)
Definition take_answer (go : goroutine) (env : Env) (rep : replyMsg) (rf : Raft) : option Raft :=
  match g_out go with
  | OVote args =>
      if ok rep then reply ← gob_decode (reply rep); fst <$> handleVoteReply env args reply rf else Some rf
  | OAppend args =>
      if ok rep then reply ← gob_decode (reply rep); fst <$> handleAppendReply env (Z.of_nat (g_callee go)) args (Some reply) rf
      else fst <$> handleAppendReply env (Z.of_nat (g_callee go)) args None rf
  end.

Definition p_take (g : nat) (env : Env) (s : running) : option running :=
  go ← r_gos s !! g;
  match g_at go with
  | Waits k =>
      rep ← Labrpc.answer k (r_sys s);
      rf ← raft_of s (g_caller go);
      rf ← take_answer go env rep rf;
      Some (set_node (g_caller go) rf [] [] (set_go g go (Finished k) (r_sys s) s))
  | _ => None
  end.

(** A section that runs to its end, with all its writes. [None]: not enabled, or a panic. *)
Definition section (e : pevent) (s : running) : option running :=
  match e with
  | PTick i env => p_tick i env s
  | PForce i env => p_force i env s
  | PClient i env cmd => p_client i env cmd s
  | PApply i => p_apply i s
  | PSend i j => p_send i j s
  | PCall g => p_call g s
  | PNet e env => p_net_step e env s
  | PTake g env => p_take g env s
  end.

(** A request of the gateway in which [Save] panics: [gin.Recovery] recovers it, and the
    process goes on with the object that it left. *)
Definition recover_request (e : pevent) (s : running) : option running :=
  match e with
  | PForce i env =>
      rf ← raft_of s i; rf ← recovered (Force i env) rf; Some (set_node i rf [] [] s)
  | PClient i env cmd =>
      rf ← raft_of s i; rf ← recovered (Client i env cmd) rf; Some (set_node i rf [] [] s)
  | _ => None
  end.

(** [None]: not enabled, or the process ends with a panic or [log.Fatalf]. *)
Definition pstep (e : pevent) (s : running) : option running :=
  match section e s with Some s' => Some s' | None => recover_request e s end.

Fixpoint prun (es : list pevent) (s : running) : option running :=
  match es with
  | [] => Some s
  | e :: es => s ← pstep e s; prun es s
  end.

(** The goroutine, the node or the request is where the event takes it on. *)
Definition stage_ready (e : Labrpc.event machine) (st : stage) : bool :=
  match e, st with
  | EStart _ _, Sent | EExecute _, Running _ _ _ | EExecute _, Labrpc.Done _ (Some _)
  | EPoll _, Running _ _ _ | EPoll _, Ran _ _ _ _ | EFinish _ _ _, Ran _ _ _ _ | ETimer _, Delayed _ => true
  | _, _ => false
  end.

Definition request_of (e : Labrpc.event machine) : option nat :=
  match e with
  | EStart k _ | EExecute k | EPoll k | EFinish k _ _ | ETimer k => Some k
  | ECall _ _ _ _ | EConfig _ => None
  end.

Definition ready (e : pevent) (s : running) : bool :=
  match e with
  | PTick i _ | PForce i _ | PClient i _ _ | PApply i => bool_decide (is_Some (raft_of s i))
  | PSend i j => bool_decide (is_Some (raft_of s i) /\ is_Some (raft_of s j) /\ i <> j)
  | PCall g => match g_at <$> r_gos s !! g with Some Calling => true | _ => false end
  | PNet e _ =>
      match (k ← request_of e; requests (r_sys s) !! k) with Some r => stage_ready e (at_stage r) | None => false end
  | PTake g _ =>
      match g_at <$> r_gos s !! g with Some (Waits k) => bool_decide (is_Some (Labrpc.answer k (r_sys s))) | _ => false end
  end.

(** The writes of the state file that the event makes succeed. *)
Definition calm (e : pevent) : Prop :=
  match e with
  | PTick _ env | PForce _ env | PClient _ env _ | PNet _ env | PTake _ env => saves env
  | PApply _ | PSend _ _ | PCall _ => True
  end.

(** The event is a request of the gateway, whose panics are recovered. *)
Definition by_gateway (e : pevent) : Prop :=
  match e with PForce _ _ | PClient _ _ _ => True | _ => False end.

(** ** Lives

    A kill leaves the files of the Raft objects; of a node that is inside a section of a
    handler, the file with the first [m] of the section's writes; and, when it comes inside
    the next write, with the first [n] bytes of this write, behind the truncation.  The
    process also leaves this when it ends by a write that fails.  [faulty]: writes may be cut
    short or fail. *)

Inductive stops (faulty : bool) (s : running) (i : nat) : list bytes -> Prop :=
  | stops_idle rf : raft_of s i = Some rf -> stops faulty s i (file (persister rf))
  | stops_inside e s1 rf rf' m :
      section e s = Some s1 -> raft_of s i = Some rf -> raft_of s1 i = Some rf' -> stops faulty s i (halted rf rf' m)
  | stops_torn e s1 rf rf' m n f :
      faulty = true -> section e s = Some s1 -> raft_of s i = Some rf -> raft_of s1 i = Some rf' ->
      torn rf rf' m n = Some f -> stops faulty s i f.

Definition killed (faulty : bool) (s : running) (files : list (list bytes)) : Prop :=
  length files = length (rafts s) /\ forall i f, files !! i = Some f -> stops faulty s i f.

(** [main] has started on these files of the Raft objects, whatever the engines hold. *)
Definition booted (files : list (list bytes)) (s : running) : Prop :=
  exists clocks env dirs p, main clocks env dirs = Some p /\ raft_state <$> dirs = files /\ s = running_of p.

(** A step after which a node leads that did not: it knows of no stored entries, in its
    [matchIndex]. *)
Definition fresh_election (s s' : running) : Prop :=
  forall i rf rf', raft_of s i = Some rf -> raft_of s' i = Some rf' ->
    state rf <> StateLeader -> state rf' = StateLeader -> Forall (fun m => m = 0) (matchIndex rf').

(** The process runs with steps that satisfy [ok], is killed, and the next one starts. *)
Inductive later (faulty : bool) (ok : running -> running -> Prop) (s : running) : running -> Prop :=
  | later_now : later faulty ok s s
  | later_step s1 e s2 :
      later faulty ok s s1 -> pstep e s1 = Some s2 -> faulty = true \/ section e s1 = Some s2 -> ok s1 s2 ->
      later faulty ok s s2
  | later_kill s1 files s2 :
      later faulty ok s s1 -> killed faulty s1 files -> booted files s2 -> later faulty ok s s2.

Definition lived (faulty : bool) (ok : running -> running -> Prop) (s : running) : Prop :=
  exists s0, booted (replicate serverCount []) s0 /\ later faulty ok s0 s.
End Running.
