(* ===== verification/ProcessSim.v ===== *)
(** * The process refines the cluster

    Every step of the running process is a step of [Cluster], or none: the request of
    a goroutine is a call in flight, its handler's run a delivery, its answer a return
    or a failure.  Calls that nobody waits for any more may stay in the cluster. *)
From S2P Require Export Process.
From S2P Require Import Store.
From S2P Require Import Main.
From S2P Require Import LabrpcSpec.
From S2P Require Import ClusterSafety.

(** ** Some of a list *)

Lemma omap_insert {A} (rs : list (option A)) g x y :
  rs !! g = Some x -> omap id (<[g := y]> rs) ≡ₚ (match y with Some r => [r] | None => [] end) ++ omap id (delete g rs).
Proof.
  intros Hg. pose proof (lookup_lt_Some _ _ _ Hg) as Hlt. rewrite insert_take_drop, delete_take_drop by done.
  rewrite !omap_app. destruct y as [r|]; [|done]. simpl. by rewrite Permutation_middle.
Qed.

Lemma remove_permutation {A} (l : list A) m r : l !! m = Some r -> l ≡ₚ r :: remove m l.
Proof. intros Hm. rewrite <- (take_drop_middle l m r Hm) at 1. unfold remove. by rewrite Permutation_middle. Qed.

Lemma insert_permutation {A} (l : list A) m r r' : l !! m = Some r -> <[m := r']> l ≡ₚ r' :: remove m l.
Proof.
  intros Hm. pose proof (lookup_lt_Some _ _ _ Hm). rewrite insert_take_drop by done. unfold remove. by rewrite Permutation_middle.
Qed.

Lemma omap_somes {A} (l : list A) : omap id (Some <$> l) = l.
Proof. induction l as [|x l IH]; [done|]. simpl. by f_equal. Qed.

(** An element of the list that the rest follows. *)
Lemma follow_one {A} (rs : list (option A)) (l : list A) g r :
  omap id rs ⊆+ l -> rs !! g = Some (Some r) -> exists m, l !! m = Some r /\
    (forall y r', y = None \/ y = Some r' -> omap id (<[g := y]> rs) ⊆+ <[m := r']> l) /\ omap id (<[g := None]> rs) ⊆+ remove m l.
Proof.
  intros Hs Hg. assert (Hin : r ∈ l).
  { eapply elem_of_submseteq; [|exact Hs]. apply list_elem_of_omap. exists (Some r). split; [by eapply list_elem_of_lookup_2|done]. }
  apply list_elem_of_lookup_1 in Hin as [m Hm]. exists m. split; [done|].
  assert (Hrest : omap id (delete g rs) ⊆+ remove m l).
  { rewrite <- (list_insert_id rs g (Some r)), (omap_insert rs g (Some r)), (remove_permutation l m r) in Hs by done.
    by apply (submseteq_app_inv_l _ _ [r]). }
  split.
  - intros y r' Hy. rewrite (omap_insert rs g (Some r)), (insert_permutation l m r) by done.
    destruct Hy as [->| ->]; cbn [app]; [by apply submseteq_cons|by apply submseteq_skip].
  - by rewrite (omap_insert rs g (Some r)).
Qed.

Section Sim.
Context `{GobLaws (Z * Z * list (LogEntry Op)), GobLaws RequestVoteArgs, GobLaws RequestVoteReply,
          GobLaws (AppendEntriesArgs Op), GobLaws AppendEntriesReply}.
#[local] Abbreviation Raft := (Raft (Cmd := Op)).
#[local] Abbreviation cluster := (cluster (Cmd := Op)).
#[local] Abbreviation rpc := (rpc (Cmd := Op)).
#[local] Abbreviation call := (call (Cmd := Op)).

(** ** The wiring stays *)

Record wired_ok (peers : list (list (option nat))) (rn : Network machine) : Prop := {
  wo_listening : listening rn = true;
  wo_end i j : (i < serverCount)%nat -> (j < serverCount)%nat -> i <> j ->
    exists e, peers !! i ≫= (.!! j) = Some (Some e) /\ end_heap rn !! e = Some (mkEnd (clientName i j) None);
  wo_route i j m a sn sv : (i < serverCount)%nat -> (j < serverCount)%nat -> i <> j ->
    routes (mkReq (clientName i j) m a) sn sv rn -> sn = serverName j /\ sv = j;
  wo_server j : (j < serverCount)%nat -> exists srv, server_heap rn !! j = Some srv /\
    services srv = {[lit "Raft" := mkService (lit "Raft") (raft_table j)]} /\ dispatchf srv = None
}.

Lemma main_wired_ok clocks env dirs p : main clocks env dirs = Some p -> wired_ok (p_peers p) (p_net p).
Proof.
  intros Hst%main_wired. pose proof (fun i j => wired_link _ i j _ Hst) as Hl. unfold link in Hl. cbn [fst snd] in Hl.
  split.
  - by destruct (wired_flags _ _ Hst) as (_ & _ & Hx).
  - intros i j Hi Hj Hij. specialize (Hl i j Hi Hj Hij). destruct (p_peers p !! i ≫= (.!! j)) as [[e|]|]; [|done..].
    cbn [mbind option_bind] in Hl. exists e. split; [done|]. destruct (end_heap (p_net p) !! e) as [[n hook]|]; [|done].
    cbn [mbind option_bind ce_endname callf] in Hl. by injection Hl as -> ->.
  - intros i j m a sn sv Hi Hj Hij (_ & Hc & Hs). specialize (Hl i j Hi Hj Hij).
    destruct (p_peers p !! i ≫= (.!! j)) as [[e|]|]; [|done..]. cbn [mbind option_bind] in Hl.
    destruct (end_heap (p_net p) !! e) as [[n hook]|]; [|done]. cbn [mbind option_bind ce_endname callf] in Hl.
    injection Hl as -> _ _ Hc' Hs'. cbn [endname] in Hc. rewrite Hc in Hc'. injection Hc' as ->. split; [done|]. congruence.
  - intros j Hj. eexists. split; [exact (wired_server _ j _ Hst Hj)|]. split; reflexivity.
Qed.

(** The counters do not matter. *)
Lemma wired_stats peers rn c b : wired_ok peers rn -> wired_ok peers (set_stats rn c b).
Proof. intros []. by split. Qed.

Lemma wired_count peers rn sv rn' : wired_ok peers rn -> on_server count_call sv rn = Some rn' -> wired_ok peers rn'.
Proof.
  intros [W1 W2 W3 W4] (srv & Hs & <-%(inj Some))%bind_Some. split; try done. intros j Hj.
  destruct (W4 j Hj) as (srv' & Hs' & Hv & Hd). cbn [server_heap set_servers]. destruct (decide (j = sv)) as [->|Hne].
  - rewrite list_lookup_insert_eq by (by eapply lookup_lt_Some). exists (count_call srv). rewrite Hs in Hs'. injection Hs' as ->.
    by split_and!.
  - rewrite list_lookup_insert_ne by done. eauto.
Qed.

(** ** What a server does with a call *)

Definition served_by (env : Env) (o : outgoing) (rf : Raft) (rep : replyMsg) (rf' : Raft) : Prop :=
  match o with
  | OVote a => exists reply, RequestVote env a rf = Some (reply, rf') /\ rep = mkReply true (gob_encode reply)
  | OAppend a => exists reply, AppendEntries env a rf = Some (reply, rf') /\ rep = mkReply true (gob_encode reply)
  end.

Lemma raft_serve srv j o w rep w' :
  services srv = {[lit "Raft" := mkService (lit "Raft") (raft_table j)]} -> dispatchf srv = None ->
  srv_dispatch srv (go_method o) (go_args o) w = Some (rep, w') ->
  exists rf rf', objs w !! j = Some rf /\ served_by (outside w) o rf rep rf' /\ w' = set_obj j rf' w.
Proof.
  intros Hs Hd. unfold srv_dispatch. rewrite Hd, Hs.
  assert (Hv : split_last_dot (lit "Raft.RequestVote") = Some (lit "Raft", lit "RequestVote")) by (vm_compute; reflexivity).
  assert (Ha : split_last_dot (lit "Raft.AppendEntries") = Some (lit "Raft", lit "AppendEntries")) by (vm_compute; reflexivity).
  assert (Tv : raft_table j !! lit "RequestVote" = Some (handler RequestVote j)) by reflexivity.
  assert (Ta : raft_table j !! lit "AppendEntries" = Some (handler AppendEntries j)) by reflexivity.
  destruct o as [a|a]; cbn [go_method go_args served_by]; [rewrite Hv|rewrite Ha]; cbn [mbind option_bind fst snd];
    rewrite lookup_singleton_eq; cbn [mbind option_bind]; unfold svc_dispatch; intros (f & Hf & (x & Hx & [= <- <-])%bind_Some)%bind_Some;
    [assert (Some f = Some (handler RequestVote j)) as [= ->] by (rewrite <- Hf; exact Tv)
    |assert (Some f = Some (handler AppendEntries j)) as [= ->] by (rewrite <- Hf; exact Ta)];
    clear Hf Hv Ha Tv Ta; unfold handler in Hx;
    rewrite gob_decode_encode in Hx; cbn [mbind option_bind] in Hx; apply bind_Some in Hx as (rf & Hrf & Hx);
    apply bind_Some in Hx as ([reply rf'] & Hr & [= <-]); exists rf, rf'; (split_and!; [done| |done]); by exists reply.
Qed.

(** ** Goroutines and calls in flight *)

Definition as_call (o : outgoing) : call :=
  match o with OVote a => VoteCall a | OAppend a => AppendCall a end.

(** The call after its handler has answered with the bytes [b]. *)
Definition as_ret (o : outgoing) (b : bytes) (w : call) : Prop :=
  match o with
  | OVote a => exists reply, b = gob_encode reply /\ w = VoteRet a reply
  | OAppend a => exists reply, b = gob_encode reply /\ w = AppendRet a reply
  end.

(** A call that the caller will not hear of. *)
Definition lost (o : outgoing) (w : call) : Prop := w = as_call o \/ exists b, as_ret o b w.

Definition stage_sim (callee : nat) (o : outgoing) (st : stage) (w : call) : Prop :=
  match st with
  | Sent => w = as_call o
  | Running _ sv _ => sv = callee /\ w = as_call o
  | Ran _ _ _ rep => ok rep = true /\ as_ret o (reply rep) w
  | Delayed rep | Labrpc.Done rep None => if ok rep then as_ret o (reply rep) w else lost o w
  | Labrpc.Done rep (Some sv) => ok rep = false /\ sv = callee /\ w = as_call o
  end.

Definition go_request (go : goroutine) : reqMsg :=
  mkReq (clientName (g_caller go) (g_callee go)) (go_method (g_out go)) (go_args (g_out go)).

Definition go_ok (go : goroutine) : Prop :=
  (g_caller go < serverCount)%nat /\ (g_callee go < serverCount)%nat /\ g_caller go <> g_callee go.

(** The call of the cluster that stands for a goroutine, while it may have an effect. *)
Definition go_sim (reqs : list inflight) (go : goroutine) (r : option rpc) : Prop :=
  go_ok go /\
  match g_at go with
  | Calling => r = Some (mkRpc (g_caller go) (g_callee go) true (as_call (g_out go)))
  | Waits k => exists st w, reqs !! k = Some (mkInflight (go_request go) st) /\
      stage_sim (g_callee go) (g_out go) st w /\ r = Some (mkRpc (g_caller go) (g_callee go) true w)
  | Finished k => exists rep late, reqs !! k = Some (mkInflight (go_request go) (Labrpc.Done rep late)) /\
      match late with
      | Some sv => ok rep = false /\ sv = g_callee go /\
          r = Some (mkRpc (g_caller go) (g_callee go) false (as_call (g_out go)))
      | None => r = None
      end
  end.

Definition go_req (go : goroutine) : option nat :=
  match g_at go with Calling => None | Waits k | Finished k => Some k end.

(** Every request belongs to one goroutine. *)
Record owned (n : nat) (gos : list goroutine) : Prop := {
  ow_owner k : (k < n)%nat -> exists g go, gos !! g = Some go /\ go_req go = Some k;
  ow_unique g g' go go' k : gos !! g = Some go -> gos !! g' = Some go' -> go_req go = Some k -> go_req go' = Some k -> g = g';
  ow_bound g go k : gos !! g = Some go -> go_req go = Some k -> (k < n)%nat
}.

Record calls_sim (reqs : list inflight) (gos : list goroutine) (l : list rpc) : Prop := {
  cs_gos : exists rs, Forall2 (go_sim reqs) gos rs /\ omap id rs ⊆+ l;
  cs_owned : owned (length reqs) gos
}.

Lemma owned_spawn n gos new : owned n gos -> Forall (fun go => g_at go = Calling) new -> owned n (gos ++ new).
Proof.
  intros [Ho Hu Hb] Hn. assert (Hnew : forall g go k, new !! g = Some go -> go_req go <> Some k).
  { intros g go k Hg. pose proof (Forall_lookup_1 _ _ _ _ Hn Hg) as Hc. cbn beta in Hc. unfold go_req. by rewrite Hc. }
  split.
  - intros k Hk. destruct (Ho k Hk) as (g & go & Hg & Hq). exists g, go. split; [by apply lookup_app_l_Some|done].
  - intros g g' go go' k Hg Hg' Hq Hq'.
    apply lookup_app_Some in Hg as [Hg|[_ Hg]]; [|by apply (Hnew _ _ k) in Hg].
    apply lookup_app_Some in Hg' as [Hg'|[_ Hg']]; [|by apply (Hnew _ _ k) in Hg']. by eapply Hu.
  - intros g go k Hg Hq. apply lookup_app_Some in Hg as [Hg|[_ Hg]]; [by eapply Hb|by apply (Hnew _ _ k) in Hg].
Qed.

(** A goroutine keeps its request. *)
Lemma owned_set n gos g go go' : owned n gos -> gos !! g = Some go -> go_req go' = go_req go -> owned n (<[g := go']> gos).
Proof.
  intros [Ho Hu Hb] Hg Hq. pose proof (lookup_lt_Some _ _ _ Hg) as Hlt.
  assert (Hold : forall x y, <[g := go']> gos !! x = Some y -> exists z, gos !! x = Some z /\ go_req y = go_req z).
  { intros x y. destruct (decide (x = g)) as [->|Hne].
    - rewrite list_lookup_insert_eq by done. intros [= <-]. eauto.
    - rewrite list_lookup_insert_ne by done. eauto. }
  split.
  - intros k Hk. destruct (Ho k Hk) as (x & y & Hx & Hy). destruct (decide (x = g)) as [->|Hne].
    + exists g, go'. rewrite list_lookup_insert_eq by done. split; [done|]. congruence.
    + exists x, y. by rewrite list_lookup_insert_ne by done.
  - intros x x' y y' k Hx Hx' Hy Hy'. destruct (Hold _ _ Hx) as (z & Hz & Hzq), (Hold _ _ Hx') as (z' & Hz' & Hzq').
    apply (Hu x x' z z' k); congruence.
  - intros x y k Hx Hy. destruct (Hold _ _ Hx) as (z & Hz & Hzq). apply (Hb x z k); congruence.
Qed.

(** A goroutine gets the next request. *)
Lemma owned_call n gos g go go' :
  owned n gos -> gos !! g = Some go -> go_req go = None -> go_req go' = Some n -> owned (S n) (<[g := go']> gos).
Proof.
  intros [Ho Hu Hb] Hg Hn Hq. pose proof (lookup_lt_Some _ _ _ Hg) as Hlt.
  assert (Hold : forall x y k, <[g := go']> gos !! x = Some y -> go_req y = Some k ->
    (x = g /\ k = n) \/ (x <> g /\ gos !! x = Some y /\ (k < n)%nat)).
  { intros x y k. destruct (decide (x = g)) as [->|Hne].
    - rewrite list_lookup_insert_eq by done. intros [= <-] Hk. left. split; [done|]. congruence.
    - rewrite list_lookup_insert_ne by done. intros Hx Hk. right. split_and!; [done|done|by eapply Hb]. }
  split.
  - intros k Hk. destruct (decide (k = n)) as [->|Hne]; [exists g, go'; by rewrite list_lookup_insert_eq by done|].
    destruct (Ho k ltac:(lia)) as (x & y & Hx & Hy). exists x, y. rewrite list_lookup_insert_ne; [done|]. intros ->. congruence.
  - intros x x' y y' k Hx Hx' Hy Hy'. destruct (Hold _ _ _ Hx Hy) as [[-> ->]|(Hne & Hx0 & Hk)], (Hold _ _ _ Hx' Hy') as [[-> Hk']|(Hne' & Hx0' & Hk')];
      try lia. by apply (Hu x x' y y' k).
  - intros x y k Hx Hy. destruct (Hold _ _ _ Hx Hy) as [[_ ->]|(_ & _ & ?)]; lia.
Qed.

(** New goroutines. *)
Lemma calls_spawn reqs gos l new (calls : list rpc) :
  calls_sim reqs gos l -> Forall2 (fun go r => go_ok go /\ g_at go = Calling /\
    r = mkRpc (g_caller go) (g_callee go) true (as_call (g_out go))) new calls ->
  calls_sim reqs (gos ++ new) (calls ++ l).
Proof.
  intros [(rs & Hf & Hs) Ho] Hn. split.
  - exists (rs ++ (Some <$> calls)). split.
    + apply Forall2_app; [done|]. apply Forall2_fmap_r. eapply Forall2_impl; [exact Hn|].
      intros go r (Hok & Hc & ->). split; [done|]. by rewrite Hc.
    + rewrite omap_app, omap_somes, Permutation_app_comm. by apply submseteq_app.
  - apply owned_spawn; [done|]. apply Forall_forall. intros go [g Hg]%list_elem_of_lookup_1.
    by destruct (Forall2_lookup_l _ _ _ _ _ Hn Hg) as (r & _ & _ & Hc & _).
Qed.

Lemma go_sim_app reqs more go r : go_sim reqs go r -> go_sim (reqs ++ more) go r.
Proof.
  intros [Hok Hs]. split; [done|]. destruct (g_at go) as [|k|k]; [done| |].
  - destruct Hs as (st & w & Hl & ?). exists st, w. split; [by apply lookup_app_l_Some|done].
  - destruct Hs as (rep & late & Hl & ?). exists rep, late. split; [by apply lookup_app_l_Some|done].
Qed.

Lemma calls_call reqs gos l g go :
  calls_sim reqs gos l -> gos !! g = Some go -> g_at go = Calling ->
  calls_sim (reqs ++ [mkInflight (go_request go) Sent])
    (<[g := mkGo (g_caller go) (g_callee go) (g_out go) (Waits (length reqs))]> gos) l.
Proof.
  intros [(rs & Hf & Hs) Ho] Hg Hc. destruct (Forall2_lookup_l _ _ _ _ _ Hf Hg) as (r & Hr & Hok & Hsim). rewrite Hc in Hsim.
  split.
  - exists rs. split; [|done]. rewrite <- (list_insert_id rs g r) by done. apply Forall2_insert.
    + eapply Forall2_impl; [exact Hf|]. intros go' r'. apply go_sim_app.
    + split; [done|]. cbn [g_at g_caller g_callee g_out]. exists Sent, (as_call (g_out go)).
      split_and!; [by rewrite lookup_app_r, Nat.sub_diag by done|done|done].
  - rewrite length_app. cbn [length]. rewrite Nat.add_1_r. apply (owned_call _ gos g go); [done|done| |done]. unfold go_req. by rewrite Hc.
Qed.

(** ** The network moves requests *)

(** A move without a handler leaves the call of the cluster alone. *)
Lemma advance_sim peers e k go (s : system machine) st st' w :
  wired_ok peers (Labrpc.net s) -> go_ok go -> e <> EExecute k -> advance e k (go_request go) s st st' ->
  stage_sim (g_callee go) (g_out go) st w -> stage_sim (g_callee go) (g_out go) st' w.
Proof.
  intros Hw (Hi & Hj & Hij) He Ha Hs.
  destruct Ha as [|sn sv info _ Hr| | |sn sv info rep s' Hx _|rep sv Hx|sn sv info _|sn sv info rep _|sn sv info rep _|sn sv info rep _|rep _];
    try done; cbn [stage_sim] in *.
  - split; [|done]. by destruct (wo_route _ _ Hw _ _ _ _ _ _ Hi Hj Hij Hr).
  - by left.
  - by left.
  - destruct Hs as [_ Hret]. right. by eexists.
  - by destruct Hs as [-> Hret].
  - by destruct Hs as [-> Hret].
Qed.

Lemma advance_done e k q (s : system machine) rep late st' :
  e <> EExecute k -> advance e k q s (Labrpc.Done rep late) st' -> st' = Labrpc.Done rep late.
Proof. intros He Ha. by inversion Ha. Qed.

Lemma go_sim_move peers e (s s' : system machine) go r :
  wired_ok peers (Labrpc.net s) -> progress e s s' -> (forall k, go_req go = Some k -> e <> EExecute k) ->
  go_sim (requests s) go r -> go_sim (requests s') go r.
Proof.
  intros Hw Hp He [Hok Hs]. split; [done|]. unfold go_req in He. destruct (g_at go) as [|k|k]; [done| |].
  - destruct Hs as (st & w & Hl & Hst & ->). destruct (pg_old _ _ _ Hp k _ Hl) as (st' & Hl' & Ha). cbn [req at_stage] in *.
    exists st', w. split_and!; [done| |done]. by apply (advance_sim peers e k go s st); [| |apply He| |].
  - destruct Hs as (rep & late & Hl & Hr). destruct (pg_old _ _ _ Hp k _ Hl) as (st' & Hl' & Ha). cbn [req at_stage] in *.
    apply advance_done in Ha as ->; [|by apply He]. by exists rep, late.
Qed.

(** What the moves leave alone. *)
Lemma move_frame peers e (s s' : system machine) :
  moves_request e = true -> Labrpc.step e s = Some s' ->
  length (requests s') = length (requests s) /\ (wired_ok peers (Labrpc.net s) -> wired_ok peers (Labrpc.net s')) /\
  ((forall k, e <> EExecute k) -> world s' = world s).
Proof.
  intros Hm Hs.
  assert (Hset : forall k r st (s0 : system machine), length (requests (set_request k r st s0)) = length (requests s0)).
  { intros k r st s0. apply length_insert. }
  assert (Hans : forall k r rep (s0 : system machine), length (requests (answer_with k r rep s0)) = length (requests s0) /\
    (wired_ok peers (Labrpc.net s0) -> wired_ok peers (Labrpc.net (answer_with k r rep s0))) /\ world (answer_with k r rep s0) = world s0).
  { intros k r rep s0. split_and!; [apply length_insert|apply wired_stats|done]. }
  destruct e as [|k d|k|k|k d1 d2|k|]; try done; cbn [Labrpc.step] in Hs.
  - unfold start in Hs. apply bind_Some in Hs as (r & _ & Hs). repeat case_match; simplify_eq/=; by split_and!.
  - unfold execute in Hs. apply bind_Some in Hs as (r & _ & Hs).
    assert (Hd : forall sv q x, dispatch_on sv q s = Some x -> length (requests x.2) = length (requests s) /\
      (wired_ok peers (Labrpc.net s) -> wired_ok peers (Labrpc.net x.2))).
    { intros sv q x (rs & _ & (y & _ & (rn & Hrn & [= <-])%bind_Some)%bind_Some)%bind_Some. split; [done|].
      intros Hw. by apply (wired_count peers (Labrpc.net s) sv). }
    assert (Hno : (forall k0, EExecute (W := machine) k <> EExecute k0) -> False) by (intros Hx; by apply (Hx k)).
    destruct (at_stage r) as [|sn sv info| | |rep [sv|]]; try done; apply bind_Some in Hs as (x & Hx & <-%(inj Some));
      destruct (Hd _ _ _ Hx) as [H9 H10]; split_and!; try (by rewrite Hset); try done; intros Hx0; by apply Hno in Hx0.
  - unfold poll_dead in Hs. apply bind_Some in Hs as (r & _ & Hs). repeat case_match; simplify_eq/=; by split_and!.
  - unfold finish in Hs. apply bind_Some in Hs as (r & _ & Hs). destruct (at_stage r); try done.
    repeat case_match; simplify_eq/=; try (by split_and!). destruct (Hans k r rep s) as (? & ? & ?). by split_and!.
  - unfold timer in Hs. apply bind_Some in Hs as (r & _ & Hs). destruct (at_stage r); try done.
    apply (inj Some) in Hs as <-. destruct (Hans k r rep s) as (? & ? & ?). by split_and!.
Qed.

Lemma calls_move peers e (s s' : system machine) gos l :
  wired_ok peers (Labrpc.net s) -> moves_request e = true -> (forall k, e <> EExecute k) -> Labrpc.step e s = Some s' ->
  calls_sim (requests s) gos l -> calls_sim (requests s') gos l.
Proof.
  intros Hw Hm He Hs [(rs & Hf & Hsub) Ho]. destruct (move_frame peers e s s' Hm Hs) as (Hlen & _). split; [|by rewrite Hlen].
  exists rs. split; [|done]. eapply Forall2_impl; [exact Hf|]. intros go r.
  apply (go_sim_move peers e); [done|by apply step_progress|]. intros k _. apply He.
Qed.

(** One goroutine and its request change. *)
Lemma go_sims_change n reqs reqs' gos rs g go go' y k :
  Forall2 (go_sim reqs) gos rs -> owned n gos -> gos !! g = Some go -> go_req go = Some k ->
  (forall k', k' <> k -> reqs' !! k' = reqs !! k') -> go_sim reqs' go' y ->
  Forall2 (go_sim reqs') (<[g := go']> gos) (<[g := y]> rs).
Proof.
  intros Hf Ho Hg Hk Hr Hy. pose proof (lookup_lt_Some _ _ _ Hg) as Hlt. pose proof (Forall2_length _ _ _ Hf) as Hlen.
  apply Forall2_same_length_lookup. split; [by rewrite !length_insert|]. intros x go0 r0. destruct (decide (x = g)) as [->|Hne].
  - rewrite !list_lookup_insert_eq by lia. by intros [= <-] [= <-].
  - rewrite !list_lookup_insert_ne by done. intros Hx Hrx.
    apply Forall2_same_length_lookup in Hf as [_ Hf]. destruct (Hf x go0 r0 Hx Hrx) as [Hok Hs]. split; [done|].
    assert (Hno : go_req go0 <> Some k) by (intros Hk0; apply Hne; by apply (ow_unique _ _ Ho x g go0 go k)).
    unfold go_req in Hno. destruct (g_at go0) as [|k0|k0]; [done| |].
    + destruct Hs as (st & w & Hl & Hrest). exists st, w. split; [rewrite Hr; [done|congruence]|done].
    + destruct Hs as (rep & late & Hl & Hrest). exists rep, late. split; [rewrite Hr; [done|congruence]|done].
Qed.

(** The server of a request whose handler may run, and the stage after it. *)
Definition exec_stage (st : stage) : option (nat * (replyMsg -> stage)) :=
  match st with
  | Running sn sv info => Some (sv, Ran sn sv info)
  | Labrpc.Done rep (Some sv) => Some (sv, fun _ => Labrpc.Done rep None)
  | _ => None
  end.

Lemma calls_exec reqs gos l k r sv f :
  calls_sim reqs gos l -> reqs !! k = Some r -> exec_stage (at_stage r) = Some (sv, f) ->
  exists go m r0, go_ok go /\ req r = go_request go /\ sv = g_callee go /\
    l !! m = Some r0 /\ callee r0 = g_callee go /\ what r0 = as_call (g_out go) /\
    forall b w, as_ret (g_out go) b w ->
      calls_sim (<[k := mkInflight (req r) (f (mkReply true b))]> reqs) gos (<[m := set_what r0 w]> l).
Proof.
  intros [(rs & Hf & Hsub) Ho] Hr Hex. pose proof (lookup_lt_Some _ _ _ Hr) as Hlt.
  destruct (ow_owner _ _ Ho k Hlt) as (g & go & Hg & Hk). destruct (Forall2_lookup_l _ _ _ _ _ Hf Hg) as (o & Hog & Hok & Hs).
  assert (Hnew : forall y r' st, o = Some r' -> (forall b w, as_ret (g_out go) b w ->
      go_sim (<[k := mkInflight (req r) (st (mkReply true b))]> reqs) go (y w) /\ (y w = None \/ y w = Some (set_what r' w))) ->
    exists m, l !! m = Some r' /\ forall b w, as_ret (g_out go) b w ->
      calls_sim (<[k := mkInflight (req r) (st (mkReply true b))]> reqs) gos (<[m := set_what r' w]> l)).
  { intros y r' st -> Hy. destruct (follow_one rs l g r' Hsub Hog) as (m & Hm & Hset & _). exists m. split; [done|].
    intros b w Hb. destruct (Hy b w Hb) as [Hgo Hyw]. split; [|by rewrite length_insert].
    exists (<[g := y w]> rs). split; [|by apply Hset]. rewrite <- (list_insert_id gos g go) by done.
    apply (go_sims_change (length reqs) reqs _ gos rs g go go (y w) k); try done.
    intros k' Hne. by rewrite list_lookup_insert_ne. }
  unfold go_req in Hk. destruct (g_at go) as [|k0|k0] eqn:Hat; [done| |]; injection Hk as ->.
  - destruct Hs as (st & w0 & Hl & Hst & ->). rewrite Hr in Hl. injection Hl as ->. cbn [at_stage req] in *.
    assert (Hcall : w0 = as_call (g_out go) /\ sv = g_callee go /\
      forall b w, as_ret (g_out go) b w -> stage_sim (g_callee go) (g_out go) (f (mkReply true b)) w).
    { destruct st as [|sn sv0 info| | |rep [sv0|]]; try done; injection Hex as <- <-.
      - destruct Hst as [-> ->]. split_and!; [done|done|]. intros b w Hb. by split.
      - destruct Hst as (Hrep & -> & ->). split_and!; [done|done|]. intros b w Hb. cbn [stage_sim]. rewrite Hrep. right. by exists b. }
    destruct Hcall as (-> & -> & Hret).
    destruct (Hnew (fun w => Some (mkRpc (g_caller go) (g_callee go) true w)) _ f eq_refl) as (m & Hm & Hall).
    { intros b w Hb. split; [|by right]. split; [done|]. rewrite Hat. exists (f (mkReply true b)), w.
      split_and!; [by rewrite list_lookup_insert_eq|by apply Hret|done]. }
    eexists go, m, _. split_and!; [done|done|done|exact Hm|done|done|exact Hall].
  - destruct Hs as (rep & late & Hl & Hlate). rewrite Hr in Hl. injection Hl as ->. cbn [at_stage req exec_stage] in *.
    destruct late as [sv0|]; [|done]. injection Hex as <- <-. destruct Hlate as (Hrep & -> & ->).
    destruct (Hnew (fun _ => None) _ (fun _ => Labrpc.Done rep None) eq_refl) as (m & Hm & Hall).
    { intros b w Hb. split; [|by left]. split; [done|]. rewrite Hat. exists rep, None.
      split; [by rewrite list_lookup_insert_eq|done]. }
    eexists go, m, _. split_and!; [done|done|done|exact Hm|done|done|exact Hall].
Qed.

(** The answer is taken. *)
Lemma calls_take reqs gos l g go k q rep late :
  calls_sim reqs gos l -> gos !! g = Some go -> g_at go = Waits k -> reqs !! k = Some (mkInflight q (Labrpc.Done rep late)) ->
  exists m w, let r0 := mkRpc (g_caller go) (g_callee go) true w in
    let gos' := <[g := mkGo (g_caller go) (g_callee go) (g_out go) (Finished k)]> gos in
    go_ok go /\ l !! m = Some r0 /\
    if ok rep then as_ret (g_out go) (reply rep) w /\ calls_sim reqs gos' (remove m l)
    else lost (g_out go) w /\ calls_sim reqs gos' (<[m := abandon r0]> l).
Proof.
  intros [(rs & Hf & Hsub) Ho] Hg Hat Hr. destruct (Forall2_lookup_l _ _ _ _ _ Hf Hg) as (o & Hog & Hok & Hs).
  rewrite Hat in Hs. destruct Hs as (st & w & Hl & Hst & ->). rewrite Hr in Hl. injection Hl as -> <-.
  destruct (follow_one rs l g _ Hsub Hog) as (m & Hm & Hset & Hrem). exists m, w. cbn zeta.
  assert (Hk : go_req go = Some k) by (unfold go_req; by rewrite Hat).
  set (go' := mkGo (g_caller go) (g_callee go) (g_out go) (Finished k)).
  assert (Hnew : forall y l', omap id (<[g := y]> rs) ⊆+ l' -> go_sim reqs go' y -> calls_sim reqs (<[g := go']> gos) l').
  { intros y l' Hl' Hy. split; [|apply (owned_set _ gos g go); [done|done|by rewrite Hk]]. exists (<[g := y]> rs). split; [|done].
    by apply (go_sims_change (length reqs) reqs reqs gos rs g go go' y k). }
  split; [done|]. split; [done|]. cbn [stage_sim] in Hst. destruct late as [sv|].
  - destruct Hst as (Hrep & -> & ->). rewrite Hrep. split; [by left|].
    apply (Hnew (Some (mkRpc (g_caller go) (g_callee go) false (as_call (g_out go))))); [apply Hset; by right|].
    split; [done|]. exists rep, (Some (g_callee go)). by split_and!.
  - destruct (ok rep) eqn:Hrep.
    + split; [done|]. apply (Hnew None); [done|]. split; [done|]. by exists rep, None.
    + split; [done|]. apply (Hnew None); [apply Hset; by left|]. split; [done|]. by exists rep, None.
Qed.
End Sim.
