(* ===== verification/ProcessStep.v ===== *)
From S2P Require Export ProcessSim.
From S2P Require Import Store.
From S2P Require Import Main.
From S2P Require Import LabrpcSpec.
From S2P Require Import ClusterSafety.

Lemma insert_zip_with {A B C} (f : A -> B -> C) (l : list A) (k : list B) i x y :
  zip_with f (<[i := x]> l) (<[i := y]> k) = <[i := f x y]> (zip_with f l k).
Proof. revert k i. induction l as [|a l IH]; intros [|b k] [|i]; try done. simpl. f_equal. apply IH. Qed.

Section Step.
Context `{GobLaws (Z * Z * list (LogEntry Op)), GobLaws RequestVoteArgs, GobLaws RequestVoteReply,
          GobLaws (AppendEntriesArgs Op), GobLaws AppendEntriesReply}.
#[local] Abbreviation Raft := (Raft (Cmd := Op)).
#[local] Abbreviation cluster := (cluster (Cmd := Op)).
#[local] Abbreviation rpc := (rpc (Cmd := Op)).

(** The nodes of the cluster are the objects of the process with what they have sent. *)
Record nodes_sim (s : running) (c : cluster) : Prop := {
  sim_count : length (rafts s) = serverCount;
  sim_sent : length (r_sent s) = serverCount;
  sim_nodes : nodes c = zip_with Up (rafts s) (r_sent s);
  sim_wired : wired_ok (r_peers s) (Labrpc.net (r_sys s))
}.

Record sim (s : running) (c : cluster) : Prop := {
  sim_base : nodes_sim s c;
  sim_calls : calls_sim (requests (r_sys s)) (r_gos s) (Cluster.net c)
}.

Lemma sim_up s c i rf :
  nodes_sim s c -> raft_of s i = Some rf -> exists sent, r_sent s !! i = Some sent /\ up c i = Some (rf, sent).
Proof.
  intros [Hw Ht Hn _] Hr. pose proof (lookup_lt_Some _ _ _ Hr) as Hlt.
  destruct (lookup_lt_is_Some_2 (r_sent s) i ltac:(lia)) as [sent Hs]. exists sent. split; [done|].
  unfold up. rewrite Hn, lookup_zip_with. unfold raft_of in Hr. by rewrite Hr; cbn [mbind option_bind]; rewrite Hs.
Qed.

Lemma sim_length s c : nodes_sim s c -> length (nodes c) = serverCount.
Proof. intros [Hw Ht Hn _]. rewrite Hn, length_zip_with. lia. Qed.

Lemma raft_lt s c i rf : nodes_sim s c -> raft_of s i = Some rf -> (i < serverCount)%nat.
Proof. intros [Hw _ _ _] Hr%lookup_lt_Some. lia. Qed.

(** A step of node [i]. *)
Lemma sim_node s c i rf sent rf' sent' sys peers' ts gos l :
  nodes_sim s c -> raft_of s i = Some rf -> r_sent s !! i = Some sent ->
  objs (world sys) = <[i := rf']> (rafts s) -> wired_ok peers' (Labrpc.net sys) -> ts = <[i := sent']> (r_sent s) ->
  calls_sim (requests sys) gos l -> sim (mkRunning sys peers' ts gos) (set_up c i rf' sent' l).
Proof.
  intros [Hw Ht Hn Hwi] Hr Hs Hworld Hwi' -> Hc. split; [|done]. split; cbn [r_sys r_sent r_peers set_up nodes].
  - unfold rafts at 1. cbn [r_sys]. by rewrite Hworld, length_insert.
  - by rewrite length_insert.
  - unfold rafts. cbn [r_sys]. by rewrite Hworld, Hn, insert_zip_with.
  - done.
Qed.

Lemma sim_set s c i rf sent rf' msgs gos l :
  nodes_sim s c -> raft_of s i = Some rf -> r_sent s !! i = Some sent ->
  calls_sim (requests (r_sys s)) (r_gos s ++ gos) l ->
  sim (set_node i rf' msgs gos s) (set_up c i rf' (sent ++ msgs) l).
Proof.
  intros Hs Hr Ht Hc. eapply sim_node; [exact Hs|exact Hr|exact Ht|done|apply Hs| |exact Hc].
  apply list_eq. intros j. destruct (decide (j = i)) as [->|Hne].
  - rewrite list_lookup_alter_eq, Ht, list_lookup_insert_eq; [done|by eapply lookup_lt_Some].
  - by rewrite list_lookup_alter_ne, list_lookup_insert_ne.
Qed.

Lemma sim_set_quiet s c i rf sent rf' gos l :
  nodes_sim s c -> raft_of s i = Some rf -> r_sent s !! i = Some sent ->
  calls_sim (requests (r_sys s)) (r_gos s ++ gos) l ->
  sim (set_node i rf' [] gos s) (set_up c i rf' sent l).
Proof. intros Hs Hr Ht Hc. rewrite <- (app_nil_r sent). by apply (sim_set _ _ _ rf). Qed.

Lemma vote_spawn s c i args :
  sim s c -> (i < serverCount)%nat ->
  calls_sim (requests (r_sys s)) (r_gos s ++ vote_gos i args s) (vote_calls (length (nodes c)) i args ++ Cluster.net c).
Proof.
  intros Hs Hi. apply calls_spawn; [apply Hs|]. unfold vote_gos, vote_calls. rewrite (sim_count _ _ (sim_base _ _ Hs)), (sim_length _ _ (sim_base _ _ Hs)).
  apply Forall2_fmap, Forall_Forall2_diag, Forall_forall. intros j Hj.
  apply (elem_of_others serverCount ltac:(unfold serverCount; lia)) in Hj as [Hj Hlt]. by split_and!; [split_and!| |].
Qed.

Definition stepped (c : cluster) (s' : running) : Prop :=
  sim s' c \/ exists a c', act a c = Some c' /\ sim s' c'.

Lemma tick_sim s c i env s' : sim s c -> p_tick i env s = Some s' -> stepped c s'.
Proof.
  unfold p_tick. intros Hs (rf & Hr & ([a rf'] & Ht & <-%(inj Some))%bind_Some)%bind_Some. destruct (sim_up _ _ _ _ (sim_base _ _ Hs) Hr) as (sent & Hse & Hup).
  right. exists (Tick i env). eexists. split; [by apply bind_Some; eexists; split; [exact Hup|]; apply bind_Some; eexists; split; [exact Ht|]|].
  cbn [fst snd]. apply (sim_set_quiet _ _ _ rf); [apply Hs|done..|]. destruct a as [args|].
  - apply vote_spawn; [done|by eapply raft_lt; [apply Hs|]].
  - rewrite app_nil_r. apply Hs.
Qed.

Lemma force_sim s c i env s' : sim s c -> p_force i env s = Some s' -> stepped c s'.
Proof.
  unfold p_force. intros Hs (rf & Hr & ([a rf'] & Ht & <-%(inj Some))%bind_Some)%bind_Some. destruct (sim_up _ _ _ _ (sim_base _ _ Hs) Hr) as (sent & Hse & Hup).
  right. exists (Force i env). eexists. split; [by apply bind_Some; eexists; split; [exact Hup|]; apply bind_Some; eexists; split; [exact Ht|]|].
  cbn [fst snd]. apply (sim_set_quiet _ _ _ rf); [apply Hs|done..|]. apply vote_spawn; [done|by eapply raft_lt; [apply Hs|]].
Qed.

Lemma client_sim s c i env cmd s' : sim s c -> p_client i env cmd s = Some s' -> stepped c s'.
Proof.
  unfold p_client. intros Hs (rf & Hr & (res & Ht & <-%(inj Some))%bind_Some)%bind_Some. destruct (sim_up _ _ _ _ (sim_base _ _ Hs) Hr) as (sent & Hse & Hup).
  right. exists (Client i env cmd). eexists. split; [by apply bind_Some; eexists; split; [exact Hup|]; apply bind_Some; eexists; split; [exact Ht|]|].
  apply (sim_set_quiet _ _ _ rf); [apply Hs|done..|]. rewrite app_nil_r. apply Hs.
Qed.

Lemma apply_sim s c i s' : sim s c -> p_apply i s = Some s' -> stepped c s'.
Proof.
  unfold p_apply. intros Hs (rf & Hr & ([msgs rf'] & Ht & <-%(inj Some))%bind_Some)%bind_Some. destruct (sim_up _ _ _ _ (sim_base _ _ Hs) Hr) as (sent & Hse & Hup).
  right. exists (Apply i). eexists. split; [by apply bind_Some; eexists; split; [exact Hup|]; apply bind_Some; eexists; split; [exact Ht|]|].
  cbn [fst snd]. apply (sim_set _ _ _ rf); [apply Hs|done..|]. rewrite app_nil_r. apply Hs.
Qed.

Lemma send_sim s c i j s' : sim s c -> p_send i j s = Some s' -> stepped c s'.
Proof.
  unfold p_send. intros Hs (rf & Hr & Hb)%bind_Some. destruct (sim_up _ _ _ _ (sim_base _ _ Hs) Hr) as (sent & Hse & Hup).
  case_bool_decide as Hij; [|done]. apply bind_Some in Hb as (args & Ha & <-%(inj Some)). destruct args as [args|]; [|by left].
  right. exists (Send i j). eexists. split.
  { cbn [act]. unfold act_send. rewrite Hup. cbn [mbind option_bind]. rewrite bool_decide_eq_true_2.
    - by rewrite Ha.
    - rewrite (sim_length _ _ (sim_base _ _ Hs)). rewrite (sim_count _ _ (sim_base _ _ Hs)) in Hij. done. }
  apply (sim_set_quiet _ _ _ rf); [apply Hs|done..|].
  apply (calls_spawn _ _ _ [mkGo i j (OAppend args) Calling] [mkRpc i j true (AppendCall args)]); [apply Hs|].
  apply Forall2_cons. split; [|by apply Forall2_nil]. rewrite (sim_count _ _ (sim_base _ _ Hs)) in Hij. destruct Hij as [Hne Hj].
  split; [|by split]. split; [by eapply raft_lt; [apply Hs|]|by split].
Qed.

Lemma call_sim s c g s' : sim s c -> p_call g s = Some s' -> sim s' c.
Proof.
  unfold p_call. intros Hs (go & Hg & Hb)%bind_Some. destruct (g_at go) eqn:Hat; [|done..].
  apply bind_Some in Hb as (e & He & (e' & -> & ([res sys] & Hc & Hb)%bind_Some)%bind_Some). cbn [fst snd] in Hb.
  destruct res; [done|]. apply (inj Some) in Hb as <-. destruct Hs as [[Hw Ht Hn Hwi] Hcs].
  destruct (cs_gos _ _ _ Hcs) as (rs & Hf & _). destruct (Forall2_lookup_l _ _ _ _ _ Hf Hg) as (r & _ & (Hi & Hj & Hij) & _).
  destruct (wo_end _ _ Hwi _ _ Hi Hj Hij) as (e0 & He0 & Hend). rewrite He in He0. injection He0 as ->.
  unfold Call, Forward in Hc. rewrite Hend in Hc. cbn [mbind option_bind callf ce_endname] in Hc.
  rewrite (wo_listening _ _ Hwi) in Hc. injection Hc as <-. split; [split; try done|]; cbn.
  - by apply wired_stats.
  - by apply calls_call.
Qed.

(** The handler of a request runs: a delivery. *)
Lemma act_serve (c : cluster) m (r0 : rpc) o env rf rf' sent rep :
  Cluster.net c !! m = Some r0 -> what r0 = as_call o -> up c (callee r0) = Some (rf, sent) ->
  served_by env o rf rep rf' ->
  exists b x, rep = mkReply true b /\ as_ret o b x /\
    act (Deliver m env) c = Some (set_up c (callee r0) rf' sent (<[m := set_what r0 x]> (Cluster.net c))).
Proof.
  intros Hm Hw Hup Hs. destruct o as [a|a]; cbn [as_call served_by] in *; destruct Hs as (reply & Hr & ->);
    (eexists _, _; split; [done|split; [by exists reply|]]); (apply bind_Some; exists r0; split; [done|]);
    (apply bind_Some; eexists; split; [exact Hup|]); cbn beta iota; rewrite Hw;
    (apply bind_Some; eexists; by split; [exact Hr|]).
Qed.

Lemma execute_runs k (s s' : system machine) :
  execute k s = Some s' -> exists r sv f x, requests s !! k = Some r /\ exec_stage (at_stage r) = Some (sv, f) /\
    dispatch_on sv (req r) s = Some x /\ s' = set_request k r (f (fst x)) (snd x).
Proof.
  unfold execute. intros (r & Hr & Hs)%bind_Some. destruct (at_stage r) as [|sn sv info| | |rep [sv|]] eqn:Hst; try done;
    apply bind_Some in Hs as (x & Hx & <-%(inj Some)); eexists r, sv, _, x; (split_and!; [done|by rewrite Hst|done|done]).
Qed.

(** What the next handler reads does not matter. *)
Definition seeing (env : Env) (s : running) : running := mkRunning (see env (r_sys s)) (r_peers s) (r_sent s) (r_gos s).

Lemma sim_seeing env s c : sim s c -> sim (seeing env s) c.
Proof. intros [[] ?]. by split. Qed.

Lemma exec_sim s c k sys : sim s c -> execute k (r_sys s) = Some sys ->
  exists a c', act a c = Some c' /\ sim (mkRunning sys (r_peers s) (r_sent s) (r_gos s)) c'.
Proof.
  intros [Hb Hc] (r & sv & f & x & Hr & Hst & Hx & ->)%execute_runs.
  destruct (calls_exec _ _ _ k r sv f Hc Hr Hst) as (go & m & r0 & (Hi & Hj & Hij) & Hq & -> & Hm & Hcallee & Hwhat & Hret).
  unfold dispatch_on in Hx. apply bind_Some in Hx as (srv & Hsrv & ([rep w'] & Hd & (rn & Hrn & <-%(inj Some))%bind_Some)%bind_Some).
  destruct (wo_server _ _ (sim_wired _ _ Hb) _ Hj) as (srv' & Hsrv' & Hsv & Hdf). rewrite Hsrv in Hsrv'. injection Hsrv' as <-.
  rewrite Hq in Hd. destruct (raft_serve srv _ _ _ _ _ Hsv Hdf Hd) as (rf & rf' & Hrf & Hserved & ->).
  destruct (sim_up s c _ rf Hb Hrf) as (sent & Hsent & Hup). rewrite <- Hcallee in Hup.
  destruct (act_serve c m r0 _ _ rf rf' sent rep Hm Hwhat Hup Hserved) as (b & y & -> & Hy & Hact).
  eexists _, _. split; [exact Hact|]. rewrite Hcallee. cbn [fst snd].
  apply (sim_node s c _ rf sent); [done|done|done|done| |by rewrite list_insert_id|by apply Hret].
  eapply wired_count; [apply Hb|exact Hrn].
Qed.

Lemma net_sim s c e env s' : sim s c -> p_net_step e env s = Some s' -> stepped c s'.
Proof.
  unfold p_net_step. intros Hs%(sim_seeing env) Hb. destruct (moves_request e) eqn:Hm; [|done]. apply bind_Some in Hb as (sys & Hst & <-%(inj Some)).
  assert (He : (exists k, e = EExecute k) \/ forall k, e <> EExecute k) by (destruct e; eauto).
  destruct He as [[k ->]|He]; [right; by apply (exec_sim (seeing env s) c k)|left].
  destruct Hs as [[Hw Ht Hn Hwi] Hc]. destruct (move_frame (r_peers s) e _ _ Hm Hst) as (_ & Hwi' & Hworld).
  unfold rafts in Hw, Hn. cbn [seeing r_sys] in Hw, Hn, Hwi, Hc. rewrite <- (Hworld He) in Hw, Hn.
  split; [split; [done|done|done|by apply Hwi']|]. by eapply calls_move.
Qed.

(** The answer is taken: a return or a failure. *)
Lemma take_sim s c g env s' : sim s c -> p_take g env s = Some s' -> stepped c s'.
Proof.
  unfold p_take. intros [Hb Hc] (go & Hg & Hx)%bind_Some. destruct (g_at go) as [|k|k] eqn:Hat; [done| |done].
  apply bind_Some in Hx as (rep & Ha & (rf & Hrf & (rf' & Ht & <-%(inj Some))%bind_Some)%bind_Some).
  unfold Labrpc.answer in Ha. apply bind_Some in Ha as ([q st] & Hq & Ha). cbn [at_stage] in Ha. destruct st as [| | | |rep0 late]; try done.
  injection Ha as ->. destruct (calls_take _ _ _ g go k q rep late Hc Hg Hat Hq) as (m & w & (Hi & Hj & Hij) & Hm & Hcase).
  destruct (sim_up s c _ rf Hb Hrf) as (sent & Hsent & Hup).
  assert (Hfin : forall l, calls_sim (requests (r_sys s)) (<[g := mkGo (g_caller go) (g_callee go) (g_out go) (Finished k)]> (r_gos s)) l ->
    sim (set_node (g_caller go) rf' [] [] (set_go g go (Finished k) (r_sys s) s)) (set_up c (g_caller go) rf' sent l)).
  { intros l Hl. apply (sim_set_quiet _ _ _ rf); [by destruct Hb|done|done|]. by rewrite app_nil_r. }
  right. destruct (ok rep) eqn:Hok; destruct Hcase as [Hw Hl].
  - exists (Return m env). eexists. split; [|apply Hfin, Hl]. apply bind_Some. eexists. split; [exact Hm|].
    apply bind_Some. eexists. split; [exact Hup|]. cbn beta iota. unfold take_answer in Ht. rewrite Hok in Ht.
    destruct (g_out go) as [a|a]; destruct Hw as (reply & Hbs & ->); rewrite Hbs, gob_decode_encode in Ht;
      apply fmap_Some in Ht as (res & Hres & ->); apply bind_Some; exists res; by split.
  - exists (GiveUp m env). eexists. split; [|apply Hfin, Hl]. apply bind_Some. eexists. split; [exact Hm|].
    apply bind_Some. eexists. split; [exact Hup|]. cbn beta iota. unfold take_answer in Ht. rewrite Hok in Ht.
    destruct (g_out go) as [a|a]; destruct Hw as [->|(b & reply & -> & ->)]; cbn [awaited what as_call].
    1,2: by injection Ht as ->.
    all: apply fmap_Some in Ht as (res & Hres & ->); apply bind_Some; exists res; by split.
Qed.

Lemma section_sim s c e s' : sim s c -> section e s = Some s' -> stepped c s'.
Proof.
  intros Hs. destruct e as [i env|i env|i env cmd|i|i j|g|e env|g env]; cbn [section].
  - by apply tick_sim.
  - by apply force_sim.
  - by apply client_sim.
  - by apply apply_sim.
  - by apply send_sim.
  - intros ?. left. by eapply call_sim.
  - by apply net_sim.
  - by apply take_sim.
Qed.

(** A recovered panic of a request. *)
Lemma recover_sim s c e s' :
  sim s c -> recover_request e s = Some s' -> exists a c', fstep (Recovered a) c = Some c' /\ sim s' c'.
Proof.
  intros Hs. assert (Hx : forall a i, actor a c = Some i -> forall rf rf', raft_of s i = Some rf -> recovered a rf = Some rf' ->
    exists a c', fstep (Recovered a) c = Some c' /\ sim (set_node i rf' [] [] s) c').
  { intros a i Ha rf rf' Hr Hrec. destruct (sim_up _ _ _ _ (sim_base _ _ Hs) Hr) as (sent & Hse & Hup).
    exists a, (set_up c i rf' sent (Cluster.net c)). split.
    - cbn [fstep]. apply bind_Some. exists i. split; [done|]. apply bind_Some. exists (rf, sent). split; [done|].
      apply bind_Some. by exists rf'.
    - apply (sim_set_quiet _ _ _ rf); [apply Hs|done..|]. rewrite app_nil_r. apply Hs. }
  destruct e; cbn [recover_request]; try done;
    intros (rf & Hr & (rf' & Hrec & <-%(inj Some))%bind_Some)%bind_Some; refine (Hx _ _ _ rf rf' Hr Hrec); reflexivity.
Qed.

Lemma pstep_cases e s s' : pstep e s = Some s' -> section e s = Some s' \/ recover_request e s = Some s'.
Proof. unfold pstep. destruct (section e s) as [s1|]; [intros [= ->]; by left|by right]. Qed.
End Step.
