(* ===== verification/ProcessLives.v ===== *)
(** * Kills and restarts of the process

    A kill stops all nodes of the cluster, each between two sections or inside one; the
    start of the next process restarts them. *)
From S2P Require Import EngineSpec.
From S2P Require Import StoreLsm.
From S2P Require Export ProcessStep.
From S2P Require Import Store.
From S2P Require Import Main.
From S2P Require Labrpc.
From S2P Require Import ClusterSafety.
From S2P Require Import ClusterReplicate.
From S2P Require Import ClusterChosen.

Section Near.
Context {Cmd : Type} `{Gob (Z * Z * list (LogEntry Cmd))}.
#[local] Abbreviation Raft := (Raft (Cmd := Cmd)).
#[local] Abbreviation cluster := (cluster (Cmd := Cmd)).
#[local] Abbreviation action := (action (Cmd := Cmd)).
#[local] Abbreviation rpc := (rpc (Cmd := Cmd)).

(** ** What the step of one node depends on *)

Definition same_for (i : nat) (r r2 : rpc) : Prop :=
  caller r2 = caller r /\ callee r2 = callee r /\ what r2 = what r /\ (caller r = i -> awaited r2 = awaited r).

Record near (i : nat) (c c2 : cluster) : Prop := {
  ne_len : length (nodes c2) = length (nodes c);
  ne_node : nodes c2 !! i = nodes c !! i;
  ne_net : Forall2 (same_for i) (net c) (net c2)
}.

Lemma near_refl i (c : cluster) : near i c c.
Proof. split; [done|done|]. apply Forall_Forall2_diag, Forall_forall. intros r _. by split_and!. Qed.

Lemma near_up i (c c2 : cluster) : near i c c2 -> up c2 i = up c i.
Proof. intros [_ Hn _]. unfold up. by rewrite Hn. Qed.

(** Another node stops. *)
Lemma near_crash i j f (c c2 : cluster) : near i c c2 -> j <> i -> near i c (crash_node j f c2).
Proof.
  intros [Hl Hn Hr] Hj. split; cbn [crash_node nodes net].
  - by rewrite length_insert.
  - by rewrite list_lookup_insert_ne.
  - apply Forall2_fmap_r. eapply Forall2_impl; [exact Hr|]. intros r r2 (Hc & He & Hw & Ha). unfold compose, same_for, orphan.
    destruct (decide (caller r2 = j)) as [Hd|Hd]; split_and!; try done. cbn. congruence.
Qed.

Lemma near_set (c c2 : cluster) i rf sent rf' sent' l l2 :
  up c i = Some (rf, sent) -> near i c c2 -> up (set_up c2 i rf' sent' l2) i = up (set_up c i rf' sent' l) i.
Proof.
  intros Hu Hn. rewrite (up_set_up c i rf sent) by done. apply (up_set_up c2 i rf sent). by rewrite (near_up _ _ _ Hn).
Qed.

Ltac bound := apply bind_Some; eexists; split; [eassumption|]; cbn beta iota.

(** An action depends on its node and its call only. *)
Lemma act_near_node i a (c c2 c' : cluster) :
  near i c c2 -> (forall k env, a <> Deliver k env) -> (forall k env, a <> Return k env) -> (forall k env, a <> GiveUp k env) ->
  actor a c = Some i -> act a c = Some c' -> actor a c2 = Some i /\ exists c2', act a c2 = Some c2' /\ up c2' i = up c' i.
Proof.
  intros Hn Hd Hr Hg Hi Ha. pose proof (near_up _ _ _ Hn) as Hup. pose proof (ne_len _ _ _ Hn) as Hlen.
  destruct a as [j env|j env|j env cmd|j p|k env|k env|k env|j]; cbn [act actor] in Hi, Ha |- *;
    [| | | |by edestruct Hd|by edestruct Hr|by edestruct Hg|]; injection Hi as ->; (split; [done|]).
  - apply bind_Some in Ha as ([rf sent] & Hu & (res & Ht & <-%(inj Some))%bind_Some). pose proof Hu as Hu2. rewrite <- Hup in Hu2.
    eexists. split; [by do 2 bound|by eapply near_set].
  - apply bind_Some in Ha as ([rf sent] & Hu & (res & Ht & <-%(inj Some))%bind_Some). pose proof Hu as Hu2. rewrite <- Hup in Hu2.
    eexists. split; [by do 2 bound|by eapply near_set].
  - apply bind_Some in Ha as ([rf sent] & Hu & (res & Ht & <-%(inj Some))%bind_Some). pose proof Hu as Hu2. rewrite <- Hup in Hu2.
    eexists. split; [by do 2 bound|by eapply near_set].
  - unfold act_send in *. apply bind_Some in Ha as ([rf sent] & Hu & Ha). pose proof Hu as Hu2. rewrite <- Hup in Hu2.
    rewrite <- Hlen in Ha. case_bool_decide as Hb; [|done]. apply bind_Some in Ha as (args & Ht & Ha).
    assert (Hx : exists c2', match args with
      | Some args => Some (set_up c2 i rf sent (mkRpc i p true (AppendCall args) :: net c2)) | None => Some c2 end = Some c2' /\
      up c2' i = up c' i).
    { destruct args as [args|]; injection Ha as <-; eexists; (split; [done|]); [by eapply near_set|done]. }
    destruct Hx as (c2' & Hc & Hx). exists c2'. split; [|done]. bound. by bound.
  - apply bind_Some in Ha as ([rf sent] & Hu & (res & Ht & <-%(inj Some))%bind_Some). pose proof Hu as Hu2. rewrite <- Hup in Hu2.
    eexists. split; [by do 2 bound|by eapply near_set].
Qed.

Lemma near_call i k (c c2 : cluster) r : near i c c2 -> net c !! k = Some r -> exists r2, net c2 !! k = Some r2 /\ same_for i r r2.
Proof. intros Hn Hr. destruct (Forall2_lookup_l _ _ _ _ _ (ne_net _ _ _ Hn) Hr) as (r2 & ? & ?). eauto. Qed.

Lemma deliver_near i k env (c c2 c' : cluster) :
  near i c c2 -> actor (Deliver k env) c = Some i -> act_deliver k env c = Some c' ->
  actor (Deliver k env) c2 = Some i /\ exists c2', act_deliver k env c2 = Some c2' /\ up c2' i = up c' i.
Proof.
  intros Hn Hi Ha. pose proof (near_up _ _ _ Hn) as Hup. unfold act_deliver in *. cbn [actor] in *.
  apply bind_Some in Ha as (r & Hr & ([rf sent] & Hu & Ha)%bind_Some). rewrite Hr in Hi. injection Hi as <-.
  destruct (near_call _ _ _ _ _ Hn Hr) as (r2 & Hr2 & _ & He & Hw & _). rewrite Hr2. split; [cbn; by rewrite He|].
  cbn [mbind option_bind]. rewrite He, Hw, Hup, Hu. cbn [mbind option_bind].
  destruct (what r) as [args| |args|]; try done; apply bind_Some in Ha as (res & Ht & <-%(inj Some)); eexists; (split; [by bound|by eapply near_set]).
Qed.

Lemma return_near i k env (c c2 c' : cluster) :
  near i c c2 -> actor (Return k env) c = Some i -> act_return k env c = Some c' ->
  actor (Return k env) c2 = Some i /\ exists c2', act_return k env c2 = Some c2' /\ up c2' i = up c' i.
Proof.
  intros Hn Hi Ha. pose proof (near_up _ _ _ Hn) as Hup. unfold act_return in *. cbn [actor] in *.
  apply bind_Some in Ha as (r & Hr & ([rf sent] & Hu & Ha)%bind_Some). rewrite Hr in Hi. injection Hi as <-.
  destruct (near_call _ _ _ _ _ Hn Hr) as (r2 & Hr2 & Hc & He & Hw & Haw). rewrite Hr2. split; [cbn; by rewrite Hc|].
  cbn [mbind option_bind]. rewrite Hc, Hw, Hup, Hu, (Haw eq_refl), He. cbn [mbind option_bind].
  destruct (awaited r); [|done].
  destruct (what r) as [|args reply| |args reply]; try done; apply bind_Some in Ha as (res & Ht & <-%(inj Some)); eexists; (split; [by bound|by eapply near_set]).
Qed.

Lemma giveup_near i k env (c c2 c' : cluster) :
  near i c c2 -> actor (GiveUp k env) c = Some i -> act_giveup k env c = Some c' ->
  actor (GiveUp k env) c2 = Some i /\ exists c2', act_giveup k env c2 = Some c2' /\ up c2' i = up c' i.
Proof.
  intros Hn Hi Ha. pose proof (near_up _ _ _ Hn) as Hup. unfold act_giveup in *. cbn [actor] in *.
  apply bind_Some in Ha as (r & Hr & ([rf sent] & Hu & Ha)%bind_Some). rewrite Hr in Hi. injection Hi as <-.
  destruct (near_call _ _ _ _ _ Hn Hr) as (r2 & Hr2 & Hc & He & Hw & Haw). rewrite Hr2. split; [cbn; by rewrite Hc|].
  cbn [mbind option_bind]. rewrite Hc, Hw, Hup, Hu, (Haw eq_refl), He. cbn [mbind option_bind].
  destruct (awaited r); [|done].
  destruct (what r) as [args|args reply|args|args reply];
    [injection Ha as <-; eexists; by split; [|eapply near_set]..| |];
    apply bind_Some in Ha as (res & Ht & <-%(inj Some)); eexists; (split; [by bound|by eapply near_set]).
Qed.

Lemma act_near i a (c c2 c' : cluster) :
  near i c c2 -> actor a c = Some i -> act a c = Some c' ->
  actor a c2 = Some i /\ exists c2', act a c2 = Some c2' /\ up c2' i = up c' i.
Proof.
  intros Hn. destruct a; [apply act_near_node; [done|done..]|apply act_near_node; [done|done..]|apply act_near_node; [done|done..]
    |apply act_near_node; [done|done..]|apply deliver_near, Hn|apply return_near, Hn|apply giveup_near, Hn|apply act_near_node; [done|done..]].
Qed.

(** An action changes its node only. *)
Lemma act_changes a (c c' : cluster) :
  act a c = Some c' -> exists i x, actor a c = Some i /\ up c i = Some x /\
    (c' = c \/ exists rf sent l, c' = set_up c i rf sent l).
Proof.
  destruct a as [i env|i env|i env cmd|i p|k env|k env|k env|i]; cbn [act actor];
    [| | |unfold act_send|unfold act_deliver|unfold act_return|unfold act_giveup|].
  1-3,8: intros ([rf sent] & Hu & (res & _ & <-%(inj Some))%bind_Some)%bind_Some; exists i, (rf, sent); eauto 10.
  - intros ([rf sent] & Hu & Ha)%bind_Some. case_bool_decide; [|done]. apply bind_Some in Ha as (args & _ & Ha).
    exists i, (rf, sent). destruct args; apply (inj Some) in Ha as <-; eauto 10.
  - intros (r & -> & ([rf sent] & Hu & Ha)%bind_Some)%bind_Some. exists (callee r), (rf, sent).
    destruct (what r); try done; apply bind_Some in Ha as (res & _ & <-%(inj Some)); eauto 10.
  - intros (r & -> & ([rf sent] & Hu & Ha)%bind_Some)%bind_Some. exists (caller r), (rf, sent).
    destruct (awaited r); [|done]. destruct (what r); try done; apply bind_Some in Ha as (res & _ & <-%(inj Some)); eauto 10.
  - intros (r & -> & ([rf sent] & Hu & Ha)%bind_Some)%bind_Some. exists (caller r), (rf, sent).
    destruct (awaited r); [|done]. destruct (what r); try (apply bind_Some in Ha as (res & _ & Ha)); apply (inj Some) in Ha as <-; eauto 10.
Qed.

Lemma act_others i j a (c c' : cluster) : act a c = Some c' -> actor a c = Some i -> j <> i -> up c' j = up c j.
Proof.
  intros (i' & x & Hi & _ & Hc)%act_changes Hi' Hj. rewrite Hi in Hi'. injection Hi' as ->.
  destruct Hc as [->|(rf & sent & l & ->)]; [done|]. by apply up_set_other.
Qed.

(** ** All nodes stop *)

(** What node [i] may leave when it is stopped in state [c]; with [faulty], also inside a
    write. *)
Inductive leaves (faulty : bool) (c : cluster) (i : nat) : list bytes -> Prop :=
  | leaves_idle rf sent : up c i = Some (rf, sent) -> leaves faulty c i (file (persister rf))
  | leaves_inside a c' nd nd' m :
      act a c = Some c' -> faulty = true \/ fresh_step c c' -> actor a c = Some i -> up c i = Some nd -> up c' i = Some nd' ->
      leaves faulty c i (halted (fst nd) (fst nd') m)
  | leaves_torn a c' nd nd' m k f :
      faulty = true -> act a c = Some c' -> actor a c = Some i -> up c i = Some nd -> up c' i = Some nd' ->
      torn (fst nd) (fst nd') m k = Some f -> leaves faulty c i f.

Lemma leaves_up faulty (c : cluster) i f : leaves faulty c i f -> is_Some (up c i).
Proof. by intros [? ? ->|? ? ? ? ? _ _ _ -> _|? ? ? ? ? ? ? _ _ _ -> _ _]. Qed.

(** The run has no faults, and its elections are fresh. *)
Definition sound_fresh (es : list fevent) (c : cluster) : Prop := exists es', es = Sound <$> es' /\ fresh_run es' c.

Lemma sound_fresh_nil (c : cluster) : sound_fresh [] c.
Proof. by exists []. Qed.

Lemma sound_fresh_cons e es (c c1 : cluster) :
  step e c = Some c1 -> fresh_event e c -> sound_fresh es c1 -> sound_fresh (Sound e :: es) c.
Proof.
  intros He Hf (es' & -> & Hfs). exists (e :: es'). split; [done|]. cbn [fresh_run]. split; [done|]. rewrite He. by intros ? [= <-].
Qed.

Lemma crash_step faulty i (c c2 : cluster) f :
  near i c c2 -> leaves faulty c i f -> exists e, fstep e c2 = Some (crash_node i f c2) /\
    (faulty = false -> exists e', e = Sound e' /\ fresh_event e' c2).
Proof.
  intros Hn Hl. pose proof (near_up _ _ _ Hn) as Hup.
  destruct Hl as [rf sent Hu|a c' nd nd' m Ha Hf Hi Hu Hu'|a c' nd nd' m k f Hfa Ha Hi Hu Hu' Ht].
  - exists (Sound (Crash i)). split; [|by exists (Crash i)]. cbn [fstep step]. by rewrite Hup, Hu.
  - exists (Sound (CrashIn a m)). destruct (act_near _ _ _ _ _ Hn Hi Ha) as (Hi2 & c2' & Ha2 & Hu2). split.
    + cbn [fstep step]. rewrite <- Hup in Hu. rewrite <- Hu2 in Hu'. repeat (apply bind_Some; eexists; (split; [eassumption|])). done.
    + intros Hq. destruct Hf as [Hf|Hf]; [congruence|]. exists (CrashIn a m). split; [done|].
      cbn [fresh_event]. intros c3 Ha3. rewrite Ha2 in Ha3. injection Ha3 as <-. intros j rf sent rf' sent' Huj Huj' Hst Hst'.
      destruct (decide (j = i)) as [->|Hne].
      * rewrite Hup in Huj. rewrite Hu2 in Huj'. by apply (Hf i rf sent rf' sent').
      * rewrite (act_others i j a c2 c2') in Huj' by done. congruence.
  - exists (CrashTorn a m k). destruct (act_near _ _ _ _ _ Hn Hi Ha) as (Hi2 & c2' & Ha2 & Hu2). split; [|congruence].
    cbn [fstep]. rewrite <- Hup in Hu. rewrite <- Hu2 in Hu'. repeat (apply bind_Some; eexists; (split; [eassumption|])). done.
Qed.

Lemma crash_all faulty ks fs (c c2 : cluster) :
  NoDup ks -> (forall i, i ∈ ks -> near i c c2) -> Forall2 (leaves faulty c) ks fs ->
  exists es c3, frun es c2 = Some c3 /\ (faulty = false -> sound_fresh es c2) /\ length (nodes c3) = length (nodes c2) /\
    (forall j, j ∉ ks -> nodes c3 !! j = nodes c2 !! j) /\ forall x i f, ks !! x = Some i -> fs !! x = Some f -> nodes c3 !! i = Some (Down f).
Proof.
  intros Hd. revert fs c2. induction Hd as [|i ks Hi Hd IH]; intros fs c2 Hn Hl.
  - exists [], c2. split_and!; try done. intros _. apply sound_fresh_nil.
  - apply Forall2_cons_inv_l in Hl as (f & fs' & Hf & Hl & ->). pose proof (Hn i ltac:(left)) as Hni.
    destruct (crash_step faulty i c c2 f Hni Hf) as (e & He & Hfe).
    assert (Hlt : (i < length (nodes c2))%nat).
    { rewrite (ne_len _ _ _ Hni). destruct (leaves_up _ _ _ _ Hf) as [[rf sent] Hu]. by apply up_lookup, lookup_lt_Some in Hu. }
    destruct (IH fs' (crash_node i f c2)) as (es & c3 & Hr & Hfr & Hlen & Hother & Hdown).
    { intros j Hj. apply near_crash; [apply Hn; by right|congruence]. }
    { done. }
    exists (e :: es), c3. cbn [frun]. rewrite He. split; [exact Hr|]. split.
    { intros Hq. destruct (Hfe Hq) as (e' & -> & Hfe'). exact (sound_fresh_cons e' es c2 _ He Hfe' (Hfr Hq)). }
    cbn [crash_node nodes] in Hlen, Hother. rewrite length_insert in Hlen. split; [done|]. split.
    + intros j [Hji Hj]%not_elem_of_cons. rewrite Hother by done. by rewrite list_lookup_insert_ne.
    + intros [|x] j g; cbn [lookup list_lookup]; [intros [= <-] [= <-]|apply Hdown].
      rewrite Hother by done. by rewrite list_lookup_insert_eq.
Qed.

(** All nodes of a cluster stop. *)
Lemma crash_cluster faulty n (c : cluster) fs :
  length (nodes c) = n -> Forall2 (leaves faulty c) (seq 0 n) fs ->
  exists es c', frun es c = Some c' /\ (faulty = false -> sound_fresh es c) /\ nodes c' = Down <$> fs.
Proof.
  intros Hn Hl. destruct (crash_all faulty (seq 0 n) fs c c) as (es & c' & Hr & Hf & Hlen & _ & Hd); [apply NoDup_seq|by intros; apply near_refl|done|].
  exists es, c'. split; [done|]. split; [done|]. apply Forall2_length in Hl. rewrite length_seq in Hl. apply list_eq. intros i. rewrite list_lookup_fmap.
  destruct (fs !! i) as [f|] eqn:Hfi.
  - apply (Hd i); [|done]. apply lookup_seq. split; [done|]. apply lookup_lt_Some in Hfi. lia.
  - apply lookup_ge_None in Hfi. apply lookup_ge_None. lia.
Qed.

(** ** All nodes start *)

Lemma restart_all n fs rfs : forall done_ (c : cluster),
  length (nodes c) = n -> nodes c = ((fun rf => Up rf []) <$> done_) ++ (Down <$> fs) ->
  (forall x f, fs !! x = Some f -> exists env rf, rfs !! x = Some rf /\
     Make env true n (Z.of_nat (length done_ + x)) (MakePersister f) = Some rf) ->
  length rfs = length fs ->
  exists es c', run es c = Some c' /\ fresh_run es c /\ nodes c' = (fun rf => Up rf []) <$> done_ ++ rfs.
Proof.
  revert rfs. induction fs as [|f fs IH]; intros [|rf rfs] done_ c Hn Hc Hm Hlen; try done.
  - exists [], c. split; [done|]. split; [done|]. rewrite Hc. by rewrite !app_nil_r.
  - destruct (Hm 0%nat f eq_refl) as (env & rf' & [= <-] & Hmk). rewrite Nat.add_0_r in Hmk.
    set (c1 := set_up c (length done_) rf [] (net c)).
    assert (Hs : step (Restart (length done_) env) c = Some c1).
    { cbn [step]. apply bind_Some. exists (Down f). rewrite Hn. split; [|by rewrite Hmk].
      rewrite Hc, lookup_app_r; rewrite length_fmap; [|done]. by rewrite Nat.sub_diag. }
    destruct (IH rfs (done_ ++ [rf]) c1) as (es & c' & Hr & Hf & Hc').
    + cbn. by rewrite length_insert.
    + cbn [c1 set_up nodes]. rewrite Hc, fmap_app, <- app_assoc. cbn [fmap list_fmap app].
      rewrite <- (length_fmap (fun rf => Up rf []) done_), insert_app_r_alt, Nat.sub_diag by done. done.
    + intros x g Hx. destruct (Hm (S x) g Hx) as (env1 & rf1 & Hrf & Hmk1). exists env1, rf1. split; [done|].
      rewrite length_app. cbn [length]. by rewrite <- Nat.add_assoc.
    + by injection Hlen.
    + exists (Restart (length done_) env :: es), c'. cbn [run fresh_run]. rewrite Hs. split; [done|]. split; [split; [done|by intros ? [= <-]]|].
      rewrite Hc'. by rewrite <- app_assoc.
Qed.
End Near.

(** ** The section that wins an election

    It writes nothing: a node that is killed in it leaves what it had. *)

Section Elect.
Context {Cmd : Type} `{GobLaws (Z * Z * list (LogEntry Cmd))}.
#[local] Abbreviation Raft := (Raft (Cmd := Cmd)).
#[local] Abbreviation cluster := (cluster (Cmd := Cmd)).
Context (n : nat) (Hn : (2 <= n)%nat) (g : ghost (Cmd := Cmd)) (c : cluster) (Hi : inv n g c).

Definition wins_quietly (rf rf' : Raft) : Prop :=
  state rf' = StateLeader -> state rf = StateLeader \/ persister rf' = persister rf.

Lemma core_quietly (rf rf' : Raft) : same_core rf rf' -> wins_quietly rf rf'.
Proof. intros (_ & _ & Hp & _) _. by right. Qed.

Lemma election_quietly args (rf rf' : Raft) : election_step args rf rf' -> wins_quietly rf rf'.
Proof. intros [_ _ Hs _ _ _] Hl. congruence. Qed.

Lemma reply_quietly (r : rpc (Cmd := Cmd)) k env args reply rf sent res :
  net c !! k = Some r -> (what r = AppendCall args /\ reply = None) \/ (exists x, what r = AppendRet args x /\ (reply = None \/ reply = Some x)) ->
  up c (caller r) = Some (rf, sent) -> handleAppendReply env (Z.of_nat (callee r)) args reply rf = Some res -> wins_quietly rf (fst res).
Proof.
  intros Hk Hw Hu Hr. pose proof (up_inv_of _ _ _ _ _ _ Hi Hu) as Hup. destruct (rpc_of _ _ _ _ _ Hi Hk) as (_ & _ & Hlt & Hcall).
  destruct res as [rf' b]. apply (handleAppendReply_inv n) in Hr as Hstep; [|apply Hup|done|apply Hup|done|].
  2:{ intros x -> Hst Ht. destruct Hw as [[_ Hx]|(y & Hy & [Hx|Hx])]; [done..|]. injection Hx as ->.
    rewrite Hy in Hcall. by apply (leader_fits n g c r (caller r) rf args y). }
  cbn [fst]. intros Hl. destruct Hstep; try (left; done); [|congruence].
  right. apply Hcore.
Qed.

Lemma deliver_quietly k r rf sent env :
  net c !! k = Some r -> up c (callee r) = Some (rf, sent) ->
  (forall args res, what r = VoteCall args -> RequestVote env args rf = Some res -> wins_quietly rf (snd res)) /\
  (forall args res, what r = AppendCall args -> AppendEntries env args rf = Some res -> wins_quietly rf (snd res)).
Proof.
  intros Hk Hu. split.
  - intros args [reply rf'] _ (ws & [])%RequestVote_spec Hl. cbn [snd] in *. destruct vs_state as [[Hst _]|[Hst _]]; [left|]; cbn in *; congruence.
  - intros args [reply rf'] Hw Hr Hl. pose proof (up_inv_of _ _ _ _ _ _ Hi Hu) as Hup.
    pose proof (rpc_of _ _ _ _ _ Hi Hk) as (_ & _ & _ & Hcall). rewrite Hw in Hcall.
    destruct (AppendEntries_inv env args rf reply rf') as (ws' & Hstep & _ & _); [apply Hcall| |exact Hr|].
    { pose proof (ok_terms _ _ (up_ok _ _ _ _ _ Hup)) as Hall. eapply Forall_impl; [exact Hall|]. cbn beta. lia. }
    cbn [snd] in *. left. destruct Hstep; congruence.
Qed.

Lemma act_quietly a c' i rf sent rf' sent' :
  act a c = Some c' -> actor a c = Some i -> up c i = Some (rf, sent) -> up c' i = Some (rf', sent') -> wins_quietly rf rf'.
Proof.
  intros Ha Hact Hu Hu'.
  assert (Hset : forall rf1 s1 l, c' = set_up c i rf1 s1 l -> rf' = rf1).
  { intros rf1 s1 l ->. rewrite (up_set_up _ _ _ _ _ _ _ Hu) in Hu'. by injection Hu'. }
  destruct a as [j env|j env|j env cmd|j p|k env|k env|k env|j]; cbn [act actor] in Ha, Hact;
    [injection Hact as ->|injection Hact as ->|injection Hact as ->|injection Hact as ->; unfold act_send in Ha
    |unfold act_deliver in Ha|unfold act_return in Ha|unfold act_giveup in Ha|injection Hact as ->].
  1-4,8: apply bind_Some in Ha as ([rf0 sent0] & Hu0 & Ha); rewrite Hu in Hu0; injection Hu0 as <- <-.
  - apply bind_Some in Ha as ([args rf1] & Ht & <-%(inj Some)). rewrite (Hset _ _ _ eq_refl). cbn [snd].
    apply ticker_turn_spec in Ht. destruct args as [args|]; [by apply election_quietly in Ht|subst; by right].
  - apply bind_Some in Ha as ([args rf1] & Ht & <-%(inj Some)). rewrite (Hset _ _ _ eq_refl). cbn [snd].
    by apply DebugForceElection_spec, election_quietly in Ht.
  - apply bind_Some in Ha as (res & Ht & <-%(inj Some)). rewrite (Hset _ _ _ eq_refl). apply Start_inv in Ht.
    case_decide; [intros _; by left|subst res; by right].
  - case_bool_decide; [|done]. apply bind_Some in Ha as (args & _ & Ha).
    destruct args; apply (inj Some) in Ha as <-; [rewrite (Hset _ _ _ eq_refl); by right|]. rewrite Hu in Hu'. injection Hu' as <- <-. by right.
  - apply bind_Some in Ha as ([msgs rf1] & Ht & <-%(inj Some)). rewrite (Hset _ _ _ eq_refl).
    apply (apply_turn_core n Hn) in Ht as (Hcore & _). by apply core_quietly.
  - apply bind_Some in Ha as (r & Hk & Ha). rewrite Hk in Hact. injection Hact as <-. rewrite Hu in Ha. cbn [mbind option_bind] in Ha.
    destruct (deliver_quietly k r rf sent env Hk Hu) as [Hv Hap].
    destruct (what r) as [args| |args|] eqn:Hw; try done; apply bind_Some in Ha as (res & Ht & <-%(inj Some)); rewrite (Hset _ _ _ eq_refl); eauto.
  - apply bind_Some in Ha as (r & Hk & Ha). rewrite Hk in Hact. injection Hact as <-. rewrite Hu in Ha. cbn [mbind option_bind] in Ha.
    destruct (awaited r); [|done].
    destruct (what r) as [|args reply| |args reply] eqn:Hw; try done; apply bind_Some in Ha as (res & Ht & <-%(inj Some)); rewrite (Hset _ _ _ eq_refl).
    + pose proof (up_inv_of _ _ _ _ _ _ Hi Hu) as Hup. destruct res as [rf1 b]. cbn [fst].
      destruct (handleVoteReply_spec n env args reply rf rf1 b (up_ok _ _ _ _ _ Hup) Ht) as [->| |]; [by right|intros Hl; congruence|by right].
    + apply (reply_quietly r k env args (Some reply) rf sent res Hk); [right; eauto|done|done].
  - apply bind_Some in Ha as (r & Hk & Ha). rewrite Hk in Hact. injection Hact as <-. rewrite Hu in Ha. cbn [mbind option_bind] in Ha.
    destruct (awaited r); [|done].
    destruct (what r) as [args|args reply|args|args reply] eqn:Hw; try (apply (inj Some) in Ha as <-; rewrite (Hset _ _ _ eq_refl); by right).
Qed.
End Elect.

(** ** The start of [main] *)

Lemma loop_each {S} (f : nat -> S -> option S) (P : nat -> S -> Prop) m : forall k s s',
  (forall i s s', P i s -> f i s = Some s' -> P (Datatypes.S i) s') -> P k s -> loop f (seq k m) s = Some s' -> P (k + m)%nat s'.
Proof.
  induction m as [|m IH]; intros k s s' Hf Hk; cbn [seq loop].
  - intros [= <-]. by rewrite Nat.add_0_r.
  - intros (s1 & Hs & Hl)%bind_Some. rewrite <- Nat.add_succ_comm. apply (IH _ s1); [done|by apply (Hf k s)|done].
Qed.

Section Boot.
Context `{GobLaws (Z * Z * list (LogEntry Op)), GobLaws RequestVoteArgs, GobLaws RequestVoteReply,
          GobLaws (AppendEntriesArgs Op), GobLaws AppendEntriesReply}.
#[local] Abbreviation Raft := (Raft (Cmd := Op)).
#[local] Abbreviation cluster := (cluster (Cmd := Op)).

Lemma peers_length i (rn : Labrpc.Network machine) x : connect_peers i rn = Some x -> length (fst x) = serverCount.
Proof.
  unfold connect_peers. intros Hl.
  apply (loop_each (connect_peer i) (fun j st => length (fst st) = j) serverCount 0 ([], rn)); [|done|done].
  intros j st st' Hj. unfold connect_peer. case_decide; [intros [= <-]|intros (y & _ & [= <-])%bind_Some]; cbn [fst];
    rewrite length_app; cbn [length]; lia.
Qed.

(** [Make] on the file of each node. *)
Lemma main_makes clocks env dirs p :
  main clocks env dirs = Some p ->
  length (p_rafts p) = serverCount /\ forall i rf, p_rafts p !! i = Some rf ->
    exists env dir, dirs !! i = Some dir /\ Make env true serverCount (Z.of_nat i) (MakePersister (raft_state dir)) = Some rf.
Proof.
  unfold main. intros (st & _ & Hl)%bind_Some.
  apply (loop_each _ (fun k p => length (p_rafts p) = k /\ forall i rf, p_rafts p !! i = Some rf ->
    exists env dir, dirs !! i = Some dir /\ Make env true serverCount (Z.of_nat i) (MakePersister (raft_state dir)) = Some rf)) in Hl;
    [done| |done].
  clear Hl p. intros k p p' [Hk Hp]. unfold boot_node.
  intros (dir & Hdir & (x & Hx & (rf & Hrf & (rn & _ & (kv & _ & <-%(inj Some))%bind_Some)%bind_Some)%bind_Some)%bind_Some)%bind_Some.
  cbn [p_rafts]. rewrite (peers_length _ _ _ Hx) in Hrf. split; [rewrite length_app; cbn [length]; lia|].
  intros i rf0 [Hi|[Hge Hi]]%lookup_app_Some; [by apply Hp|].
  destruct (i - length (p_rafts p))%nat as [|y] eqn:Hy; [|done]. injection Hi as <-. assert (i = k) as -> by lia. by eexists _, dir.
Qed.

(** ** Lives *)

Lemma boot_sim files s (c : cluster) :
  booted files s -> nodes c = Down <$> files -> length (nodes c) = serverCount ->
  exists es c', run es c = Some c' /\ fresh_run es c /\ sim s c'.
Proof.
  intros (clocks & env & dirs & p & Hm & Hfiles & ->) Hc Hn. destruct (main_makes clocks env dirs p Hm) as [Hlen Hmk].
  destruct (restart_all serverCount files (p_rafts p) [] c Hn) as (es & c' & Hr & Hf & Hc').
  - by rewrite Hc.
  - intros i f Hi. rewrite Hc, length_fmap in Hn. cbn [length Nat.add].
    destruct (lookup_lt_is_Some_2 (p_rafts p) i) as [rf Hrf]; [apply lookup_lt_Some in Hi; lia|].
    destruct (Hmk i rf Hrf) as (env' & dir & Hdir & Hmake). exists env', rf. split; [done|].
    rewrite <- Hfiles, list_lookup_fmap, Hdir in Hi. injection Hi as <-. exact Hmake.
  - rewrite Hlen, <- Hn, Hc. by rewrite length_fmap.
  - exists es, c'. split; [done|]. split; [done|]. split; [split|].
    + done.
    + cbn. by rewrite length_replicate.
    + rewrite Hc'. cbn [rafts running_of r_sys r_sent Labrpc.world Labrpc.init objs app]. clear. induction (p_rafts p) as [|rf l IH]; [done|].
      cbn. by f_equal.
    + exact (main_wired_ok clocks env dirs p Hm).
    + split.
      * exists []. split; [by constructor|]. apply submseteq_nil_l.
      * by split; cbn; intros *; try lia.
Qed.

Lemma halted_same (rf rf' : Raft) m : persister rf' = persister rf -> halted rf rf' m = file (persister rf).
Proof. unfold halted. intros ->. by replace (_ - _)%nat with 0%nat by lia. Qed.

Lemma two_three : (2 <= serverCount)%nat.
Proof. unfold serverCount. lia. Qed.

Lemma act_elects_nobody a (c c' : cluster) i rf sent rf' sent' :
  act a c = Some c' -> actor a c = Some i -> up c i = Some (rf, sent) -> up c' i = Some (rf', sent') ->
  (state rf' = StateLeader -> state rf = StateLeader) -> fresh_step c c'.
Proof.
  intros Ha Hj Hu Hu' Hst j rf0 s0 rf1 s1 Hu0 Hu1 Hn0 Hn1. destruct (decide (j = i)) as [->|Hne].
  - rewrite Hu in Hu0. injection Hu0 as <- <-. rewrite Hu' in Hu1. injection Hu1 as <- <-. by destruct (Hn0 (Hst Hn1)).
  - rewrite (act_others i j a c c' Ha Hj) in Hu1 by done. congruence.
Qed.

(** A kill inside the section that wins an election leaves what a kill before it leaves;
    every other section elects nobody. *)
Lemma stops_leaves faulty g s (c : cluster) i f :
  faulty = true \/ inv serverCount g c -> sim s c -> stops faulty s i f -> leaves faulty c i f.
Proof.
  intros Hi Hs [rf Hrf|e s1 rf rf' m Hst Hrf Hrf'|e s1 rf rf' m k f' Hfa Hst Hrf Hrf' Ht];
    destruct (sim_up _ _ _ _ (sim_base _ _ Hs) Hrf) as (sent & _ & Hu); [by eapply leaves_idle| |].
  - assert (Hsame : persister rf' = persister rf -> leaves faulty c i (halted rf rf' m)).
    { intros Hp. rewrite halted_same by done. by eapply leaves_idle. }
    destruct (section_sim s c e s1 Hs Hst) as [Hs1|(a & c' & Ha & Hs1)];
      destruct (sim_up _ _ _ _ (sim_base _ _ Hs1) Hrf') as (sent' & _ & Hu'); [apply Hsame; congruence|].
    destruct (act_changes a c c' Ha) as (j & x & Hj & _ & _). destruct (decide (j = i)) as [->|Hne];
      [|apply Hsame; rewrite (act_others j i a c c' Ha Hj) in Hu' by done; congruence].
    assert (Hin : faulty = true \/ (state rf' = StateLeader -> state rf = StateLeader) -> leaves faulty c i (halted rf rf' m)).
    { intros Hl. apply (leaves_inside faulty c i a c' (rf, sent) (rf', sent') m Ha); [|done..]. destruct Hl as [?|Hl]; [by left|right].
      exact (act_elects_nobody a c c' i _ _ _ _ Ha Hj Hu Hu' Hl). }
    destruct Hi as [Hi|Hi]; [by apply Hin; left|].
    destruct (decide (state rf' = StateLeader)) as [Hl|Hl]; [|by apply Hin; right].
    destruct (act_quietly serverCount two_three g c Hi a c' i rf sent rf' sent' Ha Hj Hu Hu' Hl) as [Hl0|Hp]; [by apply Hin; right|by apply Hsame].
  - assert (Hfile : file (persister rf') = file (persister rf) -> False).
    { intros He. unfold torn in Ht. case_bool_decide; [|done]. rewrite He in *. lia. }
    destruct (section_sim s c e s1 Hs Hst) as [Hs1|(a & c' & Ha & Hs1)];
      destruct (sim_up _ _ _ _ (sim_base _ _ Hs1) Hrf') as (sent' & _ & Hu'); [destruct Hfile; congruence|].
    destruct (act_changes a c c' Ha) as (j & x & Hj & _ & _). destruct (decide (j = i)) as [->|Hne].
    + by apply (leaves_torn faulty c i a c' (rf, sent) (rf', sent') m k f').
    + destruct Hfile. rewrite (act_others j i a c c' Ha Hj) in Hu' by done. congruence.
Qed.

Lemma kill_sim faulty g s (c : cluster) files :
  faulty = true \/ inv serverCount g c -> sim s c -> killed faulty s files ->
  exists es c', frun es c = Some c' /\ (faulty = false -> sound_fresh es c) /\
    nodes c' = Down <$> files /\ length (nodes c') = serverCount.
Proof.
  intros Hi Hs [Hlen Hst]. destruct (crash_cluster faulty serverCount c files) as (es & c' & Hr & Hf & Hc).
  - by eapply sim_length, Hs.
  - apply Forall2_same_length_lookup. rewrite length_seq, Hlen. split; [symmetry; by eapply sim_count, Hs|].
    intros i j f [-> _]%lookup_seq Hfi. by eapply stops_leaves, Hst.
  - exists es, c'. split_and!; [done|done|done|]. rewrite Hc, length_fmap, Hlen. by eapply sim_count, Hs.
Qed.

(** ** Fresh elections *)

Lemma fresh_then es es' (c c1 : cluster) :
  run es c = Some c1 -> fresh_run es c -> fresh_run es' c1 -> fresh_run (es ++ es') c.
Proof.
  revert c. induction es as [|e es IH]; intros c; cbn [run app fresh_run]; [by intros [= ->]|].
  intros (c2 & He & Hr)%bind_Some [Hf Hn] Hf'. split; [done|]. intros c3 Hc3. rewrite He in Hc3. injection Hc3 as <-. by apply IH; [|apply Hn|].
Qed.

Lemma sim_raft s (c : cluster) i rf sent : nodes_sim s c -> up c i = Some (rf, sent) -> raft_of s i = Some rf.
Proof.
  intros [_ _ Hn _] Hu%up_lookup. rewrite Hn, lookup_zip_with in Hu. unfold raft_of.
  apply bind_Some in Hu as (rf0 & -> & (sent0 & _ & Heq)%bind_Some). by injection Heq as ->.
Qed.

Lemma fresh_sim s s' (c c' : cluster) : sim s c -> sim s' c' -> fresh_election s s' -> fresh_step c c'.
Proof.
  intros Hs Hs' Hf i rf sent rf' sent' Hu Hu'. apply (Hf i); [by eapply sim_raft; [apply Hs|]|by eapply sim_raft; [apply Hs'|]].
Qed.

(** ** Runs *)

Definition all_fresh (ok : running -> running -> Prop) : Prop := forall s s', ok s s' -> fresh_election s s'.

(** The run has no faults; its elections are fresh if [fresh] is. *)
Definition clean_run (fresh : Prop) (es : list fevent) (c : cluster) : Prop :=
  exists es', es = Sound <$> es' /\ (fresh -> fresh_run es' c).

Lemma clean_app fresh es es' (c c1 : cluster) :
  frun es c = Some c1 -> clean_run fresh es c -> clean_run fresh es' c1 -> clean_run fresh (es ++ es') c.
Proof.
  intros Hr (l & -> & Hf) (l' & -> & Hf'). exists (l ++ l'). split; [by rewrite fmap_app|]. intros Hfr.
  apply (fresh_then l l' c c1); [by rewrite frun_sound in Hr|by apply Hf|by apply Hf'].
Qed.

Lemma clean_inv fresh g es (c c1 : cluster) :
  inv serverCount g c -> frun es c = Some c1 -> clean_run fresh es c -> exists g1, inv serverCount g1 c1.
Proof.
  intros Hi Hr (l & -> & _). rewrite frun_sound in Hr. destruct (run_inv serverCount two_three g l c c1 Hi Hr) as (g1 & _ & Hi1). by exists g1.
Qed.

Lemma step_sim (ok : running -> running -> Prop) e s1 s2 (c1 : cluster) :
  sim s1 c1 -> section e s1 = Some s2 -> ok s1 s2 ->
  exists es c2, frun es c1 = Some c2 /\ sim s2 c2 /\ clean_run (all_fresh ok) es c1.
Proof.
  intros Hs1 Hst Hok. destruct (section_sim s1 c1 e s2 Hs1 Hst) as [Hs2|(a & c2 & Hact & Hs2)].
  - exists [], c1. split_and!; [done|done|by exists []].
  - exists [Sound (Act a)], c2. split_and!; [cbn; by rewrite Hact|done|]. exists [Act a]. split; [done|].
    intros Hall. cbn [fresh_run fresh_event step]. split; [|done].
    intros c3 Hc3. rewrite Hact in Hc3. injection Hc3 as <-. eapply fresh_sim; [exact Hs1|exact Hs2|by apply Hall].
Qed.

Lemma later_sim faulty ok g s s' (c : cluster) :
  faulty = true \/ inv serverCount g c -> sim s c -> later faulty ok s s' ->
  exists es c', frun es c = Some c' /\ sim s' c' /\ (faulty = false -> clean_run (all_fresh ok) es c).
Proof.
  intros Hi Hs Ha. induction Ha as [|s1 e s2 _ IH Hst Hq Hok|s1 files s2 _ IH Hk Hb].
  - exists [], c. split_and!; [done|done|]. intros _. by exists [].
  - destruct IH as (es & c1 & Hr & Hs1 & Hf).
    assert (Hx : exists es1 c2, frun es1 c1 = Some c2 /\ sim s2 c2 /\ (faulty = false -> clean_run (all_fresh ok) es1 c1)).
    { destruct (pstep_cases e s1 s2 Hst) as [Hsec|Hrec].
      - destruct (step_sim ok e s1 s2 c1 Hs1 Hsec Hok) as (es1 & c2 & ? & ? & ?). by exists es1, c2.
      - destruct Hq as [Hq|Hsec].
        + destruct (recover_sim s1 c1 e s2 Hs1 Hrec) as (a & c2 & Hfs & Hs2). exists [Recovered a], c2.
          split_and!; [cbn [frun]; by rewrite Hfs|done|congruence].
        + destruct (step_sim ok e s1 s2 c1 Hs1 Hsec Hok) as (es1 & c2 & ? & ? & ?). by exists es1, c2. }
    destruct Hx as (es1 & c2 & Hr1 & Hs2 & Hf1). exists (es ++ es1), c2. split_and!; [by eapply frun_app|done|].
    intros Hfa. by apply (clean_app _ es es1 c c1); auto.
  - destruct IH as (es & c1 & Hr & Hs1 & Hf).
    assert (Hi1 : exists g1, faulty = true \/ inv serverCount g1 c1).
    { destruct Hi as [Hi|Hi]; [exists g; by left|]. destruct faulty; [exists g; by left|].
      destruct (clean_inv _ g es c c1 Hi Hr (Hf eq_refl)) as [g1 Hg1]. exists g1. by right. }
    destruct Hi1 as [g1 Hi1]. destruct (kill_sim faulty g1 s1 c1 files Hi1 Hs1 Hk) as (es1 & c2 & Hr1 & Hf1 & Hc2 & Hn2).
    destruct (boot_sim files s2 c2 Hb Hc2 Hn2) as (es2 & c3 & Hr2 & Hf2 & Hs2).
    assert (Hr2' : frun (Sound <$> es2) c2 = Some c3) by by rewrite frun_sound.
    exists (es ++ es1 ++ (Sound <$> es2)), c3. split_and!; [do 2 (eapply frun_app; [eassumption|]); done|done|].
    intros Hfa. apply (clean_app _ es _ c c1); [done|by apply Hf|]. apply (clean_app _ es1 _ c1 c2); [done| |by exists es2].
    destruct (Hf1 Hfa) as (l & -> & Hl). by exists l.
Qed.

Lemma lived_sim faulty ok s :
  lived faulty ok s -> exists es c, frun es (init serverCount) = Some c /\ sim s c /\
    (faulty = false -> clean_run (all_fresh ok) es (init serverCount)).
Proof.
  intros (s0 & Hb & Ha). destruct (boot_sim _ _ (init serverCount) Hb) as (es & c & Hr & Hf & Hs); [done|done|].
  destruct (reachable_inv serverCount two_three c ltac:(by exists es)) as (g & Hi).
  destruct (later_sim faulty ok g s0 s c (or_intror Hi) Hs Ha) as (es' & c' & Hr' & Hs' & Hf').
  assert (Hr1 : frun (Sound <$> es) (init serverCount) = Some c) by by rewrite frun_sound.
  exists ((Sound <$> es) ++ es'), c'. split_and!; [by eapply frun_app|done|].
  intros Hfa. apply (clean_app _ _ es' _ c); [done|by exists es|by apply Hf'].
Qed.

(** Without faults this is a run of the cluster. *)
Lemma lived_run ok s :
  lived false ok s -> exists es c, run es (init serverCount) = Some c /\ sim s c /\ (all_fresh ok -> fresh_run es (init serverCount)).
Proof.
  intros (es & c & Hr & Hs & Hf)%lived_sim. destruct (Hf eq_refl) as (l & -> & Hl). exists l, c. by rewrite frun_sound in Hr.
Qed.

Lemma later_run ok g s s' (c : cluster) :
  inv serverCount g c -> sim s c -> later false ok s s' ->
  exists es c', run es c = Some c' /\ sim s' c' /\ (all_fresh ok -> fresh_run es c).
Proof.
  intros Hi Hs Hl. destruct (later_sim false ok g s s' c (or_intror Hi) Hs Hl) as (es & c' & Hr & Hs' & Hf).
  destruct (Hf eq_refl) as (l & -> & Hfl). exists l, c'. by rewrite frun_sound in Hr.
Qed.

(** ** The start after a kill *)

Lemma boot_loop_total clocks compaction dirs servers m : forall k p st,
  loop (wire_node (raft_table) servers) (seq k m) (p_peers p, p_net p) = Some st ->
  (forall i, (k <= i < k + m)%nat -> exists dir, dirs !! i = Some dir /\
     (forall env npeers, is_Some (Make (Cmd := Op) env true npeers (Z.of_nat i) (MakePersister (raft_state dir)))) /\
     forall rf : Raft, is_Some (NewStore compaction (lsm_files dir) rf)) ->
  is_Some (loop (boot_node clocks compaction dirs servers) (seq k m) p).
Proof.
  induction m as [|m IH]; intros k p st; cbn [seq loop]; [by eexists|].
  intros (st1 & Hw & Hl)%bind_Some Hd. destruct (Hd k ltac:(lia)) as (dir & Hdir & Hmk & Hst).
  apply bind_Some in Hw as (x & Hx & (rn & Hrn & <-%(inj Some))%bind_Some). cbn [fst snd] in *.
  destruct (Hmk (clocks k) (length (fst x))) as [rf Hrf]. destruct (Hst rf) as [kv Hkv].
  set (p1 := mkProcess rn (p_peers p ++ [fst x]) (p_rafts p ++ [rf]) (p_stores p ++ [kv])).
  assert (Hb : boot_node clocks compaction dirs servers k p = Some p1).
  { apply bind_Some. exists dir. split; [exact Hdir|]. apply bind_Some. exists x. split; [exact Hx|].
    apply bind_Some. exists rf. split; [exact Hrf|]. apply bind_Some. exists rn. split; [exact Hrn|].
    apply bind_Some. exists kv. by split. }
  rewrite Hb. cbn [mbind option_bind]. apply (IH (S k) p1 st); [exact Hl|]. intros i Hi. apply Hd. lia.
Qed.

Lemma wiring_parts :
  exists st0 st, loop (add_server (W := machine)) (seq 0 serverCount) ([], Labrpc.MakeNetwork) = Some st0 /\
    loop (wire_node (raft_table) (fst st0)) (seq 0 serverCount) ([], snd st0) = Some st.
Proof.
  assert (Hx : forall st, wired (raft_table) = Some st -> exists st0,
    loop (add_server (W := machine)) (seq 0 serverCount) ([], Labrpc.MakeNetwork) = Some st0 /\
    loop (wire_node (raft_table) (fst st0)) (seq 0 serverCount) ([], snd st0) = Some st).
  { intros st. unfold wired. intros (st0 & Hadd & Hl)%bind_Some. exact (ex_intro _ st0 (conj Hadd Hl)). }
  destruct (wired_some (raft_table)) as [st Hw]. destruct (Hx st Hw) as (st0 & Ha & Hl).
  exact (ex_intro _ st0 (ex_intro _ st (conj Ha Hl))).
Qed.

(** [main] starts on any files of the Raft objects, when the engines find a map. *)
Lemma main_total clocks env dirs :
  length dirs = serverCount ->
  (forall dir, dir ∈ dirs -> exists m, holds_map (lsm_files dir) m 1) -> is_Some (main clocks env dirs).
Proof.
  intros Hlen Hlsm. destruct wiring_parts as (st0 & st & Hadd & Hl).
  destruct (boot_loop_total clocks (enableCompactionFromEnv env) dirs (fst st0) serverCount 0 (mkProcess (snd st0) [] [] []) st Hl) as [p Hp];
    [|exists p; apply bind_Some; exists st0; exact (conj Hadd Hp)].
  intros i Hi. destruct (lookup_lt_is_Some_2 dirs i) as [dir Hdir]; [lia|]. exists dir. split; [done|].
  apply list_elem_of_lookup_2 in Hdir. destruct (Hlsm dir Hdir) as (m & Hm). split.
  - intros env0 npeers. destruct (Make_any env0 npeers (Z.of_nat i) (raft_state dir)) as (rf & Hmk & _). by exists rf.
  - intros rf. destruct (NewStore_starts (enableCompactionFromEnv env) _ m 0 0 rf Hm eq_refl) as (x & Hx & _).
    by exists (NewKVStore x rf).
Qed.
End Boot.
