(* ===== verification/ProcessTheorems.v ===== *)
(** * Theorems of the running process

    The process with its goroutines, its network, its kills and its failing writes
    refines [Cluster]; so what holds in every reachable cluster holds in all lives of
    the program in which the writes of the state files succeed and the kills come
    between them. *)
From S2P Require Import EngineSpec.
From S2P Require Import StoreLsm.
From S2P Require Export ProcessLives.
From S2P Require Import Store.
From S2P Require Import Main.
From S2P Require Import LabrpcSpec.
From S2P Require Import ClusterSafety.
From S2P Require Import ClusterLive.
From S2P Require Import ClusterViews.
From S2P Require Import ClusterRuns.
From S2P Require Import Agreement.
From S2P Require Import NetTheorems.

Lemma bind_is_Some_inv {A B} (x : option A) (f : A -> option B) : is_Some (x ≫= f) -> exists a, x = Some a /\ is_Some (f a).
Proof. intros [b (a & Hx & Hf)%bind_Some]. eauto. Qed.

Section Process.
Context `{GobLaws (Z * Z * list (LogEntry Op)), GobLaws RequestVoteArgs, GobLaws RequestVoteReply,
          GobLaws (AppendEntriesArgs Op), GobLaws AppendEntriesReply}.
#[local] Abbreviation Raft := (Raft (Cmd := Op)).
#[local] Abbreviation cluster := (cluster (Cmd := Op)).
#[local] Abbreviation rpc := (rpc (Cmd := Op)).

(** ** What an enabled step needs *)

(** The server of a node runs the handler. *)
Lemma serve_raft srv j o w rf rep rf' :
  services srv = {[lit "Raft" := mkService (lit "Raft") (raft_table j)]} -> dispatchf srv = None ->
  objs w !! j = Some rf -> served_by (outside w) o rf rep rf' -> srv_dispatch srv (go_method o) (go_args o) w = Some (rep, set_obj j rf' w).
Proof.
  intros Hs Hd Hw Hserved. unfold srv_dispatch. rewrite Hd, Hs.
  assert (Hv : split_last_dot (lit "Raft.RequestVote") = Some (lit "Raft", lit "RequestVote")) by (vm_compute; reflexivity).
  assert (Ha : split_last_dot (lit "Raft.AppendEntries") = Some (lit "Raft", lit "AppendEntries")) by (vm_compute; reflexivity).
  assert (Tv : raft_table j !! lit "RequestVote" = Some (handler RequestVote j)) by reflexivity.
  assert (Ta : raft_table j !! lit "AppendEntries" = Some (handler AppendEntries j)) by reflexivity.
  destruct o as [a|a]; cbn [go_method go_args served_by] in *; destruct Hserved as (reply & Hr & ->); [rewrite Hv|rewrite Ha];
    cbn [mbind option_bind fst snd]; rewrite lookup_singleton_eq; cbn [mbind option_bind]; unfold svc_dispatch; cbn [methods];
    (apply bind_Some; eexists; split; [first [exact Tv|exact Ta]|]); unfold handler; rewrite gob_decode_encode; cbn [mbind option_bind];
    (apply bind_Some; eexists; split; [apply bind_Some; eexists; split; [exact Hw|apply bind_Some; eexists; split; [exact Hr|done]]|done]).
Qed.

(** A call in flight whose delivery does not panic. *)
Lemma served_some (c : cluster) m (r0 : rpc) o env rf sent :
  Cluster.net c !! m = Some r0 -> what r0 = as_call o -> up c (callee r0) = Some (rf, sent) ->
  is_Some (act (Deliver m env) c) -> exists rep rf', served_by env o rf rep rf'.
Proof.
  intros Hm Hw Hup Ha. cbn [act] in Ha. unfold act_deliver in Ha. rewrite Hm in Ha. cbn [mbind option_bind] in Ha.
  rewrite Hup, Hw in Ha. cbn [mbind option_bind] in Ha.
  destruct o as [a|a]; cbn [as_call] in Ha; apply bind_is_Some_inv in Ha as ([reply rf'] & Hr & _); eexists _, rf', reply; by split.
Qed.

Section Ready.
Context (g : ghost (Cmd := Op)) (s : running) (c : cluster) (Hs : sim s c) (Hi : inv serverCount g c).

Lemma ready_act a : writes_succeed a -> enabled a c = true -> (forall i, a <> Apply i) -> is_Some (act a c).
Proof. intros Hw. apply (act_total serverCount ltac:(unfold serverCount; lia) g); done. Qed.

Lemma ready_up i rf : raft_of s i = Some rf -> exists sent, up c i = Some (rf, sent) /\ is_up c i = true.
Proof. intros Hr. destruct (sim_up _ _ _ _ (sim_base _ _ Hs) Hr) as (sent & _ & Hu). exists sent. split; [done|]. unfold is_up. by rewrite Hu. Qed.

Lemma tick_some i env : saves env -> is_Some (raft_of s i) -> is_Some (p_tick i env s).
Proof.
  intros Hw [rf Hr]. destruct (ready_up i rf Hr) as (sent & Hu & Hup). apply (bind_is_Some _ rf); [done|].
  destruct (bind_is_Some_inv _ _ (ready_act (Tick i env) Hw Hup ltac:(done))) as ([rf1 sent1] & Hu1 & Ha).
  rewrite Hu in Hu1. injection Hu1 as <- <-. cbn beta iota in Ha. apply bind_is_Some_inv in Ha as (res & Ht & _).
  apply (bind_is_Some _ res); [done|]. by eexists.
Qed.
Lemma force_some i env : saves env -> is_Some (raft_of s i) -> is_Some (p_force i env s).
Proof.
  intros Hw [rf Hr]. destruct (ready_up i rf Hr) as (sent & Hu & Hup). apply (bind_is_Some _ rf); [done|].
  destruct (bind_is_Some_inv _ _ (ready_act (Force i env) Hw Hup ltac:(done))) as ([rf1 sent1] & Hu1 & Ha).
  rewrite Hu in Hu1. injection Hu1 as <- <-. cbn beta iota in Ha. apply bind_is_Some_inv in Ha as (res & Ht & _).
  apply (bind_is_Some _ res); [done|]. by eexists.
Qed.

Lemma client_some i env cmd : saves env -> is_Some (raft_of s i) -> is_Some (p_client i env cmd s).
Proof.
  intros Hw [rf Hr]. destruct (ready_up i rf Hr) as (sent & Hu & Hup). apply (bind_is_Some _ rf); [done|].
  destruct (bind_is_Some_inv _ _ (ready_act (Client i env cmd) Hw Hup ltac:(done))) as ([rf1 sent1] & Hu1 & Ha).
  rewrite Hu in Hu1. injection Hu1 as <- <-. cbn beta iota in Ha. apply bind_is_Some_inv in Ha as (res & Ht & _).
  apply (bind_is_Some _ res); [done|]. by eexists.
Qed.

Lemma send_some i j : is_Some (raft_of s i) -> is_Some (raft_of s j) -> i <> j -> is_Some (p_send i j s).
Proof.
  intros [rf Hr] [rfj Hrj%lookup_lt_Some] Hij. destruct (ready_up i rf Hr) as (sent & Hu & Hup). unfold p_send. rewrite Hr.
  assert (Hlen : length (nodes c) = length (rafts s)).
  { rewrite (sim_length _ _ (sim_base _ _ Hs)). symmetry. apply (sim_count _ _ (sim_base _ _ Hs)). }
  assert (He : enabled (Send i j) c = true) by (cbn [enabled]; rewrite Hup, Hlen; by rewrite bool_decide_eq_true_2).
  pose proof (ready_act (Send i j) I He ltac:(done)) as Ha. cbn [act] in Ha. unfold act_send in Ha. rewrite Hu, Hlen in Ha.
  cbn [mbind option_bind] in Ha |- *. rewrite bool_decide_eq_true_2 in Ha |- * by done.
  apply bind_is_Some_inv in Ha as (res & Ht & _). by rewrite Ht.
Qed.

Lemma call_some g0 go : r_gos s !! g0 = Some go -> g_at go = Calling -> is_Some (p_call g0 s).
Proof.
  intros Hg Hat. destruct Hs as [[_ _ _ Hwi] Hcs]. unfold p_call. rewrite Hg. cbn [mbind option_bind]. rewrite Hat.
  destruct (cs_gos _ _ _ Hcs) as (rs & Hf & _). destruct (Forall2_lookup_l _ _ _ _ _ Hf Hg) as (r & _ & (Hi1 & Hj1 & Hij) & _).
  destruct (wo_end _ _ Hwi _ _ Hi1 Hj1 Hij) as (e & -> & Hend). cbn [mbind option_bind]. unfold Call, Forward. rewrite Hend.
  cbn [mbind option_bind callf]. by rewrite (wo_listening _ _ Hwi).
Qed.

Lemma execute_some k r : saves (outside (world (r_sys s))) -> requests (r_sys s) !! k = Some r -> is_Some (exec_stage (at_stage r)) -> is_Some (execute k (r_sys s)).
Proof.
  intros Hw Hr [[sv f] Hst]. destruct Hs as [Hb Hc].
  destruct (calls_exec _ _ _ k r sv f Hc Hr Hst) as (go & m & r0 & (Hi1 & Hj & Hij) & Hq & -> & Hm & Hcallee & Hwhat & _).
  destruct (lookup_lt_is_Some_2 (rafts s) (g_callee go)) as [rf Hrf]; [by rewrite (sim_count _ _ Hb)|].
  destruct (ready_up _ rf Hrf) as (sent & Hu & Hup). rewrite <- Hcallee in Hu, Hup.
  assert (He : enabled (Deliver m (outside (world (r_sys s)))) c = true).
  { cbn [enabled]. rewrite Hm, Hup, Hwhat. by destruct (g_out go). }
  destruct (served_some c m r0 _ _ rf sent Hm Hwhat Hu (ready_act (Deliver m _) Hw He ltac:(done))) as (rep & rf' & Hserved).
  destruct (wo_server _ _ (sim_wired _ _ Hb) _ Hj) as (srv & Hsrv & Hsv & Hdf).
  assert (Hx : is_Some (dispatch_on (g_callee go) (req r) (r_sys s))).
  { unfold dispatch_on. rewrite Hsrv, Hq. cbn [mbind option_bind svcMeth args go_request].
    rewrite (serve_raft srv _ _ _ _ _ _ Hsv Hdf Hrf Hserved). cbn [mbind option_bind]. unfold on_server. by rewrite Hsrv. }
  destruct Hx as [x Hx]. unfold execute. rewrite Hr. cbn [mbind option_bind].
  destruct (at_stage r) as [|sn sv info| | |rep0 [sv|]]; try done; injection Hst as -> _; by rewrite Hx.
Qed.

Lemma take_some g0 go k env :
  saves env -> r_gos s !! g0 = Some go -> g_at go = Waits k -> is_Some (Labrpc.answer k (r_sys s)) -> is_Some (p_take g0 env s).
Proof.
  intros Hsv Hg Hat [rep Hans]. destruct Hs as [Hb Hc]. unfold p_take. rewrite Hg. cbn [mbind option_bind]. rewrite Hat, Hans. cbn [mbind option_bind].
  unfold Labrpc.answer in Hans. apply bind_Some in Hans as ([q st] & Hq & Hans). cbn [at_stage] in Hans. destruct st as [| | | |rep0 late]; try done.
  injection Hans as ->. destruct (calls_take _ _ _ g0 go k q rep late Hc Hg Hat Hq) as (m & w & (Hi1 & Hj & Hij) & Hm & Hcase).
  destruct (lookup_lt_is_Some_2 (rafts s) (g_caller go)) as [rf Hrf]; [by rewrite (sim_count _ _ Hb)|].
  destruct (ready_up _ rf Hrf) as (sent & Hu & Hup). unfold raft_of. rewrite Hrf. cbn [mbind option_bind].
  assert (Ht : is_Some (take_answer go env rep rf)); [|destruct Ht as [rf' ->]; by cbn].
  unfold take_answer. destruct (ok rep) eqn:Hok; destruct Hcase as [Hw _].
  - assert (He : enabled (Return m env) c = true).
    { cbn [enabled]. rewrite Hm. cbn [caller awaited what]. rewrite Hup. by destruct (g_out go); destruct Hw as (reply & _ & ->). }
    pose proof (ready_act (Return m env) Hsv He ltac:(done)) as Ha. cbn [act] in Ha. unfold act_return in Ha. rewrite Hm in Ha.
    cbn [mbind option_bind caller awaited what callee] in Ha. rewrite Hu in Ha. cbn [mbind option_bind] in Ha.
    destruct (g_out go) as [a|a]; destruct Hw as (reply & -> & ->); rewrite gob_decode_encode; cbn [mbind option_bind] in Ha |- *;
      apply bind_is_Some_inv in Ha as (res & Hres & _); by rewrite Hres.
  - assert (He : enabled (GiveUp m env) c = true).
    { cbn [enabled]. rewrite Hm. cbn [caller awaited]. by rewrite Hup. }
    pose proof (ready_act (GiveUp m env) I He ltac:(done)) as Ha. cbn [act] in Ha. unfold act_giveup in Ha. rewrite Hm in Ha.
    cbn [mbind option_bind caller awaited what callee] in Ha. rewrite Hu in Ha. cbn [mbind option_bind] in Ha.
    destruct (g_out go) as [a|a]; [by eexists|]. destruct Hw as [->|(b & reply & _ & ->)]; cbn [as_call] in Ha;
      apply bind_is_Some_inv in Ha as (res & Hres & _); by rewrite Hres.
Qed.

Lemma apply_some h i : commit_inv serverCount g h c -> is_Some (raft_of s i) -> is_Some (p_apply i s).
Proof.
  intros Hc [rf Hr]. destruct (ready_up i rf Hr) as (sent & Hu & Hup). apply (bind_is_Some _ rf); [done|].
  destruct (bind_is_Some_inv _ _ (apply_total serverCount g h c i Hi Hc Hup)) as ([rf1 sent1] & Hu1 & Ha).
  rewrite Hu in Hu1. injection Hu1 as <- <-. cbn beta iota in Ha. apply bind_is_Some_inv in Ha as (res & Ht & _).
  apply (bind_is_Some _ res); [done|]. by eexists.
Qed.
End Ready.

(** The moves of the network need nothing. *)
Lemma move_some (e : Labrpc.event machine) (sys : system machine) k r :
  request_of e = Some k -> requests sys !! k = Some r -> stage_ready e (at_stage r) = true -> (forall k, e <> EExecute k) ->
  is_Some (Labrpc.step e sys).
Proof.
  intros Hk Hr Hst He. destruct e as [|k' d|k'|k'|k' d1 d2|k'|]; try done; try (by edestruct He); injection Hk as ->; cbn [Labrpc.step];
    [unfold Labrpc.start|unfold Labrpc.poll_dead|unfold Labrpc.finish|unfold Labrpc.timer]; rewrite Hr; cbn [mbind option_bind];
    destruct (at_stage r); try done; repeat case_match; done.
Qed.

Lemma net_some g s (c : cluster) (e : Labrpc.event machine) env :
  saves env -> sim s c -> inv serverCount g c -> ready (PNet e env) s = true -> is_Some (p_net_step e env s).
Proof.
  intros Hw Hs%(sim_seeing env) Hg He. cbn [ready] in He. destruct (request_of e) as [k|] eqn:Hk; [|done]. cbn [mbind option_bind] in He.
  destruct (requests (r_sys s) !! k) as [r|] eqn:Hr; [|done].
  assert (Hm : moves_request e = true) by (by destruct e). unfold p_net_step. rewrite Hm.
  assert (Hst : is_Some (Labrpc.step e (see env (r_sys s)))); [|destruct Hst as [sys ->]; by eexists].
  destruct e as [|k' d|k'|k'|k' d1 d2|k'|]; try done; try (by apply (move_some _ (see env (r_sys s)) k r Hk Hr He)).
  injection Hk as ->. apply (execute_some g (seeing env s) c Hs Hg k r Hw Hr). cbn [stage_ready] in He.
  destruct (at_stage r) as [| | | |rep [sv|]]; try done; by eexists.
Qed.

(** ** The process

    [ok]: which steps the process takes; a statement for all [ok] is one for all steps.
    [later false], [lived false]: the writes of the state files succeed, and kills come
    between them. *)

Context (ok : running -> running -> Prop).

(** C4. The process refines the cluster: at any two moments of its lives, with steps of the
    nodes, the goroutines and the network, kills inside handlers and new starts between
    them, the Raft objects and what they have sent to their stores are the nodes of
    [Cluster] at two moments of one run. With faults, writes of a state file that fail or
    are cut short by a kill are the corresponding steps of [Cluster.fstep]; without them
    the run has only the steps of [Cluster.step]. *)
Theorem process_refines_cluster faulty s s' :
  lived faulty ok s -> later faulty ok s s' ->
  exists es es' c c', Cluster.frun es (Cluster.init serverCount) = Some c /\ Cluster.frun es' c = Some c' /\
    (faulty = false -> Forall sound (es ++ es')) /\
    nodes c = zip_with Up (rafts s) (r_sent s) /\ nodes c' = zip_with Up (rafts s') (r_sent s').
Proof.
  intros (es & c & Hr & Hs & Hc)%lived_sim Hl.
  assert (Hg : exists g, faulty = true \/ inv serverCount g c).
  { destruct faulty; [exists ghost0; by left|]. destruct (Hc eq_refl) as (l & -> & _). rewrite frun_sound in Hr.
    destruct (reachable_inv serverCount two_three c ltac:(by exists l)) as (g & Hg). exists g. by right. }
  destruct Hg as (g & Hg). destruct (later_sim faulty ok g s s' c Hg Hs Hl) as (es' & c' & Hr' & Hs' & Hc').
  exists es, es', c, c'. split_and!; [done|done| |apply Hs|apply Hs'].
  intros Hfa. destruct (Hc Hfa) as (l & -> & _), (Hc' Hfa) as (l' & -> & _). rewrite <- fmap_app. by apply Forall_fmap, Forall_true.
Qed.

(** C5. As long as the writes of the state files succeed, a process that has started does
    not end by itself: whatever its nodes and the network did, in this life or before, the
    calls find their service, the encoded arguments and replies are read back, and no
    handler and no critical section panics; the apply loop does not either when all
    elections were fresh. A request of the gateway does not end the process even when its
    write fails, since its panic is recovered. *)
Theorem process_never_panics s e :
  lived false ok s -> ready e s = true -> calm e \/ by_gateway e -> (forall i, e <> PApply i) \/ all_fresh ok ->
  is_Some (pstep e s) /\ (calm e -> is_Some (section e s)).
Proof.
  intros (es & c & Hrun & Hs & Hf)%lived_run He Hw Hap.
  destruct (reachable_inv serverCount two_three c ltac:(by exists es)) as (g & Hg).
  assert (Hsec : calm e -> is_Some (section e s)).
  { clear Hw. destruct e as [i env|i env|i env cmd|i|i j|g0|e env|g0 env]; cbn [ready section calm] in *; intros Hw.
    - apply (tick_some g s c Hs Hg); [done|]. by apply bool_decide_eq_true in He.
    - apply (force_some g s c Hs Hg); [done|]. by apply bool_decide_eq_true in He.
    - apply (client_some g s c Hs Hg); [done|]. by apply bool_decide_eq_true in He.
    - destruct Hap as [Hap|Hok]; [by destruct (Hap i)|]. apply bool_decide_eq_true in He.
      destruct (fresh_inv serverCount es c two_three (Hf Hok) Hrun) as (g' & h & Hi & Hc). by apply (apply_some g' s c Hs Hi h i Hc He).
    - apply bool_decide_eq_true in He as (Hri & Hrj & Hij). by apply (send_some g s c Hs Hg).
    - destruct (r_gos s !! g0) as [go|] eqn:Hgo; [|done]. cbn [fmap option_fmap option_map] in He. destruct (g_at go) eqn:Hat; try done.
      by apply (call_some s c Hs g0 go).
    - exact (net_some g s c e env Hw Hs Hg He).
    - destruct (r_gos s !! g0) as [go|] eqn:Hgo; [|done]. cbn [fmap option_fmap option_map] in He. destruct (g_at go) as [|k|k] eqn:Hat; try done.
      apply bool_decide_eq_true in He. by apply (take_some g s c Hs Hg g0 go k). }
  split; [|exact Hsec]. unfold pstep. destruct Hw as [Hw|Hw]; [destruct (Hsec Hw) as [s1 ->]; by eexists|].
  destruct (section e s) as [s1|] eqn:Hse; [by eexists|]. destruct e as [|i env|i env cmd| | | | |]; try done;
    cbn [ready section recover_request recovered] in *; apply bool_decide_eq_true in He as [rf Hr].
  - unfold p_force in Hse. rewrite Hr in Hse |- *. cbn [mbind option_bind] in Hse |- *.
    destruct (DebugForceElection env rf); [done|]. by eexists.
  - unfold p_client in Hse. rewrite Hr in Hse |- *. cbn [mbind option_bind] in Hse |- *.
    destruct (Start env cmd rf); [done|]. by eexists.
Qed.

(** C6. At most one node ever leads a term, in all lives of the program together, when the
    writes of the state files succeed and the kills come between them, inside the handlers
    that vote too: a node that leads it now and a node that leads it later are one. *)
Theorem program_elects_one_leader s s' i j (rf rf' : Raft) :
  lived false ok s -> later false ok s s' -> raft_of s i = Some rf -> raft_of s' j = Some rf' ->
  state rf = StateLeader -> state rf' = StateLeader -> currentTerm rf = currentTerm rf' -> i = j.
Proof.
  intros (es & c & Hrun & Hs & _)%lived_run Hl Hr Hr' Hst Hst' Ht.
  destruct (reachable_inv serverCount two_three c ltac:(by exists es)) as (g & Hg).
  destruct (later_run ok g s s' c Hg Hs Hl) as (es' & c' & Hrun' & Hs' & _).
  destruct (run_inv serverCount two_three g es' c c' Hg Hrun') as (g' & He & Hg').
  destruct (sim_up _ _ _ _ (sim_base _ _ Hs) Hr) as (sent & _ & Hu).
  destruct (sim_up _ _ _ _ (sim_base _ _ Hs') Hr') as (sent' & _ & Hu').
  destruct (leads_inv serverCount g c i (currentTerm rf) (log rf) Hg ltac:(by exists rf, sent)) as [Hled _].
  destruct (leads_inv serverCount g' c' j (currentTerm rf') (log rf') Hg' ltac:(by exists rf', sent')) as [Hled' _].
  eapply lookup_weaken in Hled; [|apply He]. congruence.
Qed.

(** C7. The stores of the program agree, in all its lives together, as long as its elections
    are fresh, the writes of the state files succeed and the kills come between them: of
    what a node has sent to its store since it started and what the same or another node
    has sent to its own then or later, one is the beginning of the other. *)
Theorem program_agrees s s' i j (rf rf' : Raft) l l' :
  all_fresh ok -> lived false ok s -> later false ok s s' -> raft_of s i = Some rf -> raft_of s' j = Some rf' ->
  r_sent s !! i = Some l -> r_sent s' !! j = Some l' -> l `prefix_of` l' \/ l' `prefix_of` l.
Proof.
  intros Hok (es & c & Hrun & Hs & Hf)%lived_run Hl Hr Hr' Hi Hj.
  destruct (reachable_inv serverCount two_three c ltac:(by exists es)) as (g & Hg).
  destruct (later_run ok g s s' c Hg Hs Hl) as (es' & c' & Hrun' & Hs' & Hf').
  assert (Hall : Cluster.run (es ++ es') (Cluster.init serverCount) = Some c') by by rewrite run_app, Hrun.
  destruct (fresh_history serverCount (es ++ es') c' two_three) as (hist & Hh); [by apply (fresh_then es es' _ c); auto|done|].
  destruct (sim_up _ _ _ _ (sim_base _ _ Hs) Hr) as (sent & Hse & Hu). rewrite Hi in Hse. injection Hse as <-.
  destruct (sim_up _ _ _ _ (sim_base _ _ Hs') Hr') as (sent' & Hse' & Hu'). rewrite Hj in Hse'. injection Hse' as <-.
  apply (prefix_weak_total l l' hist); [by apply (Hh es es' c i rf)|apply (Hh (es ++ es') [] c' j rf'); [by rewrite app_nil_r|done|done]].
Qed.

(** C9. After a kill, also inside a handler and inside a write of a state file, the program
    starts again, if the directories of the engines hold maps: no Raft object fails to
    start, each is a follower with the term, the vote and the log that [readPersist] takes
    from its file ([restart_pst]: a new node's when the file is torn), and the wiring
    succeeds. When the writes succeed and the kill comes between them, every file holds a
    state, and this is what the node restarts with. *)
Theorem program_restarts faulty s files clocks env dirs :
  lived faulty ok s -> killed faulty s files -> raft_state <$> dirs = files ->
  (forall dir, dir ∈ dirs -> exists m, holds_map (lsm_files dir) m 1) ->
  exists p, main clocks env dirs = Some p /\ forall i f, files !! i = Some f ->
    exists rf, raft_of (running_of p) i = Some rf /\ state rf = StateFollower /\ pst rf = restart_pst f /\
      (faulty = false -> disk_pst f = Some (pst rf)).
Proof.
  intros (es & c & Hrun & Hs & Hcl)%lived_sim Hk Hfiles Hlsm.
  assert (Hn : length dirs = serverCount).
  { destruct Hk as [Hlen _]. rewrite <- Hfiles, length_fmap in Hlen. rewrite Hlen. by eapply sim_count, Hs. }
  destruct (main_total clocks env dirs Hn Hlsm) as [p Hp]. exists p. split; [done|]. intros i f Hf.
  destruct (main_makes clocks env dirs p Hp) as [Hlen Hmk].
  destruct (lookup_lt_is_Some_2 (p_rafts p) i) as [rf Hrf].
  { apply lookup_lt_Some in Hf. rewrite <- Hfiles, length_fmap in Hf. lia. }
  destruct (Hmk i rf Hrf) as (env' & dir & Hdir & Hmake).
  assert (f = raft_state dir) as -> by (rewrite <- Hfiles, list_lookup_fmap, Hdir in Hf; by injection Hf as <-).
  destruct (Make_any env' serverCount (Z.of_nat i) (raft_state dir)) as (rf' & Hmake' & Hpst & Hst & _).
  rewrite Hmake in Hmake'. injection Hmake' as <-. exists rf. split_and!; [done|done|done|]. intros Hfa.
  destruct (Hcl Hfa) as (l & -> & _). rewrite frun_sound in Hrun.
  destruct (reachable_inv serverCount two_three c ltac:(by exists l)) as (g & Hg).
  destruct (kill_sim faulty g s c files (or_intror Hg) Hs Hk) as (es' & c' & Hrun' & Hf' & Hc' & _).
  destruct (Hf' Hfa) as (l' & -> & _). rewrite frun_sound in Hrun'.
  destruct (run_inv serverCount two_three g l' c c' Hg Hrun') as (g' & _ & Hg').
  destruct (inv_nodes _ _ _ Hg' i (Down (raft_state dir))) as (q & [Hq Hne] & _); [by rewrite Hc', list_lookup_fmap, Hf|].
  by rewrite Hpst, (restart_pst_disk _ q Hq Hne).
Qed.
End Process.

(** ** Instances *)

#[local] Abbreviation Raft := (Raft (Cmd := Op)).

(** Goroutine [g] makes the [k]-th call of the process, and takes its answer. *)
Definition round_trip (g k : nat) : list pevent :=
  [PCall g; PNet (EStart k 0) clock; PNet (EExecute k) clock; PNet (EFinish k 0 0) clock; PTake g clock].

Definition write1 : Op := put_op (lit "k") (lit "v") 7.
Definition write2 : Op := put_op (lit "k") (lit "w") 8.

(** Node 0 leads with the vote of node 1, commits a write with it and applies it; its
    call for the vote of node 2 arrives late. *)
Definition first_life : list pevent :=
  PForce 0 clock :: round_trip 0 0 ++ [PClient 0 clock write1; PSend 0 1] ++ round_trip 2 1 ++
  [PApply 0; PCall 1; PNet (EStart 2 0) clock].

(** The process is killed while node 2 handles this call: it adopts the term and then
    votes, with a write of its file each. *)
Definition late_vote : pevent := PNet (EExecute 2) clock.
Definition killed_in (stop : Raft -> Raft -> option (list bytes)) (s : running) : option (list (list bytes)) :=
  s1 ← section late_vote s;
  rf0 ← raft_of s 0; rf1 ← raft_of s 1; rf2 ← raft_of s 2; rf2' ← raft_of s1 2;
  f ← stop rf2 rf2';
  Some [file (persister rf0); file (persister rf1); f].

(** Between these writes, and inside the second one. *)
Definition between (rf rf' : Raft) : option (list bytes) := Some (halted rf rf' 1).
Definition inside (rf rf' : Raft) : option (list bytes) := torn rf rf' 1 3.

Definition stop_ok (faulty : bool) (stop : Raft -> Raft -> option (list bytes)) : Prop :=
  forall rf rf' f, stop rf rf' = Some f ->
    (exists m, f = halted rf rf' m) \/ (faulty = true /\ exists m n, torn rf rf' m n = Some f).

(** In the next life node 1 leads with the vote of node 0, and commits a second write. *)
Definition second_life : list pevent :=
  PForce 1 clock :: round_trip 0 0 ++ [PClient 1 clock write2; PSend 1 0] ++ round_trip 2 1 ++ [PApply 1].

Definition fresh_check (s s' : running) : bool :=
  forallb (fun i => match raft_of s i, raft_of s' i with
    | Some rf, Some rf' =>
        bool_decide (state rf = StateLeader) || negb (bool_decide (state rf' = StateLeader)) || forallb (Z.eqb 0) (matchIndex rf')
    | _, _ => true
    end) (seq 0 (length (rafts s))).

Fixpoint fresh_prun (es : list pevent) (s : running) : option running :=
  match es with
  | [] => Some s
  | e :: es => s' ← section e s; if fresh_check s s' then fresh_prun es s' else None
  end.

Definition dirs_of (fs : list (list bytes)) : list node_dir := (fun f => mkDir f ∅) <$> fs.

Definition life (fs : list (list bytes)) (es : list pevent) : option running :=
  p ← main still [] (dirs_of fs); fresh_prun es (running_of p).

(** Two lives, with a kill between them. *)
Definition two_lives (es : list pevent) (stop : Raft -> Raft -> option (list bytes)) (es' : list pevent) :
    option (running * running) :=
  s ← life (replicate serverCount []) es;
  fs ← killed_in stop s;
  s' ← life fs es';
  Some (s, s').

Definition leads_at (i : nat) (t : Z) (s : running) : bool :=
  match raft_of s i with Some rf => bool_decide (state rf = StateLeader /\ currentTerm rf = t) | None => false end.

Definition has_sent (i : nat) (cmds : list Op) (s : running) : bool :=
  match r_sent s !! i with Some l => bool_decide (MsgCommand <$> l = Some <$> cmds) | None => false end.

Definition lives_check (s s' : running) : bool :=
  leads_at 0 1 s && leads_at 1 2 s' && has_sent 0 [write1] s && has_sent 1 [write1; write2] s' && ready late_vote s.

Lemma fresh_check_ok s s' : fresh_check s s' = true -> fresh_election s s'.
Proof.
  unfold fresh_check. rewrite forallb_forall. intros Hc i rf rf' Hr Hr' Hst Hst'. specialize (Hc i). rewrite Hr, Hr', in_seq in Hc.
  specialize (Hc ltac:(apply lookup_lt_Some in Hr; lia)). rewrite bool_decide_eq_false_2, bool_decide_eq_true_2 in Hc by done.
  cbn [orb negb] in Hc. apply Forall_forall. intros m Hm. rewrite forallb_forall in Hc.
  specialize (Hc m ltac:(by apply list_elem_of_In)). lia.
Qed.

#[local] Abbreviation later faulty := (later faulty fresh_election).
#[local] Abbreviation lived faulty := (lived faulty fresh_election).

Lemma later_trans faulty (s s1 s2 : running) : later faulty s s1 -> later faulty s1 s2 -> later faulty s s2.
Proof. intros Hl Hr. induction Hr; [done|by eapply later_step|by eapply later_kill]. Qed.

Lemma prun_later faulty (es : list pevent) (s s1 : running) : fresh_prun es s = Some s1 -> later faulty s s1.
Proof.
  revert s. induction es as [|e es IH]; intros s; cbn [fresh_prun]; [intros [= <-]; constructor|].
  intros (s2 & He & Hr)%bind_Some. destruct (fresh_check s s2) eqn:Hf; [|done]. apply fresh_check_ok in Hf.
  apply (later_trans faulty s s2); [|by apply IH]. apply (later_step faulty fresh_election s s e s2); [constructor| |by right|done].
  unfold pstep. by rewrite He.
Qed.

Lemma dirs_files fs : raft_state <$> dirs_of fs = fs.
Proof. unfold dirs_of. rewrite <- list_fmap_compose. apply list_fmap_id. Qed.

Lemma life_boots faulty fs es s : life fs es = Some s -> exists s0, booted fs s0 /\ later faulty s0 s.
Proof.
  intros (p & Hp & Hr)%bind_Some. exists (running_of p). split; [|by eapply prun_later].
  exists still, [], (dirs_of fs), p. split_and!; [done|apply dirs_files|done].
Qed.

Lemma killed_in_ok faulty stop s fs c : stop_ok faulty stop -> sim s c -> killed_in stop s = Some fs -> killed faulty s fs.
Proof.
  intros Hok Hs (s1 & H1 & (rf0 & Hr0 & (rf1 & Hr1 & (rf2 & Hr2 & (rf2' & Hr2' & (f & Hf & [= <-])%bind_Some)%bind_Some)%bind_Some)%bind_Some)%bind_Some)%bind_Some.
  split; [symmetry; by eapply sim_count, Hs|]. intros [|[|[|i]]] f'; cbn; [intros [= <-]..|done].
  - by constructor.
  - by constructor.
  - destruct (Hok rf2 rf2' f Hf) as [[m ->]|(-> & m & n & Ht)]; [by eapply stops_inside|by eapply stops_torn].
Qed.

Lemma two_lives_ok faulty es stop es' s s' : stop_ok faulty stop -> two_lives es stop es' = Some (s, s') ->
  lived faulty s /\ (exists fs, killed_in stop s = Some fs /\ killed faulty s fs /\ length fs = 3%nat) /\ later faulty s s'.
Proof.
  intros Hok. unfold two_lives. intros (s0 & Hs & (fs & Hfs & (s1 & Hs' & [= -> ->])%bind_Some)%bind_Some)%bind_Some.
  destruct (life_boots faulty _ _ _ Hs) as (b & Hb & Hbs), (life_boots faulty _ _ _ Hs') as (b' & Hb' & Hbs').
  assert (Hlived : lived faulty s) by exact (ex_intro _ b (conj Hb Hbs)). split; [exact Hlived|].
  destruct (lived_sim faulty _ s Hlived) as (es0 & c & _ & Hsim & _). pose proof (killed_in_ok faulty stop s fs c Hok Hsim Hfs) as Hk. split.
  - exists fs. split; [exact Hfs|]. split; [exact Hk|]. destruct Hk as [-> _]. by eapply sim_count, Hsim.
  - apply (later_trans faulty s b'); [|exact Hbs']. exact (later_kill faulty _ s s fs b' (later_now faulty _ s) Hk Hb').
Qed.

Definition checked (o : option (running * running)) : bool :=
  match o with Some (s, s') => lives_check s s' | None => false end.

Lemma checked_some o : checked o = true -> exists s s', o = Some (s, s') /\ lives_check s s' = true.
Proof. destruct o as [[s s']|]; [|done]. intros Hc. by exists s, s'. Qed.

Lemma lives_ok faulty stop es es' : stop_ok faulty stop -> checked (two_lives es stop es') = true -> exists s s', lived faulty s /\
  (exists fs, killed_in stop s = Some fs /\ killed faulty s fs /\ length fs = 3%nat) /\ later faulty s s' /\ lives_check s s' = true.
Proof.
  intros Hok (s & s' & Hl & Hc)%checked_some. destruct (two_lives_ok faulty es stop es' s s' Hok Hl) as (Hs & Hk & Hl').
  exists s, s'. exact (conj Hs (conj Hk (conj Hl' Hc))).
Qed.

Lemma between_ok : stop_ok false between.
Proof. intros rf rf' f [= <-]. left. by exists 1%nat. Qed.

Lemma inside_ok : stop_ok true inside.
Proof. intros rf rf' f Ht. right. split; [done|]. by exists 1%nat, 3%nat. Qed.

Lemma between_run : checked (two_lives first_life between second_life) = true.
Proof. vm_compute. reflexivity. Qed.

Lemma inside_run : checked (two_lives first_life inside second_life) = true.
Proof. vm_compute. reflexivity. Qed.

Lemma lives_facts s s' : lives_check s s' = true ->
  leads_at 0 1 s = true /\ leads_at 1 2 s' = true /\ has_sent 0 [write1] s = true /\ has_sent 1 [write1; write2] s' = true /\ ready late_vote s = true.
Proof. unfold lives_check. rewrite !andb_true_iff. tauto. Qed.

Lemma leads_at_raft i t s : leads_at i t s = true -> exists rf, raft_of s i = Some rf /\ state rf = StateLeader /\ currentTerm rf = t.
Proof. unfold leads_at. destruct (raft_of s i) as [rf|]; [|done]. intros [Hst Ht]%bool_decide_eq_true. by exists rf. Qed.

Lemma has_sent_list i cmds s : has_sent i cmds s = true -> exists l, r_sent s !! i = Some l /\ MsgCommand <$> l = Some <$> cmds.
Proof.
  unfold has_sent. destruct (r_sent s !! i) as [l|]; [|done]. intros Hc%bool_decide_eq_true. by exists l.
Qed.

(** With a kill inside a write between the two lives. *)
Lemma process_refines_cluster_witness :
  exists s s' es es' c c', lives_check s s' = true /\
    Cluster.frun es (Cluster.init serverCount) = Some c /\ Cluster.frun es' c = Some c' /\
    nodes c = zip_with Up (rafts s) (r_sent s) /\ nodes c' = zip_with Up (rafts s') (r_sent s').
Proof.
  destruct (lives_ok true inside _ _ inside_ok inside_run) as (s & s' & Hs & _ & Hl & Hc).
  destruct (process_refines_cluster fresh_election true s s' Hs Hl) as (es & es' & c & c' & Hr & Hr' & _ & Hn).
  exists s, s', es, es', c, c'. exact (conj Hc (conj Hr (conj Hr' Hn))).
Defined.

Lemma program_elects_one_leader_witness :
  exists s rf, lived false s /\ raft_of s 0 = Some rf /\ state rf = StateLeader /\
    forall s' j rf', later false s s' -> raft_of s' j = Some rf' -> state rf' = StateLeader -> currentTerm rf' = currentTerm rf -> j = 0%nat.
Proof.
  destruct (lives_ok false between _ _ between_ok between_run) as (s & s' & Hs & _ & _ & (H1 & _)%lives_facts).
  destruct (leads_at_raft _ _ _ H1) as (rf & Hr & Hst & _).
  exists s, rf. split_and!; [done|done|done|]. intros s1 j rf' Hl Hr' Hst' Ht.
  symmetry. exact (program_elects_one_leader fresh_election s s1 0 j rf rf' Hs Hl Hr Hr' Hst Hst' (eq_sym Ht)).
Defined.

(** The call for the vote of node 2 is about to be executed. *)
Lemma process_never_panics_witness : exists s, lived false s /\ ready late_vote s = true /\ is_Some (section late_vote s).
Proof.
  destruct (lives_ok false between _ _ between_ok between_run) as (s & s' & Hs & _ & _ & (_ & _ & _ & _ & Hc)%lives_facts).
  exists s. split; [exact Hs|]. split; [exact Hc|].
  apply (process_never_panics fresh_election s late_vote Hs Hc); [left; by intros k|left; by intros i|by intros k].
Defined.

(** What node 0 has sent in the first life is the beginning of what node 1 sends in the
    second. *)
Lemma program_agrees_witness :
  exists s s' l l', lived false s /\ later false s s' /\ r_sent s !! 0%nat = Some l /\ r_sent s' !! 1%nat = Some l' /\
    MsgCommand <$> l = [Some write1] /\ MsgCommand <$> l' = [Some write1; Some write2] /\ l `prefix_of` l'.
Proof.
  destruct (lives_ok false between _ _ between_ok between_run) as (s & s' & Hs & _ & Hl & (H1 & H2 & H3 & H4 & _)%lives_facts).
  destruct (leads_at_raft _ _ _ H1) as (rf & Hr & _), (leads_at_raft _ _ _ H2) as (rf' & Hr' & _).
  destruct (has_sent_list _ _ _ H3) as (l & Hi & Hcmd), (has_sent_list _ _ _ H4) as (l' & Hj & Hcmd').
  exists s, s', l, l'. split_and!; [done|done|done|done|done|done|].
  destruct (program_agrees fresh_election s s' 0 1 rf rf' l l' (fun a b Hf => Hf) Hs Hl Hr Hr' Hi Hj) as [Hp|Hp]; [done|].
  apply prefix_length in Hp. apply (f_equal length) in Hcmd, Hcmd'. rewrite !length_fmap in Hcmd, Hcmd'. cbn in *. lia.
Defined.

(** After the kill inside the write node 2 starts as a new node; after the one between the
    writes every node starts with the state of its file. *)
Lemma program_restarts_witness :
  (exists s fs p, lived true s /\ killed_in inside s = Some fs /\ main still [] (dirs_of fs) = Some p /\
    forall i f, fs !! i = Some f -> exists rf, raft_of (running_of p) i = Some rf /\ pst rf = restart_pst f) /\
  exists s fs p, lived false s /\ killed_in between s = Some fs /\ main still [] (dirs_of fs) = Some p /\
    forall i f, fs !! i = Some f -> exists rf, raft_of (running_of p) i = Some rf /\ disk_pst f = Some (pst rf).
Proof.
  assert (Hlsm : forall fs dir, dir ∈ dirs_of fs -> exists m, holds_map (lsm_files dir) m 1).
  { intros fs dir (f & -> & _)%list_elem_of_fmap. exists ∅. cbn [lsm_files]. apply holds_map_empty. reflexivity. }
  split.
  - destruct (lives_ok true inside _ _ inside_ok inside_run) as (s & _ & Hs & (fs & Hf & Hk & _) & _).
    destruct (program_restarts fresh_election true s fs still [] (dirs_of fs) Hs Hk (dirs_files fs) (Hlsm fs)) as (p & Hp & Hall).
    exists s, fs, p. split_and!; [done|done|done|]. intros i f Hi. destruct (Hall i f Hi) as (rf & Hr & _ & Hpst & _). by exists rf.
  - destruct (lives_ok false between _ _ between_ok between_run) as (s & _ & Hs & (fs & Hf & Hk & _) & _).
    destruct (program_restarts fresh_election false s fs still [] (dirs_of fs) Hs Hk (dirs_files fs) (Hlsm fs)) as (p & Hp & Hall).
    exists s, fs, p. split_and!; [done|done|done|]. intros i f Hi. destruct (Hall i f Hi) as (rf & Hr & _ & _ & Hd). exists rf. auto.
Defined.
